(* ===== verification/_CoqProject ===== *)
-Q . S2P
Prelude.v
Counting.v
Sql.v
Text.v
Json.v
JsonSpec.v
Types.v
Store.v
Logic.v
Float64.v
JsonCheck.v
JobTags.v
JobId.v
Calendar.v
Dates.v
Cron.v
Codec.v
Insert.v
Finalize.v
Claim.v
Control.v
Leases.v
Workflow.v
Cluster.v
Topics.v
Messaging.v
Listing.v
Unique.v
Inserting.v
Building.v
Periodic.v
Effective.v
Conn.v
Execute.v
Flush.v
Duties.v
Settle.v
Drain.v
Evolution.v
Engine.v
Leader.v
Steps.v
Producer.v
Notifier.v
Await.v
Leasing.v
ClaimSpec.v
FinalizeSpec.v
Frame.v
ClusterSpec.v
LeaderSpec.v
StreamSpec.v
TopicSpec.v
LeaseSpec.v
InsertSpec.v
ListingSpec.v
CodecSpec.v
WorkflowSpec.v
UniqueSpec.v
InsertingSpec.v
OneAtATime.v
BuildingSpec.v
CronSpec.v
PeriodicSpec.v
PeriodicRuns.v
PeriodicSet.v
EffectiveSpec.v
ExecuteSpec.v
FlushSpec.v
SettleSpec.v
DrainSpec.v
ConnSpec.v
DutiesSpec.v
ProgressKept.v
StepsSpec.v
ProducerSpec.v
NotifierSpec.v
LeasingSpec.v
Scenarios.v
