(* ===== verification/Prelude.v ===== *)
(** * hopper: a verification development

    hopper is a job queue kept in a database.  Clients insert jobs, claim them
    from queues, run them and finalize them; a leader client runs periodic jobs
    and sweeps; workflows, batches, message topics and event streams are built
    from jobs.  A driver (package driver) is the contract between the clients
    and a database engine; this development models the engine the repository
    writes in Go, the SQLite one (driver/hoppersqlite), the packages it shares
    with the others (driver, driver/internal/jobcodec, internal/jobtags), and of
    the client: inserts with their unique keys, batches and workflows; the
    producer that claims a queue's jobs and runs them; the steps of a job and what
    an attempt's end makes of it, leased attempts included; the finalizer that
    writes results and the notifier that announces work; the leader's election and
    duties; periodic jobs and cron schedules.

    ** How the program is modelled

    The state is [Store.DB]: a record of tables, each the list of its rows in
    rowid order, with the AUTOINCREMENT counters.  A SQL statement is the list
    operation it denotes (Sql.v: [sel], [upd], [del], [cnt], [ex], [order_by],
    [limit]); one that changes the live table goes through [exec_jobs] or
    [insert_row], which fail when the table it leaves breaks a CHECK or unique
    index of the schema.  A SELECT without ORDER BY yields rowid order.

    A write in progress (executor.go's [w]) is the monad [Store.W]: a function
    of the write's time, read once, its random bytes and the database, to an
    error or a value and a database.  [Store.write] is executor.write: an error
    leaves the database as it was.  An operation of the executor is a function
    [params -> w -> DB -> result _ * DB], and holds the single write lock, so it
    is one atomic step.  Operations that give up on the lock take a [busy] flag
    that says whether they had to.  A Go panic is the error [ErrPanic].

    Where operations interleave below that, the model is a step relation:
    [Conn.conn_step] for the connections of a process at the write lock,
    [Drain.fin_step] for the goroutines that submit results and the one that
    drains them, one atomic operation at a time, and [Settle.retry_step] for the
    retrier of batches beside the finalizer.  Of whole clients over the engine:
    [Leader.sys_step], any number of leader loops, a statement at a time, with
    answers late or lost, where every client has a clock of its own and the engine
    another, and only a run said to be timely bounds the one against the other;
    [Producer.produce], a producer's loop and its jobs'
    goroutines; [Notifier.notify_step], marks, timers and flushes; and
    [Await.registered], calls of Await over the slice they share, by address and
    length.  What SQLite or the driver answers is
    then an argument, and ghost fields say what the code does not keep (the results
    accepted).

    Integers are Z; where the code's int64 arithmetic can wrap ([JsonCheck])
    the wrap is written out, and columns of Postgres's smallint are checked as
    the code checks them.  Times are microseconds since 1970, durations
    nanoseconds.  A job ID is the 128-bit integer of its bytes.  Strings are
    byte strings, JSON is parsed and printed as encoding/json does (Json.v), and
    float64 is the Standard Library's specification of IEEE 754 (Float64.v; the
    conversion of an infinity or NaN to an integer, which Go leaves to the
    platform, is zero).

    ** Files

    - Prelude, Sql, Text, Json, Float64: record update, tactics, SQL's list
      operations and their lemmas, Go's strings, JSON texts, float64.
    - Types: the data of driver/driver.go.  Store: the schema of
      driver/hoppersqlite/migrations, and executor.go.
    - JsonCheck, Topics: driver/hoppersqlite/funcs.go.  JobTags:
      internal/jobtags.  JobId: driver/jobid.go, hoppersqlite/id.go.  Calendar:
      the RFC 3339 texts of package time.  Codec: driver/internal/jobcodec.
    - Dates: the civil calendar.  Cron: cron.go, with the parts of package time it
      uses, in any zone.
    - Insert: JobInsertMany of jobs.go; countBatch, insertCallback of
      finalize.go.  Finalize: the rest of finalize.go, and leaseOwns and
      releaseLease of leases.go.  Claim: JobClaim, JobAge, JobRescueCandidates
      of jobs.go, claimLimited of flow.go.  Control: JobGet, JobCancel,
      JobDelete, JobRetry, JobRetryOrderingKey, JobDiscardExpired,
      JobRecordProgress of jobs.go.  Leases: leases.go.  Workflow: flow.go and
      workflow.go.  Cluster: cluster.go, and the clock of conn.go.  Messaging:
      messaging.go.  Listing: the reads JobList, BatchGet and WorkflowGet, and the
      decoders of jobcodec they use.  Conn: the rest of conn.go.
    - Unique: unique.go.  Inserting: the options of job.go, insertDirect of
      insert.go and Batch.insert of batch.go, over the engine.  Building:
      workflow.go, which builds a workflow from its steps and inserts it.
    - Periodic: periodic.go, the set of periodic jobs, the slots missed and the
      leader's pass.  Effective: periodic_shared.go, what the leader schedules of
      the definitions its clients recorded.
    - Leader: the election loop of leader.go.  Duties: its rescue, expiries,
      sweeps and the pace of its maintenance, and fence of client.go.
    - Producer: producer.go.  Notifier: notifier.go.  Await: the registry of
      await.go.  Steps: steps.go.  Leasing: leases.go.
    - Execute: execute.go and retry.go.  Flush: finalizer.go's writing of a batch,
      over the interface [FinalizeExecutor].  Drain: its queue, log budget and
      drain.  Settle: settleretry.go.  Counting: sums over a list that changes one
      element at a time.
    - Logic: what a write preserves ([respects], with a preorder per property)
      and which errors it can raise ([raises]), with the tactics that carry them
      through the monad.  Evolution: the invariant [wf] of every database the
      engine leaves, and the preorder [advances], proved of every operation.
      Frame: the class [JobSide] of the projections of the database job
      operations leave alone.
    - Engine: [step], one call of any of the 37 writing operations with any
      parameters at any time, [steps] and [reachable].
    - JsonSpec: UTF-8, string literals, numbers and JSON values are read back as
      they were written.  CodecSpec: so are tags, steps and edges.
    - ClaimSpec, FinalizeSpec, ClusterSpec, StreamSpec, TopicSpec, LeaseSpec,
      InsertSpec, ListingSpec, WorkflowSpec, UniqueSpec, InsertingSpec, OneAtATime,
      BuildingSpec, CronSpec, PeriodicSpec, PeriodicRuns, PeriodicSet,
      EffectiveSpec, LeaderSpec, DutiesSpec, ProducerSpec, NotifierSpec, ProgressKept,
      StepsSpec, LeasingSpec, ConnSpec, ExecuteSpec, FlushSpec, SettleSpec, DrainSpec: the
      theorems on each component.  Scenarios: concrete runs, on which the theorems'
      hypotheses hold and the defects show.

    ** What is proved

    Over any run of the engine: fences identify claims and rows do not come back
    (Engine).  Of single operations: a
    claim takes the first eligible jobs and never trips an index, and limits hold
    (ClaimSpec); a finalize applies what its result says, its walk down the
    dependency graph ends, leaves no dependent of a failed job pending and none
    unpromoted, and may be sent again once it was not left for a lock (FinalizeSpec); leases,
    unique keys and batches behave as documented, and a claim made in place by ID
    never breaks an index (LeaseSpec, InsertSpec); a workflow is read back as it was inserted
    (WorkflowSpec), and a listing is the query it stands for, its pages every job
    once (ListingSpec).  Of the cluster: the leader's lease
    excludes, terms are dated in order while the clock is, a periodic slot runs
    once, the clock is bounded (ClusterSpec).  Of streams: events are delivered
    once and in order (StreamSpec).  Of pure code: a topic pattern means what
    AMQP says, except one that starts with two '#' words (TopicSpec); IDs, tags
    and workflow checks (JobId, JobTags, Codec); a cron field's bits are the values
    it names, and Next finds the first matching second in a zone of one offset
    (CronSpec); a unique key tells apart what its options select (UniqueSpec).  Of
    connections: the write lock has one holder and is never left
    behind (ConnSpec).  Of the
    client: a call answers every job it inserts, with no unique key twice in a
    statement (InsertingSpec), and as if the jobs were inserted one at a time
    when equal keys name the same states (OneAtATime); a workflow is built exactly when its declarations are sound, with
    exactly the edges declared, and its steps wait for what they declare
    (BuildingSpec); a producer keeps to its workers, starts every claim once and
    sleeps through no wake-up (ProducerSpec); no mark is lost (NotifierSpec); the
    steps of a job run in order over all its attempts, as the engine keeps a job's
    progress through every write but its own (ProgressKept, StepsSpec); a leased attempt
    is finished once, by its holder, and tokens survive their text (LeasingSpec); an
    attempt's result is well formed, settles it and counts it against
    the job's maximum, on the engine's own rows (ExecuteSpec); writing a batch
    settles, drops for a claim that is over or tries again every result when answers
    are lost, but for what a forced drain cuts off, for any executor with the
    interface's laws, which the SQLite engine has (FlushSpec); the drain of a
    stop in time leaves nothing behind and logs stay within their budget
    (DrainSpec); no batch to settle again is forgotten (SettleSpec).  Of the
    leader: at most one client leads while a loop ends its term in time by the
    engine's clock, and a run of two leaders where none need to ([two_leaders]); its
    events alternate (LeaderSpec); a rescue, with any client's writes between its
    statements, ends, and ends the claims of lost clients and no others, and an
    index is tried again within its bounds (DutiesSpec).  Of periodic jobs, for any
    schedule with the laws of the class [Schedule]: slots are answered once and in
    order whatever inserts fail, a pass keeps every job in view, the slots
    back-filled are the most recent missed (PeriodicSpec, PeriodicRuns), the set of
    jobs stays whole and a stored definition inserts what its own client would
    (PeriodicSet), and each name is scheduled once (EffectiveSpec).

    Where the code does not do what it says: Scenarios (number ranges, null
    metadata), TopicSpec, ClusterSpec (a takeover's date), CronSpec (zones that
    skip midnight, steps that wrap), ConnSpec (a comment that opens with '/*/'),
    UniqueSpec (numbers past 2^53, periods below a second), OneAtATime (repeats with
    UniqueReplace, queues not woken, batches that never complete), Await (a signal
    that passes a waiter over), DrainSpec ([drain_race], a drain past its deadline).

    ** Fuel

    [Finalize.walk] has the queue's length plus the number of edges as fuel; a
    dependent is queued once, when first seen, so that is enough, which
    [tail_terminates] proves.  [Json.parse_value] has the text's length plus one,
    and every recursive call consumes a byte.  [JsonCheck.jsonContains] has the
    depth of the tree searched.  [Cluster.prune_group] has one more than the
    rows there are, and every batch but the last deletes one.  [Text.runes],
    [Topics.parse_seq] and [Conn.scan_tokens] have the text's length.
    [Cron.field_loop] has the 60 values of a field and [Cron.next_from] the minutes
    of six years, which [Next_first_slot] proves enough where the offset is fixed;
    where it changes the code may loop for ever ([cron_midnight_change]).
    [Flush.write_] has a call per unit; a write that still retries has no result,
    and at a stop two calls are enough ([write_stops]).  [Duties.rescue] has a
    round per unit; [rescue_frees_lost] proves the jobs running and those others
    start meanwhile enough; the other loops
    of a duty pass have a round per unit.  [Periodic.loop] has a turn per microsecond
    walked, which is enough as each turn moves on in time; [periodicPass_in_view]
    and [missed_most_recent] prove that the loops end.

    ** Parameters

    [UniqueSpec.key_selects] holds of any float64 texts on one line; decoding args
    goes through them.  Middleware is the caller's, and not part of an insert here.
    A periodic job's schedule is an instance of [Schedule]; making a job of a stored
    definition is a parameter.  A job's steps are functions of its attempt's state,
    of which [StepsSpec.step_ok] says what RunSteps relies on.  The outcome of
    Config.OnError and the retry policies are fields of [Execute.ending].

    ** Not modelled

    The Postgres engine: the same contract in SQL that Postgres runs under row locks
    and MVCC, so that its Go code is mostly the text of statements.  SQLite itself,
    the busy retries and the polling listener of the SQLite engine; the read JobLogs
    and the decoders of errors, logs and dependencies.  Of the client: the start and
    stop of its goroutines (client.go), the registration and running of workers,
    watching for stuck ones, and the wrappers of single operations (control.go,
    messaging.go, stream.go), whose operations are modelled in the engine; job logs,
    tools, UI, migrations and tests, which are input and output around them. *)

From Stdlib Require Import List ZArith Lia Bool String Ascii Permutation Sorted.
From stdpp Require Import base tactics list gmap strings.
Import ListNotations.
Local Open Scope Z_scope.
Local Open Scope list_scope.

(** ** Record update

    [r <| f := v |>] is [r] with its field [f] set to [v].  A record is
    updatable once its eta expansion is registered as a [Settable] instance. *)

Class Settable (T : Type) := eta_expand : T -> T.
Class Setter {R E : Type} (proj : R -> E) := set_field : (E -> E) -> R -> R.
Arguments set_field {R E} proj {_} _ _.

Ltac derive_setter R proj :=
  let e := eval hnf in (@eta_expand R _) in
  let p := eval pattern proj in e in
  lazymatch p with
  | ?f _ =>
    let s := eval cbv beta in (fun upd => f (fun r : R => upd (proj r))) in
    exact s
  end.

#[global] Hint Extern 1 (@Setter ?R ?E ?proj) => derive_setter R proj : typeclass_instances.

Declare Scope hopper_scope.
Delimit Scope hopper_scope with hopper.
Notation "r <| f := v |>" := (set_field f (fun _ => v) r)
  (at level 1, left associativity, f at level 0, v at level 99) : hopper_scope.
Notation "r <| f ::= g |>" := (set_field f g r)
  (at level 1, left associativity, f at level 0, g at level 99) : hopper_scope.
Open Scope hopper_scope.

(** ** Tactics *)

(** Reflect boolean tests in the context and the goal into propositions. *)
Ltac breflect :=
  repeat match goal with
  | H : (_ && _) = true |- _ => apply andb_true_iff in H; destruct H
  | H : (_ || _) = false |- _ => apply orb_false_iff in H; destruct H
  | H : negb _ = true |- _ => apply negb_true_iff in H
  | H : negb _ = false |- _ => apply negb_false_iff in H
  | H : (_ =? _) = true |- _ => apply Z.eqb_eq in H
  | H : (_ =? _) = false |- _ => apply Z.eqb_neq in H
  | H : (_ <=? _) = true |- _ => apply Z.leb_le in H
  | H : (_ <=? _) = false |- _ => apply Z.leb_gt in H
  | H : (_ <? _) = true |- _ => apply Z.ltb_lt in H
  | H : (_ <? _) = false |- _ => apply Z.ltb_ge in H
  | H : (_ >? _) = true |- _ => rewrite Z.gtb_ltb in H
  | H : (_ >? _) = false |- _ => rewrite Z.gtb_ltb in H
  | H : String.eqb _ _ = true |- _ => apply String.eqb_eq in H
  | H : String.eqb _ _ = false |- _ => apply String.eqb_neq in H
  end.

(** Case on the scrutinee of a [match] or [if] of the goal or of a hypothesis. *)
Ltac case_goal :=
  match goal with
  | |- context [match ?x with _ => _ end] => destruct x eqn:?
  end.
Ltac case_in H :=
  match type of H with
  | context [match ?x with _ => _ end] => destruct x eqn:?
  end.

(** ** Boolean membership and equality tests *)

Definition mem_Z (x : Z) (l : list Z) : bool := existsb (Z.eqb x) l.
Definition mem_str (x : string) (l : list string) : bool := existsb (String.eqb x) l.

(** SQL's [=] on nullable columns: NULL equals nothing. *)
Definition null_eq {A} (eqb : A -> A -> bool) (a b : option A) : bool :=
  match a, b with Some x, Some y => eqb x y | _, _ => false end.

Definition is_null {A} (o : option A) : bool := match o with None => true | Some _ => false end.
Definition not_null {A} (o : option A) : bool := negb (is_null o).

Lemma mem_Z_In x l : mem_Z x l = true <-> In x l.
Proof.
  unfold mem_Z. rewrite existsb_exists. split.
  - intros (y & Hy & E). apply Z.eqb_eq in E. now subst.
  - intros H. exists x. now rewrite Z.eqb_refl.
Qed.

Lemma mem_str_In x l : mem_str x l = true <-> In x l.
Proof.
  unfold mem_str. rewrite existsb_exists. split.
  - intros (y & Hy & E). apply String.eqb_eq in E. now subst.
  - intros H. exists x. now rewrite String.eqb_refl.
Qed.

Lemma null_eq_Z a b : null_eq Z.eqb a b = true <-> exists x, a = Some x /\ b = Some x.
Proof.
  destruct a, b; simpl; split; try (intros (x & ? & ?)); try discriminate.
  - intros E. apply Z.eqb_eq in E. subst; eauto.
  - simplify_eq. apply Z.eqb_refl.
Qed.

Lemma null_eq_str a b : null_eq String.eqb a b = true <-> exists x, a = Some x /\ b = Some x.
Proof.
  destruct a, b; simpl; split; try (intros (x & ? & ?)); try discriminate.
  - intros E. apply String.eqb_eq in E. subst; eauto.
  - simplify_eq. apply String.eqb_refl.
Qed.
