(* ===== verification/Counting.v ===== *)
(** * Counting over a list

    The sum of a measure over a list whose elements change one at a time, as
    the invariants of interleaved processes need it. *)

From Stdlib Require Import List Lia Permutation.
From stdpp Require Import base tactics list.
Import ListNotations.

Definition b2n (b : bool) : nat := if b then 1 else 0.

Fixpoint total {A} (f : A -> nat) (l : list A) : nat :=
  match l with [] => 0 | x :: r => f x + total f r end.

Lemma total_app {A} (f : A -> nat) l k : total f (l ++ k) = total f l + total f k.
Proof. induction l; simpl; lia. Qed.

Lemma total_insert {A} (f : A -> nat) l i x y : l !! i = Some x -> total f (<[i := y]> l) + f x = total f l + f y.
Proof.
  revert i. induction l as [|z l IH]; intros i H; [discriminate|].
  destruct i as [|i]; simpl in *; [injection H as ->; lia|]. apply IH in H. lia.
Qed.

Lemma total_lookup {A} (f : A -> nat) l i x : l !! i = Some x -> f x <= total f l.
Proof.
  revert i. induction l as [|z l IH]; intros i H; [discriminate|].
  destruct i as [|i]; simpl in *; [injection H as ->; lia|]. apply IH in H. lia.
Qed.

Lemma Forall_insert_at {A} (P : A -> Prop) l i x : Forall P l -> P x -> Forall P (<[i := x]> l).
Proof. intros H Hx. revert i. induction H; intros [|i]; simpl; constructor; auto. Qed.

Lemma total_pos {A} (f : A -> nat) l : 0 < total f l -> exists i x, l !! i = Some x /\ 0 < f x.
Proof.
  induction l as [|y l IH]; simpl; [lia|]. intros H. destruct (f y) eqn:E.
  - destruct IH as (i & x & Hi & Hx); [lia|]. now exists (S i), x.
  - exists 0, y. split; [reflexivity|lia].
Qed.

Lemma total_two {A} (f : A -> nat) l i j x y : l !! i = Some x -> l !! j = Some y -> i <> j -> f x + f y <= total f l.
Proof.
  revert i j. induction l as [|z l IH]; intros [|i] [|j] Hi Hj N; simpl in *; try discriminate; try congruence.
  - injection Hi as ->. pose proof (total_lookup f l j y Hj). lia.
  - injection Hj as ->. pose proof (total_lookup f l i x Hi). lia.
  - assert (i <> j) by congruence. specialize (IH i j Hi Hj). lia.
Qed.
