(* ===== verification/Sql.v ===== *)
(** * The SQL operations the engine's statements are built from

    A table is the list of its rows in rowid order.  [sel], [upd], [del],
    [cnt], [ex] and [one] are SELECT, UPDATE, DELETE, count, EXISTS and a
    one-row SELECT with a WHERE predicate; [order_by] and [limit] are ORDER BY
    (with the comparison of the sort keys) and LIMIT.  The lemmas here are the
    ones every component's proofs use. *)

From Stdlib Require Import List ZArith Lia Bool String Permutation Sorted.
From stdpp Require Import base tactics list.
From S2P Require Import Prelude.
Import ListNotations.
Local Open Scope Z_scope.
Local Open Scope list_scope.

Section Table.
Context {A : Type}.
Implicit Types (p q : A -> bool) (f : A -> A) (t : list A).

Definition sel p t : list A := List.filter p t.
Definition upd p f t : list A := List.map (fun r => if p r then f r else r) t.
Definition del p t : list A := List.filter (fun r => negb (p r)) t.
Definition cnt p t : Z := Z.of_nat (List.length (sel p t)).
Definition ex p t : bool := existsb p t.
Definition one p t : option A := List.find p t.

(** LIMIT n: a negative limit is no limit. *)
Definition limit (n : Z) t : list A :=
  if n <? 0 then t else List.firstn (Z.to_nat n) t.

Section Order.
Variable leb : A -> A -> bool.

Fixpoint insert_by (x : A) t : list A :=
  match t with
  | [] => [x]
  | y :: t' => if leb x y then x :: t else y :: insert_by x t'
  end.

Fixpoint order_by t : list A :=
  match t with
  | [] => []
  | x :: t' => insert_by x (order_by t')
  end.
End Order.
End Table.

(** ** Lemmas on the operations *)

Section TableLemmas.
Context {A : Type}.
Implicit Types (p q : A -> bool) (f : A -> A) (t : list A).

Lemma In_sel p t x : In x (sel p t) <-> In x t /\ p x = true.
Proof. apply filter_In. Qed.

Lemma In_del p t x : In x (del p t) <-> In x t /\ p x = false.
Proof. unfold del. rewrite filter_In, negb_true_iff. reflexivity. Qed.

Lemma In_upd p f t x :
  In x (upd p f t) <-> exists y, In y t /\ x = if p y then f y else y.
Proof.
  unfold upd. rewrite in_map_iff. split; intros (y & H1 & H2); exists y; auto.
Qed.

Lemma ex_true p t : ex p t = true <-> exists x, In x t /\ p x = true.
Proof. apply existsb_exists. Qed.

Lemma ex_false p t : ex p t = false <-> forall x, In x t -> p x = false.
Proof.
  split.
  - intros H x Hx. destruct (p x) eqn:E; [|done].
    assert (ex p t = true) by (apply ex_true; eauto). congruence.
  - intros H. destruct (ex p t) eqn:E; [|done].
    apply ex_true in E as (x & Hx & E). rewrite H in E; done.
Qed.

Lemma one_Some p t x : one p t = Some x -> In x t /\ p x = true.
Proof. apply find_some. Qed.

Lemma one_None p t : one p t = None <-> forall x, In x t -> p x = false.
Proof.
  split; [apply find_none|]. intros H. destruct (one p t) eqn:E; [|done].
  apply one_Some in E as [E1 E2]. rewrite H in E2; done.
Qed.

Lemma upd_map_invariant {B} (g : A -> B) p f t :
  (forall x, g (f x) = g x) -> List.map g (upd p f t) = List.map g t.
Proof.
  intros H. unfold upd. rewrite map_map. apply map_ext. intros x. destruct (p x); auto.
Qed.

Lemma del_nil p t : (forall x, In x t -> p x = false) -> del p t = t.
Proof.
  induction t as [|x t IH]; simpl; intros H; [done|].
  rewrite (H x) by auto. simpl. f_equal. apply IH. auto.
Qed.

Lemma upd_nop p f t : (forall x, In x t -> p x = true -> f x = x) -> upd p f t = t.
Proof.
  unfold upd. intros H. transitivity (List.map (fun x => x) t); [|apply map_id].
  apply map_ext_in. intros x Hx. destruct (p x) eqn:E; auto.
Qed.

Lemma Forall_sel (P : A -> Prop) p t : Forall P t -> Forall P (sel p t).
Proof. rewrite !List.Forall_forall. intros H x Hx. apply In_sel in Hx as [Hx _]. auto. Qed.

Lemma Forall_del (P : A -> Prop) p t : Forall P t -> Forall P (del p t).
Proof. rewrite !List.Forall_forall. intros H x Hx. apply In_del in Hx as [Hx _]. auto. Qed.

Lemma Forall_upd (P : A -> Prop) p f t :
  Forall P t -> (forall x, In x t -> p x = true -> P x -> P (f x)) -> Forall P (upd p f t).
Proof.
  rewrite !List.Forall_forall. intros H Hf x Hx.
  apply In_upd in Hx as (y & Hy & ->). destruct (p y) eqn:E; auto.
Qed.

Lemma NoDup_map_sel {B} (g : A -> B) p t :
  List.NoDup (List.map g t) -> List.NoDup (List.map g (sel p t)).
Proof.
  induction t as [|x t IH]; simpl; intros H; [done|]. inversion H; subst.
  destruct (p x); simpl; auto. constructor; auto.
  intros Hin. apply H2. apply in_map_iff in Hin as (y & <- & Hy).
  apply In_sel in Hy as [Hy _]. now apply in_map.
Qed.

Lemma NoDup_map_del {B} (g : A -> B) p t :
  List.NoDup (List.map g t) -> List.NoDup (List.map g (del p t)).
Proof.
  apply (NoDup_map_sel g (fun r => negb (p r))).
Qed.

Lemma NoDup_map_inj {B} (g : A -> B) t x y :
  List.NoDup (List.map g t) -> In x t -> In y t -> g x = g y -> x = y.
Proof.
  induction t as [|z t IH]; simpl; [done|]. intros H. inversion H; subst.
  intros [->|Hx] [->|Hy] E; auto; exfalso; apply H2;
    [rewrite E | rewrite <- E]; now apply in_map.
Qed.

Lemma cnt_nonneg p t : 0 <= cnt p t.
Proof. unfold cnt. lia. Qed.

Lemma cnt_app p t1 t2 : cnt p (t1 ++ t2) = cnt p t1 + cnt p t2.
Proof. unfold cnt, sel. rewrite List.filter_app, List.length_app. lia. Qed.

Lemma cnt_cons p x t : cnt p (x :: t) = (if p x then 1 else 0) + cnt p t.
Proof. unfold cnt, sel. simpl. destruct (p x); simpl; lia. Qed.

Lemma cnt_zero p t : cnt p t = 0 <-> ex p t = false.
Proof.
  unfold cnt. rewrite ex_false. split.
  - intros H x Hx. destruct (p x) eqn:E; [|done].
    assert (In x (sel p t)) as H1 by now apply In_sel.
    destruct (sel p t); [done|simpl in H; lia].
  - intros H. destruct (sel p t) eqn:E; [done|].
    assert (In a (sel p t)) as H1 by (rewrite E; left; done).
    apply In_sel in H1 as [H1 H2]. rewrite H in H2; done.
Qed.

Lemma In_limit n t x : In x (limit n t) -> In x t.
Proof.
  unfold limit. case_goal; [done|]. intros H.
  rewrite <- (firstn_skipn (Z.to_nat n) t). apply in_app_iff. now left.
Qed.

Lemma length_limit n t : 0 <= n -> Z.of_nat (List.length (limit n t)) <= n.
Proof.
  intros H. unfold limit. destruct (n <? 0) eqn:E; breflect; [lia|].
  rewrite length_firstn. lia.
Qed.

Lemma limit_prefix n t : exists rest, t = limit n t ++ rest.
Proof.
  unfold limit. case_goal.
  - exists []. now rewrite app_nil_r.
  - exists (List.skipn (Z.to_nat n) t). symmetry. apply firstn_skipn.
Qed.

Lemma limit_NoDup_map {B} (g : A -> B) n t :
  List.NoDup (List.map g t) -> List.NoDup (List.map g (limit n t)).
Proof.
  destruct (limit_prefix n t) as [r Hr]. intros H. rewrite Hr, map_app in H.
  now apply NoDup_app_remove_r in H.
Qed.
End TableLemmas.

Section OrderLemmas.
Context {A : Type} (leb : A -> A -> bool).
Notation le := (fun x y => leb x y = true).

Lemma insert_by_perm x t : Permutation (insert_by leb x t) (x :: t).
Proof.
  induction t as [|y t IH]; simpl; [done|]. destruct (leb x y); [done|].
  rewrite IH. apply perm_swap.
Qed.

Lemma order_by_perm t : Permutation (order_by leb t) t.
Proof.
  induction t as [|x t IH]; simpl; [done|]. rewrite insert_by_perm. now constructor.
Qed.

Lemma In_order_by t x : In x (order_by leb t) <-> In x t.
Proof.
  split; apply Permutation_in; [|symmetry]; apply order_by_perm.
Qed.

Hypothesis leb_total : forall x y, leb x y = true \/ leb y x = true.
Hypothesis leb_trans : forall x y z, leb x y = true -> leb y z = true -> leb x z = true.

Lemma insert_by_sorted x t : StronglySorted le t -> StronglySorted le (insert_by leb x t).
Proof.
  induction 1 as [|y t Ht IH Hy]; simpl.
  - repeat constructor.
  - destruct (leb x y) eqn:E.
    + constructor; [now constructor|]. constructor; [done|].
      rewrite List.Forall_forall in *. eauto.
    + constructor; [done|]. rewrite List.Forall_forall in *. intros z Hz.
      apply (Permutation_in _ (insert_by_perm x t)) in Hz as [<-|Hz]; auto.
      destruct (leb_total x y); congruence.
Qed.

Lemma order_by_sorted t : StronglySorted le (order_by leb t).
Proof. induction t; simpl; [constructor | now apply insert_by_sorted]. Qed.
End OrderLemmas.

Lemma StronglySorted_app_l {A} (R : A -> A -> Prop) l1 l2 :
  StronglySorted R (l1 ++ l2) ->
  StronglySorted R l1 /\ (forall x y, In x l1 -> In y l2 -> R x y).
Proof.
  induction l1 as [|a l1 IH]; simpl; intros H.
  - split; [constructor|done].
  - inversion H as [|? ? Hs Hf]; subst. apply IH in Hs as [Hs Hc].
    rewrite List.Forall_app in Hf. destruct Hf as [Hf1 Hf2].
    split; [now constructor|]. intros x y [<-|Hx] Hy; auto.
    rewrite List.Forall_forall in Hf2. auto.
Qed.

Lemma order_by_id {A} (leb : A -> A -> bool) l : StronglySorted (fun a b => leb a b = true) l -> order_by leb l = l.
Proof.
  induction 1 as [|a l Hl IH Ha]; simpl; [done|]. rewrite IH. destruct l as [|b l]; simpl; [done|].
  inversion Ha as [|? ? Hab]; subst. now rewrite Hab.
Qed.

Lemma StronglySorted_app_r {A} (R : A -> A -> Prop) l1 l2 : StronglySorted R (l1 ++ l2) -> StronglySorted R l2.
Proof. induction l1 as [|a l1 IH]; simpl; intros H; [done|]. inversion H; auto. Qed.

Lemma filter_none {A} (p : A -> bool) l : (forall e, In e l -> p e = false) -> List.filter p l = [].
Proof. induction l as [|a l IH]; simpl; intros H; [done|]. rewrite (H a) by auto. auto. Qed.
Lemma filter_all {A} (p : A -> bool) l : (forall e, In e l -> p e = true) -> List.filter p l = l.
Proof. induction l as [|a l IH]; simpl; intros H; [done|]. rewrite (H a) by auto. f_equal. auto. Qed.

(** The rows ORDER BY ... LIMIT n returns come, in the order, no later than
    the rows it leaves out. *)
Lemma limit_order_least {A} (leb : A -> A -> bool) n (t : list A)
  (leb_total : forall x y, leb x y = true \/ leb y x = true)
  (leb_trans : forall x y z, leb x y = true -> leb y z = true -> leb x z = true) x y :
  In x (limit n (order_by leb t)) -> In y t -> ~ In y (limit n (order_by leb t)) ->
  leb x y = true.
Proof.
  intros Hx Hy Hn. destruct (limit_prefix n (order_by leb t)) as [rest Hr].
  pose proof (order_by_sorted leb leb_total leb_trans t) as Hs. rewrite Hr in Hs.
  apply StronglySorted_app_l in Hs as [_ Hs]. apply Hs; [done|].
  apply (In_order_by leb) in Hy. rewrite Hr in Hy. apply in_app_iff in Hy. tauto.
Qed.

Create HintDb sql.
#[export] Hint Resolve Forall_sel Forall_del Forall_upd NoDup_map_del cnt_nonneg : sql.
#[export] Hint Rewrite @In_sel @In_del @In_upd @ex_true @ex_false : sql.
