(* ===== verification/Text.v ===== *)
(** * Go strings: bytes, UTF-8 and the functions of package strings used

    A Go string is a [string] whose characters are its bytes.  [utf8_valid] and
    [decode_rune] follow unicode/utf8 (the table of accepted second bytes
    included); [cut], [trim_left], [trim_right], [to_lower] (ASCII letters) and
    the others follow package strings. *)

From Stdlib Require Import List ZArith NArith Lia Bool String Ascii DecimalString.
From S2P Require Import Prelude.
Import ListNotations.
Local Open Scope string_scope.
Local Open Scope Z_scope.

Definition code (c : ascii) : Z := Z.of_N (N_of_ascii c).
Definition chr (z : Z) : ascii := ascii_of_N (Z.to_N z).

Definition in_range (lo hi z : Z) : bool := (lo <=? z) && (z <=? hi).

Lemma code_bound c : 0 <= code c < 256.
Proof.
  unfold code. pose proof (N_ascii_bounded c). lia.
Qed.

Lemma chr_code c : chr (code c) = c.
Proof. unfold chr, code. rewrite N2Z.id. apply ascii_N_embedding. Qed.

Lemma code_chr z : 0 <= z < 256 -> code (chr z) = z.
Proof. intros H. unfold chr, code. rewrite N_ascii_embedding; lia. Qed.

Definition slen (s : string) : Z := Z.of_nat (String.length s).

Fixpoint forallb_str (p : ascii -> bool) (s : string) : bool :=
  match s with EmptyString => true | String c r => p c && forallb_str p r end.

Definition has_char (c : ascii) (s : string) : bool := negb (forallb_str (fun d => negb (Ascii.eqb c d)) s).

(** strings.Cut around a one-byte separator. *)
Fixpoint cut (sep : ascii) (s : string) : string * string * bool :=
  match s with
  | EmptyString => ("", "", false)
  | String c r =>
      if Ascii.eqb c sep then ("", r, true)
      else let '(a, b, found) := cut sep r in (String c a, b, found)
  end.

(** strings.CutPrefix: the rest after [p], if [s] starts with it. *)
Fixpoint cut_prefix (p s : string) : option string :=
  match p, s with
  | EmptyString, _ => Some s
  | String a p', String b s' => if Ascii.eqb a b then cut_prefix p' s' else None
  | _, _ => None
  end.
Definition has_prefix (p s : string) : bool := match cut_prefix p s with Some _ => true | None => false end.

(** strings.TrimLeft and TrimRight by a byte predicate. *)
Fixpoint trim_left (p : ascii -> bool) (s : string) : string :=
  match s with
  | EmptyString => ""
  | String c r => if p c then trim_left p r else s
  end.
Fixpoint trim_right (p : ascii -> bool) (s : string) : string :=
  match s with
  | EmptyString => ""
  | String c r =>
      match trim_right p r with
      | EmptyString => if p c then "" else String c ""
      | r' => String c r'
      end
  end.

Definition lower (c : ascii) : ascii :=
  if in_range 65 90 (code c) then chr (code c + 32) else c.
Fixpoint to_lower (s : string) : string :=
  match s with EmptyString => "" | String c r => String (lower c) (to_lower r) end.

Fixpoint split (sep : ascii) (s : string) : list string :=
  match s with
  | EmptyString => [""]
  | String c r =>
      if Ascii.eqb c sep then "" :: split sep r
      else match split sep r with
           | [] => [String c ""]
           | w :: ws => String c w :: ws
           end
  end.

(** ** Decimal numbers *)

Definition is_digit (c : ascii) : bool := in_range 48 57 (code c).
Definition digit_val (c : ascii) : Z := code c - 48.

(** The value of a string of digits. *)
Fixpoint digits_val (acc : Z) (s : string) : Z :=
  match s with EmptyString => acc | String c r => digits_val (10 * acc + digit_val c) r end.

(** strconv.ParseInt in base 10 with [bits] bits: an optional sign and one or
    more digits whose value fits; [None] is its error. *)
Definition parse_int (bits : Z) (s : string) : option Z :=
  let '(neg, d) := match s with
                   | String "-" r => (true, r)
                   | String "+" r => (false, r)
                   | _ => (false, s)
                   end in
  if String.eqb d "" || negb (forallb_str is_digit d) then None
  else
    let v := digits_val 0 d in
    if neg then (if v <=? 2 ^ (bits - 1) then Some (- v) else None)
    else (if v <? 2 ^ (bits - 1) then Some v else None).

Definition atoi : string -> option Z := parse_int 64.

(** strconv.FormatInt in base 10. *)
Definition itoa (z : Z) : string := NilZero.string_of_int (Z.to_int z).

(** ** UTF-8 *)

Definition rune_error : Z := 65533.

Definition cont (c : ascii) : bool := in_range 128 191 (code c).
Definition low6 (c : ascii) : Z := code c - 128.

(** The bounds of the second byte a three- or four-byte lead accepts. *)
Definition second_ok (lead : Z) (c : ascii) : bool :=
  if lead =? 224 then in_range 160 191 (code c)
  else if lead =? 237 then in_range 128 159 (code c)
  else if lead =? 240 then in_range 144 191 (code c)
  else if lead =? 244 then in_range 128 143 (code c)
  else cont c.

(** utf8.DecodeRuneInString of a non-empty string: the rune and its width,
    [rune_error] with width 1 if the bytes are not UTF-8. *)
Definition decode_rune (s : string) : Z * nat :=
  match s with
  | EmptyString => (rune_error, 0%nat)
  | String a r =>
      let x := code a in
      if x <? 128 then (x, 1%nat)
      else if in_range 194 223 x then
        match r with
        | String b _ => if cont b then ((x - 192) * 64 + low6 b, 2%nat) else (rune_error, 1%nat)
        | _ => (rune_error, 1%nat)
        end
      else if in_range 224 239 x then
        match r with
        | String b (String c _) =>
            if second_ok x b && cont c then ((x - 224) * 4096 + low6 b * 64 + low6 c, 3%nat)
            else (rune_error, 1%nat)
        | _ => (rune_error, 1%nat)
        end
      else if in_range 240 244 x then
        match r with
        | String b (String c (String d _)) =>
            if second_ok x b && cont c && cont d
            then ((x - 240) * 262144 + low6 b * 4096 + low6 c * 64 + low6 d, 4%nat)
            else (rune_error, 1%nat)
        | _ => (rune_error, 1%nat)
        end
      else (rune_error, 1%nat)
  end.

(** utf8.AppendRune. *)
Definition encode_rune (r : Z) : string :=
  let r := if (r <? 0) || (1114111 <? r) || in_range 55296 57343 r then rune_error else r in
  if r <? 128 then String (chr r) ""
  else if r <? 2048 then String (chr (192 + r / 64)) (String (chr (128 + r mod 64)) "")
  else if r <? 65536 then
    String (chr (224 + r / 4096)) (String (chr (128 + r / 64 mod 64)) (String (chr (128 + r mod 64)) ""))
  else
    String (chr (240 + r / 262144)) (String (chr (128 + r / 4096 mod 64))
      (String (chr (128 + r / 64 mod 64)) (String (chr (128 + r mod 64)) ""))).

Fixpoint drop (n : nat) (s : string) : string :=
  match n, s with
  | S n', String _ r => drop n' r
  | _, _ => s
  end.
Fixpoint take (n : nat) (s : string) : string :=
  match n, s with
  | S n', String c r => String c (take n' r)
  | _, _ => ""
  end.

(** The runes of a string with the bytes each was read from.  The fuel is the
    string's length, which every rune shortens. *)
Fixpoint runes_fuel (fuel : nat) (s : string) : list (Z * string) :=
  match fuel, s with
  | S n, String _ _ =>
      let '(r, w) := decode_rune s in (r, take w s) :: runes_fuel n (drop w s)
  | _, _ => []
  end.
Definition runes (s : string) : list (Z * string) := runes_fuel (String.length s) s.

Definition bad_rune (rw : Z * string) : bool :=
  (fst rw =? rune_error) && Nat.eqb (String.length (snd rw)) 1.

Definition utf8_valid (s : string) : bool := negb (existsb bad_rune (runes s)).

(** strings.ToValidUTF8: each run of invalid bytes becomes one replacement. *)
Fixpoint to_valid (in_bad : bool) (l : list (Z * string)) : string :=
  match l with
  | [] => ""
  | rw :: l' =>
      if bad_rune rw
      then (if in_bad then "" else encode_rune rune_error) ++ to_valid true l'
      else snd rw ++ to_valid false l'
  end.
Definition to_valid_utf8 (s : string) : string := to_valid false (runes s).

(** unicode.IsSpace, strings.TrimSpace and strings.Fields. *)
Definition is_space (r : Z) : bool :=
  in_range 9 13 r || in_range 8192 8202 r || mem_Z r [32; 133; 160; 5760; 8232; 8233; 8239; 8287; 12288].
Fixpoint runes_text (l : list (Z * string)) : string :=
  match l with [] => "" | rw :: l' => snd rw ++ runes_text l' end.
Fixpoint drop_spaces (l : list (Z * string)) : list (Z * string) :=
  match l with
  | [] => []
  | rw :: l' => if is_space (fst rw) then drop_spaces l' else l
  end.
Definition trim_space (s : string) : string :=
  runes_text (List.rev (drop_spaces (List.rev (drop_spaces (runes s))))).
Definition fields (s : string) : list string :=
  List.filter (fun w => negb (String.eqb w ""))
    (List.fold_right (fun rw ws =>
       if is_space (fst rw) then "" :: ws
       else match ws with [] => [snd rw] | w :: ws' => (snd rw ++ w) :: ws' end)
     [""] (runes s)).

(** strings.ToLower, as far as a comparison with ASCII text sees it: the two
    other runes whose lower case is an ASCII letter are U+0130 and U+212A. *)
Fixpoint runes_lower (l : list (Z * string)) : string :=
  match l with
  | [] => ""
  | rw :: l' => (if fst rw =? 304 then "i" else if fst rw =? 8490 then "k" else to_lower (snd rw)) ++ runes_lower l'
  end.
Definition lower_text (s : string) : string := runes_lower (runes s).

(** unicode.IsControl. *)
Definition is_control (r : Z) : bool := in_range 0 31 r || in_range 127 159 r.

Fixpoint replace_nul (s : string) : string :=
  match s with
  | EmptyString => ""
  | String c r => if code c =? 0 then encode_rune rune_error ++ replace_nul r else String c (replace_nul r)
  end.

(** strings.Join. *)
Fixpoint join (sep : string) (l : list string) : string :=
  match l with
  | [] => ""
  | [x] => x
  | x :: l' => x ++ sep ++ join sep l'
  end.

(** ** Lemmas *)

Lemma app_cons_str c a b : String c a ++ b = String c (a ++ b).
Proof. reflexivity. Qed.

Lemma app_nil_str s : s ++ "" = s.
Proof. induction s as [|c s IH]; [reflexivity|]. now rewrite app_cons_str, IH. Qed.

Lemma app_assoc_str a b c : (a ++ b) ++ c = a ++ (b ++ c).
Proof. induction a as [|x a IH]; [reflexivity|]. now rewrite !app_cons_str, IH. Qed.

Lemma slen_app a b : slen (a ++ b) = slen a + slen b.
Proof.
  induction a as [|c a IH]; [reflexivity|]. rewrite app_cons_str.
  unfold slen in *. cbn [String.length]. lia.
Qed.

Lemma slen_nonneg s : 0 <= slen s.
Proof. unfold slen. lia. Qed.

Lemma digits_val_app acc a b : digits_val acc (a ++ b) = digits_val (digits_val acc a) b.
Proof. revert acc. induction a as [|x a IH]; intros acc; [reflexivity|]. apply IH. Qed.

Lemma digits_val_acc acc s : digits_val acc s = acc * 10 ^ slen s + digits_val 0 s.
Proof.
  revert acc. induction s as [|c s IH]; intros acc.
  - simpl. change (slen "") with 0. lia.
  - cbn [digits_val]. rewrite IH, (IH (10 * 0 + digit_val c)).
    replace (slen (String c s)) with (1 + slen s) by (unfold slen; simpl String.length; lia).
    rewrite Z.pow_add_r by (pose proof (slen_nonneg s); lia). lia.
Qed.

Lemma cut_found sep s a b : cut sep s = (a, b, true) -> s = a ++ String sep b.
Proof.
  revert a b. induction s as [|c s IH]; intros a b; simpl; [discriminate|].
  destruct (Ascii.eqb c sep) eqn:E.
  - intros [= <- <-]. apply Ascii.eqb_eq in E. now subst.
  - destruct (cut sep s) as [[a' b'] f] eqn:Ec. intros [= <- <- ->]. rewrite app_cons_str. now rewrite (IH a' b').
Qed.

Lemma cut_not_found sep s a b : cut sep s = (a, b, false) -> a = s /\ b = "".
Proof.
  revert a b. induction s as [|c s IH]; intros a b; simpl.
  - now intros [= <- <-].
  - destruct (Ascii.eqb c sep) eqn:E; [discriminate|].
    destruct (cut sep s) as [[a' b'] f] eqn:Ec. intros [= <- <- ->].
    destruct (IH a' b' eq_refl) as [-> ->]. auto.
Qed.
