(* ===== verification/Json.v ===== *)
(** * JSON texts

    The engine keeps JSON in TEXT columns and reads and writes it with
    encoding/json.  A [json] is the syntax tree of a text, in which a string or
    a number keeps its literal as written, so that a json.RawMessage that is
    stored again keeps its spelling; [unquote] and [quote] relate a literal to
    the Go string it denotes.  [json_parse] is json.Unmarshal's reading of a
    text, [json_print] json.Marshal's compact form of a tree. *)

From Stdlib Require Import List ZArith Lia Bool String Ascii.
From S2P Require Import Prelude Text.
Import ListNotations.
Local Open Scope string_scope.
Local Open Scope Z_scope.

Inductive json : Type :=
| JNull
| JBool (b : bool)
| JNum (lit : string)
| JStr (lit : string)
| JArr (elems : list json)
| JObj (members : list (string * json)).

Section JsonInd.
Variable P : json -> Prop.
Hypothesis Hnull : P JNull.
Hypothesis Hbool : forall b, P (JBool b).
Hypothesis Hnum : forall n, P (JNum n).
Hypothesis Hstr : forall s, P (JStr s).
Hypothesis Harr : forall l, Forall P l -> P (JArr l).
Hypothesis Hobj : forall m, Forall (fun kv => P (snd kv)) m -> P (JObj m).

Fixpoint json_nested_ind (j : json) : P j :=
  match j with
  | JNull => Hnull
  | JBool b => Hbool b
  | JNum n => Hnum n
  | JStr s => Hstr s
  | JArr l => Harr l ((fix go (l : list json) : Forall P l :=
                        match l with
                        | [] => List.Forall_nil _
                        | x :: r => @List.Forall_cons _ P x r (json_nested_ind x) (go r)
                        end) l)
  | JObj m => Hobj m ((fix go (m : list (string * json)) : Forall (fun kv => P (snd kv)) m :=
                        match m with
                        | [] => List.Forall_nil _
                        | kv :: r => @List.Forall_cons _ (fun kv => P (snd kv)) kv r (json_nested_ind (snd kv)) (go r)
                        end) m)
  end.
End JsonInd.

Definition dquote : ascii := "034".
Definition backslash : ascii := "092".

(** ** Reading *)

Definition is_ws (c : ascii) : bool := mem_Z (code c) [32; 9; 13; 10].
Definition skip_ws : string -> string := trim_left is_ws.

Definition is_hex (c : ascii) : bool :=
  in_range 48 57 (code c) || in_range 65 70 (code c) || in_range 97 102 (code c).

(** The body of a string literal and what follows its closing quote. *)
Fixpoint scan_str (s : string) : option (string * string) :=
  match s with
  | EmptyString => None
  | String c r =>
      if Ascii.eqb c dquote then Some ("", r)
      else if code c <? 32 then None
      else if Ascii.eqb c backslash then
        match r with
        | String "u" (String a (String b (String d (String e r')))) =>
            if is_hex a && is_hex b && is_hex d && is_hex e then
              match scan_str r' with
              | Some (l, rest) =>
                  Some (String c (String "u" (String a (String b (String d (String e l))))), rest)
              | None => None
              end
            else None
        | String x r' =>
            if existsb (Ascii.eqb x) [dquote; backslash; "/"%char; "b"%char; "f"%char; "n"%char; "r"%char; "t"%char] then
              match scan_str r' with
              | Some (l, rest) => Some (String c (String x l), rest)
              | None => None
              end
            else None
        | EmptyString => None
        end
      else match scan_str r with
           | Some (l, rest) => Some (String c l, rest)
           | None => None
           end
  end.

Fixpoint span (p : ascii -> bool) (s : string) : string * string :=
  match s with
  | String c r => if p c then let '(a, b) := span p r in (String c a, b) else ("", s)
  | EmptyString => ("", "")
  end.

(** The integer part: 0, or digits that do not start with 0. *)
Definition scan_int (s : string) : option (string * string) :=
  match s with
  | String "0" r => Some ("0", r)
  | _ => let '(d, r) := span is_digit s in if String.eqb d "" then None else Some (d, r)
  end.

Definition scan_frac (s : string) : option (string * string) :=
  match s with
  | String "." r => let '(d, r') := span is_digit r in if String.eqb d "" then None else Some ("." ++ d, r')
  | _ => Some ("", s)
  end.

Definition scan_exp (s : string) : option (string * string) :=
  match s with
  | String c r =>
      if Ascii.eqb c "e" || Ascii.eqb c "E" then
        let '(sg, r1) := match r with
                         | String "+" r1 => ("+", r1)
                         | String "-" r1 => ("-", r1)
                         | _ => ("", r)
                         end in
        let '(d, r2) := span is_digit r1 in
        if String.eqb d "" then None else Some (String c (sg ++ d), r2)
      else Some ("", s)
  | EmptyString => Some ("", s)
  end.

Definition scan_num (s : string) : option (string * string) :=
  let '(sg, r0) := match s with String "-" r => ("-", r) | _ => ("", s) end in
  match scan_int r0 with
  | None => None
  | Some (i, r1) =>
      match scan_frac r1 with
      | None => None
      | Some (f, r2) =>
          match scan_exp r2 with
          | None => None
          | Some (e, r3) => Some (sg ++ i ++ f ++ e, r3)
          end
      end
  end.

(** A value at the start of a text, and the rest.  Every call consumes at
    least a byte, so a fuel of the text's length and one is enough. *)
Fixpoint parse_value (fuel : nat) (s : string) {struct fuel} : option (json * string) :=
  match fuel with
  | O => None
  | S n =>
      let fix elems (k : nat) (s : string) (acc : list json) {struct k} : option (json * string) :=
        match k with
        | O => None
        | S k' =>
            match parse_value n s with
            | None => None
            | Some (v, r) =>
                match skip_ws r with
                | String "," r' => elems k' r' (acc ++ [v])%list
                | String "]" r' => Some (JArr (acc ++ [v]), r')
                | _ => None
                end
            end
        end in
      let fix members (k : nat) (s : string) (acc : list (string * json)) {struct k} : option (json * string) :=
        match k with
        | O => None
        | S k' =>
            match skip_ws s with
            | String q r0 =>
                if Ascii.eqb q dquote then
                  match scan_str r0 with
                  | None => None
                  | Some (key, r1) =>
                      match skip_ws r1 with
                      | String ":" r2 =>
                          match parse_value n r2 with
                          | None => None
                          | Some (v, r) =>
                              match skip_ws r with
                              | String "," r' => members k' r' (acc ++ [(key, v)])%list
                              | String "}" r' => Some (JObj (acc ++ [(key, v)]), r')
                              | _ => None
                              end
                          end
                      | _ => None
                      end
                  end
                else None
            | EmptyString => None
            end
        end in
      match skip_ws s with
      | EmptyString => None
      | String c r =>
          if Ascii.eqb c dquote then
            match scan_str r with Some (l, r') => Some (JStr l, r') | None => None end
          else if Ascii.eqb c "[" then
            match skip_ws r with
            | String "]" r' => Some (JArr [], r')
            | _ => elems n r []
            end
          else if Ascii.eqb c "{" then
            match skip_ws r with
            | String "}" r' => Some (JObj [], r')
            | _ => members n r []
            end
          else if Ascii.eqb c "n" then
            match cut_prefix "ull" r with Some r' => Some (JNull, r') | None => None end
          else if Ascii.eqb c "t" then
            match cut_prefix "rue" r with Some r' => Some (JBool true, r') | None => None end
          else if Ascii.eqb c "f" then
            match cut_prefix "alse" r with Some r' => Some (JBool false, r') | None => None end
          else
            match scan_num (String c r) with Some (l, r') => Some (JNum l, r') | None => None end
      end
  end.

Definition json_parse (s : string) : option json :=
  match parse_value (S (String.length s)) s with
  | Some (v, r) => if String.eqb (skip_ws r) "" then Some v else None
  | None => None
  end.

Definition json_valid (s : string) : bool := match json_parse s with Some _ => true | None => false end.

(** ** String literals *)

Definition hex_val (c : ascii) : Z :=
  let x := code c in
  if in_range 48 57 x then x - 48 else if in_range 65 70 x then x - 55 else x - 87.
Definition hex4 (a b c d : ascii) : Z := ((hex_val a * 16 + hex_val b) * 16 + hex_val c) * 16 + hex_val d.

Definition hex_digit (z : Z) : ascii := if z <? 10 then chr (48 + z) else chr (87 + z).
Definition u_escape (z : Z) : string :=
  String backslash (String "u" (String (hex_digit (z / 4096 mod 16)) (String (hex_digit (z / 256 mod 16))
    (String (hex_digit (z / 16 mod 16)) (String (hex_digit (z mod 16)) ""))))).

(** Bytes outside escapes, invalid UTF-8 replaced rune by rune. *)
Definition unquote_rune (rw : Z * string) : string := if bad_rune rw then encode_rune rune_error else snd rw.

(** The Go string a literal's body denotes: escapes decoded, a surrogate pair
    as one rune, a lone surrogate as the replacement rune. *)
Fixpoint unescape (fuel : nat) (s : string) : string :=
  match fuel, s with
  | S n, String c r =>
      if Ascii.eqb c backslash then
        match r with
        | String "u" (String a (String b (String d (String e r')))) =>
            let x := hex4 a b d e in
            match r' with
            | String bs (String "u" (String a2 (String b2 (String d2 (String e2 r2))))) =>
                let y := hex4 a2 b2 d2 e2 in
                if Ascii.eqb bs backslash && in_range 55296 56319 x && in_range 56320 57343 y
                then encode_rune (65536 + (x - 55296) * 1024 + (y - 56320)) ++ unescape n r2
                else encode_rune x ++ unescape n r'
            | _ => encode_rune x ++ unescape n r'
            end
        | String x r' =>
            let o := if Ascii.eqb x "b" then chr 8 else if Ascii.eqb x "f" then chr 12
                     else if Ascii.eqb x "n" then chr 10 else if Ascii.eqb x "r" then chr 13
                     else if Ascii.eqb x "t" then chr 9 else x in
            String o (unescape n r')
        | EmptyString => ""
        end
      else
        let '(ru, w) := decode_rune s in unquote_rune (ru, take w s) ++ unescape n (drop w s)
  | _, _ => ""
  end.
Definition unquote (lit : string) : string := unescape (String.length lit) lit.

(** encoding/json's escaping of one rune of a Go string, HTML escaping on. *)
Definition quote_rune (rw : Z * string) : string :=
  let '(r, w) := rw in
  if bad_rune rw then u_escape rune_error
  else if r =? 34 then String backslash (String dquote "")
  else if r =? 92 then String backslash (String backslash "")
  else if r =? 8 then String backslash "b"
  else if r =? 12 then String backslash "f"
  else if r =? 10 then String backslash "n"
  else if r =? 13 then String backslash "r"
  else if r =? 9 then String backslash "t"
  else if (r <? 32) || mem_Z r [60; 62; 38; 8232; 8233] then u_escape r
  else w.
Definition quote (s : string) : string := String.concat "" (List.map quote_rune (runes s)).

(** A raw literal embedded again: only the HTML characters are escaped. *)
Definition compact_rune (rw : Z * string) : string :=
  if mem_Z (fst rw) [60; 62; 38; 8232; 8233] then u_escape (fst rw) else snd rw.
Definition compact_lit (lit : string) : string := String.concat "" (List.map compact_rune (runes lit)).

(** ** Writing *)

Definition in_quotes (lit : string) : string := String dquote (lit ++ String dquote "").

Fixpoint json_print (j : json) : string :=
  match j with
  | JNull => "null"
  | JBool true => "true"
  | JBool false => "false"
  | JNum l => l
  | JStr l => in_quotes (compact_lit l)
  | JArr l => "[" ++ join "," (List.map json_print l) ++ "]"
  | JObj m => "{" ++ join "," (List.map (fun kv => in_quotes (compact_lit (fst kv)) ++ ":" ++ json_print (snd kv)) m) ++ "}"
  end.

Definition jstring (s : string) : json := JStr (quote s).
Definition jint (z : Z) : json := JNum (itoa z).

(** ** Go maps keyed by strings, as json.Marshal writes them: by key *)

Fixpoint smap_set {A} (k : string) (v : A) (m : list (string * A)) : list (string * A) :=
  match m with
  | [] => [(k, v)]
  | (k', v') :: m' =>
      match String.compare k k' with
      | Lt => (k, v) :: m
      | Eq => (k, v) :: m'
      | Gt => (k', v') :: smap_set k v m'
      end
  end.
Fixpoint smap_get {A} (k : string) (m : list (string * A)) : option A :=
  match m with
  | [] => None
  | (k', v') :: m' => if String.eqb k k' then Some v' else smap_get k m'
  end.

(** json.Unmarshal of a text into a map[string]json.RawMessage: an object's
    members by decoded key, the last of a repeated key; null is the nil map;
    [None] is its error. *)
Definition as_object (j : json) : option (list (string * json)) :=
  match j with
  | JObj m => Some (List.fold_left (fun acc kv => smap_set (unquote (fst kv)) (snd kv) acc) m [])
  | JNull => Some []
  | _ => None
  end.

(** json.Unmarshal of a text into a []json.RawMessage: null is the nil slice. *)
Definition as_array (j : json) : option (list json) :=
  match j with JArr l => Some l | JNull => Some [] | _ => None end.

Definition object_of (m : list (string * json)) : json := JObj (List.map (fun kv => (quote (fst kv), snd kv)) m).

(** What reading a text yields when its error is dropped. *)
Definition array_or_nil (s : string) : list json :=
  match json_parse s with
  | Some j => match as_array j with Some l => l | None => [] end
  | None => []
  end.
Definition object_or_nil (s : string) : list (string * json) :=
  match json_parse s with
  | Some j => match as_object j with Some m => m | None => [] end
  | None => []
  end.
