(* ===== verification/JsonSpec.v ===== *)
(** * JSON texts: round trips

    Every valid UTF-8 string survives being quoted, stored and read again, and
    every tree of such strings, integers, arrays and objects the program writes
    is the tree it reads back. *)

From Stdlib Require Import List ZArith Lia Bool String Ascii DecimalString DecimalFacts DecimalPos DecimalN DecimalZ.
From stdpp Require Import base tactics.
From S2P Require Import Prelude Text Json.
Import ListNotations.
Local Open Scope string_scope.
Local Open Scope Z_scope.

(** ** UTF-8 *)

(** [w] is the encoding of the rune [r]. *)
Record rune_of (r : Z) (w : string) : Prop := {
  ro_decode : forall t, decode_rune (w ++ t) = (r, String.length w);
  ro_encode : encode_rune r = w;
  ro_ascii : r < 128 -> w = String (chr r) "";
  ro_high : 128 <= r -> forallb_str (fun c => 128 <=? code c) w = true;
  ro_bounds : 0 <= r <= 1114111 }.

Inductive utf8 : string -> Prop :=
| utf8_nil : utf8 ""
| utf8_cons r w s : rune_of r w -> utf8 s -> utf8 (w ++ s).

Lemma length_app_str a b : String.length (a ++ b) = (String.length a + String.length b)%nat.
Proof. pose proof (slen_app a b) as H. unfold slen in H. lia. Qed.

Lemma take_app a b : take (String.length a) (a ++ b) = a.
Proof. induction a as [|c a IH]; [now destruct b|]. rewrite app_cons_str. simpl. now rewrite IH. Qed.

Lemma drop_app a b : drop (String.length a) (a ++ b) = b.
Proof. induction a as [|c a IH]; [now destruct b|]. rewrite app_cons_str. simpl. apply IH. Qed.

Lemma rune_of_nonempty r w : rune_of r w -> (1 <= String.length w)%nat.
Proof.
  intros [_ H _ _ _]. rewrite <- H. unfold encode_rune. repeat destruct (_ <? _); simpl; lia.
Qed.

Lemma rune_of_good r w : rune_of r w -> bad_rune (r, w) = false.
Proof.
  intros H. unfold bad_rune. simpl. destruct (Z.eqb_spec r rune_error) as [->|]; [|reflexivity].
  rewrite <- (ro_encode _ _ H). reflexivity.
Qed.

(** What decode_rune reads, if it is not an invalid byte, is a rune's encoding. *)
Lemma byte_pair a b : code a = code b -> a = b.
Proof. intros H. now rewrite <- (chr_code a), H, chr_code. Qed.

Lemma chr_eq z a : z = code a -> chr z = a.
Proof. intros ->. apply chr_code. Qed.

Lemma in_range_spec lo hi z : in_range lo hi z = true <-> lo <= z <= hi.
Proof. unfold in_range. rewrite andb_true_iff, !Z.leb_le. reflexivity. Qed.

Lemma in_range_false lo hi z : in_range lo hi z = false <-> z < lo \/ hi < z.
Proof. unfold in_range. rewrite andb_false_iff, !Z.leb_gt. reflexivity. Qed.

Lemma second_ok_spec x b : second_ok x b = true ->
  128 <= code b <= 191 /\ (x = 224 -> 160 <= code b) /\ (x = 237 -> code b <= 159) /\ (x = 240 -> 144 <= code b) /\ (x = 244 -> code b <= 143).
Proof.
  unfold second_ok, cont.
  repeat match goal with |- context [Z.eqb ?a ?b] => destruct (Z.eqb_spec a b) end; rewrite in_range_spec; lia.
Qed.

Ltac zcase := match goal with |- context [Z.ltb ?a ?b] => destruct (Z.ltb_spec a b); [try lia|try lia] end.
Ltac byte := apply chr_eq; Z.to_euclidean_division_equations; lia.

Lemma encode_start r : 0 <= r <= 1114111 -> in_range 55296 57343 r = false ->
  (if (r <? 0) || (1114111 <? r) || in_range 55296 57343 r then rune_error else r) = r.
Proof. intros H ->. now destruct (Z.ltb_spec r 0), (Z.ltb_spec 1114111 r); try lia. Qed.

Lemma rune1 a : code a < 128 -> rune_of (code a) (String a "").
Proof.
  intros H. pose proof (code_bound a) as Hb. split.
  - intros t. simpl. now destruct (Z.ltb_spec (code a) 128); [|lia].
  - unfold encode_rune. rewrite encode_start by (rewrite ?in_range_false; lia). zcase. now rewrite chr_code.
  - now rewrite chr_code.
  - lia.
  - lia.
Qed.

Lemma rune2 a b : 194 <= code a <= 223 -> 128 <= code b <= 191 ->
  rune_of ((code a - 192) * 64 + low6 b) (String a (String b "")).
Proof.
  unfold low6. intros Ha Hb. set (r := (code a - 192) * 64 + (code b - 128)). assert (128 <= r < 2048) by (unfold r; lia). split.
  - intros t. simpl. destruct (Z.ltb_spec (code a) 128); [lia|]. rewrite (proj2 (in_range_spec 194 223 _)) by lia.
    unfold cont. now rewrite (proj2 (in_range_spec 128 191 _)) by lia.
  - unfold encode_rune. rewrite encode_start by (rewrite ?in_range_false; lia). do 2 zcase. unfold r. f_equal; [byte|]. f_equal. byte.
  - lia.
  - intros _. simpl. now destruct (Z.leb_spec 128 (code a)), (Z.leb_spec 128 (code b)); try lia.
  - lia.
Qed.

Lemma rune3 a b c : 224 <= code a <= 239 -> second_ok (code a) b = true -> 128 <= code c <= 191 ->
  rune_of ((code a - 224) * 4096 + low6 b * 64 + low6 c) (String a (String b (String c ""))).
Proof.
  intros Ha Hs Hc. pose proof (second_ok_spec _ _ Hs) as (Hb & H1 & H2 & _). unfold low6.
  set (r := (code a - 224) * 4096 + (code b - 128) * 64 + (code c - 128)).
  assert (2048 <= r < 65536 /\ (r < 55296 \/ 57343 < r)) by (unfold r; lia). split.
  - intros t. simpl. destruct (Z.ltb_spec (code a) 128); [lia|]. rewrite (proj2 (in_range_false 194 223 _)), (proj2 (in_range_spec 224 239 _)), Hs by lia.
    unfold cont. now rewrite (proj2 (in_range_spec 128 191 _)) by lia.
  - unfold encode_rune. rewrite encode_start by (rewrite ?in_range_false; lia). do 3 zcase. unfold r. f_equal; [byte|]. f_equal; [byte|]. f_equal. byte.
  - lia.
  - intros _. simpl. now destruct (Z.leb_spec 128 (code a)), (Z.leb_spec 128 (code b)), (Z.leb_spec 128 (code c)); try lia.
  - lia.
Qed.

Lemma rune4 a b c e : 240 <= code a <= 244 -> second_ok (code a) b = true -> 128 <= code c <= 191 -> 128 <= code e <= 191 ->
  rune_of ((code a - 240) * 262144 + low6 b * 4096 + low6 c * 64 + low6 e) (String a (String b (String c (String e "")))).
Proof.
  intros Ha Hs Hc He. pose proof (second_ok_spec _ _ Hs) as (Hb & _ & _ & H3 & H4). unfold low6.
  set (r := (code a - 240) * 262144 + (code b - 128) * 4096 + (code c - 128) * 64 + (code e - 128)).
  assert (65536 <= r <= 1114111) by (unfold r; lia). split.
  - intros t. simpl. destruct (Z.ltb_spec (code a) 128); [lia|].
    rewrite (proj2 (in_range_false 194 223 _)), (proj2 (in_range_false 224 239 _)), (proj2 (in_range_spec 240 244 _)), Hs by lia.
    unfold cont. now rewrite !(proj2 (in_range_spec 128 191 _)) by lia.
  - unfold encode_rune. rewrite encode_start by (rewrite ?in_range_false; lia). do 3 zcase. unfold r.
    f_equal; [byte|]. f_equal; [byte|]. f_equal; [byte|]. f_equal. byte.
  - lia.
  - intros _. simpl. now destruct (Z.leb_spec 128 (code a)), (Z.leb_spec 128 (code b)), (Z.leb_spec 128 (code c)), (Z.leb_spec 128 (code e)); try lia.
  - lia.
Qed.

Ltac bound H := rewrite ?andb_true_iff, ?in_range_spec in H.

Lemma decode_rune_of a s r n : decode_rune (String a s) = (r, n) -> bad_rune (r, take n (String a s)) = false ->
  rune_of r (take n (String a s)).
Proof.
  assert (Hbad : forall w, (rune_error, 1%nat) = (r, n) -> bad_rune (r, take n (String a w)) = false -> rune_of r (take n (String a w))).
  { intros w [= <- <-]. simpl. destruct w; discriminate. }
  simpl decode_rune. destruct (Z.ltb_spec (code a) 128); [|destruct (in_range 194 223 (code a)) eqn:E1; [|destruct (in_range 224 239 (code a)) eqn:E2; [|destruct (in_range 240 244 (code a)) eqn:E3; [|apply Hbad]]]].
  - intros [= <- <-] _. simpl. destruct s; now apply rune1.
  - destruct s as [|b s]; [apply Hbad|]. destruct (cont b) eqn:Eb; [|apply Hbad]. bound E1. unfold cont in Eb. bound Eb.
    intros [= <- <-] _. simpl. destruct s; now apply rune2.
  - destruct s as [|b [|c s]]; try apply Hbad. destruct (second_ok (code a) b && cont c) eqn:Eb; [|apply Hbad].
    unfold cont in Eb. bound E2. bound Eb. destruct Eb. intros [= <- <-] _. simpl. destruct s; now apply rune3.
  - destruct s as [|b [|c [|e s]]]; try apply Hbad. destruct (second_ok (code a) b && cont c && cont e) eqn:Eb; [|apply Hbad].
    unfold cont in Eb. bound E3. bound Eb. destruct Eb as [[]]. intros [= <- <-] _. simpl. destruct s; now apply rune4.
Qed.

Lemma take_drop n s : take n s ++ drop n s = s.
Proof. revert s. induction n as [|n IH]; intros [|c s]; try reflexivity. simpl. now rewrite app_cons_str, IH. Qed.

Lemma runes_fuel_utf8 n : forall s, (String.length s <= n)%nat -> existsb bad_rune (runes_fuel n s) = false -> utf8 s.
Proof.
  induction n as [|n IH]; intros s Hl; [destruct s; [constructor|simpl in Hl; lia]|]. destruct s as [|a s]; [constructor|].
  cbn [runes_fuel]. destruct (decode_rune (String a s)) as [r k] eqn:E. cbn [existsb]. intros [H1 H2]%orb_false_iff.
  pose proof (decode_rune_of _ _ _ _ E H1) as Hr. rewrite <- (take_drop k (String a s)). apply (utf8_cons r); [exact Hr|].
  apply IH; [|exact H2]. pose proof (rune_of_nonempty _ _ Hr) as Hn.
  pose proof (length_app_str (take k (String a s)) (drop k (String a s))) as Hd. rewrite take_drop in Hd. lia.
Qed.

Lemma utf8_valid_utf8 s : utf8_valid s = true -> utf8 s.
Proof. unfold utf8_valid. intros H%negb_true_iff. now apply (runes_fuel_utf8 (String.length s)). Qed.

Lemma runes_fuel_cons n r w s : rune_of r w -> runes_fuel (S n) (w ++ s) = (r, w) :: runes_fuel n s.
Proof.
  intros Hr. pose proof (ro_decode _ _ Hr s) as Hd. pose proof (take_app w s) as Ht. pose proof (drop_app w s) as He.
  pose proof (rune_of_nonempty _ _ Hr) as H1. pose proof (length_app_str w s) as Hl.
  destruct (w ++ s) as [|c t]; [simpl in Hl; lia|]. cbn [runes_fuel]. now rewrite Hd, Ht, He.
Qed.

Lemma runes_fuel_more n : forall m s, (String.length s <= n)%nat -> (String.length s <= m)%nat -> utf8 s -> runes_fuel n s = runes_fuel m s.
Proof.
  induction n as [|n IH]; intros m s Hn Hm Hu; [destruct s; [now destruct m|simpl in Hn; lia]|].
  destruct Hu as [|r w s Hr Hu]; [now destruct m|]. pose proof (rune_of_nonempty _ _ Hr) as H1. rewrite length_app_str in *.
  destruct m as [|m]; [lia|]. rewrite !(runes_fuel_cons _ r w s) by exact Hr. f_equal. apply IH; [lia|lia|exact Hu].
Qed.

Lemma runes_cons r w s : rune_of r w -> utf8 s -> runes (w ++ s) = (r, w) :: runes s.
Proof.
  intros Hr Hu. pose proof (rune_of_nonempty _ _ Hr) as H1. unfold runes. rewrite length_app_str.
  destruct (String.length w) as [|k] eqn:E; [lia|]. cbn [Nat.add]. rewrite (runes_fuel_cons _ r w s) by exact Hr.
  f_equal. apply runes_fuel_more; [lia|lia|exact Hu].
Qed.

(** ** String literals *)

Lemma concat_cons x l : String.concat "" (x :: l) = x ++ String.concat "" l.
Proof. destruct l; simpl; [now rewrite app_nil_str|reflexivity]. Qed.

Lemma quote_cons r w s : rune_of r w -> utf8 s -> quote (w ++ s) = quote_rune (r, w) ++ quote s.
Proof. intros Hr Hu. unfold quote. rewrite (runes_cons r) by done. cbn [List.map]. apply concat_cons. Qed.

Lemma ascii_cases r w : rune_of r w -> (w = String (chr r) "" /\ code (chr r) = r /\ r < 128) \/ (128 <= r /\ forallb_str (fun c => 128 <=? code c) w = true).
Proof.
  intros Hr. destruct (Z.lt_ge_cases r 128) as [H|H]; [left|right; split; [done|now apply (ro_high _ _ Hr)]].
  pose proof (ro_bounds _ _ Hr). repeat split; [now apply (ro_ascii _ _ Hr)|apply code_chr; lia|done].
Qed.

(** The forms a rune of a Go string takes in a literal. *)
Inductive quoted (r : Z) (w : string) : string -> Prop :=
| quoted_short x : existsb (Ascii.eqb x) [dquote; backslash; "b"%char; "f"%char; "n"%char; "r"%char; "t"%char] = true ->
    w = String (if Ascii.eqb x "b" then chr 8 else if Ascii.eqb x "f" then chr 12 else if Ascii.eqb x "n" then chr 10
                else if Ascii.eqb x "r" then chr 13 else if Ascii.eqb x "t" then chr 9 else x) "" ->
    quoted r w (String backslash (String x ""))
| quoted_u : (r < 32 \/ In r [60; 62; 38; 8232; 8233]) -> quoted r w (u_escape r)
| quoted_plain : 32 <= r -> r <> 34 -> r <> 92 -> mem_Z r [60; 62; 38; 8232; 8233] = false -> quoted r w w.

Lemma quote_rune_quoted r w : rune_of r w -> quoted r w (quote_rune (r, w)).
Proof.
  intros Hr. unfold quote_rune. rewrite (rune_of_good _ _ Hr).
  repeat match goal with |- context [if ?a =? ?b then _ else _] => destruct (Z.eqb_spec a b) as [E|];
    [apply quoted_short; [reflexivity|]; rewrite E in Hr; rewrite (ro_ascii _ _ Hr) by lia; reflexivity|] end.
  destruct (Z.ltb_spec r 32); cbn [orb]; [apply quoted_u; now left|].
  destruct (mem_Z r [60; 62; 38; 8232; 8233]) eqn:E; [|now apply quoted_plain]. apply quoted_u. right. now apply mem_Z_In.
Qed.

Lemma small_runes r : 0 <= r -> r < 32 \/ In r [60; 62; 38; 8232; 8233] ->
  In r ([0;1;2;3;4;5;6;7;8;9;10;11;12;13;14;15;16;17;18;19;20;21;22;23;24;25;26;27;28;29;30;31] ++ [60; 62; 38; 8232; 8233])%list.
Proof. intros H0 [H|H]; apply in_app_iff; [left; simpl; lia|now right]. Qed.

Lemma unescape_u n a b d e t : in_range 55296 56319 (hex4 a b d e) = false ->
  unescape (S n) (String backslash (String "u" (String a (String b (String d (String e t)))))) = encode_rune (hex4 a b d e) ++ unescape n t.
Proof.
  intros H. cbn [unescape]. change (Ascii.eqb backslash backslash) with true. cbv iota.
  destruct t as [|bs t]; [reflexivity|]. destruct t as [|u t]; [reflexivity|].
  destruct u as [[] [] [] [] [] [] [] []]; try reflexivity.
  destruct t as [|a2 [|b2 [|d2 [|e2 t]]]]; try reflexivity. rewrite H, andb_false_r. reflexivity.
Qed.

Lemma u_escape_parts r : 0 <= r -> r < 32 \/ In r [60; 62; 38; 8232; 8233] -> exists a b d e,
  u_escape r = String backslash (String "u" (String a (String b (String d (String e ""))))) /\ hex4 a b d e = r
  /\ is_hex a && is_hex b && is_hex d && is_hex e = true.
Proof.
  intros H0 H. pose proof (small_runes r H0 H) as Hin. clear H0 H. simpl in Hin.
  repeat (destruct Hin as [<-|Hin]; [do 4 eexists; split; [reflexivity|split; reflexivity]|]). destruct Hin.
Qed.

Lemma scan_plain w t : forallb_str (fun c => (32 <=? code c) && negb (Ascii.eqb c dquote) && negb (Ascii.eqb c backslash)) w = true ->
  scan_str (w ++ t) = match scan_str t with Some (l, rest) => Some (w ++ l, rest) | None => None end.
Proof.
  induction w as [|c w IH]; [intros _; change ("" ++ t) with t; now destruct (scan_str t) as [[]|]|]. rewrite app_cons_str. cbn [forallb_str].
  intros [[[Hc H1%negb_true_iff]%andb_true_iff H2%negb_true_iff]%andb_true_iff Hw]%andb_true_iff. apply Z.leb_le in Hc.
  cbn [scan_str]. rewrite H1, H2, (IH Hw). destruct (Z.ltb_spec (code c) 32); [lia|]. now destruct (scan_str t) as [[]|].
Qed.

Lemma eqb_code a b : code a <> code b -> Ascii.eqb a b = false.
Proof. intros H. apply Ascii.eqb_neq. congruence. Qed.

Lemma plain_bytes r w : rune_of r w -> 32 <= r -> r <> 34 -> r <> 92 ->
  forallb_str (fun c => (32 <=? code c) && negb (Ascii.eqb c dquote) && negb (Ascii.eqb c backslash)) w = true.
Proof.
  intros Hr H1 H2 H3. assert (Hc : forall c, 32 <= code c -> code c <> 34 -> code c <> 92 ->
    (32 <=? code c) && negb (Ascii.eqb c dquote) && negb (Ascii.eqb c backslash) = true).
  { intros c Ha Hb Hd. rewrite (eqb_code c dquote), (eqb_code c backslash) by assumption. now destruct (Z.leb_spec 32 (code c)); [|lia]. }
  destruct (ascii_cases _ _ Hr) as [(-> & E & _)|[_ Hw]]; [simpl; rewrite Hc; rewrite ?E; lia|].
  clear Hr. induction w as [|c w IH]; [done|]. simpl in *. apply andb_true_iff in Hw as [Hw1 Hw]. apply Z.leb_le in Hw1. rewrite Hc, IH by (assumption || lia). done.
Qed.

Lemma scan_quoted r w q t : rune_of r w -> quoted r w q ->
  scan_str (q ++ t) = match scan_str t with Some (l, rest) => Some (q ++ l, rest) | None => None end.
Proof.
  intros Hr [x Hx _|H|H1 H2 H3 _].
  - change (String backslash (String x "") ++ t) with (String backslash (String x t)). cbn [existsb] in Hx. repeat (apply orb_true_iff in Hx as [Hx|Hx]; [apply Ascii.eqb_eq in Hx as ->; simpl; now destruct (scan_str t) as [[]|]|]). done.
  - destruct (u_escape_parts r (proj1 (ro_bounds _ _ Hr)) H) as (a & b & d & e & -> & _ & Hh).
    rewrite !app_cons_str. change ("" ++ t) with t. cbn [scan_str]. change (Ascii.eqb backslash dquote) with false. change (code backslash <? 32) with false.
    change (Ascii.eqb backslash backslash) with true. cbv iota. rewrite Hh. now destruct (scan_str t) as [[]|].
  - apply scan_plain. now apply (plain_bytes r).
Qed.

(** A literal that ends where it was closed, and that is written as it is. *)
Definition literal (l : string) : Prop :=
  (forall t, scan_str (l ++ String dquote t) = Some (l, t)) /\ compact_lit l = l.

Lemma quote_scan s : utf8 s -> forall t, scan_str (quote s ++ String dquote t) = Some (quote s, t).
Proof.
  induction 1 as [|r w s Hr Hu IH]; intros t; [reflexivity|]. rewrite (quote_cons r) by done.
  rewrite app_assoc_str, (scan_quoted r w) by auto using quote_rune_quoted. now rewrite IH.
Qed.

Lemma utf8_app a b : utf8 a -> utf8 b -> utf8 (a ++ b).
Proof. induction 1 as [|r w s Hr Hu IH]; intros Hb; [done|]. rewrite app_assoc_str. apply (utf8_cons r); auto. Qed.

Lemma runes_app a b : utf8 a -> utf8 b -> runes (a ++ b) = (runes a ++ runes b)%list.
Proof.
  induction 1 as [|r w s Hr Hu IH]; intros Hb; [done|]. rewrite app_assoc_str, (runes_cons r w), (runes_cons r w s) by auto using utf8_app.
  rewrite IH by done. reflexivity.
Qed.

Lemma concat_app a b : String.concat "" (a ++ b)%list = String.concat "" a ++ String.concat "" b.
Proof. induction a as [|x a IH]; [done|]. simpl app. now rewrite !concat_cons, IH, app_assoc_str. Qed.

Lemma compact_app a b : utf8 a -> utf8 b -> compact_lit (a ++ b) = compact_lit a ++ compact_lit b.
Proof. intros Ha Hb. unfold compact_lit. rewrite runes_app, List.map_app by done. apply concat_app. Qed.

Lemma utf8_ascii s : forallb_str (fun c => code c <? 128) s = true -> utf8 s.
Proof.
  induction s as [|c s IH]; [constructor|]. simpl. intros [Hc Hs]%andb_true_iff. apply Z.ltb_lt in Hc.
  change (String c s) with (String c "" ++ s). apply (utf8_cons (code c)); [now apply rune1|auto].
Qed.

Lemma quoted_compact r w q : rune_of r w -> quoted r w q -> utf8 q /\ compact_lit q = q.
Proof.
  intros Hr [x Hx _|H|_ _ _ H4].
  - cbn [existsb] in Hx. repeat (apply orb_true_iff in Hx as [Hx|Hx]; [apply Ascii.eqb_eq in Hx as ->; split; [apply utf8_ascii|]; reflexivity|]). done.
  - pose proof (small_runes r (proj1 (ro_bounds _ _ Hr)) H) as Hin. clear Hr H. simpl in Hin.
    repeat (destruct Hin as [<-|Hin]; [split; [apply utf8_ascii|]; reflexivity|]). destruct Hin.
  - rewrite <- (app_nil_str w). split; [apply (utf8_cons r); [done|constructor]|].
    unfold compact_lit. rewrite (runes_cons r) by (done || constructor). cbn [List.map]. rewrite concat_cons. unfold compact_rune. cbn [fst snd]. now rewrite H4.
Qed.

Lemma quote_utf8 s : utf8 s -> utf8 (quote s) /\ compact_lit (quote s) = quote s.
Proof.
  induction 1 as [|r w s Hr Hu [IH1 IH2]]; [split; [constructor|done]|]. rewrite (quote_cons r) by done.
  destruct (quoted_compact r w _ Hr (quote_rune_quoted _ _ Hr)) as [H1 H2]. split; [now apply utf8_app|].
  now rewrite compact_app, H2, IH2.
Qed.

Lemma literal_quote s : utf8 s -> literal (quote s).
Proof. intros Hu. split; [now apply quote_scan|now apply quote_utf8]. Qed.

Lemma unescape_quoted r w q n t : rune_of r w -> quoted r w q -> unescape (S n) (q ++ t) = w ++ unescape n t.
Proof.
  intros Hr [x Hx Hw|H|H1 H2 H3 H4].
  - subst w. change (String backslash (String x "") ++ t) with (String backslash (String x t)). cbn [existsb] in Hx.
    repeat (apply orb_true_iff in Hx as [Hx|Hx]; [apply Ascii.eqb_eq in Hx as ->; reflexivity|]). done.
  - destruct (u_escape_parts r (proj1 (ro_bounds _ _ Hr)) H) as (a & b & d & e & -> & Hh & _).
    rewrite !app_cons_str. change ("" ++ t) with t. rewrite unescape_u, Hh; [now rewrite (ro_encode _ _ Hr)|].
    rewrite Hh. apply in_range_false. destruct H as [H|H]; [lia|simpl in H; lia].
  - pose proof (ro_decode _ _ Hr t) as Hd. pose proof (take_app w t) as Ht. pose proof (drop_app w t) as He.
    pose proof (plain_bytes r w Hr H1 H2 H3) as Hp. pose proof (rune_of_nonempty _ _ Hr) as H0.
    destruct w as [|c w]; [simpl in H0; lia|]. cbn [forallb_str] in Hp. rewrite !andb_true_iff, negb_true_iff in Hp.
    destruct Hp as [[_ Hp]  _]. apply negb_true_iff in Hp. rewrite app_cons_str in *. cbn [unescape]. rewrite Hp, Hd, Ht, He.
    unfold unquote_rune. now rewrite (rune_of_good _ _ Hr).
Qed.

Lemma quoted_length r w q : rune_of r w -> quoted r w q -> (1 <= String.length q)%nat.
Proof. intros Hr [x _ _|_|_ _ _ _]; [simpl; lia|simpl; lia|now apply (rune_of_nonempty r)]. Qed.

Lemma unescape_quote s : utf8 s -> forall n, (String.length (quote s) <= n)%nat -> unescape n (quote s) = s.
Proof.
  induction 1 as [|r w s Hr Hu IH]; intros n Hn; [now destruct n|]. rewrite (quote_cons r) in * by done. rewrite length_app_str in Hn.
  pose proof (quote_rune_quoted _ _ Hr) as Hq. pose proof (quoted_length _ _ _ Hr Hq).
  destruct n as [|n]; [lia|]. rewrite (unescape_quoted r w) by done. rewrite IH by lia. done.
Qed.

(** Quoting loses nothing of a valid string. *)
Lemma unquote_quote s : utf8 s -> unquote (quote s) = s.
Proof. intros Hu. now apply unescape_quote. Qed.

(** ** Numbers *)

Notation uint_text := NilEmpty.string_of_uint.

Lemma uint_digits d : forallb_str is_digit (uint_text d) = true.
Proof. induction d; simpl; auto. Qed.

Ltac eval_digit := match goal with |- context [digit_val ?c] => let v := eval vm_compute in (digit_val c) in change (digit_val c) with v end.

Lemma digits_val_acc_pos d : forall acc, digits_val (Zpos acc) (uint_text d) = Zpos (Pos.of_uint_acc d acc).
Proof.
  induction d as [|d IH|d IH|d IH|d IH|d IH|d IH|d IH|d IH|d IH|d IH]; intros acc; [reflexivity|..];
    cbn [uint_text digits_val Pos.of_uint_acc]; rewrite <- IH; f_equal; eval_digit; lia.
Qed.

Lemma digits_val_uint d : digits_val 0 (uint_text d) = Z.of_N (Pos.of_uint d).
Proof.
  induction d as [|d IH|d _|d _|d _|d _|d _|d _|d _|d _|d _]; [reflexivity|exact IH|..];
    cbn [uint_text digits_val Pos.of_uint Z.of_N]; rewrite <- digits_val_acc_pos; reflexivity.
Qed.

(** Digits that do not start with 0. *)
Definition numeral (s : string) : Prop := forallb_str is_digit s = true /\ exists c t, s = String c t /\ c <> "0"%char.

Lemma pos_numeral p : numeral (uint_text (Pos.to_uint p)) /\ digits_val 0 (uint_text (Pos.to_uint p)) = Zpos p.
Proof.
  pose proof (DecimalPos.Unsigned.of_to p) as Hof. rewrite digits_val_uint, Hof. split; [|reflexivity].
  split; [apply uint_digits|].
  assert (Hn : Decimal.unorm (Pos.to_uint p) = Pos.to_uint p) by (rewrite <- DecimalPos.Unsigned.to_of, Hof; reflexivity).
  destruct (Decimal.nzhead (Pos.to_uint p)) as [| |u|u|u|u|u|u|u|u|u] eqn:E.
  1: { apply unorm_0 in E. rewrite <- Hn, E in Hof. discriminate. }
  1: { now apply nzhead_nonzero in E. }
  all: rewrite <- Hn; unfold Decimal.unorm; rewrite E; do 2 eexists; split; [reflexivity|discriminate].
Qed.

Lemma itoa_pos p : itoa (Zpos p) = uint_text (Pos.to_uint p).
Proof.
  unfold itoa. simpl. destruct (pos_numeral p) as [[_ (c & t & E & _)] _]. unfold NilZero.string_of_uint. now destruct (Pos.to_uint p).
Qed.

Lemma itoa_neg p : itoa (Zneg p) = String "-" (uint_text (Pos.to_uint p)).
Proof. pose proof (itoa_pos p) as H. unfold itoa in *. simpl in *. now rewrite H. Qed.

Lemma parse_numeral bits s : numeral s -> parse_int bits s = if digits_val 0 s <? 2 ^ (bits - 1) then Some (digits_val 0 s) else None.
Proof.
  intros [Hd (c & t & -> & _)]. unfold parse_int.
  assert (Hc : is_digit c = true) by (simpl in Hd; now apply andb_true_iff in Hd).
  assert (Hm : c <> "-"%char /\ c <> "+"%char) by (split; intros ->; discriminate). destruct Hm as [H1 H2].
  replace (match String c t with String "-" r => (true, r) | String "+" r => (false, r) | _ => (false, String c t) end) with (false, String c t).
  2: { destruct c as [[] [] [] [] [] [] [] []]; try reflexivity; now exfalso. }
  rewrite Hd. reflexivity.
Qed.

(** strconv.Atoi reads what strconv.Itoa writes. *)
Lemma atoi_itoa z : - 2 ^ 63 <= z < 2 ^ 63 -> atoi (itoa z) = Some z.
Proof.
  intros Hz. destruct z as [|p|p]; [reflexivity| |]; destruct (pos_numeral p) as [Hn Hv].
  - rewrite itoa_pos. unfold atoi. rewrite parse_numeral, Hv by exact Hn. destruct (Z.ltb_spec (Z.pos p) (2 ^ (64 - 1))); [reflexivity|lia].
  - rewrite itoa_neg. unfold atoi, parse_int. destruct Hn as [Hd (c & t & E & _)]. rewrite Hd, Hv.
    rewrite E at 1. simpl String.eqb. cbn [orb negb]. destruct (Z.leb_spec (Z.pos p) (2 ^ (64 - 1))); [reflexivity|lia].
Qed.

(** What may follow a value within a text. *)
Definition stops (t : string) : bool :=
  match t with EmptyString => true | String c _ => existsb (Ascii.eqb c) [","%char; "]"%char; "}"%char] end.

Ltac stop_cases t H :=
  destruct t as [|? t]; [reflexivity|]; cbn [stops existsb] in H;
  repeat (apply orb_true_iff in H as [H|H]; [apply Ascii.eqb_eq in H as ->; reflexivity|]); done.

Lemma span_stops s t : forallb_str is_digit s = true -> stops t = true -> span is_digit (s ++ t) = (s, t).
Proof.
  intros Hd Ht. induction s as [|c s IH].
  - change ("" ++ t) with t. stop_cases t Ht.
  - rewrite app_cons_str. cbn [forallb_str] in Hd. apply andb_true_iff in Hd as [Hc Hd]. cbn [span]. now rewrite Hc, IH.
Qed.

Lemma scan_frac_stops t : stops t = true -> scan_frac t = Some ("", t).
Proof. intros H. stop_cases t H. Qed.
Lemma scan_exp_stops t : stops t = true -> scan_exp t = Some ("", t).
Proof. intros H. stop_cases t H. Qed.

Lemma scan_int_numeral s t : numeral s -> stops t = true -> scan_int (s ++ t) = Some (s, t).
Proof.
  intros [Hd (c & r & -> & Hc)] Ht. pose proof (span_stops _ t Hd Ht) as Hs. unfold scan_int. rewrite Hs, app_cons_str.
  destruct c as [[] [] [] [] [] [] [] []]; try reflexivity. now exfalso.
Qed.

(** A number literal, as json.Unmarshal accepts it before anything that may follow. *)
Definition number (l : string) : Prop :=
  (forall t, stops t = true -> scan_num (l ++ t) = Some (l, t))
  /\ exists c r, l = String c r /\ (is_digit c = true \/ c = "-"%char).

Lemma scan_num_numeral s t : numeral s -> stops t = true ->
  scan_num (s ++ t) = Some (s, t) /\ scan_num (String "-" s ++ t) = Some (String "-" s, t).
Proof.
  intros Hs Ht. pose proof (scan_int_numeral s t Hs Ht) as Hi. split.
  - unfold scan_num. destruct Hs as [Hd (c & r & -> & _)]. rewrite app_cons_str in *.
    assert (Hc : is_digit c = true) by (simpl in Hd; now apply andb_true_iff in Hd).
    replace (match String c (r ++ t) with String "-" u => ("-", u) | _ => ("", String c (r ++ t)) end) with ("", String c (r ++ t)).
    2: { destruct c as [[] [] [] [] [] [] [] []]; try reflexivity; discriminate. }
    rewrite Hi, scan_frac_stops, scan_exp_stops, !app_nil_str by exact Ht. reflexivity.
  - unfold scan_num. rewrite app_cons_str, Hi, scan_frac_stops, scan_exp_stops, !app_nil_str by exact Ht. reflexivity.
Qed.

Lemma number_itoa z : number (itoa z).
Proof.
  destruct z as [|p|p]; [|destruct (pos_numeral p) as [Hn _]..].
  - split; [|now exists "0"%char, ""; split; [|left]]. intros t Ht. change (itoa 0 ++ t) with (String "0" t).
    unfold scan_num. cbn [scan_int]. now rewrite scan_frac_stops, scan_exp_stops by exact Ht.
  - rewrite itoa_pos. split; [intros t Ht; now apply scan_num_numeral|]. destruct Hn as [Hd (c & t & E & _)]. exists c, t.
    split; [exact E|]. left. rewrite E in Hd. cbn [forallb_str] in Hd. now apply andb_true_iff in Hd.
  - rewrite itoa_neg. split; [intros t Ht; now apply scan_num_numeral|]. do 2 eexists. split; [reflexivity|now right].
Qed.

(** ** Values *)

(** A tree whose literals are written as they are and read back. *)
Inductive canonical : json -> Prop :=
| canonical_null : canonical JNull
| canonical_bool b : canonical (JBool b)
| canonical_num l : number l -> canonical (JNum l)
| canonical_str l : literal l -> canonical (JStr l)
| canonical_arr l : Forall canonical l -> canonical (JArr l)
| canonical_obj m : Forall (fun kv => literal (fst kv) /\ canonical (snd kv)) m -> canonical (JObj m).

Section Loops.
Variable pv : string -> option (json * string).

(** The loops of [parse_value], named. *)
Fixpoint elems_of (k : nat) (s : string) (acc : list json) {struct k} : option (json * string) :=
  match k with
  | O => None
  | S k' =>
      match pv s with
      | None => None
      | Some (v, r) =>
          match skip_ws r with
          | String "," r' => elems_of k' r' (acc ++ [v])%list
          | String "]" r' => Some (JArr (acc ++ [v]), r')
          | _ => None
          end
      end
  end.

Fixpoint members_of (k : nat) (s : string) (acc : list (string * json)) {struct k} : option (json * string) :=
  match k with
  | O => None
  | S k' =>
      match skip_ws s with
      | String q r0 =>
          if Ascii.eqb q dquote then
            match scan_str r0 with
            | None => None
            | Some (key, r1) =>
                match skip_ws r1 with
                | String ":" r2 =>
                    match pv r2 with
                    | None => None
                    | Some (v, r) =>
                        match skip_ws r with
                        | String "," r' => members_of k' r' (acc ++ [(key, v)])%list
                        | String "}" r' => Some (JObj (acc ++ [(key, v)]), r')
                        | _ => None
                        end
                    end
                | _ => None
                end
            end
          else None
      | EmptyString => None
      end
  end.

Definition reads (j : json) : Prop := forall t, stops t = true -> pv (json_print j ++ t) = Some (j, t).

Lemma join_cons x y l : join "," (x :: y :: l) = x ++ String "," (join "," (y :: l)).
Proof. reflexivity. Qed.

Lemma elems_of_print l : forall k acc t, l <> [] -> Forall reads l -> (List.length l <= k)%nat ->
  elems_of k (join "," (List.map json_print l) ++ String "]" t) acc = Some (JArr (acc ++ l), t).
Proof.
  induction l as [|x l IH]; intros k acc t Hne Hl Hk; [done|]. inversion Hl as [|? ? Hx Hl']; subst. destruct k as [|k]; [simpl in Hk; lia|].
  cbn [elems_of]. destruct l as [|y l].
  - cbn [List.map join]. now rewrite Hx.
  - cbn [List.map]. rewrite join_cons, app_assoc_str, Hx, app_cons_str by reflexivity.
    change (skip_ws (String "," ?z)) with (String "," z). cbv iota.
    change (json_print y :: List.map json_print l) with (List.map json_print (y :: l)).
    rewrite IH by (done || (simpl in *; lia)). now rewrite <- app_assoc.
Qed.

Definition print_member (kv : string * json) : string := in_quotes (compact_lit (fst kv)) ++ ":" ++ json_print (snd kv).

Lemma members_of_print m : forall k acc t, m <> [] -> Forall (fun kv => literal (fst kv) /\ reads (snd kv)) m -> (List.length m <= k)%nat ->
  members_of k (join "," (List.map print_member m) ++ String "}" t) acc = Some (JObj (acc ++ m), t).
Proof.
  induction m as [|[key v] m IH]; intros k acc t Hne Hm Hk; [done|]. inversion Hm as [|? ? [Hkey Hv] Hm']; subst. cbn [fst snd] in *.
  destruct k as [|k]; [simpl in Hk; lia|]. destruct Hkey as [Hs Hc].
  assert (Hp : forall u, print_member (key, v) ++ u = String dquote (key ++ String dquote (String ":" (json_print v ++ u)))).
  { intros u. unfold print_member, in_quotes. cbn [fst snd]. rewrite Hc. rewrite !app_assoc_str, !app_cons_str, !app_assoc_str. reflexivity. }
  cbn [members_of]. destruct m as [|y m].
  - cbn [List.map join]. rewrite Hp. change (skip_ws (String dquote ?z)) with (String dquote z). cbv iota. rewrite Ascii.eqb_refl, Hs.
    change (skip_ws (String ":" ?z)) with (String ":" z). cbv iota. now rewrite Hv.
  - cbn [List.map]. rewrite join_cons, app_assoc_str, Hp. change (skip_ws (String dquote ?z)) with (String dquote z). cbv iota.
    rewrite Ascii.eqb_refl, Hs. change (skip_ws (String ":" ?z)) with (String ":" z). cbv iota. rewrite app_cons_str, Hv by reflexivity.
    change (skip_ws (String "," ?z)) with (String "," z). cbv iota.
    change (print_member y :: List.map print_member m) with (List.map print_member (y :: m)).
    rewrite IH by (done || (simpl in *; lia)). now rewrite <- app_assoc.
Qed.
End Loops.

Lemma parse_value_eq n s : parse_value (S n) s =
  match skip_ws s with
  | EmptyString => None
  | String c r =>
      if Ascii.eqb c dquote then match scan_str r with Some (l, r') => Some (JStr l, r') | None => None end
      else if Ascii.eqb c "[" then match skip_ws r with String "]" r' => Some (JArr [], r') | _ => elems_of (parse_value n) n r [] end
      else if Ascii.eqb c "{" then match skip_ws r with String "}" r' => Some (JObj [], r') | _ => members_of (parse_value n) n r [] end
      else if Ascii.eqb c "n" then match cut_prefix "ull" r with Some r' => Some (JNull, r') | None => None end
      else if Ascii.eqb c "t" then match cut_prefix "rue" r with Some r' => Some (JBool true, r') | None => None end
      else if Ascii.eqb c "f" then match cut_prefix "alse" r with Some r' => Some (JBool false, r') | None => None end
      else match scan_num (String c r) with Some (l, r') => Some (JNum l, r') | None => None end
  end.
Proof. reflexivity. Qed.

(** A value starts with none of the bytes that close or separate. *)
Definition starts_value (s : string) : Prop := exists c r, s = String c r /\ is_ws c = false /\ c <> "]"%char.

Lemma print_starts j : canonical j -> starts_value (json_print j).
Proof.
  intros Hj. destruct Hj as [|[]|l Hl|l _|l _|m _];
    try (do 2 eexists; split; [reflexivity|split; [reflexivity|discriminate]]).
  destruct Hl as [_ (c & r & -> & Hc)]. exists c, r. split; [reflexivity|]. destruct Hc as [Hc| ->]; [|now split].
  destruct c as [[] [] [] [] [] [] [] []]; try discriminate Hc; now split.
Qed.

Lemma starts_length s : starts_value s -> (1 <= String.length s)%nat.
Proof. intros (c & r & -> & _). simpl. lia. Qed.

Lemma join_length_in x l : In x l -> (String.length x <= String.length (join "," l))%nat.
Proof.
  induction l as [|y l IH]; [done|]. intros Hx. destruct l as [|z l]; [destruct Hx as [->|[]]; simpl; lia|].
  rewrite join_cons, length_app_str. destruct Hx as [->|Hx]; [lia|]. specialize (IH Hx). cbn [String.length]. lia.
Qed.

Lemma join_length_count l : Forall (fun s => 1 <= String.length s)%nat l -> (List.length l <= String.length (join "," l))%nat.
Proof.
  induction 1 as [|y l Hy Hl IH]; [simpl; lia|]. destruct l as [|z l]; [simpl in *; lia|].
  rewrite join_cons, length_app_str. cbn [String.length]. cbn [List.length] in *. lia.
Qed.

Lemma not_bracket {A} s (a : string -> A) (b : A) : starts_value s -> forall t,
  match skip_ws (s ++ t) with String "]" r => a r | _ => b end = b.
Proof.
  intros (c & r & -> & Hw & Hc) t. rewrite app_cons_str. unfold skip_ws. cbn [trim_left]. rewrite Hw.
  destruct c as [[] [] [] [] [] [] [] []]; try reflexivity. now exfalso.
Qed.

Lemma print_arr l t : json_print (JArr l) ++ t = String "[" (join "," (List.map json_print l) ++ String "]" t).
Proof. cbn [json_print]. now rewrite !app_assoc_str. Qed.

Lemma print_obj m t : json_print (JObj m) ++ t = String "{" (join "," (List.map print_member m) ++ String "}" t).
Proof. cbn [json_print]. now rewrite !app_assoc_str. Qed.

Lemma print_length j : String.length (json_print j) = String.length (json_print j ++ "").
Proof. now rewrite app_nil_str. Qed.

Lemma join_parts l : Forall canonical l -> forall x, In x l ->
  (String.length (json_print x) <= String.length (join "," (List.map json_print l)))%nat
  /\ (List.length l <= String.length (join "," (List.map json_print l)))%nat.
Proof.
  intros Hl x Hx. split; [apply join_length_in; now apply in_map|]. rewrite <- (List.length_map json_print l). apply join_length_count.
  rewrite List.Forall_map. revert Hl. apply List.Forall_impl. intros j Hj. now apply starts_length, print_starts.
Qed.

Lemma parse_num n c r : is_digit c = true \/ c = "-"%char ->
  parse_value (S n) (String c r) = match scan_num (String c r) with Some (l, r') => Some (JNum l, r') | None => None end.
Proof.
  rewrite parse_value_eq. intros [Hc| ->]; [|reflexivity]. destruct c as [[] [] [] [] [] [] [] []]; try discriminate Hc; reflexivity.
Qed.

Lemma parse_str n l t : literal l -> parse_value (S n) (json_print (JStr l) ++ t) = Some (JStr l, t).
Proof.
  intros [Hs Hc]. rewrite parse_value_eq. cbn [json_print]. rewrite Hc. unfold in_quotes. rewrite !app_cons_str, app_assoc_str, app_cons_str.
  change (skip_ws (String dquote ?z)) with (String dquote z). cbv iota. rewrite Ascii.eqb_refl. change ("" ++ t) with t. now rewrite Hs.
Qed.

Lemma parse_arr n l t : Forall canonical l -> Forall (reads (parse_value n)) l -> (List.length l <= n)%nat ->
  parse_value (S n) (json_print (JArr l) ++ t) = Some (JArr l, t).
Proof.
  intros Hl Hr Hn. rewrite parse_value_eq, print_arr. change (skip_ws (String "[" ?z)) with (String "[" z). cbv iota.
  change (Ascii.eqb "[" dquote) with false. change (Ascii.eqb "[" "[") with true. cbv iota. destruct l as [|x l]; [reflexivity|].
  inversion Hl as [|? ? Hx _]; subst.
  assert (Hs : starts_value (join "," (List.map json_print (x :: l)))).
  { destruct (print_starts x Hx) as (c & r & E & Hw & Hc). cbn [List.map]. destruct l as [|y l]; [now exists c, r|].
    cbn [List.map]. rewrite join_cons, E, app_cons_str. now do 2 eexists. }
  rewrite not_bracket by exact Hs. now rewrite elems_of_print.
Qed.

Lemma parse_obj n m t : Forall (fun kv => literal (fst kv) /\ reads (parse_value n) (snd kv)) m -> (List.length m <= n)%nat ->
  parse_value (S n) (json_print (JObj m) ++ t) = Some (JObj m, t).
Proof.
  intros Hm Hn. rewrite parse_value_eq, print_obj. change (skip_ws (String "{" ?z)) with (String "{" z). cbv iota.
  change (Ascii.eqb "{" dquote) with false. change (Ascii.eqb "{" "[") with false. change (Ascii.eqb "{" "{") with true. cbv iota.
  destruct m as [|[key v] m]; [reflexivity|]. rewrite members_of_print by done.
  assert (Hs : exists r, join "," (List.map print_member ((key, v) :: m)) = String dquote r).
  { cbn [List.map]. unfold print_member at 1, in_quotes. destruct m as [|y m]; eexists; [cbn [List.map join]|cbn [List.map]; rewrite join_cons]; reflexivity. }
  destruct Hs as [r ->]. reflexivity.
Qed.

Lemma member_length kv : (String.length (json_print (snd kv)) <= String.length (print_member kv))%nat /\ (1 <= String.length (print_member kv))%nat.
Proof. unfold print_member, in_quotes. rewrite app_cons_str. cbn [String.length]. rewrite !length_app_str. lia. Qed.

(** Reading a printed value gives it back, with what follows it. *)
Lemma parse_print j : canonical j -> forall n t, stops t = true -> (String.length (json_print j) <= n)%nat ->
  parse_value n (json_print j ++ t) = Some (j, t).
Proof.
  induction j as [|b|l|l|l IH|m IH] using json_nested_ind; intros Hj n t Ht Hn;
    (destruct n as [|n]; [exfalso; apply print_starts, starts_length in Hj; lia|]).
  - reflexivity.
  - now destruct b.
  - inversion Hj as [| |? [Hs (c & r & -> & Hc)]| | |]; subst. specialize (Hs t Ht). cbn [json_print]. rewrite app_cons_str in *.
    now rewrite parse_num, Hs.
  - inversion Hj; subst. now apply parse_str.
  - inversion Hj as [| | | |? Hl|]; subst. rewrite (print_length (JArr l)), print_arr in Hn. cbn [String.length] in Hn. rewrite length_app_str in Hn.
    apply parse_arr; [done| |].
    + rewrite List.Forall_forall in IH. apply List.Forall_forall. intros x Hx u Hu. destruct (join_parts l Hl x Hx).
      apply IH; [done|rewrite List.Forall_forall in Hl; auto|done|lia].
    + destruct l as [|x l]; [simpl; lia|]. destruct (join_parts _ Hl x (or_introl eq_refl)). lia.
  - inversion Hj as [| | | | |? Hm]; subst. rewrite (print_length (JObj m)), print_obj in Hn. cbn [String.length] in Hn. rewrite length_app_str in Hn.
    rewrite List.Forall_forall in IH, Hm. apply parse_obj.
    + apply List.Forall_forall. intros kv Hkv. destruct (Hm kv Hkv) as [H1 H2]. split; [done|]. intros u Hu.
      apply IH; [done|done|done|]. pose proof (join_length_in _ _ (in_map print_member _ _ Hkv)). destruct (member_length kv). lia.
    + pose proof (join_length_count (List.map print_member m)) as Hc. rewrite List.length_map in Hc. 
      enough (List.length m <= String.length (join "," (List.map print_member m)))%nat by lia. apply Hc.
      apply List.Forall_forall. intros s (kv & <- & _)%in_map_iff. apply member_length.
Qed.

(** json.Unmarshal reads what json.Marshal writes. *)
Lemma json_parse_print j : canonical j -> json_parse (json_print j) = Some j.
Proof.
  intros Hj. unfold json_parse. pose proof (parse_print j Hj (S (String.length (json_print j))) "" eq_refl) as H.
  rewrite app_nil_str in H. now rewrite H by lia.
Qed.
