(* ===== verification/Types.v ===== *)
(** * The driver contract's data (package driver)

    The job states, the job row, and the parameters and results of the
    executor's operations, with Go's field names behind a prefix per struct.
    Times of the database are microseconds since the Unix epoch, durations
    nanoseconds; a NULL column or nil pointer is [None].  A [JobRow] is a row of
    the live table: driver.JobRow is its view, with its encoded columns
    (errors, progress, logs, tags) kept as stored. *)

From Stdlib Require Import List ZArith Lia Bool String.
From S2P Require Import Prelude Text.
Import ListNotations.
Local Open Scope string_scope.
Local Open Scope Z_scope.

(** A 16-byte ID as the integer its bytes spell, big-endian, so that the
    database's byte order of IDs is the order of the integers. *)
Notation JobID := Z (only parsing).
Definition IsZero (id : JobID) : bool := id =? 0.

(** nullableID, and the ID a nullable column reads as. *)
Definition nullableID (id : JobID) : option JobID := if IsZero id then None else Some id.
Definition idOf (o : option JobID) : JobID := match o with Some id => id | None => 0 end.

(** nullable: a TEXT parameter, NULL for the empty string. *)
Definition nullable (s : string) : option string := if String.eqb s "" then None else Some s.
Definition textOf (o : option string) : string := match o with Some s => s | None => "" end.

(** ** Errors the engine reports *)

Inductive error : Type :=
| ErrNotSupported | ErrNotFound | ErrJobRunning | ErrUniqueConflict | ErrJobFenced
| ErrJobNotClaimable (why : string) | ErrJobLocked | ErrInvalidFilter (what : string)
| ErrConstraint
| ErrPanic (what : string)
| ErrFuel
| ErrText (msg : string).

Inductive result (A : Type) : Type :=
| Ok (a : A)
| Err (e : error).
Arguments Ok {A} a.
Arguments Err {A} e.

(** ** Job states *)

Inductive JobState : Type :=
| Pending | Available | Scheduled | Running | Retryable | Completed | Canceled | Discarded.

Definition state_eqb (a b : JobState) : bool :=
  match a, b with
  | Pending, Pending | Available, Available | Scheduled, Scheduled | Running, Running
  | Retryable, Retryable | Completed, Completed | Canceled, Canceled | Discarded, Discarded => true
  | _, _ => false
  end.

Definition state_text (s : JobState) : string :=
  match s with
  | Pending => "pending" | Available => "available" | Scheduled => "scheduled" | Running => "running"
  | Retryable => "retryable" | Completed => "completed" | Canceled => "canceled" | Discarded => "discarded"
  end.

Definition Terminal (s : JobState) : bool :=
  match s with Completed | Canceled | Discarded => true | _ => false end.

(** state IN ('available', 'scheduled', 'retryable') *)
Definition waiting (s : JobState) : bool :=
  match s with Available | Scheduled | Retryable => true | _ => false end.

Lemma state_eqb_eq a b : state_eqb a b = true <-> a = b.
Proof. destruct a, b; simpl; split; congruence. Qed.

Lemma state_eqb_refl a : state_eqb a a = true.
Proof. now apply state_eqb_eq. Qed.

Lemma state_eqb_neq a b : state_eqb a b = false <-> a <> b.
Proof. rewrite <- not_true_iff_false, state_eqb_eq. reflexivity. Qed.

(** ** Rows *)

Record JobRow : Type := mkJobRow {
  j_seq : Z;
  j_ID : JobID;
  j_Kind : string;
  j_Queue : string;
  j_State : JobState;
  j_Priority : Z;
  j_Attempt : Z;
  j_MaxAttempts : Z;
  j_ScheduledAt : Z;
  j_AttemptedAt : option Z;
  j_AttemptedBy : option Z;
  j_Fence : Z;
  j_Args : string;
  j_Metadata : string;
  j_Errors : string;
  j_UniqueKey : option string;
  j_OrderingKey : option string;
  j_PartitionKey : option string;
  j_Tags : option string;
  j_BatchID : option JobID;
  j_ExpiresAt : option Z;
  j_CancelRequestedAt : option Z;
  j_Await : bool;
  j_CreatedAt : Z;
  j_SnoozeReason : option string;
  j_WakeRequestedAt : option Z;
  j_Progress : option string;
  j_Logs : option string }.

#[export] Instance settable_JobRow : Settable JobRow := fun j =>
  mkJobRow (j_seq j) (j_ID j) (j_Kind j) (j_Queue j) (j_State j) (j_Priority j) (j_Attempt j) (j_MaxAttempts j)
    (j_ScheduledAt j) (j_AttemptedAt j) (j_AttemptedBy j) (j_Fence j) (j_Args j) (j_Metadata j) (j_Errors j)
    (j_UniqueKey j) (j_OrderingKey j) (j_PartitionKey j) (j_Tags j) (j_BatchID j) (j_ExpiresAt j)
    (j_CancelRequestedAt j) (j_Await j) (j_CreatedAt j) (j_SnoozeReason j) (j_WakeRequestedAt j) (j_Progress j)
    (j_Logs j).

(** A finished job's row: the live row's columns in its final state, with no
    snooze reason or wake request, and what finalizing adds. *)
Record HistoryRow : Type := mkHistoryRow {
  h_rowid : Z;
  h_job : JobRow;
  h_FinalizedAt : Z;
  h_Output : option string }.

Record Dependency : Type := mkDependency {
  dep_ID : JobID;
  dep_Step : string;
  dep_State : option JobState;
  dep_Output : option string }.

(** driver.JobRow as an operation returns it: the row, with what only a
    finalized job, a leased job or a claim has. *)
Record JobView : Type := mkJobView {
  v_job : JobRow;
  v_FinalizedAt : option Z;
  v_Output : option string;
  v_LeaseExpiresAt : option Z;
  v_Dependencies : list Dependency }.

Definition live_view (j : JobRow) : JobView := mkJobView j None None None [].
Definition history_view (h : HistoryRow) : JobView :=
  mkJobView (h_job h) (Some (h_FinalizedAt h)) (h_Output h) None [].

(** scanJob reports a snooze reason only of a scheduled job. *)
Definition SnoozeReason (j : JobRow) : string :=
  if state_eqb (j_State j) Scheduled then textOf (j_SnoozeReason j) else "".

(** AttemptedBy reads NULL as zero. *)
Definition AttemptedBy (j : JobRow) : Z := match j_AttemptedBy j with Some c => c | None => 0 end.

(** The zero time, in microseconds since the epoch, which a NULL time column
    reads as. *)
Definition zero_time : Z := -62135596800000000.
Definition time_of (o : option Z) : Z := match o with Some t => t | None => zero_time end.
Definition time_IsZero (o : option Z) : bool := time_of o =? zero_time.

Inductive RescueReason : Type := RescueNone | RescueClientLost | RescueStuck | RescueLeaseExpired.
Definition rescue_text (r : RescueReason) : string :=
  match r with
  | RescueNone => "" | RescueClientLost => "client_lost" | RescueStuck => "stuck" | RescueLeaseExpired => "lease_expired"
  end.

Record AttemptError : Type := mkAttemptError {
  ae_Attempt : Z;
  ae_Fence : Z;
  ae_Error : string;
  ae_Trace : string;
  ae_Rescue : RescueReason }.

Record AttemptLog : Type := mkAttemptLog {
  al_Attempt : Z;
  al_Snoozed : bool;
  al_Interrupted : bool;
  al_Log : string }.

Record LeaseFence : Type := mkLeaseFence { lf_Token : JobID; lf_Fence : Z }.

(** ** Parameters and results *)

Record JobInsertParams : Type := mkJobInsertParams {
  ip_Kind : string;
  ip_Queue : string;
  ip_Priority : Z;
  ip_MaxAttempts : Z;
  ip_ScheduledAt : option Z;
  ip_Args : string;
  ip_Metadata : string;
  ip_Tags : list string;
  ip_UniqueKey : string;
  ip_UniqueFinished : list JobState;
  ip_OrderingKey : string;
  ip_PartitionKey : string;
  ip_BatchID : JobID;
  ip_TTL : Z;
  ip_Await : bool }.

Inductive ConflictAction : Type := ConflictSkip | ConflictReplace.

Record JobInsertOpts : Type := mkJobInsertOpts { io_Notify : bool; io_OnConflict : ConflictAction }.

Record JobInsertResult : Type := mkJobInsertResult { ir_Job : JobView; ir_Duplicate : bool }.

Record JobFinalize : Type := mkJobFinalize {
  f_ID : JobID;
  f_AttemptedBy : Z;
  f_Fence : Z;
  f_Lease : option LeaseFence;
  f_State : JobState;
  f_Delay : Z;
  f_Snooze : bool;
  f_GiveBack : bool;
  f_SnoozeReason : string;
  f_Error : option AttemptError;
  f_Output : string;
  f_Log : option AttemptLog;
  f_Archive : bool }.

Definition Archived (f : JobFinalize) : bool := f_Archive f || negb (state_eqb (f_State f) Completed).
Definition KeepsLog (f : JobFinalize) : bool := negb (Terminal (f_State f)) || Archived f.

Record JobFinalizeParams : Type := mkJobFinalizeParams {
  fp_Jobs : list JobFinalize;
  fp_NoBatches : bool;
  fp_SkipLocked : bool;
  fp_KeepLogs : Z }.

Record JobFinalized : Type := mkJobFinalized { fd_ID : JobID; fd_Fence : Z; fd_Cascaded : bool }.

Record JobClaimParams : Type := mkJobClaimParams {
  cp_Queue : string; cp_ClientID : Z; cp_Limit : Z; cp_Limited : bool }.

(** Wait is a float64 duration the engine computes from the rate bucket. *)
Record JobRetryParams : Type := mkJobRetryParams { rp_ID : JobID; rp_FromStart : bool }.
Record JobRetryOrderingKeyParams : Type := mkJobRetryOrderingKeyParams {
  rk_Queue : string; rk_OrderingKey : string; rk_Limit : Z }.
Record JobRescueParams : Type := mkJobRescueParams { rs_StuckAfter : Z; rs_Limit : Z }.
Record RescueCandidate : Type := mkRescueCandidate { rc_Job : JobView; rc_Stuck : bool }.

Record JobClaimByIDParams : Type := mkJobClaimByIDParams { ci_ID : JobID; ci_Fence : Z; ci_TTL : Z }.
Record JobLeaseRow : Type := mkJobLeaseRow { lr_Job : JobView; lr_Lease : LeaseFence; lr_ExpiresAt : Z }.
Record JobLeaseRenewParams : Type := mkJobLeaseRenewParams { ln_ID : JobID; ln_Lease : LeaseFence }.
Record JobLeaseStatus : Type := mkJobLeaseStatus { ls_ExpiresAt : Z; ls_CancelRequested : bool }.
Record JobExpireLeasesParams : Type := mkJobExpireLeasesParams { xl_Limit : Z; xl_ClientID : Z; xl_Grace : Z }.

Inductive DependencyFailure : Type := DependencyDefault | DependencyCancel | DependencyIgnore.
Definition failure_text (d : DependencyFailure) : string :=
  match d with DependencyDefault => "" | DependencyCancel => "cancel" | DependencyIgnore => "ignore" end.

Record JobDependency : Type := mkJobDependency {
  jd_Job : Z; jd_DependsOn : Z; jd_OnFailure : DependencyFailure; jd_Reads : bool; jd_AnyOf : Z }.

Record WorkflowInsertParams : Type := mkWorkflowInsertParams {
  wp_Name : string;
  wp_Jobs : list JobInsertParams;
  wp_Steps : list string;
  wp_Deps : list JobDependency;
  wp_OnSuccess : option JobInsertParams;
  wp_OnFailure : option JobInsertParams;
  wp_OnComplete : option JobInsertParams;
  wp_Metadata : string;
  wp_Notify : bool }.

Record WorkflowInsertResult : Type := mkWorkflowInsertResult { wr_ID : JobID; wr_Jobs : list JobInsertResult }.
