(* ===== verification/Store.v ===== *)
(** * The SQLite engine's database and its write transactions

    The tables of driver/hoppersqlite/migrations as records of rows in rowid
    order, the constraints the schema puts on the live table, and the monad [W]
    of a write in progress (executor.go's [w]): a computation from the write's
    time and the database to an error or a value and a database.  [write] is
    executor.write: an error leaves the database as it was. *)

From Stdlib Require Import List ZArith Lia Bool String SpecFloat.
From stdpp Require Import base tactics list.
From S2P Require Import Prelude Sql Text Json Types.
Import ListNotations.
Local Open Scope string_scope.
Local Open Scope Z_scope.

(** ** Rows of the other tables *)

Record DepRow : Type := mkDepRow {
  d_job_id : JobID; d_depends_on : JobID; d_on_failure : string;
  d_step : option string; d_reads : bool; d_any_of : option Z }.

Record ResultRow : Type := mkResultRow {
  r_job_id : JobID; r_batch_id : JobID; r_state : JobState; r_output : option string; r_finalized_at : Z }.

Record BatchRow : Type := mkBatchRow {
  b_id : JobID; b_name : option string; b_pending : Z; b_failed : Z; b_total : Z;
  b_on_success : option string; b_on_failure : option string; b_on_complete : option string;
  b_metadata : string; b_edges : option string; b_steps : option string; b_reads : bool;
  b_created_at : Z; b_completed_at : option Z }.

Record LeaseRow : Type := mkLeaseRow {
  l_id : JobID; l_token : JobID; l_fence : Z; l_ttl : Z; l_renewed_at : Z; l_expires_at : Z }.

Record ClientRow : Type := mkClientRow {
  c_id : Z; c_hostname : string; c_started_at : Z; c_expires_at : Z; c_info : string }.

Record LeaderRow : Type := mkLeaderRow {
  ld_client_id : Z; ld_elected_at : Z; ld_expires_at : Z; ld_resign_client_id : option Z }.

(** Rates and tokens are float64. *)
Record QueueRow : Type := mkQueueRow {
  q_name : string; q_paused_at : option Z; q_global_limit : option Z; q_rate_per_sec : option spec_float;
  q_rate_burst : option Z; q_tokens : option spec_float; q_refilled_at : option Z;
  q_partition_limit : option Z; q_aging_seconds : option Z; q_metadata : string; q_updated_at : Z }.

Record RegistrationRow : Type := mkRegistrationRow {
  g_client_id : Z; g_name : string; g_definition : string; g_digest : string }.

Record SubscriptionRow : Type := mkSubscriptionRow {
  s_name : string; s_pattern : string; s_kind : string; s_queue : string;
  s_max_attempts : option Z; s_metadata : string; s_created_at : Z }.

Record EventRow : Type := mkEventRow {
  e_seq : Z; e_topic : string; e_key : option string; e_payload : string;
  e_headers : string; e_message_id : JobID; e_created_at : Z }.

Record ConsumerRow : Type := mkConsumerRow {
  k_name : string; k_pattern : string; k_kind : string; k_queue : string; k_max_attempts : option Z;
  k_metadata : string; k_seen : Z; k_position : Z; k_delivered_at : option Z; k_created_at : Z }.

Record NotificationRow : Type := mkNotificationRow {
  n_seq : Z; n_channel : string; n_payload : string; n_created_at : Z }.

#[export] Instance settable_BatchRow : Settable BatchRow := fun b =>
  mkBatchRow (b_id b) (b_name b) (b_pending b) (b_failed b) (b_total b) (b_on_success b) (b_on_failure b)
    (b_on_complete b) (b_metadata b) (b_edges b) (b_steps b) (b_reads b) (b_created_at b) (b_completed_at b).
#[export] Instance settable_LeaseRow : Settable LeaseRow := fun l =>
  mkLeaseRow (l_id l) (l_token l) (l_fence l) (l_ttl l) (l_renewed_at l) (l_expires_at l).
#[export] Instance settable_ClientRow : Settable ClientRow := fun c =>
  mkClientRow (c_id c) (c_hostname c) (c_started_at c) (c_expires_at c) (c_info c).
#[export] Instance settable_LeaderRow : Settable LeaderRow := fun l =>
  mkLeaderRow (ld_client_id l) (ld_elected_at l) (ld_expires_at l) (ld_resign_client_id l).
#[export] Instance settable_QueueRow : Settable QueueRow := fun q =>
  mkQueueRow (q_name q) (q_paused_at q) (q_global_limit q) (q_rate_per_sec q) (q_rate_burst q) (q_tokens q)
    (q_refilled_at q) (q_partition_limit q) (q_aging_seconds q) (q_metadata q) (q_updated_at q).
#[export] Instance settable_ConsumerRow : Settable ConsumerRow := fun k =>
  mkConsumerRow (k_name k) (k_pattern k) (k_kind k) (k_queue k) (k_max_attempts k) (k_metadata k) (k_seen k)
    (k_position k) (k_delivered_at k) (k_created_at k).
#[export] Instance settable_SubscriptionRow : Settable SubscriptionRow := fun s =>
  mkSubscriptionRow (s_name s) (s_pattern s) (s_kind s) (s_queue s) (s_max_attempts s) (s_metadata s) (s_created_at s).

(** ** The database

    [db_rand] is the position in the process's stream of random bytes, from
    which IDs and lease tokens are drawn; it is not stored. *)

Record DB : Type := mkDB {
  db_jobs : list JobRow;
  db_seq : Z;                       (* AUTOINCREMENT of hopper_jobs *)
  db_history : list HistoryRow;
  db_deps : list DepRow;
  db_results : list ResultRow;
  db_batches : list BatchRow;
  db_leases : list LeaseRow;
  db_clients : list ClientRow;
  db_client_seq : Z;
  db_leader : option LeaderRow;     (* the row named 'default' *)
  db_queues : list QueueRow;
  db_periodic : list (string * Z);
  db_registrations : list RegistrationRow;
  db_subscriptions : list SubscriptionRow;
  db_events : list EventRow;
  db_event_seq : Z;
  db_consumers : list ConsumerRow;
  db_notifications : list NotificationRow;
  db_notification_seq : Z;
  db_rand : nat }.

#[export] Instance settable_DB : Settable DB := fun d =>
  mkDB (db_jobs d) (db_seq d) (db_history d) (db_deps d) (db_results d) (db_batches d) (db_leases d)
    (db_clients d) (db_client_seq d) (db_leader d) (db_queues d) (db_periodic d) (db_registrations d)
    (db_subscriptions d) (db_events d) (db_event_seq d) (db_consumers d) (db_notifications d)
    (db_notification_seq d) (db_rand d).

Definition empty_db : DB :=
  mkDB [] 0 [] [] [] [] [] [] 0 None [] [] [] [] [] 0 [] [] 0 0.

(** ** The live table's constraints *)

Fixpoint nodupb {A} (eqb : A -> A -> bool) (l : list A) : bool :=
  match l with [] => true | x :: r => negb (existsb (eqb x) r) && nodupb eqb r end.

(** tags IS NULL OR json_type(tags) = 'array' *)
Definition tags_ok (tags : option string) : bool :=
  match tags with
  | None => true
  | Some t => match json_parse t with Some (JArr _) => true | _ => false end
  end.

(** The CHECKs of hopper_jobs on a row: its state, its priority and its tags.  CHECK (length(id) = 16) holds of every ID by its
    type, an array of sixteen bytes read here as a number. *)
Definition row_ok (j : JobRow) : bool :=
  negb (Terminal (j_State j)) && (1 <=? j_Priority j) && (j_Priority j <=? 4) && tags_ok (j_Tags j).

(** hopper_jobs_unique ON (kind, unique_key) WHERE unique_key IS NOT NULL *)
Definition same_unique (a b : JobRow) : bool :=
  String.eqb (j_Kind a) (j_Kind b) && null_eq String.eqb (j_UniqueKey a) (j_UniqueKey b).

(** hopper_jobs_ordering_running ON (queue, ordering_key)
    WHERE state = 'running' AND ordering_key IS NOT NULL *)
Definition same_lane (a b : JobRow) : bool :=
  String.eqb (j_Queue a) (j_Queue b) && null_eq String.eqb (j_OrderingKey a) (j_OrderingKey b).
Definition is_running (j : JobRow) : bool := state_eqb (j_State j) Running.
Definition same_running_lane (a b : JobRow) : bool := is_running a && is_running b && same_lane a b.

Definition jobs_ok (t : list JobRow) : bool :=
  forallb row_ok t && nodupb Z.eqb (List.map j_ID t) && nodupb Z.eqb (List.map j_seq t)
  && nodupb same_unique t && nodupb same_running_lane t.

(** ** Writes *)

(** A write's time, in microseconds, and the process's random bytes. *)
Record w : Type := mkW { w_now : Z; w_rand : nat -> Z }.

Definition W (A : Type) : Type := w -> DB -> result (A * DB).

Definition ret {A} (a : A) : W A := fun _ d => Ok (a, d).
Definition bind {A B} (m : W A) (k : A -> W B) : W B := fun x d =>
  match m x d with Ok (a, d') => k a x d' | Err e => Err e end.
Definition fail {A} (e : error) : W A := fun _ _ => Err e.
Definition get {A} (f : DB -> A) : W A := fun _ d => Ok (f d, d).
Definition modify (f : DB -> DB) : W unit := fun _ d => Ok (tt, f d).
Definition lift {A} (r : result A) : W A := match r with Ok a => ret a | Err e => fail e end.

Declare Scope w_scope.
Delimit Scope w_scope with w.
Notation "'let*' x ':=' m 'in' k" := (bind m (fun x => k))
  (at level 200, x pattern, m at level 100, k at level 200, right associativity) : w_scope.
Notation "m ;; k" := (bind m (fun _ => k)) (at level 100, k at level 200, right associativity) : w_scope.
Open Scope w_scope.

Fixpoint mapM {A B} (f : A -> W B) (l : list A) : W (list B) :=
  match l with
  | [] => ret []
  | x :: r => let* y := f x in let* ys := mapM f r in ret (y :: ys)
  end.
Fixpoint iterM {A} (f : A -> W unit) (l : list A) : W unit :=
  match l with
  | [] => ret tt
  | x :: r => f x ;; iterM f r
  end.

(** us and at: the write's time, and it plus a duration of nanoseconds. *)
Definition us : W Z := fun x d => Ok (w_now x, d).
Definition at_ (dur : Z) : W Z := fun x d => Ok ((w_now x * 1000 + dur) / 1000, d).

(** A statement that changes the live table fails if the table it leaves
    breaks a constraint. *)
Definition exec_jobs (f : list JobRow -> list JobRow) : W unit := fun _ d =>
  let t := f (db_jobs d) in
  if jobs_ok t then Ok (tt, d <| db_jobs := t |>) else Err ErrConstraint.

(** INSERT INTO hopper_jobs: a row at the end, with the next AUTOINCREMENT. *)
Definition insert_row (row : Z -> JobRow) : W JobRow := fun _ d =>
  let seq := db_seq d + 1 in
  let t := (db_jobs d ++ [row seq])%list in
  if jobs_ok t then Ok (row seq, d <| db_jobs := t |> <| db_seq := seq |>) else Err ErrConstraint.

(** executor.write and writeBrief: fn in a transaction of its own, or in a
    savepoint of the caller's; its error rolls it back. *)
Definition write {A} (fn : W A) (x : w) (d : DB) : result A * DB :=
  match fn x d with
  | Ok (a, d') => (Ok a, d')
  | Err e => (Err e, d)
  end.

(** ** IDs *)

(** newID: 48 bits of milliseconds, the version, 12 bits of the millisecond's
    fraction, the variant and 62 random bits. *)
Definition newID_of (now rnd : Z) : JobID :=
  let ms := Z.max (now / 1000) 0 in
  let fraction := (now mod 1000 * 1000) * 4096 / 1000000 in
  let hi := Z.lor (Z.lor (Z.shiftl ms 16 mod 2 ^ 64) 28672) fraction in
  let lo := Z.lor (Z.land rnd (2 ^ 62 - 1)) (2 ^ 63) in
  hi * 2 ^ 64 + lo.

Definition draw : W Z := fun x d => Ok (w_rand x (db_rand d), d <| db_rand ::= S |>).
Definition newID : W JobID :=
  let* now := us in let* r := draw in ret (newID_of now r).

(** randomblob(16) *)
Definition randomblob16 : W JobID := let* r := draw in ret (r mod 2 ^ 128).

(** ** Notifications *)

Definition ChannelInsert : string := "hopper_insert".
Definition ChannelLeader : string := "hopper_leader".
Definition ChannelControl : string := "hopper_control".
Definition ChannelDone : string := "hopper_done".
Definition ChannelStream : string := "hopper_stream".

(** A minute, in nanoseconds. *)
Definition notificationRetention : Z := 60 * 1000000000.

Definition notify_row (channel payload : string) : W unit := fun x d =>
  let n := db_notification_seq d + 1 in
  Ok (tt, d <| db_notifications ::= (fun t => (t ++ [mkNotificationRow n channel payload (w_now x)])%list) |>
            <| db_notification_seq := n |>).

(** notify: a row per payload, then the rows past their retention deleted. *)
Definition notify (channel : string) (payloads : list string) : W unit :=
  match payloads with
  | [] => ret tt
  | _ =>
      iterM (notify_row channel) payloads ;;
      let* old := at_ (- notificationRetention) in
      modify (fun d => d <| db_notifications ::= del (fun n => n_created_at n <? old) |>)
  end.

(** ** Parameter checks *)

Definition smallint (v : Z) (column : string) : result Z :=
  if (v <? -32768) || (v >? 32767) then Err (ErrText (column ++ " is out of range")) else Ok v.
