(* ===== verification/Logic.v ===== *)
(** * Reasoning about writes

    [respects R m]: every successful run of [m] takes a database to one
    [R]-related to it.  With [R] a preorder this composes through the monad's
    operations, so that a property of every operation follows from the same
    property of the few statements they are made of. *)

From Stdlib Require Import List ZArith Lia Bool String.
From stdpp Require Import base tactics list.
From S2P Require Import Prelude Sql Types Store.
Import ListNotations.
Local Open Scope Z_scope.

Definition respects (R : DB -> DB -> Prop) {A} (m : W A) : Prop :=
  forall x d a d', m x d = Ok (a, d') -> R d d'.

(** Equality reflected for the constraint checks. *)
Lemma nodupb_NoDup {A} (eqb : A -> A -> bool) (l : list A) :
  (forall x y, eqb x y = true <-> x = y) -> nodupb eqb l = true <-> List.NoDup l.
Proof.
  intros H. induction l as [|x l IH]; simpl.
  - split; [constructor|done].
  - rewrite andb_true_iff, negb_true_iff, IH. split.
    + intros [H1 H2]. constructor; [|done]. intros Hx.
      rewrite <- not_true_iff_false in H1. apply H1, existsb_exists. exists x. split; [done|]. now apply H.
    + intros Hn. inversion Hn; subst. split; [|done]. apply not_true_iff_false.
      intros (y & Hy & E)%existsb_exists. apply H in E. now subst.
Qed.

Section Respects.
Context (R : DB -> DB -> Prop) `{!PreOrder R}.

Lemma respects_ret {A} (a : A) : respects R (ret a).
Proof. intros x d b d' [= <- <-]. reflexivity. Qed.
Lemma respects_fail {A} e : respects R (@fail A e).
Proof. intros x d b d' [=]. Qed.
Lemma respects_get {A} (f : DB -> A) : respects R (get f).
Proof. intros x d b d' [= <- <-]. reflexivity. Qed.
Lemma respects_us : respects R us.
Proof. intros x d b d' [= <- <-]. reflexivity. Qed.
Lemma respects_at n : respects R (at_ n).
Proof. intros x d b d' [= <- <-]. reflexivity. Qed.
Lemma respects_lift {A} (r : result A) : respects R (lift r).
Proof. destruct r; [apply respects_ret|apply respects_fail]. Qed.

Lemma respects_bind {A B} (m : W A) (k : A -> W B) :
  respects R m -> (forall a, respects R (k a)) -> respects R (bind m k).
Proof.
  intros Hm Hk x d b d'. unfold bind. destruct (m x d) as [[a d1]|e] eqn:E; [|discriminate].
  intros Hb. transitivity d1; [eapply Hm|eapply Hk]; eauto.
Qed.

Lemma respects_modify f : (forall d, R d (f d)) -> respects R (modify f).
Proof. intros H x d b d' [= <- <-]. apply H. Qed.

Lemma respects_mapM {A B} (f : A -> W B) l : (forall a, respects R (f a)) -> respects R (mapM f l).
Proof.
  intros H. induction l as [|a l IH]; simpl; [apply respects_ret|].
  apply respects_bind; [apply H|]. intros b. apply respects_bind; [apply IH|]. intros bs. apply respects_ret.
Qed.

Lemma respects_mapM_In {A B} (f : A -> W B) l :
  (forall a, In a l -> respects R (f a)) -> respects R (mapM f l).
Proof.
  induction l as [|a l IH]; simpl; intros H; [apply respects_ret|].
  apply respects_bind; [auto|]. intros b. apply respects_bind; [auto|]. intros bs. apply respects_ret.
Qed.

Lemma respects_iterM {A} (f : A -> W unit) l : (forall a, respects R (f a)) -> respects R (iterM f l).
Proof.
  intros H. induction l as [|a l IH]; simpl; [apply respects_ret|]. apply respects_bind; auto.
Qed.

(** A write that fails leaves the database alone. *)
Lemma respects_write {A} (m : W A) x d r d' : respects R m -> write m x d = (r, d') -> R d d'.
Proof.
  unfold write. intros H E. destruct (m x d) as [[a d1]|e] eqn:Em; injection E as <- <-.
  - eapply H; eauto.
  - reflexivity.
Qed.
End Respects.

(** Decompose a [respects] goal along the operation's structure, leaving the
    statements. *)
Ltac respects_step :=
  lazymatch goal with
  | |- respects _ (bind _ _) => apply respects_bind; [typeclasses eauto| |intros]
  | |- respects _ (ret _) => apply respects_ret; typeclasses eauto
  | |- respects _ (fail _) => apply respects_fail
  | |- respects _ (get _) => apply respects_get; typeclasses eauto
  | |- respects _ us => apply respects_us; typeclasses eauto
  | |- respects _ (at_ _) => apply respects_at; typeclasses eauto
  | |- respects _ (lift _) => apply respects_lift; typeclasses eauto
  | |- respects _ (mapM _ _) => apply respects_mapM; [typeclasses eauto|intros]
  | |- respects _ (iterM _ _) => apply respects_iterM; [typeclasses eauto|intros]
  | |- respects _ (match ?e with _ => _ end) => destruct e
  | |- respects _ (let _ := _ in _) => cbv zeta
  end.
Create HintDb respects.
Ltac respects_auto := repeat (first [respects_step | solve [auto with respects nocore]]).

(** Inversion of successful runs. *)
Lemma bind_Ok {A B} (m : W A) (k : A -> W B) x d b d' :
  bind m k x d = Ok (b, d') -> exists a d1, m x d = Ok (a, d1) /\ k a x d1 = Ok (b, d').
Proof. unfold bind. destruct (m x d) as [[a d1]|e]; [eauto|discriminate]. Qed.

Lemma exec_jobs_Ok f x d u d' :
  exec_jobs f x d = Ok (u, d') -> jobs_ok (f (db_jobs d)) = true /\ d' = d <| db_jobs := f (db_jobs d) |>.
Proof. unfold exec_jobs. destruct (jobs_ok _) eqn:E; [|discriminate]. now intros [= <- <-]. Qed.

Lemma insert_row_Ok row x d r d' :
  insert_row row x d = Ok (r, d') ->
  r = row (db_seq d + 1) /\ jobs_ok (db_jobs d ++ [r]) = true
  /\ d' = d <| db_jobs := (db_jobs d ++ [r])%list |> <| db_seq := db_seq d + 1 |>.
Proof. unfold insert_row. destruct (jobs_ok _) eqn:E; [|discriminate]. now intros [= <- <-]. Qed.

Ltac inv_w :=
  repeat match goal with
  | H : bind _ _ _ _ = Ok _ |- _ => apply bind_Ok in H as (? & ? & ? & ?)
  | H : ret _ _ _ = Ok _ |- _ => unfold ret in H; injection H as <- <-
  | H : get _ _ _ = Ok _ |- _ => unfold get in H; injection H as <- <-
  | H : us _ _ = Ok _ |- _ => unfold us in H; injection H as <- <-
  | H : at_ _ _ _ = Ok _ |- _ => unfold at_ in H; injection H as <- <-
  | H : modify _ _ _ = Ok _ |- _ => unfold modify in H; injection H as <- <-
  | H : fail _ _ _ = Ok _ |- _ => discriminate H
  | H : exec_jobs _ _ _ = Ok _ |- _ => apply exec_jobs_Ok in H as (? & ->)
  | H : insert_row _ _ _ = Ok _ |- _ => apply insert_row_Ok in H as (? & ? & ->)
  end.

Lemma mapM_length {A B} (f : A -> W B) l : forall x d ys d', mapM f l x d = Ok (ys, d') -> List.length ys = List.length l.
Proof. induction l as [|a l IH]; simpl; intros x d ys d' H; inv_w; simpl; eauto. Qed.

(** ** The frame: the tables an operation leaves alone

    Notifications, IDs and batch or result bookkeeping do not touch jobs. *)

Definition same_jobs (d d' : DB) : Prop :=
  db_jobs d' = db_jobs d /\ db_seq d' = db_seq d /\ db_history d' = db_history d.

#[export] Instance same_jobs_preorder : PreOrder same_jobs.
Proof.
  split; [done|]. intros d1 d2 d3 (A1 & A2 & A3) (B1 & B2 & B3). unfold same_jobs. intuition congruence.
Qed.

Lemma notify_row_same c p : respects same_jobs (notify_row c p).
Proof. intros x d a d' [= <- <-]. done. Qed.
#[export] Hint Resolve notify_row_same : respects.

Lemma notify_same c ps : respects same_jobs (notify c ps).
Proof. destruct ps; unfold notify; respects_auto. apply respects_modify. done. Qed.
Lemma draw_same : respects same_jobs draw.
Proof. intros x d a d' [= <- <-]. done. Qed.
#[export] Hint Resolve notify_same draw_same : respects.
Lemma newID_same : respects same_jobs newID.
Proof. unfold newID. respects_auto. Qed.
Lemma randomblob16_same : respects same_jobs randomblob16.
Proof. unfold randomblob16. respects_auto. Qed.
#[export] Hint Resolve newID_same randomblob16_same : respects.

(** A relation that only looks at the jobs, their sequence and history. *)
Class JobsRelation (R : DB -> DB -> Prop) := {
  jr_preorder :: PreOrder R;
  jr_same : forall d d', same_jobs d d' -> R d d' }.

Lemma respects_same R {A} (m : W A) `{!JobsRelation R} : respects same_jobs m -> respects R m.
Proof. intros H x d a d' E. apply jr_same. eapply H; eauto. Qed.

Lemma respects_modify_same R f `{!JobsRelation R} : (forall d, same_jobs d (f d)) -> respects R (modify f).
Proof. intros H. apply respects_same; [typeclasses eauto|]. apply respects_modify, H. Qed.

(** ** Errors

    [raises E m]: the errors of [m] all satisfy [E]. *)

Definition raises (E : error -> Prop) {A} (m : W A) : Prop := forall x d e, m x d = Err e -> E e.

Section Raises.
Context (E : error -> Prop).

Lemma raises_ret {A} (a : A) : raises E (ret a).
Proof. intros x d e [=]. Qed.
Lemma raises_fail {A} e : E e -> raises E (@fail A e).
Proof. now intros He x d e' [= <-]. Qed.
Lemma raises_get {A} (f : DB -> A) : raises E (get f).
Proof. intros x d e [=]. Qed.
Lemma raises_us : raises E us.
Proof. intros x d e [=]. Qed.
Lemma raises_at n : raises E (at_ n).
Proof. intros x d e [=]. Qed.
Lemma raises_modify f : raises E (modify f).
Proof. intros x d e [=]. Qed.
Lemma raises_lift {A} (r : result A) : (forall e, r = Err e -> E e) -> raises E (lift r).
Proof. destruct r; intros H; [apply raises_ret|apply raises_fail; auto]. Qed.
Lemma raises_exec_jobs f : E ErrConstraint -> raises E (exec_jobs f).
Proof. intros HE x d e. unfold exec_jobs. case_match; [done|]. now intros [= <-]. Qed.
Lemma raises_insert_row r : E ErrConstraint -> raises E (insert_row r).
Proof. intros HE x d e. unfold insert_row. case_match; [done|]. now intros [= <-]. Qed.

Lemma raises_bind {A B} (m : W A) (k : A -> W B) :
  raises E m -> (forall a, raises E (k a)) -> raises E (bind m k).
Proof.
  intros Hm Hk x d e. unfold bind. destruct (m x d) as [[a d1]|e1] eqn:H.
  - apply Hk.
  - intros [= <-]. eapply Hm; eauto.
Qed.
Lemma raises_mapM {A B} (f : A -> W B) l : (forall a, raises E (f a)) -> raises E (mapM f l).
Proof.
  intros H. induction l as [|a l IH]; simpl; [apply raises_ret|].
  apply raises_bind; [apply H|intros b]. apply raises_bind; [apply IH|intros bs]. apply raises_ret.
Qed.
Lemma raises_iterM {A} (f : A -> W unit) l : (forall a, raises E (f a)) -> raises E (iterM f l).
Proof. intros H. induction l as [|a l IH]; simpl; [apply raises_ret|]. apply raises_bind; auto. Qed.
End Raises.

Create HintDb raises.
Ltac raises_step :=
  lazymatch goal with
  | |- raises _ (bind _ _) => apply raises_bind; [|intros]
  | |- raises _ (ret _) => apply raises_ret
  | |- raises _ (get _) => apply raises_get
  | |- raises _ us => apply raises_us
  | |- raises _ (at_ _) => apply raises_at
  | |- raises _ (modify _) => apply raises_modify
  | |- raises _ (mapM _ _) => apply raises_mapM; intros
  | |- raises _ (iterM _ _) => apply raises_iterM; intros
  | |- raises _ (match ?e with _ => _ end) => destruct e
  | |- raises _ (let _ := _ in _) => cbv zeta
  end.
Ltac raises_auto := repeat (first [raises_step | solve [auto with raises nocore]]).

(** ** Tables an operation leaves alone *)

Definition same_of {B} (f : DB -> B) (d d' : DB) : Prop := f d' = f d.
#[export] Instance same_of_preorder {B} (f : DB -> B) : PreOrder (same_of f).
Proof. split; [done|]. intros a b c. unfold same_of. congruence. Qed.

Lemma respects_exec_jobs R f : (forall d, R d (d <| db_jobs := f (db_jobs d) |>)) -> respects R (exec_jobs f).
Proof. intros H x d u d' (_ & ->)%exec_jobs_Ok. apply H. Qed.

Lemma respects_insert_row R row :
  (forall d r, R d (d <| db_jobs := r |> <| db_seq := db_seq d + 1 |>)) -> respects R (insert_row row).
Proof. intros H x d u d' (_ & _ & ->)%insert_row_Ok. apply H. Qed.

Lemma respects_step_fn R {A} (f : w -> DB -> A * DB) :
  (forall x d, R d (snd (f x d))) -> respects R (fun x d => Ok (f x d)).
Proof. intros H x d a d' [= E]. specialize (H x d). now rewrite E in H. Qed.

Lemma respects_notify_row R c p :
  (forall d t n, R d (d <| db_notifications := t |> <| db_notification_seq := n |>)) -> respects R (notify_row c p).
Proof. intros H x d u d' [= <- <-]. apply H. Qed.
Lemma respects_draw R : (forall d n, R d (d <| db_rand := n |>)) -> respects R draw.
Proof. intros H x d u d' [= <- <-]. apply (H d). Qed.

(** Frame goals: every statement leaves the projection alone, by computation. *)
Ltac frame_step :=
  first [ respects_step
        | solve [auto with respects nocore]
        | apply respects_exec_jobs; intros; reflexivity
        | apply respects_insert_row; intros; reflexivity
        | apply respects_notify_row; intros; reflexivity
        | apply respects_draw; intros; reflexivity
        | apply respects_modify; intros; reflexivity ].
Ltac frame := repeat frame_step.
