(* ===== verification/Float64.v ===== *)
(** * float64

    IEEE 754 binary64 with the Standard Library's specification of the
    rounding operations, the package math functions the engine uses, and
    strconv.ParseFloat of a JSON number. *)

From Stdlib Require Import ZArith Lia Bool String Ascii SpecFloat.
From S2P Require Import Prelude Text.
Local Open Scope string_scope.
Local Open Scope Z_scope.

Definition prec : Z := 53.
Definition emax : Z := 1024.

Definition fadd := SFadd prec emax.
Definition fsub := SFsub prec emax.
Definition fmul := SFmul prec emax.
Definition fdiv := SFdiv prec emax.

(** float64(n) of an integer. *)
Definition f_of_Z (z : Z) : spec_float := binary_normalize prec emax z 0 false.

Definition f_ltb (x y : spec_float) : bool := match SFcompare x y with Some Lt => true | _ => false end.
Definition f_leb (x y : spec_float) : bool := match SFcompare x y with Some Lt | Some Eq => true | _ => false end.

(** The built-in min: NaN if either is, and -0 below 0. *)
Definition f_min (x y : spec_float) : spec_float :=
  match x, y with
  | S754_nan, _ | _, S754_nan => S754_nan
  | S754_zero s, S754_zero t => S754_zero (s || t)
  | _, _ => if f_ltb y x then y else x
  end.

(** int(math.Floor(x)) of a finite x; zero otherwise. *)
Definition f_floor (x : spec_float) : Z :=
  match x with
  | S754_finite s m e =>
      let v := if s then Z.neg m else Z.pos m in
      if e >=? 0 then v * 2 ^ e else v / 2 ^ (- e)
  | _ => 0
  end.

(** math.Ceil, as a float64. *)
Definition f_ceil (x : spec_float) : spec_float :=
  match x with
  | S754_finite _ _ _ => f_of_Z (- f_floor (SFopp x))
  | _ => x
  end.

(** Conversion to an integer type: toward zero. *)
Definition f_trunc (x : spec_float) : Z :=
  match x with
  | S754_finite s m e =>
      let v := if e >=? 0 then Z.pos m * 2 ^ e else Z.pos m / 2 ^ (- e) in
      if s then - v else v
  | _ => 0
  end.

(** math.Round as an integer: half away from zero. *)
Definition f_round (x : spec_float) : Z :=
  match x with
  | S754_finite s m e =>
      let v := if e >=? 0 then Z.pos m * 2 ^ e else (2 * Z.pos m + 2 ^ (- e)) / (2 * 2 ^ (- e)) in
      if s then - v else v
  | _ => 0
  end.

(** n / d, rounded once. *)
Definition f_ratio (neg : bool) (n d : Z) : spec_float :=
  match n, d with
  | Zpos a, Zpos b => SFdiv prec emax (S754_finite neg a 0) (S754_finite false b 0)
  | _, _ => S754_zero neg
  end.

(** The exponent's digits: strconv stops adding them at ten thousand. *)
Fixpoint exponent_digits (e : Z) (s : string) : Z :=
  match s with
  | EmptyString => e
  | String c r => exponent_digits (if e <? 10000 then 10 * e + digit_val c else e) r
  end.
Definition exponent_val (s : string) : Z :=
  match cut_prefix "-" s with
  | Some r => - exponent_digits 0 r
  | None => exponent_digits 0 (match cut_prefix "+" s with Some r => r | None => s end)
  end.

(** ParseFloat of a JSON number: the nearest float64, or [None] past the
    largest.  The powers of ten beyond every float64 are not computed. *)
Definition parse_float (lit : string) : option spec_float :=
  let '(neg, s) := match cut_prefix "-" lit with Some r => (true, r) | None => (false, lit) end in
  let '(mantissa, exponent, hasExp) := cut "e"%char (to_lower s) in
  let '(whole, frac, _) := cut "."%char mantissa in
  let n := digits_val 0 (whole ++ frac) in
  let e := (if hasExp then exponent_val exponent else 0) - slen frac in
  let v := if n =? 0 then S754_zero neg
           else if e >? 400 then S754_infinity neg
           else if e >=? 0 then f_ratio neg (n * 10 ^ e) 1
           else if - e >? slen (whole ++ frac) + 400 then S754_zero neg
           else f_ratio neg n (10 ^ (- e)) in
  match v with S754_infinity _ => None | _ => Some v end.

Example parse_floats :
  List.map (fun s => option_map f_round (parse_float s))
    (cons "2.5" (cons "2.4999999999999999999" (cons "-12.4e1" (cons "1e400" (cons "1e-99999999999999999999" (cons "1.7976931348623157e308" nil))))))
  = (cons (Some 3) (cons (Some 3) (cons (Some (-124)) (cons None (cons (Some 0) (cons (Some (2 ^ 1024 - 2 ^ 971)) nil)))))).
Proof. vm_compute. reflexivity. Qed.

Example half_sum : f_floor (fadd (fdiv (f_of_Z 1) (f_of_Z 2)) (f_of_Z 2)) = 2.
Proof. reflexivity. Qed.
