(* ===== verification/JsonCheck.v ===== *)
(** * JSON numbers, containment and the checks on stored JSON (funcs.go)

    driver/hoppersqlite/funcs.go: numbers as digits and a power of ten, in
    int64 arithmetic that wraps; jsonb's containment; and checkJSON, which
    refuses the texts Postgres's jsonb refuses. *)

From Stdlib Require Import List ZArith QArith Qfield Lia Bool String Ascii.
From S2P Require Import Prelude Text Json Types.
Import ListNotations.
Local Open Scope string_scope.
Local Open Scope Z_scope.

(** int64 wrap-around. *)
Definition wrap64 (z : Z) : Z := (z + 2 ^ 63) mod 2 ^ 64 - 2 ^ 63.

Lemma wrap64_id z : - 2 ^ 63 <= z < 2 ^ 63 -> wrap64 z = z.
Proof. intros H. unfold wrap64. rewrite Z.mod_small; lia. Qed.

(** ** Numbers *)

(** The number is digits × 10^exp, with no leading or trailing zero in
    digits, which is empty for zero. *)
Record decimal : Type := mkDecimal { negative : bool; digits : string; dexp : Z }.

Definition decimal_String (d : decimal) : string :=
  if String.eqb (digits d) "" then "0"
  else (if negative d then "-" else "") ++ digits d ++ "e" ++ itoa (dexp d).

Definition is_zero_digit (c : ascii) : bool := Ascii.eqb c "0".

Definition parseDecimal (s : string) : option decimal :=
  let '(neg, s) := match cut_prefix "-" s with Some r => (true, r) | None => (false, s) end in
  let '(mantissa, exponent, hasExp) := cut "e" (to_lower s) in
  let exp0 := if hasExp
              then parse_int 64 (match cut_prefix "+" exponent with Some r => r | None => exponent end)
              else Some 0 in
  match exp0 with
  | None => None
  | Some e =>
      let '(whole, frac, _) := cut "." mantissa in
      if e <? wrap64 (e - slen frac) then None
      else
        let e1 := wrap64 (e - slen frac) in
        let ds := trim_left is_zero_digit (whole ++ frac) in
        let trimmed := trim_right is_zero_digit ds in
        let e2 := wrap64 (e1 + (slen ds - slen trimmed)) in
        if String.eqb trimmed "" then Some (mkDecimal false "" 0)
        else Some (mkDecimal neg trimmed e2)
  end.

Definition canonicalNumber (s : string) : option string := option_map decimal_String (parseDecimal s).

Definition maxNumericWhole : Z := 131072.
Definition maxNumericFraction : Z := 16383.

Definition checkNumber (n : string) : result unit :=
  match parseDecimal n with
  | None => Err (ErrText "exponent out of range")
  | Some d =>
      let whole := wrap64 (slen (digits d) + dexp d) in
      if negb (String.eqb (digits d) "") && (whole >? maxNumericWhole)
      then Err (ErrText "beyond the range of Postgres's numeric")
      else if dexp d <? - maxNumericFraction
      then Err (ErrText "with more decimals than Postgres's numeric holds")
      else Ok tt
  end.

(** ** Containment *)

Definition jsonScalarEqual (a b : json) : bool :=
  match a, b with
  | JNum x, JNum y =>
      match canonicalNumber x, canonicalNumber y with
      | Some cx, Some cy => String.eqb cx cy
      | _, _ => false
      end
  | JStr x, JStr y => String.eqb (unquote x) (unquote y)
  | JBool x, JBool y => Bool.eqb x y
  | JNull, JNull => true
  | _, _ => false
  end.

(** The members of an object as the map it decodes to. *)
Definition members_of (m : list (string * json)) : list (string * json) :=
  List.fold_left (fun acc kv => smap_set (unquote (fst kv)) (snd kv) acc) m [].

(** jsonContains on decoded values: an object's members are those of the map
    encoding/json builds, so a repeated key counts once, by its last value.
    The fuel is the depth of [want], which every call shortens. *)
Fixpoint json_depth (j : json) : nat :=
  match j with
  | JArr l => S (List.fold_right (fun x n => Nat.max (json_depth x) n) 0%nat l)
  | JObj m => S (List.fold_right (fun kv n => Nat.max (json_depth (snd kv)) n) 0%nat m)
  | _ => 1%nat
  end.

Fixpoint jsonContains_fuel (fuel : nat) (have want : json) (top : bool) : bool :=
  match fuel with
  | O => false
  | S n =>
      match want with
      | JObj wm =>
          match have with
          | JObj hm =>
              forallb (fun kv => match smap_get (fst kv) (members_of hm) with
                                 | Some hv => jsonContains_fuel n hv (snd kv) false
                                 | None => false
                                 end) (members_of wm)
          | _ => false
          end
      | JArr wl =>
          match have with
          | JArr hl => forallb (fun wv => existsb (fun hv => jsonContains_fuel n hv wv false) hl) wl
          | _ => false
          end
      | _ =>
          match have with
          | JArr hl => if top then existsb (fun hv => jsonScalarEqual hv want) hl else jsonScalarEqual have want
          | _ => jsonScalarEqual have want
          end
      end
  end.
Definition jsonContains (have want : json) (top : bool) : bool :=
  jsonContains_fuel (json_depth want) have want top.

(** hopper_json_contains of two texts; [None] is an error. *)
Definition jsonContainsSQL (doc filter : string) : option bool :=
  match json_parse filter with
  | None => None
  | Some want =>
      match json_parse doc with
      | Some have => Some (jsonContains have want true)
      | None => Some false
      end
  end.

(** ** checkJSON *)

Definition isSurrogate (r : Z) : bool := in_range 55296 57343 r.

(** The escape at the start of b, inside a string of valid JSON, and its
    length. *)
Definition checkEscape (b : string) : result nat :=
  match b with
  | String _ (String "u" (String a (String c (String d (String e rest))))) =>
      let r := hex4 a c d e in
      if r =? 0 then Err (ErrText "has a \u0000 escape")
      else if negb (isSurrogate r) then Ok 6%nat
      else if (r >=? 56320) then Err (ErrText "has an unpaired surrogate escape")
      else match rest with
           | String bs (String u (String a2 (String c2 (String d2 (String e2 _))))) =>
               if Ascii.eqb bs backslash && Ascii.eqb u "u" then
                 let low := hex4 a2 c2 d2 e2 in
                 if negb (is_hex a2 && is_hex c2 && is_hex d2 && is_hex e2) || (low <? 56320) || (low >? 57343)
                 then Err (ErrText "has an unpaired surrogate escape")
                 else Ok 12%nat
               else Err (ErrText "has an unpaired surrogate escape")
           | _ => Err (ErrText "has an unpaired surrogate escape")
           end
  | _ => Ok 2%nat
  end.

Definition number_byte (c : ascii) : bool :=
  existsb (Ascii.eqb c) ["+"; "-"; "."; "e"; "E"]%char || is_digit c.

(** The scan of a valid text: outside its strings for numbers and inside them
    for escapes.  Every turn consumes a byte, so the text's length is fuel
    enough. *)
Fixpoint scanJSON (fuel : nat) (inString : bool) (b : string) : result unit :=
  match fuel, b with
  | S n, String c r =>
      if inString then
        if Ascii.eqb c dquote then scanJSON n false r
        else if Ascii.eqb c backslash then
          match checkEscape b with
          | Err e => Err e
          | Ok k => scanJSON n true (drop k b)
          end
        else scanJSON n true r
      else if Ascii.eqb c dquote then scanJSON n true r
      else if Ascii.eqb c "-" || is_digit c then
        let '(num, rest) := span number_byte b in
        match checkNumber num with
        | Err e => Err e
        | Ok _ => scanJSON n false rest
        end
      else scanJSON n false r
  | _, _ => Ok tt
  end.

Definition checkJSON (b : string) : result unit :=
  if negb (utf8_valid b) then Err (ErrText "is not UTF-8")
  else if negb (json_valid b) then Err (ErrText "is not JSON")
  else scanJSON (String.length b) false b.

(** jsonValue: raw, or def when empty. *)
Definition jsonValue (raw def what : string) : result string :=
  if String.eqb raw "" then Ok def
  else match checkJSON raw with
       | Err _ => Err (ErrText (what ++ " is refused"))
       | Ok _ => Ok raw
       end.
