(* ===== verification/JobTags.v ===== *)
(** * Job tags (internal/jobtags)

    Checking a job's tags and dropping their repeats.  DistinctAtMost finds
    repeats by scanning what it kept, and past [Max] kept tags with a set: the
    set is modelled as one, and the two are proved to agree. *)

From Stdlib Require Import List ZArith Lia Bool String.
From stdpp Require Import base tactics list gmap strings sets.
From S2P Require Import Prelude Text Types.
Import ListNotations.
Local Open Scope string_scope.
Local Open Scope Z_scope.
Local Open Scope list_scope.

Definition MaxBytes : Z := 255.
Definition Max : nat := 64.

(** One tag: 1 to MaxBytes bytes of valid UTF-8 without control characters. *)
Definition CheckOne (t : string) : result unit :=
  if String.eqb t "" then Err (ErrText "a tag is empty")
  else if slen t >? MaxBytes then Err (ErrText "a tag is too long")
  else if negb (utf8_valid t) || existsb (fun rw => is_control (fst rw)) (runes t)
  then Err (ErrText "a tag is not valid UTF-8 or contains control characters")
  else Ok tt.

(** The loop of DistinctAtMost: [out] so far, and the set of what it holds
    once it is longer than [Max]. *)
Fixpoint distinct_loop (n : nat) (tags out : list string) (seen : option (gset string)) : option (list string) :=
  match tags with
  | [] => Some out
  | t :: rest =>
      let repeated := match seen with
                      | Some s => bool_decide (t ∈ s)
                      | None => mem_str t out
                      end in
      if repeated then distinct_loop n rest out seen
      else if Nat.eqb (List.length out) n then None
      else
        let out' := out ++ [t] in
        let seen' := match seen with
                     | Some s => Some ({[t]} ∪ s)
                     | None => if Nat.ltb Max (List.length out') then Some (list_to_set out') else None
                     end in
        distinct_loop n rest out' seen'
  end.

(** [None] is the false report of more than n distinct tags. *)
Definition DistinctAtMost (tags : list string) (n : nat) : option (list string) := distinct_loop n tags [] None.

Definition Distinct (tags : list string) : list string :=
  match DistinctAtMost tags (List.length tags) with Some out => out | None => [] end.

Fixpoint check_each (tags : list string) : result unit :=
  match tags with
  | [] => Ok tt
  | t :: rest => match CheckOne t with Err e => Err e | Ok _ => check_each rest end
  end.

Definition Check (tags : list string) : result (list string) :=
  match check_each tags with
  | Err e => Err e
  | Ok _ =>
      match DistinctAtMost tags Max with
      | None => Err (ErrText "a job has more than MaxTags tags")
      | Some out => Ok out
      end
  end.

(** ** The reference: keep the first occurrence of each tag *)

Fixpoint firsts (tags out : list string) : list string :=
  match tags with
  | [] => out
  | t :: rest => if mem_str t out then firsts rest out else firsts rest (out ++ [t])
  end.

(** The set, when there is one, holds exactly what was kept. *)
Definition seen_ok (out : list string) (seen : option (gset string)) : Prop :=
  match seen with Some s => forall t, t ∈ s <-> In t out | None => True end.

Lemma firsts_prefix tags out : exists rest, firsts tags out = out ++ rest.
Proof.
  revert out. induction tags as [|t tags IH]; intros out; simpl.
  - exists []. now rewrite app_nil_r.
  - destruct (mem_str t out); [apply IH|]. destruct (IH (out ++ [t])) as [r ->].
    exists (t :: r). now rewrite <- app_assoc.
Qed.

Lemma firsts_length tags out : (List.length (firsts tags out) <= List.length out + List.length tags)%nat.
Proof.
  revert out. induction tags as [|t tags IH]; intros out; simpl; [lia|].
  destruct (mem_str t out); [specialize (IH out); lia|].
  specialize (IH (out ++ [t])). rewrite List.length_app in IH. simpl in IH. lia.
Qed.

Lemma firsts_In tags out x : In x (firsts tags out) <-> In x out \/ In x tags.
Proof.
  revert out. induction tags as [|t tags IH]; intros out; simpl; [tauto|].
  destruct (mem_str t out) eqn:E; rewrite IH.
  - apply mem_str_In in E. intuition (subst; auto).
  - rewrite in_app_iff. simpl. tauto.
Qed.

Lemma firsts_NoDup tags out : List.NoDup out -> List.NoDup (firsts tags out).
Proof.
  revert out. induction tags as [|t tags IH]; intros out H; simpl; [done|].
  destruct (mem_str t out) eqn:E; apply IH; [done|].
  apply (NoDup_Add (a := t) (l := out)); [|split; [done|]].
  - rewrite <- (app_nil_r out) at 1. apply Add_app.
  - intros Hin. apply mem_str_In in Hin. congruence.
Qed.

Lemma seen_ok_repeated t out seen :
  seen_ok out seen ->
  (match seen with Some s => bool_decide (t ∈ s) | None => mem_str t out end) = mem_str t out.
Proof.
  destruct seen as [s|]; [|done]. intros H. simpl in H.
  apply eq_iff_eq_true. rewrite bool_decide_eq_true, mem_str_In. apply H.
Qed.

Lemma distinct_loop_firsts n tags out seen :
  seen_ok out seen -> (List.length out <= n)%nat ->
  distinct_loop n tags out seen =
  if Nat.leb (List.length (firsts tags out)) n then Some (firsts tags out) else None.
Proof.
  revert out seen. induction tags as [|t tags IH]; intros out seen Hs Hn; simpl.
  - apply Nat.leb_le in Hn. now rewrite Hn.
  - rewrite (seen_ok_repeated t out seen Hs). destruct (mem_str t out) eqn:E; [now apply IH|].
    destruct (Nat.eqb_spec (List.length out) n) as [Hl|Hl].
    + destruct (firsts_prefix tags (out ++ [t])) as [r Hr].
      destruct (Nat.leb_spec (List.length (firsts tags (out ++ [t]))) n); [|done].
      rewrite Hr, !List.length_app in *. simpl in *. lia.
    + apply IH; [|rewrite List.length_app; simpl; lia].
      destruct seen as [s|]; simpl in *.
      * intros x. rewrite elem_of_union, elem_of_singleton, Hs, in_app_iff. simpl. naive_solver.
      * destruct (Nat.ltb Max (List.length (out ++ [t]))); simpl; [|done].
        intros x. rewrite elem_of_list_to_set. apply list_elem_of_In.
Qed.

(** DistinctAtMost, with its set past [Max], returns the first occurrence of
    each tag in order, and gives up exactly when there are more than n. *)
Lemma DistinctAtMost_firsts tags n :
  DistinctAtMost tags n =
  if Nat.leb (List.length (firsts tags [])) n then Some (firsts tags []) else None.
Proof. apply distinct_loop_firsts; simpl; [done|lia]. Qed.

Lemma Distinct_firsts tags : Distinct tags = firsts tags [].
Proof.
  unfold Distinct. rewrite DistinctAtMost_firsts.
  pose proof (firsts_length tags []) as H. simpl in H. apply Nat.leb_le in H. now rewrite H.
Qed.

(** DistinctAtMost returns the first occurrences of the tags: no repeats, the
    same members, at most n; and it gives up exactly when there are more than n. *)
Theorem DistinctAtMost_spec tags n :
  match DistinctAtMost tags n with
  | Some out => List.NoDup out /\ (List.length out <= n)%nat /\ (forall t, In t out <-> In t tags)
                /\ Distinct tags = out
  | None => (n < List.length (Distinct tags))%nat
            /\ List.NoDup (Distinct tags) /\ forall t, In t (Distinct tags) -> In t tags
  end.
Proof.
  rewrite DistinctAtMost_firsts, Distinct_firsts.
  assert (List.NoDup (firsts tags [])) by (apply firsts_NoDup; constructor).
  assert (forall t, In t (firsts tags []) <-> In t tags) as HI.
  { intros t. rewrite firsts_In. simpl. tauto. }
  destruct (Nat.leb_spec (List.length (firsts tags [])) n).
  - auto.
  - split; [done|]. split; [done|]. intros t. apply HI.
Qed.

Lemma check_each_ok tags : check_each tags = Ok tt <-> Forall (fun t => CheckOne t = Ok tt) tags.
Proof.
  induction tags as [|t tags IH]; simpl.
  - split; constructor.
  - rewrite List.Forall_cons_iff, <- IH. destruct (CheckOne t) as [[]|e]; split; intuition congruence.
Qed.

(** Check accepts exactly the lists of valid tags with at most [Max] distinct
    ones, and what it returns has no repeats and every tag given. *)
Theorem Check_spec tags out :
  Check tags = Ok out <->
  Forall (fun t => CheckOne t = Ok tt) tags /\ (List.length (Distinct tags) <= Max)%nat /\ out = Distinct tags.
Proof.
  unfold Check. rewrite <- check_each_ok, DistinctAtMost_firsts, Distinct_firsts.
  destruct (check_each tags) as [[]|e]; [|split; intuition congruence].
  destruct (Nat.leb_spec (List.length (firsts tags [])) Max); split; intuition (try congruence); lia.
Qed.
