(* ===== verification/JobId.v ===== *)
(** * Job IDs (driver/jobid.go) and minting them (driver/hoppersqlite/id.go)

    The canonical 8-4-4-4-12 text of an ID and its parser, with their round
    trips, and the time order of the IDs newID mints. *)

From Stdlib Require Import List ZArith Lia Bool String Ascii.
From S2P Require Import Prelude Text Json Types Store.
Import ListNotations.
Local Open Scope string_scope.
Local Open Scope Z_scope.

(** hex.Encode of an n-nibble integer, most significant first. *)
Fixpoint hex_encode (n : nat) (z : Z) : string :=
  match n with
  | O => ""
  | S n' => hex_encode n' (z / 16) ++ String (hex_digit (z mod 16)) ""
  end.

(** hex.Decode: the integer of a string of hex digits. *)
Fixpoint hex_decode (acc : Z) (s : string) : option Z :=
  match s with
  | EmptyString => Some acc
  | String c r => if is_hex c then hex_decode (acc * 16 + hex_val c) r else None
  end.

Definition char_at (n : nat) (c : ascii) (s : string) : bool :=
  match String.get n s with Some d => Ascii.eqb d c | None => false end.

Definition ParseJobID (s : string) : option JobID :=
  if negb (Nat.eqb (String.length s) 36) || negb (char_at 8 "-" s) || negb (char_at 13 "-" s)
     || negb (char_at 18 "-" s) || negb (char_at 23 "-" s)
  then None
  else
    let buf := take 8 s ++ take 4 (drop 9 s) ++ take 4 (drop 14 s) ++ take 4 (drop 19 s) ++ take 12 (drop 24 s) in
    hex_decode 0 buf.

Definition JobID_String (id : JobID) : string :=
  let h := hex_encode 32 id in
  take 8 h ++ "-" ++ take 4 (drop 8 h) ++ "-" ++ take 4 (drop 12 h) ++ "-" ++ take 4 (drop 16 h)
  ++ "-" ++ take 12 (drop 20 h).

(** ** Hex round trips *)

Lemma hex_digit_spec z : 0 <= z < 16 ->
  is_hex (hex_digit z) = true /\ hex_val (hex_digit z) = z.
Proof.
  intros H.
  assert (List.In z [0;1;2;3;4;5;6;7;8;9;10;11;12;13;14;15]) as Hin by (simpl; lia).
  simpl in Hin. intuition (subst; split; reflexivity).
Qed.

Lemma length_hex_encode n z : String.length (hex_encode n z) = n.
Proof.
  revert z. induction n as [|n IH]; intros z; [reflexivity|].
  cbn [hex_encode]. pose proof (slen_app (hex_encode n (z / 16)) (String (hex_digit (z mod 16)) "")) as H.
  unfold slen in H. rewrite IH in H. simpl String.length in H at 2. lia.
Qed.

Lemma hex_decode_app acc a b :
  hex_decode acc (a ++ b) = match hex_decode acc a with Some v => hex_decode v b | None => None end.
Proof.
  revert acc. induction a as [|c a IH]; intros acc; [reflexivity|].
  rewrite app_cons_str. cbn [hex_decode]. destruct (is_hex c); auto.
Qed.

Lemma hex_decode_encode n z acc :
  hex_decode acc (hex_encode n z) = Some (acc * 16 ^ Z.of_nat n + z mod 16 ^ Z.of_nat n).
Proof.
  revert z acc. induction n as [|n IH]; intros z acc.
  - cbn [hex_encode hex_decode Z.of_nat]. rewrite Z.pow_0_r, Z.mod_1_r. f_equal. lia.
  - cbn [hex_encode]. rewrite hex_decode_app, IH. cbn [hex_decode].
    destruct (hex_digit_spec (z mod 16)) as [-> ->]; [apply Z.mod_pos_bound; lia|].
    f_equal. rewrite Nat2Z.inj_succ, Z.pow_succ_r by lia.
    assert (0 < 16 ^ Z.of_nat n) as Hp by (apply Z.pow_pos_nonneg; lia).
    rewrite (Z.rem_mul_r z 16 (16 ^ Z.of_nat n)) by lia. ring.
Qed.

(** A string of known length, spelled out. *)
Tactic Notation "spell" ident(s) integer(n) hyp(H) :=
  do n (destruct s as [|? s]; [discriminate H|]); destruct s; [|discriminate H]; clear H.

Lemma ParseJobID_text (id : JobID) : 0 <= id < 2 ^ 128 ->
  String.length (JobID_String id) = 36%nat /\ ParseJobID (JobID_String id) = Some id.
Proof.
  intros Hid. unfold JobID_String.
  assert (hex_decode 0 (hex_encode 32 id) = Some id) as Hd.
  { rewrite hex_decode_encode. change (16 ^ Z.of_nat 32) with (2 ^ 128).
    rewrite Z.mod_small by lia. f_equal. }
  pose proof (length_hex_encode 32 id) as Hl. revert Hd Hl.
  generalize (hex_encode 32 id). intros h Hd Hl. spell h 32 Hl.
  split; [reflexivity|exact Hd].
Qed.

(** The text of an ID is 36 bytes long and parses back to the ID, so two IDs never share a text. *)
Theorem ParseJobID_String (id : JobID) :
  0 <= id < 2 ^ 128 ->
  String.length (JobID_String id) = 36%nat /\ ParseJobID (JobID_String id) = Some id
  /\ forall id', 0 <= id' < 2 ^ 128 -> JobID_String id' = JobID_String id -> id' = id.
Proof.
  intros Hid. destruct (ParseJobID_text id Hid) as [Hl Hp]. split; [exact Hl|split; [exact Hp|]].
  intros id' Hid' E. destruct (ParseJobID_text id' Hid') as [_ Hp']. rewrite E, Hp in Hp'. now injection Hp'.
Qed.

Lemma ParseJobID_String_witness :
  ParseJobID (JobID_String 1339673755198158349044581307228491536) = Some 1339673755198158349044581307228491536.
Proof. apply ParseJobID_String. lia. Defined.

Lemma hex_lower c : is_hex c = true -> hex_digit (hex_val c) = lower c.
Proof. destruct c as [[] [] [] [] [] [] [] []]; vm_compute; congruence. Qed.

Lemma hex_val_bound c : is_hex c = true -> 0 <= hex_val c < 16.
Proof. destruct c as [[] [] [] [] [] [] [] []]; vm_compute; intuition congruence. Qed.

Lemma hex_decode_nonneg s acc v : 0 <= acc -> hex_decode acc s = Some v -> 0 <= v.
Proof.
  revert acc. induction s as [|c s IH]; simpl; intros acc Ha.
  - now intros [= <-].
  - destruct (is_hex c) eqn:E; [|discriminate]. apply hex_val_bound in E. apply IH. lia.
Qed.

Lemma to_lower_app a b : to_lower (a ++ b) = to_lower a ++ to_lower b.
Proof.
  induction a as [|c a IH]; [reflexivity|]. rewrite app_cons_str. cbn [to_lower].
  now rewrite IH, app_cons_str.
Qed.

(** Hex digits written again are the digits in lower case. *)
Lemma hex_encode_decode : forall n (s : string) (v : Z),
  String.length s = n -> hex_decode 0 s = Some v -> hex_encode n v = to_lower s.
Proof.
  induction n as [|n IH]; intros s v Hl Hd.
  - destruct s; [reflexivity|discriminate].
  - assert (exists a c, s = a ++ String c "" /\ String.length a = n) as (a & c & -> & Ha).
    { clear Hd v IH. revert n Hl. induction s as [|x s IHs]; intros n Hl; [discriminate|].
      injection Hl as Hl. destruct s as [|y s].
      - exists "", x. simpl in Hl. now subst.
      - destruct n as [|n]; [discriminate|]. destruct (IHs n Hl) as (a & c & E & Ha).
        exists (String x a), c. rewrite E. split; [reflexivity|]. simpl. now rewrite Ha. }
    rewrite hex_decode_app in Hd. destruct (hex_decode 0 a) as [u|] eqn:Eu; [|discriminate].
    cbn [hex_decode] in Hd. destruct (is_hex c) eqn:Ec; [|discriminate]. injection Hd as <-.
    pose proof (hex_val_bound c Ec) as Hb.
    cbn [hex_encode]. rewrite Z.div_add_l, (Z.div_small (hex_val c)), Z.add_0_r by lia.
    rewrite (Z.add_comm (u * 16)), Z.mod_add, Z.mod_small by lia.
    rewrite (IH a u Ha Eu), to_lower_app, (hex_lower c Ec). reflexivity.
Qed.

(** Every text ParseJobID accepts is the text of the ID it returns, in
    lower case: parsing loses nothing but the case of the digits. *)
Theorem String_ParseJobID (s : string) (id : JobID) :
  ParseJobID s = Some id -> JobID_String id = to_lower s /\ 0 <= id < 2 ^ 128.
Proof.
  unfold ParseJobID. intros H.
  destruct (negb (Nat.eqb (String.length s) 36) || negb (char_at 8 "-" s) || negb (char_at 13 "-" s)
     || negb (char_at 18 "-" s) || negb (char_at 23 "-" s)) eqn:E; [discriminate|].
  repeat (apply orb_false_iff in E as [E ?]); repeat match goal with H : negb _ = false |- _ => apply negb_false_iff in H end.
  apply Nat.eqb_eq in E. spell s 36 E. unfold char_at in *. cbn [String.get] in *. cbv iota in *.
  repeat match goal with H : Ascii.eqb _ _ = true |- _ => apply Ascii.eqb_eq in H; subst end.
  pose proof (hex_decode_nonneg _ 0 id ltac:(lia) H) as Hn.
  pose proof (fun L => hex_encode_decode 32 _ id L H) as He. specialize (He eq_refl).
  split.
  - unfold JobID_String. rewrite He. reflexivity.
  - split; [exact Hn|]. pose proof (hex_decode_encode 32 id 0) as Hd.
    rewrite He in Hd. change (16 ^ Z.of_nat 32) with (2 ^ 128) in Hd.
    assert (forall t acc, hex_decode acc (to_lower t) = hex_decode acc t \/ hex_decode acc t = None) as Hlow.
    { intros t. induction t as [|c t IHt]; intros acc; [now left|]. cbn [to_lower hex_decode].
      destruct (is_hex c) eqn:Ec; [|now right].
      assert (is_hex (lower c) = true /\ hex_val (lower c) = hex_val c) as [-> ->]; [|apply IHt].
      rewrite <- (hex_lower c Ec). apply hex_digit_spec, hex_val_bound, Ec. }
    edestruct Hlow as [Hl|Hl]; [rewrite Hl in Hd|]; rewrite H in *; [|discriminate].
    injection Hd as Hd. pose proof (Z.mod_pos_bound id (2 ^ 128)). lia.
Qed.

Lemma String_ParseJobID_witness :
  JobID_String 1339673755198158349044581307228491536 = to_lower "01020304-0506-0708-090A-0B0C0D0E0F10".
Proof. apply String_ParseJobID. vm_compute. reflexivity. Defined.

(** ** Minted IDs *)

Lemma lor_low a b k : 0 <= k -> 0 <= b < 2 ^ k -> Z.lor (a * 2 ^ k) b = a * 2 ^ k + b.
Proof.
  intros Hk Hb. rewrite <- Z.lxor_lor; [symmetry; apply Z.add_nocarry_lxor|]; apply Z.bits_inj'; intros i Hi;
    rewrite Z.land_spec, Z.bits_0; destruct (Z.ltb_spec i k);
    rewrite ?Z.mul_pow2_bits_low by lia; try reflexivity;
    rewrite <- (Z.mod_small b (2 ^ k)), Z.mod_pow2_bits_high by lia; apply andb_false_r.
Qed.

(** The version bits sit between the milliseconds and the fraction. *)
Lemma newID_hi ms fraction :
  0 <= ms < 2 ^ 48 -> 0 <= fraction < 4096 ->
  Z.lor (Z.lor (Z.shiftl ms 16 mod 2 ^ 64) 28672) fraction = ms * 65536 + 28672 + fraction.
Proof.
  intros Hm Hf. rewrite Z.shiftl_mul_pow2 by lia.
  rewrite (Z.mod_small (ms * 2 ^ 16)) by lia. rewrite (lor_low ms 28672 16) by lia.
  replace (ms * 2 ^ 16 + 28672) with ((ms * 16 + 7) * 2 ^ 12) by lia.
  rewrite lor_low by lia. lia.
Qed.

Lemma newID_lo rnd : 2 ^ 63 <= Z.lor (Z.land rnd (2 ^ 62 - 1)) (2 ^ 63) < 2 ^ 64.
Proof.
  change (2 ^ 62 - 1) with (Z.ones 62). rewrite Z.land_ones, Z.lor_comm by lia.
  pose proof (Z.mod_pos_bound rnd (2 ^ 62) eq_refl).
  pose proof (lor_low 1 (rnd mod 2 ^ 62) 63) as E. rewrite Z.mul_1_l in E. rewrite E; lia.
Qed.

(** IDs are time-ordered to the microsecond: an ID minted at a later
    database time is larger than one minted earlier, whatever their random
    bits, as long as the time is after 1970 and its milliseconds fit 48 bits. *)
Theorem newID_time_ordered (now1 now2 rnd1 rnd2 : Z) :
  0 <= now1 -> now1 < now2 -> now2 < 1000 * 2 ^ 48 ->
  newID_of now1 rnd1 < newID_of now2 rnd2.
Proof.
  intros H0 H1 H2. unfold newID_of.
  assert (now1 / 1000 <= now2 / 1000) by (apply Z.div_le_mono; lia).
  pose proof (Z.div_pos now1 1000). pose proof (Z.div_lt_upper_bound now2 1000 (2 ^ 48)).
  pose proof (Z.mod_pos_bound now1 1000). pose proof (Z.mod_pos_bound now2 1000).
  pose proof (Z.div_mod now1 1000). pose proof (Z.div_mod now2 1000).
  set (f n := (n mod 1000 * 1000) * 4096 / 1000000).
  assert (forall n, 0 <= f n < 4096) as Hf.
  { intros n. unfold f. pose proof (Z.mod_pos_bound n 1000). split; [apply Z.div_pos; lia|].
    apply Z.div_lt_upper_bound; lia. }
  fold (f now1) (f now2). rewrite !Z.max_l by lia. rewrite !newID_hi by (try apply Hf; lia).
  pose proof (newID_lo rnd1). pose proof (newID_lo rnd2).
  pose proof (Hf now1). pose proof (Hf now2).
  enough (now1 / 1000 * 65536 + f now1 + 1 <= now2 / 1000 * 65536 + f now2) by lia.
  destruct (Z.eq_dec (now1 / 1000) (now2 / 1000)); [|lia].
  enough (f now1 + 1 <= f now2) by lia. unfold f.
  apply Z.div_le_lower_bound; [lia|].
  pose proof (Z.mul_div_le (now1 mod 1000 * 1000 * 4096) 1000000). lia.
Qed.

Lemma newID_time_ordered_witness :
  newID_of 1760000000000000 123456789 < newID_of 1760000000000001 7.
Proof. apply newID_time_ordered; lia. Defined.
