(* ===== verification/Calendar.v ===== *)
(** * Civil dates and RFC 3339 texts, in UTC (package time)

    The proleptic Gregorian date of a day number since 1970-01-01, and the
    text time.Time marshals to. *)

From Stdlib Require Import List ZArith Lia Bool String Ascii.
From S2P Require Import Prelude Text.
Local Open Scope string_scope.
Local Open Scope Z_scope.

(** Year, month and day of a day number, by 400-year eras starting in March. *)
Definition civil_of_days (days : Z) : Z * Z * Z :=
  let z := days + 719468 in
  let era := z / 146097 in
  let doe := z - era * 146097 in
  let yoe := (doe - doe / 1460 + doe / 36524 - doe / 146096) / 365 in
  let doy := doe - (365 * yoe + yoe / 4 - yoe / 100) in
  let mp := (5 * doy + 2) / 153 in
  let d := doy - (153 * mp + 2) / 5 + 1 in
  let m := if mp <? 10 then mp + 3 else mp - 9 in
  let y := yoe + era * 400 + (if m <=? 2 then 1 else 0) in
  (y, m, d).

Definition digit (z : Z) : string := String (chr (48 + z mod 10)) "".
Definition pad2 (z : Z) : string := digit (z / 10) ++ digit z.
Definition pad4 (z : Z) : string := pad2 (z / 100) ++ pad2 (z mod 100).
Definition pad6 (z : Z) : string := pad2 (z / 10000) ++ pad4 (z mod 10000).

(** The fraction of a second, without trailing zeros, or nothing. *)
Definition fraction_text (micros : Z) : string :=
  match trim_right (fun c => Ascii.eqb c "0") (pad6 micros) with
  | "" => ""
  | f => "." ++ f
  end.

(** time.Time.MarshalJSON's text (RFC 3339 with nanoseconds, trailing zeros
    dropped) of a UTC time of whole microseconds. *)
Definition rfc3339_micros (t : Z) : string :=
  let secs := t / 1000000 in
  let '(y, m, d) := civil_of_days (secs / 86400) in
  let sod := secs mod 86400 in
  pad4 y ++ "-" ++ pad2 m ++ "-" ++ pad2 d ++ "T" ++ pad2 (sod / 3600) ++ ":" ++ pad2 (sod / 60 mod 60)
  ++ ":" ++ pad2 (sod mod 60) ++ fraction_text (t mod 1000000) ++ "Z".

Example rfc3339_sample : rfc3339_micros 1760000000120000 = "2025-10-09T08:53:20.12Z".
Proof. reflexivity. Qed.
