(* ===== verification/Dates.v ===== *)
(** * The calendar's arithmetic: lemmas on Calendar.v

    [days_of_civil] is the inverse of [civil_of_days]; the days of a month are
    an interval, and the months follow one another.  The date of an instant and
    the start of the next month are characterised by these alone. *)

From Stdlib Require Import List ZArith Lia Bool.
From S2P Require Import Prelude Calendar.
Local Open Scope Z_scope.

(** The day number of March 1st of year [y]. *)
Definition march (y : Z) : Z := 365 * y + y / 4 - y / 100 + y / 400 - 719468.

(** The days from March 1st to the first of the [k]th month after it. *)
Definition month_offset (k : Z) : Z := (153 * k + 2) / 5.

(** The day number of a date; a month past December is one of a later year. *)
Definition days_of_civil (y m d : Z) : Z :=
  let y := y + (m - 1) / 12 in
  let m := (m - 1) mod 12 + 1 in
  let y' := if m <=? 2 then y - 1 else y in
  march y' + month_offset (if m <=? 2 then m + 9 else m - 3) + d - 1.

Definition year_of (days : Z) : Z := fst (fst (civil_of_days days)).
Definition month_of (days : Z) : Z := snd (fst (civil_of_days days)).
Definition day_of (days : Z) : Z := snd (civil_of_days days).

(** ** The year that starts in March *)

Definition era_year (doe : Z) : Z := (doe - doe / 1460 + doe / 36524 - doe / 146096) / 365.

Lemma era_year_spec doe : 0 <= doe < 146097 ->
  let q := era_year doe in
  0 <= q < 400 /\ 365 * q + q / 4 - q / 100 <= doe
  /\ (doe < 365 * (q + 1) + (q + 1) / 4 - (q + 1) / 100 \/ q = 399).
Proof. intros H q. subst q. unfold era_year. Z.to_euclidean_division_equations; lia. Qed.

Lemma march_era q e : 0 <= q <= 400 -> march (q + 400 * e) = 146097 * e + 365 * q + q / 4 - q / 100 + q / 400 - 719468.
Proof. intros H. unfold march. Z.to_euclidean_division_equations; lia. Qed.

Lemma march_step y : march y + 365 <= march (y + 1) <= march y + 366.
Proof. unfold march. Z.to_euclidean_division_equations; lia. Qed.

Lemma march_mono y z : y <= z -> march y <= march z.
Proof. intros H. unfold march. Z.to_euclidean_division_equations; lia. Qed.

Lemma march_inj y z n : march y <= n < march (y + 1) -> march z <= n < march (z + 1) -> y = z.
Proof.
  intros H1 H2. destruct (Z.lt_trichotomy y z) as [L|[L|L]]; [|assumption|].
  - pose proof (march_mono (y + 1) z). lia.
  - pose proof (march_mono (z + 1) y). lia.
Qed.

(** ** The date of a day number *)

Definition shift_month (k : Z) : Z := if k <? 10 then k + 3 else k - 9.

Lemma civil_spec n : exists y k,
  march y <= n < march (y + 1) /\ 0 <= k <= 11 /\ month_offset k <= n - march y < month_offset (k + 1)
  /\ civil_of_days n = (y + (if shift_month k <=? 2 then 1 else 0), shift_month k, n - march y - month_offset k + 1).
Proof.
  set (z := n + 719468). set (e := z / 146097). set (doe := z - e * 146097).
  assert (Hd : 0 <= doe < 146097) by (subst doe e; Z.to_euclidean_division_equations; lia).
  destruct (era_year_spec doe Hd) as (Hq & Hlo & Hhi). fold (era_year doe) in *.
  set (q := era_year doe) in *.
  pose proof (march_era q e ltac:(lia)) as M1. pose proof (march_era (q + 1) e ltac:(lia)) as M2.
  replace (q + 1 + 400 * e) with (q + 400 * e + 1) in M2 by lia.
  assert (q / 400 = 0) by (apply Z.div_small; lia).
  assert (Hq1 : q + 1 < 400 /\ (q + 1) / 400 = 0 \/ q = 399 /\ (q + 1) / 400 = 1).
  { destruct (Z.eq_dec q 399) as [->|]; [right|left]; split; try reflexivity; try lia. apply Z.div_small; lia. }
  assert (Hrange : march (q + 400 * e) <= n < march (q + 400 * e + 1)).
  { split; [lia|]. destruct Hhi as [|E]; [lia|]. rewrite M2, E.
    change ((399 + 1) / 4) with 100. change ((399 + 1) / 100) with 4. change ((399 + 1) / 400) with 1. lia. }
  exists (q + 400 * e). set (doy := n - march (q + 400 * e)).
  assert (Hdoy : doy = doe - (365 * q + q / 4 - q / 100)) by (subst doy; lia).
  pose proof (march_step (q + 400 * e)).
  exists ((5 * doy + 2) / 153).
  assert (Hk : 0 <= (5 * doy + 2) / 153 <= 11) by (subst doy; Z.to_euclidean_division_equations; lia).
  repeat split; try lia.
  - unfold month_offset. Z.to_euclidean_division_equations; lia.
  - unfold month_offset. Z.to_euclidean_division_equations; lia.
  - unfold civil_of_days. fold z e doe (era_year doe). fold q. rewrite <- Hdoy.
    unfold shift_month, month_offset. fold doy. f_equal. f_equal. lia.
Qed.

Lemma month_offset_spec k : 0 <= k <= 11 -> month_offset k + 28 <= month_offset (k + 1) <= month_offset k + 31.
Proof. intros H. unfold month_offset. Z.to_euclidean_division_equations; lia. Qed.

(** A date [(y, m)] holds the days from its first to the next month's first. *)
Definition first_of (y m : Z) : Z := days_of_civil y m 1.
Definition in_month (y m n : Z) : Prop := 1 <= m <= 12 /\ first_of y m <= n < first_of y (m + 1).

Lemma days_of_civil_first y m d : days_of_civil y m d = first_of y m + (d - 1).
Proof. unfold first_of, days_of_civil. lia. Qed.

Lemma first_of_in_year y m : 1 <= m <= 12 ->
  first_of y m = (if m <=? 2 then march (y - 1) + month_offset (m + 9) else march y + month_offset (m - 3)).
Proof.
  intros H. unfold first_of, days_of_civil.
  rewrite (Z.div_small (m - 1) 12), (Z.mod_small (m - 1) 12) by lia.
  replace (m - 1 + 1) with m by lia. rewrite Z.add_0_r. destruct (m <=? 2); lia.
Qed.

Lemma first_of_next_year y : first_of y 13 = first_of (y + 1) 1.
Proof.
  unfold first_of, days_of_civil. change ((13 - 1) / 12) with 1. change ((13 - 1) mod 12) with 0.
  change ((1 - 1) / 12) with 0. change ((1 - 1) mod 12) with 0. now rewrite Z.add_0_r.
Qed.

(** In months counted from March. *)
Lemma first_of_shift y m : 1 <= m <= 12 -> exists y' k, 0 <= k <= 11
  /\ m = shift_month k /\ y = y' + (if shift_month k <=? 2 then 1 else 0)
  /\ first_of y m = march y' + month_offset k
  /\ first_of y (m + 1) = (if k =? 11 then march (y' + 1) else march y' + month_offset (k + 1)).
Proof.
  intros H. unfold shift_month.
  assert (Hn : first_of y (m + 1) = if m =? 12 then march y + month_offset 10
               else if m + 1 <=? 2 then march (y - 1) + month_offset (m + 10) else march y + month_offset (m - 2)).
  { destruct (Z.eqb_spec m 12) as [->|].
    - change (12 + 1) with 13. rewrite first_of_next_year, first_of_in_year by lia. simpl. now rewrite Z.add_simpl_r.
    - rewrite first_of_in_year by lia. replace (m + 1 + 9) with (m + 10) by lia. now replace (m + 1 - 3) with (m - 2) by lia. }
  destruct (Z.leb_spec m 2) as [L|L]; [exists (y - 1), (m + 9)|exists y, (m - 3)];
    rewrite Hn, first_of_in_year by lia; (split; [lia|]).
  - assert (m = 1 \/ m = 2) as [->| ->] by lia; simpl; repeat split; try lia. now rewrite Z.sub_add, Z.add_0_r.
  - destruct (Z.leb_spec m 2); [lia|]. destruct (Z.ltb_spec (m - 3) 10); [|lia].
    replace (m - 3 + 3) with m by lia. destruct (Z.leb_spec m 2); [lia|].
    destruct (Z.eqb_spec (m - 3) 11); [lia|]. repeat split; try lia.
    destruct (Z.eqb_spec m 12) as [->|]; [reflexivity|]. destruct (Z.leb_spec (m + 1) 2); [lia|].
    now replace (m - 3 + 1) with (m - 2) by lia.
Qed.

Lemma civil_in_month n :
  in_month (year_of n) (month_of n) n /\ day_of n = n - first_of (year_of n) (month_of n) + 1.
Proof.
  destruct (civil_spec n) as (y & k & Hy & Hk & Ho & E).
  unfold year_of, month_of, day_of, in_month. rewrite E. simpl.
  set (m := shift_month k). set (y1 := y + (if m <=? 2 then 1 else 0)).
  assert (Hm : 1 <= m <= 12) by (subst m; unfold shift_month; destruct (Z.ltb_spec k 10); lia).
  destruct (first_of_shift y1 m Hm) as (y2 & k2 & Hk2 & Em & Ey & F1 & F2).
  assert (k2 = k) as ->.
  { subst m. unfold shift_month in Em. destruct (Z.ltb_spec k 10), (Z.ltb_spec k2 10); lia. }
  assert (y2 = y) as -> by (subst y1 m; lia).
  rewrite F1, F2. destruct (Z.eqb_spec k 11); repeat split; lia.
Qed.

Lemma in_month_unique y m n : in_month y m n -> year_of n = y /\ month_of n = m.
Proof.
  intros (Hm & Hn). destruct (civil_spec n) as (y1 & k1 & Hy & Hk & Ho & E).
  destruct (first_of_shift y m Hm) as (y2 & k2 & Hk2 & Em & Ey & F1 & F2). rewrite F1, F2 in Hn.
  assert (Hoff : forall a b, 0 <= a -> a <= b -> month_offset a <= month_offset b)
    by (intros; unfold month_offset; apply Z.div_le_mono; lia).
  assert (O0 : 0 <= month_offset k2) by (unfold month_offset; apply Z.div_pos; lia).
  assert (L : n < march (y2 + 1)).
  { destruct (Z.eqb_spec k2 11); [lia|]. pose proof (march_step y2).
    pose proof (Hoff (k2 + 1) 11 ltac:(lia) ltac:(lia)). change (month_offset 11) with 337 in *. lia. }
  assert (y1 = y2) as -> by (apply (march_inj y1 y2 n); lia).
  assert (k1 = k2) as ->.
  { destruct (Z.lt_trichotomy k1 k2) as [L1|[L1|L1]]; [|assumption|].
    - pose proof (Hoff (k1 + 1) k2). lia.
    - pose proof (Hoff (k2 + 1) k1). destruct (Z.eqb_spec k2 11); lia. }
  unfold year_of, month_of. rewrite E. simpl. lia.
Qed.

(** A month has 28 to 31 days. *)
Lemma month_length y m : 1 <= m <= 12 -> first_of y m + 28 <= first_of y (m + 1) <= first_of y m + 31.
Proof.
  intros Hm. destruct (first_of_shift y m Hm) as (y2 & k2 & Hk2 & _ & _ & -> & ->).
  pose proof (month_offset_spec k2 Hk2). pose proof (march_step y2).
  destruct (Z.eqb_spec k2 11) as [->|]; [change (month_offset 11) with 337|]; lia.
Qed.

(** What a date is good for: the month holds its days, in order. *)
Lemma date_spec n : 1 <= month_of n <= 12 /\ 1 <= day_of n <= 31
  /\ first_of (year_of n) (month_of n) = n - (day_of n - 1)
  /\ n < first_of (year_of n) (month_of n + 1).
Proof.
  destruct (civil_in_month n) as ((Hm & Hn) & E). pose proof (month_length (year_of n) (month_of n) Hm). lia.
Qed.

Lemma same_month n v : first_of (year_of n) (month_of n) <= v < first_of (year_of n) (month_of n + 1) ->
  year_of v = year_of n /\ month_of v = month_of n /\ day_of v = day_of n + (v - n).
Proof.
  intros H. destruct (date_spec n) as (Hm & _ & E & _).
  destruct (in_month_unique (year_of n) (month_of n) v) as [E1 E2]; [split; assumption|].
  destruct (date_spec v) as (_ & _ & E3 & _). rewrite E1, E2 in E3. lia.
Qed.

Lemma month_start n : let f := first_of (year_of n) (month_of n) in
  year_of f = year_of n /\ month_of f = month_of n /\ day_of f = 1.
Proof.
  intros f. destruct (date_spec n) as (_ & Hd & F & L).
  destruct (same_month n f) as (E1 & E2 & E3); [subst f; lia|]. repeat split; try assumption. subst f. lia.
Qed.

(** The day after the month's last is the first of the next month. *)
Lemma next_month n : let v := first_of (year_of n) (month_of n + 1) in
  day_of v = 1 /\ (if month_of n =? 12 then year_of v = year_of n + 1 /\ month_of v = 1
                   else year_of v = year_of n /\ month_of v = month_of n + 1).
Proof.
  intros v. destruct (date_spec n) as (Hm & _).
  assert (H : if month_of n =? 12 then in_month (year_of n + 1) 1 v else in_month (year_of n) (month_of n + 1) v).
  { destruct (Z.eqb_spec (month_of n) 12) as [E|E].
    - subst v. rewrite E. change (12 + 1) with 13. rewrite first_of_next_year.
      pose proof (month_length (year_of n + 1) 1 ltac:(lia)). split; lia.
    - pose proof (month_length (year_of n) (month_of n + 1) ltac:(lia)). split; lia. }
  destruct (date_spec v) as (_ & _ & Ev & _).
  destruct (Z.eqb_spec (month_of n) 12) as [E|E]; apply in_month_unique in H as [E1 E2]; rewrite E1, E2 in *; split; try lia; auto.
  assert (first_of (year_of n + 1) 1 = v) by (subst v; rewrite E; symmetry; apply first_of_next_year). lia.
Qed.

Lemma year_of_mono n v : n <= v -> year_of n <= year_of v.
Proof.
  intros H. destruct (civil_spec n) as (y & k & Hy & Hk & Ho & E), (civil_spec v) as (y' & k' & Hy' & Hk' & Ho' & E').
  unfold year_of. rewrite E, E'. simpl.
  assert (L : y <= y') by (destruct (Z.le_gt_cases y y'); [assumption|]; pose proof (march_mono (y' + 1) y); lia).
  destruct (Z.eq_dec y y') as [<-|]; [|destruct (_ <=? 2), (_ <=? 2); lia].
  assert (k <= k').
  { destruct (Z.le_gt_cases k k'); [assumption|].
    assert (month_offset (k' + 1) <= month_offset k) by (unfold month_offset; apply Z.div_le_mono; lia). lia. }
  assert (S : forall j, 0 <= j <= 11 -> (if shift_month j <=? 2 then 1 else 0) = (if 9 <? j then 1 else 0)).
  { intros j Hj. unfold shift_month. destruct (Z.ltb_spec j 10), (Z.ltb_spec 9 j); try lia;
      match goal with |- context [?a <=? 2] => destruct (Z.leb_spec a 2) end; lia. }
  rewrite !S by lia. destruct (Z.ltb_spec 9 k), (Z.ltb_spec 9 k'); lia.
Qed.
