(* ===== verification/Cron.v ===== *)
(** * Schedules of periodic jobs (cron.go)

    Cron expressions as bit sets per field, and the search for the next slot,
    which walks the fields from months down to seconds in a location.  An
    instant is its Unix time in seconds; a location gives the offset from UTC
    in force at an instant, and the period it is in force for, as
    time.Location's lookup does.  The time zone database is a parameter. *)

From Stdlib Require Import List ZArith Lia Bool String Ascii.
From S2P Require Import Prelude Text Types JsonCheck Calendar Dates.
Import ListNotations.
Local Open Scope string_scope.
Local Open Scope Z_scope.

(** ** Instants in a location (package time) *)

Record Location : Type := mkLocation { lookup : Z -> Z * Z * Z }.

Definition offset (loc : Location) (t : Z) : Z := fst (fst (lookup loc t)).
Definition local (loc : Location) (t : Z) : Z := t + offset loc t.
Definition Year (loc : Location) (t : Z) : Z := year_of (local loc t / 86400).
Definition Month (loc : Location) (t : Z) : Z := month_of (local loc t / 86400).
Definition Day (loc : Location) (t : Z) : Z := day_of (local loc t / 86400).
Definition Weekday (loc : Location) (t : Z) : Z := (local loc t / 86400 + 4) mod 7.
Definition Hour (loc : Location) (t : Z) : Z := local loc t mod 86400 / 3600.
Definition Minute (loc : Location) (t : Z) : Z := local loc t mod 3600 / 60.
Definition Second (loc : Location) (t : Z) : Z := local loc t mod 60.

(** time.Date: the offset at the time read as UTC, or, if that is not the one
    in force at the instant it gives, the one that is. *)
Definition Date (loc : Location) (y m d h mi s : Z) : Z :=
  let unix := days_of_civil y m d * 86400 + h * 3600 + mi * 60 + s in
  let '(off, start, end_) := lookup loc unix in
  if off =? 0 then unix
  else
    let utc := unix - off in
    unix - (if (utc <? start) || (utc >=? end_) then offset loc utc else off).

Definition AddDate (loc : Location) (t years months days : Z) : Z :=
  Date loc (Year loc t + years) (Month loc t + months) (Day loc t + days) (Hour loc t) (Minute loc t) (Second loc t).

(** A zone of one offset, as UTC is and time.FixedZone makes. *)
Definition fixed (off : Z) : Location := mkLocation (fun _ => (off, - 2 ^ 63, 2 ^ 63 - 1)).
Definition UTC : Location := fixed 0.

(** ** Interval schedules *)

(** The zero time, in nanoseconds. *)
Definition zero_ns : Z := -62135596800 * 1000000000.

(** Truncate to a multiple of [d] since the zero time; not for [d] <= 0. *)
Definition Truncate (t d : Z) : Z := if d <=? 0 then t else t - (t - zero_ns) mod d.
Definition IntervalSchedule_Next (interval t : Z) : Z := Truncate t interval + interval.

(** ** Cron expressions *)

Record CronSchedule : Type := mkCronSchedule {
  cs_spec : string;
  cs_second : Z; cs_minute : Z; cs_hour : Z; cs_dom : Z; cs_month : Z; cs_dow : Z;
  cs_domStar : bool; cs_dowStar : bool;
  cs_loc : Location }.

Definition monthNames : list (string * Z) :=
  [("jan", 1); ("feb", 2); ("mar", 3); ("apr", 4); ("may", 5); ("jun", 6);
   ("jul", 7); ("aug", 8); ("sep", 9); ("oct", 10); ("nov", 11); ("dec", 12)].
Definition dayNames : list (string * Z) :=
  [("sun", 0); ("mon", 1); ("tue", 2); ("wed", 3); ("thu", 4); ("fri", 5); ("sat", 6)].

Definition parseCronValue (s : string) (names : list (string * Z)) : result Z :=
  match List.find (fun nv => String.eqb (fst nv) (lower_text s)) names with
  | Some (_, v) => Ok v
  | None => match atoi s with Some v => Ok v | None => Err (ErrText "invalid value") end
  end.

(** for i := start; i <= end; i += step, in int64 arithmetic; a shift by 64 or
    more, or by a negative count as uint, leaves no bit.  The steps that do
    not overflow visit at most 64 values, and those that do alternate signs. *)
Fixpoint set_bits (fuel : nat) (i end_ step bits : Z) : option Z :=
  if i <=? end_ then
    match fuel with
    | O => None
    | S n => set_bits n (wrap64 (i + step)) end_ step
               (if (0 <=? i) && (i <? 64) then Z.lor bits (Z.shiftl 1 i) else bits)
    end
  else Some bits.
Definition bits_fuel : nat := 200.

(** The bounds and the star of a part before its step. *)
Definition part_range (rangeExpr : string) (hasStep : bool) (lo hi : Z) (names : list (string * Z))
    : result (Z * Z * bool) :=
  if mem_str rangeExpr ["*"; "?"] then Ok (lo, hi, negb hasStep)
  else
    let '(a, b, isRange) := cut "-" rangeExpr in
    match parseCronValue a names with
    | Err e => Err e
    | Ok start =>
        if isRange then
          match parseCronValue b names with
          | Err e => Err e
          | Ok end_ => Ok (start, end_, false)
          end
        else Ok (start, if hasStep then hi else start, false)
    end.

Definition part_step (stepExpr : string) (hasStep : bool) : result Z :=
  if hasStep then
    match atoi stepExpr with
    | Some step => if step <=? 0 then Err (ErrText "invalid step") else Ok step
    | None => Err (ErrText "invalid step")
    end
  else Ok 1.

Fixpoint parse_parts (parts : list string) (lo hi : Z) (names : list (string * Z)) (bits : Z) (star : bool)
    : result (Z * bool) :=
  match parts with
  | [] => Ok (bits, star)
  | part :: rest =>
      let '(rangeExpr, stepExpr, hasStep) := cut "/" part in
      match part_range rangeExpr hasStep lo hi names with
      | Err e => Err e
      | Ok (start, end_, all) =>
          match part_step stepExpr hasStep with
          | Err e => Err e
          | Ok step =>
              if (start <? lo) || (end_ >? hi) || (start >? end_) then Err (ErrText "outside the field's range")
              else match set_bits bits_fuel start end_ step bits with
                   | None => Err ErrFuel
                   | Some bits => parse_parts rest lo hi names bits (star || all)
                   end
          end
      end
  end.

Definition parseCronField (expr : string) (lo hi : Z) (names : list (string * Z)) : result (Z * bool) :=
  if String.eqb expr "" then Err (ErrText "empty field") else parse_parts (split "," expr) lo hi names 0 false.

(** The time zone prefix of an expression. *)
Definition cut_zone (LoadLocation : string -> option Location) (expr : string) : result (Location * string) :=
  match (match cut_prefix "CRON_TZ=" expr with Some r => Some r | None => cut_prefix "TZ=" expr end) with
  | None => Ok (UTC, expr)
  | Some rest =>
      let '(zone, after, found) := cut " " rest in
      if negb found then Err (ErrText "time zone without an expression")
      else match LoadLocation zone with
           | None => Err (ErrText "unknown time zone")
           | Some loc => Ok (loc, trim_space after)
           end
  end.

(** "@every d" is refused too, with another text for a duration that parses. *)
Definition descriptor (expr : string) : result string :=
  if negb (has_prefix "@" expr) then Ok expr
  else if mem_str expr ["@yearly"; "@annually"] then Ok "0 0 1 1 *"
  else if String.eqb expr "@monthly" then Ok "0 0 1 * *"
  else if String.eqb expr "@weekly" then Ok "0 0 * * 0"
  else if mem_str expr ["@daily"; "@midnight"] then Ok "0 0 * * *"
  else if String.eqb expr "@hourly" then Ok "0 * * * *"
  else Err (ErrText "unknown descriptor").

Definition sunday (dow : Z) : Z := if Z.testbit dow 7 then Z.clearbit (Z.lor dow 1) 7 else dow.

Definition ParseCron (LoadLocation : string -> option Location) (spec : string) : result CronSchedule :=
  match cut_zone LoadLocation (trim_space spec) with
  | Err e => Err e
  | Ok (loc, expr) =>
    match descriptor expr with
    | Err e => Err e
    | Ok expr =>
      let fs := fields expr in
      let fs := if Nat.eqb (List.length fs) 5 then "0" :: fs else fs in
      match fs with
      | [f0; f1; f2; f3; f4; f5] =>
        match parseCronField f0 0 59 [], parseCronField f1 0 59 [], parseCronField f2 0 23 [],
              parseCronField f3 1 31 [], parseCronField f4 1 12 monthNames, parseCronField f5 0 7 dayNames with
        | Ok (second, _), Ok (minute, _), Ok (hour, _), Ok (dom, domStar), Ok (month, _), Ok (dow, dowStar) =>
            Ok (mkCronSchedule spec second minute hour dom month (sunday dow) domStar dowStar loc)
        | Err e, _, _, _, _, _ | _, Err e, _, _, _, _ | _, _, Err e, _, _, _ | _, _, _, Err e, _, _
        | _, _, _, _, Err e, _ | _, _, _, _, _, Err e => Err e
        end
      | _ => Err (ErrText "expected 5 or 6 fields")
      end
    end
  end.

(** CronSchedule.In *)
Definition In_ (s : CronSchedule) (loc : Location) : CronSchedule :=
  mkCronSchedule (cs_spec s) (cs_second s) (cs_minute s) (cs_hour s) (cs_dom s) (cs_month s) (cs_dow s)
    (cs_domStar s) (cs_dowStar s) loc.

(** ** The next slot *)

Definition dayMatches (s : CronSchedule) (t : Z) : bool :=
  let dom := Z.testbit (cs_dom s) (Day (cs_loc s) t) in
  let dow := Z.testbit (cs_dow s) (Weekday (cs_loc s) t) in
  if cs_domStar s || cs_dowStar s then dom && dow else dom || dow.

(** What a loop over a field ends in: a field rolled over and the search
    starts again (goto wrap), or the field matches, with whether the lower
    fields have been reset. *)
Inductive outcome : Type := Wrap (t : Z) | Through (t : Z) (reset : bool) | Spent.

(** for !ok(t) { if !reset { t = trunc(t) }; t = next(t); if rolled(t) { goto wrap } } *)
Fixpoint field_loop (fuel : nat) (ok : Z -> bool) (trunc next : Z -> Z) (rolled : Z -> bool) (t : Z) (reset : bool)
    : outcome :=
  if ok t then Through t reset
  else match fuel with
       | O => Spent
       | S n =>
           let t := if reset then t else trunc t in
           let t := next t in
           if rolled t then Wrap t else field_loop n ok trunc next rolled t true
       end.

Definition then_ (o : outcome) (k : Z -> bool -> outcome) : outcome :=
  match o with Through t reset => k t reset | o => o end.

Section Next.
Variable s : CronSchedule.
Let loc := cs_loc s.

Definition month_ok (t : Z) : bool := Z.testbit (cs_month s) (Month loc t).
Definition month_trunc (t : Z) : Z := Date loc (Year loc t) (Month loc t) 1 0 0 0.
Definition month_next (t : Z) : Z := AddDate loc t 0 1 0.
Definition month_rolled (t : Z) : bool := Month loc t =? 1.

Definition day_trunc (t : Z) : Z := Date loc (Year loc t) (Month loc t) (Day loc t) 0 0 0.
(** A DST change can leave the wall clock off midnight. *)
Definition day_next (t : Z) : Z :=
  let t := AddDate loc t 0 0 1 in
  if Hour loc t =? 0 then t else day_trunc t.
Definition day_rolled (t : Z) : bool := Day loc t =? 1.

Definition hour_ok (t : Z) : bool := Z.testbit (cs_hour s) (Hour loc t).
Definition hour_trunc (t : Z) : Z := t - (Minute loc t * 60 + Second loc t).
Definition hour_rolled (t : Z) : bool := Hour loc t =? 0.

Definition minute_ok (t : Z) : bool := Z.testbit (cs_minute s) (Minute loc t).
Definition minute_trunc (t : Z) : Z := t - Second loc t.
Definition minute_rolled (t : Z) : bool := Minute loc t =? 0.

Definition second_ok (t : Z) : bool := Z.testbit (cs_second s) (Second loc t).
Definition second_rolled (t : Z) : bool := Second loc t =? 0.

(** A field has at most 60 values. *)
Definition loop_fuel : nat := 60.
Definition months := field_loop loop_fuel month_ok month_trunc month_next month_rolled.
Definition days := field_loop loop_fuel (dayMatches s) day_trunc day_next day_rolled.
Definition hours := field_loop loop_fuel hour_ok hour_trunc (Z.add 3600) hour_rolled.
Definition minutes := field_loop loop_fuel minute_ok minute_trunc (Z.add 60) minute_rolled.
Definition seconds := field_loop loop_fuel second_ok (fun t => t) (Z.add 1) second_rolled.

Definition pass (t : Z) : outcome :=
  then_ (months t false) (fun t r => then_ (days t r) (fun t r => then_ (hours t r) (fun t r =>
    then_ (minutes t r) seconds))).

Inductive slot_result : Type := Slot (t : Z) | NoSlot | OutOfFuel.

Fixpoint next_from (fuel : nat) (yearLimit t : Z) : slot_result :=
  if Year loc t >? yearLimit then NoSlot
  else match pass t with
       | Through t _ => Slot t
       | Spent => OutOfFuel
       | Wrap t => match fuel with O => OutOfFuel | S n => next_from n yearLimit t end
       end.

(** A pass that wraps moves to a later minute, and the search ends with the
    fifth year after the one it starts in. *)
Definition next_fuel : nat := Z.to_nat (6 * 366 * 1440).

(** Next of a time in nanoseconds. *)
Definition CronSchedule_Next (t : Z) : slot_result :=
  let t := t / 1000000000 + 1 in
  next_from next_fuel (Year loc t + 5) t.
End Next.
