(* ===== verification/Codec.v ===== *)
(** * The encoded columns of a job row (driver/internal/jobcodec)

    Errors, logs, tags, workflow steps and edges as JSON texts, the checks on a
    finalize's results, and the checks on a workflow's edges. *)

From Stdlib Require Import List ZArith Lia Bool String Ascii.
From stdpp Require Import base tactics list.
From S2P Require Import Prelude Sql Text Json Calendar Types JobTags Store JobId.
Import ListNotations.
Local Open Scope string_scope.
Local Open Scope Z_scope.

Definition StorableText (s : string) : string := replace_nul (to_valid_utf8 s).

(** An object of the members given, a member tagged omitempty left out when it
    is empty. *)
Definition record (l : list (string * option json)) : json :=
  JObj (List.flat_map (fun kv => match snd kv with Some v => [(fst kv, v)] | None => [] end) l).
Definition omit_empty (s : string) : option json := if String.eqb s "" then None else Some (jstring s).
Definition omit_zero (z : Z) : option json := if z =? 0 then None else Some (jint z).
Definition omit_false (b : bool) : option json := if b then Some (JBool true) else None.

Definition MarshalAttemptError (e : AttemptError) : json :=
  record [("attempt", Some (jint (ae_Attempt e))); ("fence", omit_zero (ae_Fence e));
          ("error", Some (jstring (StorableText (ae_Error e)))); ("trace", omit_empty (StorableText (ae_Trace e)));
          ("rescue", omit_empty (rescue_text (ae_Rescue e)))].

Definition finalize_state (s : JobState) : bool :=
  match s with Completed | Canceled | Discarded | Retryable | Scheduled => true | _ => false end.

Definition CheckFinalize (f : JobFinalize) : result unit :=
  if negb (finalize_state (f_State f)) then Err (ErrText "not a finalize state")
  else if f_GiveBack f && f_Snooze f then Err (ErrText "a result both snoozes and gives its attempt back")
  else if f_GiveBack f && Terminal (f_State f) then Err (ErrText "a final result gives its attempt back")
  else Ok tt.

Definition MarshalAttemptLog (f : JobFinalize) : option json :=
  match f_Log f with
  | None => None
  | Some l =>
      if negb (KeepsLog f) then None
      else Some (record [("attempt", Some (jint (al_Attempt l))); ("snoozed", omit_false (f_Snooze f));
                         ("interrupted", omit_false (f_GiveBack f)); ("log", Some (jstring (StorableText (al_Log l))))])
  end.

(** DecodeTags: the non-empty strings of an array, without repeats. *)
Definition tag_of (j : json) : list string :=
  match j with
  | JStr l => let s := unquote l in if String.eqb s "" then [] else [s]
  | _ => []
  end.
Definition DecodeTags (stored : string) : list string :=
  if String.eqb stored "" then [] else Distinct (List.flat_map tag_of (array_or_nil stored)).

(** tagsJSON: a job's tags column, NULL for none. *)
Definition tagsJSON (tags : list string) : option string :=
  match tags with [] => None | _ => Some (json_print (JArr (List.map jstring tags))) end.

(** ** Workflow steps *)

Fixpoint steps_loop (steps : list string) (ids : list JobID) (seen : list string)
    (named : list (string * json)) : result (list (string * json)) :=
  match steps, ids with
  | s :: steps', id :: ids' =>
      if String.eqb s "" then steps_loop steps' ids' seen named
      else if mem_str s seen then Err (ErrText "step name is used twice")
      else steps_loop steps' ids' (s :: seen) (smap_set (JobID_String id) (jstring s) named)
  | _, _ => Ok named
  end.

Definition StepsJSON (steps : list string) (ids : list JobID) : result (option string) :=
  match steps with
  | [] => Ok None
  | _ =>
      if negb (Nat.eqb (List.length steps) (List.length ids)) then Err (ErrText "step names for another number of jobs")
      else match steps_loop steps ids [] [] with
           | Err e => Err e
           | Ok [] => Ok None
           | Ok named => Ok (Some (json_print (object_of named)))
           end
  end.

(** ** Workflow edges *)

Definition EdgePolicy (d : JobDependency) : string :=
  let policy := match jd_OnFailure d with DependencyDefault => DependencyCancel | p => p end in
  if negb (jd_AnyOf d =? 0) then "any_" ++ failure_text policy else failure_text policy.

Definition edge_ok (n : Z) (d : JobDependency) : bool :=
  negb ((jd_Job d <? 0) || (jd_Job d >=? n) || (jd_DependsOn d <? 0) || (jd_DependsOn d >=? n)
        || (jd_Job d =? jd_DependsOn d)).
Definition group_ok (d : JobDependency) : bool := negb ((jd_AnyOf d <? 0) || (jd_AnyOf d >? 32767)).

(** The first loop: every edge in range, and the jobs with dependencies. *)
Fixpoint mark_pending (deps : list JobDependency) (n : Z) (pending : list bool) : result (list bool) :=
  match deps with
  | [] => Ok pending
  | d :: rest =>
      if negb (edge_ok n d) then Err (ErrText "dependency is out of range")
      else if negb (group_ok d) then Err (ErrText "any-of group is out of range")
      else mark_pending rest n (<[Z.to_nat (jd_Job d) := true]> pending)
  end.

(** The second loop, over maps keyed by pairs: an edge given twice is in the
    same group, and a group's edges have one policy. *)
Fixpoint pair_get {A} (k : Z * Z) (m : list (Z * Z * A)) : option A :=
  match m with
  | [] => None
  | (k', v) :: m' => if (fst k =? fst k') && (snd k =? snd k') then Some v else pair_get k m'
  end.

Fixpoint check_groups (deps : list JobDependency) (groups : list (Z * Z * Z)) (policies : list (Z * Z * string))
    : result unit :=
  match deps with
  | [] => Ok tt
  | d :: rest =>
      let pair := (jd_Job d, jd_DependsOn d) in
      if match pair_get pair groups with Some g => negb (g =? jd_AnyOf d) | None => false end
      then Err (ErrText "dependency is given in two any-of groups, or in one and as an ordinary edge")
      else
        let groups' := (pair, jd_AnyOf d) :: groups in
        if jd_AnyOf d =? 0 then check_groups rest groups' policies
        else
          let group := (jd_Job d, jd_AnyOf d) in
          let policy := EdgePolicy d in
          if match pair_get group policies with Some p => negb (String.eqb p policy) | None => false end
          then Err (ErrText "any-of group has edges with different OnFailure")
          else check_groups rest groups' ((group, policy) :: policies)
  end.

Definition CheckDependencies (deps : list JobDependency) (n : Z) : result (list bool) :=
  match mark_pending deps n (List.repeat false (Z.to_nat n)) with
  | Err e => Err e
  | Ok pending =>
      if existsb (fun d => negb (jd_AnyOf d =? 0)) deps
      then match check_groups deps [] [] with Err e => Err e | Ok _ => Ok pending end
      else Ok pending
  end.

(** EdgesJSON: a pair of job IDs per edge, the dependent's first, and its group. *)
Definition id_at (ids : list JobID) (i : Z) : JobID := List.nth (Z.to_nat i) ids 0.
Definition edge_texts (ids : list JobID) (d : JobDependency) : list string :=
  ([JobID_String (id_at ids (jd_Job d)); JobID_String (id_at ids (jd_DependsOn d))]
   ++ if negb (jd_AnyOf d =? 0) then [itoa (jd_AnyOf d)] else [])%list.
Definition EdgesJSON (deps : list JobDependency) (ids : list JobID) : string :=
  json_print (JArr (List.map (fun d => JArr (List.map jstring (edge_texts ids d))) deps)).

(** ** Facts the engine relies on *)

(** An any-of edge never stores the policies of ordinary edges, which cancel
    or release a dependent for one job. *)
Lemma EdgePolicy_any d : jd_AnyOf d <> 0 -> EdgePolicy d <> "cancel" /\ EdgePolicy d <> "ignore".
Proof.
  intros H. unfold EdgePolicy. apply Z.eqb_neq in H. rewrite H. simpl.
  destruct (jd_OnFailure d); split; discriminate.
Qed.

Lemma mark_pending_length deps n pending out :
  mark_pending deps n pending = Ok out -> List.length out = List.length pending.
Proof.
  revert pending. induction deps as [|d deps IH]; simpl; intros pending.
  - now intros [= <-].
  - destruct (negb (edge_ok n d)); [discriminate|]. destruct (negb (group_ok d)); [discriminate|].
    intros H. apply IH in H. now rewrite length_insert in H.
Qed.

Lemma mark_pending_spec deps n pending out i :
  mark_pending deps n pending = Ok out -> (i < List.length pending)%nat ->
  (out !! i = Some true <-> pending !! i = Some true \/ exists d, In d deps /\ Z.to_nat (jd_Job d) = i)
  /\ Forall (fun d => edge_ok n d = true) deps.
Proof.
  revert pending. induction deps as [|d deps IH]; simpl; intros pending.
  - intros [= <-] Hi. split; [|constructor]. split; [auto|]. intros [?|(d & [] & _)]. done.
  - destruct (edge_ok n d) eqn:Ee; simpl; [|discriminate]. destruct (negb (group_ok d)); [discriminate|].
    intros H Hi. destruct (IH (<[Z.to_nat (jd_Job d):=true]> pending) H) as [IH1 IH2];
      [now rewrite length_insert|]. split; [|now constructor].
    rewrite IH1. destruct (decide (Z.to_nat (jd_Job d) = i)) as [<-|Hne].
    + rewrite list_lookup_insert_eq by done. naive_solver.
    + rewrite list_lookup_insert_ne by done. naive_solver.
Qed.

(** CheckDependencies accepts a workflow's edges only if each is between two
    different jobs of the workflow, and reports as pending exactly the jobs
    with a dependency. *)
Theorem CheckDependencies_pending deps n pending :
  CheckDependencies deps n = Ok pending ->
  List.length pending = Z.to_nat n
  /\ Forall (fun d => 0 <= jd_Job d < n /\ 0 <= jd_DependsOn d < n /\ jd_Job d <> jd_DependsOn d) deps
  /\ forall i, (i < Z.to_nat n)%nat ->
       (pending !! i = Some true <-> exists d, In d deps /\ jd_Job d = Z.of_nat i).
Proof.
  unfold CheckDependencies. intros H.
  destruct (mark_pending deps n (List.repeat false (Z.to_nat n))) as [out|e] eqn:E; [|discriminate].
  assert (out = pending) as ->.
  { destruct (existsb _ deps); [destruct (check_groups deps [] [])|]; congruence. }
  pose proof (mark_pending_length _ _ _ _ E) as Hl. rewrite repeat_length in Hl. split; [done|].
  assert (Forall (fun d => 0 <= jd_Job d < n /\ 0 <= jd_DependsOn d < n /\ jd_Job d <> jd_DependsOn d) deps) as Hf.
  { assert (Forall (fun d => edge_ok n d = true) deps) as He.
    { clear H Hl. revert E. generalize (List.repeat false (Z.to_nat n)). intros p Hp. revert p Hp.
      induction deps as [|d deps IH]; simpl; intros p Hp; [constructor|].
      destruct (edge_ok n d) eqn:Ee; simpl in Hp; [|discriminate].
      destruct (negb (group_ok d)); [discriminate|]. constructor; eauto. }
    eapply List.Forall_impl; [|exact He]. intros d Hd. unfold edge_ok in Hd. breflect.
    rewrite Z.geb_leb in *. breflect. lia. }
  split; [done|]. intros i Hi.
  edestruct (mark_pending_spec _ _ _ _ i E) as [Hs _]; [now rewrite repeat_length|].
  rewrite Hs. clear Hs. split.
  - intros [Hr|(d & Hd & Hj)].
    + apply list_elem_of_lookup_2, list_elem_of_In, repeat_spec in Hr. discriminate.
    + exists d. split; [done|]. rewrite List.Forall_forall in Hf. specialize (Hf d Hd). lia.
  - intros (d & Hd & Hj). right. exists d. split; [done|]. lia.
Qed.

Lemma CheckDependencies_pending_witness :
  let deps := [mkJobDependency 1 0 DependencyDefault true 0; mkJobDependency 2 1 DependencyIgnore false 1] in
  exists pending, CheckDependencies deps 3 = Ok pending /\ List.length pending = Z.to_nat 3.
Proof.
  eexists. split; [vm_compute; reflexivity|].
  eapply (CheckDependencies_pending [mkJobDependency 1 0 DependencyDefault true 0; mkJobDependency 2 1 DependencyIgnore false 1] 3).
  vm_compute. reflexivity.
Defined.
