(* ===== verification/Insert.v ===== *)
(** * Inserting jobs (driver/hoppersqlite/jobs.go) and counting batches down (finalize.go)

    encodeInsert, insertJob, insertJobs with unique keys and their conflicts,
    JobInsertMany; and countBatch, which counts finished jobs down in their
    batch and, when nothing remains, completes it and inserts its callbacks. *)

From Stdlib Require Import List ZArith Lia Bool String Ascii.
From stdpp Require Import base tactics list.
From S2P Require Import Prelude Sql Text Json JsonCheck Types JobTags Store JobId Codec Float64.
Import ListNotations.
Local Open Scope string_scope.
Local Open Scope Z_scope.

(** A job to insert, its values encoded. *)
Record jobInsert : Type := mkJobInsert {
  i_kind : string;
  i_queue : string;
  i_priority : Z;
  i_maxAttempts : Z;
  i_scheduledAt : option Z;        (* nanoseconds *)
  i_args : string;
  i_metadata : string;
  i_tags : list string;
  i_uniqueKey : string;
  i_uniqueFinished : list JobState;
  i_orderingKey : string;
  i_partitionKey : string;
  i_batchID : JobID;
  i_ttl : Z;
  i_await : bool;
  i_pending : bool;
  i_id : JobID }.

#[export] Instance settable_jobInsert : Settable jobInsert := fun j =>
  mkJobInsert (i_kind j) (i_queue j) (i_priority j) (i_maxAttempts j) (i_scheduledAt j) (i_args j) (i_metadata j)
    (i_tags j) (i_uniqueKey j) (i_uniqueFinished j) (i_orderingKey j) (i_partitionKey j) (i_batchID j) (i_ttl j)
    (i_await j) (i_pending j) (i_id j).

Definition encodeInsert (p : JobInsertParams) : result jobInsert :=
  match smallint (ip_Priority p) "priority" with
  | Err e => Err e
  | Ok priority =>
    match smallint (ip_MaxAttempts p) "max_attempts" with
    | Err e => Err e
    | Ok maxAttempts =>
      match jsonValue (ip_Args p) "{}" "args" with
      | Err e => Err e
      | Ok args =>
        match jsonValue (ip_Metadata p) "{}" "metadata" with
        | Err e => Err e
        | Ok metadata =>
            Ok (mkJobInsert (ip_Kind p) (ip_Queue p) priority maxAttempts (ip_ScheduledAt p) args metadata (ip_Tags p)
                  (ip_UniqueKey p) (ip_UniqueFinished p) (ip_OrderingKey p) (ip_PartitionKey p) (ip_BatchID p)
                  (ip_TTL p) (ip_Await p) false 0)
        end
      end
    end
  end.

(** When a job runs: its time, or now; and whether that is ahead. *)
Definition scheduled_us (at_ns : option Z) (now : Z) : Z := match at_ns with Some t => t / 1000 | None => now end.
Definition ahead (at_ns : option Z) (now : Z) : bool := match at_ns with Some t => now * 1000 <? t | None => false end.

(** insertJob: pending, or scheduled if its time is ahead, or available. *)
Definition new_row (seq : Z) (id : JobID) (now : Z) (expires : option Z) (j : jobInsert) : JobRow :=
  {| j_seq := seq; j_ID := id; j_Kind := i_kind j; j_Queue := i_queue j;
     j_State := if i_pending j then Pending else if ahead (i_scheduledAt j) now then Scheduled else Available;
     j_Priority := i_priority j; j_Attempt := 0; j_MaxAttempts := i_maxAttempts j;
     j_ScheduledAt := scheduled_us (i_scheduledAt j) now; j_AttemptedAt := None; j_AttemptedBy := None; j_Fence := 0;
     j_Args := i_args j; j_Metadata := i_metadata j; j_Errors := "[]";
     j_UniqueKey := nullable (i_uniqueKey j); j_OrderingKey := nullable (i_orderingKey j);
     j_PartitionKey := nullable (i_partitionKey j); j_Tags := tagsJSON (i_tags j); j_BatchID := nullableID (i_batchID j);
     j_ExpiresAt := expires; j_CancelRequestedAt := None; j_Await := i_await j; j_CreatedAt := now;
     j_SnoozeReason := None; j_WakeRequestedAt := None; j_Progress := None; j_Logs := None |}.

Definition insertJob (j : jobInsert) : W JobRow :=
  let* now := us in
  let* exp := at_ (i_ttl j) in
  let expires := if i_ttl j >? 0 then Some exp else None in
  let* id := (if IsZero (i_id j) then newID else ret (i_id j)) in
  insert_row (fun seq => new_row seq id now expires j).

Definition distinctQueues (jobs : list jobInsert) : list string :=
  List.fold_left (fun out j => if mem_str (i_queue j) out then out else (out ++ [i_queue j])%list) jobs [].

(** ** Batches *)

(** A completed batch's callback: what insertCallback decodes. *)
Record callback : Type := mkCallback {
  cb_Kind : string; cb_Queue : string; cb_Priority : option string; cb_MaxAttempts : option string;
  cb_Args : option json; cb_Metadata : option json; cb_Tags : option json }.

Definition string_field (m : list (string * json)) (k : string) : result string :=
  match smap_get k m with
  | Some (JStr l) => Ok (unquote l)
  | None | Some JNull => Ok ""
  | _ => Err (ErrText "cannot unmarshal into a string")
  end.
Definition number_field (m : list (string * json)) (k : string) : result (option string) :=
  match smap_get k m with
  | Some (JNum l) => Ok (Some l)
  | None | Some JNull => Ok None
  | _ => Err (ErrText "cannot unmarshal into a number")
  end.

Definition decode_callback (stored : string) : result callback :=
  match parse_value (S (String.length stored)) stored with
  | Some (JObj mm, _) =>
      let m := members_of mm in
      match string_field m "kind", string_field m "queue", number_field m "priority", number_field m "max_attempts" with
      | Ok kind, Ok queue, Ok priority, Ok attempts =>
          Ok (mkCallback kind queue priority attempts (smap_get "args" m) (smap_get "metadata" m) (smap_get "tags" m))
      | _, _, _, _ => Err (ErrText "cannot unmarshal the callback")
      end
  | Some (JNull, _) => Ok (mkCallback "" "" None None None None None)
  | _ => Err (ErrText "cannot unmarshal the callback")
  end.

Definition clamp (n : option string) (def lo hi : Z) : Z :=
  let v := match n with
           | Some l => match parse_float l with Some v => f_round v | None => def end
           | None => def
           end in
  Z.min (Z.max v lo) hi.

Definition insertCallback (stored : string) (batch : JobID) (failed : Z) : W unit :=
  let* cb := lift (decode_callback stored) in
  let queue := if String.eqb (cb_Queue cb) "" then "default" else cb_Queue cb in
  let args := match cb_Args cb with
              | None | Some JNull => "{}"
              | Some j => json_print j
              end in
  let* meta := match cb_Metadata cb with
               | Some JNull => fail (ErrPanic "assignment to entry in nil map")
               | Some (JObj mm) => ret (members_of mm)
               | _ => ret []
               end in
  let meta := smap_set "batch_failed" (jint failed) (smap_set "batch_id" (jstring (JobID_String batch)) meta) in
  let tags := List.filter (fun t => slen t <=? MaxBytes)
                (DecodeTags (match cb_Tags cb with Some j => json_print j | None => "" end)) in
  insertJob (mkJobInsert (cb_Kind cb) queue (clamp (cb_Priority cb) 2 1 4) (clamp (cb_MaxAttempts cb) 25 1 32767)
               None args (json_print (object_of meta)) tags "" [] "" "" 0 0 false false 0) ;;
  notify ChannelInsert [queue].

Definition batch_is (id : JobID) (b : BatchRow) : bool := b_id b =? id.

(** countBatch: a batch that has completed counts nothing more. *)
Definition countBatch (id : JobID) (n failed : Z) : W unit :=
  let* row := get (fun d => one (batch_is id) (db_batches d)) in
  match row with
  | None => ret tt
  | Some b =>
      if not_null (b_completed_at b) then ret tt
      else
        let pending := b_pending b - n in
        let failed := failed + b_failed b in
        if pending >? 0 then
          modify (fun d => d <| db_batches ::= upd (batch_is id) (fun b => b <| b_pending := pending |> <| b_failed := failed |>) |>)
        else
          let* now := us in
          modify (fun d => d <| db_batches ::= upd (batch_is id)
            (fun b => b <| b_pending := 0 |> <| b_failed := failed |> <| b_completed_at := Some now |>) |>) ;;
          (if b_reads b
           then modify (fun d => d <| db_results ::= del (fun r => r_batch_id r =? id) |>)
           else ret tt) ;;
          let outcome := if failed >? 0 then b_on_failure b else b_on_success b in
          iterM (fun cb => match cb with Some s => insertCallback s id failed | None => ret tt end)
            [outcome; b_on_complete b]
  end.

(** ** Unique keys *)

(** The SET list of a replacing insert. *)
Definition replace_row (j : jobInsert) (now : Z) (r : JobRow) : JobRow :=
  r <| j_Args := i_args j |> <| j_Metadata := i_metadata j |> <| j_Tags := tagsJSON (i_tags j) |>
    <| j_Priority := i_priority j |> <| j_MaxAttempts := i_maxAttempts j |>
    <| j_ScheduledAt := scheduled_us (i_scheduledAt j) now |>
    <| j_State := if ahead (i_scheduledAt j) now then Scheduled else Available |>
    <| j_Progress := None |> <| j_SnoozeReason := None |>.

Definition id_is (id : JobID) (r : JobRow) : bool := j_ID r =? id.

(** kind = ? AND unique_key = ? *)
Definition unique_is (kind key : string) (r : JobRow) : bool :=
  String.eqb (j_Kind r) kind && null_eq String.eqb (j_UniqueKey r) (Some key).

(** finishedDuplicate: ORDER BY finalized_at DESC, seq DESC LIMIT 1 *)
Definition later_finished (a b : HistoryRow) : bool :=
  if h_FinalizedAt a =? h_FinalizedAt b then j_seq (h_job b) <=? j_seq (h_job a)
  else h_FinalizedAt b <? h_FinalizedAt a.
Definition finishedDuplicate (j : jobInsert) : W (option HistoryRow) :=
  get (fun d => hd_error (order_by later_finished
    (sel (fun h => unique_is (i_kind j) (i_uniqueKey j) (h_job h)
                   && existsb (state_eqb (j_State (h_job h))) (i_uniqueFinished j)) (db_history d)))).

(** One input of insertJobs. *)
Definition insertOne (onConflict : ConflictAction) (j : jobInsert) : W JobInsertResult :=
  let insert := (let* job := insertJob j in ret (mkJobInsertResult (live_view job) false)) in
  if String.eqb (i_uniqueKey j) "" then insert
  else
    let* dup := get (fun d => one (unique_is (i_kind j) (i_uniqueKey j)) (db_jobs d)) in
    match dup with
    | Some r =>
        match onConflict with
        | ConflictReplace =>
            if negb (is_running r) then
              let* now := us in
              exec_jobs (upd (id_is (j_ID r)) (replace_row j now)) ;;
              ret (mkJobInsertResult (live_view (replace_row j now r)) true)
            else ret (mkJobInsertResult (live_view r) true)
        | ConflictSkip => ret (mkJobInsertResult (live_view r) true)
        end
    | None =>
        match i_uniqueFinished j with
        | [] => insert
        | _ =>
            let* found := finishedDuplicate j in
            match found with
            | Some h =>
                (if IsZero (i_batchID j) then ret tt
                 else countBatch (i_batchID j) 1 (if state_eqb (j_State (h_job h)) Completed then 0 else 1)) ;;
                ret (mkJobInsertResult (history_view h) true)
            | None => insert
            end
        end
    end.

Definition insertJobs (jobs : list jobInsert) (onConflict : ConflictAction) : W (list JobInsertResult) :=
  mapM (insertOne onConflict) jobs.

Fixpoint encode_all (ps : list JobInsertParams) : result (list jobInsert) :=
  match ps with
  | [] => Ok []
  | p :: rest =>
      match encodeInsert p with
      | Err e => Err e
      | Ok j => match encode_all rest with Err e => Err e | Ok js => Ok (j :: js) end
      end
  end.

Definition JobInsertMany (params : list JobInsertParams) (opts : JobInsertOpts) (x : w) (d : DB)
    : result (list JobInsertResult) * DB :=
  match params with
  | [] => (Ok [], d)
  | _ =>
      match encode_all params with
      | Err e => (Err e, d)
      | Ok jobs =>
          write (let* results := insertJobs jobs (io_OnConflict opts) in
                 (if io_Notify opts then notify ChannelInsert (distinctQueues jobs) else ret tt) ;;
                 ret results) x d
      end
  end.
