(* ===== verification/Finalize.v ===== *)
(** * Finalizing jobs (driver/hoppersqlite/finalize.go)

    A job leaves the live table with [finish]; [tail] does what finished jobs
    entail in the same write: canceling the dependents of failed ones down the
    graph, counting the jobs down in their batches, promoting the dependents
    whose dependencies have all finished and dropping the finished jobs' edges.
    [JobFinalizeMany] applies the results of attempts, each fenced by its claim. *)

From Stdlib Require Import List ZArith Lia Bool String Ascii.
From stdpp Require Import base tactics list gmap sets.
From S2P Require Import Prelude Sql Text Json JsonCheck Calendar Types JobTags Store JobId Codec Insert.
Import ListNotations.
Local Open Scope string_scope.
Local Open Scope Z_scope.

(** ** Errors and logs *)

(** liveRow: a live job's row, if the job is live. *)
Definition liveRow (id : JobID) : W (option JobRow) := get (fun d => one (id_is id) (db_jobs d)).

Definition appendJSON (stored : string) (elem : json) : string :=
  json_print (JArr (array_or_nil stored ++ [elem])%list).

Definition withErrorAt (stored : string) (e : AttemptError) (now : Z) : string :=
  let rec_ := match MarshalAttemptError e with JObj m => members_of m | _ => [] end in
  appendJSON stored (object_of (smap_set "at" (jstring (rfc3339_micros now)) rec_)).

(** hopperError: a snoozed job's reason is kept in the error. *)
Definition hopperError (r : JobRow) (message : string) (now : Z) : string :=
  let message := if state_eqb (j_State r) Scheduled && not_null (j_SnoozeReason r)
                 then message ++ " while snoozed: " ++ textOf (j_SnoozeReason r) else message in
  withErrorAt (j_Errors r) (mkAttemptError (j_Attempt r) 0 message "" RescueNone) now.

Definition keepLogs (keep : Z) : Z := if keep <=? 0 then 2147483647 else keep.

(** An entry of a job's logs that a snooze of this attempt number left. *)
Definition sameSnooze (attempt : Z) (raw : json) : bool :=
  match as_object raw with
  | None => false
  | Some e =>
      not_null (smap_get "snoozed" e) &&
      match smap_get "attempt" e with
      | Some (JNum l) => String.eqb l (itoa attempt)
      | Some (JStr l) =>
          match scan_num (unquote l) with
          | Some (_, EmptyString) => String.eqb (unquote l) (itoa attempt)
          | _ => false
          end
      | _ => false
      end
  end.

Definition last_n {A} (keep : Z) (l : list A) : list A :=
  if Z.of_nat (List.length l) >? keep then List.skipn (List.length l - Z.to_nat keep)%nat l else l.

Definition appendLog (stored : option string) (attempt : Z) (snooze : bool) (log : option json) (keep : Z)
    : option string :=
  let entries := match stored with Some s => array_or_nil s | None => [] end in
  let replaces := snooze && existsb (sameSnooze attempt) entries in
  if is_null log && negb replaces then stored
  else
    let kept := List.filter (fun e => negb snooze || negb (sameSnooze attempt e)) entries in
    let kept := match log with Some l => (kept ++ [l])%list | None => kept end in
    match last_n keep kept with
    | [] => None
    | l => Some (json_print (JArr l))
    end.

(** ** Finished jobs *)

Record finished : Type := mkFinished {
  fin_row : JobRow;
  fin_state : JobState;
  fin_errors : string;
  fin_logs : option string;
  fin_output : option string;
  fin_archive : bool }.

Definition failed (f : finished) : bool := negb (state_eqb (fin_state f) Completed).

(** finished.jobRow *)
Definition finished_jobRow (f : finished) (now : Z) : JobView :=
  mkJobView ((fin_row f) <| j_State := fin_state f |> <| j_SnoozeReason := None |> <| j_Errors := fin_errors f |>)
    (Some now) (fin_output f) None [].

Definition next_rowid (t : list HistoryRow) : Z := List.fold_left (fun m h => Z.max m (h_rowid h)) t 0 + 1.

(** archiveSQL: the live row copied to history with its final state, errors,
    logs, finalization time and output; history's CHECKs on state and tags. *)
Definition archive_row (rowid : Z) (r : JobRow) (f : finished) (now : Z) : HistoryRow :=
  mkHistoryRow rowid
    (r <| j_State := fin_state f |> <| j_Errors := fin_errors f |> <| j_Logs := fin_logs f |>
       <| j_SnoozeReason := None |> <| j_WakeRequestedAt := None |>)
    now (fin_output f).
Definition archive (f : finished) : W unit := fun x d =>
  match one (id_is (j_ID (fin_row f))) (db_jobs d) with
  | None => Ok (tt, d)
  | Some r =>
      if Terminal (fin_state f) && tags_ok (j_Tags r)
      then Ok (tt, d <| db_history ::= (fun h => (h ++ [archive_row (next_rowid h) r f (w_now x)])%list) |>)
      else Err ErrConstraint
  end.

Definition finish (f : finished) : W unit :=
  let id := j_ID (fin_row f) in
  (if fin_archive f then archive f else ret tt) ;;
  exec_jobs (del (id_is id)) ;;
  (if j_Await (fin_row f) then notify ChannelDone [JobID_String id] else ret tt).

(** ** Dependents *)

Definition live_id (d : DB) (id : JobID) : bool := ex (id_is id) (db_jobs d).
Definition depends_on_is (id : JobID) (e : DepRow) : bool := d_depends_on e =? id.

Definition upsert_result (r : ResultRow) (t : list ResultRow) : list ResultRow :=
  (del (fun o => (r_batch_id o =? r_batch_id r) && (r_job_id o =? r_job_id r)) t ++ [r])%list.

(** recordResult: the final state of a job with a dependent that reads it or
    has it in an any-of group, and its dependents. *)
Definition recordResult (f : finished) : W (list JobID) :=
  let* deps := get (fun d => sel (depends_on_is (j_ID (fin_row f))) (db_deps d)) in
  let ids := List.map d_job_id deps in
  let read := existsb d_reads deps in
  let record := existsb (fun e => d_reads e || not_null (d_any_of e)) deps in
  let batch := idOf (j_BatchID (fin_row f)) in
  if negb record || IsZero batch then ret ids
  else
    let* now := us in
    modify (fun d => d <| db_results ::= upsert_result
      (mkResultRow (j_ID (fin_row f)) batch (fin_state f) (if read then fin_output f else None) now) |>) ;;
    ret ids.

(** cancelDependent *)
Definition cancelDependent (row : JobRow) : W finished :=
  let* now := us in
  let f := mkFinished row Canceled (hopperError row "hopper: dependency failed" now) (j_Logs row) None true in
  finish f ;; ret f.

(** anyOfSatisfiedSQL: a job of a group of a dependent in [batch] that has
    completed: gone from the live table, with no result but completed. *)
Definition anyOfSatisfied (d : DB) (batch : option JobID) (s : DepRow) : bool :=
  negb (live_id d (d_depends_on s))
  && negb (ex (fun r => null_eq Z.eqb (Some (r_batch_id r)) batch && (r_job_id r =? d_depends_on s)
                        && negb (state_eqb (r_state r) Completed)) (db_results d)).

Definition same_group (g s : DepRow) : bool := (d_job_id s =? d_job_id g) && null_eq Z.eqb (d_any_of s) (d_any_of g).

(** anyOfExhausted: none of the group's jobs is live or has completed. *)
Definition anyOfExhausted (d : DB) (edge : DepRow) (batch : option JobID) : bool :=
  negb (ex (fun s => same_group edge s && (live_id d (d_depends_on s) || anyOfSatisfied d batch s)) (db_deps d)).

(** anyOfReadySQL: none of the job's any-of groups holds it. *)
Definition anyOfReady (d : DB) (j : JobRow) : bool :=
  negb (ex (fun g => (d_job_id g =? j_ID j) && not_null (d_any_of g)
                     && (String.eqb (d_on_failure g) "any_cancel" || live_id d (d_depends_on g))
                     && negb (ex (fun s => same_group g s && anyOfSatisfied d (j_BatchID j) s) (db_deps d))) (db_deps d)).

(** anyOfCancelSQL: an exhausted group whose policy is any_cancel holds the job. *)
Definition anyOfCancel (d : DB) (j : JobRow) : bool :=
  ex (fun g => (d_job_id g =? j_ID j) && String.eqb (d_on_failure g) "any_cancel"
               && anyOfExhausted d g (j_BatchID j)) (db_deps d).

(** promoteIfReady: a pending job none of whose ordinary dependencies is live
    and none of whose any-of groups holds it becomes claimable. *)
Definition no_live_dependency (d : DB) (id : JobID) : bool :=
  negb (ex (fun e => (d_job_id e =? id) && is_null (d_any_of e) && live_id d (d_depends_on e)) (db_deps d)).
Definition ready (d : DB) (j : JobRow) : bool :=
  state_eqb (j_State j) Pending && no_live_dependency d (j_ID j) && anyOfReady d j.
Definition promote_row (now : Z) (j : JobRow) : JobRow :=
  j <| j_State := if j_ScheduledAt j >? now then Scheduled else Available |>.

Definition promoteIfReady (id : JobID) : W bool :=
  let* row := get (fun d => one (fun j => id_is id j && ready d j) (db_jobs d)) in
  match row with
  | None => ret false
  | Some j =>
      let* now := us in
      exec_jobs (upd (id_is id) (promote_row now)) ;;
      notify ChannelInsert [j_Queue j] ;;
      ret true
  end.

(** ** The tail *)

Record step : Type := mkStep { st_id : JobID; st_batch : JobID; st_failed : bool }.

(** What the walk down the graph carries: its queue, the dependents it has
    seen and canceled, and the finished jobs with their dependents. *)
Record cascade : Type := mkCascade {
  ca_queue : list step;
  ca_seen : gset JobID;
  ca_canceled : gset JobID;
  ca_done : list finished;
  ca_dependents : list (list JobID) }.

#[export] Instance settable_cascade : Settable cascade := fun c =>
  mkCascade (ca_queue c) (ca_seen c) (ca_canceled c) (ca_done c) (ca_dependents c).

(** The dependents a step reaches: by cancel edges, and from a failed job by
    the edges of an any-of group it exhausted. *)
Definition reached (d : DB) (from : step) : list JobID :=
  List.map d_job_id (sel (fun e =>
    depends_on_is (st_id from) e
    && (String.eqb (d_on_failure e) "cancel"
        || st_failed from && String.eqb (d_on_failure e) "any_cancel" && anyOfExhausted d e (Some (st_batch from))))
    (db_deps d)).

Definition visit (c : cascade) (dep : JobID) : W cascade :=
  if bool_decide (dep ∈ ca_seen c) then ret c
  else
    let c := c <| ca_seen ::= union {[dep]} |> in
    let* row := liveRow dep in
    match row with
    | None => ret (c <| ca_queue ::= (fun q => (q ++ [mkStep dep 0 false])%list) |>)
    | Some r =>
        if negb (state_eqb (j_State r) Pending)
        then ret (c <| ca_queue ::= (fun q => (q ++ [mkStep dep 0 false])%list) |>)
        else
          let* f := cancelDependent r in
          let* deps := recordResult f in
          ret (c <| ca_done ::= (fun l => (l ++ [f])%list) |> <| ca_dependents ::= (fun l => (l ++ [deps])%list) |>
                 <| ca_canceled ::= union {[dep]} |>
                 <| ca_queue ::= (fun q => (q ++ [mkStep dep (idOf (j_BatchID r)) true])%list) |>)
    end.

Fixpoint visit_all (c : cascade) (deps : list JobID) : W cascade :=
  match deps with
  | [] => ret c
  | dep :: rest => let* c := visit c dep in visit_all c rest
  end.

(** The walk.  A dependent is queued once, when first seen, so a fuel of the
    queue's length and the edges' number is enough; [ErrFuel] is never
    reported. *)
Fixpoint walk (fuel : nat) (c : cascade) : W cascade :=
  match ca_queue c with
  | [] => ret c
  | from :: q =>
      match fuel with
      | O => fail ErrFuel
      | S n =>
          let* deps := get (fun d => reached d from) in
          let* c := visit_all (c <| ca_queue := q |>) deps in
          walk n c
      end
  end.

(** The count of the jobs finished in each batch, in the order of the first. *)
Record batch_count : Type := mkBatchCount { bc_batch : JobID; bc_n : Z; bc_failed : Z }.
Fixpoint count_in (b : JobID) (failed : bool) (l : list batch_count) : list batch_count :=
  let k := if failed then 1 else 0 in
  match l with
  | [] => [mkBatchCount b 1 k]
  | c :: r => if bc_batch c =? b then mkBatchCount b (bc_n c + 1) (bc_failed c + k) :: r else c :: count_in b failed r
  end.
Definition batch_counts (done : list finished) : list batch_count :=
  List.fold_left (fun l f => let b := idOf (j_BatchID (fin_row f)) in
                             if IsZero b then l else count_in b (failed f) l) done [].

Fixpoint promote_all (considered canceled : gset JobID) (deps : list JobID) : W unit :=
  match deps with
  | [] => ret tt
  | dep :: rest =>
      if bool_decide (dep ∈ considered) || bool_decide (dep ∈ canceled) then promote_all considered canceled rest
      else promoteIfReady dep ;; promote_all ({[dep]} ∪ considered) canceled rest
  end.

Definition drop_edges (f : finished) : W unit :=
  modify (fun d => d <| db_deps ::= del (fun e => d_job_id e =? j_ID (fin_row f)) |>).

Definition tail (done : list finished) : W (list finished) :=
  match done with
  | [] => ret done
  | _ =>
      let* dependents := mapM recordResult done in
      let queue := List.map (fun f => mkStep (j_ID (fin_row f)) (idOf (j_BatchID (fin_row f))) true)
                     (List.filter failed done) in
      let* edges := get (fun d => List.length (db_deps d)) in
      let* c := walk (List.length queue + edges) (mkCascade queue ∅ ∅ done dependents) in
      iterM (fun b => countBatch (bc_batch b) (bc_n b) (bc_failed b)) (batch_counts (ca_done c)) ;;
      promote_all ∅ (ca_canceled c) (List.concat (ca_dependents c)) ;;
      iterM drop_edges (ca_done c) ;;
      ret (ca_done c)
  end.

(** tailCascaded *)
Definition tailCascaded (done : list finished) : W (list JobID) :=
  let* all := tail done in
  ret (List.map (fun f => j_ID (fin_row f)) (List.skipn (List.length done) all)).

(** ** Leases of running jobs (leases.go) *)

Definition lease_is (id token : JobID) (fence : Z) (l : LeaseRow) : bool :=
  (l_id l =? id) && (l_token l =? token) && (l_fence l =? fence).

(** leaseOwns: the job of a live row runs in lease l. *)
Definition leaseOwns (j : JobRow) (l : LeaseFence) : W bool :=
  if negb (state_eqb (j_State j) Running) || negb (AttemptedBy j =? 0) || negb (j_Fence j =? lf_Fence l) then ret false
  else get (fun d => cnt (lease_is (j_ID j) (lf_Token l) (lf_Fence l)) (db_leases d) =? 1).

Definition releaseLease (id : JobID) : W unit :=
  modify (fun d => d <| db_leases ::= del (fun l => l_id l =? id) |>).

(** ** Applying results *)

(** A JobFinalize with its values encoded. *)
Record result_ : Type := mkResult {
  re_f : JobFinalize; re_log : option json; re_output : option string; re_reason : option string }.

Definition encodeResult (f : JobFinalize) : result result_ :=
  match CheckFinalize f with
  | Err e => Err e
  | Ok _ =>
      let log := MarshalAttemptLog f in
      let reason := nullable (StorableText (f_SnoozeReason f)) in
      if String.eqb (f_Output f) "" then Ok (mkResult f log None reason)
      else match jsonValue (f_Output f) "" "output" with
           | Err e => Err e
           | Ok out => Ok (mkResult f log (Some out) reason)
           end
  end.
Fixpoint encodeResults (jobs : list JobFinalize) : result (list result_) :=
  match jobs with
  | [] => Ok []
  | f :: rest =>
      match encodeResult f with
      | Err e => Err e
      | Ok r => match encodeResults rest with Err e => Err e | Ok rs => Ok (r :: rs) end
      end
  end.

(** The results of leased jobs carry their lease's fence. *)
Definition fence_of (f : JobFinalize) : Z := match f_Lease f with Some l => lf_Fence l | None => f_Fence f end.

(** Whether the job is running in the claim that produced the result. *)
Definition owns (j : JobRow) (f : JobFinalize) : W bool :=
  match f_Lease f with
  | Some l => leaseOwns j l
  | None => ret (state_eqb (j_State j) Running && negb (AttemptedBy j =? 0) && (AttemptedBy j =? f_AttemptedBy f)
                 && (j_Fence j =? f_Fence f))
  end.

(** A wake since the attempt began. *)
Definition woken (j : JobRow) : bool :=
  not_null (j_WakeRequestedAt j) && negb (time_IsZero (j_AttemptedAt j))
  && (time_of (j_AttemptedAt j) <=? time_of (j_WakeRequestedAt j)).

(** The UPDATE of a job that stays live. *)
Definition release_row (r : result_) (errs : string) (logs : option string) (now later : Z) (j : JobRow) : JobRow :=
  let f := re_f r in
  j <| j_State := f_State f |>
    <| j_ScheduledAt := if woken j then now else later |>
    <| j_Attempt := if f_Snooze f || f_GiveBack f then j_Attempt j - 1 else j_Attempt j |>
    <| j_Errors := errs |> <| j_Logs := logs |> <| j_AttemptedBy := None |>
    <| j_SnoozeReason := if f_Snooze f && negb (woken j) then re_reason r else None |>
    <| j_WakeRequestedAt := None |>.

(** One result: [None] if it does not apply, else the report of it and the
    finished job, if it finished. *)
Definition applyResult (keep : Z) (r : result_) : W (option (JobFinalized * option finished)) :=
  let f := re_f r in
  let* row := liveRow (f_ID f) in
  match row with
  | None => ret None
  | Some j =>
      let* mine := owns j f in
      if negb mine then ret None
      else
        (match f_Lease f with Some _ => releaseLease (j_ID j) | None => ret tt end) ;;
        let* now := us in
        let errs := match f_Error f with Some e => withErrorAt (j_Errors j) e now | None => j_Errors j end in
        let logs := appendLog (j_Logs j) (j_Attempt j) (f_Snooze f) (re_log r) keep in
        let report := mkJobFinalized (f_ID f) (fence_of f) false in
        if Terminal (f_State f) then
          let fin := mkFinished j (f_State f) errs logs (re_output r) (Archived f) in
          finish fin ;; ret (Some (report, Some fin))
        else
          let* later := at_ (Z.max (f_Delay f) 0) in
          exec_jobs (upd (id_is (f_ID f)) (release_row r errs logs now later)) ;;
          ret (Some (report, None))
  end.

Definition leased (f : JobFinalize) : bool := not_null (f_Lease f).

(** The write of JobFinalizeMany. *)
Definition finalizeAll (params : JobFinalizeParams) (results : list result_) : W (list JobFinalized) :=
  let* outs := mapM (applyResult (keepLogs (fp_KeepLogs params))) results in
  let applied := List.flat_map (fun o => match o with Some (rep, _) => [rep] | None => [] end) outs in
  let done := List.flat_map (fun o => match o with Some (_, Some fin) => [fin] | _ => [] end) outs in
  if fp_NoBatches params then ret applied
  else
    let* all := tail done in
    ret (applied ++ List.map (fun f => mkJobFinalized (j_ID (fin_row f)) 0 true)
                      (List.skipn (List.length done) all))%list.

(** JobFinalizeMany.  [busy] is whether another transaction holds the write
    lock past a brief wait, which only a call with SkipLocked gives up on. *)
Definition JobFinalizeMany (params : JobFinalizeParams) (busy : bool) (x : w) (d : DB)
    : result (list JobFinalized) * DB :=
  match fp_Jobs params with
  | [] => (Ok [], d)
  | f0 :: _ =>
      match encodeResults (fp_Jobs params) with
      | Err e => (Err e, d)
      | Ok results =>
          if leased f0 && fp_SkipLocked params then (Err (ErrText "SkipLocked with results of leased jobs"), d)
          else if existsb (fun f => negb (Bool.eqb (leased f) (leased f0))) (fp_Jobs params)
          then (Err (ErrText "results of leased jobs and of others in one call"), d)
          else if fp_SkipLocked params && busy then (Ok [], d)
          else write (finalizeAll params results) x d
      end
  end.
