(* ===== verification/Claim.v ===== *)
(** * Claiming jobs (driver/hoppersqlite/jobs.go, flow.go)

    The claim's eligibility with ordering keys, its order, the partition limit,
    a queue's global limit and rate bucket, aging, and the rescue's candidates. *)

From Stdlib Require Import List ZArith Lia Bool String SpecFloat.
From stdpp Require Import base tactics list.
From S2P Require Import Prelude Sql Text Json Types Store Insert Finalize Float64.
Import ListNotations.
Local Open Scope string_scope.
Local Open Scope Z_scope.

Definition claimMax : Z := 512.

(** ** Eligibility *)

Definition waits (j : JobRow) : bool := waiting (j_State j).

Definition min_seq (t : list JobRow) : option Z :=
  match t with
  | [] => None
  | j :: r => Some (List.fold_left (fun m k => Z.min m (j_seq k)) r (j_seq j))
  end.

(** A job of a lane (a queue and an ordering key) is held back while a job of
    the lane runs, or unless it is its oldest waiting job. *)
Definition lane_free (t : list JobRow) (j : JobRow) : bool :=
  is_null (j_OrderingKey j)
  || (negb (ex (fun r => same_lane r j && is_running r) t)
      && match min_seq (sel (fun o => same_lane o j && waits o) t) with
         | Some m => j_seq j =? m
         | None => false
         end).

(** claimEligibleSQL *)
Definition claim_eligible (t : list JobRow) (queue : string) (now : Z) (j : JobRow) : bool :=
  String.eqb (j_Queue j) queue && waits j && (j_ScheduledAt j <=? now)
  && match j_ExpiresAt j with None => true | Some e => e >? now end
  && lane_free t j.

(** ORDER BY priority, scheduled_at, seq *)
Definition claim_leb (a b : JobRow) : bool :=
  if j_Priority a =? j_Priority b then
    if j_ScheduledAt a =? j_ScheduledAt b then j_seq a <=? j_seq b
    else j_ScheduledAt a <? j_ScheduledAt b
  else j_Priority a <? j_Priority b.

(** ** Partitions *)

Definition same_partition (a b : JobRow) : bool :=
  String.eqb (j_Queue a) (j_Queue b) && null_eq String.eqb (j_PartitionKey a) (j_PartitionKey b).
Definition client_running (j : JobRow) : bool := is_running j && not_null (j_AttemptedBy j).

(** A candidate's rank within its partition key, counting the key's running
    jobs: row_number() in claim order plus the running count. *)
Definition slot (t cands : list JobRow) (j : JobRow) : Z :=
  cnt (fun o => same_partition o j && claim_leb o j) cands
  + cnt (fun r => same_partition r j && client_running r) t.
Definition partition_admits (t cands : list JobRow) (partition : Z) (j : JobRow) : bool :=
  is_null (j_PartitionKey j) || (slot t cands j <=? partition).

(** ** The claim *)

(** claimSetSQL *)
Definition claim_row (now client : Z) (j : JobRow) : JobRow :=
  j <| j_State := Running |> <| j_Attempt ::= Z.succ |> <| j_Fence ::= Z.succ |>
    <| j_AttemptedAt := Some now |> <| j_AttemptedBy := Some client |> <| j_SnoozeReason := None |>.

(** claimSQL, and claimPartitionedSQL with a positive partition limit. *)
Definition claim_choice (t : list JobRow) (queue : string) (now n partition : Z) : list JobRow :=
  let cands := sel (claim_eligible t queue now) t in
  let admitted := if partition >? 0 then sel (partition_admits t cands partition) cands else cands in
  limit n (order_by claim_leb admitted).

(** readDependencies: of each claimed job in a batch, the edges it reads whose
    dependency has a result or is gone, in ID order. *)
Definition dep_leb (a b : DepRow) : bool := d_depends_on a <=? d_depends_on b.
Definition dependency_of (d : DB) (j : JobRow) (e : DepRow) : list Dependency :=
  match one (fun r => null_eq Z.eqb (Some (r_batch_id r)) (j_BatchID j) && (r_job_id r =? d_depends_on e)) (db_results d) with
  | Some r => [mkDependency (d_depends_on e) (textOf (d_step e)) (Some (r_state r))
                (match r_output r with Some "null" => None | o => o end)]
  | None => if live_id d (d_depends_on e) then [] else [mkDependency (d_depends_on e) (textOf (d_step e)) None None]
  end.
Definition readDependencies (d : DB) (j : JobRow) : JobView :=
  if IsZero (idOf (j_BatchID j)) then live_view j
  else mkJobView j None None None
         (List.flat_map (dependency_of d j) (order_by dep_leb (sel (fun e => (d_job_id e =? j_ID j) && d_reads e) (db_deps d)))).

Definition claim (queue : string) (clientID n partition : Z) : W (list JobView) :=
  let n := Z.min n claimMax in
  if n <=? 0 then ret []
  else
    let* now := us in
    let* chosen := get (fun d => claim_choice (db_jobs d) queue now n partition) in
    let seqs := List.map j_seq chosen in
    exec_jobs (upd (fun j => mem_Z (j_seq j) seqs) (claim_row now clientID)) ;;
    let* rows := get (fun d => order_by claim_leb (sel (fun j => mem_Z (j_seq j) seqs) (db_jobs d))) in
    get (fun d => List.map (readDependencies d) rows).

Record JobClaimResult : Type := mkJobClaimResult { cr_Jobs : list JobView; cr_Wait : Z }.

(** ** Limits *)

Definition queue_is (name : string) (q : QueueRow) : bool := String.eqb (q_name q) name.

(** time.Duration.Seconds of nanoseconds. *)
Definition seconds (ns : Z) : spec_float :=
  fadd (f_of_Z (Z.quot ns 1000000000)) (fdiv (f_of_Z (Z.rem ns 1000000000)) (f_of_Z 1000000000)).

(** The rate bucket's whole tokens now: [None] if the queue has no rate. *)
Definition has_rate (q : QueueRow) : option spec_float :=
  match q_rate_per_sec q with
  | Some r => if f_ltb (f_of_Z 0) r then Some r else None
  | None => None
  end.
Definition bucket (q : QueueRow) (rate : spec_float) (now : Z) : spec_float :=
  let burst := match q_rate_burst q with Some b => f_of_Z b | None => f_of_Z 0 end in
  let capacity := if is_null (q_rate_burst q) || f_leb burst (f_of_Z 0) then f_ceil rate else burst in
  match q_tokens q with
  | None => capacity
  | Some tokens =>
      let elapsed := match q_refilled_at q with
                     | Some t => seconds ((now - t) * 1000)
                     | None => f_of_Z 0
                     end in
      f_min capacity (fadd tokens (fmul rate elapsed))
  end.

(** claimLimited *)
Definition claimLimited (params : JobClaimParams) : W JobClaimResult :=
  let* row := get (fun d => one (queue_is (cp_Queue params)) (db_queues d)) in
  match row with
  | None =>
      let* jobs := claim (cp_Queue params) (cp_ClientID params) (cp_Limit params) 0 in
      ret (mkJobClaimResult jobs 0)
  | Some q =>
      let* now := us in
      let* running := get (fun d => cnt (fun j => String.eqb (j_Queue j) (cp_Queue params) && client_running j) (db_jobs d)) in
      let budget := match q_global_limit q with
                    | Some g => Z.min (cp_Limit params) (g - running)
                    | None => cp_Limit params
                    end in
      let '(budget, wait) :=
        match has_rate q with
        | None => (budget, 0)
        | Some rate =>
            let available := bucket q rate now in
            let budget := Z.min budget (f_floor available) in
            (budget, if budget <=? 0
                     then f_trunc (fmul (fdiv (fsub (f_of_Z 1) available) rate) (f_of_Z 1000000000))
                     else 0)
        end in
      if budget <=? 0 then ret (mkJobClaimResult [] wait)
      else
        let* jobs := claim (cp_Queue params) (cp_ClientID params) budget (match q_partition_limit q with Some p => p | None => 0 end) in
        (match has_rate q with
         | None => ret tt
         | Some rate =>
             modify (fun d => d <| db_queues ::= upd (queue_is (cp_Queue params))
               (fun q' => q' <| q_tokens := Some (fsub (bucket q rate now) (f_of_Z (Z.of_nat (List.length jobs)))) |>
                             <| q_refilled_at := Some now |>) |>)
         end) ;;
        ret (mkJobClaimResult jobs wait)
  end.

(** JobClaim *)
Definition JobClaim (params : JobClaimParams) (x : w) (d : DB) : result JobClaimResult * DB :=
  if cp_Limit params <=? 0 then (Ok (mkJobClaimResult [] 0), d)
  else if cp_Limited params then write (claimLimited params) x d
  else write (let* jobs := claim (cp_Queue params) (cp_ClientID params) (cp_Limit params) 0 in
              ret (mkJobClaimResult jobs 0)) x d.

(** ** Aging and rescue *)

Definition ages (queue : string) (before : Z) (j : JobRow) : bool :=
  String.eqb (j_Queue j) queue && waits j && (j_Priority j >? 1) && (j_ScheduledAt j <=? before).

(** JobAge: bumped jobs restart their wait. *)
Definition JobAge (queue : string) (after : Z) (x : w) (d : DB) : result Z * DB :=
  if after <=? 0 then (Ok 0, d)
  else write (let* now := us in
              let* before := at_ (- after) in
              let* n := get (fun d => cnt (ages queue before) (db_jobs d)) in
              exec_jobs (upd (ages queue before) (fun j => j <| j_Priority ::= Z.pred |> <| j_ScheduledAt := now |>)) ;;
              ret n) x d.

(** JobRescueCandidates: running jobs whose client has no live lease, and with
    StuckAfter those claimed longer ago, oldest claim first. *)
Definition attempted_leb (a b : JobRow) : bool :=
  match j_AttemptedAt a, j_AttemptedAt b with
  | None, _ => true
  | Some _, None => false
  | Some s, Some t => s <=? t
  end.
Definition is_stuck (stuckBefore : Z) (j : JobRow) : bool :=
  match j_AttemptedAt j with Some t => t <? stuckBefore | None => false end.
Definition JobRescueCandidates (params : JobRescueParams) (now : Z) (d : DB) : list RescueCandidate :=
  let stuckBefore := if rs_StuckAfter params >? 0 then (now * 1000 - rs_StuckAfter params) / 1000 else - 2 ^ 63 in
  let lost j := negb (ex (fun c => null_eq Z.eqb (Some (c_id c)) (j_AttemptedBy j) && (c_expires_at c >? now)) (db_clients d)) in
  List.map (fun j => mkRescueCandidate (live_view j) (is_stuck stuckBefore j))
    (limit (rs_Limit params)
       (order_by attempted_leb
          (sel (fun j => client_running j && (is_stuck stuckBefore j || lost j)) (db_jobs d)))).
