(* ===== verification/Control.v ===== *)
(** * Controlling jobs (driver/hoppersqlite/jobs.go)

    Reading, canceling, deleting, retrying and waking jobs, discarding expired
    ones, and recording progress. *)

From Stdlib Require Import List ZArith Lia Bool String.
From stdpp Require Import base tactics list.
From S2P Require Import Prelude Sql Text Json JsonCheck Calendar Types Store JobId Codec Insert Finalize.
Import ListNotations.
Local Open Scope string_scope.
Local Open Scope Z_scope.

(** JobGet: the live row, with the expiry of the lease it runs in, or the
    history row. *)
Definition lease_of (d : DB) (j : JobRow) : option Z :=
  if is_null (j_AttemptedBy j) && state_eqb (j_State j) Running
  then option_map l_expires_at (one (fun l => (l_id l =? j_ID j) && (l_fence l =? j_Fence j)) (db_leases d))
  else None.
Definition JobGet (id : JobID) (d : DB) : result JobView :=
  match one (id_is id) (db_jobs d) with
  | Some j => Ok (mkJobView j None None (lease_of d j) [])
  | None =>
      match one (fun h => id_is id (h_job h)) (db_history d) with
      | Some h => Ok (history_view h)
      | None => Err ErrNotFound
      end
  end.

(** cancelWaiting: finalizes a waiting job as canceled, archived or not. *)
Definition cancelWaiting (row : JobRow) (archive : bool) : W JobView :=
  let* now := us in
  let f := mkFinished row Canceled (hopperError row "hopper: canceled" now) (j_Logs row) None archive in
  finish f ;;
  tail [f] ;;
  ret (finished_jobRow f now).

Definition request_cancel (now : Z) (j : JobRow) : JobRow :=
  j <| j_CancelRequestedAt ::= (fun o => match o with Some t => Some t | None => Some now end) |>.

Definition JobCancel_w (id : JobID) : W JobView :=
  let* row := liveRow id in
  match row with
  | None => let* r := get (JobGet id) in lift r
  | Some j =>
      if state_eqb (j_State j) Running then
        let* now := us in
        exec_jobs (upd (id_is id) (request_cancel now)) ;;
        notify ChannelControl ["cancel:" ++ JobID_String id] ;;
        ret (live_view (request_cancel now j))
      else cancelWaiting j true
  end.
Definition JobCancel (id : JobID) : w -> DB -> result JobView * DB := write (JobCancel_w id).

(** JobDelete.  Of a finished job, every history row with its ID goes, and the
    first is returned. *)
Definition JobDelete_w (id : JobID) : W JobView :=
  let* row := liveRow id in
  match row with
  | None =>
      let* h := get (fun d => one (fun h => id_is id (h_job h)) (db_history d)) in
      match h with
      | None => fail ErrNotFound
      | Some h =>
          modify (fun d => d <| db_history ::= del (fun h => id_is id (h_job h)) |>) ;;
          ret (history_view h)
      end
  | Some j => if state_eqb (j_State j) Running then fail ErrJobRunning else cancelWaiting j false
  end.
Definition JobDelete (id : JobID) : w -> DB -> result JobView * DB := write (JobDelete_w id).

(** runNowSQL: runnable now, keeping the place of a job already due. *)
Definition run_now (now : Z) (j : JobRow) : JobRow :=
  j <| j_State := Available |> <| j_ScheduledAt ::= Z.min now |> <| j_SnoozeReason := None |> <| j_WakeRequestedAt := None |>.

(** retryHistorySQL: a finalized job back in the live table, with a fresh seq
    and one more attempt if it had run out. *)
Definition retry_row (seq now : Z) (fromStart : bool) (tags : option string) (r : JobRow) : JobRow :=
  {| j_seq := seq; j_ID := j_ID r; j_Kind := j_Kind r; j_Queue := j_Queue r; j_State := Available;
     j_Priority := j_Priority r; j_Attempt := j_Attempt r;
     j_MaxAttempts := if j_MaxAttempts r <=? j_Attempt r then j_Attempt r + 1 else j_MaxAttempts r;
     j_ScheduledAt := now; j_AttemptedAt := None; j_AttemptedBy := None; j_Fence := j_Fence r;
     j_Args := j_Args r; j_Metadata := j_Metadata r; j_Errors := j_Errors r; j_UniqueKey := j_UniqueKey r;
     j_OrderingKey := j_OrderingKey r; j_PartitionKey := j_PartitionKey r; j_Tags := tags; j_BatchID := j_BatchID r;
     j_ExpiresAt := None; j_CancelRequestedAt := None; j_Await := j_Await r; j_CreatedAt := j_CreatedAt r;
     j_SnoozeReason := None; j_WakeRequestedAt := None;
     j_Progress := if fromStart then None else j_Progress r; j_Logs := j_Logs r |}.

Definition is_failed_state (s : JobState) : bool := match s with Canceled | Discarded => true | _ => false end.

(** JobRetry of a job in history. *)
Definition retryFinished (params : JobRetryParams) (h : HistoryRow) : W JobView :=
  let r := h_job h in
  let* held := get (fun d => match j_UniqueKey r with
                             | Some key => ex (unique_is (j_Kind r) key) (db_jobs d)
                             | None => false
                             end) in
  if held then fail ErrUniqueConflict
  else
    let* now := us in
    let* job := insert_row (fun seq => retry_row seq now (rp_FromStart params) (tagsJSON (DecodeTags (textOf (j_Tags r)))) r) in
    modify (fun d => d <| db_history ::= del (fun h' => h_rowid h' =? h_rowid h) |>) ;;
    let batch := idOf (j_BatchID job) in
    if IsZero batch then ret (live_view job)
    else
      modify (fun d => d <| db_batches ::= upd (fun b => batch_is batch b && is_null (b_completed_at b))
        (fun b => b <| b_pending ::= Z.succ |>
                    <| b_failed ::= (fun n => n - if is_failed_state (j_State r) then 1 else 0) |>) |>) ;;
      modify (fun d => d <| db_results ::= del (fun o => (r_batch_id o =? batch) && (r_job_id o =? rp_ID params)) |>) ;;
      ret (live_view job).

(** JobRetry of a waiting job. *)
Definition retry_waiting (now : Z) (fromStart : bool) (j : JobRow) : JobRow :=
  (run_now now j) <| j_ExpiresAt := None |> <| j_Progress ::= (fun p => if fromStart then None else p) |>.

Definition JobRetry_w (params : JobRetryParams) : W JobView :=
  let id := rp_ID params in
  let* row := liveRow id in
  match row with
  | None =>
      let* h := get (fun d => one (fun h => id_is id (h_job h)) (db_history d)) in
      match h with
      | None => fail ErrNotFound
      | Some h => retryFinished params h
      end
  | Some j =>
      if state_eqb (j_State j) Running then fail ErrJobRunning
      else
        let* now := us in
        exec_jobs (upd (id_is id) (retry_waiting now (rp_FromStart params))) ;;
        ret (live_view (retry_waiting now (rp_FromStart params) j))
  end.
Definition JobRetry (params : JobRetryParams) : w -> DB -> result JobView * DB := write (JobRetry_w params).

(** ** Ordering keys *)

Definition in_lane (queue key : string) (j : JobRow) : bool :=
  String.eqb (j_Queue j) queue && null_eq String.eqb (j_OrderingKey j) (Some key).
Definition seq_leb (a b : JobRow) : bool := j_seq a <=? j_seq b.

Definition wakeable (queue key : string) (now : Z) (j : JobRow) : bool :=
  in_lane queue key j && match j_State j with Scheduled | Retryable => true | _ => false end
  && match j_ExpiresAt j with None => true | Some e => e >? now end.

Definition JobRetryOrderingKey_w (params : JobRetryOrderingKeyParams) : W Z :=
  let lane := in_lane (rk_Queue params) (rk_OrderingKey params) in
  let* now := us in
  exec_jobs (upd (fun j => lane j && is_running j) (fun j => j <| j_WakeRequestedAt := Some now |>)) ;;
  let* chosen := get (fun d => List.map j_seq (limit (Z.max (rk_Limit params) 1)
    (order_by seq_leb (sel (wakeable (rk_Queue params) (rk_OrderingKey params) now) (db_jobs d))))) in
  exec_jobs (upd (fun j => mem_Z (j_seq j) chosen) (run_now now)) ;;
  ret (Z.of_nat (List.length chosen)).
Definition JobRetryOrderingKey (params : JobRetryOrderingKeyParams) : w -> DB -> result Z * DB :=
  write (JobRetryOrderingKey_w params).

(** ** Expiry *)

Definition expires_leb (a b : JobRow) : bool := time_of (j_ExpiresAt a) <=? time_of (j_ExpiresAt b).
Definition expired (now : Z) (j : JobRow) : bool :=
  match j_ExpiresAt j with Some e => (e <=? now) && waiting (j_State j) | None => false end.

Definition discardExpired (now : Z) (row : JobRow) : W finished :=
  let f := mkFinished row Discarded (hopperError row "hopper: expired" now) (j_Logs row) None true in
  finish f ;; ret f.

Definition JobDiscardExpired_w (n : Z) : W (list JobView * list JobID) :=
  let* now := us in
  let* rows := get (fun d => limit (Z.max n 1) (order_by expires_leb (sel (expired now) (db_jobs d)))) in
  let* done := mapM (discardExpired now) rows in
  let* cascaded := tailCascaded done in
  ret (List.map (fun f => finished_jobRow f now) done, cascaded).
Definition JobDiscardExpired (n : Z) : w -> DB -> result (list JobView * list JobID) * DB :=
  write (JobDiscardExpired_w n).

(** ** Progress *)

Record JobRecordProgressParams : Type := mkJobRecordProgressParams {
  pp_ID : JobID; pp_AttemptedBy : Z; pp_Fence : Z; pp_Attempt : Z; pp_Lease : option LeaseFence;
  pp_Step : string; pp_KeepStep : bool; pp_Cursor : string; pp_NoWait : bool }.

(** leaseOwnerSQL: the job runs in the job lease of this token and fence. *)
Definition leaseOwner (d : DB) (j : JobRow) (l : LeaseFence) : bool :=
  is_running j && is_null (j_AttemptedBy j) && (j_Fence j =? lf_Fence l)
  && ex (lease_is (j_ID j) (lf_Token l) (lf_Fence l)) (db_leases d).

Definition progress_owner (d : DB) (p : JobRecordProgressParams) (j : JobRow) : bool :=
  id_is (pp_ID p) j &&
  match pp_Lease p with
  | Some l => leaseOwner d j l
  | None => is_running j && null_eq Z.eqb (j_AttemptedBy j) (Some (pp_AttemptedBy p))
            && (j_Fence j =? pp_Fence p) && (j_Attempt j =? pp_Attempt p)
  end.

(** DecodeProgress's step of a stored progress, if it is an object. *)
Definition progress_step (stored : option string) : string :=
  match json_parse (textOf stored) with
  | Some (JObj m) => match smap_get "step" (members_of m) with Some (JStr l) => unquote l | _ => "" end
  | _ => ""
  end.

(** The progress stored: [None] if no claim of the caller's runs the job. *)
Definition JobRecordProgress_w (p : JobRecordProgressParams) (cursor : string) : W (option string) :=
  let* row := get (fun d => one (progress_owner d p) (db_jobs d)) in
  match row with
  | None => ret None
  | Some j =>
      let* now := us in
      let step := if pp_KeepStep p then progress_step (j_Progress j) else pp_Step p in
      let text := json_print (record [("step", Some (jstring step)); ("at", Some (jstring (rfc3339_micros now)));
                                      ("cursor", json_parse cursor)]) in
      exec_jobs (upd (id_is (pp_ID p)) (fun j => j <| j_Progress := Some text |>)) ;;
      ret (Some text)
  end.
Definition JobRecordProgress (p : JobRecordProgressParams) (busy : bool) (x : w) (d : DB)
    : result (option string) * DB :=
  match jsonValue (pp_Cursor p) "" "the progress cursor" with
  | Err e => (Err e, d)
  | Ok cursor =>
      if pp_NoWait p && busy then (Err ErrJobLocked, d)
      else write (JobRecordProgress_w p cursor) x d
  end.
