(* ===== verification/Leases.v ===== *)
(** * Job leases (driver/hoppersqlite/leases.go)

    A job claimed by ID runs with no owning client; a lease row owns it, with
    the token of its claim, the claim's fence and an expiry. *)

From Stdlib Require Import List ZArith Lia Bool String.
From stdpp Require Import base tactics list.
From S2P Require Import Prelude Sql Text Types Store Insert Finalize Claim Control.
Import ListNotations.
Local Open Scope string_scope.
Local Open Scope Z_scope.

(** claimableByID: nothing if the job can be claimed by ID now. *)
Definition lane_busy (t : list JobRow) (j : JobRow) : bool :=
  not_null (j_OrderingKey j)
  && (ex (fun r => same_lane r j && is_running r) t
      || match min_seq (sel (fun o => same_lane o j && waits o) t) with
         | Some m => negb (j_seq j =? m)
         | None => true
         end).
Definition queue_paused (d : DB) (queue : string) : bool :=
  ex (fun q => queue_is queue q && not_null (q_paused_at q)) (db_queues d).

Definition claimableByID (params : JobClaimByIDParams) : W unit :=
  let* row := liveRow (ci_ID params) in
  match row with
  | None =>
      let* n := get (fun d => cnt (fun h => id_is (ci_ID params) (h_job h)) (db_history d)) in
      if n =? 0 then fail ErrNotFound else fail (ErrJobNotClaimable "it has finished")
  | Some j =>
      let* now := us in
      let* paused := get (fun d => queue_paused d (j_Queue j)) in
      let* busy := get (fun d => lane_busy (db_jobs d) j) in
      if negb (j_Fence j =? ci_Fence params) then fail ErrJobFenced
      else if state_eqb (j_State j) Running then fail ErrJobRunning
      else if state_eqb (j_State j) Pending then fail (ErrJobNotClaimable "it is pending")
      else if match j_ExpiresAt j with Some e => e <=? now | None => false end
      then fail (ErrJobNotClaimable "its TTL has passed")
      else if paused then fail (ErrJobNotClaimable "its queue is paused")
      else if busy then fail (ErrJobNotClaimable "its ordering key holds it back")
      else ret tt
  end.

Definition claim_by_id_row (now : Z) (j : JobRow) : JobRow :=
  j <| j_State := Running |> <| j_Attempt ::= Z.succ |> <| j_Fence ::= Z.succ |>
    <| j_AttemptedAt := Some now |> <| j_AttemptedBy := None |> <| j_SnoozeReason := None |>.

Definition upsert_lease (l : LeaseRow) (t : list LeaseRow) : list LeaseRow :=
  (del (fun o => l_id o =? l_id l) t ++ [l])%list.

Definition JobClaimByID_w (params : JobClaimByIDParams) : W JobLeaseRow :=
  claimableByID params ;;
  let* now := us in
  let* row := get (fun d => one (fun j => id_is (ci_ID params) j && waits j) (db_jobs d)) in
  match row with
  | None => fail (ErrText "no rows")
  | Some j =>
      let job := claim_by_id_row now j in
      exec_jobs (upd (fun j => id_is (ci_ID params) j && waits j) (claim_by_id_row now)) ;;
      let* view := get (fun d => readDependencies d job) in
      let* token := randomblob16 in
      let* expires := at_ (ci_TTL params) in
      modify (fun d => d <| db_leases ::= upsert_lease
        (mkLeaseRow (ci_ID params) token (j_Fence job) (ci_TTL params / 1000) now expires) |>) ;;
      ret (mkJobLeaseRow view (mkLeaseFence token (j_Fence job)) expires)
  end.
Definition JobClaimByID (params : JobClaimByIDParams) (x : w) (d : DB) : result JobLeaseRow * DB :=
  if ci_TTL params <? 1000 then (Err (ErrText "the lease TTL must be at least a microsecond"), d)
  else write (JobClaimByID_w params) x d.

(** JobLeaseRenew *)
Definition JobLeaseRenew_w (params : JobLeaseRenewParams) : W JobLeaseStatus :=
  let l := ln_Lease params in
  let is_lease := lease_is (ln_ID params) (lf_Token l) (lf_Fence l) in
  let* now := us in
  let* row := get (fun d => one (fun o => is_lease o && ex (fun j => id_is (ln_ID params) j && leaseOwner d j l) (db_jobs d)) (db_leases d)) in
  match row with
  | None => fail ErrJobFenced
  | Some o =>
      modify (fun d => d <| db_leases ::= upd is_lease (fun o => o <| l_renewed_at := now |> <| l_expires_at := now + l_ttl o |>) |>) ;;
      let* canceled := get (fun d => ex (fun j => id_is (ln_ID params) j && not_null (j_CancelRequestedAt j)) (db_jobs d)) in
      ret (mkJobLeaseStatus (now + l_ttl o) canceled)
  end.
Definition JobLeaseRenew (params : JobLeaseRenewParams) : w -> DB -> result JobLeaseStatus * DB :=
  write (JobLeaseRenew_w params).

(** ** Expiry *)

Definition min_opt (l : list Z) : option Z :=
  match l with [] => None | z :: r => Some (List.fold_left Z.min r z) end.

(** A lease last renewed before a live client's start gets that start plus
    the larger of its TTL and the grace. *)
Definition lease_lapsed (d : DB) (now grace : Z) (l : LeaseRow) : bool :=
  (l_expires_at l <=? now)
  && (match min_opt (List.map c_started_at (sel (fun c => (c_started_at c >? l_renewed_at l) && (c_started_at c <=? now)
                                                   && (c_expires_at c >? now)) (db_clients d))) with
      | Some start => start + Z.max (l_ttl l) grace
      | None => l_expires_at l
      end <=? now).

Definition lease_leb (a b : LeaseRow * JobRow) : bool := l_expires_at (fst a) <=? l_expires_at (fst b).

(** hopper_job_leases l JOIN hopper_jobs j ON j.id = l.id, with its WHERE. *)
Definition lapsed_rows (d : DB) (now : Z) (params : JobExpireLeasesParams) : list JobRow :=
  let grace := Z.max (xl_Grace params) 0 / 1000 in
  if ex (fun c => (c_id c =? xl_ClientID params) && (c_expires_at c >? now)) (db_clients d) then
    List.map snd (limit (Z.max (xl_Limit params) 1) (order_by lease_leb
      (List.flat_map (fun l => List.map (fun j => (l, j))
         (sel (fun j => id_is (l_id l) j && is_running j && is_null (j_AttemptedBy j) && (j_Fence j =? l_fence l)) (db_jobs d)))
       (sel (lease_lapsed d now grace) (db_leases d)))))
  else [].

Definition expire_retry_row (now : Z) (errs : string) (j : JobRow) : JobRow :=
  j <| j_State := Retryable |> <| j_ScheduledAt := now |> <| j_Errors := errs |> <| j_WakeRequestedAt := None |>.

Definition expireOne (now : Z) (j : JobRow) : W (JobView * option finished) :=
  let errs := withErrorAt (j_Errors j)
                (mkAttemptError (j_Attempt j) (j_Fence j) "hopper: job lease expired" "" RescueLeaseExpired) now in
  releaseLease (j_ID j) ;;
  if (j_Attempt j <? j_MaxAttempts j) && time_IsZero (j_CancelRequestedAt j) then
    exec_jobs (upd (id_is (j_ID j)) (expire_retry_row now errs)) ;;
    ret (live_view (expire_retry_row now errs j), None)
  else
    let state := if time_IsZero (j_CancelRequestedAt j) then Discarded else Canceled in
    let f := mkFinished j state errs (j_Logs j) None true in
    finish f ;; ret (finished_jobRow f now, Some f).

Definition JobExpireLeases_w (params : JobExpireLeasesParams) : W (list JobView * list JobID) :=
  let* now := us in
  let* rows := get (fun d => lapsed_rows d now params) in
  let* outs := mapM (expireOne now) rows in
  let* cascaded := tailCascaded (List.flat_map (fun o => match snd o with Some f => [f] | None => [] end) outs) in
  ret (List.map fst outs, cascaded).

(** [busy] as for JobFinalizeMany: the expiry waits only briefly. *)
Definition JobExpireLeases (params : JobExpireLeasesParams) (busy : bool) (x : w) (d : DB)
    : result (list JobView * list JobID) * DB :=
  if busy then (Ok ([], []), d) else write (JobExpireLeases_w params) x d.
