(* ===== verification/Workflow.v ===== *)
(** * Batches and workflows (driver/hoppersqlite/flow.go, workflow.go)

    Batch rows with their callbacks, inserting a workflow's jobs and edges, and
    the sweep that promotes or cancels what a direct write left pending. *)

From Stdlib Require Import List ZArith Lia Bool String.
From stdpp Require Import base tactics list.
From S2P Require Import Prelude Sql Text Json JsonCheck Types Store JobId Codec Insert Finalize.
Import ListNotations.
Local Open Scope string_scope.
Local Open Scope Z_scope.

(** ** Batch rows *)

(** callbackJSON: the object json.Marshal writes for the map, by key. *)
Definition raw_json (s : string) : json := match json_parse s with Some j => j | None => JNull end.
Definition callbackJSON (p : option JobInsertParams) : result (option string) :=
  match p with
  | None => Ok None
  | Some p =>
      if (ip_Priority p <? 1) || (ip_Priority p >? 4) then Err (ErrText "callback priority is out of range 1..4")
      else match smallint (ip_MaxAttempts p) "callback max_attempts" with
           | Err e => Err e
           | Ok _ =>
             match jsonValue (ip_Args p) "{}" "callback args" with
             | Err e => Err e
             | Ok args =>
               match jsonValue (ip_Metadata p) "{}" "callback metadata" with
               | Err e => Err e
               | Ok metadata =>
                   let cb := List.fold_left (fun m kv => smap_set (fst kv) (snd kv) m)
                     ([("kind", jstring (ip_Kind p)); ("queue", jstring (ip_Queue p)); ("priority", jint (ip_Priority p));
                       ("max_attempts", jint (ip_MaxAttempts p)); ("args", raw_json args); ("metadata", raw_json metadata)]
                      ++ match ip_Tags p with [] => [] | ts => [("tags", JArr (List.map jstring ts))] end)%list [] in
                   Ok (Some (json_print (object_of cb)))
               end
             end
           end
  end.

Record batchRow : Type := mkBatch {
  br_onSuccess : option string; br_onFailure : option string; br_onComplete : option string; br_metadata : string }.

Definition encodeBatch (onSuccess onFailure onComplete : option JobInsertParams) (metadata : string) : result batchRow :=
  match callbackJSON onSuccess with
  | Err e => Err e
  | Ok s =>
    match callbackJSON onFailure with
    | Err e => Err e
    | Ok f =>
      match callbackJSON onComplete with
      | Err e => Err e
      | Ok c =>
        match jsonValue metadata "{}" "batch metadata" with
        | Err e => Err e
        | Ok m => Ok (mkBatch s f c m)
        end
      end
    end
  end.

(** insertBatch: the primary key is the batch's ID. *)
Definition insertBatch (id : JobID) (name : string) (total : Z) (b : batchRow) (edges steps : option string) (reads : bool)
    : W unit := fun x d =>
  if ex (batch_is id) (db_batches d) then Err ErrConstraint
  else Ok (tt, d <| db_batches ::= (fun t => t ++ [mkBatchRow id (nullable name) total 0 total (br_onSuccess b)
                     (br_onFailure b) (br_onComplete b) (br_metadata b) edges steps reads (w_now x) None])%list |>).

Definition BatchInsert (total : Z) (onSuccess onFailure onComplete : option JobInsertParams) (metadata : string)
    (x : w) (d : DB) : result JobID * DB :=
  match encodeBatch onSuccess onFailure onComplete metadata with
  | Err e => (Err e, d)
  | Ok b => write (let* id := newID in insertBatch id "" total b None None false ;; ret id) x d
  end.

(** BatchSettle: a sweep deletes up to limit results of workflows that
    completed or no longer exist. *)
Definition orphan (d : DB) (o : ResultRow) : bool :=
  negb (ex (fun b => batch_is (r_batch_id o) b && is_null (b_completed_at b)) (db_batches d)).
Definition same_result (a b : ResultRow) : bool := (r_batch_id a =? r_batch_id b) && (r_job_id a =? r_job_id b).
Definition BatchSettle (named results : bool) (n : Z) (x : w) (d : DB) : result unit * DB :=
  if named || negb results then (Ok tt, d)
  else if negb (ex (orphan d) (db_results d)) then (Ok tt, d)
  else write (modify (fun d => let gone := limit (Z.max n 1) (sel (orphan d) (db_results d)) in
                               d <| db_results ::= del (fun o => ex (same_result o) gone) |>)) x d.

(** ** Workflows *)

(** The queues of the jobs that can run at once, for the notification. *)
Definition notify_queues (jobs : list jobInsert) : list string :=
  distinctQueues (List.filter (fun j => negb (i_pending j)) jobs).

(** The jobs encoded, those with dependencies pending. *)
Fixpoint workflow_jobs (ps : list JobInsertParams) (pending : list bool) : result (list jobInsert) :=
  match ps, pending with
  | p :: ps', b :: pending' =>
      if negb (String.eqb (ip_UniqueKey p) "") then Err (ErrText "a workflow job has a unique key")
      else match encodeInsert p with
           | Err e => Err e
           | Ok j => match workflow_jobs ps' pending' with
                     | Err e => Err e
                     | Ok js => Ok (j <| i_pending := b |> :: js)
                     end
           end
  | _, _ => Ok []
  end.

(** The edge row of a dependency; INSERT OR IGNORE keeps the first of a pair. *)
Definition edge_row (ids : list JobID) (steps : list string) (e : JobDependency) : DepRow :=
  {| d_job_id := id_at ids (jd_Job e); d_depends_on := id_at ids (jd_DependsOn e);
     d_on_failure := EdgePolicy e;
     d_step := if jd_Reads e then match steps with [] => None | _ => nullable (List.nth (Z.to_nat (jd_DependsOn e)) steps "") end else None;
     d_reads := jd_Reads e;
     d_any_of := if jd_AnyOf e =? 0 then None else Some (jd_AnyOf e) |}.
Definition insert_edge (r : DepRow) (t : list DepRow) : list DepRow :=
  if ex (fun e => (d_job_id e =? d_job_id r) && (d_depends_on e =? d_depends_on r)) t then t else (t ++ [r])%list.

Fixpoint mint (n : nat) : W (list JobID) :=
  match n with
  | O => ret []
  | S n' => let* id := newID in let* ids := mint n' in ret (id :: ids)
  end.

Definition with_ids (jobs : list jobInsert) (ids : list JobID) (batch : JobID) : list jobInsert :=
  List.map (fun ji => (fst ji) <| i_id := snd ji |> <| i_batchID := batch |>) (List.combine jobs ids).

Definition WorkflowInsert_w (params : WorkflowInsertParams) (jobs : list jobInsert) (b : batchRow) : W WorkflowInsertResult :=
  let* ids := mint (List.length jobs) in
  let* steps := lift (StepsJSON (wp_Steps params) ids) in
  let edges := EdgesJSON (wp_Deps params) ids in
  let* batch := newID in
  let reads := existsb (fun e => jd_Reads e || negb (jd_AnyOf e =? 0)) (wp_Deps params) in
  insertBatch batch (wp_Name params) (Z.of_nat (List.length jobs)) b (Some edges) steps reads ;;
  let* rows := mapM insertJob (with_ids jobs ids batch) in
  iterM (fun e => modify (fun d => d <| db_deps ::= insert_edge (edge_row ids (wp_Steps params) e) |>)) (wp_Deps params) ;;
  (if wp_Notify params then notify ChannelInsert (notify_queues jobs) else ret tt) ;;
  ret (mkWorkflowInsertResult batch (List.map (fun r => mkJobInsertResult (live_view r) false) rows)).

Definition WorkflowInsert (params : WorkflowInsertParams) (x : w) (d : DB) : result WorkflowInsertResult * DB :=
  match wp_Jobs params with
  | [] => (Err (ErrText "no jobs"), d)
  | _ =>
      match CheckDependencies (wp_Deps params) (Z.of_nat (List.length (wp_Jobs params))) with
      | Err e => (Err e, d)
      | Ok pending =>
          match workflow_jobs (wp_Jobs params) pending with
          | Err e => (Err e, d)
          | Ok jobs =>
              match encodeBatch (wp_OnSuccess params) (wp_OnFailure params) (wp_OnComplete params) (wp_Metadata params) with
              | Err e => (Err e, d)
              | Ok b => write (WorkflowInsert_w params jobs b) x d
              end
          end
      end
  end.

(** ** The sweep *)

(** cancelExhausted *)
Definition cancelExhausted (id : JobID) : W Z :=
  let* held := get (fun d => one (fun j => id_is id j && state_eqb (j_State j) Pending && anyOfCancel d j) (db_jobs d)) in
  match held with
  | None => ret 0
  | Some row =>
      let* f := cancelDependent row in
      let* done := tail [f] in
      ret (Z.of_nat (List.length done))
  end.

Record WorkflowPromoteResult : Type := mkWorkflowPromoteResult {
  wq_Promoted : Z; wq_Canceled : Z; wq_Scanned : Z; wq_Last : JobID }.

(** SELECT DISTINCT job_id, sorted. *)
Definition distinct_ids (l : list JobID) : list JobID := order_by Z.leb (List.nodup Z.eq_dec l).
Definition sweep_candidates (d : DB) (dependsOn : option (list JobID)) (after n : Z) : list JobID :=
  match dependsOn with
  | None => limit (Z.max n 1) (distinct_ids (List.map d_job_id (sel (fun e => d_job_id e >? after) (db_deps d))))
  | Some ids => distinct_ids (List.map d_job_id (sel (fun e => mem_Z (d_depends_on e) ids) (db_deps d)))
  end.

Fixpoint promote_each (ids : list JobID) : W Z :=
  match ids with
  | [] => ret 0
  | id :: rest => let* b := promoteIfReady id in let* n := promote_each rest in ret (if b then n + 1 else n)
  end.
Fixpoint cancel_each (ids : list JobID) : W Z :=
  match ids with
  | [] => ret 0
  | id :: rest => let* k := cancelExhausted id in let* n := cancel_each rest in ret (k + n)
  end.

(** WorkflowPromoteReady: it looks without the write lock ([seen] is the state
    it read) and takes the lock only to promote or cancel what it found. *)
Definition WorkflowPromoteReady (dependsOn : option (list JobID)) (after n : Z) (seen : DB) (x : w) (d : DB)
    : result WorkflowPromoteResult * DB :=
  match dependsOn with
  | Some [] => (Ok (mkWorkflowPromoteResult 0 0 0 0), d)
  | _ =>
      let candidates := sweep_candidates seen dependsOn after n in
      let scanned := Z.of_nat (List.length candidates) in
      let last := List.last candidates 0 in
      let rows := sel (fun j => mem_Z (j_ID j) candidates && state_eqb (j_State j) Pending) (db_jobs seen) in
      let ready_ids := List.map j_ID (sel (ready seen) rows) in
      let exhausted := List.map j_ID (sel (fun j => negb (ready seen j) && anyOfCancel seen j) rows) in
      match (ready_ids ++ exhausted)%list with
      | [] => (Ok (mkWorkflowPromoteResult 0 0 scanned last), d)
      | _ => write (let* p := promote_each ready_ids in
                    let* k := cancel_each exhausted in
                    ret (mkWorkflowPromoteResult p k scanned last)) x d
      end
  end.
