(* ===== verification/Cluster.v ===== *)
(** * Clients, leadership, queues and periodic slots (driver/hoppersqlite/cluster.go, conn.go)

    The leases of clients and of the leader, the queues' settings, the slots of
    periodic jobs and the registrations of them, retention, the cluster's
    statistics, and the clock that dates every write. *)

From Stdlib Require Import List ZArith Lia Bool String SpecFloat.
From stdpp Require Import base tactics list.
From S2P Require Import Prelude Sql Text Json JsonCheck Types Store Float64 Insert Claim.
Import ListNotations.
Local Open Scope string_scope.
Local Open Scope Z_scope.

(** ** The clock

    [last] is the atomic the process keeps of the time it last gave; the value
    returned is the time and the new [last]. *)
Definition maxClockLead : Z := 500000.
Definition clock (last now : Z) : Z * Z :=
  let back := last - now in
  if (0 <=? back) && (back <=? maxClockLead) then (last, last) else (now, now).

(** ** Clients *)

Record ClientRegisterParams : Type := mkClientRegisterParams { cg_Hostname : string; cg_TTL : Z; cg_Info : string }.
Definition ClientRegister (p : ClientRegisterParams) (x : w) (d : DB) : result Z * DB :=
  match jsonValue (cg_Info p) "{}" "client info" with
  | Err e => (Err e, d)
  | Ok info =>
      write (let* now := us in
             let* expires := at_ (cg_TTL p) in
             let* id := get (fun d => db_client_seq d + 1) in
             modify (fun d => d <| db_clients ::= (fun t => t ++ [mkClientRow id (cg_Hostname p) now expires info])%list |>
                                <| db_client_seq := id |>) ;;
             ret id) x d
  end.

Record ClientRenewResult : Type := mkClientRenewResult {
  cn_Renewed : bool; cn_CancelRequested : list JobID; cn_PausedQueues : list string; cn_LimitedQueues : list string }.
Definition client_live (id now : Z) (c : ClientRow) : bool := (c_id c =? id) && (c_expires_at c >? now).
Definition queue_limited (q : QueueRow) : bool :=
  not_null (q_global_limit q) || not_null (q_rate_per_sec q) || not_null (q_partition_limit q).
Definition ClientRenew_w (client ttl : Z) : W ClientRenewResult :=
  let* now := us in
  let* expires := at_ ttl in
  let* renewed := get (fun d => ex (client_live client now) (db_clients d)) in
  modify (fun d => d <| db_clients ::= upd (client_live client now) (fun c => c <| c_expires_at := expires |>) |>) ;;
  let* cancel := get (fun d => order_by Z.leb (List.map j_ID (sel (fun j => is_running j && null_eq Z.eqb (j_AttemptedBy j) (Some client)
                                                && not_null (j_CancelRequestedAt j)) (db_jobs d)))) in
  let* paused := get (fun d => order_by String.leb (List.map q_name (sel (fun q => not_null (q_paused_at q)) (db_queues d)))) in
  let* limited := get (fun d => order_by String.leb (List.map q_name (sel queue_limited (db_queues d)))) in
  ret (mkClientRenewResult renewed cancel paused limited).
Definition ClientRenew (client ttl : Z) : w -> DB -> result ClientRenewResult * DB := write (ClientRenew_w client ttl).

Definition ClientDelete_w (client : Z) : W unit :=
  modify (fun d => d <| db_registrations ::= del (fun g => g_client_id g =? client) |>) ;;
  modify (fun d => d <| db_clients ::= del (fun c => c_id c =? client) |>).
Definition ClientDelete (client : Z) : w -> DB -> result unit * DB := write (ClientDelete_w client).

Definition client_expired (now : Z) (c : ClientRow) : bool := c_expires_at c <? now.
Definition ClientPruneExpired_w : W Z :=
  let* now := us in
  modify (fun d => d <| db_registrations ::=
    del (fun g => ex (fun c => client_expired now c && (c_id c =? g_client_id g)) (db_clients d)) |>) ;;
  let* n := get (fun d => cnt (client_expired now) (db_clients d)) in
  modify (fun d => d <| db_clients ::= del (client_expired now) |>) ;;
  ret n.
Definition ClientPruneExpired : w -> DB -> result Z * DB := write ClientPruneExpired_w.

(** ClientList: each client, and whether it holds the live leader lease. *)
Definition ClientList (now : Z) (d : DB) : list (ClientRow * bool) :=
  List.map (fun c => (c, match db_leader d with
                         | Some l => (ld_client_id l =? c_id c) && (ld_expires_at l >? now)
                         | None => false
                         end))
    (order_by (fun a b => c_id a <=? c_id b) (db_clients d)).

(** ** The leader *)

Record LeaderResult : Type := mkLeaderResult { lt_Leader : bool; lt_ElectedAt : Z; lt_ResignRequested : bool }.
Definition no_leader : LeaderResult := mkLeaderResult false zero_time false.

(** The row the upsert leaves for a client's attempt. *)
Definition leader_renews (l : LeaderRow) (client now : Z) : bool := (ld_client_id l =? client) && (ld_expires_at l >=? now).
Definition leader_asked (l : LeaderRow) : bool := null_eq Z.eqb (ld_resign_client_id l) (Some (ld_client_id l)).
Definition leader_row (old : option LeaderRow) (client now expires : Z) : option LeaderRow :=
  match old with
  | None => Some (mkLeaderRow client now expires None)
  | Some l =>
      if (ld_expires_at l <? now) || (ld_client_id l =? client) then
        Some (mkLeaderRow client
                (if leader_renews l client now then ld_elected_at l else now)
                (if leader_renews l client now && leader_asked l then ld_expires_at l else expires)
                (if leader_renews l client now then ld_resign_client_id l else None))
      else None
  end.
Definition LeaderAttempt_w (client ttl : Z) : W LeaderResult :=
  let* now := us in
  let* expires := at_ ttl in
  let* row := get (fun d => leader_row (db_leader d) client now expires) in
  match row with
  | None => ret no_leader
  | Some l =>
      modify (fun d => d <| db_leader := Some l |>) ;;
      ret (mkLeaderResult true (ld_elected_at l) (leader_asked l))
  end.
Definition LeaderAttempt (client ttl : Z) : w -> DB -> result LeaderResult * DB := write (LeaderAttempt_w client ttl).

Definition LeaderRequestResign_w (leaderID : Z) : W Z :=
  let* now := us in
  let* row := get (fun d => match db_leader d with
                            | Some l => if (ld_expires_at l >? now) && ((leaderID =? 0) || (ld_client_id l =? leaderID))
                                        then Some l else None
                            | None => None
                            end) in
  match row with
  | None => ret 0
  | Some l =>
      modify (fun d => d <| db_leader := Some (l <| ld_resign_client_id := Some (ld_client_id l) |>) |>) ;;
      notify ChannelLeader ["resign"] ;;
      ret (ld_client_id l)
  end.
Definition LeaderRequestResign (leaderID : Z) : w -> DB -> result Z * DB := write (LeaderRequestResign_w leaderID).

Definition LeaderResign_w (client : Z) : W bool :=
  let* held := get (fun d => match db_leader d with Some l => ld_client_id l =? client | None => false end) in
  if negb held then ret false
  else
    modify (fun d => d <| db_leader := None |>) ;;
    notify ChannelLeader ["resigned"] ;;
    ret true.
Definition LeaderResign (client : Z) : w -> DB -> result bool * DB := write (LeaderResign_w client).

(** ** Queues *)

Definition new_queue (name : string) (now : Z) : QueueRow :=
  mkQueueRow name None None None None None None None None "{}" now.

(** INSERT INTO hopper_queues ... ON CONFLICT (name) DO UPDATE *)
Definition upsert_queue (name : string) (fresh : QueueRow) (change : QueueRow -> QueueRow) (t : list QueueRow) : list QueueRow :=
  if ex (queue_is name) t then upd (queue_is name) change t else (t ++ [fresh])%list.

Definition QueueEnsure (names : list string) (x : w) (d : DB) : result unit * DB :=
  match names with
  | [] => (Ok tt, d)
  | _ => write (iterM (fun name =>
           let* now := us in
           modify (fun d => d <| db_queues ::= upsert_queue name (new_queue name now) (fun q => q) |>)) names) x d
  end.

Definition setPaused_w (name : string) (paused : bool) : W unit :=
  let* now := us in
  modify (fun d => d <| db_queues ::=
    (if paused
     then upsert_queue name ((new_queue name now) <| q_paused_at := Some now |>)
            (fun q => q <| q_paused_at ::= (fun o => match o with Some t => Some t | None => Some now end) |> <| q_updated_at := now |>)
     else upsert_queue name (new_queue name now) (fun q => q <| q_paused_at := None |> <| q_updated_at := now |>)) |>) ;;
  notify ChannelControl [(if paused then "pause" else "resume") ++ ":" ++ name].
Definition QueuePause (name : string) : w -> DB -> result unit * DB := write (setPaused_w name true).
Definition QueueResume (name : string) : w -> DB -> result unit * DB := write (setPaused_w name false).

Record QueueLimits : Type := mkQueueLimits {
  ql_Name : string; ql_GlobalLimit : Z; ql_RatePerSec : spec_float; ql_RateBurst : Z; ql_PartitionLimit : Z; ql_Aging : Z }.

Definition QueueList (d : DB) : list (QueueRow * QueueLimits) :=
  let int o := match o with Some n => n | None => 0 end in
  List.map (fun q => (q, mkQueueLimits (q_name q) (int (q_global_limit q))
                           (match q_rate_per_sec q with Some r => r | None => f_of_Z 0 end) (int (q_rate_burst q))
                           (int (q_partition_limit q)) (int (q_aging_seconds q) * 1000000000)))
    (order_by (fun a b => String.leb (q_name a) (q_name b)) (db_queues d)).

Definition nullablePositive (v : Z) : option Z := if v <=? 0 then None else Some v.

(** hopper_queues.rate_per_sec IS NOT excluded.rate_per_sec *)
Definition rate_changed (a b : option spec_float) : bool :=
  match a, b with
  | None, None => false
  | Some r, Some s => negb match SFcompare r s with Some Eq => true | _ => false end
  | _, _ => true
  end.

(** QueueSetLimits: a new rate starts with a full bucket. *)
Definition QueueSetLimits_w (l : QueueLimits) : W unit :=
  let rate := if f_ltb (f_of_Z 0) (ql_RatePerSec l) then Some (ql_RatePerSec l) else None in
  let limits (q : QueueRow) :=
    q <| q_global_limit := nullablePositive (ql_GlobalLimit l) |> <| q_rate_per_sec := rate |>
      <| q_rate_burst := nullablePositive (ql_RateBurst l) |> <| q_partition_limit := nullablePositive (ql_PartitionLimit l) |>
      <| q_aging_seconds := nullablePositive (Z.quot (ql_Aging l) 1000000000) |> in
  let* now := us in
  modify (fun d => d <| db_queues ::= upsert_queue (ql_Name l) (limits (new_queue (ql_Name l) now))
    (fun q => (limits q) <| q_tokens ::= (fun o => if rate_changed (q_rate_per_sec q) rate then None else o) |>
                         <| q_updated_at := now |>) |>) ;;
  notify ChannelControl ["limit:" ++ ql_Name l].
Definition QueueSetLimits (l : QueueLimits) : w -> DB -> result unit * DB := write (QueueSetLimits_w l).

(** ** Periodic jobs *)

Record PeriodicInsertParams : Type := mkPeriodicInsertParams { pi_Name : string; pi_Slot : Z; pi_Job : JobInsertParams }.

Definition last_slot (name : string) (t : list (string * Z)) : option Z :=
  option_map snd (one (fun r => String.eqb (fst r) name) t).

(** The upsert of the slot: [None] if the stored slot is not earlier. *)
Definition advance_slot (name : string) (slot : Z) (t : list (string * Z)) : option (list (string * Z)) :=
  match last_slot name t with
  | None => Some (t ++ [(name, slot)])%list
  | Some s => if s <? slot then Some (upd (fun r => String.eqb (fst r) name) (fun r => (fst r, slot)) t) else None
  end.

(** PeriodicInsert: the job and whether it was inserted. *)
Definition PeriodicInsert_w (name : string) (slot : Z) (j : jobInsert) : W (option JobView * bool) :=
  let* t := get (fun d => advance_slot name slot (db_periodic d)) in
  match t with
  | None => ret (None, false)
  | Some t =>
      modify (fun d => d <| db_periodic := t |>) ;;
      let* r := insertOne ConflictSkip j in
      notify ChannelInsert [i_queue j] ;;
      ret (Some (ir_Job r), negb (ir_Duplicate r))
  end.
Definition PeriodicInsert (p : PeriodicInsertParams) (x : w) (d : DB) : result (option JobView * bool) * DB :=
  match encodeInsert (pi_Job p) with
  | Err e => (Err e, d)
  | Ok j => write (PeriodicInsert_w (pi_Name p) (pi_Slot p) j) x d
  end.

(** PeriodicLastSlots: the map from names to slots, as the table's rows. *)
Definition PeriodicLastSlots (d : DB) : list (string * Z) := db_periodic d.

Record PeriodicRegistration : Type := mkPeriodicRegistration { pr_Name : string; pr_Definition : string; pr_Digest : string }.

Definition insert_registration (client : Z) (r : PeriodicRegistration) : W unit := fun _ d =>
  if ex (fun g => (g_client_id g =? client) && String.eqb (g_name g) (pr_Name r)) (db_registrations d)
     || negb (json_valid (pr_Definition r))
  then Err ErrConstraint
  else Ok (tt, d <| db_registrations ::= (fun t => t ++ [mkRegistrationRow client (pr_Name r) (pr_Definition r) (pr_Digest r)])%list |>).

Definition PeriodicRegister_w (client : Z) (rs : list PeriodicRegistration) : W unit :=
  modify (fun d => d <| db_registrations ::=
    del (fun g => (g_client_id g =? client) || negb (ex (fun c => c_id c =? g_client_id g) (db_clients d))) |>) ;;
  let* now := us in
  let* live := get (fun d => ex (client_live client now) (db_clients d)) in
  if negb live then ret tt else iterM (insert_registration client) rs.
Definition PeriodicRegister (client : Z) (rs : list PeriodicRegistration) : w -> DB -> result unit * DB :=
  write (PeriodicRegister_w client rs).

(** PeriodicRegistrations: JOIN of the live clients' registrations,
    ORDER BY r.name, c.started_at DESC, c.id DESC *)
Definition registration_leb (a b : RegistrationRow * ClientRow) : bool :=
  if String.eqb (g_name (fst a)) (g_name (fst b)) then
    if c_started_at (snd a) =? c_started_at (snd b) then c_id (snd b) <=? c_id (snd a)
    else c_started_at (snd b) <? c_started_at (snd a)
  else String.leb (g_name (fst a)) (g_name (fst b)).
Definition PeriodicRegistrations (now : Z) (d : DB) : list (RegistrationRow * ClientRow) :=
  order_by registration_leb
    (List.flat_map (fun g => List.map (fun c => (g, c)) (sel (fun c => client_live (g_client_id g) now c) (db_clients d)))
       (db_registrations d)).

(** ** Statistics *)

Record QueueStats : Type := mkQueueStats {
  qs_Available : Z; qs_Scheduled : Z; qs_Retryable : Z; qs_Running : Z;
  qs_OldestAvailable : Z; qs_CompletedLastMinute : Z; qs_Paused : bool }.
#[export] Instance settable_QueueStats : Settable QueueStats := fun q =>
  mkQueueStats (qs_Available q) (qs_Scheduled q) (qs_Retryable q) (qs_Running q) (qs_OldestAvailable q)
    (qs_CompletedLastMinute q) (qs_Paused q).
Definition zero_stats : QueueStats := mkQueueStats 0 0 0 0 0 0 false.

Record Stats : Type := mkStats {
  ss_Queues : list (string * QueueStats); ss_LiveClients : Z; ss_Leader : Z; ss_RunningByClient : list (Z * Z) }.

(** stats.Queues[name], created if absent, changed by [f]. *)
Definition at_queue (name : string) (f : QueueStats -> QueueStats) (m : list (string * QueueStats)) : list (string * QueueStats) :=
  smap_set name (f (match smap_get name m with Some q => q | None => zero_stats end)) m.

Definition due (now : Z) (j : JobRow) : bool := waiting (j_State j) && (j_ScheduledAt j <=? now).

(** A group of GROUP BY queue, state, with its count and oldest due job. *)
Definition count_group (now : Z) (t : list JobRow) (g : string * JobState) (m : list (string * QueueStats)) : list (string * QueueStats) :=
  let rows := sel (fun j => String.eqb (j_Queue j) (fst g) && state_eqb (j_State j) (snd g)) t in
  let n := Z.of_nat (List.length rows) in
  let oldest := List.fold_left (fun o j => if due now j
                  then Some (match o with Some s => Z.min s (j_ScheduledAt j) | None => j_ScheduledAt j end) else o) rows None in
  at_queue (fst g) (fun q =>
    let q := match snd g with
             | Available => q <| qs_Available := n |>
             | Scheduled => q <| qs_Scheduled := n |>
             | Retryable => q <| qs_Retryable := n |>
             | Running => q <| qs_Running := n |>
             | _ => q
             end in
    match oldest with
    | Some s => q <| qs_OldestAvailable ::= Z.max ((now - s) * 1000) |>
    | None => q
    end) m.

Definition pair_eq_dec (a b : string * JobState) : {a = b} + {a <> b}.
Proof. decide equality; [decide equality | apply string_dec]. Defined.

Definition Stats_of (now : Z) (d : DB) : Stats :=
  let groups := List.nodup pair_eq_dec (List.map (fun j => (j_Queue j, j_State j)) (db_jobs d)) in
  let depths := List.fold_left (fun m g => count_group now (db_jobs d) g m) groups [] in
  let queues := List.fold_left (fun m q => at_queue (q_name q) (fun s =>
      s <| qs_Paused := not_null (q_paused_at q) |>
        <| qs_CompletedLastMinute := cnt (fun h => String.eqb (j_Queue (h_job h)) (q_name q) && state_eqb (j_State (h_job h)) Completed
                                            && (h_FinalizedAt h >? now - 60000000)) (db_history d) |>) m) (db_queues d) depths in
  mkStats queues (cnt (fun c => c_expires_at c >? now) (db_clients d))
    (match db_leader d with Some l => if ld_expires_at l >? now then ld_client_id l else 0 | None => 0 end)
    (List.map (fun c => (c, cnt (fun j => is_running j && null_eq Z.eqb (j_AttemptedBy j) (Some c)) (db_jobs d)))
       (List.nodup Z.eq_dec (List.flat_map (fun j => match j_AttemptedBy j with Some c => if is_running j then [c] else [] | None => [] end)
                               (db_jobs d)))).

(** ** Retention *)

Definition retentionBatch : Z := 1000.

Record HistoryMaintainParams : Type := mkHistoryMaintainParams {
  hm_CompletedRetention : Z; hm_FailedRetention : Z; hm_StreamRetention : Z }.

Inductive retention_group : Type := CompletedHistory | FailedHistory | StreamEvents.
Definition group_name (g : retention_group) : string :=
  match g with
  | CompletedHistory => "hopper_job_history_completed"
  | FailedHistory => "hopper_job_history_failed"
  | StreamEvents => "hopper_stream_events"
  end.
Definition group_keep (p : HistoryMaintainParams) (g : retention_group) : Z :=
  match g with
  | CompletedHistory => hm_CompletedRetention p
  | FailedHistory => hm_FailedRetention p
  | StreamEvents => hm_StreamRetention p
  end.

Definition past_history (states : list JobState) (before : Z) (h : HistoryRow) : bool :=
  existsb (state_eqb (j_State (h_job h))) states && (h_FinalizedAt h <? before).

(** DELETE FROM table WHERE rowid IN (SELECT rowid FROM table WHERE ... LIMIT 1000) *)
Definition prune_batch (g : retention_group) (keep : Z) : W Z :=
  let* before := at_ (- keep) in
  let history states :=
    (let* gone := get (fun d => limit retentionBatch (sel (past_history states before) (db_history d))) in
     modify (fun d => d <| db_history ::= del (fun h => mem_Z (h_rowid h) (List.map h_rowid gone)) |>) ;;
     ret (Z.of_nat (List.length gone))) in
  match g with
  | CompletedHistory => history [Completed]
  | FailedHistory => history [Canceled; Discarded]
  | StreamEvents =>
      let* gone := get (fun d => limit retentionBatch (sel (fun e => e_created_at e <? before) (db_events d))) in
      modify (fun d => d <| db_events ::= del (fun e => mem_Z (e_seq e) (List.map e_seq gone)) |>) ;;
      ret (Z.of_nat (List.length gone))
  end.

Inductive prune_end : Type := PruneDone | PruneDeferred | PruneError (e : error) | PruneFuel.

(** The loop of one group: a batch per write, at the time of that write
    ([xs i]), which the lock may deny ([busy i]); [i] counts the pass's
    batches.  A full batch removes rows, so the table's length bounds the
    batches. *)
Fixpoint prune_group (fuel : nat) (g : retention_group) (keep : Z) (xs : nat -> w) (busy : nat -> bool)
    (i : nat) (n : Z) (d : DB) : prune_end * nat * Z * DB :=
  match fuel with
  | O => (PruneFuel, i, n, d)
  | S fuel' =>
      if busy i then (PruneDeferred, S i, n, d)
      else match write (prune_batch g keep) (xs i) d with
           | (Err e, d') => (PruneError e, S i, n, d')
           | (Ok k, d') =>
               if k <? retentionBatch then (PruneDone, S i, n + k, d')
               else prune_group fuel' g keep xs busy (S i) (n + k) d'
           end
  end.

Record HistoryMaintainResult : Type := mkHistoryMaintainResult {
  hr_Deferred : list string; hr_Pruned : Z; hr_Errors : list error }.

Definition prune_fuel (d : DB) : nat := S (List.length (db_history d) + List.length (db_events d)).

Fixpoint prune_groups (gs : list retention_group) (p : HistoryMaintainParams) (xs : nat -> w) (busy : nat -> bool)
    (i : nat) (res : HistoryMaintainResult) (d : DB) : HistoryMaintainResult * DB :=
  match gs with
  | [] => (res, d)
  | g :: rest =>
      if group_keep p g <=? 0 then prune_groups rest p xs busy i res d
      else
        let '(out, i', n, d') := prune_group (prune_fuel d) g (group_keep p g) xs busy i 0 d in
        let res := mkHistoryMaintainResult
          (match out with PruneDeferred => hr_Deferred res ++ [group_name g] | _ => hr_Deferred res end)%list
          (hr_Pruned res + n)
          (match out with PruneError e => hr_Errors res ++ [e] | PruneFuel => hr_Errors res ++ [ErrFuel] | _ => hr_Errors res end)%list in
        prune_groups rest p xs busy i' res d'
  end.

(** HistoryMaintain on the pool; in a transaction it is refused. *)
Definition HistoryMaintain (p : HistoryMaintainParams) (inTx : bool) (xs : nat -> w) (busy : nat -> bool) (d : DB)
    : HistoryMaintainResult * DB :=
  if inTx then (mkHistoryMaintainResult [] 0 [ErrText "history maintenance must run on the pool, not in a transaction"], d)
  else prune_groups [CompletedHistory; FailedHistory; StreamEvents] p xs busy 0 (mkHistoryMaintainResult [] 0 []) d.

(** JobsMaintain's test of the planner's statistics: [believed] is the row
    count they hold, -1 for none, and [live] the count up to ten times the
    floor. *)
Definition analyze_floor (believed : Z) : Z := Z.max believed 100.
Definition stats_stale (believed rows : Z) : bool :=
  let live := Z.min rows (10 * analyze_floor believed) in
  if believed <? 0 then live >=? 1000
  else (live >=? 10 * analyze_floor believed) || (believed >=? 10 * Z.max live 100).
