(* ===== verification/Topics.v ===== *)
(** * Topic patterns (driver/hoppersqlite/funcs.go)

    hopper_topic_matches: an AMQP pattern rewritten to a regular expression by
    five textual replacements, compiled and matched.  A pattern and a topic are
    the lists of their runes.  [regexp_compile] reads the syntax the rewriting
    produces, and [re_match] is MatchString of an anchored expression. *)

From Stdlib Require Import List ZArith Lia Bool String.
From stdpp Require Import base tactics list.
From S2P Require Import Prelude Text Types.
Import ListNotations.
Local Open Scope Z_scope.
Local Open Scope list_scope.

(** ** Rewriting *)

(** topicSpecial: . + ? ^ $ { } ( ) | [ ] and the backslash. *)
Definition topicSpecial (r : Z) : bool := mem_Z r [46; 43; 63; 94; 36; 123; 125; 40; 41; 124; 91; 93; 92].

(** topicSpecial.ReplaceAllString(pattern, `\$1`) *)
Definition escape (p : list Z) : list Z := List.flat_map (fun r => if topicSpecial r then [92; r] else [r]) p.

Fixpoint prefix (p s : list Z) : bool :=
  match p, s with
  | [], _ => true
  | a :: p', b :: s' => (a =? b) && prefix p' s'
  | _, [] => false
  end.

(** strings.ReplaceAll with a non-empty [old]; [skip] runes are left of the
    occurrence last replaced. *)
Fixpoint replace_from (old new : list Z) (skip : nat) (s : list Z) : list Z :=
  match s with
  | [] => []
  | c :: r =>
      match skip with
      | S k => replace_from old new k r
      | O => if prefix old s then new ++ replace_from old new (List.length old - 1) r
             else c :: replace_from old new 0 r
      end
  end.
Definition replaceAll (old new s : list Z) : list Z := replace_from old new 0 s.

(** The steps of topicRegexp, as the runes of the literals in the source. *)
Definition one_word : list Z := [91; 94; 46; 93; 43].          (* [^.]+ *)
Definition dot : list Z := [92; 46].                            (* \. *)
Definition hash : list Z := [35].                               (* # *)
Definition any_tail : list Z := [40; 92; 46; 46; 42; 41; 63].   (* (\..* )? without the space *)
Definition any_head : list Z := [40; 46; 42; 92; 46; 41; 63].   (* (.*\.)? *)
Definition anything : list Z := [46; 42].                       (* .* *)
Definition topic_steps : list (list Z * list Z) :=
  [([42], one_word);
   (dot ++ hash ++ dot, any_tail ++ dot);
   (dot ++ hash, any_tail);
   (hash ++ dot, any_head);
   (hash, anything)].
Definition topicExpr (pattern : list Z) : list Z :=
  List.fold_left (fun expr st => replaceAll (fst st) (snd st) expr) topic_steps (escape pattern).

(** ** Regular expressions *)

Inductive re : Type :=
| Void | Eps | Chr (r : Z) | Any | NotDot
| Cat (a b : re) | Alt (a b : re) | Star (a : re).

Definition Plus (a : re) : re := Cat a (Star a).
Definition Opt (a : re) : re := Alt Eps a.

(** Under (?s), '.' takes every rune. *)
Fixpoint nullable_re (e : re) : bool :=
  match e with
  | Void | Chr _ | Any | NotDot => false
  | Eps | Star _ => true
  | Cat a b => nullable_re a && nullable_re b
  | Alt a b => nullable_re a || nullable_re b
  end.
Fixpoint deriv (r : Z) (e : re) : re :=
  match e with
  | Void | Eps => Void
  | Chr c => if r =? c then Eps else Void
  | Any => Eps
  | NotDot => if r =? 46 then Void else Eps
  | Cat a b => if nullable_re a then Alt (Cat (deriv r a) b) (deriv r b) else Cat (deriv r a) b
  | Alt a b => Alt (deriv r a) (deriv r b)
  | Star a => Cat (deriv r a) (Star a)
  end.
Fixpoint re_match (e : re) (s : list Z) : bool :=
  match s with [] => nullable_re e | r :: s' => re_match (deriv r e) s' end.

(** A repetition operator after an atom. *)
Definition postfix (a : re) (s : list Z) : re * list Z :=
  match s with
  | 42 :: r => (Star a, r)
  | 43 :: r => (Plus a, r)
  | 63 :: r => (Opt a, r)
  | _ => (a, s)
  end.

(** A sequence up to the end or to a closing parenthesis. *)
Fixpoint parse_seq (fuel : nat) (s : list Z) : option (re * list Z) :=
  match fuel with
  | O => match s with [] => Some (Eps, []) | _ => None end
  | S n =>
      match s with
      | [] => Some (Eps, [])
      | 41 :: _ => Some (Eps, s)
      | _ =>
          let atom :=
            match s with
            | 40 :: r => match parse_seq n r with Some (e, 41 :: r') => Some (e, r') | _ => None end
            | 92 :: c :: r => Some (Chr c, r)
            | 91 :: 94 :: 46 :: 93 :: r => Some (NotDot, r)
            | 46 :: r => Some (Any, r)
            | c :: r => if topicSpecial c || (c =? 42) then None else Some (Chr c, r)
            | [] => None
            end in
          match atom with
          | None => None
          | Some (a, r) =>
              let '(a, r) := postfix a r in
              match parse_seq n r with
              | Some (e, rest) => Some (Cat a e, rest)
              | None => None
              end
          end
      end
  end.
Definition regexp_compile (expr : list Z) : option re :=
  match parse_seq (List.length expr) expr with Some (e, []) => Some e | _ => None end.

(** topicRegexp and topicMatchesSQL: a pattern that is not UTF-8 does not
    compile. *)
Definition topicRegexp (pattern : string) : result re :=
  if negb (utf8_valid pattern) then Err (ErrText "topic pattern: invalid UTF-8")
  else match regexp_compile (topicExpr (List.map fst (runes pattern))) with
       | Some e => Ok e
       | None => Err (ErrText "topic pattern: invalid syntax")
       end.
Definition topic_matches (pattern topic : string) : result bool :=
  match topicRegexp pattern with
  | Err e => Err e
  | Ok e => Ok (re_match e (List.map fst (runes topic)))
  end.

Example topic_ab : topic_matches "a.#.b" "a.x.y.b" = Ok true /\ topic_matches "a.#.b" "a.b" = Ok true
  /\ topic_matches "*.b" "a.b" = Ok true /\ topic_matches "*.b" "a.a.b" = Ok false
  /\ topic_matches "#.b" "b" = Ok true /\ topic_matches "#.#.b" "b" = Ok false.
Proof. vm_compute. tauto. Qed.
