(* ===== verification/Messaging.v ===== *)
(** * Messages and streams (driver/hoppersqlite/messaging.go)

    Subscriptions and the fan-out of a published message, and the append-only
    log of events with its consumers, each of which has read every event up to
    the seq it has seen. *)

From Stdlib Require Import List ZArith Lia Bool String.
From stdpp Require Import base tactics list.
From S2P Require Import Prelude Sql Text Json JsonCheck Types Store JobId Insert Topics.
Import ListNotations.
Local Open Scope string_scope.
Local Open Scope Z_scope.

(** ** Subscriptions *)

Record Subscription : Type := mkSubscription {
  sb_Name : string; sb_Pattern : string; sb_Kind : string; sb_Queue : string; sb_MaxAttempts : Z; sb_Metadata : string }.

(** MaxAttempts of a subscription or consumer: NULL unless positive. *)
Definition optionalAttempts (n : Z) : result (option Z) :=
  if n >? 0 then match smallint n "max_attempts" with Ok v => Ok (Some v) | Err e => Err e end else Ok None.

Fixpoint encodeSubscriptions (subs : list Subscription) : result (list (Subscription * option Z * string)) :=
  match subs with
  | [] => Ok []
  | s :: rest =>
      match optionalAttempts (sb_MaxAttempts s) with
      | Err e => Err e
      | Ok n =>
          match jsonValue (sb_Metadata s) "{}" "subscription metadata" with
          | Err e => Err e
          | Ok m => match encodeSubscriptions rest with Err e => Err e | Ok rows => Ok ((s, n, m) :: rows) end
          end
      end
  end.

Definition upsert_subscription (r : SubscriptionRow) (t : list SubscriptionRow) : list SubscriptionRow :=
  let named (s : SubscriptionRow) := String.eqb (s_name s) (s_name r) in
  if ex named t
  then upd named (fun s => s <| s_pattern := s_pattern r |> <| s_kind := s_kind r |> <| s_queue := s_queue r |>
                             <| s_max_attempts := s_max_attempts r |> <| s_metadata := s_metadata r |>) t
  else (t ++ [r])%list.

Definition SubscriptionUpsert (subs : list Subscription) (x : w) (d : DB) : result unit * DB :=
  match subs with
  | [] => (Ok tt, d)
  | _ =>
      match encodeSubscriptions subs with
      | Err e => (Err e, d)
      | Ok rows =>
          write (iterM (fun row => let '(s, n, m) := row in
                   let* now := us in
                   modify (fun d => d <| db_subscriptions ::= upsert_subscription
                     (mkSubscriptionRow (sb_Name s) (sb_Pattern s) (sb_Kind s) (sb_Queue s) n m now) |>)) rows) x d
      end
  end.

Definition by_name (a b : SubscriptionRow) : bool := String.leb (s_name a) (s_name b).
Definition SubscriptionList (d : DB) : list SubscriptionRow := order_by by_name (db_subscriptions d).

(** ** Publishing *)

(** mergeObjects: base's members and over's, over winning.  A base that is the
    JSON null makes the map nil, and storing a member in it panics. *)
Definition mergeObjects (base over : string) : result string :=
  let o := object_or_nil over in
  match json_parse base, o with
  | Some JNull, _ :: _ => Err (ErrPanic "assignment to entry in nil map")
  | Some JNull, [] => Ok "null"
  | _, _ => Ok (json_print (object_of (List.fold_left (fun m kv => smap_set (fst kv) (snd kv) m) o (object_or_nil base))))
  end.

(** json.Marshal of a map: its members by key. *)
Definition marshal_map (m : list (string * json)) : json :=
  object_of (List.fold_left (fun acc kv => smap_set (fst kv) (snd kv) acc) m []).
Definition headersJSON (headers : option (list (string * string))) : json :=
  match headers with
  | None => JObj []
  | Some h => marshal_map (List.map (fun kv => (fst kv, jstring (snd kv))) h)
  end.

Record MessagePublishParams : Type := mkMessagePublishParams {
  mp_Topic : string; mp_Payload : string; mp_Headers : option (list (string * string)); mp_OrderingKey : string;
  mp_DedupKey : string; mp_Delay : Z; mp_TTL : Z; mp_Priority : Z; mp_Await : bool; mp_Notify : bool }.

(** The retry budget of a delivery: its subscriber's, or 10 with an ordering
    key and 25 without. *)
Definition deliveryAttempts (own : option Z) (key : string) : Z :=
  match own with
  | Some n => n
  | None => if String.eqb key "" then 25 else 10
  end.

Definition delivery (p : MessagePublishParams) (priority : Z) (payload metadata : string) (at_ns : Z) (s : SubscriptionRow) : jobInsert :=
  mkJobInsert (s_kind s) (s_queue s) priority (deliveryAttempts (s_max_attempts s) (mp_OrderingKey p)) (Some at_ns) payload metadata []
    (if String.eqb (mp_DedupKey p) "" then "" else "msg:" ++ mp_DedupKey p) [] (mp_OrderingKey p) "" 0 (mp_TTL p) (mp_Await p) false 0.

(** The rows a WHERE with hopper_topic_matches selects; its error is the
    statement's. *)
Fixpoint matching {A} (pattern topic : A -> string) (l : list A) : result (list A) :=
  match l with
  | [] => Ok []
  | x :: r =>
      match topic_matches (pattern x) (topic x) with
      | Err e => Err e
      | Ok b => match matching pattern topic r with Err e => Err e | Ok r' => Ok (if b then x :: r' else r') end
      end
  end.

Definition distinct_strings (l : list string) : list string :=
  List.fold_left (fun out s => if mem_str s out then out else (out ++ [s])%list) l [].

Definition MessagePublish_w (p : MessagePublishParams) (priority : Z) (payload : string) : W (list JobInsertResult) :=
  let* r := get (fun d => matching s_pattern (fun _ => mp_Topic p) (db_subscriptions d)) in
  let* subs := lift r in
  let subs := order_by by_name subs in
  let* id := newID in
  let base := json_print (marshal_map [("topic", jstring (mp_Topic p)); ("message_id", jstring (JobID_String id));
                                       ("headers", headersJSON (mp_Headers p))]) in
  let* now := us in
  let* results := mapM (fun s =>
      let* metadata := lift (mergeObjects base (s_metadata s)) in
      insertOne ConflictSkip (delivery p priority payload metadata (now * 1000 + Z.max (mp_Delay p) 0) s)) subs in
  (if mp_Notify p then notify ChannelInsert (distinct_strings (List.map s_queue subs)) else ret tt) ;;
  ret results.

Definition MessagePublish (p : MessagePublishParams) (x : w) (d : DB) : result (list JobInsertResult) * DB :=
  match smallint (if mp_Priority p =? 0 then 2 else mp_Priority p) "priority" with
  | Err e => (Err e, d)
  | Ok priority =>
      match jsonValue (mp_Payload p) "null" "payload" with
      | Err e => (Err e, d)
      | Ok payload => write (MessagePublish_w p priority payload) x d
      end
  end.

(** ** Streams *)

Record StreamPosition : Type := mkStreamPosition { sp_Xid : Z; sp_Seq : Z }.
Definition position (seq : Z) : StreamPosition := mkStreamPosition 0 seq.
Definition position_IsZero (p : StreamPosition) : bool := (sp_Xid p =? 0) && (sp_Seq p =? 0).
Definition position_Less (p q : StreamPosition) : bool :=
  (sp_Xid p <? sp_Xid q) || ((sp_Xid p =? sp_Xid q) && (sp_Seq p <? sp_Seq q)).
Definition position_String (p : StreamPosition) : string := itoa (sp_Xid p) ++ ":" ++ itoa (sp_Seq p).

Record StreamEvent : Type := mkStreamEvent {
  se_Position : StreamPosition; se_Topic : string; se_Key : string; se_Payload : string;
  se_Headers : option (list (string * string)); se_MessageID : string; se_CreatedAt : Z }.

(** Unmarshal into a map[string]string. *)
Fixpoint string_members (m : list (string * json)) : option (list (string * string)) :=
  match m with
  | [] => Some []
  | (k, v) :: r =>
      match string_members r with
      | None => None
      | Some r' =>
          match v with
          | JStr l => Some ((k, unquote l) :: r')
          | JNull => Some ((k, "") :: r')
          | _ => None
          end
      end
  end.
Definition decode_headers (headers : string) : result (option (list (string * string))) :=
  if String.eqb headers "{}" then Ok None
  else match json_parse headers with
       | Some JNull => Ok None
       | Some j => match as_object j with
                   | Some m => match string_members m with Some h => Ok (Some h) | None => Err (ErrText "headers") end
                   | None => Err (ErrText "headers")
                   end
       | None => Err (ErrText "headers")
       end.

Definition scanEvent (e : EventRow) : result StreamEvent :=
  match decode_headers (e_headers e) with
  | Err err => Err err
  | Ok h => Ok (mkStreamEvent (position (e_seq e)) (e_topic e) (textOf (e_key e)) (e_payload e) h
                  (JobID_String (e_message_id e)) (e_created_at e))
  end.
Fixpoint scanEvents (l : list EventRow) : result (list StreamEvent) :=
  match l with
  | [] => Ok []
  | e :: r =>
      match scanEvent e with
      | Err err => Err err
      | Ok ev => match scanEvents r with Err err => Err err | Ok evs => Ok (ev :: evs) end
      end
  end.

Record StreamAppendParams : Type := mkStreamAppendParams {
  sa_Topic : string; sa_Key : string; sa_Payload : string; sa_Headers : option (list (string * string)); sa_Notify : bool }.

Definition insert_event (topic : string) (key : option string) (payload headers : string) (id : JobID) : W EventRow := fun x d =>
  let seq := db_event_seq d + 1 in
  let e := mkEventRow seq topic key payload headers id (w_now x) in
  Ok (e, d <| db_events ::= (fun t => t ++ [e])%list |> <| db_event_seq := seq |>).

Definition StreamAppend_w (p : StreamAppendParams) (payload : string) : W StreamEvent :=
  let* id := newID in
  let* e := insert_event (sa_Topic p) (nullable (sa_Key p)) payload (json_print (headersJSON (sa_Headers p))) id in
  let* ev := lift (scanEvent e) in
  (if sa_Notify p then notify ChannelStream [sa_Topic p] else ret tt) ;;
  ret ev.
Definition StreamAppend (p : StreamAppendParams) (x : w) (d : DB) : result StreamEvent * DB :=
  match jsonValue (sa_Payload p) "null" "payload" with
  | Err e => (Err e, d)
  | Ok payload => write (StreamAppend_w p payload) x d
  end.

Definition seq_order (a b : EventRow) : bool := e_seq a <=? e_seq b.

(** The events past [seen] a pattern matches, oldest first. *)
Definition events_after (d : DB) (seen : Z) (pattern : string) : result (list EventRow) :=
  match matching (fun _ => pattern) e_topic (sel (fun e => e_seq e >? seen) (db_events d)) with
  | Err e => Err e
  | Ok l => Ok (order_by seq_order l)
  end.

Definition StreamRead (after : StreamPosition) (pattern : string) (n : Z) (d : DB) : result (list StreamEvent) :=
  let found := if String.eqb pattern "" then Ok (order_by seq_order (sel (fun e => e_seq e >? sp_Seq after) (db_events d)))
               else events_after d (sp_Seq after) pattern in
  match found with
  | Err e => Err e
  | Ok l => scanEvents (limit (Z.max n 1) l)
  end.

(** ** Consumers *)

Record StreamConsumer : Type := mkStreamConsumer {
  sc_Name : string; sc_Pattern : string; sc_Kind : string; sc_Queue : string; sc_MaxAttempts : Z;
  sc_Metadata : string; sc_Earliest : bool }.

Definition latest_seq (d : DB) : Z := List.fold_left (fun m e => Z.max m (e_seq e)) (db_events d) 0.
Definition consumer_is (name : string) (k : ConsumerRow) : bool := String.eqb (k_name k) name.

Definition upsert_consumer (r : ConsumerRow) (t : list ConsumerRow) : list ConsumerRow :=
  if ex (consumer_is (k_name r)) t
  then upd (consumer_is (k_name r)) (fun k => k <| k_pattern := k_pattern r |> <| k_kind := k_kind r |> <| k_queue := k_queue r |>
                                                <| k_max_attempts := k_max_attempts r |> <| k_metadata := k_metadata r |>) t
  else (t ++ [r])%list.

Definition upsertConsumer (latest : Z) (c : StreamConsumer) : W unit :=
  let* n := lift (optionalAttempts (sc_MaxAttempts c)) in
  let* m := lift (jsonValue (sc_Metadata c) "{}" "consumer metadata") in
  let* now := us in
  modify (fun d => d <| db_consumers ::= upsert_consumer
    (mkConsumerRow (sc_Name c) (sc_Pattern c) (sc_Kind c) (sc_Queue c) n m (if sc_Earliest c then 0 else latest) 0 None now) |>).
Definition StreamConsumerUpsert (cs : list StreamConsumer) (x : w) (d : DB) : result unit * DB :=
  match cs with
  | [] => (Ok tt, d)
  | _ => write (let* latest := get latest_seq in iterM (upsertConsumer latest) cs) x d
  end.

Definition StreamConsumerList (d : DB) : list ConsumerRow :=
  order_by (fun a b => String.leb (k_name a) (k_name b)) (db_consumers d).

Record StreamSeekParams : Type := mkStreamSeekParams {
  sk_Position : StreamPosition; sk_Time : option Z; sk_Earliest : bool; sk_Latest : bool }.

(** Where a seek moves to. *)
Definition seek_seen (d : DB) (p : StreamSeekParams) : result Z :=
  if negb (position_IsZero (sk_Position p)) then Ok (sp_Seq (sk_Position p))
  else match sk_Time p with
       | Some t =>
           match hd_error (order_by seq_order (sel (fun e => e_created_at e >=? t) (db_events d))) with
           | Some e => Ok (e_seq e - 1)
           | None => Ok (latest_seq d)
           end
       | None =>
           if sk_Earliest p then Ok 0
           else if sk_Latest p then Ok (latest_seq d)
           else Err (ErrText "nothing to seek to")
       end.
Definition StreamConsumerSeek_w (name : string) (p : StreamSeekParams) : W unit :=
  let* r := get (fun d => seek_seen d p) in
  let* seen := lift r in
  let* found := get (fun d => ex (consumer_is name) (db_consumers d)) in
  if negb found then fail ErrNotFound
  else modify (fun d => d <| db_consumers ::= upd (consumer_is name) (fun k => k <| k_seen := seen |> <| k_position := seen |>) |>).
Definition StreamConsumerSeek (name : string) (p : StreamSeekParams) : w -> DB -> result unit * DB :=
  write (StreamConsumerSeek_w name p).

Record StreamPumpResult : Type := mkStreamPumpResult { pu_Delivered : Z; pu_Position : StreamPosition; pu_Queues : list string }.

(** An event's delivery job for a consumer. *)
Definition pump_event (k : ConsumerRow) (ev : StreamEvent) : W unit :=
  let over := json_print (marshal_map [("topic", jstring (se_Topic ev)); ("message_id", jstring (se_MessageID ev));
                ("headers", headersJSON (se_Headers ev)); ("stream", jstring (k_name k));
                ("position", jstring (position_String (se_Position ev)))]) in
  let* meta := lift (mergeObjects (k_metadata k) over) in
  insertJob (mkJobInsert (k_kind k) (k_queue k) 2 (deliveryAttempts (k_max_attempts k) (se_Key ev)) None (se_Payload ev) meta []
               "" [] (se_Key ev) "" 0 0 false false 0) ;;
  ret tt.

Definition StreamPump_w (name : string) (n : Z) : W StreamPumpResult :=
  let n := Z.max n 1 in
  let* row := get (fun d => one (consumer_is name) (db_consumers d)) in
  match row with
  | None => fail ErrNotFound
  | Some k =>
      let* r := get (fun d => events_after d (k_seen k) (k_pattern k)) in
      let* rows := lift r in
      let* events := lift (scanEvents (limit n rows)) in
      iterM (pump_event k) events ;;
      let delivered := Z.of_nat (List.length events) in
      let seqs := List.map (fun ev => sp_Seq (se_Position ev)) events in
      let pos := List.last seqs (k_position k) in
      let seen := List.last seqs (k_seen k) in
      let* latest := get latest_seq in
      let seen := if delivered <? n then Z.max seen latest else seen in
      let* now := us in
      modify (fun d => d <| db_consumers ::= upd (consumer_is name)
        (fun k => k <| k_seen := seen |> <| k_position := pos |>
                    <| k_delivered_at ::= (fun o => if delivered >? 0 then Some now else o) |>) |>) ;;
      (if delivered >? 0 then notify ChannelInsert [k_queue k] else ret tt) ;;
      ret (mkStreamPumpResult delivered (position pos) (if delivered >? 0 then [k_queue k] else []))
  end.
Definition StreamPump (name : string) (n : Z) : w -> DB -> result StreamPumpResult * DB := write (StreamPump_w name n).
