(* ===== verification/Listing.v ===== *)
(** * Reads: listings, batches and workflows (jobs.go, flow.go, workflow.go; jobcodec.go's decoders)

    Each is one read transaction, so a function of the database.  A listing's
    query has an arm per table, each limited, under one ORDER BY and LIMIT.  The
    tags tables a listing by tags walks are kept by triggers to the non-empty texts
    of each row's tags, so a walk is a test of those. *)

From Stdlib Require Import List ZArith Lia Bool String.
From stdpp Require Import base tactics list.
From S2P Require Import Prelude Sql Text Json JsonCheck Types Store JobTags JobId Codec Insert.
Import ListNotations.
Local Open Scope string_scope.
Local Open Scope Z_scope.
Local Open Scope list_scope.

(** ** JobList *)

Record JobListParams : Type := mkJobListParams {
  lp_Queue : string; lp_Kinds : list string; lp_States : list JobState; lp_OrderingKey : string; lp_NewestFirst : bool;
  lp_After : JobID; lp_Limit : Z; lp_IDs : list JobID; lp_Priorities : list Z; lp_TagsAny : list string; lp_TagsAll : list string;
  lp_Metadata : string }.
#[export] Instance settable_JobListParams : Settable JobListParams := fun p =>
  mkJobListParams (lp_Queue p) (lp_Kinds p) (lp_States p) (lp_OrderingKey p) (lp_NewestFirst p) (lp_After p) (lp_Limit p)
    (lp_IDs p) (lp_Priorities p) (lp_TagsAny p) (lp_TagsAll p) (lp_Metadata p).

Definition nul : Ascii.ascii := chr 0.
Definition checkFilterText (texts : list string) : result unit :=
  if forallb (fun s => utf8_valid s && negb (has_char nul s)) texts then Ok tt
  else Err (ErrInvalidFilter "not UTF-8 text without NUL").

Definition checkJSONFilter (s : string) : result unit :=
  match checkJSON s with Ok _ => Ok tt | Err _ => Err (ErrInvalidFilter "the metadata filter") end.

(** The filters JobList refuses; the tags are checked without repeats. *)
Definition check_list (p : JobListParams) : result unit :=
  if negb (String.eqb (lp_OrderingKey p) "") && String.eqb (lp_Queue p) "" then Err (ErrInvalidFilter "an ordering key is listed within a queue")
  else if existsb (fun v => match smallint v "Priorities" with Err _ => true | Ok _ => false end) (lp_Priorities p)
  then Err (ErrInvalidFilter "Priorities is out of range")
  else
    let texts := [lp_Queue p; lp_OrderingKey p] ++ lp_Kinds p ++ List.map state_text (lp_States p)
                 ++ Distinct (lp_TagsAll p) ++ Distinct (lp_TagsAny p) in
    match checkFilterText texts with
    | Err e => Err e
    | Ok _ => if String.eqb (lp_Metadata p) "" then Ok tt else checkJSONFilter (lp_Metadata p)
    end.

(** The texts json_each gives of a row's tags. *)
Definition tag_texts (j : JobRow) : list string :=
  match j_Tags j with
  | None => []
  | Some t => List.flat_map (fun v => match v with JStr l => [unquote l] | _ => [] end) (array_or_nil t)
  end.

(** x IN (...), which an empty list leaves out. *)
Definition in_list {A} (eqb : A -> A -> bool) (l : list A) (x : A) : bool :=
  match l with [] => true | _ => existsb (eqb x) l end.

Definition tags_match (p : JobListParams) (j : JobRow) : bool :=
  let all := Distinct (lp_TagsAll p) in
  let any := Distinct (lp_TagsAny p) in
  let walked := match all with [] => any | t :: _ => [t] end in
  match walked with
  | [] => true
  | _ =>
      existsb (fun t => negb (String.eqb t "") && mem_str t walked) (tag_texts j)
      && forallb (fun t => mem_str t (tag_texts j)) all
      && match any with [] => true | _ => existsb (fun t => mem_str t any) (tag_texts j) end
  end.

Definition after_cursor (p : JobListParams) (j : JobRow) : bool :=
  if lp_NewestFirst p then (lp_After p =? 0) || (j_ID j <? lp_After p) else lp_After p <? j_ID j.

(** Every condition of the WHERE clause but the cursor. *)
Definition list_match (p : JobListParams) (j : JobRow) : bool :=
  (String.eqb (lp_Queue p) "" || String.eqb (j_Queue j) (lp_Queue p))
  && in_list String.eqb (lp_Kinds p) (j_Kind j)
  && in_list state_eqb (lp_States p) (j_State j)
  && (String.eqb (lp_OrderingKey p) "" || null_eq String.eqb (j_OrderingKey j) (Some (lp_OrderingKey p)))
  && in_list Z.eqb (lp_IDs p) (j_ID j)
  && in_list Z.eqb (lp_Priorities p) (j_Priority j)
  && (String.eqb (lp_Metadata p) "" || match jsonContainsSQL (j_Metadata j) (lp_Metadata p) with Some b => b | None => false end)
  && tags_match p j.

Definition list_leb (p : JobListParams) (a b : JobView) : bool :=
  if lp_NewestFirst p then j_ID (v_job b) <=? j_ID (v_job a) else j_ID (v_job a) <=? j_ID (v_job b).

(** A table's arm of the query, and the query. *)
Definition listed (p : JobListParams) (v : JobView) : bool := list_match p (v_job v) && after_cursor p (v_job v).
Definition arm (p : JobListParams) (rows : list JobView) : list JobView :=
  limit (Z.max (lp_Limit p) 1) (order_by (list_leb p) (sel (listed p) rows)).

Definition lists_live (p : JobListParams) : bool :=
  match lp_States p with [] => true | l => existsb (fun s => negb (Terminal s)) l end.
Definition lists_history (p : JobListParams) : bool :=
  match lp_States p with [] => true | l => existsb Terminal l end.

Definition JobList (p : JobListParams) (d : DB) : result (list JobView) :=
  match check_list p with
  | Err e => Err e
  | Ok _ =>
      let live := if lists_live p then arm p (List.map live_view (db_jobs d)) else [] in
      let history := if lists_history p then arm p (List.map history_view (db_history d)) else [] in
      Ok (limit (Z.max (lp_Limit p) 1) (order_by (list_leb p) (live ++ history)))
  end.

(** ** Batches and workflows *)

(** A batch as BatchGet reads it: completed, or with what is pending. *)
Record Batch : Type := mkBatch {
  ba_ID : JobID; ba_Name : string; ba_Pending : Z; ba_Failed : Z; ba_Total : Z; ba_CompletedAt : option Z; ba_CreatedAt : Z;
  ba_Metadata : string }.
Definition scanBatch (name : string) (b : BatchRow) : Batch :=
  mkBatch (b_id b) name (if is_null (b_completed_at b) then Z.max (b_pending b) 0 else 0) (b_failed b) (b_total b)
    (b_completed_at b) (b_created_at b) (b_metadata b).
Definition BatchGet (id : JobID) (d : DB) : result Batch :=
  match one (fun b => b_id b =? id) (db_batches d) with
  | None => Err ErrNotFound
  | Some b => Ok (scanBatch "" b)
  end.

Record JobEdge : Type := mkJobEdge { je_Job : JobID; je_DependsOn : JobID; je_AnyOf : Z }.

(** json.Unmarshal into a string, which leaves null as it was. *)
Definition as_text (j : json) : option string :=
  match j with JStr l => Some (unquote l) | JNull => Some "" | _ => None end.
Fixpoint all_some {A} (l : list (option A)) : option (list A) :=
  match l with
  | [] => Some []
  | Some x :: r => option_map (cons x) (all_some r)
  | None :: _ => None
  end.
Definition as_texts (j : json) : option (list string) :=
  match as_array j with Some l => all_some (List.map as_text l) | None => None end.

Definition decode_edge (e : list string) : result JobEdge :=
  match e with
  | a :: b :: rest =>
      match ParseJobID a, ParseJobID b with
      | Some job, Some on =>
          match rest with
          | [] => Ok (mkJobEdge job on 0)
          | g :: _ => match atoi g with Some n => Ok (mkJobEdge job on n) | None => Err (ErrText "any-of group") end
          end
      | _, _ => Err (ErrText "invalid job ID")
      end
  | _ => Err (ErrText "edge is too short")
  end.
Fixpoint decode_edges (es : list (list string)) : result (list JobEdge) :=
  match es with
  | [] => Ok []
  | e :: rest =>
      match decode_edge e with
      | Err x => Err x
      | Ok d => match decode_edges rest with Err x => Err x | Ok ds => Ok (d :: ds) end
      end
  end.
Definition DecodeEdges (stored : string) : result (list JobEdge) :=
  match json_parse stored with
  | None => Err (ErrText "edges are not JSON")
  | Some j =>
      match as_array j with
      | None => Err (ErrText "edges are not an array")
      | Some l => match all_some (List.map as_texts l) with
                  | None => Err (ErrText "an edge is not an array of strings")
                  | Some es => decode_edges es
                  end
      end
  end.

(** json.Unmarshal into a map[string]string. *)
Definition as_text_map (j : json) : option (list (string * string)) :=
  match j with
  | JObj m =>
      match all_some (List.map (fun kv => option_map (pair (unquote (fst kv))) (as_text (snd kv))) m) with
      | Some l => Some (List.fold_left (fun acc kv => smap_set (fst kv) (snd kv) acc) l [])
      | None => None
      end
  | JNull => Some []
  | _ => None
  end.

(** A map from IDs, its keys in the order of their texts. *)
Definition DecodeSteps (stored : string) : list (JobID * string) :=
  match json_parse stored with
  | None => []
  | Some j =>
      match as_text_map j with
      | None => []
      | Some named => List.flat_map (fun kv => match ParseJobID (fst kv) with Some id => [(id, snd kv)] | None => [] end) named
      end
  end.

Record Workflow : Type := mkWorkflow { wf_Batch : Batch; wf_Jobs : list JobView; wf_Edges : list JobEdge; wf_Steps : list (JobID * string) }.
Definition seq_leb (a b : JobView) : bool := j_seq (v_job a) <=? j_seq (v_job b).
Definition WorkflowGet (id : JobID) (d : DB) : result Workflow :=
  match one (fun b => b_id b =? id) (db_batches d) with
  | None => Err ErrNotFound
  | Some b =>
      let edges := match b_edges b with None => Ok [] | Some s => DecodeEdges s end in
      match edges with
      | Err e => Err e
      | Ok edges =>
          let of_batch v := null_eq Z.eqb (j_BatchID (v_job v)) (Some id) in
          let jobs := order_by seq_leb (sel of_batch (List.map live_view (db_jobs d)) ++ sel of_batch (List.map history_view (db_history d))) in
          Ok (mkWorkflow (scanBatch (match b_name b with Some n => n | None => "" end) b) jobs edges
                (match b_steps b with Some s => DecodeSteps s | None => [] end))
      end
  end.
