(* ===== verification/Unique.v ===== *)
(** * Unique keys (unique.go)

    The text a unique job is found by: its kind's name for the args, queue and
    period its options select.  A Go value is what reflection and the codec see
    of it: its fields with their tags, and the JSON json.Marshal makes of each.
    strconv's float64 texts, which decoding into an any goes through, are
    parameters. *)

From Stdlib Require Import List ZArith Lia Bool String Ascii.
From stdpp Require Import base tactics list.
From S2P Require Import Prelude Sql Text Json Calendar Types Dates Cron.
Import ListNotations.
Local Open Scope string_scope.
Local Open Scope Z_scope.

Inductive UniqueConflict : Type := UniqueSkip | UniqueReplace.

Record UniqueOpts : Type := mkUniqueOpts {
  uo_ByArgs : bool; uo_ByQueue : bool; uo_ByPeriod : Z; uo_OnConflict : UniqueConflict; uo_Finished : list JobState }.
#[export] Instance settable_UniqueOpts : Settable UniqueOpts := fun o =>
  mkUniqueOpts (uo_ByArgs o) (uo_ByQueue o) (uo_ByPeriod o) (uo_OnConflict o) (uo_Finished o).

(** finished: the states without repeats. *)
Fixpoint finished_states (states out : list JobState) : result (list JobState) :=
  match states with
  | [] => Ok out
  | s :: rest =>
      if negb (Terminal s) then Err (ErrText "not a finished state")
      else finished_states rest (if existsb (state_eqb s) out then out else (out ++ [s])%list)
  end.
Definition UniqueOpts_finished (o : UniqueOpts) : result (list JobState) := finished_states (uo_Finished o) [].

Definition maxUniqueKey : Z := 1024.
Definition newline : ascii := "010".
Definition uniqueKeySeparator : string := String newline "".

Definition checkUniqueKey (key : string) : result unit :=
  if slen key >? maxUniqueKey then Err (ErrText "unique key exceeds the limit") else Ok tt.

(** time.RFC3339 of a UTC time in nanoseconds. *)
Definition rfc3339_ns (t : Z) : string :=
  let secs := t / 1000000000 in
  let '(y, m, d) := civil_of_days (secs / 86400) in
  let sod := secs mod 86400 in
  pad4 y ++ "-" ++ pad2 m ++ "-" ++ pad2 d ++ "T" ++ pad2 (sod / 3600) ++ ":" ++ pad2 (sod / 60 mod 60) ++ ":" ++ pad2 (sod mod 60) ++ "Z".

Definition periodPart (t period : Z) : string := "p=" ++ rfc3339_ns (Truncate t period).

(** ** The args' part *)

(** A struct's field: its Go name, its tags by key, and whether it is exported or embedded. *)
Record field : Type := mkField { fd_name : string; fd_tags : list (string * string); fd_exported : bool; fd_anonymous : bool }.

(** A value: a pointer, nil or not, a struct with, for each field, the JSON json.Marshal makes of it, or another. *)
Inductive value : Type :=
| VPointer (v : option value)
| VStruct (fields : list (field * value * option json))
| VOther.

Definition tag_lookup (k : string) (tags : list (string * string)) : option string :=
  option_map snd (List.find (fun kv => String.eqb (fst kv) k) tags).

Definition hasTagOption (tag opt : string) : bool := existsb (fun part => String.eqb (trim_space part) opt) (split "," tag).

Definition jsonName (f : field) : string :=
  match tag_lookup "json" (fd_tags f) with
  | Some tag => let '(name, _, _) := cut "," tag in if negb (String.eqb name "") && negb (String.eqb name "-") then name else fd_name f
  | None => fd_name f
  end.

Definition tagged (f : field) : bool :=
  fd_exported f && match tag_lookup "hopper" (fd_tags f) with Some tag => hasTagOption tag "unique" | None => false end.

(** The map of the tagged fields' values; [None] is the nil map. *)
Fixpoint taggedFields (v : value) (out : option (list (string * option json))) : option (list (string * option json)) :=
  match v with
  | VPointer None => out
  | VPointer (Some v) => taggedFields v out
  | VOther => out
  | VStruct fs =>
      (fix loop (fs : list (field * value * option json)) (out : option (list (string * option json))) :=
         match fs with
         | [] => out
         | (f, u, j) :: rest =>
             loop rest
               (if fd_anonymous f then taggedFields u out
                else if tagged f then Some (smap_set (jsonName f) j (match out with Some m => m | None => [] end))
                else out)
         end) fs out
  end.

(** json.Marshal of a map: its members' encodings, by key. *)
Fixpoint marshal_members (m : list (string * option json)) : option (list (string * json)) :=
  match m with
  | [] => Some []
  | (k, Some v) :: rest => option_map (cons (k, v)) (marshal_members rest)
  | (_, None) :: _ => None
  end.

Section Canonical.
Context {F : Type} (parseFloat : string -> option F) (formatFloat : F -> string).

(** A text decoded into an any and encoded again: a number is the float64 it is read as, a string is
    quoted anew, an object's members are by key. *)
Fixpoint canonical_any (j : json) : option json :=
  match j with
  | JNull => Some JNull
  | JBool b => Some (JBool b)
  | JNum l => option_map (fun f => JNum (formatFloat f)) (parseFloat l)
  | JStr l => Some (jstring (unquote l))
  | JArr l =>
      option_map JArr
        ((fix go (l : list json) : option (list json) :=
            match l with
            | [] => Some []
            | x :: r => match canonical_any x, go r with Some y, Some ys => Some (y :: ys) | _, _ => None end
            end) l)
  | JObj m =>
      option_map object_of
        ((fix go (m : list (string * json)) (acc : list (string * json)) : option (list (string * json)) :=
            match m with
            | [] => Some acc
            | (k, x) :: r => match canonical_any x with Some y => go r (smap_set (unquote k) y acc) | None => None end
            end) m [])
  end.

Definition uniqueArgs (args : value) (encoded : string) : result string :=
  match taggedFields args None with
  | Some fields =>
      match marshal_members fields with
      | Some m => Ok (json_print (object_of m))
      | None => Err (ErrText "json.Marshal")
      end
  | None =>
      match json_parse encoded with
      | None => Err (ErrText "unique key needs JSON-encoded args")
      | Some j => match canonical_any j with
                  | Some v => Ok (json_print v)
                  | None => Err (ErrText "unique key needs JSON-encoded args")
                  end
      end
  end.

(** ** The key *)

(** The parts of a key, given the args' part. *)
Local Open Scope list_scope.
Definition key_parts (o : UniqueOpts) (a queue : string) (now : Z) : list string :=
  (if uo_ByArgs o then ["a=" ++ a]%string else []) ++ (if uo_ByQueue o then ["q=" ++ queue]%string else [])
  ++ (if uo_ByPeriod o >? 0 then [periodPart now (uo_ByPeriod o)] else []).
Definition key_text (parts : list string) : string := match parts with [] => "*" | _ => join uniqueKeySeparator parts end.

Definition UniqueOpts_key (o : UniqueOpts) (args : value) (encoded queue : string) (now : Z) : result string :=
  match (if uo_ByArgs o then uniqueArgs args encoded else Ok "") with
  | Err e => Err e
  | Ok a =>
      let k := key_text (key_parts o a queue now) in
      match checkUniqueKey k with Err e => Err e | Ok _ => Ok k end
  end.
End Canonical.
