(* ===== verification/Inserting.v ===== *)
(** * Inserting from the client (job.go, insert.go, batch.go)

    Options and the driver's parameters made of them, the folding of a call's
    repeated unique keys into rounds of statements, and batches.  The calls run
    on the engine; middleware, which a caller supplies, is left out, and so is
    COPY, which the SQLite engine does not have. *)

From Stdlib Require Import List ZArith Lia Bool String Ascii.
From stdpp Require Import base tactics list.
From S2P Require Import Prelude Sql Text Json Types Store JobTags Insert Workflow Dates Cron Unique.
Import ListNotations.
Local Open Scope string_scope.
Local Open Scope Z_scope.
Local Open Scope list_scope.

(** ** Options *)

Record InsertOpts : Type := mkInsertOpts {
  op_Queue : string; op_Priority : Z; op_MaxAttempts : Z; op_ScheduledAt : option Z; op_Metadata : string;
  op_Unique : option UniqueOpts; op_TTL : Z; op_Await : bool; op_OrderingKey : string; op_PartitionKey : string; op_Tags : list string }.
#[export] Instance settable_InsertOpts : Settable InsertOpts := fun o =>
  mkInsertOpts (op_Queue o) (op_Priority o) (op_MaxAttempts o) (op_ScheduledAt o) (op_Metadata o) (op_Unique o) (op_TTL o)
    (op_Await o) (op_OrderingKey o) (op_PartitionKey o) (op_Tags o).
Definition no_opts : InsertOpts := mkInsertOpts "" 0 0 None "" None 0 false "" "" [].

Definition or_text (over s : string) : string := if String.eqb over "" then s else over.
Definition or_Z (over z : Z) : Z := if over =? 0 then z else over.
Definition or_some {A} (over o : option A) : option A := match over with Some _ => over | None => o end.

Definition merge (opts over : InsertOpts) : InsertOpts :=
  mkInsertOpts (or_text (op_Queue over) (op_Queue opts)) (or_Z (op_Priority over) (op_Priority opts))
    (or_Z (op_MaxAttempts over) (op_MaxAttempts opts)) (or_some (op_ScheduledAt over) (op_ScheduledAt opts))
    (or_text (op_Metadata over) (op_Metadata opts)) (or_some (op_Unique over) (op_Unique opts)) (or_Z (op_TTL over) (op_TTL opts))
    (op_Await over || op_Await opts) (or_text (op_OrderingKey over) (op_OrderingKey opts))
    (or_text (op_PartitionKey over) (op_PartitionKey opts)) (match op_Tags over with [] => op_Tags opts | t => t end).

Definition priority_valid (p : Z) : bool := (1 <=? p) && (p <=? 4).

(** What a job's args answer: their kind, their own options if they have any, what the client's codec
    makes of them, and the value reflection sees. *)
Record JobArgs : Type := mkJobArgs { ar_Kind : string; ar_InsertOpts : option InsertOpts; ar_Encoded : result string; ar_Value : value }.
Record InsertParams : Type := mkInsertParams { np_Args : option JobArgs; np_Opts : option InsertOpts; np_batchID : JobID }.
#[export] Instance settable_InsertParams : Settable InsertParams := fun p => mkInsertParams (np_Args p) (np_Opts p) (np_batchID p).

Definition effectiveOpts (a : JobArgs) (opts : option InsertOpts) : InsertOpts :=
  let own := match ar_InsertOpts a with Some o => o | None => no_opts end in
  match opts with Some o => merge own o | None => own end.

(** The client's settings an insert reads. *)
Record Config : Type := mkConfig { cf_StrictKinds : bool; cf_kinds : list string; cf_MaxAttempts : Z }.

Definition QueueDefault : string := "default".
Definition PriorityNormal : Z := 2.

Section Build.
Context {F : Type} (parseFloat : string -> option F) (formatFloat : F -> string) (c : Config).

(** The checks on the options, their defaults filled in. *)
Definition checked_opts (o : InsertOpts) : result InsertOpts :=
  let o := o <| op_Queue := or_text (op_Queue o) QueueDefault |> in
  if existsb (fun rw => is_control (fst rw)) (runes (op_Queue o)) then Err (ErrText "queue name contains control characters")
  else
    let o := o <| op_Priority := or_Z (op_Priority o) PriorityNormal |> in
    if negb (priority_valid (op_Priority o)) then Err (ErrText "priority is out of range 1..4")
    else
      let o := o <| op_MaxAttempts := or_Z (op_MaxAttempts o) (cf_MaxAttempts c) |> in
      if op_MaxAttempts o <? 1 then Err (ErrText "MaxAttempts must be positive")
      else if negb (String.eqb (op_Metadata o) "") && negb (json_valid (op_Metadata o)) then Err (ErrText "Metadata is not valid JSON")
      else if op_TTL o <? 0 then Err (ErrText "TTL must not be negative")
      else match JobTags.Check (op_Tags o) with Err e => Err e | Ok tags => Ok (o <| op_Tags := tags |>) end.

(** A unique job's key, the finished states it counts, and the conflict's action. *)
Definition unique_parts (a : JobArgs) (encoded : string) (o : InsertOpts) (now : Z) : result (string * list JobState * ConflictAction) :=
  match op_Unique o with
  | None => Ok ("", [], ConflictSkip)
  | Some u =>
      match UniqueOpts_key parseFloat formatFloat u (ar_Value a) encoded (op_Queue o) now with
      | Err e => Err e
      | Ok k =>
          match UniqueOpts_finished u with
          | Err e => Err e
          | Ok states => Ok (k, states, match uo_OnConflict u with UniqueReplace => ConflictReplace | UniqueSkip => ConflictSkip end)
          end
      end
  end.

Definition buildInsertParams (p : InsertParams) (now : Z) : result (JobInsertParams * ConflictAction) :=
  match np_Args p with
  | None => Err (ErrText "Args must not be nil")
  | Some a =>
      if String.eqb (ar_Kind a) "" then Err (ErrText "an empty kind")
      else if cf_StrictKinds c && negb (mem_str (ar_Kind a) (cf_kinds c)) then Err (ErrText "unknown kind")
      else
        match checked_opts (effectiveOpts a (np_Opts p)) with
        | Err e => Err e
        | Ok o =>
            match ar_Encoded a with
            | Err e => Err e
            | Ok args =>
                match unique_parts a args o now with
                | Err e => Err e
                | Ok (k, states, action) =>
                    Ok (mkJobInsertParams (ar_Kind a) (op_Queue o) (op_Priority o) (op_MaxAttempts o) (op_ScheduledAt o) args
                          (op_Metadata o) (op_Tags o) k states (op_OrderingKey o) (op_PartitionKey o) (np_batchID p) (op_TTL o) (op_Await o), action)
                end
            end
        end
  end.

Fixpoint build_all (ps : list InsertParams) (now : Z) : result (list (JobInsertParams * ConflictAction)) :=
  match ps with
  | [] => Ok []
  | p :: rest =>
      match buildInsertParams p now with
      | Err e => Err e
      | Ok dp => match build_all rest now with Err e => Err e | Ok dps => Ok (dp :: dps) end
      end
  end.
End Build.

(** ** Folding a call's unique keys *)

Definition sameStates (a b : list JobState) : bool :=
  Nat.eqb (List.length a) (List.length b) && forallb (fun s => existsb (state_eqb s) b) a.

(** A round: the inputs of each conflict action, absent when there is none. *)
Record round : Type := mkRound { rd_skip : list nat; rd_replace : list nat }.
Definition no_round : round := mkRound [] [].
Definition rd_of (a : ConflictAction) (r : round) : list nat := match a with ConflictSkip => rd_skip r | ConflictReplace => rd_replace r end.
Definition rd_add (a : ConflictAction) (i : nat) (r : round) : round :=
  match a with
  | ConflictSkip => mkRound (rd_skip r ++ [i]) (rd_replace r)
  | ConflictReplace => mkRound (rd_skip r) (rd_replace r ++ [i])
  end.

(** seen: for a kind and key, the last input with it and the round it went to. *)
Record keyState : Type := mkKeyState { ks_last : nat; ks_round : nat }.
Definition uniqueRef : Type := string * string.
Definition ref_eqb (a b : uniqueRef) : bool := String.eqb (fst a) (fst b) && String.eqb (snd a) (snd b).
Fixpoint seen_get (r : uniqueRef) (seen : list (uniqueRef * keyState)) : option keyState :=
  match seen with [] => None | (k, s) :: rest => if ref_eqb r k then Some s else seen_get r rest end.

Record folded : Type := mkFolded { fo_rounds : list round; fo_dupOf : list (option nat); fo_seen : list (uniqueRef * keyState) }.

Definition finished_of (dps : list (JobInsertParams * ConflictAction)) (i : nat) : list JobState :=
  match dps !! i with Some (p, _) => ip_UniqueFinished p | None => [] end.
Definition ref_of (p : JobInsertParams) : uniqueRef := (ip_Kind p, ip_UniqueKey p).

(** rounds[round][action] = append(..., i); [None] is an index out of range. *)
Definition add_to_round (n : nat) (a : ConflictAction) (i : nat) (rounds : list round) : option (list round) :=
  let rounds := if Nat.eqb n (List.length rounds) then rounds ++ [no_round] else rounds in
  match rounds !! n with
  | None => None
  | Some r => Some (<[n := rd_add a i r]> rounds)
  end.

Definition fold_one (dps : list (JobInsertParams * ConflictAction)) (i : nat) (dp : JobInsertParams * ConflictAction) (f : folded) : option folded :=
  let '(p, a) := dp in
  let place (n : nat) (seen : list (uniqueRef * keyState)) :=
    match add_to_round n a i (fo_rounds f) with
    | None => None
    | Some rounds => Some (mkFolded rounds (fo_dupOf f ++ [None]) seen)
    end in
  if String.eqb (ip_UniqueKey p) "" then place 0%nat (fo_seen f)
  else
    match seen_get (ref_of p) (fo_seen f) with
    | Some s =>
        if sameStates (finished_of dps (ks_last s)) (ip_UniqueFinished p)
        then Some (mkFolded (fo_rounds f) (fo_dupOf f ++ [Some (ks_last s)]) ((ref_of p, mkKeyState i (ks_round s)) :: fo_seen f))
        else place (S (ks_round s)) ((ref_of p, mkKeyState i (S (ks_round s))) :: fo_seen f)
    | None => place 0%nat ((ref_of p, mkKeyState i 0) :: fo_seen f)
    end.

Fixpoint fold_from (dps : list (JobInsertParams * ConflictAction)) (i : nat) (rest : list (JobInsertParams * ConflictAction)) (f : folded) : option folded :=
  match rest with
  | [] => Some f
  | dp :: rest => match fold_one dps i dp f with None => None | Some f => fold_from dps (S i) rest f end
  end.
Definition fold_keys (dps : list (JobInsertParams * ConflictAction)) : option folded := fold_from dps 0 dps (mkFolded [] [] []).

(** ** The statements *)

(** The calls of the rounds, in order; [swap n] says which of a round's two actions Go's map gives first. *)
Definition round_calls (swap : nat -> bool) (n : nat) (r : round) : list (ConflictAction * list nat) :=
  List.filter (fun c => match snd c with [] => false | _ => true end)
    (if swap n then [(ConflictReplace, rd_replace r); (ConflictSkip, rd_skip r)] else [(ConflictSkip, rd_skip r); (ConflictReplace, rd_replace r)]).
Fixpoint calls_from (swap : nat -> bool) (n : nat) (rounds : list round) : list (ConflictAction * list nat) :=
  match rounds with [] => [] | r :: rest => round_calls swap n r ++ calls_from swap (S n) rest end.

(** results[idx[k]] = rows[k] *)
Fixpoint put_results (idx : list nat) (rows : list JobInsertResult) (results : list (option JobInsertResult)) : list (option JobInsertResult) :=
  match idx, rows with
  | i :: idx, r :: rows => put_results idx rows (<[i := Some r]> results)
  | _, _ => results
  end.

Definition params_at (dps : list (JobInsertParams * ConflictAction)) (idx : list nat) : list JobInsertParams :=
  List.flat_map (fun i => match dps !! i with Some (p, _) => [p] | None => [] end) idx.

(** Each call is an operation of the engine, at a time of its own. *)
Fixpoint run_calls (inTx : bool) (dps : list (JobInsertParams * ConflictAction)) (calls : list (ConflictAction * list nat))
    (x : nat -> w) (n : nat) (results : list (option JobInsertResult)) (d : DB) : result (list (option JobInsertResult)) * DB :=
  match calls with
  | [] => (Ok results, d)
  | (action, idx) :: rest =>
      match JobInsertMany (params_at dps idx) (mkJobInsertOpts inTx action) (x n) d with
      | (Err e, d') => (Err e, d')
      | (Ok rows, d') => run_calls inTx dps rest x (S n) (put_results idx rows results) d'
      end
  end.

(** The folded inputs take the result of the one before; [None] is a nil dereference. *)
Fixpoint fill_dups (i : nat) (dupOf : list (option nat)) (results : list (option JobInsertResult)) : option (list (option JobInsertResult)) :=
  match dupOf with
  | [] => Some results
  | None :: rest => fill_dups (S i) rest results
  | Some j :: rest =>
      match results !! j with
      | Some (Some r) => fill_dups (S i) rest (<[i := Some (mkJobInsertResult (ir_Job r) true)]> results)
      | _ => None
      end
  end.

Fixpoint all_results (results : list (option JobInsertResult)) : option (list JobInsertResult) :=
  match results with
  | [] => Some []
  | Some r :: rest => option_map (cons r) (all_results rest)
  | None :: _ => None
  end.

(** The queues woken once the call is done, by the first input's action. *)
Definition woken_queues (first : ConflictAction) (results : list JobInsertResult) : list string :=
  Distinct (List.flat_map (fun r =>
    if negb (ir_Duplicate r) || (match first with ConflictReplace => true | ConflictSkip => false end && is_null (v_FinalizedAt (ir_Job r)))
    then [j_Queue (v_job (ir_Job r))] else []) results).

Record inserted : Type := mkInserted { in_results : list JobInsertResult; in_woken : list string }.

Definition insert_built (inTx : bool) (dps : list (JobInsertParams * ConflictAction)) (swap : nat -> bool) (x : nat -> w) (d : DB)
    : result inserted * DB :=
  match fold_keys dps with
  | None => (Err (ErrPanic "index out of range"), d)
  | Some f =>
      match run_calls inTx dps (calls_from swap 0 (fo_rounds f)) x 0 (List.repeat None (List.length dps)) d with
      | (Err e, d') => (Err e, d')
      | (Ok results, d') =>
          match fill_dups 0 (fo_dupOf f) results with
          | None => (Err (ErrPanic "nil dereference"), d')
          | Some results =>
              match all_results results with
              | None => (Err (ErrPanic "nil dereference"), d')
              | Some rs =>
                  (Ok (mkInserted rs (if inTx then [] else woken_queues (match dps with (_, a) :: _ => a | [] => ConflictSkip end) rs)), d')
              end
          end
      end
  end.

Section Direct.
Context {F : Type} (parseFloat : string -> option F) (formatFloat : F -> string) (c : Config).

Definition insertDirect (inTx : bool) (ps : list InsertParams) (now : Z) (swap : nat -> bool) (x : nat -> w) (d : DB) : result inserted * DB :=
  match ps with
  | [] => (Ok (mkInserted [] []), d)
  | _ =>
      match build_all parseFloat formatFloat c ps now with
      | Err e => (Err e, d)
      | Ok dps => insert_built inTx dps swap x d
      end
  end.

(** ** Batches *)

Record BatchOpts : Type := mkBatchOpts {
  bo_OnSuccess : option JobArgs; bo_OnFailure : option JobArgs; bo_OnComplete : option JobArgs; bo_CallbackOpts : option InsertOpts;
  bo_Metadata : string }.
Record BatchResult : Type := mkBatchResult { bs_ID : JobID; bs_Jobs : list JobInsertResult }.

Definition callback_params (o : BatchOpts) (a : option JobArgs) (now : Z) : result (option JobInsertParams) :=
  match a with
  | None => Ok None
  | Some a =>
      match buildInsertParams parseFloat formatFloat c (mkInsertParams (Some a) (bo_CallbackOpts o) 0) now with
      | Err e => Err e
      | Ok (p, _) => Ok (Some p)
      end
  end.

Definition found_finished (r : JobInsertResult) : bool := ir_Duplicate r && Terminal (j_State (v_job (ir_Job r))).

(** Batch.insert: the batch, then its jobs, in statements of their own unless in the caller's transaction. *)
Definition Batch_insert (o : BatchOpts) (params : list InsertParams) (inTx : bool) (now : Z) (swap : nat -> bool) (xb : w) (x : nat -> w) (xs : w) (d : DB)
    : result BatchResult * DB :=
  match params with
  | [] => (Err (ErrText "batch has no jobs"), d)
  | _ =>
      if is_null (bo_OnSuccess o) && is_null (bo_OnFailure o) && is_null (bo_OnComplete o) then (Err (ErrText "batch has no callbacks"), d)
      else
        match callback_params o (bo_OnSuccess o) now with
        | Err e => (Err e, d)
        | Ok s =>
            match callback_params o (bo_OnFailure o) now with
            | Err e => (Err e, d)
            | Ok f =>
                match callback_params o (bo_OnComplete o) now with
                | Err e => (Err e, d)
                | Ok cb =>
                    match BatchInsert (Z.of_nat (List.length params)) s f cb (bo_Metadata o) xb d with
                    | (Err e, d) => (Err e, d)
                    | (Ok id, d) =>
                        match insertDirect inTx (List.map (fun p => p <| np_batchID := id |>) params) now swap x d with
                        | (Err e, d) => (Err e, d)
                        | (Ok res, d) =>
                            let d := if negb inTx && existsb found_finished (in_results res) then snd (BatchSettle true false 0 xs d) else d in
                            (Ok (mkBatchResult id (in_results res)), d)
                        end
                    end
                end
            end
        end
  end.
End Direct.
