(* ===== verification/Building.v ===== *)
(** * Building workflows in the client (workflow.go)

    Steps are added to a workflow and named for others to wait on; inserting it
    checks them, makes the engine's edges of their options and sends the whole.
    Middleware, which a caller supplies, is left out, as in Inserting. *)

From Stdlib Require Import List ZArith Lia Bool String Ascii.
From stdpp Require Import base tactics list gmap strings.
From S2P Require Import Prelude Sql Text Json Types Store JobTags Codec Insert Workflow Dates Cron Unique Inserting.
Import ListNotations.
Local Open Scope string_scope.
Local Open Scope Z_scope.
Local Open Scope list_scope.

(** storableName of steps.go: valid UTF-8 without a NUL. *)
Definition storableName (name : string) : bool := utf8_valid name && negb (existsb (fun rw => fst rw =? 0) (runes name)).

Definition maxAnyOfGroups : Z := 32767.

Record WorkflowOpts : Type := mkWorkflowOpts {
  wo_OnSuccess : option JobArgs; wo_OnFailure : option JobArgs; wo_OnComplete : option JobArgs; wo_CallbackOpts : option InsertOpts;
  wo_Metadata : string }.
Definition no_workflow_opts : WorkflowOpts := mkWorkflowOpts None None None None "".

(** A step names the workflow it is of, by its address, and its place there. *)
Record Step : Type := mkStep { sp_wf : Z; sp_i : nat }.

Record StepOpts : Type := mkStepOpts {
  so_After : list Step; so_AfterAny : list (list Step); so_OnDependencyFailure : DependencyFailure; so_Name : string;
  so_Dependencies : bool; so_Insert : option InsertOpts }.
#[export] Instance settable_StepOpts : Settable StepOpts := fun o =>
  mkStepOpts (so_After o) (so_AfterAny o) (so_OnDependencyFailure o) (so_Name o) (so_Dependencies o) (so_Insert o).
Definition no_step_opts : StepOpts := mkStepOpts [] [] DependencyDefault "" false None.
Definition After (steps : list Step) : StepOpts := mkStepOpts steps [] DependencyDefault "" false None.
Definition AfterAny (steps : list Step) : StepOpts := mkStepOpts [] [steps] DependencyDefault "" false None.

Record workflowStep : Type := mkWorkflowStep { ws_params : InsertParams; ws_opts : StepOpts }.
Record Workflow : Type := mkWorkflow { wk_addr : Z; wk_name : string; wk_opts : WorkflowOpts; wk_steps : list workflowStep }.

Definition NewWorkflow (addr : Z) (name : string) (opts : option WorkflowOpts) : Workflow :=
  mkWorkflow addr name (match opts with Some o => o | None => no_workflow_opts end) [].

Definition Add (wf : Workflow) (args : option JobArgs) (opts : option StepOpts) : Workflow * Step :=
  let s := match opts with
           | Some o => mkWorkflowStep (mkInsertParams args (so_Insert o) 0) o
           | None => mkWorkflowStep (mkInsertParams args None 0) no_step_opts
           end in
  (mkWorkflow (wk_addr wf) (wk_name wf) (wk_opts wf) (wk_steps wf ++ [s]), mkStep (wk_addr wf) (List.length (wk_steps wf))).

(** ** The edges of a step *)

(** dep.wf != wf || dep.i >= i *)
Definition foreign (wf : Workflow) (i : nat) (dep : Step) : bool := negb (sp_wf dep =? wk_addr wf) || (i <=? sp_i dep)%nat.
Definition err_foreign : error := ErrText "depends on a step of another workflow".

Definition edge_of (i : nat) (o : StepOpts) (g : nat) (dep : Step) : JobDependency :=
  mkJobDependency (Z.of_nat i) (Z.of_nat (sp_i dep)) (so_OnDependencyFailure o) (so_Dependencies o) (Z.of_nat g).

Fixpoint after_deps (wf : Workflow) (i : nat) (o : StepOpts) (deps : list Step) : result (list JobDependency) :=
  match deps with
  | [] => Ok []
  | dep :: rest =>
      if foreign wf i dep then Err err_foreign
      else match after_deps wf i o rest with Err e => Err e | Ok es => Ok (edge_of i o 0 dep :: es) end
  end.

(** One group's loop; [wh] is the map where, from a step to its group. *)
Fixpoint group_deps (wf : Workflow) (i : nat) (o : StepOpts) (g : nat) (group : list Step) (wh : gmap nat nat)
    : result (list JobDependency * gmap nat nat) :=
  match group with
  | [] => Ok ([], wh)
  | dep :: rest =>
      if foreign wf i dep then Err err_foreign
      else
        match wh !! sp_i dep with
        | Some prev =>
            if Nat.eqb prev (S g) then group_deps wf i o g rest wh
            else Err (ErrText "waits for a step in two places among After and AfterAny")
        | None =>
            match group_deps wf i o g rest (<[sp_i dep := S g]> wh) with
            | Err e => Err e
            | Ok (es, wh) => Ok (edge_of i o (S g) dep :: es, wh)
            end
        end
  end.

Fixpoint groups_deps (wf : Workflow) (i : nat) (o : StepOpts) (g : nat) (groups : list (list Step)) (wh : gmap nat nat)
    : result (list JobDependency) :=
  match groups with
  | [] => Ok []
  | [] :: _ => Err (ErrText "has an empty any-of group")
  | group :: rest =>
      match group_deps wf i o g group wh with
      | Err e => Err e
      | Ok (es, wh) => match groups_deps wf i o (S g) rest wh with Err e => Err e | Ok es' => Ok (es ++ es') end
      end
  end.

Definition where_after (o : StepOpts) : gmap nat nat := List.fold_left (fun wh dep => <[sp_i dep := 0%nat]> wh) (so_After o) ∅.

Definition anyOfDeps (wf : Workflow) (i : nat) (o : StepOpts) : result (list JobDependency) :=
  if Z.of_nat (List.length (so_AfterAny o)) >? maxAnyOfGroups then Err (ErrText "has too many any-of groups")
  else groups_deps wf i o 0 (so_AfterAny o) (where_after o).

(** ** The workflow's parameters *)

(** What the loop over the steps has made: the map names, wp.Steps (nil until a step has a name) and wp.Deps. *)
Record built : Type := mkBuilt { bl_names : gmap string nat; bl_Steps : list string; bl_Deps : list JobDependency }.

Definition name_step (n i : nat) (name : string) (b : built) : result built :=
  if String.eqb name "" then Ok b
  else if negb (storableName name) then Err (ErrText "name holds a NUL or invalid UTF-8")
  else
    match bl_names b !! name with
    | Some _ => Err (ErrText "two steps have the same name")
    | None =>
        let steps := match bl_Steps b with [] => List.repeat "" n | l => l end in
        Ok (mkBuilt (<[name := i]> (bl_names b)) (<[i := name]> steps) (bl_Deps b))
    end.

Definition step_deps (wf : Workflow) (i : nat) (o : StepOpts) : result (list JobDependency) :=
  match after_deps wf i o (so_After o) with
  | Err e => Err e
  | Ok es =>
      match so_AfterAny o with
      | [] => Ok es
      | _ => match anyOfDeps wf i o with Err e => Err e | Ok es' => Ok (es ++ es') end
      end
  end.

Fixpoint build_steps (wf : Workflow) (i : nat) (steps : list workflowStep) (b : built) : result built :=
  match steps with
  | [] => Ok b
  | s :: rest =>
      match name_step (List.length (wk_steps wf)) i (so_Name (ws_opts s)) b with
      | Err e => Err e
      | Ok b =>
          match step_deps wf i (ws_opts s) with
          | Err e => Err e
          | Ok es => build_steps wf (S i) rest (mkBuilt (bl_names b) (bl_Steps b) (bl_Deps b ++ es))
          end
      end
  end.
Definition build (wf : Workflow) : result built := build_steps wf 0 (wk_steps wf) (mkBuilt ∅ [] []).

Section Insert.
Context {F : Type} (parseFloat : string -> option F) (formatFloat : F -> string) (c : Config).

Definition workflow_callback (o : WorkflowOpts) (a : option JobArgs) (now : Z) : result (option JobInsertParams) :=
  match a with
  | None => Ok None
  | Some a =>
      match buildInsertParams parseFloat formatFloat c (mkInsertParams (Some a) (wo_CallbackOpts o) 0) now with
      | Err e => Err e
      | Ok (p, _) => Ok (Some p)
      end
  end.

(** The loop of the innermost insert. *)
Fixpoint step_jobs (ps : list InsertParams) (now : Z) : result (list JobInsertParams) :=
  match ps with
  | [] => Ok []
  | p :: rest =>
      match buildInsertParams parseFloat formatFloat c p now with
      | Err e => Err e
      | Ok (dp, _) =>
          if negb (String.eqb (ip_UniqueKey dp) "") then Err (ErrText "workflow steps cannot be unique")
          else match step_jobs rest now with Err e => Err e | Ok dps => Ok (dp :: dps) end
      end
  end.

(** The parameters a workflow becomes. *)
Definition workflow_params (wf : Workflow) (inTx : bool) (now : Z) : result WorkflowInsertParams :=
  let o := wk_opts wf in
  match workflow_callback o (wo_OnSuccess o) now with
  | Err e => Err e
  | Ok s =>
      match workflow_callback o (wo_OnFailure o) now with
      | Err e => Err e
      | Ok f =>
          match workflow_callback o (wo_OnComplete o) now with
          | Err e => Err e
          | Ok cb =>
              match build wf with
              | Err e => Err e
              | Ok b =>
                  match step_jobs (List.map ws_params (wk_steps wf)) now with
                  | Err e => Err e
                  | Ok jobs => Ok (mkWorkflowInsertParams (wk_name wf) jobs (bl_Steps b) (bl_Deps b) s f cb (wo_Metadata o) inTx)
                  end
              end
          end
      end
  end.

Record WorkflowResult : Type := mkWorkflowResult { wl_ID : JobID; wl_Jobs : list JobInsertResult; wl_woken : list string }.

(** The queues of the jobs that need not wait. *)
Definition workflow_woken (jobs : list JobInsertResult) : list string :=
  Distinct (List.flat_map (fun r => if state_eqb (j_State (v_job (ir_Job r))) Pending then [] else [j_Queue (v_job (ir_Job r))]) jobs).

Definition insertWorkflow (wf : option Workflow) (inTx : bool) (now : Z) (x : w) (d : DB) : result WorkflowResult * DB :=
  match wf with
  | None => (Err (ErrText "workflow has no steps"), d)
  | Some wf =>
      match wk_steps wf with
      | [] => (Err (ErrText "workflow has no steps"), d)
      | _ =>
          match workflow_params wf inTx now with
          | Err e => (Err e, d)
          | Ok wp =>
              match WorkflowInsert wp x d with
              | (Err e, d) => (Err e, d)
              | (Ok out, d) =>
                  let jobs := List.map (fun r => mkJobInsertResult (ir_Job r) false) (wr_Jobs out) in
                  (Ok (mkWorkflowResult (wr_ID out) jobs (if inTx then [] else workflow_woken jobs)), d)
              end
          end
      end
  end.
End Insert.
