(* ===== verification/Periodic.v ===== *)
(** * Periodic jobs (periodic.go, periodic_shared.go)

    The set of a client's periodic jobs, the slots a job missed, and the pass of
    the leader's loop over the jobs it schedules, inserting their slots on the
    engine.  Times are nanoseconds since 1970 and [None] is the zero time; a
    Schedule is what its Next answers.  The other goroutines and the network are
    an environment: which registrations are removed by then, what becomes of a
    call, and the local clock. *)

From Stdlib Require Import List ZArith Lia Bool String.
From stdpp Require Import base tactics list gmap strings.
From S2P Require Import Prelude Sql Text Types Store Insert Cluster Dates Cron Unique Inserting.
Import ListNotations.
Local Open Scope string_scope.
Local Open Scope Z_scope.
Local Open Scope list_scope.

(** A loop of at most [p] turns, each of which goes on with a state or ends with a value. *)
Fixpoint loop {A B} (p : positive) (f : A -> A + B) (a : A) : A + B :=
  match p with
  | xH => f a
  | xO q => match loop q f a with inl a => loop q f a | inr b => inr b end
  | xI q => match f a with
            | inl a => match loop q f a with inl a => loop q f a | inr b => inr b end
            | inr b => inr b
            end
  end.
(** What a loop ends with; [None] if it has not. *)
Definition ends {A B} (r : A + B) : option B := match r with inr b => Some b | inl _ => None end.

(** ** Package time *)

(** t.Sub(u) saturates. *)
Definition maxDuration : Z := 2 ^ 63 - 1.
Definition Sub (t u : Z) : Z := Z.max (- 2 ^ 63) (Z.min maxDuration (t - u)).
Definition maxTime (a b : Z) : Z := if b <? a then a else b.
Definition zlen {A} (l : list A) : Z := Z.of_nat (List.length l).

(** ** The slots a job missed *)

Definition maxCatchUp : Z := 10000.

Section Slots.
Context (next : Z -> option Z).

(** The slots after [from] and not after [now], of which at least the last [n] are kept. *)
Definition keep (n : Z) (slots : list Z) (slot : Z) : list Z :=
  (if zlen slots =? 2 * n then List.skipn (Z.to_nat n) slots else slots) ++ [slot].
Definition collect_step (now n : Z) (st : option Z * list Z) : (option Z * list Z) + list Z :=
  match st with
  | (Some slot, slots) => if slot <=? now then inl (next slot, keep n slots slot) else inr slots
  | (None, slots) => inr slots
  end.
Definition collect (from now n : Z) : option (list Z) :=
  ends (loop (Z.to_pos (now - from + 2)) (collect_step now n) (next from, [])).

Definition recent_step (last now n span w : Z) : Z + option (list Z) :=
  let from := if span <=? w then last else now - w in
  match collect from now n with
  | None => inr None
  | Some slots =>
      if (n <=? zlen slots) || negb (last <? from) then inr (Some (List.skipn (Z.to_nat (Z.max 0 (zlen slots - n))) slots))
      else inl (if Z.quot span 2 <? w then span else 2 * w)
  end.
Definition recentSlots (last now n : Z) : option (list Z) :=
  let span := Sub now last in
  match ends (loop (Z.to_pos (span + 2)) (recent_step last now n span) (Z.min 1000000 span)) with
  | Some r => r
  | None => None
  end.

(** [catchUp] is [None] for a job without options. *)
Definition missedSlots (ttl : Z) (catchUp : option Z) (last now : Z) : option (list Z) :=
  match recentSlots (maxTime last (now - ttl)) now maxCatchUp with
  | None => None
  | Some window =>
      match catchUp with
      | None => Some window
      | Some k => if k <=? zlen window then Some window else recentSlots last now (Z.min k maxCatchUp)
      end
  end.
End Slots.

(** ** Jobs and registrations *)

Record PeriodicOpts : Type := mkPeriodicOpts { po_Name : string; po_RunOnStart : bool; po_CatchUp : Z; po_InsertOpts : option InsertOpts }.
Record PeriodicJob : Type := mkPeriodicJob {
  pj_Name : string; pj_Next : option (Z -> option Z); pj_Args : option JobArgs; pj_Opts : option PeriodicOpts; pj_err : option error }.

(** resolve: the job with its name filled in. *)
Definition resolve (p : PeriodicJob) : result PeriodicJob :=
  match pj_err p, pj_Args p, pj_Next p with
  | Some e, _, _ => Err e
  | None, None, _ => Err (ErrText "periodic job has nil Args")
  | None, Some _, None => Err (ErrText "periodic job has no Schedule")
  | None, Some a, Some _ =>
      let name := match pj_Opts p with Some o => or_text (po_Name o) (pj_Name p) | None => pj_Name p end in
      let name := or_text name (ar_Kind a) in
      if String.eqb name "" then Err (ErrText "periodic job has an empty name")
      else Ok (mkPeriodicJob name (pj_Next p) (pj_Args p) (pj_Opts p) (pj_err p))
  end.

Fixpoint resolve_from (jobs : list PeriodicJob) (names : gset string) : result (list PeriodicJob) :=
  match jobs with
  | [] => Ok []
  | job :: rest =>
      match resolve job with
      | Err e => Err e
      | Ok job =>
          if bool_decide (pj_Name job ∈ names) then Err (ErrText "periodic job is listed twice")
          else match resolve_from rest ({[pj_Name job]} ∪ names) with Err e => Err e | Ok out => Ok (job :: out) end
      end
  end.
Definition resolvePeriodic (jobs : list PeriodicJob) : result (list PeriodicJob) := resolve_from jobs ∅.

(** A registration, which is a pointer; [owner] is the leader's own job of a stored definition. *)
Record owner : Type := mkOwner { ow_id : nat; ow_job : PeriodicJob }.
Record registeredPeriodic : Type := mkRegistered {
  rp_id : nat; rp_job : PeriodicJob; rp_def : string; rp_digest : string;
  rp_params : option (Z -> result JobInsertParams); rp_owner : option owner }.

(** ** The set of a client's jobs *)

(** [ps_removed] holds the registrations whose removed flag is set, [ps_fresh] the next pointer. *)
Record PeriodicJobs : Type := mkPeriodicJobs {
  ps_jobs : list registeredPeriodic; ps_byName : gmap string registeredPeriodic; ps_removed : gset nat; ps_fresh : nat;
  ps_insertOnly : bool; ps_changed : bool; ps_registered : bool }.
#[export] Instance settable_PeriodicJobs : Settable PeriodicJobs := fun p =>
  mkPeriodicJobs (ps_jobs p) (ps_byName p) (ps_removed p) (ps_fresh p) (ps_insertOnly p) (ps_changed p) (ps_registered p).

Definition rp_name (r : registeredPeriodic) : string := pj_Name (rp_job r).
Definition put_jobs (regs : list registeredPeriodic) (p : PeriodicJobs) : PeriodicJobs :=
  p <| ps_jobs ::= (fun l => l ++ regs) |>
    <| ps_byName ::= (fun m => fold_left (fun m r => <[rp_name r := r]> m) regs m) |>.
(** notify signals both channels, each with room for one. *)
Definition notify_set (p : PeriodicJobs) : PeriodicJobs := p <| ps_changed := true |> <| ps_registered := true |>.

Definition newPeriodicJobs (jobs : list PeriodicJob) (insertOnly : bool) : PeriodicJobs :=
  put_jobs (imap (fun i job => mkRegistered i job "" "" None None) jobs)
    (mkPeriodicJobs [] ∅ ∅ (List.length jobs) insertOnly false false).

Section Set_.
(** validate and define, which the client sets; define answers "" for a job that cannot be stored. *)
Context (validate : PeriodicJob -> result unit) (define : PeriodicJob -> result string) (definitionDigest : string -> string).

Fixpoint register_all (jobs : list PeriodicJob) (id : nat) : result (list registeredPeriodic) :=
  match jobs with
  | [] => Ok []
  | job :: rest =>
      match validate job with
      | Err e => Err e
      | Ok _ =>
          match define job with
          | Err e => Err e
          | Ok def =>
              match register_all rest (S id) with
              | Err e => Err e
              | Ok regs => Ok (mkRegistered id job def (definitionDigest def) None None :: regs)
              end
          end
      end
  end.

Definition AddMany (jobs : list PeriodicJob) (p : PeriodicJobs) : result unit * PeriodicJobs :=
  match resolvePeriodic jobs with
  | Err e => (Err e, p)
  | Ok resolved =>
      match register_all resolved (ps_fresh p) with
      | Err e => (Err e, p)
      | Ok regs =>
          let p := p <| ps_fresh ::= (fun n => n + List.length regs)%nat |> in
          if existsb (fun r => match ps_byName p !! rp_name r with Some _ => true | None => false end) regs
          then (Err (ErrText "periodic job is already registered"), p)
          else (Ok tt, notify_set (put_jobs regs p))
      end
  end.
End Set_.

Definition Remove (name : string) (p : PeriodicJobs) : result unit * PeriodicJobs :=
  match ps_byName p !! name with
  | None => (Err ErrNotFound, p)
  | Some r =>
      (Ok tt, notify_set (p <| ps_removed ::= (fun s => {[rp_id r]} ∪ s) |> <| ps_byName ::= delete name |>
                            <| ps_jobs ::= List.filter (fun j => negb (Nat.eqb (rp_id j) (rp_id r))) |>))
  end.

Definition Clear (p : PeriodicJobs) : PeriodicJobs :=
  notify_set (p <| ps_removed ::= (fun s => list_to_set (List.map rp_id (ps_jobs p)) ∪ s) |> <| ps_jobs := [] |> <| ps_byName := ∅ |>).

(** records and registrations; [recordable] is the client's, on the kinds it works. *)
Definition records (recordable : registeredPeriodic -> bool) (r : registeredPeriodic) : bool := negb (String.eqb (rp_def r) "") && recordable r.
Definition registrations (recordable : registeredPeriodic -> bool) (p : PeriodicJobs) : list PeriodicRegistration :=
  List.map (fun r => mkPeriodicRegistration (rp_name r) (rp_def r) (rp_digest r)) (List.filter (records recordable) (ps_jobs p)).

(** ** What a slot inserts *)

Section Params.
Context {F : Type} (parseFloat : string -> option F) (formatFloat : F -> string) (c : Config).

Definition insertParams (p : PeriodicJob) : InsertParams :=
  mkInsertParams (pj_Args p) (match pj_Opts p with Some o => po_InsertOpts o | None => None end) 0.
Definition periodicParams (p : PeriodicJob) (slot : Z) : result JobInsertParams :=
  match buildInsertParams parseFloat formatFloat c (insertParams p) slot with Ok (params, _) => Ok params | Err e => Err e end.

(** A stored definition's job: the slot-independent part of its insert. *)
Record definedUnique : Type := mkDefinedUnique { du_Key : string; du_ByPeriod : Z; du_Finished : list JobState }.
Record definedJob : Type := mkDefinedJob {
  dj_Kind : string; dj_Queue : string; dj_Priority : Z; dj_MaxAttempts : Z; dj_Args : string; dj_Metadata : string; dj_Tags : list string;
  dj_TTL : Z; dj_Await : bool; dj_OrderingKey : string; dj_PartitionKey : string; dj_Unique : option definedUnique }.

(** definedInsert: the insert with its unique key's period left out, and that period. *)
Definition definedInsert (p : PeriodicJob) : result (JobInsertParams * Z) :=
  match pj_Args p with
  | None => Err (ErrText "Args must not be nil")
  | Some a =>
      let opts := effectiveOpts a (np_Opts (insertParams p)) in
      let '(byPeriod, opts) :=
        match op_Unique opts with
        | Some u => (uo_ByPeriod u, opts <| op_Unique := Some (u <| uo_ByPeriod := 0 |>) |>)
        | None => (0, opts)
        end in
      match buildInsertParams parseFloat formatFloat c (mkInsertParams (Some a) (Some opts) 0) zero_ns with
      | Ok (job, _) => Ok (job, byPeriod)
      | Err e => Err e
      end
  end.

(** periodicDefinition's job, of the insert built. *)
Definition defined_of (job : JobInsertParams) (byPeriod : Z) : definedJob :=
  mkDefinedJob (ip_Kind job) (ip_Queue job) (ip_Priority job) (ip_MaxAttempts job) (ip_Args job) (ip_Metadata job) (ip_Tags job) (ip_TTL job)
    (ip_Await job) (ip_OrderingKey job) (ip_PartitionKey job)
    (if String.eqb (ip_UniqueKey job) "" then None else Some (mkDefinedUnique (ip_UniqueKey job) byPeriod (ip_UniqueFinished job))).

Definition definedJob_params (j : definedJob) (slot : Z) : result JobInsertParams :=
  let p key finished := mkJobInsertParams (dj_Kind j) (dj_Queue j) (dj_Priority j) (dj_MaxAttempts j) None (dj_Args j) (dj_Metadata j) (dj_Tags j)
    key finished (dj_OrderingKey j) (dj_PartitionKey j) 0 (dj_TTL j) (dj_Await j) in
  match dj_Unique j with
  | None => Ok (p "" [])
  | Some u =>
      let key := if du_ByPeriod u >? 0 then
                   if String.eqb (du_Key u) "*" then periodPart slot (du_ByPeriod u)
                   else (du_Key u ++ uniqueKeySeparator ++ periodPart slot (du_ByPeriod u))%string
                 else du_Key u in
      match checkUniqueKey key with Err e => Err e | Ok _ => Ok (p key (du_Finished u)) end
  end.
End Params.

(** ** Inserting a slot *)

(** What becomes of a call of the engine: it answers, its answer is lost, or it is never made. *)
Inductive fate : Type := Answered | Lost | Unreached.

(** The environment of a pass, by the number of inserts tried so far: the call's time and randomness, its fate,
    what other clients do to the database before it, the registrations removed by then; and the local clock, by the
    number of its readings. *)
Record env : Type := mkEnv { en_x : nat -> w; en_fate : nat -> fate; en_others : nat -> DB -> DB; en_removed : nat -> nat -> bool; en_clock : nat -> Z }.
Record world : Type := mkWorld { wo_db : DB; wo_tries : nat; wo_woken : list string; wo_reads : nat }.
#[export] Instance settable_world : Settable world := fun s => mkWorld (wo_db s) (wo_tries s) (wo_woken s) (wo_reads s).

Section Insert_.
Context {F : Type} (parseFloat : string -> option F) (formatFloat : F -> string) (c : Config) (e : env).

Definition slot_params (r : registeredPeriodic) (slot : Z) : result JobInsertParams :=
  match rp_owner r, rp_params r with
  | Some o, _ => periodicParams parseFloat formatFloat c (ow_job o) slot
  | None, Some params => params slot
  | None, None => periodicParams parseFloat formatFloat c (rp_job r) slot
  end.

(** Slots are stored in microseconds. *)
Definition insertPeriodic (r : registeredPeriodic) (slot : Z) (s : world) : bool * world :=
  let n := wo_tries s in
  let s := s <| wo_tries := S n |> in
  if en_removed e n (rp_id r) then (true, s)
  else if match rp_owner r with Some o => en_removed e n (ow_id o) | None => false end then (false, s)
  else
    match slot_params r slot with
    | Err _ => (true, s)
    | Ok params =>
        match en_fate e n with
        | Unreached => (false, s)
        | fate =>
            let '(res, d) := PeriodicInsert (mkPeriodicInsertParams (rp_name r) (slot / 1000) params) (en_x e n) (en_others e n (wo_db s)) in
            let s := s <| wo_db := d |> in
            match fate, res with
            | Answered, Ok (Some job, true) => (true, s <| wo_woken ::= cons (j_Queue (v_job job)) |>)
            | Answered, Ok _ => (true, s)
            | _, _ => (false, s)
            end
        end
    end.
End Insert_.

(** ** A job's part of a pass

    [insert] is insertPeriodic of the job, over any state. *)

Section Job.
Context {S : Type} (insert : Z -> S -> bool * S) (next : Z -> option Z).

(** The missed slots in turn; the first that fails is where the job goes on. *)
Fixpoint insert_missed (missed : list Z) (n : option Z) (s : S) : option Z * bool * S :=
  match missed with
  | [] => (n, true, s)
  | slot :: rest => let '(ok, s) := insert slot s in if ok then insert_missed rest (next slot) s else (Some slot, false, s)
  end.

Definition due_step (now : Z) (st : option Z * S) : (option Z * S) + (option Z * bool * S) :=
  match st with
  | (Some n, s) => if n <=? now then let '(ok, s) := insert n s in if ok then inl (next n, s) else inr (Some n, false, s) else inr (Some n, true, s)
  | (None, s) => inr (None, true, s)
  end.
Definition insert_due (n : option Z) (now : Z) (s : S) : option (option Z * bool * S) :=
  match n with
  | None => Some (None, true, s)
  | Some t => ends (loop (Z.to_pos (now - t + 2)) (due_step now) (Some t, s))
  end.

(** A job already started whose next slot is [n]: where it goes on, and whether no insert failed. *)
Definition job_pass (ttl : Z) (catchUp : option Z) (late : bool) (n : option Z) (now : Z) (s : S) : option (option Z * bool * S) :=
  let floor := now - ttl in
  match n with
  | Some t =>
      if late && (t <? floor) then
        match missedSlots next ttl catchUp (t - 1) now with
        | None => None
        | Some missed =>
            let '(n, inserted, s) := insert_missed missed (next floor) s in
            if inserted then insert_due n now s else Some (n, inserted, s)
        end
      else insert_due n now s
  | None => insert_due n now s
  end.

Fixpoint insert_all (slots : list Z) (s : S) : bool * S :=
  match slots with
  | [] => (true, s)
  | slot :: rest => let '(ok, s) := insert slot s in if ok then insert_all rest s else (false, s)
  end.

(** startPeriodic: the next slot, or [None] if an insert failed. *)
Definition startPeriodic (ttl : Z) (opts : option PeriodicOpts) (last : option Z) (now : Z) (s : S) : option (option (option Z) * S) :=
  let missed := match last with Some last => missedSlots next ttl (option_map po_CatchUp opts) last now | None => Some [] end in
  match missed with
  | None => None
  | Some missed =>
      let '(ok, s) := insert_all missed s in
      if negb ok then Some (None, s)
      else
        let '(ok, s) := if match opts with Some o => po_RunOnStart o | None => false end then insert now s else (true, s) in
        if negb ok then Some (None, s) else Some (Some (next now), s)
  end.
End Job.

(** ** The leader's pass *)

Record periodicState : Type := mkPeriodicState {
  st_next : gmap nat (option Z); st_retryAt : gmap nat Z; st_clockFailed : bool; st_wakeAt : option Z }.
#[export] Instance settable_periodicState : Settable periodicState := fun st =>
  mkPeriodicState (st_next st) (st_retryAt st) (st_clockFailed st) (st_wakeAt st).

Record leaderTuning : Type := mkLeaderTuning { lt_leaderTTL : Z; lt_leaderInterval : Z }.

Definition job_next (r : registeredPeriodic) : Z -> option Z := match pj_Next (rp_job r) with Some next => next | None => fun _ => None end.
Definition job_catchUp (r : registeredPeriodic) : option Z := option_map po_CatchUp (pj_Opts (rp_job r)).

(** The soonest slot to come of the jobs passed. *)
Definition sooner (now : Z) (n : option Z) (soonest : option Z) : option Z :=
  match n with
  | Some t => if now <? t then match soonest with Some u => if t <? u then Some t else Some u | None => Some t end else soonest
  | None => soonest
  end.

Section Pass.
Context {F : Type} (parseFloat : string -> option F) (formatFloat : F -> string) (c : Config) (tu : leaderTuning) (e : env).

Definition read_clock (s : world) : Z * world := (en_clock e (wo_reads s), s <| wo_reads ::= S |>).

(** retry: the job is tried again after a leader interval, unless its owner was removed. *)
Definition retry (r : registeredPeriodic) (st : periodicState) (s : world) : periodicState * world :=
  if match rp_owner r with Some o => en_removed e (wo_tries s) (ow_id o) | None => false end then (st, s)
  else let '(t, s) := read_clock s in (st <| st_retryAt ::= <[rp_id r := t + lt_leaderInterval tu]> |>, s).

Definition waiting (read : Z) (r : registeredPeriodic) (st : periodicState) : bool :=
  match st_retryAt st !! rp_id r with Some at_ => read <? at_ | None => false end.

(** The jobs already started, in turn. *)
Fixpoint pass_started (now read : Z) (stale : bool) (regs : list registeredPeriodic) (soonest : option Z) (st : periodicState) (s : world)
    : option (option Z * periodicState * world) :=
  match regs with
  | [] => Some (soonest, st, s)
  | r :: rest =>
      match st_next st !! rp_id r with
      | None => pass_started now read stale rest soonest st s
      | Some n =>
          if waiting read r st then pass_started now read stale rest soonest st s
          else
            let failed := match st_retryAt st !! rp_id r with Some _ => true | None => false end in
            match job_pass (insertPeriodic parseFloat formatFloat c e r) (job_next r) (lt_leaderTTL tu) (job_catchUp r) (stale || failed) n now s with
            | None => None
            | Some (n, inserted, s) =>
                let st := st <| st_next ::= <[rp_id r := n]> |> in
                if negb inserted then let '(st, s) := retry r st s in pass_started now read stale rest soonest st s
                else pass_started now read stale rest (sooner now n soonest) (st <| st_retryAt ::= delete (rp_id r) |>) s
            end
      end
  end.

(** The jobs to start, from the slots recorded, in microseconds. *)
Fixpoint pass_starting (now : Z) (lastSlots : list (string * Z)) (regs : list registeredPeriodic) (soonest : option Z) (st : periodicState) (s : world)
    : option (option Z * periodicState * world) :=
  match regs with
  | [] => Some (soonest, st, s)
  | r :: rest =>
      match startPeriodic (insertPeriodic parseFloat formatFloat c e r) (job_next r) (lt_leaderTTL tu) (pj_Opts (rp_job r))
              (option_map (Z.mul 1000) (last_slot (rp_name r) lastSlots)) now s with
      | None => None
      | Some (None, s) => let '(st, s) := retry r st s in pass_starting now lastSlots rest soonest st s
      | Some (Some n, s) =>
          pass_starting now lastSlots rest (sooner now n soonest)
            (st <| st_retryAt ::= delete (rp_id r) |> <| st_next ::= <[rp_id r := n]> |>) s
      end
  end.

Fixpoint retry_all (regs : list registeredPeriodic) (st : periodicState) (s : world) : periodicState * world :=
  match regs with [] => (st, s) | r :: rest => let '(st, s) := retry r st s in retry_all rest st s end.

(** min over the retry times left, each read against the clock. *)
Fixpoint until_retries (retries : list (nat * Z)) (sleep : Z) (s : world) : Z * world :=
  match retries with
  | [] => (sleep, s)
  | (_, at_) :: rest => let '(t, s) := read_clock s in until_retries rest (Z.min sleep (Sub at_ t)) s
  end.

(** periodicPass over the jobs effectivePeriodic gives: how long to sleep.  [now] is what Now
    answers, and [lastSlots] what PeriodicLastSlots does, if it is asked. *)
Definition periodicPass (regs : list registeredPeriodic) (now : result Z) (lastSlots : result (list (string * Z))) (st : periodicState) (s : world)
    : option (Z * periodicState * world) :=
  let added := List.filter (fun r => match st_next st !! rp_id r with Some _ => false | None => true end) regs in
  let scheduled (id : nat) := existsb (fun r => Nat.eqb (rp_id r) id) regs && negb (en_removed e (wo_tries s) id) in
  let st := st <| st_next ::= filter (fun kv => scheduled (fst kv) = true) |> <| st_retryAt ::= filter (fun kv => scheduled (fst kv) = true) |> in
  match regs with
  | [] => Some (maxDuration, st <| st_wakeAt := None |>, s)
  | _ =>
      match now with
      | Err _ => Some (lt_leaderInterval tu, st <| st_clockFailed := true |>, s)
      | Ok now =>
          let '(read, s) := read_clock s in
          let stale := st_clockFailed st || match st_wakeAt st with Some at_ => Sub now at_ >? lt_leaderTTL tu | None => false end in
          let st := st <| st_clockFailed := false |> in
          match pass_started now read stale regs None st s with
          | None => None
          | Some (soonest, st, s) =>
              let starting := List.filter (fun r => negb (waiting read r st)) added in
              let started :=
                match starting, lastSlots with
                | [], _ => Some (soonest, st, s)
                | _, Err _ => let '(st, s) := retry_all starting st s in Some (soonest, st, s)
                | _, Ok lastSlots => pass_starting now lastSlots starting soonest st s
                end in
              match started with
              | None => None
              | Some (soonest, st, s) =>
                  let '(sleep, s) := match soonest with
                                     | Some t => let '(u, s) := read_clock s in (Sub t now - Sub u read, s)
                                     | None => (maxDuration, s)
                                     end in
                  let '(sleep, s) := until_retries (map_to_list (st_retryAt st)) sleep s in
                  let '(wakeAt, s) := if sleep <? maxDuration then let '(u, s) := read_clock s in (Some (now + Sub u read + Z.max sleep 0), s)
                                      else (None, s) in
                  Some (sleep, st <| st_wakeAt := wakeAt |>, s)
              end
          end
      end
  end.
End Pass.
