(* ===== verification/Effective.v ===== *)
(** * Which periodic jobs the leader schedules (periodic_shared.go)

    What clients recorded of their jobs as the leader reads it, and
    effectivePeriodic, which merges it with the leader's own set.  Decoding a
    stored definition (definedPeriodic: JSON, its cron expression and zone) is a
    parameter. *)

From Stdlib Require Import List ZArith Lia Bool String.
From stdpp Require Import base tactics list gmap strings.
From S2P Require Import Prelude Sql Text Types Store Insert Cluster Inserting Periodic.
Import ListNotations.
Local Open Scope string_scope.
Local Open Scope Z_scope.
Local Open Scope list_scope.

Record storedDef : Type := mkStoredDef { sd_client : Z; sd_digest : string; sd_def : string }.

(** readStored: the definitions by name, newest client first. *)
Definition newer_row (a b : RegistrationRow * ClientRow) : bool :=
  if c_started_at (snd a) =? c_started_at (snd b) then g_client_id (fst b) <=? g_client_id (fst a) else c_started_at (snd b) <? c_started_at (snd a).
Definition add_stored (m : gmap string (list storedDef)) (row : RegistrationRow * ClientRow) : gmap string (list storedDef) :=
  let g := fst row in <[g_name g := default [] (m !! g_name g) ++ [mkStoredDef (g_client_id g) (g_digest g) (g_definition g)]]> m.
Definition readStored (rows : list (RegistrationRow * ClientRow)) : gmap string (list storedDef) :=
  fold_left add_stored (order_by newer_row rows) ∅.

(** What the loop keeps of them: the definitions it could not decode, and the registrations it made. *)
Record definedState : Type := mkDefinedState {
  ds_byName : gmap string (list storedDef); ds_rejected : gmap string string; ds_defined : gmap string registeredPeriodic;
  ds_fresh : nat; ds_removed : gset nat }.
#[export] Instance settable_definedState : Settable definedState := fun st =>
  mkDefinedState (ds_byName st) (ds_rejected st) (ds_defined st) (ds_fresh st) (ds_removed st).

Definition ownDef (r : registeredPeriodic) : storedDef := mkStoredDef 0 (rp_digest r) (rp_def r).
Definition sorted_keys {A} (m : gmap string A) : list string := order_by String.leb (List.map fst (map_to_list m)).
Definition text_at (m : gmap string string) (k : string) : string := default "" (m !! k).

Section Effective.
Context (recordable : registeredPeriodic -> bool) (decode : string -> storedDef -> result (PeriodicJob * (Z -> result JobInsertParams))).

(** definedPeriodic: a new registration. *)
Definition definedPeriodic (id : nat) (name : string) (d : storedDef) : result registeredPeriodic :=
  match decode name d with
  | Err e => Err e
  | Ok (job, params) =>
      Ok (mkRegistered id (mkPeriodicJob name (pj_Next job) None (pj_Opts job) None) (sd_def d) (sd_digest d) (Some params) None)
  end.

(** The jobs wanted by definition, the leader's own jobs of those, and the jobs scheduled so far. *)
Record plan : Type := mkPlan { pl_wanted : gmap string storedDef; pl_owner : gmap string registeredPeriodic; pl_out : list registeredPeriodic }.
#[export] Instance settable_plan : Settable plan := fun p => mkPlan (pl_wanted p) (pl_owner p) (pl_out p).

(** A name's definitions in turn: another client's, or the leader's own if it records the job. *)
Fixpoint source_of (self : Z) (defs : list storedDef) (own : option registeredPeriodic) : option (storedDef + registeredPeriodic) :=
  match defs with
  | [] => None
  | d :: rest =>
      if negb (sd_client d =? self) then Some (inl d)
      else match own with
           | Some r => if records recordable r then Some (inr r) else source_of self rest own
           | None => source_of self rest own
           end
  end.

Definition choose (self : Z) (stored : gmap string (list storedDef)) (own : gmap string registeredPeriodic) (p : plan) (name : string) : plan :=
  match source_of self (default [] (stored !! name)) (own !! name) with
  | Some (inl d) =>
      let p := p <| pl_wanted ::= <[name := d]> |> in
      match own !! name with
      | Some r => if String.eqb (rp_digest r) (sd_digest d) && records recordable r then p <| pl_owner ::= <[name := r]> |> else p
      | None => p
      end
  | src =>
      match match src with Some (inr r) => Some r | _ => own !! name end with
      | None => p
      | Some r =>
          if negb (records recordable r) then p <| pl_out ::= (fun l => l ++ [r]) |>
          else p <| pl_wanted ::= <[name := ownDef r]> |> <| pl_owner ::= <[name := r]> |>
      end
  end.

(** The registrations made in a pass, beside the plan. *)
Record making : Type := mkMaking { mk_plan : plan; mk_added : gmap string registeredPeriodic; mk_rejected : gmap string string; mk_fresh : nat }.
#[export] Instance settable_making : Settable making := fun m => mkMaking (mk_plan m) (mk_added m) (mk_rejected m) (mk_fresh m).

Definition defined_digest (defined : gmap string registeredPeriodic) (name : string) : option string := option_map rp_digest (defined !! name).
Definition same_digest (a : option string) (b : string) : bool := match a with Some x => String.eqb x b | None => false end.

(** The leader's own job in place of a definition that cannot be read. *)
Definition fall_back (own defined : gmap string registeredPeriodic) (m : making) (name : string) : making :=
  let m := m <| mk_plan ::= (fun p => p <| pl_wanted ::= delete name |> <| pl_owner ::= delete name |>) |> in
  match own !! name with
  | None => m
  | Some r =>
      let alone := m <| mk_plan ::= (fun p => p <| pl_out ::= (fun l => l ++ [r]) |>) |> in
      let defines := m <| mk_plan ::= (fun p => p <| pl_wanted ::= <[name := ownDef r]> |> <| pl_owner ::= <[name := r]> |>) |> in
      if negb (records recordable r) then alone
      else if same_digest (defined_digest defined name) (rp_digest r) then defines
      else if negb (String.eqb (text_at (mk_rejected m) name) (rp_digest r)) then
        match definedPeriodic (mk_fresh m) name (ownDef r) with
        | Ok made => defines <| mk_added ::= <[name := made]> |> <| mk_fresh ::= S |>
        | Err _ => alone
        end
      else alone
  end.

Definition make (own defined : gmap string registeredPeriodic) (m : making) (name : string) : making :=
  match pl_wanted (mk_plan m) !! name with
  | None => m
  | Some want =>
      if same_digest (defined_digest defined name) (sd_digest want) then m
      else if negb (String.eqb (text_at (mk_rejected m) name) (sd_digest want)) then
        match definedPeriodic (mk_fresh m) name want with
        | Ok made => m <| mk_added ::= <[name := made]> |> <| mk_fresh ::= S |>
        | Err _ => fall_back own defined (m <| mk_rejected ::= <[name := sd_digest want]> |>) name
        end
      else fall_back own defined m name
  end.

(** The registrations no longer wanted are marked removed and dropped. *)
Definition unwanted (wanted : gmap string storedDef) (kv : string * registeredPeriodic) : bool :=
  negb (String.eqb (match wanted !! fst kv with Some d => sd_digest d | None => "" end) (rp_digest (snd kv))).
Definition drop_unwanted (wanted : gmap string storedDef) (st : definedState) : definedState :=
  st <| ds_removed ::= (fun s => list_to_set (List.map (fun kv => rp_id (snd kv)) (List.filter (unwanted wanted) (map_to_list (ds_defined st)))) ∪ s) |>
     <| ds_defined ::= filter (fun kv => unwanted wanted kv = false) |>.

(** r.owner = owner[name], of each job wanted. *)
Definition owner_of (r : registeredPeriodic) : owner := mkOwner (rp_id r) (rp_job r).
Definition with_owner (o : option registeredPeriodic) (r : registeredPeriodic) : registeredPeriodic :=
  mkRegistered (rp_id r) (rp_job r) (rp_def r) (rp_digest r) (rp_params r) (option_map owner_of o).
Definition set_owners (p : plan) (defined : gmap string registeredPeriodic) : gmap string registeredPeriodic :=
  map_imap (fun name r => Some (match pl_wanted p !! name with Some _ => with_owner (pl_owner p !! name) r | None => r end)) defined.

(** The registrations of the names; [None] is a nil dereference. *)
Fixpoint take_defined (names : list string) (defined : gmap string registeredPeriodic) : option (list registeredPeriodic) :=
  match names with
  | [] => Some []
  | name :: rest => match defined !! name with None => None | Some r => option_map (cons r) (take_defined rest defined) end
  end.

(** effectivePeriodic: the jobs scheduled, of the snapshot of the leader's own set. *)
Definition effectivePeriodic (self : Z) (snapshot : list registeredPeriodic) (st : definedState) : option (list registeredPeriodic * definedState) :=
  let own : gmap string registeredPeriodic := fold_left (fun m r => <[rp_name r := r]> m) snapshot ∅ in
  let names := sorted_keys (ds_byName st) ++ List.filter (fun n => match ds_byName st !! n with Some _ => false | None => true end) (List.map rp_name snapshot) in
  let p := fold_left (choose self (ds_byName st) own) names (mkPlan ∅ ∅ []) in
  let m := fold_left (make own (ds_defined st)) (sorted_keys (pl_wanted p)) (mkMaking p ∅ (ds_rejected st) (ds_fresh st)) in
  let st := drop_unwanted (pl_wanted (mk_plan m)) (st <| ds_rejected := mk_rejected m |> <| ds_fresh := mk_fresh m |>) in
  let st := st <| ds_defined := set_owners (mk_plan m) (mk_added m ∪ ds_defined st) |> in
  match take_defined (sorted_keys (pl_wanted (mk_plan m))) (ds_defined st) with
  | None => None
  | Some scheduled => Some (pl_out (mk_plan m) ++ scheduled, st)
  end.
End Effective.
