(* ===== verification/Conn.v ===== *)
(** * Connections, transactions and the write lock (driver/hoppersqlite/conn.go)

    Every connection of a process to a database shares one write lock.  A
    transaction takes it with its first statement and gives it back when it
    ends; a statement on its own that may write holds it while it runs, and a
    query until its rows are closed.  SQLite itself is not modelled: what a
    statement did is a [statement], its error and what the commit and rollback
    hooks saw.

    The operations of connections interleave at the lock, so an operation that
    takes it is split there: [conn_step] is a piece of an operation between two
    waits. *)

From Stdlib Require Import List ZArith Lia Bool String Ascii.
From stdpp Require Import base tactics list relations.
From S2P Require Import Prelude Text.
Import ListNotations.
Local Open Scope string_scope.
Local Open Scope Z_scope.
Local Open Scope list_scope.

(** ** Which statements write *)

Definition word_byte (c : ascii) : bool :=
  mem_Z (code c) [95; 36] || in_range 48 57 (code c) || in_range 97 122 (code c) || in_range 65 90 (code c)
  || (code c >=? 128).

(** strings.ToUpper, as far as a comparison with ASCII text sees it: the two
    other runes whose upper case is an ASCII letter are U+0131 and U+017F. *)
Definition upper (c : ascii) : ascii := if in_range 97 122 (code c) then chr (code c - 32) else c.
Fixpoint to_upper (s : string) : string :=
  match s with EmptyString => EmptyString | String c r => String (upper c) (to_upper r) end.
Fixpoint runes_upper (l : list (Z * string)) : string :=
  match l with
  | [] => EmptyString
  | rw :: l' => ((if (fst rw =? 305)%Z then "I" else if (fst rw =? 383)%Z then "S" else to_upper (snd rw)) ++ runes_upper l')%string
  end.
Definition upper_text (s : string) : string := runes_upper (runes s).

(** What follows the first occurrence of [e], or nothing: skipTo. *)
Fixpoint skip_past (e s : string) : string :=
  match cut_prefix e s with
  | Some r => r
  | None => match s with EmptyString => EmptyString | String _ r => skip_past e r end
  end.

(** What follows a quoted text, after its opening quote; a quote doubled
    inside is the quote itself. *)
Fixpoint skip_quoted (q : ascii) (s : string) : string :=
  match s with
  | EmptyString => EmptyString
  | String a r =>
      if Ascii.eqb a q then
        match r with
        | String b r' => if Ascii.eqb b q then skip_quoted q r' else r
        | EmptyString => EmptyString
        end
      else skip_quoted q r
  end.

Fixpoint span_bytes (p : ascii -> bool) (s : string) : string * string :=
  match s with
  | EmptyString => (EmptyString, EmptyString)
  | String c r => if p c then let '(a, b) := span_bytes p r in (String c a, b) else (EmptyString, s)
  end.

Definition quote_byte (c : ascii) : bool := mem_Z (code c) [39; 34; 96].
Definition param_byte (c : ascii) : bool := mem_Z (code c) [63; 58; 64; 36] || in_range 48 57 (code c).
Definition white_byte (c : ascii) : bool := mem_Z (code c) [32; 9; 10; 12; 13].
Definition newline : string := String (chr 10) EmptyString.

(** Every step of the scan shortens the text, so its length is enough fuel. *)
Fixpoint scan_tokens (fuel : nat) (q : string) (cur : list string) (stmts : list (list string)) : list (list string) :=
  match fuel, q with
  | S n, String c r =>
      if quote_byte c then scan_tokens n (skip_quoted c r) cur stmts
      else if Ascii.eqb c "[" then scan_tokens n (skip_past "]" q) cur stmts
      else if has_prefix "--" q then scan_tokens n (skip_past newline q) cur stmts
      else if has_prefix "/*" q then scan_tokens n (skip_past "*/" q) cur stmts
      else if Ascii.eqb c ";" then scan_tokens n r [] (stmts ++ [cur])
      else if param_byte c then
        scan_tokens n (snd (span_bytes (fun d => word_byte d || Ascii.eqb d ".") r)) cur stmts
      else if word_byte c then
        let '(w, r') := span_bytes word_byte r in scan_tokens n r' (cur ++ [upper_text (String c w)]) stmts
      else if white_byte c then scan_tokens n r cur stmts
      else scan_tokens n r (cur ++ [String c EmptyString]) stmts
  | _, _ => stmts ++ [cur]
  end.
Definition sqlTokens (q : string) : list (list string) := scan_tokens (String.length q) q [] [].

Definition writeKeywords : list string :=
  ["INSERT"; "UPDATE"; "DELETE"; "REPLACE"; "CREATE"; "DROP"; "ALTER"; "VACUUM"; "REINDEX"; "ANALYZE"]%string.
Definition readPragmas : list string :=
  ["COLLATION_LIST"; "DATABASE_LIST"; "FOREIGN_KEY_CHECK"; "FOREIGN_KEY_LIST"; "FUNCTION_LIST";
   "INDEX_INFO"; "INDEX_LIST"; "INDEX_XINFO"; "INTEGRITY_CHECK"; "MODULE_LIST"; "PRAGMA_LIST";
   "QUICK_CHECK"; "TABLE_INFO"; "TABLE_LIST"; "TABLE_XINFO"; "WAL_CHECKPOINT"]%string.

Fixpoint with_writes (t : list string) : bool :=
  match t with
  | [] => false
  | w :: r => mem_str w ["INSERT"; "UPDATE"; "DELETE"]%string
              || (String.eqb w "REPLACE" && match r with "INTO"%string :: _ => true | _ => false end)
              || with_writes r
  end.

(** [i] is the word's place after PRAGMA; the name is the last of schema.name. *)
Fixpoint pragma_writes (i : Z) (name : string) (t : list string) : bool :=
  match t with
  | [] => mem_str name ["OPTIMIZE"; "INCREMENTAL_VACUUM"]%string
  | w :: r =>
      if String.eqb w "=" then true
      else if String.eqb w "(" then negb (mem_str name readPragmas)
      else pragma_writes (i + 1) (if negb (String.eqb w ".") && (i <? 3) then w else name) r
  end.

Definition statementMayWrite (t : list string) : bool :=
  match t with
  | [] => false
  | w :: r =>
      if String.eqb w "WITH" then with_writes t
      else if String.eqb w "PRAGMA" then pragma_writes 0 EmptyString r
      else mem_str w writeKeywords
  end.
Definition mayWrite (query : string) : bool := existsb statementMayWrite (sqlTokens query).

(** ** The write lock *)

(** An owner is a job's attempt. *)
Record holder : Type := mkHolder { h_owner : option Z; h_callers : bool }.
Definition nobody : holder := mkHolder None false.

(** What the connections of a process share: whether the lock's channel holds
    its token, who holds the lock, and how often the listeners were woken. *)
Record database : Type := mkDatabase { lock : bool; db_holder : holder; pokes : nat }.
#[export] Instance settable_database : Settable database := fun d => mkDatabase (lock d) (db_holder d) (pokes d).

Definition sameOwner (a b : option Z) : bool := null_eq Z.eqb a b.

Inductive acquired : Type := Acquired (d : database) | HeldByOwner | Waits.
(** acquire, up to its wait: one that waits tries again when the lock is free,
    or ends with its context. *)
Definition acquire (d : database) (owner : option Z) (callers : bool) : acquired :=
  if negb (lock d) then Acquired (d <| lock := true |> <| db_holder := mkHolder owner callers |>)
  else if h_callers (db_holder d) && sameOwner (h_owner (db_holder d)) owner then HeldByOwner
  else Waits.

(** release takes the token out of the channel: [None] if it is not there, and
    the call never returns. *)
Definition release (d : database) : option database :=
  if lock d then Some (d <| lock := false |> <| db_holder := nobody |>) else None.

Definition poke (d : database) : database := d <| pokes ::= S |>.

(** ** Transactions *)

Inductive conn_error : Type :=
| ErrTransactionAborted (cause : string) | ErrTxDone (by_ : string) | ErrLockHeldByOwner | ErrAlreadyOpen
| ErrInner (msg : string).

(** What a statement did, as its error and the hooks tell. *)
Record statement : Type := mkOutcome { o_err : option string; o_rolledBack : bool; o_committed : bool }.

Record tx : Type := mkTx {
  t_readOnly : bool; t_owner : option Z; t_oneOperation : bool;
  t_begun : bool; t_locked : bool; t_read : bool; t_notified : bool;
  t_aborted : option string; t_endedBy : option string; t_committed : bool }.
#[export] Instance settable_tx : Settable tx := fun t =>
  mkTx (t_readOnly t) (t_owner t) (t_oneOperation t) (t_begun t) (t_locked t) (t_read t) (t_notified t)
    (t_aborted t) (t_endedBy t) (t_committed t).

Definition refused (t : tx) : option conn_error :=
  match t_aborted t with
  | Some cause => Some (ErrTransactionAborted cause)
  | None => match t_endedBy t with Some s => Some (ErrTxDone s) | None => None end
  end.

(** BeginTx.  A read-only transaction runs its pragma and its BEGIN at once,
    with the errors [pragma] and [begin]. *)
Definition BeginTx (open : option tx) (readOnly : bool) (owner : option Z) (oneOperation : bool)
    (pragma begin_ : option string) : conn_error + tx :=
  match open with
  | Some _ => inl ErrAlreadyOpen
  | None =>
      let t := mkTx readOnly owner oneOperation false false false false None None false in
      if readOnly then
        match pragma, begin_ with
        | None, None => inr (t <| t_begun := true |>)
        | Some e, _ | None, Some e => inl (ErrInner e)
        end
      else inr t
  end.

(** enter, once the transaction has begun: the text of a notification's
    statement is recognised. *)
Definition notifySQL : string := "INSERT INTO hopper_notifications (channel, payload, created_at) VALUES (?, ?, ?)".
Definition enter (t : tx) (query : string) : tx :=
  (if String.eqb query notifySQL then t <| t_notified := true |> else t) <| t_read := true |>.

(** leave: what a query of the transaction's, of one statement or several, has made of it. *)
Definition leave (t : tx) (o : statement) : tx :=
  match refused t with
  | Some _ => t
  | None =>
      match o_rolledBack o, o_err o, o_committed o with
      | true, Some e, _ => t <| t_aborted := Some e |>
      | true, None, _ => t <| t_endedBy := Some "a ROLLBACK statement"%string |>
      | false, None, true => t <| t_endedBy := Some "a COMMIT statement"%string |> <| t_committed := true |>
      | _, _, _ => t
      end
  end.

Fixpoint contains (sub s : string) : bool :=
  has_prefix sub s || match s with EmptyString => false | String _ r => contains sub r end.

(** tx.rollback, and what it makes of the error of its ROLLBACK. *)
Definition rollback (e : option string) : option conn_error :=
  match e with
  | Some e => if contains "no transaction is active" e then None else Some (ErrInner e)
  | None => None
  end.

(** Commit, but for its end: its error, and whether it wakes the listeners.  [commit] is the error of the COMMIT it runs; the
    error of the ROLLBACK that follows one that failed, or an aborted transaction, is ignored. *)
Definition Commit (t : tx) (commit : option string) : option conn_error * bool :=
  if negb (t_begun t) then (None, false)
  else match t_aborted t with
       | Some cause => (Some (ErrTransactionAborted cause), false)
       | None =>
           match t_endedBy t with
           | Some _ => if negb (t_committed t) then (refused t, false) else (None, t_notified t)
           | None =>
               match commit with
               | Some e => (Some (ErrInner e), false)
               | None => (None, t_notified t)
               end
           end
       end.

(** Rollback, but for its end. *)
Definition Rollback (t : tx) (e : option string) : option conn_error :=
  if negb (t_begun t) || not_null (t_endedBy t) then None else rollback e.

(** end: gives the lock back. *)
Definition end_ (d : database) (t : tx) : option database := if t_locked t then release d else Some d.

(** ** Connections *)

(** A connection between pieces of its operations: taking the lock for its
    transaction's BEGIN IMMEDIATE, or running a statement of its own under it. *)
Inductive work : Type := Idle | Beginning | Executing | Querying.
Record conn : Type := mkConn { c_tx : option tx; c_work : work }.

(** The rows of a query, and whether closing them gives the lock back. *)
Record rows : Type := mkRows { r_release : bool }.

Record process : Type := mkProcess { p_db : database; p_conns : list conn; p_rows : list rows }.
#[export] Instance settable_process : Settable process := fun p => mkProcess (p_db p) (p_conns p) (p_rows p).

Definition with_conn (p : process) (i : nat) (c : conn) : process := p <| p_conns ::= <[i := c]> |>.
Definition with_db (p : process) (d : database) : process := p <| p_db := d |>.

Inductive conn_step : process -> process -> Prop :=
| step_open p : conn_step p (p <| p_conns ::= (fun l => l ++ [mkConn None Idle]) |>)
| step_begin p i ro owner one e1 e2 t : p_conns p !! i = Some (mkConn None Idle) ->
    BeginTx None ro owner one e1 e2 = inr t -> conn_step p (with_conn p i (mkConn (Some t) Idle))
  (* beginWrite: the lock, then BEGIN IMMEDIATE *)
| step_lock p i t d : p_conns p !! i = Some (mkConn (Some t) Idle) -> refused t = None -> t_begun t = false ->
    acquire (p_db p) (t_owner t) (negb (t_oneOperation t)) = Acquired d ->
    conn_step p (with_db (with_conn p i (mkConn (Some t) Beginning)) d)
| step_begun p i t : p_conns p !! i = Some (mkConn (Some t) Beginning) ->
    conn_step p (with_conn p i (mkConn (Some (t <| t_begun := true |> <| t_locked := true |>)) Idle))
| step_begin_failed p i t d : p_conns p !! i = Some (mkConn (Some t) Beginning) -> release (p_db p) = Some d ->
    conn_step p (with_db (with_conn p i (mkConn (Some t) Idle)) d)
  (* a statement of a transaction, or a row of one *)
| step_statement p i t q o : p_conns p !! i = Some (mkConn (Some t) Idle) -> refused t = None -> t_begun t = true ->
    conn_step p (with_conn p i (mkConn (Some (leave (enter t q) o)) Idle))
| step_next p i t o : p_conns p !! i = Some (mkConn (Some t) Idle) -> refused t = None -> t_begun t = true ->
    conn_step p (with_conn p i (mkConn (Some (leave t o)) Idle))
  (* runExec on its own, and runQuery of a query that may write *)
| step_exec p i owner d : p_conns p !! i = Some (mkConn None Idle) -> acquire (p_db p) owner false = Acquired d ->
    conn_step p (with_db (with_conn p i (mkConn None Executing)) d)
| step_exec_done p i d : p_conns p !! i = Some (mkConn None Executing) -> release (p_db p) = Some d ->
    conn_step p (with_db (with_conn p i (mkConn None Idle)) d)
| step_query p i q owner d : p_conns p !! i = Some (mkConn None Idle) -> mayWrite q = true ->
    acquire (p_db p) owner false = Acquired d -> conn_step p (with_db (with_conn p i (mkConn None Querying)) d)
| step_query_failed p i d : p_conns p !! i = Some (mkConn None Querying) -> release (p_db p) = Some d ->
    conn_step p (with_db (with_conn p i (mkConn None Idle)) d)
| step_query_rows p i : p_conns p !! i = Some (mkConn None Querying) ->
    conn_step p ((with_conn p i (mkConn None Idle)) <| p_rows ::= (fun l => l ++ [mkRows true]) |>)
| step_close_rows p i d : p_rows p !! i = Some (mkRows true) -> release (p_db p) = Some d ->
    conn_step p ((with_db p d) <| p_rows ::= <[i := mkRows false]> |>)
  (* Commit, and Rollback, which Close and ResetSession call *)
| step_commit p i t e err wake d : p_conns p !! i = Some (mkConn (Some t) Idle) -> Commit t e = (err, wake) ->
    end_ (p_db p) t = Some d ->
    conn_step p (with_db (with_conn p i (mkConn None Idle)) (if wake then poke d else d))
| step_rollback p i t e err d : p_conns p !! i = Some (mkConn (Some t) Idle) -> Rollback t e = err ->
    end_ (p_db p) t = Some d ->
    conn_step p (with_db (with_conn p i (mkConn None Idle)) d).

Definition start : process := mkProcess (mkDatabase false nobody 0) [] [].
Definition reachable_process (p : process) : Prop := rtc conn_step start p.
