(* ===== verification/Execute.v ===== *)
(** * What an attempt's end makes of its job (execute.go, retry.go)

    A client runs a claimed job and turns what its worker returned into a
    result, which the finalizer writes.  The worker's error is what errors.Is and
    errors.As find in it ([work_error]); the causes of the contexts, the answers
    of Config.OnError and of the retry policies, the read of a job completed with
    CompleteTx and the random number of the jitter are arguments.  Durations are
    nanoseconds, and a panic in a hook is its zero answer, as the code has it. *)

From Stdlib Require Import List ZArith Lia Bool String SpecFloat.
From stdpp Require Import base tactics list.
From S2P Require Import Prelude Types Float64.
Import ListNotations.
Local Open Scope string_scope.
Local Open Scope Z_scope.
Local Open Scope list_scope.

#[export] Instance settable_JobFinalize : Settable JobFinalize := fun f =>
  mkJobFinalize (f_ID f) (f_AttemptedBy f) (f_Fence f) (f_Lease f) (f_State f) (f_Delay f) (f_Snooze f) (f_GiveBack f)
    (f_SnoozeReason f) (f_Error f) (f_Output f) (f_Log f) (f_Archive f).

(** ** Retry delays *)

Definition second : Z := 1000000000.
Definition maxBackoff : Z := 24 * 3600 * second.
Definition maxDuration : Z := 2 ^ 63 - 1.

(** jitter of [x], with rand.Float64's number. *)
Definition jitter (r x : spec_float) : spec_float :=
  fmul x (fadd (f_ratio false 9 10) (fmul r (f_ratio false 2 10))).

(** math.Pow(x, 4), which squares twice, and math.Pow(2, n). *)
Definition pow4 (x : spec_float) : spec_float := let s := fmul x x in fmul s s.
Definition pow2 (n : Z) : spec_float := binary_normalize prec emax 1 n false.

Definition defaultBackoff (r : spec_float) (attempt : Z) : Z :=
  let secs := jitter r (fadd (pow4 (f_of_Z attempt)) (f_of_Z 5)) in
  if f_ltb (f_of_Z (maxBackoff / second)) secs then maxBackoff
  else f_trunc (fmul secs (f_of_Z second)).

(** ExponentialRetry.NextRetry, as a delay from now. *)
Definition ExponentialRetry_delay (r : spec_float) (base max attempt : Z) : Z :=
  let base := if base <=? 0 then second else base in
  let ceiling := if max <=? 0 then maxBackoff else max in
  let d := jitter r (fmul (f_of_Z base) (pow2 (Z.max attempt 1 - 1))) in
  if f_leb (f_of_Z ceiling) d then ceiling else f_trunc d.

(** The answers of the worker's NextRetry, the queue's policy and the client's,
    in the order they are asked; [None] passes the choice on. *)
Definition until (now at_ : Z) : Z := Z.max (Z.min (at_ - now) maxDuration) 0.
Fixpoint chosenDelay (now : Z) (policies : list (option Z)) (backoff : Z) : Z :=
  match policies with
  | [] => backoff
  | Some at_ :: _ => until now at_
  | None :: rest => chosenDelay now rest backoff
  end.

(** retryDelay; [cap] is the unit's retryCap, zero for one that has none. *)
Definition retryDelay (now : Z) (policies : list (option Z)) (cap : Z) (r : spec_float) (attempt : Z) : Z :=
  let d := chosenDelay now policies (defaultBackoff r attempt) in
  if 0 <? cap then Z.min d cap else d.

(** ** Outcomes *)

(** The cause a context was canceled with. *)
Inductive cause : Type := ClientStopped | JobCanceled | JobTimeout | JobFenced | Canceled_.
Definition is_cause (c : option cause) (k : cause) : bool :=
  match c, k with
  | Some ClientStopped, ClientStopped | Some JobCanceled, JobCanceled | Some JobTimeout, JobTimeout
  | Some JobFenced, JobFenced | Some Canceled_, Canceled_ => true
  | _, _ => false
  end.

(** A worker's error: its text, and what it wraps. *)
Record work_error : Type := mkWorkError {
  e_text : string;
  e_snooze : option (Z * string);     (* a SnoozeError *)
  e_cancel : bool;                    (* a CancelError *)
  e_tooLarge : bool;                  (* ErrOutputTooLarge *)
  e_timeout : bool;                   (* ErrJobTimeout *)
  e_trace : string }.                 (* the stack of a PanicError *)

(** Config.OnError's answer. *)
Record ErrorOutcome : Type := mkErrorOutcome { eo_RetryAt : option Z; eo_Snooze : Z; eo_Discard : bool }.

(** How an attempt ended: the causes of the lease generation's context and of
    the job's own, before and after the hook ran, the hook's answer, and what
    retryDelay uses. *)
Record ending : Type := mkEnding {
  en_gen : option cause; en_job : option cause; en_job_after : option cause;
  en_hook : ErrorOutcome;
  en_now : Z; en_policies : list (option Z); en_cap : Z; en_rand : spec_float }.

Definition completedResult (row : JobRow) (deleteCompleted : bool) : JobFinalize :=
  mkJobFinalize (j_ID row) (AttemptedBy row) (j_Fence row) None Completed 0 false false "" None "" None (negb deleteCompleted).

Definition snoozed (row : JobRow) (d : Z) (reason : string) : JobFinalize :=
  mkJobFinalize (j_ID row) (AttemptedBy row) (j_Fence row) None Scheduled d true false reason None "" None false.

(** The failure of an attempt, before its state is chosen. *)
Definition failure (row : JobRow) (e : work_error) : JobFinalize :=
  mkJobFinalize (j_ID row) (AttemptedBy row) (j_Fence row) None Retryable 0 false false ""
    (Some (mkAttemptError (j_Attempt row) (j_Fence row) (e_text e) (e_trace e) RescueNone)) "" None true.

Definition replaced (job : option cause) : bool := is_cause job JobFenced.

(** The part of outcome that does not ask Config.OnError, or was not answered. *)
Definition unanswered (row : JobRow) (en : ending) (e : work_error) (giveBack : bool) : JobFinalize :=
  let f := failure row e in
  if giveBack then f <| f_State := Retryable |> <| f_GiveBack := true |>
  else if e_cancel e || e_tooLarge e || (j_MaxAttempts row <=? j_Attempt row) then f <| f_State := Discarded |>
  else f <| f_State := Retryable |>
         <| f_Delay := retryDelay (en_now en) (en_policies en) (en_cap en) (en_rand en) (j_Attempt row) |>.

(** What Config.OnError's answer makes of the attempt, [None] nothing. *)
Definition answered (row : JobRow) (en : ending) (e : work_error) : option JobFinalize :=
  let f := failure row e in
  if is_cause (en_job_after en) JobCanceled then
    Some (f <| f_State := if e_cancel e then Discarded else Canceled |>)
  else if eo_Discard (en_hook en) then Some (f <| f_State := Discarded |>)
  else if 0 <? eo_Snooze (en_hook en) then Some (snoozed row (eo_Snooze (en_hook en)) (e_text e))
  else match eo_RetryAt (en_hook en) with
       | Some at_ =>
           if j_Attempt row <? j_MaxAttempts row
           then Some (f <| f_State := Retryable |> <| f_Delay := until (en_now en) at_ |>) else None
       | None => None
       end.

(** outcome.  [known] is whether the attempt surely failed, and [stopped] whether
    the client's stop canceled it. *)
Definition outcome (row : JobRow) (deleteCompleted : bool) (en : ending) (err : option work_error) (known stopped : bool)
    : JobFinalize :=
  match err with
  | None => completedResult row deleteCompleted
  | Some e =>
      match e_snooze e with
      | Some (d, reason) => snoozed row d reason
      | None =>
          let f := failure row e in
          if replaced (en_job en) then f <| f_State := Retryable |>
          else
            let canceled := is_cause (en_job en) JobCanceled in
            let giveBack := stopped && negb (e_cancel e) && negb (e_tooLarge e) in
            let fenced := not_null (en_gen en) && negb (is_cause (en_gen en) ClientStopped) in
            if negb (e_cancel e) && canceled then f <| f_State := Canceled |>
            else if negb (e_cancel e) && negb (e_tooLarge e) && fenced && (j_Attempt row <? j_MaxAttempts row)
            then f <| f_State := Retryable |>
            else
              let answer := if known && negb canceled && negb giveBack && negb fenced then answered row en e else None in
              match answer with Some f => f | None => unanswered row en e giveBack end
      end
  end.

(** ** The attempt *)

(** What the database shows of a job its worker completed with CompleteTx. *)
Inductive txState : Type := txUnknown | txCommitted | txRunning | txLost.
Definition readTx (job : result JobView) (row : JobRow) : txState :=
  match job with
  | Err ErrNotFound => txCommitted
  | Err _ => txUnknown
  | Ok v =>
      let j := v_job v in
      if negb ((AttemptedBy j =? AttemptedBy row) && (j_Fence j =? j_Fence row) && (j_Attempt j =? j_Attempt row)) then txLost
      else match j_State j with Completed => txCommitted | Running => txRunning | _ => txLost end
  end.

(** The finalizer's pending result, as execute makes it. *)
Record submission : Type := mkSubmission {
  s_job : JobRow; s_result : JobFinalize; s_completedTx : option JobFinalize; s_committed : bool; s_heldByTx : bool;
  s_waits : Z }.
#[export] Instance settable_submission : Settable submission := fun s =>
  mkSubmission (s_job s) (s_result s) (s_completedTx s) (s_committed s) (s_heldByTx s) (s_waits s).

Definition errNotCommitted : work_error :=
  mkWorkError "hopper: the worker returned nil, but the transaction it completed the job in did not commit" None false false false "".

(** What the worker left of its attempt: the completion it wrote with
    CompleteTx, its output and its log, and whether a transaction of its own wrote
    the job's row. *)
Record left_behind : Type := mkLeft { l_completed : option JobFinalize; l_output : string; l_kept : option AttemptLog; l_txHeld : bool }.

(** execute.  [start] is the cause of the lease generation when the job was
    claimed, and [job] what JobGet answers after the worker returned. *)
Definition execute (row : JobRow) (deleteCompleted : bool) (start : option cause) (en : ending) (err : option work_error)
    (l : left_behind) (job : result JobView) : submission :=
  if is_cause start ClientStopped then
    mkSubmission row (mkJobFinalize (j_ID row) (AttemptedBy row) (j_Fence row) None Scheduled 0 false true "" None "" None false)
      None false false 0
  else
    let stopped := is_cause (en_job en) ClientStopped && negb (match err with Some e => e_timeout e | None => false end) in
    let completed := option_map (fun c => c <| f_Log := None |>) (l_completed l) in
    let state := match completed with Some _ => readTx job row | None => txUnknown end in
    match completed, state with
    | Some done, txCommitted => mkSubmission row done completed true false 0
    | _, _ =>
        let err := match completed, err with Some _, None => Some errNotCommitted | _, _ => err end in
        let known := match completed, state with Some _, txUnknown => false | _, _ => true end in
        let f := outcome row deleteCompleted en err known stopped in
        let f := if Terminal (f_State f) then f <| f_Output := l_output l |> else f in
        let f := if KeepsLog f then f <| f_Log := l_kept l |> else f in
        mkSubmission row f completed false (l_txHeld l) 0
    end.
