(* ===== verification/Flush.v ===== *)
(** * Writing a batch of results (finalizer.go: flush, write, afterFlush, notWritten, followUp)

    The finalizer writes a batch of results in one statement of its executor,
    again while that fails, in halves once it timed out, and asks for the rows of
    the jobs whose results did not apply.  The executor is the interface
    [FinalizeExecutor], which the SQLite engine implements below.

    What a call does is not what it answers: a statement can commit and its answer
    be lost.  [answer] is one call as the client sees it: [timedOut] is an error that
    is context.DeadlineExceeded, [done] whether the client was stopping by then, and [counts] for which results
    startSubmit still counts a retry, which it does not once a forced drain has ended.  The calls of a write are
    a list of answers, so a write that still retries when they run out has no
    result. *)

From Stdlib Require Import List ZArith Lia Bool String SpecFloat.
From stdpp Require Import base tactics list.
From S2P Require Import Prelude Sql Types Store Codec Insert Finalize Control Float64 Execute.
Import ListNotations.
Local Open Scope Z_scope.
Local Open Scope list_scope.

(** ** The executor *)

(** [result_for row f]: [f] is a result of the claim of [row].  [over f e]: no job
    runs any more in the claim [f] is the result of.  [claim_of row e]: a job that
    runs in the claim of [row] runs its attempt. *)
Definition result_for (row : JobRow) (f : JobFinalize) : Prop :=
  f_ID f = j_ID row /\ f_AttemptedBy f = AttemptedBy row /\ f_Fence f = j_Fence row /\ f_Lease f = None.

Class FinalizeExecutor (E Env : Type) : Type := {
  fe_finalize : JobFinalizeParams -> Env -> E -> result (list JobFinalized) * E;
  fe_get : JobID -> E -> result JobView;
  fe_ok : E -> Prop;
  over : JobFinalize -> E -> Prop;
  claim_of : JobRow -> E -> Prop;
  fe_keeps : forall p x e, fe_ok e -> fe_ok (snd (fe_finalize p x e));
  fe_over_stays : forall f p x e, fe_ok e -> f_Lease f = None -> over f e -> over f (snd (fe_finalize p x e));
  fe_claim_stays : forall row p x e, fe_ok e -> claim_of row e -> claim_of row (snd (fe_finalize p x e));
  fe_applies : forall p x e out, fe_ok e -> (forall f, In f (fp_Jobs p) -> f_Lease f = None) ->
    fst (fe_finalize p x e) = Ok out ->
    (forall f, In f (fp_Jobs p) -> over f (snd (fe_finalize p x e))) \/ out = [];
  fe_gone : forall f row e, fe_ok e -> result_for row f -> claim_of row e ->
    readTx (fe_get (j_ID row) e) row = txCommitted \/ readTx (fe_get (j_ID row) e) row = txLost -> over f e }.

(** ** Answers *)

Inductive answer (Env : Type) : Type :=
| Answered (x : Env) (done : bool) (counts : submission -> bool)   (* ran, and its answer came *)
| NotRun (timedOut done : bool)                     (* failed before it committed *)
| AnswerLost (x : Env) (timedOut done : bool).      (* committed, and failed *)
Arguments Answered {Env} x done counts.
Arguments NotRun {Env} timedOut done.
Arguments AnswerLost {Env} x timedOut done.

Section Flush.
Context {E Env : Type} {X : FinalizeExecutor E Env}.
Variable keep : Z.

(** What a write has done so far: the executor's state, the results reported as
    applied, those of jobs that moved on without them, those to be tried again
    later, those of held rows dropped because the final drain had ended, those
    given up, the jobs that finished and the dependents canceled with
    them, and the answers to come. *)
Record flushed : Type := mkFlushed {
  w_exec : E; w_reported : list submission; w_dropped : list submission; w_again : list submission;
  w_forced : list submission;  w_given_up : list submission; w_finished : list submission; w_cascaded : list JobID; w_answers : list (answer Env) }.
#[export] Instance settable_flushed : Settable flushed := fun w =>
  mkFlushed (w_exec w) (w_reported w) (w_dropped w) (w_again w) (w_forced w) (w_given_up w) (w_finished w) (w_cascaded w) (w_answers w).

(** notWritten, and what becomes of a result the statement did not apply. *)
Definition notWritten (counts : submission -> bool) (w : flushed) (p : submission) : flushed :=
  match readTx (fe_get (j_ID (s_job p)) (w_exec w)) (s_job p), s_completedTx p with
  | txCommitted, Some _ => w <| w_reported ::= (fun l => l ++ [p]) |> <| w_finished ::= (fun l => l ++ [p]) |>
  | txCommitted, None | txLost, _ =>
      w <| w_dropped ::= (fun l => l ++ [p]) |>
        <| w_finished ::= (fun l => if Terminal (f_State (s_result p)) then l ++ [p] else l) |>
  | _, _ =>
      let p := p <| s_waits ::= Z.succ |> in
      if counts p then w <| w_again ::= (fun l => l ++ [p]) |> else w <| w_forced ::= (fun l => l ++ [p]) |>
  end.

Definition finalized_eqb (a b : JobFinalized) : bool :=
  (fd_ID a =? fd_ID b) && (fd_Fence a =? fd_Fence b) && Bool.eqb (fd_Cascaded a) (fd_Cascaded b).

(** afterFlush: [ok] is [None] when every result applied. *)
Definition after_one (counts : submission -> bool) (ok : option (list JobFinalized)) (w : flushed) (p : submission) : flushed :=
  let was := match ok with
             | None => true
             | Some l => existsb (finalized_eqb (mkJobFinalized (f_ID (s_result p)) (f_Fence (s_result p)) false)) l
             end in
  if was then
    w <| w_reported ::= (fun l => l ++ [p]) |>
      <| w_finished ::= (fun l => if Terminal (f_State (s_result p)) then l ++ [p] else l) |>
  else notWritten counts w p.
Definition afterFlush (counts : submission -> bool) (w : flushed) (batch : list submission) (applied : list JobFinalized) : flushed :=
  let ok := if (List.length applied =? List.length batch)%nat then None else Some applied in
  List.fold_left (after_one counts ok) batch w.

Definition splitCascaded (applied : list JobFinalized) : list JobFinalized * list JobID :=
  (List.filter (fun a => negb (fd_Cascaded a)) applied, List.map fd_ID (List.filter fd_Cascaded applied)).

Definition has_batch (p : submission) : bool := negb (is_null (j_BatchID (s_job p))).
Definition params_of (batch : list submission) (skipLocked : bool) : JobFinalizeParams :=
  mkJobFinalizeParams (List.map s_result batch) (negb (existsb has_batch batch)) skipLocked keep.

(** write, with one answer per unit of fuel at most. *)
Fixpoint write_ (fuel : nat) (w : flushed) (batch : list submission) (skipLocked : bool) : option flushed :=
  match batch, fuel, w_answers w with
  | [], _, _ => Some w
  | _, S n, a :: rest =>
      let p := params_of batch skipLocked in
      let w := w <| w_answers := rest |> in
      let failed (w : flushed) (timedOut done : bool) :=
        if negb skipLocked && timedOut then write_ n w batch true
        else if done then Some (w <| w_given_up ::= (fun l => l ++ batch) |>)
        else if timedOut && (1 <? List.length batch)%nat then
          let half := (List.length batch / 2)%nat in
          match write_ n w (List.firstn half batch) skipLocked with
          | Some w => write_ n w (List.skipn half batch) skipLocked
          | None => None
          end
        else write_ n w batch skipLocked in
      match a with
      | NotRun timedOut done => failed w timedOut done
      | AnswerLost x timedOut done => failed (w <| w_exec := snd (fe_finalize p x (w_exec w)) |>) timedOut done
      | Answered x done counts =>
          match fe_finalize p x (w_exec w) with
          | (Err _, e) => failed (w <| w_exec := e |>) false done
          | (Ok applied, e) =>
              let '(applied, cascaded) := splitCascaded applied in
              Some (afterFlush counts (w <| w_exec := e |> <| w_cascaded ::= (fun l => l ++ cascaded) |>) batch applied)
          end
      end
  | _, _, _ => None
  end.

(** flush, but for its follow-up: the results of rows no transaction wrote, then
    those of rows one may hold; completions the client saw commit are reported. *)
Definition plain (p : submission) : bool := negb (s_committed p) && is_null (s_completedTx p) && negb (s_heldByTx p) && (s_waits p <=? 0).
Definition flush (fuel : nat) (w : flushed) (batch : list submission) : option flushed :=
  match write_ fuel w (List.filter plain batch) false with
  | None => None
  | Some w =>
      match write_ fuel w (List.filter (fun p => negb (s_committed p) && negb (plain p)) batch) true with
      | None => None
      | Some w =>
          let committed := List.filter s_committed batch in
          Some (w <| w_reported ::= (fun l => l ++ committed) |> <| w_finished ::= (fun l => l ++ committed) |>)
      end
  end.

(** followUp, which write calls after each statement that wrote: the batches to settle, each once, and the jobs whose dependents to
    promote. *)
Fixpoint batches_of (seen : list JobID) (finished : list submission) : list JobID :=
  match finished with
  | [] => []
  | p :: rest =>
      match j_BatchID (s_job p) with
      | Some b => if mem_Z b seen then batches_of seen rest else b :: batches_of (b :: seen) rest
      | None => batches_of seen rest
      end
  end.
Definition followUp (finished : list submission) (cascaded : list JobID) : list JobID * list JobID :=
  (batches_of [] finished, List.map (fun p => j_ID (s_job p)) (List.filter has_batch finished) ++ cascaded).
End Flush.
