(* ===== verification/Duties.v ===== *)
(** * The leader's duties (leader.go)

    Rescuing jobs from lost clients, expiring job leases and jobs past their TTL,
    settling batches, promoting workflow jobs, aging, pruning clients, and how
    the passes over history are paced.  A pass runs on the engine, a statement at
    a time, with other clients' writes in between; each has its own time, may
    find the write lock held, and may fail. *)

From Stdlib Require Import List ZArith Lia Bool String.
From stdpp Require Import base tactics list gmap strings.
From S2P Require Import Prelude Sql Text Json Types Store JobTags Insert Finalize Claim Control Leases Workflow Cluster Flush.
Import ListNotations.
Local Open Scope string_scope.
Local Open Scope Z_scope.
Local Open Scope list_scope.

(** ** Statements *)

(** The [n]th statement of a run: its time and random bytes, the local clock when it returns, whether another transaction holds
    the write lock past a brief wait, the error of one that did not run, and what the other clients have written between
    the statement before it and this one, each statement being a transaction of its own. *)
Record call : Type := mkCall { cl_w : w; cl_clock : Z; cl_busy : bool; cl_fail : option error; cl_others : DB -> DB }.

Inductive duty_event : Type :=
| EventJobRescued (id : JobID) (reason : string)
| EventJobDiscarded (id : JobID).

(** What the duties keep on the client, with what they report: events, queues woken, jobs signaled done and the errors they met
    (logged unless the duty's context has ended). *)
Record duty : Type := mkDuty {
  du_calls : nat; du_db : DB; du_clientID : Z; du_settleAfter : JobID; du_promoteAfter : JobID; du_resultsSweptAt : Z;
  du_events : list duty_event; du_woken : list string; du_done : list JobID; du_logged : list error }.
#[export] Instance settable_duty : Settable duty := fun s =>
  mkDuty (du_calls s) (du_db s) (du_clientID s) (du_settleAfter s) (du_promoteAfter s) (du_resultsSweptAt s) (du_events s) (du_woken s)
    (du_done s) (du_logged s).

Record tuning : Type := mkTuning {
  tu_rescueBatch : Z; tu_leaderInterval : Z; tu_maintenanceInterval : Z; tu_RescueStuckAfter : Z; tu_JobLeaseGrace : Z;
  tu_register : ClientRegisterParams }.

Section Duties.
Context (t : tuning) (calls : nat -> call).

Definition stmt {A} (op : call -> DB -> result A * DB) (s : duty) : result A * duty :=
  let c := calls (du_calls s) in
  let s := s <| du_calls ::= S |> <| du_db ::= cl_others c |> in
  match cl_fail c with
  | Some e => (Err e, s)
  | None => let '(r, d) := op c (du_db s) in (r, s <| du_db := d |>)
  end.
Definition log_error (e : error) (s : duty) : duty := s <| du_logged ::= cons e |>.
Definition wake (queues : list string) (s : duty) : duty := s <| du_woken ::= (fun l => l ++ Distinct queues) |>.

(** ** Rescue *)

Definition rescue_reason (cand : RescueCandidate) : string * RescueReason :=
  if rc_Stuck cand then ("hopper: job ran longer than RescueStuckAfter", RescueStuck) else ("hopper: client lost", RescueClientLost).

(** The result that ends a candidate's attempt, fenced to the claim it was found in. *)
Definition rescue_result (cand : RescueCandidate) : JobFinalize :=
  let j := v_job (rc_Job cand) in
  let '(reason, why) := rescue_reason cand in
  mkJobFinalize (j_ID j) (AttemptedBy j) (j_Fence j) None (if j_MaxAttempts j <=? j_Attempt j then Discarded else Retryable) 0 false false ""
    (Some (mkAttemptError (j_Attempt j) (j_Fence j) reason "" why)) "" None true.

Definition cand_batch (cand : RescueCandidate) : JobID := idOf (j_BatchID (v_job (rc_Job cand))).
(** inBatch: the jobs of a batch the rescue discards. *)
Definition in_batch (cand : RescueCandidate) : bool := state_eqb (f_State (rescue_result cand)) Discarded && negb (IsZero (cand_batch cand)).

(** fence of client.go: another ID, under which the leader goes on. *)
Definition fence_self (s : duty) : duty :=
  match stmt (fun c d => ClientRegister (tu_register t) (cl_w c) d) s with
  | (Ok id, s) => s <| du_clientID := id |>
  | (Err e, s) => log_error e s
  end.
Definition own_lost (me : Z) (cand : RescueCandidate) : bool := (AttemptedBy (v_job (rc_Job cand)) =? me) && negb (rc_Stuck cand).

Definition promote_dependents (ids : list JobID) (s : duty) : duty :=
  match stmt (fun c d => WorkflowPromoteReady (Some ids) 0 0 d (cl_w c) d) s with
  | (Ok _, s) => s
  | (Err e, s) => log_error e s
  end.

Definition cand_id (cand : RescueCandidate) : JobID := j_ID (v_job (rc_Job cand)).
Definition report_rescued (cands : list RescueCandidate) (applied : list JobID) (s : duty) : duty :=
  let was cand := mem_Z (cand_id cand) applied in
  let s := s <| du_events ::= (fun l => l ++ List.map (fun cand => EventJobRescued (cand_id cand) (fst (rescue_reason cand))) (List.filter was cands)) |> in
  wake (List.map (fun cand => j_Queue (v_job (rc_Job cand)))
          (List.filter (fun cand => was cand && negb (state_eqb (f_State (rescue_result cand)) Discarded)) cands)) s.

(** One round; whether there is another. *)
Definition rescue_round (s : duty) : bool * duty :=
  match stmt (fun c d => (Ok (JobRescueCandidates (mkJobRescueParams (tu_RescueStuckAfter t) (tu_rescueBatch t)) (w_now (cl_w c)) d), d)) s with
  | (Err e, s) => (false, log_error e s)
  | (Ok [], s) => (false, s)
  | (Ok cands, s) =>
      let s := if existsb (own_lost (du_clientID s)) cands then fence_self s else s in
      let p := mkJobFinalizeParams (List.map rescue_result cands) (forallb (fun cand => IsZero (cand_batch cand)) cands) true 0 in
      match stmt (fun c d => JobFinalizeMany p (cl_busy c) (cl_w c) d) s with
      | (Err e, s) => (false, log_error e s)
      | (Ok out, s) =>
          let '(applied, cascaded) := splitCascaded out in
          let ids := List.map fd_ID applied in
          let followUp := List.filter (fun id => existsb (fun cand => (cand_id cand =? id) && in_batch cand) cands) ids ++ cascaded in
          let s := match followUp with [] => s | _ => promote_dependents followUp s end in
          let s := report_rescued cands ids s in
          (negb ((Z.of_nat (List.length cands) <? tu_rescueBatch t) || match applied with [] => true | _ => false end), s)
      end
  end.

Fixpoint rescue (fuel : nat) (s : duty) : option duty :=
  match rescue_round s with
  | (false, s) => Some s
  | (true, s) => match fuel with O => None | S n => rescue n s end
  end.

(** ** Expiry *)

Definition job_of (v : JobView) : JobRow := v_job v.

(** settleAndPromote of finalizer.go; the engine settles named batches with every finalize. *)
Definition settleAndPromote (batches jobs : list JobID) (s : duty) : duty :=
  let s := match batches with
           | [] => s
           | _ => match stmt (fun c d => BatchSettle true false 0 (cl_w c) d) s with (Ok _, s) => s | (Err e, s) => log_error e s end
           end in
  promote_dependents jobs s.

Definition followUpEnded (jobs : list JobView) (cascaded : list JobID) (s : duty) : duty :=
  match jobs with
  | [] => s
  | _ =>
      let of_batch := List.filter (fun v => Terminal (j_State (job_of v)) && negb (IsZero (idOf (j_BatchID (job_of v))))) jobs in
      let batches := List.nodup Z.eq_dec (List.map (fun v => idOf (j_BatchID (job_of v))) of_batch) in
      match List.map (fun v => j_ID (job_of v)) of_batch ++ cascaded with
      | [] => s
      | ended => settleAndPromote batches ended s
      end
  end.

Definition expireJobLeases_round (s : duty) : bool * duty :=
  match stmt (fun c d => JobExpireLeases (mkJobExpireLeasesParams (tu_rescueBatch t) (du_clientID s) (tu_JobLeaseGrace t)) (cl_busy c) (cl_w c) d) s with
  | (Err e, s) => (false, log_error e s)
  | (Ok (jobs, cascaded), s) =>
      let s := s <| du_events ::= (fun l => l ++ List.map (fun v => EventJobRescued (j_ID (job_of v)) "hopper: job lease expired") jobs) |>
                 <| du_done ::= (fun l => l ++ List.map (fun v => j_ID (job_of v)) (List.filter (fun v => Terminal (j_State (job_of v))) jobs)) |> in
      let s := wake (List.map (fun v => j_Queue (job_of v)) (List.filter (fun v => negb (Terminal (j_State (job_of v)))) jobs)) s in
      (negb (Z.of_nat (List.length jobs) <? tu_rescueBatch t), followUpEnded jobs cascaded s)
  end.
Fixpoint expireJobLeases (fuel : nat) (s : duty) : option duty :=
  match expireJobLeases_round s with
  | (false, s) => Some s
  | (true, s) => match fuel with O => None | S n => expireJobLeases n s end
  end.

Definition expire_round (s : duty) : bool * duty :=
  match stmt (fun c d => JobDiscardExpired (tu_rescueBatch t) (cl_w c) d) s with
  | (Err e, s) => (false, log_error e s)
  | (Ok (jobs, cascaded), s) =>
      let s := s <| du_events ::= (fun l => l ++ List.map (fun v => EventJobDiscarded (j_ID (job_of v))) jobs) |>
                 <| du_done ::= (fun l => l ++ List.map (fun v => j_ID (job_of v)) jobs) |> in
      (negb (Z.of_nat (List.length jobs) <? tu_rescueBatch t), followUpEnded jobs cascaded s)
  end.
Fixpoint expire (fuel : nat) (s : duty) : option duty :=
  match expire_round s with
  | (false, s) => Some s
  | (true, s) => match fuel with O => None | S n => expire n s end
  end.

(** ** The sweeps *)

(** settleBatches: one statement, since the engine folds no progress (res.Folded is zero). *)
Definition settleBatches (now : Z) (s : duty) : duty :=
  let results := tu_maintenanceInterval t <=? now - du_resultsSweptAt s in
  let s := if results then s <| du_resultsSweptAt := now |> else s in
  match stmt (fun c d => BatchSettle false results (tu_rescueBatch t) (cl_w c) d) s with
  | (Err e, s) => log_error e s
  | (Ok _, s) => s <| du_settleAfter := 0 |>
  end.

(** promoteReady: a chunk of the edges at a time, from where the last pass stopped, until they end or the deadline passes. *)
Definition promote_round (deadline : Z) (s : duty) : bool * duty :=
  let clock := cl_clock (calls (du_calls s)) in
  match stmt (fun c d => WorkflowPromoteReady None (du_promoteAfter s) (tu_rescueBatch t) d (cl_w c) d) s with
  | (Err e, s) => (false, log_error e s)
  | (Ok res, s) =>
      if wq_Scanned res <? tu_rescueBatch t then (false, s <| du_promoteAfter := 0 |>)
      else (negb (deadline <? clock), s <| du_promoteAfter := wq_Last res |>)
  end.
Fixpoint promote_loop (fuel : nat) (deadline : Z) (s : duty) : option duty :=
  match promote_round deadline s with
  | (false, s) => Some s
  | (true, s) => match fuel with O => None | S n => promote_loop n deadline s end
  end.
Definition promoteReady (fuel : nat) (now : Z) (s : duty) : option duty := promote_loop fuel (now + tu_leaderInterval t) s.

(** ** Aging and pruning *)

Fixpoint age_queues (queues : list QueueLimits) (s : duty) : duty :=
  match queues with
  | [] => s
  | q :: rest =>
      if ql_Aging q <=? 0 then age_queues rest s
      else
        match stmt (fun c d => JobAge (ql_Name q) (ql_Aging q) (cl_w c) d) s with
        | (Err e, s) => age_queues rest (log_error e s)
        | (Ok n, s) => age_queues rest (if 0 <? n then s <| du_woken ::= (fun l => l ++ [ql_Name q]) |> else s)
        end
  end.
Definition age (s : duty) : duty :=
  match stmt (fun _ d => (Ok (List.map snd (QueueList d)), d)) s with
  | (Err e, s) => log_error e s
  | (Ok queues, s) => age_queues queues s
  end.

Definition pruneClients (s : duty) : duty :=
  match stmt (fun c d => ClientPruneExpired (cl_w c) d) s with
  | (Err e, s) => log_error e s
  | (Ok _, s) => s
  end.

(** dutyLoop's pass, each duty with its fuel. *)
Definition duty_pass (fuel : nat) (now : Z) (s : duty) : option duty :=
  match rescue fuel s with
  | None => None
  | Some s =>
      match expireJobLeases fuel s with
      | None => None
      | Some s =>
          match expire fuel s with
          | None => None
          | Some s =>
              match promoteReady fuel now (settleBatches now s) with
              | None => None
              | Some s => Some (pruneClients (age s))
              end
          end
      end
  end.
End Duties.

(** ** The pace of history's passes *)

Definition nextDeferrals (n : Z) (deferred endedEarly : bool) : Z := if deferred then n + 1 else if endedEarly then n else 0.

Record HistoryIndexResult : Type := mkHistoryIndexResult {
  hi_TimedOut : list string; hi_Invalid : list string; hi_Deferred : list string; hi_Busy : string }.

(** The error of a pass: none, that of a repair (driver.ErrHistoryIndexRepair), reported once the rest is done, or another. *)
Inductive index_error : Type := IndexOk | IndexRepair | IndexFailed.
Definition indexPassFailed (e : index_error) : bool := match e with IndexFailed => true | _ => false end.

Definition not_empty {A} (l : list A) : bool := match l with [] => false | _ => true end.
Definition nextIndexRuns (deferrals busy : Z) (res : HistoryIndexResult) (e : index_error) : Z * Z :=
  let failed := indexPassFailed e in
  (nextDeferrals deferrals (not_empty (hi_Deferred res)) (failed || negb (String.eqb (hi_Busy res) "")),
   nextDeferrals busy (negb (String.eqb (hi_Busy res) "")) failed).

Record indexBackoff : Type := mkIndexBackoff { ib_failures : Z; ib_next : Z }.
Definition maxIndexBackoffShift : Z := 6.
Definition maxInvalidBackoffShift : Z := 3.

(** indexLoop's retryIn: the interval doubled with each failure in a row, to a cap. *)
Definition retryIn (interval maxShift now : Z) (backoffs : gmap string indexBackoff) (name : string) : Z * gmap string indexBackoff :=
  let failures := match backoffs !! name with Some b => ib_failures b + 1 | None => 1 end in
  let wait := Z.shiftl interval (Z.min failures maxShift) in
  (wait, <[name := mkIndexBackoff failures (now + wait)]> backoffs).

Definition notDue (now : Z) (backoffs : gmap string indexBackoff) : list string :=
  List.map fst (List.filter (fun nb => now <? ib_next (snd nb)) (map_to_list backoffs)).

Definition settleBackoffs (backoffs : gmap string indexBackoff) (skipped reported : list string) (res : HistoryIndexResult) (e : index_error)
    : gmap string indexBackoff :=
  if indexPassFailed e || negb (String.eqb (hi_Busy res) "") || not_empty (hi_Deferred res) then backoffs
  else filter (fun nb => mem_str (fst nb) skipped = true \/ mem_str (fst nb) reported = true) backoffs.

(** The backoffs after a pass of indexLoop, which ran at [now] and skipped what was not due. *)
Definition index_pass (interval maxShift now : Z) (reported : list string) (res : HistoryIndexResult) (e : index_error) (backoffs : gmap string indexBackoff)
    : gmap string indexBackoff :=
  let skipped := notDue now backoffs in
  settleBackoffs (List.fold_left (fun b name => snd (retryIn interval maxShift now b name)) reported backoffs) skipped reported res e.

Definition ddlLockTimeoutBase : Z := 200000000.
Definition ddlLockTimeoutMax : Z := 2000000000.
Definition ddlDeferralsWarn : Z := 5.
Definition ddlLockTimeout (deferrals : Z) : Z := Z.min (Z.shiftl ddlLockTimeoutBase (Z.min deferrals 4)) ddlLockTimeoutMax.
Inductive log_level : Type := LevelDebug | LevelWarn.
Definition repeatLevel (passes : Z) : log_level := if ddlDeferralsWarn <=? passes then LevelWarn else LevelDebug.

(** maintainHistory: the deferrals it leaves, and whether its pass is done. *)
Definition maintained (deferrals : Z) (deferred : list string) (failed : bool) : Z * bool :=
  (nextDeferrals deferrals (not_empty deferred) failed, failed || negb (not_empty deferred)).
