(* ===== verification/Settle.v ===== *)
(** * Batches to settle again (settleretry.go)

    The finalizer settles the batches of the jobs it finished.  A settle gives
    up on a batch row another transaction holds, and the retrier keeps the batch
    to settle it again: after the flush interval, and then after delays that
    double, until they would pass the leader's interval, which leaves the batch
    to the leader's sweep.

    The finalizer adds batches while an attempt is under way, so an attempt has
    two halves, as the code takes its lock twice; [retry_step] interleaves them.
    What BatchSettle answers is an argument: the driver's contract.  Times and
    delays are nanoseconds. *)

From Stdlib Require Import List ZArith Lia Bool.
From stdpp Require Import base tactics list gmap relations.
From S2P Require Import Prelude Sql JsonCheck.
Import ListNotations.
Local Open Scope Z_scope.
Local Open Scope list_scope.

Definition maxHeld : Z := 10000.
Definition millisecond : Z := 1000000.

Record heldBatch : Type := mkHeld { h_delay : Z; h_due : Z; h_again : bool }.
Record settleRetrier : Type := mkRetrier { first : Z; maxDelay : Z; held : gmap Z heldBatch }.
#[export] Instance settable_retrier : Settable settleRetrier := fun r => mkRetrier (first r) (maxDelay r) (held r).

Definition newSettleRetrier (interval max : Z) : settleRetrier := mkRetrier (Z.max interval millisecond) max ∅.

(** add, and the batches left to the leader because too many are kept. *)
Definition add_one (due : Z) (r : settleRetrier) (id : Z) : settleRetrier * bool :=
  match held r !! id with
  | Some h => (r <| held ::= <[id := mkHeld (first r) (Z.min (h_due h) due) true]> |>, false)
  | None =>
      if Z.of_nat (size (held r)) =? maxHeld then (r, true)
      else (r <| held ::= <[id := mkHeld (first r) due false]> |>, false)
  end.
Fixpoint add (due : Z) (r : settleRetrier) (batches : list Z) : settleRetrier * list Z :=
  match batches with
  | [] => (r, [])
  | id :: rest =>
      let '(r1, full) := add_one due r id in
      let '(r2, over) := add due r1 rest in (r2, if full then id :: over else over)
  end.

Definition earlier (h : heldBatch) (next : option Z) : option Z :=
  match next with None => Some (h_due h) | Some t => Some (if h_due h <? t then h_due h else t) end.
Definition nextDue (r : settleRetrier) : option Z := List.fold_right earlier None (List.map snd (map_to_list (held r))).

(** attempt, up to its settles: the batches due, those with the shortest delay
    first. *)
Definition is_due (final : bool) (now : Z) (h : heldBatch) : bool := final || (h_due h <=? now).
Definition try_leb (a b : Z * heldBatch) : bool :=
  (h_delay (snd a) <? h_delay (snd b)) || ((h_delay (snd a) =? h_delay (snd b)) && (fst a <=? fst b)).
Definition forget_again (h : heldBatch) : heldBatch := mkHeld (h_delay h) (h_due h) false.
Definition attempt_tries (r : settleRetrier) (final : bool) (now : Z) : list Z :=
  List.map fst (order_by try_leb (List.filter (fun t => is_due final now (snd t)) (map_to_list (held r)))).
Definition attempt_begin (r : settleRetrier) (final : bool) (now : Z) : settleRetrier :=
  r <| held ::= fmap (fun h => if is_due final now h then forget_again h else h) |>.

(** settle.  BatchSettle's answer for a batch: its error, and whether the
    context was done by then. *)
Inductive settle_error : Type := ErrRowsHeld | ErrSettle.
Record answer : Type := mkAnswer { a_err : option settle_error; a_done : bool }.
Inductive verdict : Type := Settled | Still | Failed.
Definition judge (a : answer) : verdict :=
  match a_err a with
  | None => Settled
  | Some ErrRowsHeld => Still
  | Some ErrSettle => if a_done a then Still else Failed
  end.
Fixpoint settle (BatchSettle : Z -> answer) (done : bool) (ids : list Z) : list (Z * verdict) :=
  match ids with
  | [] => []
  | id :: rest =>
      if done then (id, Still) :: settle BatchSettle done rest
      else (id, judge (BatchSettle id)) :: settle BatchSettle (a_done (BatchSettle id)) rest
  end.

(** attempt, after its settles: what becomes of a batch it tried, [None] that
    it is let go. *)
Definition is_still (v : verdict) : bool := match v with Still => true | _ => false end.
Definition after (r : settleRetrier) (final stopped : bool) (now : Z) (v : verdict) (h : heldBatch) : option heldBatch :=
  if final then None
  else if is_still v && stopped then Some h
  else if h_again h then Some (mkHeld (first r) (now + first r) false)
  else if is_still v && (wrap64 (h_delay h * 2) <=? maxDelay r)
       then Some (mkHeld (wrap64 (h_delay h * 2)) (now + wrap64 (h_delay h * 2)) (h_again h))
  else None.
Definition put (id : Z) (h : option heldBatch) (m : gmap Z heldBatch) : gmap Z heldBatch :=
  match h with Some h => <[id := h]> m | None => delete id m end.
Definition gone : heldBatch := mkHeld 0 0 false.
Definition attempt_end (final stopped : bool) (now : Z) (r : settleRetrier) (verdicts : list (Z * verdict)) : settleRetrier :=
  List.fold_left (fun r iv =>
    r <| held ::= put (fst iv) (after r final stopped now (snd iv) (default gone (held r !! fst iv))) |>) verdicts r.

(** ** The retrier beside the finalizer *)

(** [flight] is the attempt under way: its batches, and whether it is the last
    one, of a client that stops.  What the code does not have: [fresh] are the
    batches added since that attempt began, [owed] those whose settle gave up and
    which no settle begun since has settled, and [leader] those given up. *)
Record retrying : Type := mkRetrying {
  rt : settleRetrier; rt_now : Z; flight : option (list Z * bool); stopped : bool;
  fresh : gset Z; owed : gset Z; leader : gset Z }.

(** Of the verdicts, the batches settled, and of those let go the ones not. *)
Definition settled (vs : list (Z * verdict)) : list Z :=
  List.map fst (List.filter (fun iv => match snd iv with Settled => true | _ => false end) vs).
Definition abandoned (r : settleRetrier) (vs : list (Z * verdict)) : list Z :=
  List.map fst (List.filter (fun iv => match snd iv with Settled => false | _ => is_null (held r !! fst iv) end) vs).

Inductive retry_step : retrying -> retrying -> Prop :=
  (* followUp, which the finalizer no longer runs once the last attempt is made *)
| retry_add s batches now r over : rt_now s <= now -> stopped s = false ->
    (forall ids, flight s <> Some (ids, true)) -> add (now + first (rt s)) (rt s) batches = (r, over) ->
    retry_step s (mkRetrying r now (flight s) false (fresh s ∪ list_to_set batches) (owed s ∪ list_to_set batches)
                    (leader s ∪ list_to_set over))
| retry_begin s final now : rt_now s <= now -> stopped s = false -> flight s = None ->
    retry_step s (mkRetrying (attempt_begin (rt s) final now) now (Some (attempt_tries (rt s) final now, final)) false
                    ∅ (owed s) (leader s))
| retry_end s ids final now BatchSettle over done r vs : rt_now s <= now -> flight s = Some (ids, final) ->
    settle BatchSettle over ids = vs -> attempt_end final (negb final && done) now (rt s) vs = r ->
    retry_step s (mkRetrying r now None final ∅ (owed s ∖ (list_to_set (settled vs) ∖ fresh s))
                    (leader s ∪ list_to_set (abandoned r vs))).

Definition started (interval max now : Z) : retrying := mkRetrying (newSettleRetrier interval max) now None false ∅ ∅ ∅.
Definition reachable_retry (interval max : Z) (s : retrying) : Prop := exists now, rtc retry_step (started interval max now) s.
