(* ===== verification/Drain.v ===== *)
(** * The finalizer's queue and its drain (finalizer.go)

    Job goroutines hand their results to the finalizer, which writes them in
    batches.  When the client stops, the finalizer drains: it takes what is
    buffered and being submitted, and ends once no submit is in flight, which two
    counters tell; results that come after that are dropped.

    Goroutines interleave at their atomic operations, so a submit is a [stage] and
    the finalizer's own goroutine a [runner], and [fin_step] is one operation of
    either.  Writing a batch is Flush.v's matter: here a result of a batch flushed
    is written (or given up with a message), or its row is held and it is
    submitted again.  The model keeps what the code does not: [accepted], the
    results whose submit began before the drain ended, [resolved], those flushed,
    [lost], those dropped all the same, [forced], whether a round of the drain
    came after its deadline, and [largest], the largest log submitted. *)

From Stdlib Require Import List ZArith Lia Bool.
From stdpp Require Import base tactics list relations.
From S2P Require Import Prelude Counting.
Import ListNotations.
Local Open Scope Z_scope.
Local Open Scope list_scope.

Record pending : Type := mkPending { p_id : Z; p_bytes : nat; p_committed : bool; p_handedIn : option Z }.
#[export] Instance settable_pending : Settable pending := fun p => mkPending (p_id p) (p_bytes p) (p_committed p) (p_handedIn p).

Definition bytes (l : list pending) : nat := total p_bytes l.

(** The sizes of newFinalizer: of the buffer, of a batch, of a batch's logs and
    of the buffered results' logs, and the time the drain takes results for. *)
Record tuning : Type := mkTuning {
  capacity : nat; maxBatch : nat; flushLogBytes : nat; maxLogs : nat; drainTimeout : Z }.

(** A goroutine in submit or deliver, or a timer that will deliver. *)
Inductive stage : Type :=
| Waiting (p : pending) | Acquiring (p : pending) | Handing (p : pending) | Sending (p : pending)
| Refused (p : pending) | Finishing | Gone.

(** stopIfIdle between its loads. *)
Inductive check : Type := Load | Submitted (n : Z) | Length (n : Z) (even : bool) | Swap (n : Z) (idle : bool).

(** run: before the stop, and draining.  [Flushing] has what is left to write,
    the size of the batch's logs, and what run goes on with. *)
Inductive runner : Type :=
| Running (batch : list pending)
| Flushing (drain : option bool) (todo : list pending) (size : nat) (rest : list pending)
| Taking (batch : list pending) | Writing (late : bool) (batch : list pending)
| Checking (force : bool) (c : check) | Blocked | Returned.

Record finalizer : Type := mkFinalizer {
  submits : Z; submitted : Z; f_in : list pending; draining : bool; f_done : bool; f_left : bool; used : nat;
  deadline : option Z; expiry : bool; now : Z; stages : list stage; run : runner;
  accepted : list Z; resolved : list Z; lost : list Z; forced : bool; largest : nat }.
#[export] Instance settable_finalizer : Settable finalizer := fun f =>
  mkFinalizer (submits f) (submitted f) (f_in f) (draining f) (f_done f) (f_left f) (used f) (deadline f) (expiry f)
    (now f) (stages f) (run f) (accepted f) (resolved f) (lost f) (forced f) (largest f).

Section Finalizer.
Variable t : tuning.

(** startSubmit: whether the drain has not ended. *)
Definition startSubmit (f : finalizer) : finalizer * bool :=
  (f <| submits ::= Z.add 2 |>, Z.even (submits f + 2)).

(** submitDone. *)
Definition submitDone (f : finalizer) : finalizer :=
  f <| submitted ::= Z.add 1 |> <| f_left := f_left f || draining f |>.

(** logBudget.acquire, when it takes the bytes. *)
Definition fits (f : finalizer) (n : nat) : bool :=
  (n =? 0)%nat || (used f =? 0)%nat || (used f + n <=? maxLogs t)%nat || draining f.

(** What is flushed once it was received. *)
Definition full (batch : list pending) : bool :=
  (maxBatch t <=? List.length batch)%nat || (flushLogBytes t <=? bytes batch)%nat.

(** The next batch of the drain. *)
Fixpoint chunk (n size : nat) (batch : list pending) : list pending * list pending :=
  match batch with
  | p :: rest =>
      if (n <? maxBatch t)%nat && (size <? flushLogBytes t)%nat
      then let '(a, b) := chunk (S n) (size + p_bytes p) rest in (p :: a, b)
      else ([], batch)
  | [] => ([], [])
  end.

(** What the drain drops past its deadline. *)
Definition is_late (f : finalizer) : bool := match deadline f with Some d => d <? now f | None => false end.
Definition too_late (f : finalizer) (p : pending) : bool :=
  is_late f && match deadline f, p_handedIn p with Some d, Some h => d <? h | _, _ => false end && negb (p_committed p).

Definition at_stage (f : finalizer) (i : nat) (s : stage) : finalizer := f <| stages ::= <[i := s]> |>.
Definition drop (f : finalizer) (ids : list Z) : finalizer := f <| lost ::= (fun l => l ++ ids) |>.
Definition ids (l : list pending) : list Z := List.map p_id l.

Definition handed (f : finalizer) (p : pending) : pending :=
  if draining f then p <| p_handedIn := Some (now f) |> else p.

(** What run does once a batch is flushed, and once stopIfIdle returned. *)
Definition resume (drain : option bool) (rest : list pending) : runner :=
  match drain with Some late => Writing late rest | None => Running rest end.
Definition checked (idle : bool) : runner := if idle then Returned else Blocked.
Definition flushing (drain : option bool) (batch rest : list pending) : runner := Flushing drain batch (bytes batch) rest.

(** The drain's first round sets its deadline. *)
Definition set_deadline (f : finalizer) : finalizer :=
  match deadline f with
  | Some _ => f
  | None => f <| deadline := Some (now f + drainTimeout t) |> <| expiry := true |>
  end.

(** stopIfIdle, one operation at a time. *)
Definition check_step (f : finalizer) (force : bool) (c : check) : finalizer :=
  match c with
  | Load => f <| run := Checking force (Submitted (submits f)) |>
  | Submitted n => f <| run := Checking force (Length n (submitted f =? Z.shiftr n 1)) |>
  | Length n done =>
      let idle := done && (List.length (f_in f) =? 0)%nat in
      if Z.odd n || (negb idle && negb force) then f <| run := checked idle |>
      else f <| run := Checking force (Swap n idle) |>
  | Swap n idle =>
      if submits f =? n then f <| submits := Z.lor n 1 |> <| run := checked idle |>
      else f <| run := Checking force Load |>
  end.

(** A result the statement did not write because its row is held: notWritten. *)
Definition resubmit (f : finalizer) (p : pending) : finalizer :=
  let '(f1, ok) := startSubmit f in
  if ok then f1 <| stages ::= (fun l => l ++ [Waiting p]) |> else submitDone (drop f1 [p_id p]).

Inductive fin_step : finalizer -> finalizer -> Prop :=
| fin_tick f n : now f <= n -> fin_step f (f <| now := n |>)
  (* a submit *)
| fin_start f p f1 : startSubmit f = (f1, true) ->
    fin_step f (f1 <| stages ::= (fun l => l ++ [Acquiring p]) |> <| accepted ::= (fun l => l ++ [p_id p]) |>
                   <| largest ::= Nat.max (p_bytes p) |>)
| fin_refuse f p f1 : startSubmit f = (f1, false) -> fin_step f (f1 <| stages ::= (fun l => l ++ [Refused p]) |>)
| fin_refused f i p : stages f !! i = Some (Refused p) -> fin_step f (at_stage f i Finishing)
| fin_wait f i p : stages f !! i = Some (Waiting p) -> fin_step f (at_stage f i (Acquiring p))
| fin_acquire f i p : stages f !! i = Some (Acquiring p) -> fits f (p_bytes p) = true ->
    fin_step f ((at_stage f i (Handing p)) <| used ::= Nat.add (p_bytes p) |>)
| fin_acquire_done f i p : stages f !! i = Some (Acquiring p) -> (0 < p_bytes p)%nat -> f_done f = true ->
    fin_step f (drop (at_stage f i Finishing) [p_id p])
| fin_hand f i p : stages f !! i = Some (Handing p) -> fin_step f (at_stage f i (Sending (handed f p)))
| fin_send f i p : stages f !! i = Some (Sending p) -> (List.length (f_in f) < capacity t)%nat ->
    fin_step f ((at_stage f i Finishing) <| f_in ::= (fun l => l ++ [p]) |>)
| fin_send_done f i p : stages f !! i = Some (Sending p) -> f_done f = true ->
    fin_step f (drop (at_stage f i Finishing) [p_id p])
| fin_done f i : stages f !! i = Some Finishing -> fin_step f (submitDone (at_stage f i Gone))
  (* run, before the stop *)
| fin_receive f batch p rest : run f = Running batch -> f_in f = p :: rest ->
    fin_step f (f <| f_in := rest |>
                  <| run := if full (batch ++ [p]) then flushing None (batch ++ [p]) [] else Running (batch ++ [p]) |>)
| fin_timer f batch : run f = Running batch -> batch <> [] -> fin_step f (f <| run := flushing None batch [] |>)
| fin_stop f batch : run f = Running batch -> fin_step f (f <| draining := true |> <| run := Taking batch |>)
  (* flush *)
| fin_written f drain p todo size rest : run f = Flushing drain (p :: todo) size rest ->
    fin_step f (f <| run := Flushing drain todo size rest |> <| resolved ::= (fun l => l ++ [p_id p]) |>)
| fin_held f drain p todo size rest : run f = Flushing drain (p :: todo) size rest -> p_committed p = false ->
    fin_step f (resubmit (f <| run := Flushing drain todo size rest |>) p)
| fin_flushed f drain size rest : run f = Flushing drain [] size rest ->
    fin_step f (f <| used ::= (fun u => (u - size)%nat) |> <| run := resume drain rest |>)
  (* the drain *)
| fin_take f batch p rest : run f = Taking batch -> f_in f = p :: rest ->
    fin_step f (f <| f_in := rest |> <| run := Taking (batch ++ [p]) |>)
| fin_taken f batch : run f = Taking batch -> f_in f = [] ->
    let dropped := List.filter (too_late f) batch in
    fin_step f ((drop f (ids dropped)) <| used ::= (fun u => (u - bytes dropped)%nat) |>
                  <| run := Writing (is_late f) (List.filter (fun p => negb (too_late f p)) batch) |>
                  <| forced := forced f || is_late f |>)
| fin_write f late batch a b : run f = Writing late batch -> batch <> [] -> chunk 0 0 batch = (a, b) ->
    fin_step f (f <| run := flushing (Some late) a b |>)
| fin_check f late : run f = Writing late [] ->
    fin_step f ((set_deadline f) <| run := Checking late Load |>)
| fin_checking f force c : run f = Checking force c -> fin_step f (check_step f force c)
| fin_more f p rest : run f = Blocked -> f_in f = p :: rest -> fin_step f (f <| f_in := rest |> <| run := Taking [p] |>)
| fin_left f : run f = Blocked -> f_left f = true -> fin_step f (f <| f_left := false |> <| run := Taking [] |>)
| fin_expiry f d : run f = Blocked -> expiry f = true -> deadline f = Some d -> d <= now f ->
    fin_step f (f <| expiry := false |> <| run := Taking [] |>)
| fin_close f : run f = Returned -> fin_step f (f <| f_done := true |>).

Definition newFinalizer (time : Z) : finalizer :=
  mkFinalizer 0 0 [] false false false 0 None false time [] (Running []) [] [] [] false 0.
Definition reachable_fin (f : finalizer) : Prop := exists time, rtc fin_step (newFinalizer time) f.
End Finalizer.
