(* ===== verification/Evolution.v ===== *)
(** * How jobs evolve

    [wf] is what every reachable database satisfies; [evolve] relates a live
    row to its later self: its identity is fixed, its fence only grows, and a
    row that runs with an unchanged fence runs in the same claim.  [advances]
    says a write keeps [wf] and evolves every row that was there, so that
    nothing returns to the live table under a sequence number it once had.
    Each statement on the live table advances the database, and with
    [respects_auto] so does every operation made of them. *)

From Stdlib Require Import List ZArith Lia Bool String.
From stdpp Require Import base tactics list gmap sets.
From S2P Require Import Prelude Sql Text Json Types Store Logic JobId Codec Insert Finalize Claim Control Leases.
From S2P Require Import Workflow Cluster Topics Messaging.
Import ListNotations.
Local Open Scope Z_scope.

(** ** Well-formed databases *)

Definition history_ok (h : HistoryRow) : bool := Terminal (j_State (h_job h)) && tags_ok (j_Tags (h_job h)).

Record wf (d : DB) : Prop := {
  wf_jobs : jobs_ok (db_jobs d) = true;
  wf_seq : Forall (fun j => j_seq j <= db_seq d) (db_jobs d);
  wf_history : Forall (fun h => history_ok h = true) (db_history d) }.

Lemma wf_empty : wf empty_db.
Proof. split; [reflexivity|constructor|constructor]. Qed.

(** What the constraints say of a table's rows. *)
Lemma jobs_ok_spec t :
  jobs_ok t = true <->
  (forall j, In j t -> row_ok j = true) /\ List.NoDup (List.map j_ID t) /\ List.NoDup (List.map j_seq t)
  /\ nodupb same_unique t = true /\ nodupb same_running_lane t = true.
Proof.
  unfold jobs_ok. rewrite !andb_true_iff, forallb_forall, !(nodupb_NoDup Z.eqb) by apply Z.eqb_eq. tauto.
Qed.

Lemma nodupb_del {A} (eqb : A -> A -> bool) p t : nodupb eqb t = true -> nodupb eqb (del p t) = true.
Proof.
  induction t as [|x t IH]; simpl; [done|]. rewrite andb_true_iff, negb_true_iff. intros [H1 H2].
  destruct (p x); simpl; [auto|]. rewrite andb_true_iff, negb_true_iff. split; [|auto].
  apply not_true_iff_false. intros (y & Hy & E)%existsb_exists. apply In_del in Hy as [Hy _].
  apply not_true_iff_false in H1. apply H1, existsb_exists. eauto.
Qed.

(** A DELETE never breaks a constraint. *)
Lemma jobs_ok_del p t : jobs_ok t = true -> jobs_ok (del p t) = true.
Proof.
  rewrite !jobs_ok_spec. intros (H1 & H2 & H3 & H4 & H5).
  split_and!; auto using NoDup_map_del, nodupb_del. intros j [Hj _]%In_del. auto.
Qed.

Lemma wf_unique_id d j k : wf d -> In j (db_jobs d) -> In k (db_jobs d) -> j_ID j = j_ID k -> j = k.
Proof.
  intros [(_ & H & _)%jobs_ok_spec _ _] Hj Hk E. eapply NoDup_map_inj; eauto.
Qed.

Lemma wf_unique_seq d j k : wf d -> In j (db_jobs d) -> In k (db_jobs d) -> j_seq j = j_seq k -> j = k.
Proof.
  intros [(_ & _ & H & _)%jobs_ok_spec _ _] Hj Hk E. eapply NoDup_map_inj; eauto.
Qed.

(** ** Rows *)

Record evolve (j j' : JobRow) : Prop := {
  ev_seq : j_seq j' = j_seq j;
  ev_ID : j_ID j' = j_ID j;
  ev_Kind : j_Kind j' = j_Kind j;
  ev_Queue : j_Queue j' = j_Queue j;
  ev_UniqueKey : j_UniqueKey j' = j_UniqueKey j;
  ev_OrderingKey : j_OrderingKey j' = j_OrderingKey j;
  ev_PartitionKey : j_PartitionKey j' = j_PartitionKey j;
  ev_BatchID : j_BatchID j' = j_BatchID j;
  ev_CreatedAt : j_CreatedAt j' = j_CreatedAt j;
  ev_Fence : j_Fence j <= j_Fence j';
  ev_claim : is_running j' = true -> j_Fence j' = j_Fence j ->
    is_running j = true /\ j_AttemptedBy j' = j_AttemptedBy j /\ j_AttemptedAt j' = j_AttemptedAt j
    /\ j_Attempt j' = j_Attempt j }.

#[export] Instance evolve_preorder : PreOrder evolve.
Proof.
  split; [intros j; split; (done || lia || auto)|].
  intros a b c [] []. split; try congruence; try lia.
  intros Hr Hf. assert (j_Fence c = j_Fence b) as Hb by lia. assert (j_Fence b = j_Fence a) as Ha by lia.
  destruct (ev_claim1 Hr Hb) as (? & ? & ? & ?). destruct (ev_claim0 H Ha) as (? & ? & ? & ?). split_and!; congruence.
Qed.

(** An update that fixes the identity and the claim, one that leaves the job
    not running, and one that raises the fence. *)
Ltac evolve_tac := split; simpl; try done; try lia; try (unfold is_running; simpl; repeat case_match; intros; (done || lia || auto)).

(** ** Databases *)

Record evolution (d d' : DB) : Prop := {
  ev_db_seq : db_seq d <= db_seq d';
  ev_rows : forall j', In j' (db_jobs d') -> j_seq j' <= db_seq d -> exists j, In j (db_jobs d) /\ evolve j j' }.

#[export] Instance evolution_preorder : PreOrder evolution.
Proof.
  split; [intros d; split; [lia|]; intros j' Hj _; exists j'; split; [done|reflexivity]|].
  intros a b c [H1 H2] [H3 H4]. split; [lia|]. intros j'' Hj Hs.
  destruct (H4 j'' Hj ltac:(lia)) as (j' & Hj' & E').
  destruct (H2 j' Hj') as (j & Hin & E); [rewrite <- (ev_seq _ _ E'); lia|].
  exists j. split; [done|]. now transitivity j'.
Qed.

Definition advances (d d' : DB) : Prop := wf d -> wf d' /\ evolution d d'.

#[export] Instance advances_preorder : PreOrder advances.
Proof.
  split; [intros d Hw; split; [done|reflexivity]|].
  intros a b c H1 H2 Hw. destruct (H1 Hw) as [Hb E1]. destruct (H2 Hb) as [Hc E2].
  split; [done|]. now transitivity b.
Qed.

#[export] Instance advances_jobs : JobsRelation advances.
Proof.
  split; [typeclasses eauto|]. intros d d' (E1 & E2 & E3) [H1 H2 H3]. split.
  - split; rewrite ?E1, ?E2, ?E3; done.
  - split; [lia|]. rewrite E1. intros j' Hj _. exists j'. split; [done|reflexivity].
Qed.

(** ** Statements *)

Lemma advances_update p f : (forall j, p j = true -> evolve j (f j)) -> respects advances (exec_jobs (upd p f)).
Proof.
  intros Hf x d u d' (Hok & ->)%exec_jobs_Ok [_ Hs Hh].
  assert (forall j', In j' (upd p f (db_jobs d)) -> exists j, In j (db_jobs d) /\ evolve j j') as Hev.
  { intros j' (y & Hy & ->)%In_upd. exists y. split; [done|]. destruct (p y) eqn:E; [auto|reflexivity]. }
  split.
  - split; simpl; [done| |done]. apply List.Forall_forall. intros j' (j & Hj & E)%Hev.
    rewrite (ev_seq _ _ E). rewrite List.Forall_forall in Hs. auto.
  - split; simpl; [lia|]. intros j' Hj _. auto.
Qed.

Lemma advances_delete p : respects advances (exec_jobs (del p)).
Proof.
  intros x d u d' (Hok & ->)%exec_jobs_Ok [_ Hs Hh]. split.
  - split; simpl; auto with sql.
  - split; simpl; [lia|]. intros j' [Hj _]%In_del _. exists j'. split; [done|reflexivity].
Qed.

Lemma advances_insert_row row : (forall seq, j_seq (row seq) = seq) -> respects advances (insert_row row).
Proof.
  intros Hseq x d r d' (-> & Hok & ->)%insert_row_Ok [_ Hs Hh]. split.
  - split; simpl; [done| |done]. apply List.Forall_app. split.
    + eapply List.Forall_impl; [|exact Hs]. simpl. lia.
    + constructor; [rewrite Hseq; lia|constructor].
  - split; simpl; [lia|]. intros j' [Hj|[<-|[]]]%in_app_iff Hle.
    + exists j'. split; [done|reflexivity].
    + rewrite Hseq in Hle. lia.
Qed.

Lemma advances_modify_same f : (forall d, same_jobs d (f d)) -> respects advances (modify f).
Proof. apply respects_modify_same. typeclasses eauto. Qed.

(** A history row removed. *)
Lemma advances_history_del p : respects advances (modify (fun d => d <| db_history ::= del p |>)).
Proof.
  apply respects_modify. intros d [H1 H2 H3]. split; [split; simpl; auto with sql|].
  split; simpl; [lia|]. intros j' Hj _. exists j'. split; [done|reflexivity].
Qed.

Lemma advances_same {A} (m : W A) : respects same_jobs m -> respects advances m.
Proof. apply respects_same. typeclasses eauto. Qed.

#[export] Hint Resolve advances_delete advances_history_del : respects.
Ltac advance :=
  repeat first
    [ respects_step
    | solve [auto with respects nocore]
    | solve [apply advances_modify_same; intros; split; simpl; auto]
    | solve [apply advances_same; auto with respects nocore]
    | apply advances_update; intros; solve [evolve_tac]
    | apply advances_insert_row; intros; reflexivity ].

(** ** Operations *)

Lemma archive_advances f : respects advances (archive f).
Proof.
  unfold archive. intros x d a d' E [H1 H2 H3].
  destruct (one _ _) as [r|] eqn:Hr; [|injection E as <- <-; split; [done|reflexivity]].
  destruct (_ && _) eqn:Hok; [|done]. injection E as <- <-. split.
  - split; simpl; auto. apply List.Forall_app. split; [done|]. constructor; [|constructor]. exact Hok.
  - split; simpl; [lia|]. intros j' Hj _. exists j'. split; [done|reflexivity].
Qed.
#[export] Hint Resolve archive_advances : respects.

Lemma finish_advances f : respects advances (finish f).
Proof. unfold finish. advance. Qed.
#[export] Hint Resolve finish_advances : respects.

Lemma insertJob_advances j : respects advances (insertJob j).
Proof. unfold insertJob. advance. Qed.
#[export] Hint Resolve insertJob_advances : respects.

Lemma insertCallback_advances s b n : respects advances (insertCallback s b n).
Proof. unfold insertCallback. advance. Qed.
#[export] Hint Resolve insertCallback_advances : respects.

Lemma countBatch_advances id n k : respects advances (countBatch id n k).
Proof. unfold countBatch. advance. Qed.
#[export] Hint Resolve countBatch_advances : respects.

Lemma insertOne_advances c j : respects advances (insertOne c j).
Proof. unfold insertOne, finishedDuplicate. advance. Qed.
#[export] Hint Resolve insertOne_advances : respects.

Lemma recordResult_advances f : respects advances (recordResult f).
Proof. unfold recordResult. advance. Qed.
Lemma cancelDependent_advances r : respects advances (cancelDependent r).
Proof. unfold cancelDependent. advance. Qed.
Lemma promoteIfReady_advances id : respects advances (promoteIfReady id).
Proof. unfold promoteIfReady. advance. Qed.
Lemma liveRow_advances id : respects advances (liveRow id).
Proof. unfold liveRow. advance. Qed.
#[export] Hint Resolve recordResult_advances cancelDependent_advances promoteIfReady_advances liveRow_advances : respects.

Lemma visit_advances c dep : respects advances (visit c dep).
Proof. unfold visit. advance. Qed.
#[export] Hint Resolve visit_advances : respects.
Lemma visit_all_advances deps : forall c, respects advances (visit_all c deps).
Proof. induction deps; intros; simpl; advance. Qed.
#[export] Hint Resolve visit_all_advances : respects.
Lemma walk_advances fuel : forall c, respects advances (walk fuel c).
Proof. induction fuel; intros; simpl; advance. Qed.
Lemma promote_all_advances deps : forall a b, respects advances (promote_all a b deps).
Proof. induction deps; intros; simpl; advance. Qed.
#[export] Hint Resolve walk_advances promote_all_advances : respects.
Lemma drop_edges_advances f : respects advances (drop_edges f).
Proof. unfold drop_edges. advance. Qed.
#[export] Hint Resolve drop_edges_advances : respects.
Lemma tail_advances done : respects advances (tail done).
Proof. unfold tail. advance. Qed.
#[export] Hint Resolve tail_advances : respects.
Lemma tailCascaded_advances done : respects advances (tailCascaded done).
Proof. unfold tailCascaded. advance. Qed.
Lemma releaseLease_advances id : respects advances (releaseLease id).
Proof. unfold releaseLease. advance. Qed.
Lemma owns_advances j f : respects advances (owns j f).
Proof. unfold owns, leaseOwns. advance. Qed.
#[export] Hint Resolve tailCascaded_advances releaseLease_advances owns_advances : respects.

(** A result's state never is running, so its update ends the claim. *)
Lemma release_row_evolves r errs logs now later j :
  finalize_state (f_State (re_f r)) = true -> evolve j (release_row r errs logs now later j).
Proof. intros H. unfold release_row. split; simpl; try done; try lia. unfold is_running. simpl. now destruct (f_State (re_f r)). Qed.

Lemma applyResult_advances keep r :
  finalize_state (f_State (re_f r)) = true -> respects advances (applyResult keep r).
Proof.
  intros H. unfold applyResult. advance. apply advances_update. intros k _. now apply release_row_evolves.
Qed.

Lemma encodeResults_state jobs rs :
  encodeResults jobs = Ok rs -> forall r, In r rs -> finalize_state (f_State (re_f r)) = true.
Proof.
  revert rs. induction jobs as [|f jobs IH]; simpl; intros rs.
  - now intros [= <-].
  - destruct (encodeResult f) as [r|] eqn:E; [|done]. destruct (encodeResults jobs) as [rs'|]; [|done].
    intros [= <-] r' [<-|Hr]; [|eauto]. unfold encodeResult, CheckFinalize in E.
    destruct (finalize_state (f_State f)) eqn:Ef; [|done]. simpl in E. repeat case_match; now simplify_eq.
Qed.

Lemma finalizeAll_advances params rs :
  (forall r, In r rs -> finalize_state (f_State (re_f r)) = true) -> respects advances (finalizeAll params rs).
Proof.
  intros H. unfold finalizeAll. apply respects_bind; [typeclasses eauto| |intros outs; advance].
  apply respects_mapM_In; [typeclasses eauto|]. intros r Hr. apply applyResult_advances. auto.
Qed.

Lemma claim_advances q c n p : respects advances (claim q c n p).
Proof. unfold claim. advance. Qed.
#[export] Hint Resolve claim_advances : respects.
Lemma claimLimited_advances p : respects advances (claimLimited p).
Proof. unfold claimLimited. advance. Qed.
#[export] Hint Resolve claimLimited_advances : respects.

Lemma cancelWaiting_advances r a : respects advances (cancelWaiting r a).
Proof. unfold cancelWaiting. advance. Qed.
#[export] Hint Resolve cancelWaiting_advances : respects.
Lemma JobCancel_advances id : respects advances (JobCancel_w id).
Proof. unfold JobCancel_w. advance. Qed.
Lemma JobDelete_advances id : respects advances (JobDelete_w id).
Proof. unfold JobDelete_w. advance. Qed.
Lemma retryFinished_advances p h : respects advances (retryFinished p h).
Proof. unfold retryFinished. advance. Qed.
#[export] Hint Resolve retryFinished_advances : respects.
Lemma JobRetry_advances p : respects advances (JobRetry_w p).
Proof. unfold JobRetry_w. advance. Qed.
Lemma JobRetryOrderingKey_advances p : respects advances (JobRetryOrderingKey_w p).
Proof. unfold JobRetryOrderingKey_w. advance. Qed.
Lemma discardExpired_advances now r : respects advances (discardExpired now r).
Proof. unfold discardExpired. advance. Qed.
#[export] Hint Resolve discardExpired_advances : respects.
Lemma JobDiscardExpired_advances n : respects advances (JobDiscardExpired_w n).
Proof. unfold JobDiscardExpired_w. advance. Qed.
Lemma JobRecordProgress_advances p c : respects advances (JobRecordProgress_w p c).
Proof. unfold JobRecordProgress_w. advance. Qed.

Lemma claimableByID_advances p : respects advances (claimableByID p).
Proof. unfold claimableByID. advance. Qed.
#[export] Hint Resolve claimableByID_advances : respects.
Lemma JobClaimByID_advances p : respects advances (JobClaimByID_w p).
Proof. unfold JobClaimByID_w. advance. Qed.
Lemma JobLeaseRenew_advances p : respects advances (JobLeaseRenew_w p).
Proof. unfold JobLeaseRenew_w. advance. Qed.
Lemma expireOne_advances now j : respects advances (expireOne now j).
Proof. unfold expireOne. advance. Qed.
#[export] Hint Resolve expireOne_advances : respects.
Lemma JobExpireLeases_advances p : respects advances (JobExpireLeases_w p).
Proof. unfold JobExpireLeases_w. advance. Qed.

Lemma insertBatch_advances id name n b e s r : respects advances (insertBatch id name n b e s r).
Proof.
  apply advances_same. intros x d a d'. unfold insertBatch. destruct (ex _ _); [done|]. now intros [= <- <-].
Qed.
#[export] Hint Resolve insertBatch_advances : respects.
Lemma mint_advances n : respects advances (mint n).
Proof. induction n; simpl; advance. Qed.
#[export] Hint Resolve mint_advances : respects.
Lemma WorkflowInsert_advances p js b : respects advances (WorkflowInsert_w p js b).
Proof. unfold WorkflowInsert_w. advance. Qed.
Lemma cancelExhausted_advances id : respects advances (cancelExhausted id).
Proof. unfold cancelExhausted. advance. Qed.
#[export] Hint Resolve cancelExhausted_advances : respects.
Lemma promote_each_advances ids : respects advances (promote_each ids).
Proof. induction ids; simpl; advance. Qed.
Lemma cancel_each_advances ids : respects advances (cancel_each ids).
Proof. induction ids; simpl; advance. Qed.
#[export] Hint Resolve promote_each_advances cancel_each_advances : respects.

Lemma PeriodicInsert_advances name slot j : respects advances (PeriodicInsert_w name slot j).
Proof. unfold PeriodicInsert_w. advance. Qed.
Lemma insert_registration_advances c r : respects advances (insert_registration c r).
Proof.
  apply advances_same. intros x d a d'. unfold insert_registration. destruct (_ || _); [done|]. now intros [= <- <-].
Qed.
#[export] Hint Resolve insert_registration_advances : respects.
Lemma PeriodicRegister_advances c rs : respects advances (PeriodicRegister_w c rs).
Proof. unfold PeriodicRegister_w. advance. Qed.
Lemma prune_batch_advances g keep : respects advances (prune_batch g keep).
Proof. unfold prune_batch. advance. Qed.

Lemma MessagePublish_advances p n payload : respects advances (MessagePublish_w p n payload).
Proof. unfold MessagePublish_w. advance. Qed.
Lemma insert_event_same t k p h id : respects same_jobs (insert_event t k p h id).
Proof. now intros x d a d' [= <- <-]. Qed.
#[export] Hint Resolve insert_event_same : respects.
Lemma StreamAppend_advances p payload : respects advances (StreamAppend_w p payload).
Proof. unfold StreamAppend_w. advance. Qed.
Lemma pump_event_advances k ev : respects advances (pump_event k ev).
Proof. unfold pump_event. advance. Qed.
#[export] Hint Resolve pump_event_advances : respects.
Lemma StreamPump_advances name n : respects advances (StreamPump_w name n).
Proof. unfold StreamPump_w. advance. Qed.
