(* ===== verification/Engine.v ===== *)
(** * The engine as a state machine

    [step] is one call of an executor operation that writes, with any
    parameters, at any time and with any random bytes; [reachable] is what any
    sequence of them leaves of an empty database.  The theorems are the
    engine's safety: what a fence and a row's number promise across any sequence
    of writes. *)

From Stdlib Require Import List ZArith Lia Bool String.
From stdpp Require Import base tactics list relations.
From S2P Require Import Prelude Sql Text Json Types Store Logic JobId Codec Insert Finalize Claim Control Leases.
From S2P Require Import Workflow Cluster Topics Messaging Evolution.
Import ListNotations.
Local Open Scope Z_scope.

Inductive step : DB -> DB -> Prop :=
| step_JobInsertMany ps o x d : step d (snd (JobInsertMany ps o x d))
| step_JobFinalizeMany p busy x d : step d (snd (JobFinalizeMany p busy x d))
| step_JobClaim p x d : step d (snd (JobClaim p x d))
| step_JobAge q after x d : step d (snd (JobAge q after x d))
| step_JobCancel id x d : step d (snd (JobCancel id x d))
| step_JobDelete id x d : step d (snd (JobDelete id x d))
| step_JobRetry p x d : step d (snd (JobRetry p x d))
| step_JobRetryOrderingKey p x d : step d (snd (JobRetryOrderingKey p x d))
| step_JobDiscardExpired n x d : step d (snd (JobDiscardExpired n x d))
| step_JobRecordProgress p busy x d : step d (snd (JobRecordProgress p busy x d))
| step_JobClaimByID p x d : step d (snd (JobClaimByID p x d))
| step_JobLeaseRenew p x d : step d (snd (JobLeaseRenew p x d))
| step_JobExpireLeases p busy x d : step d (snd (JobExpireLeases p busy x d))
| step_BatchInsert n s f c m x d : step d (snd (BatchInsert n s f c m x d))
| step_BatchSettle named results n x d : step d (snd (BatchSettle named results n x d))
| step_WorkflowInsert p x d : step d (snd (WorkflowInsert p x d))
| step_WorkflowPromoteReady ids after n seen x d : step d (snd (WorkflowPromoteReady ids after n seen x d))
| step_ClientRegister p x d : step d (snd (ClientRegister p x d))
| step_ClientRenew c ttl x d : step d (snd (ClientRenew c ttl x d))
| step_ClientDelete c x d : step d (snd (ClientDelete c x d))
| step_ClientPruneExpired x d : step d (snd (ClientPruneExpired x d))
| step_LeaderAttempt c ttl x d : step d (snd (LeaderAttempt c ttl x d))
| step_LeaderRequestResign c x d : step d (snd (LeaderRequestResign c x d))
| step_LeaderResign c x d : step d (snd (LeaderResign c x d))
| step_QueueEnsure names x d : step d (snd (QueueEnsure names x d))
| step_QueuePause name x d : step d (snd (QueuePause name x d))
| step_QueueResume name x d : step d (snd (QueueResume name x d))
| step_QueueSetLimits l x d : step d (snd (QueueSetLimits l x d))
| step_PeriodicInsert p x d : step d (snd (PeriodicInsert p x d))
| step_PeriodicRegister c rs x d : step d (snd (PeriodicRegister c rs x d))
| step_HistoryMaintain p inTx xs busy d : step d (snd (HistoryMaintain p inTx xs busy d))
| step_SubscriptionUpsert ss x d : step d (snd (SubscriptionUpsert ss x d))
| step_MessagePublish p x d : step d (snd (MessagePublish p x d))
| step_StreamAppend p x d : step d (snd (StreamAppend p x d))
| step_StreamConsumerUpsert cs x d : step d (snd (StreamConsumerUpsert cs x d))
| step_StreamConsumerSeek name p x d : step d (snd (StreamConsumerSeek name p x d))
| step_StreamPump name n x d : step d (snd (StreamPump name n x d)).

Definition steps : DB -> DB -> Prop := rtc step.
Definition reachable (d : DB) : Prop := steps empty_db d.

(** ** Every step advances *)

Lemma advances_write {A} (m : W A) x d : respects advances m -> advances d (snd (write m x d)).
Proof. intros H. destruct (write m x d) as [r d'] eqn:E. eapply respects_write; eauto. typeclasses eauto. Qed.

Lemma prune_group_advances fuel g keep xs busy : forall i n d, advances d (snd (prune_group fuel g keep xs busy i n d)).
Proof.
  induction fuel as [|fuel IH]; intros i n d; simpl; [reflexivity|].
  destruct (busy i); [reflexivity|].
  pose proof (advances_write (prune_batch g keep) (xs i) d (prune_batch_advances g keep)) as H.
  destruct (write _ _ _) as [[k|e] d'] eqn:E; [|done]. destruct (k <? retentionBatch); [done|].
  transitivity d'; [done|apply IH].
Qed.

Lemma prune_groups_advances gs p xs busy : forall i res d, advances d (snd (prune_groups gs p xs busy i res d)).
Proof.
  induction gs as [|g gs IH]; intros i res d; cbn [prune_groups]; [reflexivity|]. case_match; [apply IH|].
  pose proof (prune_group_advances (prune_fuel d) g (group_keep p g) xs busy i 0 d) as H'.
  destruct (prune_group _ _ _ _ _ _ _ _) as [[[out i'] n] d']. transitivity d'; [done|apply IH].
Qed.

(** The database an operation that may stop before its write leaves. *)
Ltac open_step :=
  repeat first [reflexivity | match goal with |- advances ?d (snd (match ?e with _ => _ end)) => destruct e eqn:? end];
  apply advances_write.
Ltac step_tac := open_step; advance.

Lemma step_advances d d' : step d d' -> advances d d'.
Proof.
  destruct 1.
  - unfold JobInsertMany, insertJobs. step_tac.
  - unfold JobFinalizeMany. destruct (fp_Jobs p) as [|f0 fs]; [reflexivity|].
    destruct (encodeResults _) as [rs|] eqn:E; [|reflexivity].
    open_step. apply finalizeAll_advances. eapply encodeResults_state; eauto.
  - unfold JobClaim. step_tac.
  - unfold JobAge. step_tac.
  - apply advances_write, JobCancel_advances.
  - apply advances_write, JobDelete_advances.
  - apply advances_write, JobRetry_advances.
  - apply advances_write, JobRetryOrderingKey_advances.
  - apply advances_write, JobDiscardExpired_advances.
  - unfold JobRecordProgress. open_step; apply JobRecordProgress_advances.
  - unfold JobClaimByID. open_step; apply JobClaimByID_advances.
  - apply advances_write, JobLeaseRenew_advances.
  - unfold JobExpireLeases. open_step; apply JobExpireLeases_advances.
  - unfold BatchInsert. step_tac.
  - unfold BatchSettle. step_tac.
  - unfold WorkflowInsert. open_step; apply WorkflowInsert_advances.
  - unfold WorkflowPromoteReady. step_tac.
  - unfold ClientRegister. step_tac.
  - unfold ClientRenew, ClientRenew_w. step_tac.
  - unfold ClientDelete, ClientDelete_w. step_tac.
  - unfold ClientPruneExpired, ClientPruneExpired_w. step_tac.
  - unfold LeaderAttempt, LeaderAttempt_w. step_tac.
  - unfold LeaderRequestResign, LeaderRequestResign_w. step_tac.
  - unfold LeaderResign, LeaderResign_w. step_tac.
  - unfold QueueEnsure. step_tac.
  - unfold QueuePause, setPaused_w. step_tac.
  - unfold QueueResume, setPaused_w. step_tac.
  - unfold QueueSetLimits, QueueSetLimits_w. step_tac.
  - unfold PeriodicInsert. open_step; apply PeriodicInsert_advances.
  - apply advances_write, PeriodicRegister_advances.
  - unfold HistoryMaintain. case_match; [reflexivity|]. apply prune_groups_advances.
  - unfold SubscriptionUpsert. step_tac.
  - unfold MessagePublish. open_step; apply MessagePublish_advances.
  - unfold StreamAppend. open_step; apply StreamAppend_advances.
  - unfold StreamConsumerUpsert, upsertConsumer. step_tac.
  - unfold StreamConsumerSeek, StreamConsumerSeek_w. step_tac.
  - apply advances_write, StreamPump_advances.
Qed.

Lemma steps_advances d d' : steps d d' -> advances d d'.
Proof. induction 1; [reflexivity|]. etransitivity; [eapply step_advances; eassumption|done]. Qed.

Lemma reachable_wf d : reachable d -> wf d.
Proof. intros H. now destruct (steps_advances _ _ H wf_empty). Qed.

(** ** Safety *)

Lemma nodupb_inj {A} (eqb : A -> A -> bool) (t : list A) x y :
  (forall a b, eqb a b = eqb b a) -> nodupb eqb t = true -> In x t -> In y t -> eqb x y = true -> x = y.
Proof.
  intros Hsym. induction t as [|a t IH]; simpl; [done|]. rewrite andb_true_iff, negb_true_iff. intros [H1 H2].
  assert (forall b, In b t -> eqb a b = false) as Hno.
  { intros b Hb. apply not_true_iff_false. intros E. apply not_true_iff_false in H1. apply H1, existsb_exists. eauto. }
  intros [->|Hx] [->|Hy] E; auto.
  - now rewrite Hno in E.
  - now rewrite Hsym, Hno in E.
Qed.

Lemma null_eq_sym {A} (eqb : A -> A -> bool) a b : (forall x y, eqb x y = eqb y x) -> null_eq eqb a b = null_eq eqb b a.
Proof. intros H. destruct a, b; simpl; auto. Qed.
Lemma same_lane_sym a b : same_lane a b = same_lane b a.
Proof. unfold same_lane. rewrite String.eqb_sym, (null_eq_sym String.eqb) by apply String.eqb_sym. done. Qed.
Lemma same_unique_sym a b : same_unique a b = same_unique b a.
Proof. unfold same_unique. rewrite String.eqb_sym, (null_eq_sym String.eqb) by apply String.eqb_sym. done. Qed.
Lemma same_running_lane_sym a b : same_running_lane a b = same_running_lane b a.
Proof. unfold same_running_lane. rewrite same_lane_sym. destruct (is_running a), (is_running b); done. Qed.

Lemma nodupb_intro {A} (eqb : A -> A -> bool) (t : list A) :
  List.NoDup t -> (forall x y, In x t -> In y t -> eqb x y = true -> x = y) -> nodupb eqb t = true.
Proof.
  induction t as [|a t IH]; simpl; intros Hn H; [done|]. inversion Hn as [|? ? Ha Ht]; subst.
  rewrite andb_true_iff, negb_true_iff. split; [|apply IH; auto].
  apply not_true_iff_false. intros (y & Hy & E)%existsb_exists. apply Ha. rewrite (H a y); auto.
Qed.

Lemma nodupb_map {A} (eqb : A -> A -> bool) (g : A -> A) (t : list A) :
  (forall a b, eqb (g a) (g b) = eqb a b) -> nodupb eqb (List.map g t) = nodupb eqb t.
Proof.
  intros H. induction t as [|a t IH]; simpl; [done|]. rewrite IH. do 2 f_equal.
  clear IH. induction t as [|b t IH]; simpl; [done|]. now rewrite H, IH.
Qed.

(** An update of rows that keeps their identity, each row's checks, and at
    most one running job per lane, keeps the table's constraints. *)
Lemma jobs_ok_update t g :
  jobs_ok t = true -> (forall j, evolve j (g j)) -> (forall j, In j t -> row_ok (g j) = true) ->
  (forall a b, In a t -> In b t -> same_running_lane (g a) (g b) = true -> a = b) -> jobs_ok (List.map g t) = true.
Proof.
  rewrite !jobs_ok_spec. intros (Hrow & Hid & Hseq & Hu & _) Hev Hok Hlane.
  assert (List.map j_ID (List.map g t) = List.map j_ID t) as Eid.
  { rewrite map_map. apply map_ext. intros j. apply (ev_ID _ _ (Hev j)). }
  assert (List.map j_seq (List.map g t) = List.map j_seq t) as Eseq.
  { rewrite map_map. apply map_ext. intros j. apply (ev_seq _ _ (Hev j)). }
  rewrite Eid, Eseq. split_and!; try done.
  - intros j' (j & <- & Hj)%in_map_iff. auto.
  - rewrite nodupb_map; [done|]. intros a b. unfold same_unique.
    now rewrite (ev_Kind _ _ (Hev a)), (ev_Kind _ _ (Hev b)), (ev_UniqueKey _ _ (Hev a)), (ev_UniqueKey _ _ (Hev b)).
  - apply nodupb_intro; [apply (NoDup_map_inv j_ID); now rewrite Eid|].
    intros x y (a & <- & Ha)%in_map_iff (b & <- & Hb)%in_map_iff E. f_equal. now apply Hlane.
Qed.

(** An update that starts no job keeps them. *)
Lemma jobs_ok_calm t p f :
  jobs_ok t = true -> (forall j, p j = true -> evolve j (f j)) ->
  (forall j, In j t -> p j = true -> row_ok (f j) = true /\ (is_running (f j) = true -> is_running j = true)) ->
  jobs_ok (upd p f t) = true.
Proof.
  intros Hok Hev Hf. unfold upd. set (g j := if p j then f j else j).
  assert (forall j, evolve j (g j)) as Hg by (intros j; unfold g; destruct (p j) eqn:E; [auto|reflexivity]).
  assert (forall j, In j t -> is_running (g j) = true -> is_running j = true) as Hr.
  { intros j Hj. unfold g. destruct (p j) eqn:E; [|done]. now apply Hf. }
  apply jobs_ok_update; auto.
  - intros j Hj. unfold g. destruct (p j) eqn:E; [now apply Hf|]. now apply jobs_ok_spec in Hok as (H & _); apply H.
  - intros a b Ha Hb. unfold same_running_lane. rewrite !andb_true_iff. intros [[Ra Rb] L].
    assert (same_lane a b = true) as L'.
    { unfold same_lane in *. now rewrite (ev_Queue _ _ (Hg a)), (ev_Queue _ _ (Hg b)), (ev_OrderingKey _ _ (Hg a)), (ev_OrderingKey _ _ (Hg b)) in L. }
    apply jobs_ok_spec in Hok as (_ & _ & _ & _ & Hl). apply (nodupb_inj same_running_lane t); auto using same_running_lane_sym.
    unfold same_running_lane. now rewrite (Hr a), (Hr b), L'.
Qed.

(** Between two points of a run a live row evolves. *)
Lemma steps_evolve d d' j j' :
  reachable d -> steps d d' -> In j (db_jobs d) -> In j' (db_jobs d') -> j_seq j' = j_seq j -> evolve j j'.
Proof.
  intros Hr Hs Hj Hj' E. pose proof (reachable_wf d Hr) as Hw.
  destruct (steps_advances _ _ Hs Hw) as [_ [_ Hev]]. destruct (Hev j' Hj') as (k & Hk & Ek).
  { rewrite E. pose proof (wf_seq _ Hw) as Hq. rewrite List.Forall_forall in Hq. auto. }
  assert (k = j) as ->; [|done]. eapply wf_unique_seq; eauto. rewrite <- (ev_seq _ _ Ek). done.
Qed.

(** C1: A fence identifies a claim.  Between any two points of a run, a live
    row keeps its identity and its fence never decreases; and if it runs at the
    later point, either its fence has grown, or it already ran at the earlier
    point in the very same claim: same owner, start and attempt. *)
Theorem fence_identifies_claim d d' j j' :
  reachable d -> steps d d' -> In j (db_jobs d) -> In j' (db_jobs d') -> j_seq j' = j_seq j ->
  j_ID j' = j_ID j /\ j_Queue j' = j_Queue j /\ j_OrderingKey j' = j_OrderingKey j /\ j_Fence j <= j_Fence j'
  /\ (is_running j' = true -> j_Fence j < j_Fence j' \/
        (j_Fence j' = j_Fence j /\ is_running j = true /\ j_AttemptedBy j' = j_AttemptedBy j
         /\ j_AttemptedAt j' = j_AttemptedAt j /\ j_Attempt j' = j_Attempt j)).
Proof.
  intros Hr Hs Hj Hj' E. pose proof (steps_evolve d d' j j' Hr Hs Hj Hj' E) as [].
  split_and!; try done. intros Hrun. destruct (Z.eq_dec (j_Fence j') (j_Fence j)); [right|left; lia].
  destruct (ev_claim Hrun e) as (? & ? & ? & ?). done.
Qed.

(** C2: A row never comes back: a job live at the later point of a run with
    a sequence number the database had already given out was live at the
    earlier point. *)
Theorem no_resurrection d d' j' :
  reachable d -> steps d d' -> In j' (db_jobs d') -> j_seq j' <= db_seq d ->
  exists j, In j (db_jobs d) /\ j_seq j = j_seq j' /\ j_ID j = j_ID j'.
Proof.
  intros Hr%reachable_wf Hs Hj Hle. destruct (steps_advances _ _ Hs Hr) as [_ [_ Hev]].
  destruct (Hev j' Hj Hle) as (j & Hin & []). exists j. auto.
Qed.
