(* ===== verification/Leader.v ===== *)
(** * The leader's loop (leader.go)

    A client competes for the leader lease and renews it; a term's loops run
    while the lease is known to be held.  [leaseFence] and the straight-line
    parts of leaderLoop are functions of the local clock; [sys_step] runs the
    loops of any number of clients over one engine, a statement at a time, with
    answers that come late or are lost.  Times are nanoseconds.  Every client has
    a monotonic clock of its own and the engine another, read in microseconds;
    how they run against each other is a parameter of the steps. *)

From Stdlib Require Import List ZArith Lia Bool String.
From stdpp Require Import base tactics list functions relations.
From S2P Require Import Prelude Sql Text Json Types Store Cluster Engine.
Import ListNotations.
Local Open Scope Z_scope.
Local Open Scope list_scope.

(** ** The fence of a term's lease *)

(** leaseFence.renew: a lease that has lapsed is not extended; [None] is the zero time. *)
Definition fence_renew (now : Z) (held : option Z) (until : Z) : bool * option Z :=
  match held with
  | Some u => if u <=? now then (false, held) else (true, Some until)
  | None => (true, Some until)
  end.
Definition fence_left (now until : Z) : Z := until - now.
Definition fence_expired (now until : Z) : bool := fence_left now until <=? 0.

(** A term: its lease's end, and whether its loops have been canceled. *)
Record leaderTerm : Type := mkTerm { lt_until : Z; lt_canceled : bool }.
Definition startTerm (now until : Z) : leaderTerm := mkTerm (match snd (fence_renew now None until) with Some u => u | None => until end) false.

(** leaseFence.fence: its timer cancels the loops once the lease may have expired, and waits on if not. *)
Definition fence_fires (now : Z) (t : leaderTerm) : leaderTerm := if fence_expired now (lt_until t) then mkTerm (lt_until t) true else t.

(** ** The loop's state *)

Inductive leader_event : Type := EventLeaderElected | EventLeaderLost | EventLeaderResigned.

(** Why a lease is being given up, and so what comes next. *)
Inductive giving : Type :=
| AfterFence (id : Z)      (* an attempt under the new ID *)
| OnRequest (led : bool)   (* the event of a term that was announced, and the hold-off *)
| OnStop.

(** Where the loop is: before its start, at the top, about to send an attempt, waiting for its answer ([ps_answer] is what
    the engine has answered, not yet received), giving the lease up, holding off, in the select at the bottom, or gone. *)
Inductive place : Type :=
| Unstarted | Top | Sending (id : Z)
| Sent (id until deadline : Z) (answer : option (result LeaderResult))
| GivingUp (id : Z) (why : giving)
| HoldingOff (until : Z) | Waiting | Stopped.

Record loop : Type := mkLoop {
  ll_clientID : Z; ll_isLeader : bool; ll_term : option leaderTerm; ll_leaseID : Z; ll_electedAt : Z; ll_held : bool;
  ll_place : place; ll_events : list leader_event (* emitted, the latest first *) }.
#[export] Instance settable_loop : Settable loop := fun l =>
  mkLoop (ll_clientID l) (ll_isLeader l) (ll_term l) (ll_leaseID l) (ll_electedAt l) (ll_held l) (ll_place l) (ll_events l).
Definition unstarted : loop := mkLoop 0 false None 0 zero_time false Unstarted [].

Definition emit_leader (e : leader_event) (l : loop) : loop := l <| ll_events ::= cons e |>.

(** if c.isLeader.Swap(false) { lose(...) }: the event, and the term ended, its loops gone. *)
Definition lose (l : loop) : loop := (emit_leader EventLeaderLost l) <| ll_term := None |>.
Definition swap_lose (l : loop) : loop := if ll_isLeader l then lose (l <| ll_isLeader := false |>) else l.

(** endLapsed, and whether it ended the term. *)
Definition endLapsed (now : Z) (l : loop) : loop * bool :=
  match ll_term l with
  | Some t => if fence_expired now (lt_until t) && ll_isLeader l then (swap_lose l, true) else (l, false)
  | None => (l, false)
  end.

(** ** The loop's parts *)

(** From the top to the attempt. *)
Definition loop_top (now : Z) (l : loop) : loop :=
  let id := ll_clientID l in
  let l := fst (endLapsed now l) in
  if ll_held l && negb (ll_leaseID l =? id)
  then (swap_lose l) <| ll_held := false |> <| ll_place := GivingUp (ll_leaseID l) (AfterFence id) |>
  else l <| ll_place := Sending id |>.

Definition send (ttl now id : Z) (l : loop) : loop :=
  let until := now + ttl in
  let deadline := match ll_term l with Some t => lt_until t | None => until end in
  l <| ll_place := Sent id until deadline None |>.

(** The renewal's effect on the fence; whether the term lapsed with it. *)
Definition renewal (now until : Z) (out : result LeaderResult) (l : loop) : loop * bool :=
  match ll_term l with
  | None => (l, false)
  | Some t =>
      let ours := match out with Ok r => lt_Leader r && (lt_ElectedAt r =? ll_electedAt l) | Err _ => false end in
      let asked := match out with Ok r => lt_ResignRequested r | Err _ => false end in
      let '(renewed, l) :=
        if ours && negb asked then
          match fence_renew now (Some (lt_until t)) until with
          | (true, Some u) => (true, l <| ll_term := Some (mkTerm u (lt_canceled t)) |>)
          | (ok, _) => (ok, l)
          end
        else (ours, l) in
      if renewed then (l, false) else endLapsed now l
  end.

(** A lease under another date is another term. *)
Definition other_term (out : result LeaderResult) (l : loop) : loop :=
  match out with
  | Ok r => if lt_Leader r && negb (lt_ElectedAt r =? ll_electedAt l) then swap_lose l else l
  | Err _ => l
  end.

(** The switch on the attempt's answer; an error while the client stops is [loop_stop]. *)
Definition answered (now id until : Z) (out : result LeaderResult) (l : loop) : loop :=
  let '(l, lapsed) := renewal now until out l in
  let l := other_term out l in
  match out with
  | Err _ => l <| ll_place := if lapsed then Top else Waiting |>
  | Ok r =>
      if lt_ResignRequested r then
        l <| ll_term := None |> <| ll_held := false |> <| ll_place := GivingUp id (OnRequest (ll_isLeader l)) |> <| ll_isLeader := false |>
      else if lt_Leader r then
        let l := l <| ll_leaseID := id |> <| ll_electedAt := lt_ElectedAt r |> <| ll_held := true |> <| ll_place := Waiting |> in
        if ll_isLeader l then l
        else (emit_leader EventLeaderElected (l <| ll_isLeader := true |>)) <| ll_term := Some (startTerm now until) |>
      else (swap_lose (l <| ll_held := false |>)) <| ll_place := Waiting |>
  end.

(** giveUpLease has returned, whichever way the lease went. *)
Definition given_up (ttl now : Z) (why : giving) (l : loop) : loop :=
  match why with
  | AfterFence id => l <| ll_place := Sending id |>
  | OnRequest led => (if led then emit_leader EventLeaderResigned l else l) <| ll_place := HoldingOff (now + ttl) |>
  | OnStop => l <| ll_place := Stopped |>
  end.

(** The deferred end of the loop: term.end and resign. *)
Definition loop_stop (l : loop) : loop :=
  let l := l <| ll_term := None |> in
  if ll_isLeader l || ll_held l then l <| ll_isLeader := false |> <| ll_place := GivingUp (ll_leaseID l) OnStop |>
  else l <| ll_place := Stopped |>.

(** Where the client's stop is seen: at an attempt's error, in the hold-off and in the select. *)
Definition stopping (now : Z) (l : loop) : option loop :=
  match ll_place l with
  | Sent _ until _ _ => Some (loop_stop (fst (renewal now until (Err (ErrText "context canceled")) l)))
  | HoldingOff _ | Waiting => Some (loop_stop l)
  | _ => None
  end.

(** ** Clients and the engine *)

(** The engine's clock, each client's own, the tables and the loops.  A client measures its lease by its own monotonic
    clock; the engine dates it by the wall clock it reads (database.clock), which may run otherwise, be held or be set. *)
Record sys : Type := mkSys { sy_now : Z; sy_clock : nat -> Z; sy_db : DB; sy_loops : nat -> loop }.

(** The engine's clock, read in microseconds. *)
Definition reads_clock (now : Z) (x : w) : Prop := w_now x = now / 1000.

Definition set_loop (c : nat) (l : loop) (f : nat -> loop) : nat -> loop := <[c := l]> f.

(** Between two readings the engine's clock has gained nothing on any client's: it may lag, stand or be set back. *)
Definition paced (eng eng' : Z) (ck ck' : nat -> Z) : Prop := forall c, eng' - eng <= ck' c - ck c.

Section System.
Context (ttl : nat -> Z) (timely : Prop).

Inductive sys_step : sys -> sys -> Prop :=
| sy_tick eng eng' ck ck' d f : (forall c, ck c <= ck' c) -> (timely -> paced eng eng' ck ck') ->
    sys_step (mkSys eng ck d f) (mkSys eng' ck' d f)
| sy_engine eng ck d d' f : step d d' -> db_leader d' = db_leader d -> sys_step (mkSys eng ck d f) (mkSys eng ck d' f)
| sy_request eng ck id x d f : reads_clock eng x -> sys_step (mkSys eng ck d f) (mkSys eng ck (snd (LeaderRequestResign id x d)) f)
| sy_start eng ck c p x d id d' f : ll_place (f c) = Unstarted -> ClientRegister p x d = (Ok id, d') ->
    sys_step (mkSys eng ck d f) (mkSys eng ck d' (set_loop c ((f c) <| ll_clientID := id |> <| ll_place := Top |>) f))
| sy_refence eng ck c p x d id d' f : ll_place (f c) <> Unstarted -> ClientRegister p x d = (Ok id, d') ->
    sys_step (mkSys eng ck d f) (mkSys eng ck d' (set_loop c ((f c) <| ll_clientID := id |>) f))
| sy_fence eng ck c t d f : ll_term (f c) = Some t ->
    sys_step (mkSys eng ck d f) (mkSys eng ck d (set_loop c ((f c) <| ll_term := Some (fence_fires (ck c) t) |>) f))
| sy_top eng ck c d f : ll_place (f c) = Top -> sys_step (mkSys eng ck d f) (mkSys eng ck d (set_loop c (loop_top (ck c) (f c)) f))
| sy_send eng ck c id d f : ll_place (f c) = Sending id -> sys_step (mkSys eng ck d f) (mkSys eng ck d (set_loop c (send (ttl c) (ck c) id (f c)) f))
| sy_attempt eng ck c id until deadline x d r d' f : ll_place (f c) = Sent id until deadline None -> reads_clock eng x ->
    LeaderAttempt id (ttl c) x d = (r, d') ->
    sys_step (mkSys eng ck d f) (mkSys eng ck d' (set_loop c ((f c) <| ll_place := Sent id until deadline (Some r) |>) f))
| sy_answer eng ck c id until deadline r d f : ll_place (f c) = Sent id until deadline (Some r) ->
    sys_step (mkSys eng ck d f) (mkSys eng ck d (set_loop c (answered (ck c) id until r (f c)) f))
| sy_lost eng ck c id until deadline r e d f : ll_place (f c) = Sent id until deadline r ->
    sys_step (mkSys eng ck d f) (mkSys eng ck d (set_loop c (answered (ck c) id until (Err e) (f c)) f))
| sy_resign eng ck c id why x d f : ll_place (f c) = GivingUp id why ->
    sys_step (mkSys eng ck d f) (mkSys eng ck (snd (LeaderResign id x d)) f)
| sy_given_up eng ck c id why d f : ll_place (f c) = GivingUp id why ->
    sys_step (mkSys eng ck d f) (mkSys eng ck d (set_loop c (given_up (ttl c) (ck c) why (f c)) f))
| sy_held_off eng ck c until d f : ll_place (f c) = HoldingOff until -> until <= ck c ->
    sys_step (mkSys eng ck d f) (mkSys eng ck d (set_loop c ((f c) <| ll_place := Top |>) f))
| sy_woken eng ck c d f : ll_place (f c) = Waiting -> sys_step (mkSys eng ck d f) (mkSys eng ck d (set_loop c ((f c) <| ll_place := Top |>) f))
| sy_stop eng ck c d f l : stopping (ck c) (f c) = Some l -> sys_step (mkSys eng ck d f) (mkSys eng ck d (set_loop c l f)).

Definition sys_start (eng : Z) (ck : nat -> Z) : sys := mkSys eng ck empty_db (fun _ => unstarted).
Definition sys_reachable (s : sys) : Prop := exists eng ck, rtc sys_step (sys_start eng ck) s.
End System.
