(* ===== verification/Steps.v ===== *)
(** * The steps of a job (steps.go)

    Recording how far a job's worker got, and running its steps from the first
    one its progress does not record as finished.  A step's own work is the
    caller's: a function of the worker's state, which it may change. *)

From Stdlib Require Import List ZArith Lia Bool String Ascii.
From stdpp Require Import base tactics list strings.
From S2P Require Import Prelude Sql Text Json JsonCheck Types Store Codec Insert Finalize Control Unique Inserting Building.
Import ListNotations.
Local Open Scope string_scope.
Local Open Scope Z_scope.
Local Open Scope list_scope.

(** ** Progress *)

(** The step last finished and the cursor, of driver.Progress; the time it was recorded is not looked at. *)
Record Progress : Type := mkProgress { pr_Step : string; pr_Cursor : option string }.

(** DecodeProgress of jobcodec: a value that is not an object reads as none.  Keys are matched as the engine writes them, and a cursor is
    the text the engine stored. *)
Definition DecodeProgress (stored : string) : option Progress :=
  match json_parse stored with
  | Some (JObj m) =>
      Some (mkProgress (match smap_get "step" (members_of m) with Some (JStr l) => unquote l | _ => "" end)
                       (match smap_get "cursor" (members_of m) with Some JNull | None => None | Some j => Some (json_print j) end))
  | _ => None
  end.

(** Where a worker runs: in an attempt of a stored job, under Workers.Work with none, or outside of both. *)
Inductive work_context : Type := InAttempt | Inline | NotInJob.

(** An attempt's state as the steps see it.  [wk_calls] counts the statements recorded. *)
Record worker : Type := mkWorker {
  wk_context : work_context; wk_ID : JobID; wk_by : Z; wk_fence : Z; wk_attempt : Z;
  wk_progress : option Progress; wk_heldByTx : bool; wk_completed : bool; wk_calls : nat; wk_db : DB }.
#[export] Instance settable_worker : Settable worker := fun w =>
  mkWorker (wk_context w) (wk_ID w) (wk_by w) (wk_fence w) (wk_attempt w) (wk_progress w) (wk_heldByTx w) (wk_completed w) (wk_calls w) (wk_db w).

Definition ErrNotInJob : error := ErrText "context does not belong to a running job".

(** progressCursor: [cursor] is what json.Marshal makes of the caller's value, or none. *)
Definition progressCursor (step : string) (keepStep : bool) (cursor : option (result string)) : result string :=
  if negb keepStep && negb (storableName step) then Err (ErrText "step holds a NUL or invalid UTF-8")
  else match cursor with
       | None => Ok ""
       | Some (Err e) => Err e
       | Some (Ok b) => if String.eqb b "null" then Ok "" else Ok b
       end.

Section Steps.
Context (calls : nat -> w * bool).

(** record, on the pool or in a transaction of the caller's. *)
Definition record_ (tx : bool) (step : string) (keepStep : bool) (cursor : option (result string)) (wk : worker) : result unit * worker :=
  match wk_context wk with
  | NotInJob => (Err ErrNotInJob, wk)
  | ctx =>
      match progressCursor step keepStep cursor with
      | Err e => (Err e, wk)
      | Ok raw =>
          match ctx with
          | InAttempt =>
              let '(x, busy) := calls (wk_calls wk) in
              let p := mkJobRecordProgressParams (wk_ID wk) (wk_by wk) (wk_fence wk) (wk_attempt wk) None step keepStep raw (negb tx && wk_heldByTx wk) in
              let '(r, d) := JobRecordProgress p busy x (wk_db wk) in
              let wk := wk <| wk_calls ::= S |> <| wk_db := d |> in
              match r with
              | Err e => (Err e, wk)
              | Ok None => (Err ErrJobFenced, wk)
              | Ok (Some text) =>
                  match DecodeProgress text with
                  | None => (Err ErrJobFenced, wk)
                  | Some p => (Ok tt, wk <| wk_heldByTx ::= orb tx |> <| wk_progress := Some p |>)
                  end
              end
          | _ =>
              let step := if keepStep then match wk_progress wk with Some p => pr_Step p | None => "" end else step in
              (Ok tt, wk <| wk_progress := Some (mkProgress step (if String.eqb raw "" then None else Some raw)) |>)
          end
      end
  end.
Definition RecordStep (step : string) (cursor : option (result string)) : worker -> result unit * worker := record_ false step false cursor.
Definition RecordStepTx (step : string) (cursor : option (result string)) : worker -> result unit * worker := record_ true step false cursor.
Definition RecordCursor (cursor : option (result string)) : worker -> result unit * worker := record_ false "" true cursor.
Definition RecordCursorTx (cursor : option (result string)) : worker -> result unit * worker := record_ true "" true cursor.

(** ** Running the steps *)

Record JobStep : Type := mkJobStep { js_name : string; js_run : option (worker -> result unit * worker) }.

Fixpoint check_steps (before rest : list JobStep) : result unit :=
  match rest with
  | [] => Ok tt
  | s :: rest =>
      if String.eqb (js_name s) "" || is_null (js_run s) then Err (ErrText "step has no name or no function")
      else if negb (storableName (js_name s)) then Err (ErrText "step holds a NUL or invalid UTF-8")
      else if existsb (fun o => String.eqb (js_name o) (js_name s)) before then Err (ErrText "step is listed twice")
      else check_steps (before ++ [s]) rest
  end.

(** slices.IndexFunc *)
Fixpoint index_step (name : string) (steps : list JobStep) : option nat :=
  match steps with
  | [] => None
  | s :: rest => if String.eqb (js_name s) name then Some O else option_map S (index_step name rest)
  end.

Definition progress_name (wk : worker) : string := match wk_progress wk with Some p => pr_Step p | None => "" end.

(** Where the progress has the steps start; [None] if it names none of them. *)
Definition start_at (steps : list JobStep) (wk : worker) : option nat :=
  if String.eqb (progress_name wk) "" then Some O else option_map S (index_step (progress_name wk) steps).

(** The loop, with the steps it ran in order, each with whether it returned nil. *)
Fixpoint run_steps (steps : list JobStep) (wk : worker) : result unit * worker * list (string * bool) :=
  match steps with
  | [] => (Ok tt, wk, [])
  | s :: rest =>
      match js_run s with
      | None => (Err (ErrPanic "nil function"), wk, [])
      | Some run =>
          match run wk with
          | (Err e, wk) => (Err e, wk, [(js_name s, false)])
          | (Ok _, wk) =>
              let record := if wk_completed wk then (Ok tt, wk)
                            else if negb (is_null (wk_progress wk)) && String.eqb (progress_name wk) (js_name s) then (Ok tt, wk)
                            else RecordStep (js_name s) None wk in
              match record with
              | (Err e, wk) => (Err e, wk, [(js_name s, true)])
              | (Ok _, wk) => let '(r, wk, ran) := run_steps rest wk in (r, wk, (js_name s, true) :: ran)
              end
          end
      end
  end.

(** A job that can never run its steps is canceled: its error is wrapped by Cancel, and the others are the attempt's. *)
Inductive steps_result : Type := StepsCancel (e : error) | StepsReturn (r : result unit).

Definition RunSteps (steps : list JobStep) (wk : worker) : steps_result * worker * list (string * bool) :=
  match check_steps [] steps with
  | Err e => (StepsCancel e, wk, [])
  | Ok _ =>
      match start_at steps wk with
      | None => (StepsCancel (ErrText "finished a step that is not among the job's steps"), wk, [])
      | Some n => let '(r, wk, ran) := run_steps (List.skipn n steps) wk in (StepsReturn r, wk, ran)
      end
  end.
End Steps.
