(* ===== verification/Producer.v ===== *)
(** * The producer of a queue (producer.go)

    The claim loop of one queue and the goroutines it starts, as a step relation
    over the engine: the loop's reads of the count and of the pause, its claim
    statement, the goroutines' ends and the sends on the channels wake and freed
    (one slot each) interleave in any order with other clients' writes.  Times
    are nanoseconds of the local clock. *)

From Stdlib Require Import List ZArith Lia Bool String.
From stdpp Require Import base tactics list relations.
From S2P Require Import Prelude Sql Types Store Claim Engine.
Import ListNotations.
Local Open Scope Z_scope.
Local Open Scope list_scope.

(** ** State *)

(** A job's goroutine: in work, in submit, before running--, before the send on freed, and gone. *)
Inductive goroutine_stage : Type := Working | Submitting | Unfreed | Signaling | Ended.
Record goroutine : Type := mkGoroutine { g_job : JobView; g_stage : goroutine_stage }.

(** Where run is: at the top, with the free slots counted, with a claim to send, starting what it claimed, in a sleep that only a stop
    cuts short, or in the select at the bottom. *)
Inductive run_place : Type :=
| Loop | Counted (free : Z) | Claiming (free : Z)
| Starting (free n : Z) (rest : list JobView) (wait : Z) (failed : bool)
| Sleeping (until : Z) | Selecting (cooldown : option Z) (poll : Z) | Returned.

(** [pd_resuming] counts the calls of setPaused between their swap and their wakeUp; [pd_claimed] is all that was claimed, and [pd_due]
    whether a channel was sent on since the loop last went for a claim, which the code does not keep. *)
Record producer : Type := mkProducer {
  pd_paused : bool; pd_limited : bool; pd_running : Z; pd_wake : bool; pd_freed : bool; pd_lastClaim : option Z; pd_stopping : bool;
  pd_place : run_place; pd_jobs : list goroutine; pd_resuming : nat; pd_claimed : list JobView; pd_due : bool }.
#[export] Instance settable_producer : Settable producer := fun p =>
  mkProducer (pd_paused p) (pd_limited p) (pd_running p) (pd_wake p) (pd_freed p) (pd_lastClaim p) (pd_stopping p) (pd_place p) (pd_jobs p)
    (pd_resuming p) (pd_claimed p) (pd_due p).
Definition startProducer (paused limited : bool) : producer := mkProducer paused limited 0 false false None false Loop [] 0 [] false.

(** Config.PollInterval, the claim cooldown and the queue's workers. *)
Record producerConfig : Type := mkProducerConfig { pc_queue : string; pc_MaxWorkers : Z; pc_pollInterval : Z; pc_cooldown : Z }.

(** ** Signals *)

Definition wakeUp (p : producer) : producer := p <| pd_wake := true |> <| pd_due := true |>.
Definition setPaused (paused : bool) (p : producer) : producer :=
  if Bool.eqb (pd_paused p) paused then p
  else if paused then p <| pd_paused := true |>
  else p <| pd_paused := false |> <| pd_resuming ::= S |>.

(** ** The loop *)

Section Producer.
Context (c : producerConfig).

Definition threshold : Z := Z.max 1 (pc_MaxWorkers c / 4).
Definition count_free (p : producer) : producer := p <| pd_place := Counted (pc_MaxWorkers c - pd_running p) |>.

(** From the count to a claim or to the select; time.Since of the zero time is past any cooldown. *)
Definition consider (now free : Z) (p : producer) : producer :=
  let free := if pd_paused p then 0 else free in
  let poll := now + pc_pollInterval c in
  if 0 <? free then
    let since := match pd_lastClaim p with Some t => Some (now - t) | None => None end in
    if (threshold <=? free) || match since with Some s => pc_cooldown c <=? s | None => true end
    then p <| pd_place := Claiming free |> <| pd_due := false |>
    else p <| pd_place := Selecting (match since with Some s => Some (now + (pc_cooldown c - s)) | None => None end) poll |>
  else p <| pd_place := Selecting None poll |>.

(** claimAndStart: the claim's answer, and start for each of its jobs. *)
Definition claim_answered (free : Z) (out : result JobClaimResult) (p : producer) : producer :=
  match out with
  | Ok r => p <| pd_place := Starting free (Z.of_nat (List.length (cr_Jobs r))) (cr_Jobs r) (cr_Wait r) false |> <| pd_claimed ::= (fun l => l ++ cr_Jobs r) |>
  | Err _ => p <| pd_place := Starting free 0 [] 0 true |>
  end.
Definition start (job : JobView) (p : producer) : producer :=
  p <| pd_running ::= Z.succ |> <| pd_jobs ::= (fun l => l ++ [mkGoroutine job Working]) |>.

(** After the claim. *)
Definition claim_done (now free n wait : Z) (failed : bool) (p : producer) : producer :=
  let p := p <| pd_lastClaim := Some now |> in
  let place := if pd_stopping p then Returned
               else if failed then Sleeping (now + pc_pollInterval c)
               else if 0 <? wait then Sleeping (now + Z.min wait (pc_pollInterval c))
               else if n =? free then Loop
               else Selecting None (now + pc_pollInterval c) in
  p <| pd_place := place |>.

(** ** A job's goroutine *)

Definition next_stage (g : goroutine) : goroutine :=
  mkGoroutine (g_job g) (match g_stage g with Working => Submitting | Submitting => Unfreed | Unfreed => Signaling | _ => Ended end).
Definition goroutine_step (i : nat) (g : goroutine) (p : producer) : producer :=
  let p := p <| pd_jobs ::= <[i := next_stage g]> |> in
  match g_stage g with
  | Unfreed => p <| pd_running ::= Z.pred |>
  | Signaling => p <| pd_freed := true |> <| pd_due := true |>
  | _ => p
  end.

(** ** Runs *)

Record production : Type := mkProduction { pn_now : Z; pn_db : DB; pn_producer : producer }.

Inductive produce : production -> production -> Prop :=
| pn_tick now now' d p : now <= now' -> produce (mkProduction now d p) (mkProduction now' d p)
| pn_engine now d d' p : step d d' -> produce (mkProduction now d p) (mkProduction now d' p)
| pn_wake now d p : produce (mkProduction now d p) (mkProduction now d (wakeUp p))
| pn_pause now d p paused : produce (mkProduction now d p) (mkProduction now d (setPaused paused p))
| pn_resume now d p n : pd_resuming p = S n -> produce (mkProduction now d p) (mkProduction now d (wakeUp (p <| pd_resuming := n |>)))
| pn_limit now d p limited : produce (mkProduction now d p) (mkProduction now d (p <| pd_limited := limited |>))
| pn_cancel now d p : produce (mkProduction now d p) (mkProduction now d (p <| pd_stopping := true |>))
| pn_count now d p : pd_place p = Loop -> produce (mkProduction now d p) (mkProduction now d (count_free p))
| pn_consider now d p free : pd_place p = Counted free -> produce (mkProduction now d p) (mkProduction now d (consider now free p))
| pn_claim now d d' p free client x r : pd_place p = Claiming free ->
    JobClaim (mkJobClaimParams (pc_queue c) client free (pd_limited p)) x d = (r, d') ->
    produce (mkProduction now d p) (mkProduction now d' (claim_answered free r p))
| pn_lost now d p free e : pd_place p = Claiming free -> produce (mkProduction now d p) (mkProduction now d (claim_answered free (Err e) p))
| pn_start now d p free n job rest wait failed : pd_place p = Starting free n (job :: rest) wait failed ->
    produce (mkProduction now d p) (mkProduction now d ((start job p) <| pd_place := Starting free n rest wait failed |>))
| pn_claimed now d p free n wait failed : pd_place p = Starting free n [] wait failed ->
    produce (mkProduction now d p) (mkProduction now d (claim_done now free n wait failed p))
| pn_slept now d p until : pd_place p = Sleeping until -> until <= now -> produce (mkProduction now d p) (mkProduction now d (p <| pd_place := Loop |>))
| pn_woken now d p cooldown poll : pd_place p = Selecting cooldown poll -> pd_wake p = true ->
    produce (mkProduction now d p) (mkProduction now d (p <| pd_wake := false |> <| pd_place := Loop |>))
| pn_slot now d p cooldown poll : pd_place p = Selecting cooldown poll -> pd_freed p = true ->
    produce (mkProduction now d p) (mkProduction now d (p <| pd_freed := false |> <| pd_place := Loop |>))
| pn_cooled now d p t poll : pd_place p = Selecting (Some t) poll -> t <= now -> produce (mkProduction now d p) (mkProduction now d (p <| pd_place := Loop |>))
| pn_polled now d p cooldown poll : pd_place p = Selecting cooldown poll -> poll <= now ->
    produce (mkProduction now d p) (mkProduction now d (p <| pd_place := Loop |>))
| pn_stop now d p : pd_stopping p = true -> match pd_place p with Sleeping _ | Selecting _ _ => True | _ => False end ->
    produce (mkProduction now d p) (mkProduction now d (p <| pd_place := Returned |>))
| pn_goroutine now d p i g : pd_jobs p !! i = Some g -> g_stage g <> Ended ->
    produce (mkProduction now d p) (mkProduction now d (goroutine_step i g p)).

Definition produces (s : production) : Prop := exists now paused limited, rtc produce (mkProduction now empty_db (startProducer paused limited)) s.
End Producer.
