(* ===== verification/Notifier.v ===== *)
(** * The notifier (notifier.go)

    Insert and stream notifications, coalesced by a timer, and the flush of a
    stop.  A step is one critical section of the mutex, one send, or the clock;
    marks, timers that fire and flushNow interleave in any order.  Times are
    nanoseconds. *)

From Stdlib Require Import List ZArith Lia Bool String.
From stdpp Require Import base tactics list gmap sets strings relations.
From S2P Require Import Prelude.
Import ListNotations.
Local Open Scope Z_scope.
Local Open Scope list_scope.

(** ** State *)

(** n.timer: none, one that waits for its time, or one whose goroutine has begun and has not set it to nil. *)
Inductive timer_state : Type := NoTimer | Armed (due : Z) | Expired.

(** A call of flush: before it takes what is pending, and with the names it is still to send on each channel. *)
Inductive flush_place : Type := Taking | SendQueues (queues topics : gset string) | SendTopics (topics : gset string) | Flushed.

(** A call of flushNow: in its loop, in its flush (with whether it left the loop because no timer was left), or returned. *)
Inductive now_place : Type := NotCalled | Waiting | FlushingNow (settled : bool) (at_ : flush_place) | NowReturned (settled : bool).

(** [nf_unsent] and [nf_unsentStreams] hold the names marked of which no notification has been begun since, [nf_late] whether a name was
    marked since flushNow left its loop, and [nf_fired] the times timers fired at, the latest first: the code does not keep them. *)
Record notifier : Type := mkNotifier {
  nf_pending : gset string; nf_streams : gset string; nf_timer : timer_state; nf_timers : nat; nf_fires : list flush_place;
  nf_flushNow : now_place; nf_ended : bool; nf_unsent : gset string; nf_unsentStreams : gset string; nf_late : bool; nf_fired : list Z }.
#[export] Instance settable_notifier : Settable notifier := fun n =>
  mkNotifier (nf_pending n) (nf_streams n) (nf_timer n) (nf_timers n) (nf_fires n) (nf_flushNow n) (nf_ended n) (nf_unsent n) (nf_unsentStreams n) (nf_late n) (nf_fired n).
Definition newNotifier : notifier := mkNotifier ∅ ∅ NoTimer 0 [] NotCalled false ∅ ∅ false [].

(** ** Operations *)

Section Notifier.
Context (interval : Z).

Definition arm (now : Z) (n : notifier) : notifier :=
  match nf_timer n with NoTimer => n <| nf_timers ::= S |> <| nf_timer := Armed (now + interval) |> | _ => n end.
Definition mark (now : Z) (queue : string) (n : notifier) : notifier :=
  arm now (n <| nf_pending ::= (fun s => {[queue]} ∪ s) |> <| nf_unsent ::= (fun s => {[queue]} ∪ s) |> <| nf_late := true |>).
Definition markStream (now : Z) (topic : string) (n : notifier) : notifier :=
  arm now (n <| nf_streams ::= (fun s => {[topic]} ∪ s) |> <| nf_unsentStreams ::= (fun s => {[topic]} ∪ s) |> <| nf_late := true |>).

(** fire, to its flush. *)
Definition fire (now : Z) (n : notifier) : notifier :=
  n <| nf_timer := NoTimer |> <| nf_fires ::= (fun l => l ++ [Taking]) |> <| nf_fired ::= cons now |>.

(** flush: the names taken and cleared, and a notification per channel that has any. *)
Definition flush_step (at_ : flush_place) (n : notifier) : flush_place * notifier :=
  match at_ with
  | Taking =>
      (if bool_decide (nf_pending n = ∅ /\ nf_streams n = ∅) then Flushed else SendQueues (nf_pending n) (nf_streams n),
       n <| nf_pending := ∅ |> <| nf_streams := ∅ |>)
  | SendQueues queues topics => (SendTopics topics, n <| nf_unsent ::= (fun s => s ∖ queues) |>)
  | SendTopics topics => (Flushed, n <| nf_unsentStreams ::= (fun s => s ∖ topics) |>)
  | Flushed => (Flushed, n)
  end.

(** fire's end. *)
Definition fired (i : nat) (n : notifier) : notifier := n <| nf_fires ::= delete i |> <| nf_timers ::= pred |>.

(** flushNow's loop, once it holds the mutex: it stops a timer that has not fired, leaves once none is left or ctx has ended, and waits otherwise. *)
Definition flushNow_loop (n : notifier) : option notifier :=
  if Nat.eqb (nf_timers n) 0 then Some (n <| nf_flushNow := FlushingNow true Taking |> <| nf_late := false |>)
  else match nf_timer n with
       | Armed _ => Some (n <| nf_timer := NoTimer |> <| nf_timers ::= pred |>)
       | _ => if nf_ended n then Some (n <| nf_flushNow := FlushingNow false Taking |>) else None
       end.

Inductive notify_step : Z * notifier -> Z * notifier -> Prop :=
| nf_tick now now' n : now <= now' -> notify_step (now, n) (now', n)
| nf_mark now q n : notify_step (now, n) (now, mark now q n)
| nf_markStream now t n : notify_step (now, n) (now, markStream now t n)
| nf_expire now due n : nf_timer n = Armed due -> due <= now -> notify_step (now, n) (now, n <| nf_timer := Expired |>)
| nf_fire now n : nf_timer n = Expired -> notify_step (now, n) (now, fire now n)
| nf_flush now i at_ at' n n' : nf_fires n !! i = Some at_ -> at_ <> Flushed -> flush_step at_ n = (at', n') ->
    notify_step (now, n) (now, n' <| nf_fires ::= <[i := at']> |>)
| nf_finish now i n : nf_fires n !! i = Some Flushed -> notify_step (now, n) (now, fired i n)
| nf_call now n : nf_flushNow n = NotCalled -> notify_step (now, n) (now, n <| nf_flushNow := Waiting |>)
| nf_end now n : notify_step (now, n) (now, n <| nf_ended := true |>)
| nf_loop now n n' : nf_flushNow n = Waiting -> flushNow_loop n = Some n' -> notify_step (now, n) (now, n')
| nf_flushing now settled at_ at' n n' : nf_flushNow n = FlushingNow settled at_ -> at_ <> Flushed -> flush_step at_ n = (at', n') ->
    notify_step (now, n) (now, n' <| nf_flushNow := FlushingNow settled at' |>)
| nf_return now settled n : nf_flushNow n = FlushingNow settled Flushed -> notify_step (now, n) (now, n <| nf_flushNow := NowReturned settled |>).

Definition notifies (s : Z * notifier) : Prop := exists now, rtc notify_step (now, newNotifier) s.
End Notifier.
