(* ===== verification/Await.v ===== *)
(** * Waiting for a job (await.go)

    The channels of the Await calls on one job, which awaitDone appends to and
    awaitCancel takes out of one slice, in place, while signalDone walks a slice
    it read before.  A slice is an address in [aw_arrays] and a length; channels
    are numbers, and 0 is nil. *)

From Stdlib Require Import List ZArith Lia Bool.
From stdpp Require Import base tactics list relations.
From S2P Require Import Prelude.
Import ListNotations.
Local Open Scope list_scope.

(** ** Slices *)

Record slice : Type := mkSlice { sl_at : nat; sl_len : nat }.
Definition array (arrays : list (list nat)) (at_ : nat) : list nat := List.nth at_ arrays [].
Definition elems (arrays : list (list nat)) (s : slice) : list nat := List.firstn (sl_len s) (array arrays (sl_at s)).

#[local] Arguments array : simpl never.
#[local] Arguments elems : simpl never.

(** append of one element: in place while there is room, and otherwise to a new array of twice the length. *)
Definition append_elem (arrays : list (list nat)) (s : slice) (ch : nat) : list (list nat) * slice :=
  let a := array arrays (sl_at s) in
  if Nat.ltb (sl_len s) (List.length a)
  then (<[sl_at s := <[sl_len s := ch]> a]> arrays, mkSlice (sl_at s) (S (sl_len s)))
  else (arrays ++ [elems arrays s ++ [ch] ++ List.repeat 0 (pred (sl_len s))], mkSlice (List.length arrays) (S (sl_len s))).

(** append(waiters[:i], waiters[i+1:]...): the elements after it moved down, in the same array. *)
Definition remove_at (arrays : list (list nat)) (s : slice) (i : nat) : list (list nat) * slice :=
  let a := array arrays (sl_at s) in
  (<[sl_at s := List.firstn i a ++ List.firstn (sl_len s - S i) (List.skipn (S i) a) ++ List.skipn (pred (sl_len s)) a]> arrays,
   mkSlice (sl_at s) (pred (sl_len s))).

Fixpoint find_elem (ch : nat) (l : list nat) : option nat :=
  match l with [] => None | x :: r => if Nat.eqb x ch then Some O else option_map S (find_elem ch r) end.

(** ** The registry *)

(** [aw_signaled] is the channels sent on, and [aw_signals] the calls of signalDone under way: the slice each read and where it is. *)
Record registry : Type := mkRegistry {
  aw_arrays : list (list nat); aw_waiters : option slice; aw_signaled : list nat; aw_signals : list (slice * nat) }.
#[export] Instance settable_registry : Settable registry := fun r =>
  mkRegistry (aw_arrays r) (aw_waiters r) (aw_signaled r) (aw_signals r).
Definition no_waiters : registry := mkRegistry [] None [] [].
Definition waiting_on (r : registry) : list nat := match aw_waiters r with Some s => elems (aw_arrays r) s | None => [] end.

Definition awaitDone (ch : nat) (r : registry) : registry :=
  let '(arrays, s) := match aw_waiters r with
                      | Some s => append_elem (aw_arrays r) s ch
                      | None => (aw_arrays r ++ [[ch]], mkSlice (List.length (aw_arrays r)) 1)
                      end in
  r <| aw_arrays := arrays |> <| aw_waiters := Some s |>.

Definition awaitCancel (ch : nat) (r : registry) : registry :=
  match aw_waiters r with
  | None => r
  | Some s =>
      let '(arrays, s) := match find_elem ch (elems (aw_arrays r) s) with Some i => remove_at (aw_arrays r) s i | None => (aw_arrays r, s) end in
      r <| aw_arrays := arrays |> <| aw_waiters := if Nat.eqb (sl_len s) 0 then None else Some s |>
  end.

(** signalDone: the slice read under the mutex, and then one send at a time without it. *)
Definition signalDone (r : registry) : registry := match aw_waiters r with Some s => r <| aw_signals ::= (fun l => l ++ [(s, O)]) |> | None => r end.
Definition signal_next (k : nat) (r : registry) : registry :=
  match aw_signals r !! k with
  | Some (s, i) =>
      match elems (aw_arrays r) s !! i with
      | Some ch => r <| aw_signaled ::= (fun l => l ++ [ch]) |> <| aw_signals ::= <[k := (s, S i)]> |>
      | None => r
      end
  | None => r
  end.

(** ** Theorems *)

(** The registry: its slice is in its array, and not empty. *)
Definition slice_ok (r : registry) : Prop :=
  match aw_waiters r with
  | Some s => sl_at s < List.length (aw_arrays r) /\ 0 < sl_len s <= List.length (array (aw_arrays r) (sl_at s))
  | None => True
  end.

Lemma array_insert arrays at_ a : at_ < List.length arrays -> array (<[at_ := a]> arrays) at_ = a.
Proof. intros H. unfold array. apply nth_lookup_Some. now apply list_lookup_insert_eq. Qed.

Lemma find_elem_Some ch l i : find_elem ch l = Some i -> i < List.length l /\ exists a b, l = a ++ ch :: b /\ List.length a = i /\ ch ∉ a.
Proof.
  revert i. induction l as [|x l IH]; intros i; simpl; [done|]. destruct (Nat.eqb_spec x ch) as [->|Hne].
  - intros [= <-]. split; [lia|]. exists [], l. split; [done|]. split; [done|]. set_solver.
  - destruct (find_elem ch l) as [k|]; [|done]. intros [= <-]. destruct (IH k eq_refl) as (Hk & a & b & -> & Ha & Hn). split; [lia|].
    exists (x :: a), b. split; [done|]. split; [simpl; lia|]. set_solver.
Qed.

Lemma find_elem_In ch l : In ch l -> exists i, find_elem ch l = Some i.
Proof.
  induction l as [|x l IH]; [done|]. simpl. destruct (Nat.eqb_spec x ch); [eauto|]. intros [?|H]; [done|]. destruct (IH H) as [i ->]. eauto.
Qed.

Lemma awaitDone_waits ch r : slice_ok r -> slice_ok (awaitDone ch r) /\ waiting_on (awaitDone ch r) = waiting_on r ++ [ch].
Proof.
  unfold slice_ok, awaitDone, waiting_on. destruct (aw_waiters r) as [s|]; [intros (Ha & Hl)|intros _].
  - unfold append_elem. destruct (Nat.ltb_spec (sl_len s) (List.length (array (aw_arrays r) (sl_at s)))) as [Hlt|Hge]; cbn.
    + rewrite array_insert, !length_insert by done. split; [lia|]. unfold elems. cbn. rewrite array_insert by done.
      rewrite (take_S_r _ _ ch) by (now apply list_lookup_insert_eq). now rewrite take_insert_ge.
    + assert (Ea : forall x, array (aw_arrays r ++ [x]) (List.length (aw_arrays r)) = x) by (intros x; unfold array; now rewrite nth_middle).
      rewrite Ea. assert (Hlen : List.length (elems (aw_arrays r) s) = sl_len s) by (unfold elems; rewrite List.length_firstn; lia).
      rewrite !length_app, Hlen. cbn. split; [lia|]. unfold elems at 1. cbn. rewrite Ea, List.firstn_app, List.firstn_all2, Hlen by lia.
      now replace (S (sl_len s) - sl_len s) with 1 by lia.
  - cbn. assert (Ea : array (aw_arrays r ++ [[ch]]) (List.length (aw_arrays r)) = [ch]) by (unfold array; now rewrite nth_middle).
    rewrite Ea, length_app. cbn. split; [lia|]. unfold elems. cbn. now rewrite Ea.
Qed.

Lemma firstn_around {A} n i (l a b : list A) x : List.firstn n l = a ++ x :: b -> List.length a = i ->
  i < n /\ n <= List.length l /\ List.firstn i l = a /\ List.firstn (n - S i) (List.skipn (S i) l) = b \/ List.length l < n.
Proof.
  intros E Hi. destruct (Nat.le_gt_cases n (List.length l)) as [Hn|Hn]; [left|now right].
  assert (Hl : n = List.length a + S (List.length b)) by (apply (f_equal (List.length (A := A))) in E; rewrite List.length_firstn, length_app in E; cbn in E; lia).
  split; [lia|]. split; [done|]. split.
  - replace i with (Nat.min i n) by lia. rewrite <- List.firstn_firstn, E, List.firstn_app, List.firstn_all2 by lia.
    replace (i - List.length a) with 0 by lia. cbn. apply app_nil_r.
  - rewrite <- List.skipn_firstn_comm, E. replace (S i) with (List.length (a ++ [x])) by (rewrite length_app; cbn; lia).
    replace (a ++ x :: b) with ((a ++ [x]) ++ b) by (now rewrite <- app_assoc). rewrite List.skipn_app, List.skipn_all, Nat.sub_diag. done.
Qed.

Lemma awaitCancel_waits ch r : slice_ok r -> slice_ok (awaitCancel ch r)
  /\ forall a b, waiting_on r = a ++ ch :: b -> ch ∉ a -> waiting_on (awaitCancel ch r) = a ++ b.
Proof.
  unfold slice_ok, awaitCancel, waiting_on. destruct (aw_waiters r) as [s|] eqn:Ew; [intros (Ha & Hl)|rewrite Ew; intros _; split; [done|]; intros a b E; now destruct a].
  destruct (find_elem ch (elems (aw_arrays r) s)) as [i|] eqn:Ef; cbn.
  - apply find_elem_Some in Ef as (Hi & a' & b' & E' & Hla & Hn'). set (A := array (aw_arrays r) (sl_at s)) in *.
    destruct (firstn_around (sl_len s) i A a' b' ch) as [(Hin & Hle & E1 & E2)|Hbad]; [exact E'|done| |lia].
    assert (Hlen : List.length (List.firstn i A ++ List.firstn (sl_len s - S i) (List.skipn (S i) A)) = pred (sl_len s)).
    { rewrite length_app, !List.length_firstn, List.length_skipn. lia. }
    assert (Ht : List.firstn (pred (sl_len s)) (List.firstn i A ++ List.firstn (sl_len s - S i) (List.skipn (S i) A) ++ List.skipn (pred (sl_len s)) A) = a' ++ b').
    { rewrite app_assoc, List.firstn_app, List.firstn_all2 by lia. rewrite Hlen, Nat.sub_diag, app_nil_r. now rewrite E1, E2. }
    assert (Hsame : forall a b, elems (aw_arrays r) s = a ++ ch :: b -> ch ∉ a -> a ++ b = a' ++ b').
    { intros a b E Hn. rewrite E in E'. clear -E' Hn Hn'. revert a' E' Hn'. induction a as [|x a IH]; intros [|y a'] E' Hn'; simpl in E'; simplify_eq; [done|set_solver|set_solver|].
      simpl. f_equal. apply IH; set_solver. }
    destruct (Nat.eqb_spec (pred (sl_len s)) 0) as [E0|E0]; cbn.
    + split; [done|]. intros a b E Hn. rewrite (Hsame a b E Hn), <- Ht, E0. done.
    + rewrite array_insert, length_insert by done. rewrite app_assoc, !length_app, List.length_skipn. rewrite length_app in Hlen. split; [lia|].
      intros a b E Hn. unfold elems. cbn [sl_at sl_len]. rewrite array_insert by done. rewrite (Hsame a b E Hn), <- app_assoc. exact Ht.
  - destruct (Nat.eqb_spec (sl_len s) 0); [lia|]. cbn. split; [done|]. intros a b E _. assert (Hin : In ch (elems (aw_arrays r) s)) by (rewrite E; apply in_app_iff; right; now left).
    apply find_elem_In in Hin as [k Hk]. congruence.
Qed.

(** The calls of Await that have not returned, in the order they came. *)
Inductive registered : list nat -> registry -> Prop :=
| registered_none : registered [] no_waiters
| registered_done l r ch : registered l r -> ch ∉ l -> registered (l ++ [ch]) (awaitDone ch r)
| registered_cancel a b r ch : registered (a ++ ch :: b) r -> registered (a ++ b) (awaitCancel ch r)
| registered_signal l r : registered l r -> registered l (signalDone r)
| registered_next l r k : registered l r -> registered l (signal_next k r).

(** However calls of Await come and go, and signals walk their slices beside them, the registry holds exactly the channels of those
    that wait, each once and in order. *)
Theorem registry_exact l r : registered l r -> waiting_on r = l /\ NoDup l.
Proof.
  intros H. enough (slice_ok r /\ waiting_on r = l /\ NoDup l) by tauto.
  induction H as [|l r ch _ (Hs & Hw & Hn) Hc|a b r ch _ (Hs & Hw & Hn)|l r _ (Hs & Hw & Hn)|l r k _ (Hs & Hw & Hn)].
  - split; [done|]. split; [done|constructor].
  - destruct (awaitDone_waits ch r Hs) as [Hs' E]. split; [done|]. split; [congruence|]. apply NoDup_app. split; [done|]. split; [|apply NoDup_singleton]. set_solver.
  - destruct (awaitCancel_waits ch r Hs) as [Hs' E]. apply NoDup_app in Hn as (Ha & Hd & [Hb' Hb]%NoDup_cons). split; [done|]. split; [apply E; [done|]; intros Hc; apply (Hd ch Hc); set_solver|].
    apply NoDup_app. split; [done|]. split; [|done]. set_solver.
  - unfold signalDone, slice_ok, waiting_on in *. destruct (aw_waiters r) eqn:E; cbn; rewrite ?E; done.
  - unfold signal_next, slice_ok, waiting_on in *. destruct (aw_signals r !! k) as [[s i]|]; [|done]. destruct (elems _ s !! i); done.
Qed.

(** A signal beside a call that returns misses a waiter: of three calls on a job, the first is signaled and returns, which moves the
    others down the array the signal walks; the second is passed over, though it waited before the signal and waits after it. *)
Example signal_skips_waiter :
  let before := awaitDone 3 (awaitDone 2 (awaitDone 1 no_waiters)) in
  let during := awaitCancel 1 (signal_next 0 (signalDone before)) in
  let after := signal_next 0 (signal_next 0 during) in
  waiting_on before = [1; 2; 3] /\ waiting_on after = [2; 3] /\ aw_signals after = [(mkSlice 2 3, 3)] /\ aw_signaled after = [1; 3; 3].
Proof. repeat split; reflexivity. Qed.
