(* ===== verification/Leasing.v ===== *)
(** * Leased attempts (leases.go)

    The client's side of job leases: tokens and their text, the claim by ID, the
    renewal, progress, and the end of a leased attempt, over the engine and over
    the outcome of execute.go.  A read and the write after it are two statements:
    the write finds a database of its own. *)

From Stdlib Require Import List ZArith Lia Bool String Ascii.
From stdpp Require Import base tactics list strings.
From S2P Require Import Prelude Sql Text Json JsonCheck Types Store JobId Codec Insert Finalize Control Leases Workflow Unique Inserting Building Execute Flush Steps.
Import ListNotations.
Local Open Scope string_scope.
Local Open Scope Z_scope.

(** ** Tokens *)

Record LeaseToken : Type := mkLeaseToken { lk_id : JobID; lk_fence : Z; lk_nonce : JobID }.
Definition no_token : LeaseToken := mkLeaseToken 0 0 0.
Definition LeaseToken_IsZero (t : LeaseToken) : bool := (lk_id t =? 0) && (lk_fence t =? 0) && (lk_nonce t =? 0).
Definition LeaseToken_String (t : LeaseToken) : string := JobID_String (lk_id t) ++ "." ++ itoa (lk_fence t) ++ "." ++ hex_encode 32 (lk_nonce t).

Definition ParseLeaseToken (s : string) : option LeaseToken :=
  match split "." s with
  | [id; fence; nonce] =>
      match ParseJobID id with
      | None => None
      | Some id =>
          match parse_int 64 fence with
          | None => None
          | Some fence =>
              if fence <=? 0 then None
              else if negb (Nat.eqb (String.length nonce) 32) then None
              else match hex_decode 0 nonce with None => None | Some nonce => Some (mkLeaseToken id fence nonce) end
          end
      end
  | _ => None
  end.

Definition MarshalText (t : LeaseToken) : string := if LeaseToken_IsZero t then "" else LeaseToken_String t.
Definition UnmarshalText (b : string) : option LeaseToken := if String.eqb b "" then Some no_token else ParseLeaseToken b.
Definition fenceOf (t : LeaseToken) : LeaseFence := mkLeaseFence (lk_nonce t) (lk_fence t).

(** ** Claims, renewals and progress *)

Definition DefaultJobLeaseTTL : Z := 60000000000.
Record JobLease : Type := mkJobLease { jl_Job : JobView; jl_Token : LeaseToken; jl_ExpiresAt : Z }.

(** claimByID; [ttl] is zero for no options. *)
Definition claimByID (id : JobID) (fence ttl : Z) (x : w) (d : DB) : result JobLease * DB :=
  if (ttl <? 0) || (fence <? 0) then (Err (ErrText "TTL and fence must not be negative"), d)
  else
    let ttl := if ttl =? 0 then DefaultJobLeaseTTL else ttl in
    match JobClaimByID (mkJobClaimByIDParams id fence ttl) x d with
    | (Err e, d) => (Err e, d)
    | (Ok row, d) =>
        (Ok (mkJobLease (lr_Job row) (mkLeaseToken (j_ID (v_job (lr_Job row))) (lf_Fence (lr_Lease row)) (lf_Token (lr_Lease row))) (lr_ExpiresAt row)), d)
    end.

Definition Renew (t : LeaseToken) (x : w) (d : DB) : result JobLeaseStatus * DB :=
  if LeaseToken_IsZero t then (Err (ErrText "zero token"), d) else JobLeaseRenew (mkJobLeaseRenewParams (lk_id t) (fenceOf t)) x d.

Definition record_lease (t : LeaseToken) (step : string) (keepStep : bool) (cursor : option (result string)) (busy : bool) (x : w) (d : DB)
    : result Progress * DB :=
  if LeaseToken_IsZero t then (Err (ErrText "zero lease token"), d)
  else
    match progressCursor step keepStep cursor with
    | Err e => (Err e, d)
    | Ok raw =>
        match JobRecordProgress (mkJobRecordProgressParams (lk_id t) 0 0 0 (Some (fenceOf t)) step keepStep raw false) busy x d with
        | (Err e, d) => (Err e, d)
        | (Ok None, d) => (Err ErrJobFenced, d)
        | (Ok (Some text), d) => (match DecodeProgress text with Some p => Ok p | None => Err ErrJobFenced end, d)
        end
    end.

(** ** The end of a leased attempt *)

(** LeaseResult: the attempt's error, and what Marshal makes of its output, if it gave one. *)
Record LeaseResult : Type := mkLeaseResult { lz_Err : option work_error; lz_Output : option (result string) }.

(** encodeOutput of await.go, of a value already marshaled. *)
Definition encodeOutput (limit : Z) (data : result string) : result string :=
  match data with
  | Err e => Err e
  | Ok b => if (0 <? limit) && (limit <? Z.of_nat (String.length b)) then Err (ErrText "output larger than Config.MaxOutputBytes") else Ok b
  end.

(** Config.MaxOutputBytes, JobLogs.MaxAttempts and the queue's DeleteCompleted. *)
Record leaseConfig : Type := mkLeaseConfig { lg_MaxOutputBytes : Z; lg_MaxAttempts : Z; lg_deleteCompleted : bool }.

Section Leasing.
Context (c : leaseConfig).

(** The context of a leased attempt: it has no generation, and is canceled if that was asked. *)
Definition lease_ending (row : JobRow) (en : ending) : ending :=
  let cause := if time_IsZero (j_CancelRequestedAt row) then None else Some JobCanceled in
  mkEnding None cause cause (en_hook en) (en_now en) (en_policies en) (en_cap en) (en_rand en).

(** result, on the job JobGet reads. *)
Definition lease_result (t : LeaseToken) (res : LeaseResult) (en : ending) (d : DB) : result (JobRow * JobFinalize) :=
  if LeaseToken_IsZero t then Err (ErrText "zero token")
  else
    match JobGet (lk_id t) d with
    | Err ErrNotFound => Err ErrJobFenced
    | Err e => Err e
    | Ok v =>
        let row := v_job v in
        if negb (state_eqb (j_State row) Running) || negb (AttemptedBy row =? 0) || negb (j_Fence row =? lk_fence t) then Err ErrJobFenced
        else
          let early := match lz_Output res, lz_Err res with Some data, None => encodeOutput (lg_MaxOutputBytes c) data | _, _ => Ok "" end in
          match early with
          | Err e => Err e
          | Ok output =>
              let f := outcome row (lg_deleteCompleted c) (lease_ending row en) (lz_Err res) true false in
              let f := f <| f_AttemptedBy := 0 |> <| f_Lease := Some (fenceOf t) |> in
              let output := match lz_Output res, lz_Err res with
                            | Some data, Some _ => if Terminal (f_State f)
                                                   then match encodeOutput (lg_MaxOutputBytes c) data with Ok b => b | Err _ => "" end else output
                            | _, _ => output
                            end in
              Ok (row, if Terminal (f_State f) then f <| f_Output := output |> else f)
          end
    end.

(** write, and the jobs canceled with it. *)
Definition lease_write (row : JobRow) (f : JobFinalize) (busy : bool) (x : w) (d : DB) : result (list JobID) * DB :=
  match JobFinalizeMany (mkJobFinalizeParams [f] (IsZero (idOf (j_BatchID row))) false (lg_MaxAttempts c)) busy x d with
  | (Err e, d) => (Err e, d)
  | (Ok out, d) => let '(applied, cascaded) := splitCascaded out in (match applied with [] => Err ErrJobFenced | _ => Ok cascaded end, d)
  end.

(** The queue a finished attempt wakes: one that is to run again at once. *)
Definition lease_wakes (row : JobRow) (f : JobFinalize) : list string :=
  if (f_Delay f =? 0) && negb (Terminal (f_State f)) then [j_Queue row] else [].

(** settleAndPromote after a job of a batch ended: the engine has settled the batch, and promoting may fail, which is logged. *)
Definition lease_follows (row : JobRow) (f : JobFinalize) (cascaded : list JobID) (promote : option w) (d : DB) : DB :=
  if Terminal (f_State f) && negb (IsZero (idOf (j_BatchID row))) then
    match promote with Some x => snd (WorkflowPromoteReady (Some (j_ID row :: cascaded)) 0 0 d x d) | None => d end
  else d.

(** Finish: [d] is the database JobGet reads, [d1] the one the write finds; [promote] is the promoting statement's time, or none if it fails. *)
Definition Finish (t : LeaseToken) (res : LeaseResult) (en : ending) (busy : bool) (x : w) (promote : option w) (d d1 : DB)
    : result (list string) * DB :=
  match lease_result t res en d with
  | Err e => (Err e, d1)
  | Ok (row, f) =>
      match lease_write row f busy x d1 with
      | (Err e, d2) => (Err e, d2)
      | (Ok cascaded, d2) => (Ok (lease_wakes row f), lease_follows row f cascaded promote d2)
      end
  end.

(** FinishTx: reads and writes in the caller's transaction, and notifies in it. *)
Definition FinishTx (t : LeaseToken) (res : LeaseResult) (en : ending) (busy : bool) (x : w) (d : DB) : result (list string) * DB :=
  match lease_result t res en d with
  | Err e => (Err e, d)
  | Ok (row, f) => match lease_write row f busy x d with (Err e, d) => (Err e, d) | (Ok _, d) => (Ok (lease_wakes row f), d) end
  end.
End Leasing.
