(* ===== verification/ClaimSpec.v ===== *)
(** * What a claim does

    Theorems on Claim.v: the order is total, a claim never trips the lane's
    unique index, it takes the first eligible jobs and only those, and it keeps
    a queue's global and partition limits. *)

From Stdlib Require Import List ZArith Lia Bool String Permutation Sorted.
From stdpp Require Import base tactics list.
From S2P Require Import Prelude Sql Text Json Types Store Logic Insert Finalize Float64 Claim Evolution Engine.
Import ListNotations.
Local Open Scope Z_scope.

(** ** The claim's order *)

Lemma claim_leb_spec a b : claim_leb a b = true <->
  j_Priority a < j_Priority b \/ (j_Priority a = j_Priority b /\
    (j_ScheduledAt a < j_ScheduledAt b \/ (j_ScheduledAt a = j_ScheduledAt b /\ j_seq a <= j_seq b))).
Proof. unfold claim_leb. repeat case_match; breflect; rewrite ?Z.leb_le, ?Z.ltb_lt; lia. Qed.

Lemma claim_leb_total a b : claim_leb a b = true \/ claim_leb b a = true.
Proof. rewrite !claim_leb_spec. lia. Qed.
Lemma claim_leb_trans a b c : claim_leb a b = true -> claim_leb b c = true -> claim_leb a c = true.
Proof. rewrite !claim_leb_spec. lia. Qed.

(** ** Lanes *)

Lemma fold_min_le {A} (f : A -> Z) l : forall m x, x = m \/ (exists k, In k l /\ x = f k) ->
  List.fold_left (fun m k => Z.min m (f k)) l m <= x.
Proof.
  induction l as [|a l IH]; simpl; intros m x H; [destruct H as [->|(k & [] & _)]; lia|].
  assert (x <> Z.min m (f a) -> Z.min m (f a) <= x \/ (exists k, In k l /\ x = f k)) as Hx.
  { intros _. destruct H as [->|(k & [->|Hk] & ->)]; [left; lia|left; lia|right; eauto]. }
  destruct (Z.eq_dec x (Z.min m (f a))) as [->|Hne]; [apply IH; now left|].
  destruct (Hx Hne) as [Hle|Hk]; [|apply IH; now right].
  etransitivity; [apply (IH _ (Z.min m (f a))); now left|done].
Qed.

Lemma min_seq_le t m j : min_seq t = Some m -> In j t -> m <= j_seq j.
Proof.
  destruct t as [|k t]; simpl; [done|]. intros [= <-] Hj.
  apply (fold_min_le j_seq). destruct Hj as [->|Hj]; eauto.
Qed.

Lemma same_lane_spec a b : same_lane a b = true <->
  j_Queue a = j_Queue b /\ exists key, j_OrderingKey a = Some key /\ j_OrderingKey b = Some key.
Proof. unfold same_lane. now rewrite andb_true_iff, String.eqb_eq, null_eq_str. Qed.

(** A job of a lane is free only if none of the lane runs and it is the
    lane's oldest waiting job. *)
Lemma lane_free_spec t j k :
  lane_free t j = true -> In k t -> same_lane k j = true ->
  is_running k = false /\ (waits k = true -> j_seq j <= j_seq k).
Proof.
  intros Hf Hk (Hq & key & E1 & E2)%same_lane_spec. unfold lane_free in Hf. rewrite E2 in Hf. simpl in Hf. breflect.
  assert (same_lane k j = true) as Hl by (apply same_lane_spec; eauto). split.
  - rewrite ex_false in H. specialize (H k Hk). rewrite Hl in H. done.
  - intros Hw. destruct (min_seq _) as [m|] eqn:Em; [|done]. breflect. rewrite H0.
    eapply min_seq_le; [exact Em|]. apply In_sel. now rewrite Hl.
Qed.

Lemma claim_eligible_spec t q now j : claim_eligible t q now j = true <->
  j_Queue j = q /\ waits j = true /\ j_ScheduledAt j <= now
  /\ match j_ExpiresAt j with None => True | Some e => now < e end /\ lane_free t j = true.
Proof.
  unfold claim_eligible. rewrite !andb_true_iff, String.eqb_eq, Z.leb_le.
  destruct (j_ExpiresAt j); rewrite ?Z.gtb_lt; intuition.
Qed.

Lemma waits_not_running j : waits j = true -> is_running j = false.
Proof. unfold waits, is_running. destruct (j_State j); simpl; congruence. Qed.

(** ** The choice *)

Section Choice.
Context (t : list JobRow) (q : string) (now n p : Z).
Notation cands := (sel (claim_eligible t q now) t).
Notation chosen := (claim_choice t q now n p).

Definition admitted : list JobRow := if p >? 0 then sel (partition_admits t cands p) cands else cands.

Lemma admitted_In j : In j admitted -> In j t /\ claim_eligible t q now j = true.
Proof. unfold admitted. case_match; rewrite ?In_sel; tauto. Qed.

Lemma chosen_admitted j : In j chosen -> In j admitted.
Proof. intros H%In_limit. exact (proj1 (In_order_by claim_leb _ _) H). Qed.

Lemma chosen_In j : In j chosen -> In j t /\ claim_eligible t q now j = true.
Proof. intros H%chosen_admitted. now apply admitted_In. Qed.

Lemma chosen_least j k : In j chosen -> In k admitted -> ~ In k chosen -> claim_leb j k = true.
Proof. intros Hj Hk Hn. eapply limit_order_least; eauto using claim_leb_total, claim_leb_trans. Qed.

(** Fewer than the limit, and nothing admitted is left. *)
Lemma chosen_all : 0 <= n -> Z.of_nat (List.length chosen) < n -> Permutation chosen admitted.
Proof.
  intros Hn Hl. unfold claim_choice in *. fold admitted in *. rewrite <- (order_by_perm claim_leb admitted) at 2.
  unfold limit in *. destruct (n <? 0) eqn:E; [done|]. rewrite length_firstn in Hl.
  rewrite firstn_all2; [done|lia].
Qed.
End Choice.

(** ** A claim keeps the table's constraints *)

(** What a claim's SET list does to a row. *)
Record starts (f : JobRow -> JobRow) : Prop := {
  st_evolve : forall j, evolve j (f j);
  st_running : forall j, is_running (f j) = true;
  st_checks : forall j, j_Priority (f j) = j_Priority j /\ j_Tags (f j) = j_Tags j }.

Lemma claim_row_starts now c : starts (claim_row now c).
Proof. split; intros; [evolve_tac|done|done]. Qed.

Section ClaimUpdate.
Context (t : list JobRow) (p : JobRow -> bool) (f : JobRow -> JobRow).
Hypothesis Hok : jobs_ok t = true.
Hypothesis Hf : starts f.
Hypothesis Hp : forall j, In j t -> p j = true -> waits j = true /\ lane_free t j = true.

Definition claim_update (j : JobRow) : JobRow := if p j then f j else j.

Lemma claim_update_evolves j : evolve j (claim_update j).
Proof. unfold claim_update. destruct (p j); [apply Hf|reflexivity]. Qed.

Lemma claim_update_lane a b : same_lane (claim_update a) (claim_update b) = same_lane a b.
Proof.
  unfold same_lane. pose proof (claim_update_evolves a) as Ea. pose proof (claim_update_evolves b) as Eb.
  now rewrite (ev_Queue _ _ Ea), (ev_Queue _ _ Eb), (ev_OrderingKey _ _ Ea), (ev_OrderingKey _ _ Eb).
Qed.

Lemma claimed_alone a b : In a t -> In b t -> p a = true -> same_lane a b = true ->
  is_running b = false /\ (p b = true -> a = b).
Proof.
  intros Ha Hb Pa L. destruct (Hp a Ha Pa) as [Wa Fa].
  rewrite same_lane_sym in L. destruct (lane_free_spec t a b Fa Hb L) as [Rb Lb]. split; [done|]. intros Pb.
  destruct (Hp b Hb Pb) as [Wb Fb]. rewrite same_lane_sym in L. destruct (lane_free_spec t b a Fb Ha L) as [_ La].
  apply jobs_ok_spec in Hok as (_ & _ & Hs & _). apply (NoDup_map_inj j_seq t); auto.
  specialize (La Wa). specialize (Lb Wb). lia.
Qed.

Lemma claim_update_lanes a b : In a t -> In b t ->
  same_running_lane (claim_update a) (claim_update b) = true -> a = b.
Proof.
  intros Ha Hb. unfold same_running_lane. rewrite claim_update_lane, !andb_true_iff. intros [[Ra Rb] L].
  unfold claim_update in Ra, Rb. destruct (p a) eqn:Pa, (p b) eqn:Pb.
  - now apply claimed_alone.
  - destruct (claimed_alone a b) as [Hn _]; auto. congruence.
  - rewrite same_lane_sym in L. destruct (claimed_alone b a) as [Hn _]; auto. congruence.
  - apply jobs_ok_spec in Hok as (_ & _ & _ & _ & Hl).
    apply (nodupb_inj same_running_lane t); auto using same_running_lane_sym.
    unfold same_running_lane. now rewrite Ra, Rb, L.
Qed.

Lemma jobs_ok_claim : jobs_ok (upd p f t) = true.
Proof.
  change (upd p f t) with (List.map claim_update t). apply jobs_ok_update; auto using claim_update_evolves.
  - intros j Hj. pose proof (proj1 (proj1 (jobs_ok_spec t) Hok) j Hj) as Hrow. unfold claim_update. destruct (p j); [|done].
    destruct Hf as [_ Hr Hc]. destruct (Hc j) as [E1 E2]. specialize (Hr j). apply state_eqb_eq in Hr.
    unfold row_ok in *. rewrite E1, E2, Hr. rewrite !andb_true_iff in *. tauto.
  - apply claim_update_lanes.
Qed.
End ClaimUpdate.

(** ** The claim *)

Definition chosen_now (q : string) (n p : Z) (x : w) (d : DB) : list JobRow :=
  claim_choice (db_jobs d) q (w_now x) (Z.min n claimMax) p.
Definition is_chosen (chosen : list JobRow) (j : JobRow) : bool := mem_Z (j_seq j) (List.map j_seq chosen).

Lemma is_chosen_spec d q n p x j : wf d -> In j (db_jobs d) ->
  is_chosen (chosen_now q n p x d) j = true <-> In j (chosen_now q n p x d).
Proof.
  intros Hw Hj. unfold is_chosen. rewrite mem_Z_In, in_map_iff. split; [|eauto].
  intros (k & E & Hk). assert (k = j) as ->; [|done].
  eapply wf_unique_seq; eauto. apply chosen_In in Hk. tauto.
Qed.

(** A claim of a positive number always goes through: it is the update of the
    chosen rows, returned in claim order. *)
Lemma claim_runs d q c n p x : wf d -> 0 < n ->
  exists views, claim q c n p x d =
    Ok (views, d <| db_jobs := upd (is_chosen (chosen_now q n p x d)) (claim_row (w_now x) c) (db_jobs d) |>)
  /\ Permutation (List.map v_job views) (List.map (claim_row (w_now x) c) (sel (is_chosen (chosen_now q n p x d)) (db_jobs d))).
Proof.
  intros Hw Hn. unfold claim. destruct (Z.min n claimMax <=? 0) eqn:E; [breflect; unfold claimMax in E; lia|].
  set (chosen := chosen_now q n p x d).
  assert (jobs_ok (upd (is_chosen chosen) (claim_row (w_now x) c) (db_jobs d)) = true) as Hok.
  { apply jobs_ok_claim; [apply Hw|apply claim_row_starts|]. intros j Hj Hc.
    apply is_chosen_spec in Hc; auto. apply chosen_In in Hc as (_ & (_ & Hwt & _ & _ & Hl)%claim_eligible_spec). done. }
  unfold bind, us, get, exec_jobs. cbv zeta beta. fold (chosen_now q n p x d). fold chosen.
  change (fun j => mem_Z (j_seq j) (List.map j_seq chosen)) with (is_chosen chosen). rewrite Hok.
  eexists. split; [reflexivity|]. rewrite map_map. simpl.
  rewrite (map_ext _ (fun j => j)) by (intros j; unfold readDependencies; now case_match). rewrite map_id.
  rewrite order_by_perm. apply Permutation_refl'. unfold sel, upd. clear.
  assert (forall j, is_chosen chosen (claim_row (w_now x) c j) = is_chosen chosen j) as Hc by done.
  induction (db_jobs d) as [|j t IH]; simpl; [done|]. destruct (is_chosen chosen j) eqn:E; simpl.
  - rewrite Hc, E. simpl. now rewrite IH.
  - now rewrite E.
Qed.

Lemma NoDup_jobs d : wf d -> List.NoDup (db_jobs d).
Proof. intros [(_ & H & _)%jobs_ok_spec _ _]. now apply NoDup_map_inv in H. Qed.

Lemma NoDup_limit {A} n (t : list A) : List.NoDup t -> List.NoDup (limit n t).
Proof. rewrite <- (map_id t) at 1. intros H%(limit_NoDup_map _ n). now rewrite map_id in H. Qed.

Lemma NoDup_admitted t q now p : List.NoDup t -> List.NoDup (admitted t q now p).
Proof. intros H. unfold admitted. case_match; unfold sel; auto using List.NoDup_filter. Qed.

Lemma NoDup_chosen t q now n p : List.NoDup t -> List.NoDup (claim_choice t q now n p).
Proof.
  intros H. unfold claim_choice. fold (admitted t q now p). apply NoDup_limit.
  eapply Permutation_NoDup; [symmetry; apply order_by_perm|]. now apply NoDup_admitted.
Qed.

Lemma sel_chosen d q n p x : wf d ->
  Permutation (sel (is_chosen (chosen_now q n p x d)) (db_jobs d)) (chosen_now q n p x d).
Proof.
  intros Hw. pose proof (NoDup_jobs d Hw) as Hn. apply Permutation.NoDup_Permutation.
  - now apply List.NoDup_filter.
  - now apply NoDup_chosen.
  - intros j. rewrite In_sel. split.
    + intros [Hj Hc]. now apply is_chosen_spec in Hc.
    + intros Hc. pose proof (chosen_In _ _ _ _ _ _ Hc) as [Hj _]. split; [done|]. now apply is_chosen_spec.
Qed.

(** The rows a claim returned, by their sequence numbers. *)
Definition taken (views : list JobView) (j : JobRow) : bool := mem_Z (j_seq j) (List.map (fun v => j_seq (v_job v)) views).

Lemma mem_Z_perm z l l' : Permutation l l' -> mem_Z z l = mem_Z z l'.
Proof.
  intros Hp. apply eq_true_iff_eq. unfold mem_Z. rewrite !existsb_exists. split; intros (y & Hy & E); exists y; (split; [|done]); [now rewrite <- Hp|now rewrite Hp].
Qed.

Lemma taken_chosen d q c n p x views : wf d ->
  Permutation (List.map v_job views) (List.map (claim_row (w_now x) c) (chosen_now q n p x d)) ->
  (forall j, taken views j = is_chosen (chosen_now q n p x d) j) /\ List.NoDup (List.map (fun v => j_ID (v_job v)) views).
Proof.
  intros Hw Hv. split.
  - intros j. unfold taken, is_chosen. apply mem_Z_perm. rewrite <- (map_map v_job j_seq), Hv, map_map. reflexivity.
  - rewrite <- (map_map v_job j_ID), Hv, map_map. change (fun j => j_ID (claim_row (w_now x) c j)) with j_ID.
    assert (Hs : List.NoDup (List.map j_ID (sel (is_chosen (chosen_now q n p x d)) (db_jobs d)))).
    { destruct Hw as [(_ & H & _)%jobs_ok_spec _ _]. clear -H. unfold sel. induction (db_jobs d) as [|j t IH]; [constructor|]. cbn in *. inversion H as [|? ? Hn H']; subst.
      destruct (is_chosen _ j); [|auto]. cbn. constructor; [|auto]. contradict Hn. apply in_map_iff in Hn as (k & <- & Hk). apply in_map. now apply filter_In in Hk as [Hk _]. }
    now rewrite (sel_chosen d q n p x Hw) in Hs.
Qed.

(** C8: A claim of a positive number on a reachable database never fails.
    It returns at most the number asked for (and at most 512) of jobs, none
    twice; each was eligible and now runs with the next attempt and fence for
    the claiming client.  Of the whole database only the rows of these jobs
    change, each to its claimed row; and a job that could have been claimed is
    left only if the claim is full and the job comes no earlier in the claim
    order than every job taken. *)
Theorem claim_sound d q c n p x : reachable d -> 0 < n ->
  exists views, claim q c n p x d = Ok (views, d <| db_jobs := upd (taken views) (claim_row (w_now x) c) (db_jobs d) |>)
  /\ Z.of_nat (List.length views) <= Z.min n claimMax
  /\ List.NoDup (List.map (fun v => j_ID (v_job v)) views)
  /\ (forall v, In v views -> exists j, In j (db_jobs d) /\ claim_eligible (db_jobs d) q (w_now x) j = true /\ v_job v = claim_row (w_now x) c j)
  /\ (forall k, In k (admitted (db_jobs d) q (w_now x) p) -> taken views k = false ->
        Z.of_nat (List.length views) = Z.min n claimMax /\ forall v, In v views -> claim_leb (v_job v) k = true).
Proof.
  intros Hr%reachable_wf Hn. destruct (claim_runs d q c n p x Hr Hn) as (views & E & Hv).
  rewrite (sel_chosen d q n p x Hr) in Hv. destruct (taken_chosen d q c n p x views Hr Hv) as [Ht Hnd].
  assert (Eu : upd (taken views) (claim_row (w_now x) c) (db_jobs d) = upd (is_chosen (chosen_now q n p x d)) (claim_row (w_now x) c) (db_jobs d)).
  { unfold upd. apply map_ext. intros j. now rewrite Ht. }
  set (chosen := chosen_now q n p x d) in *.
  assert (List.length views = List.length chosen) as Hlen.
  { apply Permutation_length in Hv. now rewrite !length_map in Hv. }
  assert (forall v, In v views -> exists j, In j chosen /\ v_job v = claim_row (w_now x) c j) as Hback.
  { intros v Hin. apply (in_map v_job) in Hin. rewrite Hv in Hin. apply in_map_iff in Hin as (j & <- & Hj). eauto. }
  exists views. rewrite Eu, Hlen. split_and!; [exact E| |exact Hnd| |].
  - apply length_limit. unfold claimMax. lia.
  - intros v Hin. destruct (Hback v Hin) as (j & Hj & Ev). pose proof (chosen_In _ _ _ _ _ _ Hj) as [Hjt He]. exists j. done.
  - intros k Ha Hc. rewrite Ht in Hc. assert (Hk : In k (db_jobs d)) by now apply admitted_In in Ha as [Hk _].
    assert (~ In k chosen) as Hnc by (intros Hin%(is_chosen_spec d q n p x k Hr Hk); fold chosen in Hin; congruence). split.
    + destruct (Z.lt_trichotomy (Z.of_nat (List.length chosen)) (Z.min n claimMax)) as [Hlt|[Heq|Hgt]]; [|done|].
      * exfalso. apply Hnc. unfold chosen, chosen_now. rewrite chosen_all; auto; unfold claimMax; lia.
      * pose proof (length_limit (Z.min n claimMax) (order_by claim_leb (admitted (db_jobs d) q (w_now x) p))) as Hl.
        unfold chosen, chosen_now, claim_choice in Hgt. fold (admitted (db_jobs d) q (w_now x) p) in Hgt.
        unfold claimMax in *. lia.
    + intros v Hin. destruct (Hback v Hin) as (j & Hj & ->).
      change (claim_leb j k = true). eapply chosen_least; eauto.
Qed.

(** ** Limits *)

Lemma cnt_upd {A} (Q P : A -> bool) (f : A -> A) (t : list A) :
  (forall j, In j t -> P j = true -> Q j = false) ->
  cnt Q (upd P f t) = cnt Q t + cnt (fun j => P j && Q (f j)) t.
Proof.
  induction t as [|a t IH]; intros H; [done|]. change (upd P f (a :: t)) with ((if P a then f a else a) :: upd P f t).
  rewrite !cnt_cons, IH by (intros; apply H; simpl; auto). destruct (P a) eqn:E; simpl; [|lia].
  rewrite (H a) by (simpl; auto). lia.
Qed.

Lemma cnt_le_incl {A} (P Q : A -> bool) (t u : list A) :
  List.NoDup t -> (forall j, In j t -> P j = true -> In j u /\ Q j = true) -> cnt P t <= cnt Q u.
Proof.
  intros Hn H. unfold cnt. apply inj_le, List.NoDup_incl_length; [now apply List.NoDup_filter|].
  intros j [Hj Pj]%In_sel. apply In_sel. auto.
Qed.

Lemma list_max (l : list JobRow) : l <> [] -> exists m, In m l /\ forall j, In j l -> claim_leb j m = true.
Proof.
  induction l as [|a l IH]; [done|]. intros _. destruct (decide (l = [])) as [->|Hl].
  - exists a. split; [now left|]. intros j [->|[]]. destruct (claim_leb_total j j); done.
  - destruct (IH Hl) as (m & Hm & Hmax). destruct (claim_leb_total a m) as [E|E].
    + exists m. split; [now right|]. intros j [<-|Hj]; auto.
    + exists a. split; [now left|]. intros j [<-|Hj]; [destruct (claim_leb_total a a); done|].
      eapply claim_leb_trans; eauto.
Qed.

Lemma same_partition_spec a b : same_partition a b = true <->
  j_Queue a = j_Queue b /\ exists key, j_PartitionKey a = Some key /\ j_PartitionKey b = Some key.
Proof. unfold same_partition. now rewrite andb_true_iff, String.eqb_eq, null_eq_str. Qed.

Lemma same_partition_trans a b c :
  same_partition a b = true -> same_partition c b = true -> forall o, same_partition o a = same_partition o c.
Proof.
  intros (Q1 & k1 & A1 & B1)%same_partition_spec (Q2 & k2 & A2 & B2)%same_partition_spec o.
  assert (k1 = k2) as -> by congruence. unfold same_partition. rewrite A1, A2. congruence.
Qed.

Definition queue_running (q : string) (d : DB) : Z :=
  cnt (fun j => String.eqb (j_Queue j) q && client_running j) (db_jobs d).
Definition partition_running (r : JobRow) (d : DB) : Z :=
  cnt (fun o => same_partition o r && client_running o) (db_jobs d).

Section Limits.
Context (d : DB) (q : string) (c n p : Z) (x : w).
Hypothesis Hw : wf d.
Notation chosen := (chosen_now q n p x d).
Definition after_claim : DB := d <| db_jobs := upd (is_chosen chosen) (claim_row (w_now x) c) (db_jobs d) |>.

Lemma chosen_idle j : In j (db_jobs d) -> is_chosen chosen j = true -> is_running j = false.
Proof.
  intros Hj Hc. apply is_chosen_spec in Hc; auto. apply chosen_In in Hc as (_ & (_ & Hwt & _)%claim_eligible_spec).
  now apply waits_not_running.
Qed.

Lemma queue_running_after m : 0 <= Z.min n claimMax ->
  queue_running m after_claim <= queue_running m d + Z.min n claimMax.
Proof.
  intros Hn. unfold queue_running, after_claim. simpl. rewrite cnt_upd.
  - apply Z.add_le_mono_l. etransitivity; [|apply (length_limit _ (order_by claim_leb (admitted (db_jobs d) q (w_now x) p))); exact Hn].
    unfold cnt. apply inj_le, List.NoDup_incl_length; [apply List.NoDup_filter, NoDup_jobs, Hw|].
    intros j [Hj [Hc _]%andb_true_iff]%In_sel. now apply is_chosen_spec in Hc.
  - intros j Hj Hc. unfold client_running. rewrite (chosen_idle j Hj Hc). now rewrite andb_false_r.
Qed.

Lemma partition_running_after r : 0 < p -> partition_running r after_claim <= Z.max p (partition_running r d).
Proof.
  intros Hp. unfold partition_running, after_claim. simpl. rewrite cnt_upd.
  2:{ intros j Hj Hc. unfold client_running. rewrite (chosen_idle j Hj Hc). now rewrite andb_false_r. }
  set (L := sel (fun j => is_chosen chosen j && (same_partition (claim_row (w_now x) c j) r
                   && client_running (claim_row (w_now x) c j))) (db_jobs d)).
  set (K := cnt (fun o => same_partition o r && client_running o) (db_jobs d)).
  change (K + Z.of_nat (List.length L) <= Z.max p K).
  destruct (decide (L = [])) as [->|HL]; [simpl; lia|]. destruct (list_max L HL) as (m & Hm & Hmax).
  assert (forall j, In j L -> In j (admitted (db_jobs d) q (w_now x) p) /\ same_partition j r = true) as HLs.
  { intros j [Hj [Hc [Hs _]%andb_true_iff]%andb_true_iff]%In_sel. apply is_chosen_spec in Hc; auto.
    split; [now apply chosen_admitted in Hc|exact Hs]. }
  destruct (HLs m Hm) as [Ha Hs]. unfold admitted in Ha. rewrite Z.gtb_ltb in Ha.
  rewrite (proj2 (Z.ltb_lt 0 p) Hp) in Ha. apply In_sel in Ha as [_ Ha]. unfold partition_admits in Ha.
  pose proof (proj1 (same_partition_spec m r) Hs) as (_ & key & Ek & Er). rewrite Ek in Ha. simpl in Ha. breflect.
  etransitivity; [|apply Z.le_max_l]. etransitivity; [|exact Ha]. unfold slot. rewrite Z.add_comm.
  apply Z.add_le_mono.
  - unfold cnt at 1. apply inj_le, List.NoDup_incl_length; [apply List.NoDup_filter, NoDup_jobs, Hw|].
    intros j Hj. destruct (HLs j Hj) as [Hja Hjs]. apply In_sel. split.
    + apply admitted_In in Hja. now apply In_sel.
    + rewrite (Hmax j Hj), andb_true_r. rewrite (same_partition_trans m r r Hs); [done|].
      apply same_partition_spec. eauto.
  - apply Z.eq_le_incl. unfold K, cnt, sel. do 2 f_equal. apply List.filter_ext. intros o. f_equal.
    symmetry. apply (same_partition_trans m r r Hs). apply same_partition_spec. eauto.
Qed.
End Limits.

(** C22: A claim through the limited path keeps the queue's limits, which
    count the jobs clients run and not those run under a lease: it leaves no more
    jobs of the queue running in clients' claims than the global limit, nor of
    any partition key than the partition limit, unless more already ran so
    before it (as when a limit was lowered). *)
Theorem claimLimited_within d params qr x res d' :
  reachable d -> one (queue_is (cp_Queue params)) (db_queues d) = Some qr ->
  claimLimited params x d = Ok (res, d') ->
  (forall g, q_global_limit qr = Some g ->
     queue_running (cp_Queue params) d' <= Z.max g (queue_running (cp_Queue params) d))
  /\ (forall l r, q_partition_limit qr = Some l -> 0 < l ->
     partition_running r d' <= Z.max l (partition_running r d)).
Proof.
  intros Hr%reachable_wf Hq H. unfold claimLimited in H. unfold bind at 1, get at 1 in H. rewrite Hq in H.
  unfold bind at 1, us at 1 in H. unfold bind at 1, get at 1 in H. fold (queue_running (cp_Queue params) d) in H.
  set (B := match q_global_limit qr with Some g => Z.min (cp_Limit params) (g - queue_running (cp_Queue params) d)
                                       | None => cp_Limit params end) in H.
  match type of H with (let '(_, _) := ?e in _) _ _ = _ => assert (fst e <= B) as HB; [|destruct e as [b wait]] end.
  { destruct (has_rate qr); simpl; lia. }
  simpl in HB. destruct (b <=? 0) eqn:Eb; breflect; [inv_w; split; intros; lia|].
  apply bind_Ok in H as (jobs & d1 & Hc & H).
  set (P := match q_partition_limit qr with Some p => p | None => 0 end) in Hc.
  destruct (claim_runs d (cp_Queue params) (cp_ClientID params) b P x Hr Eb) as (views & E & _).
  rewrite E in Hc. injection Hc as <- <-. fold (after_claim d (cp_Queue params) (cp_ClientID params) b P x) in H.
  assert (db_jobs d' = db_jobs (after_claim d (cp_Queue params) (cp_ClientID params) b P x)) as Ej.
  { apply bind_Ok in H as (u & d2 & Hm & H). destruct (has_rate qr); inv_w; done. }
  split.
  - intros g Hg. unfold B in HB. rewrite Hg in HB. unfold queue_running at 1. rewrite Ej.
    etransitivity; [apply queue_running_after; auto; unfold claimMax; lia|]. unfold claimMax. lia.
  - intros l r Hl Hl0. unfold partition_running at 1. rewrite Ej. unfold P. rewrite Hl.
    apply partition_running_after; auto.
Qed.
