(* ===== verification/FinalizeSpec.v ===== *)
(** * What finalizing does

    Theorems on Finalize.v: the walk down the graph ends, it leaves no pending
    dependent of a failed job, every dependent that is ready is promoted, and a
    result applies to the claim that produced it and to no other. *)

From Stdlib Require Import List ZArith Lia Bool String Permutation.
From stdpp Require Import base tactics list gmap sets.
From S2P Require Import Prelude Sql Text Json JsonCheck Types Store Logic JobTags JobId Codec Insert Finalize.
From S2P Require Import Evolution Engine.
Import ListNotations.
Local Open Scope string_scope.
Local Open Scope Z_scope.

(** ** The fuel of the walk is enough *)

Definition not_fuel (e : error) : Prop := e <> ErrFuel.

Lemma constraint_not_fuel : not_fuel ErrConstraint.
Proof. done. Qed.
#[local] Hint Resolve constraint_not_fuel : raises.
#[local] Hint Resolve raises_exec_jobs raises_insert_row : raises.

Lemma notify_raises c ps : raises not_fuel (notify c ps).
Proof. destruct ps; unfold notify; raises_auto. intros x d e [=]. Qed.
Lemma draw_raises : raises not_fuel draw.
Proof. intros x d e [=]. Qed.
#[local] Hint Resolve notify_raises draw_raises : raises.
Lemma newID_raises : raises not_fuel newID.
Proof. unfold newID. raises_auto. Qed.
#[local] Hint Resolve newID_raises : raises.
Lemma insertJob_raises j : raises not_fuel (insertJob j).
Proof. unfold insertJob. raises_auto. Qed.
#[local] Hint Resolve insertJob_raises : raises.
Lemma decode_callback_raises s e : decode_callback s = Err e -> not_fuel e.
Proof. unfold decode_callback, string_field, number_field. repeat case_match; intros; by simplify_eq. Qed.
Lemma insertCallback_raises s b n : raises not_fuel (insertCallback s b n).
Proof.
  unfold insertCallback. apply raises_bind; [apply raises_lift, decode_callback_raises|intros cb].
  raises_auto. now apply raises_fail.
Qed.
#[local] Hint Resolve insertCallback_raises : raises.
Lemma countBatch_raises id n k : raises not_fuel (countBatch id n k).
Proof. unfold countBatch. raises_auto. Qed.
Lemma recordResult_raises f : raises not_fuel (recordResult f).
Proof. unfold recordResult. raises_auto. Qed.
Lemma archive_raises f : raises not_fuel (archive f).
Proof. intros x d e. unfold archive. repeat case_match; intros; by simplify_eq. Qed.
#[local] Hint Resolve countBatch_raises recordResult_raises archive_raises : raises.
Lemma finish_raises f : raises not_fuel (finish f).
Proof. unfold finish. raises_auto. Qed.
#[local] Hint Resolve finish_raises : raises.
Lemma cancelDependent_raises r : raises not_fuel (cancelDependent r).
Proof. unfold cancelDependent. raises_auto. Qed.
#[local] Hint Resolve cancelDependent_raises : raises.
Lemma visit_raises c dep : raises not_fuel (visit c dep).
Proof. unfold visit, liveRow. raises_auto. Qed.
#[local] Hint Resolve visit_raises : raises.
Lemma visit_all_raises deps : forall c, raises not_fuel (visit_all c deps).
Proof. induction deps; intros; simpl; raises_auto. Qed.
Lemma promoteIfReady_raises id : raises not_fuel (promoteIfReady id).
Proof. unfold promoteIfReady. raises_auto. Qed.
#[local] Hint Resolve visit_all_raises promoteIfReady_raises : raises.
Lemma promote_all_raises deps : forall a b, raises not_fuel (promote_all a b deps).
Proof. induction deps; intros; simpl; raises_auto. Qed.
Lemma drop_edges_raises f : raises not_fuel (drop_edges f).
Proof. unfold drop_edges. raises_auto. Qed.
#[local] Hint Resolve promote_all_raises drop_edges_raises : raises.

Lemma notify_deps c ps : respects (same_of db_deps) (notify c ps).
Proof. destruct ps; unfold notify; frame. Qed.
Lemma archive_deps f : respects (same_of db_deps) (archive f).
Proof. intros x d u d'. unfold archive. repeat case_match; intros; by simplify_eq. Qed.
#[local] Hint Resolve notify_deps archive_deps : respects.
Lemma finish_deps f : respects (same_of db_deps) (finish f).
Proof. unfold finish. frame. Qed.
Lemma recordResult_deps f : respects (same_of db_deps) (recordResult f).
Proof. unfold recordResult. frame. Qed.
#[local] Hint Resolve finish_deps recordResult_deps : respects.
Lemma visit_deps c dep : respects (same_of db_deps) (visit c dep).
Proof. unfold visit, liveRow, cancelDependent. frame. Qed.
#[local] Hint Resolve visit_deps : respects.
Lemma visit_all_deps deps : forall c, respects (same_of db_deps) (visit_all c deps).
Proof. induction deps; intros; simpl; frame. Qed.

Definition edge_ids (d : DB) : gset JobID := list_to_set (List.map d_job_id (db_deps d)).
Definition unseen (d : DB) (c : cascade) : nat := size (edge_ids d ∖ ca_seen c).
Definition measure (d : DB) (c : cascade) : nat := (List.length (ca_queue c) + unseen d c)%nat.

Lemma unseen_visit (ids seen : gset JobID) dep : dep ∈ ids -> dep ∉ seen ->
  size (ids ∖ seen) = S (size (ids ∖ ({[dep]} ∪ seen))).
Proof.
  intros Hi Hs. replace (ids ∖ seen) with ({[dep]} ∪ (ids ∖ ({[dep]} ∪ seen))).
  - rewrite size_union by set_solver. now rewrite size_singleton.
  - apply leibniz_equiv. intros y. destruct (decide (y = dep)); set_solver.
Qed.

Lemma visit_measure c dep x d c' d' : visit c dep x d = Ok (c', d') -> dep ∈ edge_ids d ->
  (measure d c' <= measure d c)%nat.
Proof.
  unfold visit, measure, unseen. case_bool_decide as Hs; intros E Hd; [inv_w; done|].
  unfold liveRow in E. inv_w. pose proof (unseen_visit _ _ _ Hd Hs) as Hu.
  repeat case_match; inv_w; simpl; rewrite ?List.length_app; simpl; lia.
Qed.

Lemma visit_all_measure deps : forall c x d c' d', visit_all c deps x d = Ok (c', d') ->
  (forall dep, In dep deps -> dep ∈ edge_ids d) -> (measure d c' <= measure d c)%nat.
Proof.
  induction deps as [|dep deps IH]; simpl; intros c x d c' d' E Hd; [inv_w; done|].
  apply bind_Ok in E as (c1 & d1 & E1 & E2). pose proof (visit_deps _ _ _ _ _ _ E1) as Hs. unfold same_of in Hs.
  etransitivity; [|eapply visit_measure; eauto].
  specialize (IH c1 x d1 c' d' E2). unfold measure, unseen, edge_ids in *. rewrite Hs in IH. auto.
Qed.

Lemma reached_edge_ids d from dep : In dep (reached d from) -> dep ∈ edge_ids d.
Proof.
  unfold reached, edge_ids. rewrite elem_of_list_to_set, list_elem_of_In, !in_map_iff.
  intros (e & <- & [He _]%In_sel). eauto.
Qed.

(** A fuel of the measure walks to the end. *)
Lemma walk_raises fuel : forall c x d e, (measure d c <= fuel)%nat -> walk fuel c x d = Err e -> not_fuel e.
Proof.
  induction fuel as [|fuel IH]; intros c x d e Hm; simpl; destruct (ca_queue c) as [|from q] eqn:Eq; try done.
  - unfold measure in Hm. rewrite Eq in Hm. simpl in Hm. lia.
  - unfold bind at 1, get. unfold bind.
    destruct (visit_all _ _ _ _) as [[c1 d1]|e1] eqn:Ev; [|intros [= <-]; eapply visit_all_raises; eauto].
    apply IH. pose proof (visit_all_deps _ _ _ _ _ _ Ev) as Hs. unfold same_of in Hs.
    pose proof (visit_all_measure _ _ _ _ _ _ Ev (reached_edge_ids d from)) as Hle.
    unfold measure, unseen, edge_ids in *. rewrite Hs. rewrite Eq in Hm. simpl in *. lia.
Qed.

Lemma edge_ids_size d : (size (edge_ids d) <= List.length (db_deps d))%nat.
Proof.
  unfold edge_ids. rewrite <- (length_map d_job_id). generalize (List.map d_job_id (db_deps d)) as l.
  induction l as [|a l IH]; [done|]. cbn [list_to_set List.length].
  rewrite size_union_alt, size_singleton.
  assert (list_to_set l ∖ {[a]} ⊆ (list_to_set l : gset Z)) as Hs by set_solver. apply subseteq_size in Hs. lia.
Qed.

(** C14: The walk down the dependency graph always ends within the fuel the
    model gives it, cycles included: settling finished jobs never runs out. *)
Theorem tail_terminates done x d : tail done x d <> Err ErrFuel.
Proof.
  assert (raises not_fuel (tail done)) as H; [|intros E; now apply H in E].
  unfold tail. destruct done as [|f done]; [raises_auto|].
  apply raises_bind; [raises_auto|intros dependents]. cbv zeta. intros y d1 e.
  unfold bind at 1, get. unfold bind at 1.
  destruct (walk _ _ _ _) as [[c d2]|e'] eqn:Ew.
  - assert (forall c, raises not_fuel (iterM (fun b => countBatch (bc_batch b) (bc_n b) (bc_failed b)) (batch_counts (ca_done c)) ;;
      promote_all ∅ (ca_canceled c) (List.concat (ca_dependents c)) ;; iterM drop_edges (ca_done c) ;; ret (ca_done c))) as Hr
      by (intros; raises_auto). apply Hr.
  - intros [= <-]. eapply walk_raises; [|exact Ew]. unfold measure, unseen. cbn [ca_queue ca_seen].
    rewrite difference_empty_L. pose proof (edge_ids_size d1). lia.
Qed.

(** ** No pending dependent of a failed job is left *)

(** Pending rows and running ones only go: the tail inserts and changes none. *)
Definition held_back (j : JobRow) : bool := match j_State j with Pending | Running => true | _ => false end.
Definition pending_from (d d' : DB) : Prop :=
  forall j, In j (db_jobs d') -> held_back j = true -> In j (db_jobs d).

#[export] Instance pending_from_preorder : PreOrder pending_from.
Proof. split; [now intros d j|]. intros a b c H1 H2 j Hj Hp. auto. Qed.
#[export] Instance pending_from_jobs : JobsRelation pending_from.
Proof. split; [typeclasses eauto|]. intros d d' (E & _) j. now rewrite E. Qed.

Lemma pending_delete p : respects pending_from (exec_jobs (del p)).
Proof. apply respects_exec_jobs. intros d j [Hj _]%In_del _. exact Hj. Qed.
Lemma pending_update p f : (forall j, p j = true -> held_back (f j) = false) -> respects pending_from (exec_jobs (upd p f)).
Proof.
  intros H. apply respects_exec_jobs. intros d j (y & Hy & ->)%In_upd Hp. destruct (p y) eqn:E; [|done].
  rewrite (H y E) in Hp. discriminate.
Qed.
Lemma pending_same {A} (m : W A) : respects same_jobs m -> respects pending_from m.
Proof. apply respects_same. typeclasses eauto. Qed.
Lemma pending_modify f : (forall d, same_jobs d (f d)) -> respects pending_from (modify f).
Proof. apply respects_modify_same. typeclasses eauto. Qed.
Lemma archive_pending f : respects pending_from (archive f).
Proof. intros x d u d'. unfold archive. repeat case_match; intros; simplify_eq; by intros k. Qed.
#[local] Hint Resolve pending_delete archive_pending : respects.

Ltac pending :=
  repeat first
    [ respects_step
    | solve [auto with respects nocore]
    | solve [apply pending_modify; intros; split; simpl; auto]
    | solve [apply pending_same; auto with respects nocore] ].

Lemma finish_pending f : respects pending_from (finish f).
Proof. unfold finish. pending. Qed.
#[local] Hint Resolve finish_pending : respects.
Lemma recordResult_pending f : respects pending_from (recordResult f).
Proof. unfold recordResult. pending. Qed.
Lemma insertJob_pending j : i_pending j = false -> respects pending_from (insertJob j).
Proof.
  intros Hp. unfold insertJob. pending. intros x d r d' (-> & _ & ->)%insert_row_Ok k.
  simpl. rewrite in_app_iff. intros [Hk|[<-|[]]] Hs; [done|]. unfold held_back in Hs. simpl in Hs. rewrite Hp in Hs. repeat case_match; done.
Qed.
#[local] Hint Resolve recordResult_pending : respects.
Lemma insertCallback_pending s b n : respects pending_from (insertCallback s b n).
Proof. unfold insertCallback. pending; now apply insertJob_pending. Qed.
#[local] Hint Resolve insertCallback_pending : respects.
Lemma countBatch_pending id n k : respects pending_from (countBatch id n k).
Proof. unfold countBatch. pending. Qed.
Lemma promoteIfReady_pending id : respects pending_from (promoteIfReady id).
Proof. unfold promoteIfReady. pending. apply pending_update. intros k _. unfold held_back. simpl. repeat case_match; done. Qed.
#[local] Hint Resolve countBatch_pending promoteIfReady_pending : respects.
Lemma promote_all_pending deps : forall a b, respects pending_from (promote_all a b deps).
Proof. induction deps; intros; simpl; pending. Qed.
Lemma drop_edges_pending f : respects pending_from (drop_edges f).
Proof. unfold drop_edges. pending. Qed.
#[local] Hint Resolve promote_all_pending drop_edges_pending : respects.

Definition fin_id (f : finished) : JobID := j_ID (fin_row f).
Definition not_pending (d : DB) (id : JobID) : Prop := forall j, In j (db_jobs d) -> j_ID j = id -> j_State j <> Pending.

Lemma not_pending_from d d' id : pending_from d d' -> not_pending d id -> not_pending d' id.
Proof. intros H Hn j Hj E Hp. apply (Hn j); auto. apply H; [done|]. unfold held_back. now rewrite Hp. Qed.

(** Every dependent of [id] by a cancel edge has been seen. *)
Definition cancel_seen (d : DB) (seen : gset JobID) (id : JobID) : Prop :=
  forall e, In e (db_deps d) -> d_depends_on e = id -> d_on_failure e = "cancel" -> d_job_id e ∈ seen.

(** The walk's invariant; [pend] are the steps taken off the queue whose
    dependents are being visited. *)
Record walk_inv (d : DB) (pend : list JobID) (c : cascade) : Prop := {
  wi_seen : forall dep, dep ∈ ca_seen c -> not_pending d dep;
  wi_done : forall f, In f (ca_done c) -> failed f = true ->
    In (fin_id f) pend \/ In (fin_id f) (List.map st_id (ca_queue c)) \/ cancel_seen d (ca_seen c) (fin_id f) }.

(** What a visit adds to. *)
Record grows (c c' : cascade) : Prop := {
  gr_seen : ca_seen c ⊆ ca_seen c';
  gr_done : exists more, ca_done c' = (ca_done c ++ more)%list 
    /\ Forall (fun f => fin_state f = Canceled /\ fin_id f ∈ ca_seen c') more }.
#[export] Instance grows_preorder : PreOrder grows.
Proof.
  split; [intros c; split; [done|exists []; now rewrite app_nil_r]|].
  intros a b c [H1 (m1 & E1 & F1)] [H2 (m2 & E2 & F2)]. split; [set_solver|].
  exists (m1 ++ m2)%list. rewrite E2, E1, app_assoc. split; [done|]. apply List.Forall_app. split; [|done].
  eapply List.Forall_impl; [|exact F1]. simpl. set_solver.
Qed.

Lemma finish_gone f x d u d' : finish f x d = Ok (u, d') -> forall j, In j (db_jobs d') -> j_ID j <> fin_id f.
Proof.
  unfold finish. intros H. apply bind_Ok in H as (u1 & d1 & _ & H). apply bind_Ok in H as (u2 & d2 & (_ & ->)%exec_jobs_Ok & H).
  intros j Hj. assert (In j (del (id_is (fin_id f)) (db_jobs d1))) as [_ E]%In_del.
  { destruct (j_Await _); [|inv_w; done]. apply notify_same in H as (E & _). now rewrite E in Hj. }
  unfold id_is in E. now breflect.
Qed.

Lemma cancelDependent_spec r x d f d' : cancelDependent r x d = Ok (f, d') ->
  fin_row f = r /\ fin_state f = Canceled /\ finish f x d = Ok (tt, d').
Proof. unfold cancelDependent. intros H. inv_w. destruct x2. done. Qed.

Lemma liveRow_spec id x d o d' : liveRow id x d = Ok (o, d') -> d' = d /\ o = one (id_is id) (db_jobs d).
Proof. unfold liveRow, get. now intros [= <- <-]. Qed.

(** A visit marks the dependent seen, queues its step and may add it to the
    finished jobs. *)
Lemma walk_inv_extend d d' pend c c' dep s more :
  walk_inv d pend c -> pending_from d d' -> db_deps d' = db_deps d -> not_pending d' dep ->
  ca_seen c' = {[dep]} ∪ ca_seen c -> ca_queue c' = (ca_queue c ++ [s])%list -> ca_done c' = (ca_done c ++ more)%list ->
  st_id s = dep -> (forall f, In f more -> fin_id f = st_id s /\ fin_state f = Canceled) ->
  walk_inv d' pend c' /\ dep ∈ ca_seen c' /\ grows c c'.
Proof.
  intros [Hs Hd] Hp Hdeps Hn Es Eq Ed Hst Hmore. split_and!; [split| |split].
  - rewrite Es. intros k [->%elem_of_singleton|Hk]%elem_of_union; [done|]. eapply not_pending_from; eauto.
  - rewrite Ed, Eq, Es, map_app. intros f [Hf|Hf]%in_app_iff Hfl.
    + destruct (Hd f Hf Hfl) as [H|[H|H]]; [auto|right; left; apply in_app_iff; auto|].
      do 2 right. intros e He E1 E2. rewrite Hdeps in He. apply elem_of_union. right. now apply (H e).
    + right. left. apply in_app_iff. right. simpl. left. symmetry. now apply Hmore.
  - rewrite Es. set_solver.
  - rewrite Es. set_solver.
  - exists more. split; [done|]. apply List.Forall_forall. intros f Hf.
    destruct (Hmore f Hf) as [Hid Hc]. split; [done|]. rewrite Hid, Hst, Es. set_solver.
Qed.

Lemma one_pending d id : wf d -> (forall r, one (id_is id) (db_jobs d) = Some r -> j_State r <> Pending) -> not_pending d id.
Proof.
  intros Hw H j Hj Ej. destruct (one (id_is id) (db_jobs d)) as [r|] eqn:E.
  - apply one_Some in E as [Hr Hi]. unfold id_is in Hi. breflect.
    assert (j = r) as -> by (eapply wf_unique_id; eauto; congruence). auto.
  - rewrite one_None in E. specialize (E j Hj). unfold id_is in E. breflect. congruence.
Qed.

Lemma visit_inv c dep x d c' d' pend : wf d -> walk_inv d pend c -> visit c dep x d = Ok (c', d') ->
  walk_inv d' pend c' /\ dep ∈ ca_seen c' /\ grows c c'.
Proof.
  intros Hw Hi E. unfold visit in E. case_bool_decide as Hdep; [inv_w; split_and!; [done|done|reflexivity]|].
  apply bind_Ok in E as (row & d1 & [-> ->]%liveRow_spec & E).
  destruct (one (id_is dep) (db_jobs d)) as [r|] eqn:Er; [destruct (negb _) eqn:Est|].
  - inv_w. apply (walk_inv_extend d d pend c _ dep (mkStep dep 0 false) []); try done; [|symmetry; apply app_nil_r].
    apply one_pending; [done|]. intros r' Er'. breflect. rewrite state_eqb_neq in Est. congruence.
  - apply bind_Ok in E as (f & d2 & Ec & E). apply bind_Ok in E as (deps & d3 & Erec & E). inv_w.
    pose proof (cancelDependent_spec _ _ _ _ _ Ec) as (Ef & Ecan & Efin).
    assert (pending_from d d3) as Hp.
    { transitivity d2; [eapply finish_pending; eauto|eapply recordResult_pending; eauto]. }
    apply (walk_inv_extend d d3 pend c _ dep (mkStep dep (idOf (j_BatchID r)) true) [f]); try done.
    + pose proof (finish_deps _ _ _ _ _ Efin) as H1. pose proof (recordResult_deps _ _ _ _ _ Erec) as H2.
      unfold same_of in *. congruence.
    + apply one_Some in Er as [_ Ei]. unfold id_is in Ei. breflect. rewrite <- Ei.
      intros j Hj Ej. exfalso. apply (finish_gone _ _ _ _ _ Efin j); [|unfold fin_id; congruence].
      unfold recordResult in Erec. inv_w. destruct (_ || _); inv_w; done.
    + intros g [<-|[]]. apply one_Some in Er as [_ Ei]. unfold id_is in Ei. breflect. split; [unfold fin_id; simpl; congruence|done].
  - inv_w. apply (walk_inv_extend d d pend c _ dep (mkStep dep 0 false) []); try done; [|symmetry; apply app_nil_r].
    apply one_pending; [done|]. intros r' Er'. congruence.
Qed.

Lemma visit_all_inv deps : forall c x d c' d' pend, wf d -> walk_inv d pend c -> visit_all c deps x d = Ok (c', d') ->
  walk_inv d' pend c' /\ (forall dep, In dep deps -> dep ∈ ca_seen c') /\ grows c c'.
Proof.
  induction deps as [|dep deps IH]; simpl; intros c x d c' d' pend Hw Hi E; [inv_w; split_and!; [done|done|reflexivity]|].
  apply bind_Ok in E as (c1 & d1 & E1 & E2). destruct (visit_inv _ _ _ _ _ _ _ Hw Hi E1) as (H1 & H2 & H3).
  pose proof (visit_advances _ _ _ _ _ _ E1 Hw) as [Hw1 _].
  destruct (IH _ _ _ _ _ _ Hw1 H1 E2) as (H4 & H5 & H6). split_and!; [done| |now transitivity c1].
  intros k [<-|Hk]; [|auto]. destruct H6 as [H6 _]. set_solver.
Qed.

Lemma walk_inv_end fuel : forall c x d c' d', wf d -> walk_inv d [] c -> walk fuel c x d = Ok (c', d') ->
  walk_inv d' [] c' /\ ca_queue c' = [] /\ grows c c' /\ db_deps d' = db_deps d.
Proof.
  induction fuel as [|fuel IH]; intros c x d c' d' Hw Hi; simpl; destruct (ca_queue c) as [|from q] eqn:Eq;
    intros E; try (inv_w; split_and!; [done|done|reflexivity|reflexivity]); [done|].
  apply bind_Ok in E as (deps & d0 & Eg & E). unfold get in Eg. injection Eg as <- <-.
  apply bind_Ok in E as (c1 & d1 & E1 & E).
  assert (walk_inv d [st_id from] (c <| ca_queue := q |>)) as Hi0.
  { destruct Hi as [Hs Hd]. split; [done|]. intros f Hf Hfl. destruct (Hd f Hf Hfl) as [[]|[H|H]]; [|now right; right].
    rewrite Eq in H. destruct H as [H|H]; [left; now left|now right; left]. }
  destruct (visit_all_inv _ _ _ _ _ _ _ Hw Hi0 E1) as ([Hs Hd] & Hseen & Hg).
  pose proof (visit_all_advances _ _ _ _ _ _ E1 Hw) as [Hw1 _].
  pose proof (visit_all_deps _ _ _ _ _ _ E1) as Hdeps. unfold same_of in Hdeps.
  assert (walk_inv d1 [] c1) as Hi1.
  { split; [done|]. intros f Hf Hfl. destruct (Hd f Hf Hfl) as [[Ef|[]]|H]; [|now right].
    do 2 right. intros e He E1' E2'. apply Hseen. unfold reached. apply in_map, In_sel. rewrite Hdeps in He. split; [done|].
    unfold depends_on_is. rewrite E1', <- Ef, Z.eqb_refl, E2'. done. }
  destruct (IH _ _ _ _ _ Hw1 Hi1 E) as (H1 & H2 & H3 & H4). split_and!; [done|done| |congruence].
  transitivity c1; [|done]. destruct Hg as [Hg1 Hg2]. split; done.
Qed.

(** ** The whole tail *)

(** What the tail does after the walk. *)
Definition after_walk (c : cascade) : W (list finished) :=
  iterM (fun b => countBatch (bc_batch b) (bc_n b) (bc_failed b)) (batch_counts (ca_done c)) ;;
  promote_all ∅ (ca_canceled c) (List.concat (ca_dependents c)) ;;
  iterM drop_edges (ca_done c) ;;
  ret (ca_done c).

Lemma after_walk_pending c : respects pending_from (after_walk c).
Proof. unfold after_walk. pending. Qed.

Definition start_cascade (done : list finished) (dependents : list (list JobID)) : cascade :=
  mkCascade (List.map (fun f => mkStep (fin_id f) (idOf (j_BatchID (fin_row f))) true) (List.filter failed done)) ∅ ∅ done dependents.

Lemma tail_split done x d all d' : wf d -> tail done x d = Ok (all, d') -> done <> [] ->
  exists dependents c d1 d2 fuel,
    mapM recordResult done x d = Ok (dependents, d1) /\ wf d1
    /\ walk fuel (start_cascade done dependents) x d1 = Ok (c, d2)
    /\ after_walk c x d2 = Ok (all, d').
Proof.
  intros Hw E Hne. unfold tail in E. destruct done as [|f0 done]; [done|].
  apply bind_Ok in E as (dependents & d1 & E1 & E). cbv zeta in E. apply bind_Ok in E as (n & d1' & Eg & E).
  unfold get in Eg. injection Eg as <- <-. apply bind_Ok in E as (c & d2 & E2 & E).
  exists dependents, c, d1, d2. eexists. split_and!; [exact E1| |exact E2|exact E].
  assert (respects advances (mapM recordResult (f0 :: done))) as Ha by advance. now destruct (Ha _ _ _ _ E1 Hw).
Qed.

Lemma start_inv d done dependents : walk_inv d [] (start_cascade done dependents).
Proof.
  split; [set_solver|]. intros f Hf Hfl. right. left. unfold start_cascade. simpl. rewrite map_map.
  apply in_map_iff. exists f. split; [done|]. now apply filter_In.
Qed.

(** C12: Settling finished jobs cancels down the graph.  The jobs settled are
    the ones given and canceled dependents, and of every failed job among them,
    no dependent whose edge says cancel is left pending. *)
Theorem tail_cascades done x d all d' : wf d -> tail done x d = Ok (all, d') ->
  (exists more, all = (done ++ more)%list /\ Forall (fun f => fin_state f = Canceled) more)
  /\ forall f e, In f all -> failed f = true -> In e (db_deps d) -> d_depends_on e = fin_id f ->
       d_on_failure e = "cancel" -> not_pending d' (d_job_id e).
Proof.
  intros Hw E. destruct done as [|f0 done'] eqn:Ed.
  { unfold tail in E. inv_w. split; [exists []; auto|]. intros f e []. }
  rewrite <- Ed in *. destruct (tail_split done x d all d' Hw E) as (deps & c & d1 & d2 & fuel & E1 & Hw1 & E2 & E3); [congruence|].
  destruct (walk_inv_end _ _ _ _ _ _ Hw1 (start_inv d1 done deps) E2) as ([Hs Hd] & Hq & [_ (more & Hdone & Hmore)] & Hdeps).
  pose proof (after_walk_pending c _ _ _ _ E3) as Hp.
  assert (all = ca_done c) as -> by (unfold after_walk in E3; inv_w; done).
  split; [exists more; split; [done|]; eapply List.Forall_impl; [|exact Hmore]; now intros g [? _]|]. intros f e Hf Hfl He E4 E5. eapply not_pending_from; [exact Hp|].
  destruct (Hd f Hf Hfl) as [[]|[Hin|Hc]]; [now rewrite Hq in Hin|]. apply Hs, (Hc e); [|done|done].
  rewrite Hdeps. assert (respects (same_of db_deps) (mapM recordResult done)) as Hr by frame.
  pose proof (Hr _ _ _ _ E1) as Hr1. unfold same_of in Hr1. now rewrite Hr1.
Qed.

(** ** Every ready dependent is promoted *)

Lemma ex_sel {A} (P Q : A -> bool) t : ex (fun a => P a && Q a) t = ex Q (sel P t).
Proof. induction t as [|a t IH]; simpl; [done|]. destruct (P a); simpl; now rewrite IH. Qed.
Lemma ex_ext_in {A} (P Q : A -> bool) t : (forall a, In a t -> P a = Q a) -> ex P t = ex Q t.
Proof. induction t as [|a t IH]; simpl; intros H; [done|]. rewrite (H a), IH; auto. Qed.

Definition edges_of (d : DB) (id : JobID) : list DepRow := sel (fun e => d_job_id e =? id) (db_deps d).

Lemma no_live_dependency_edges d id :
  no_live_dependency d id = negb (ex (fun e => is_null (d_any_of e) && live_id d (d_depends_on e)) (edges_of d id)).
Proof. unfold no_live_dependency, edges_of. rewrite <- ex_sel. f_equal. apply ex_ext_in. intros e _. now rewrite andb_assoc. Qed.

Lemma anyOfReady_edges d j :
  anyOfReady d j = negb (ex (fun g => not_null (d_any_of g)
      && (String.eqb (d_on_failure g) "any_cancel" || live_id d (d_depends_on g))
      && negb (ex (fun s => null_eq Z.eqb (d_any_of s) (d_any_of g) && anyOfSatisfied d (j_BatchID j) s) (edges_of d (j_ID j))))
    (edges_of d (j_ID j))).
Proof.
  unfold anyOfReady, edges_of. rewrite <- ex_sel. f_equal. apply ex_ext_in. intros g _.
  destruct (d_job_id g =? j_ID j) eqn:E; [|done]. breflect. rewrite <- ex_sel. rewrite !andb_true_l. do 2 f_equal.
  apply ex_ext_in. intros s _. unfold same_group. now rewrite E, andb_assoc.
Qed.

(** Readiness reads the live IDs, the job's edges and the results. *)
Lemma ready_frame d d' j :
  (forall id, live_id d' id = live_id d id) -> db_results d' = db_results d ->
  edges_of d' (j_ID j) = edges_of d (j_ID j) -> ready d' j = ready d j.
Proof.
  intros Hl Hr He. unfold ready. rewrite !no_live_dependency_edges, !anyOfReady_edges, He.
  assert (forall b s, anyOfSatisfied d' b s = anyOfSatisfied d b s) as Hs
    by (intros; unfold anyOfSatisfied; now rewrite Hl, Hr).
  f_equal; [f_equal|]; f_equal; apply ex_ext_in; intros g _; rewrite Hl; [done|].
  f_equal. f_equal. apply ex_ext_in. intros s _. now rewrite Hs.
Qed.

Definition unready (d : DB) (id : JobID) : Prop := forall j, In j (db_jobs d) -> j_ID j = id -> ready d j = false.

Lemma not_pending_unready d id : not_pending d id -> unready d id.
Proof.
  intros H j Hj E. unfold ready. specialize (H j Hj E). apply state_eqb_neq in H. now rewrite H.
Qed.

(** Steps that keep a job's readiness: no live ID comes or goes, and neither
    results nor the job's edges change. *)
Record keeps_ready (id : JobID) (d d' : DB) : Prop := {
  kr_live : forall i, live_id d' i = live_id d i;
  kr_results : db_results d' = db_results d;
  kr_edges : edges_of d' id = edges_of d id;
  kr_pending : pending_from d d' }.
#[export] Instance keeps_ready_preorder id : PreOrder (keeps_ready id).
Proof.
  split; [intros d; split; done|]. intros a b c [] []. split; try congruence. etransitivity; eauto.
Qed.

Lemma keeps_unready id d d' : keeps_ready id d d' -> unready d id -> unready d' id.
Proof.
  intros [H1 H2 H3 H4] Hu j Hj E. destruct (state_eqb (j_State j) Pending) eqn:Es.
  - rewrite (ready_frame d d' j); [|done|done|now rewrite E]. apply Hu; [|done]. apply H4; [done|]. unfold held_back. apply state_eqb_eq in Es. now rewrite Es.
  - unfold ready. now rewrite Es.
Qed.

Lemma keeps_ready_same id {A} (m : W A) :
  respects same_jobs m -> respects (same_of db_deps) m -> respects (same_of db_results) m -> respects (keeps_ready id) m.
Proof.
  intros H1 H2 H3 x d a d' E. apply H2 in E as E2. apply H3 in E as E3. apply H1 in E as (Ej & _). unfold same_of in *.
  split; unfold live_id, edges_of; rewrite ?Ej, ?E2; try done. intros j. now rewrite Ej.
Qed.

Lemma notify_results c ps : respects (same_of db_results) (notify c ps).
Proof. destruct ps; unfold notify; frame. Qed.
#[local] Hint Resolve notify_results : respects.

Lemma promote_keeps id dep now : respects (keeps_ready id) (exec_jobs (upd (id_is dep) (promote_row now))).
Proof.
  intros x d u d' E. pose proof E as (_ & ->)%exec_jobs_Ok. split; simpl; try done.
  - intros i. unfold live_id, upd. simpl. clear. induction (db_jobs d) as [|j t IH]; simpl; [done|]. rewrite IH. f_equal. now case_match.
  - eapply pending_update; [|exact E]. intros j _. simpl. unfold held_back; simpl; repeat case_match; done.
Qed.

Lemma promoteIfReady_keeps id dep : respects (keeps_ready id) (promoteIfReady dep).
Proof.
  unfold promoteIfReady. respects_auto; [apply promote_keeps|]. apply keeps_ready_same; auto with respects.
Qed.

Lemma promoteIfReady_unready id x d b d' : promoteIfReady id x d = Ok (b, d') -> unready d' id.
Proof.
  unfold promoteIfReady. intros E. apply bind_Ok in E as (row & d0 & Eg & E). unfold get in Eg. injection Eg as <- <-.
  destruct (one _ _) as [r|] eqn:Er.
  - apply bind_Ok in E as (now & d1 & En & E). unfold us in En. injection En as <- <-.
    apply bind_Ok in E as (u & d1 & (_ & ->)%exec_jobs_Ok & E). apply bind_Ok in E as (u' & d2 & En & E). inv_w.
    apply not_pending_unready. intros j Hj Ej. apply notify_same in En as (Eq & _). rewrite Eq in Hj. simpl in Hj.
    apply In_upd in Hj as (k & Hk & ->). destruct (id_is id k) eqn:Ek; [simpl; now case_match|].
    unfold id_is in Ek. breflect. congruence.
  - inv_w. rewrite one_None in Er. intros j Hj Ej. specialize (Er j Hj). unfold id_is in Er.
    now rewrite Ej, Z.eqb_refl in Er.
Qed.

Lemma promote_all_keeps id deps : forall a b, respects (keeps_ready id) (promote_all a b deps).
Proof. induction deps; intros; simpl; respects_auto. apply promoteIfReady_keeps. Qed.

Lemma promote_all_unready deps : forall considered canceled x d u d',
  promote_all considered canceled deps x d = Ok (u, d') ->
  (forall dep, dep ∈ considered \/ dep ∈ canceled -> unready d dep) ->
  forall dep, In dep deps -> unready d' dep.
Proof.
  induction deps as [|dep deps IH]; simpl; intros considered canceled x d u d' E H k Hk; [done|].
  destruct (bool_decide (dep ∈ considered) || bool_decide (dep ∈ canceled)) eqn:Eb.
  - destruct Hk as [<-|Hk]; [|eapply IH; eauto]. eapply keeps_unready; [eapply promote_all_keeps; exact E|].
    apply H. apply orb_true_iff in Eb. rewrite !bool_decide_eq_true in Eb. tauto.
  - apply bind_Ok in E as (b & d1 & E1 & E). pose proof (promoteIfReady_unready _ _ _ _ _ E1) as Hu.
    destruct Hk as [<-|Hk]; [eapply keeps_unready; [eapply promote_all_keeps; exact E|done]|].
    eapply IH; [exact E| |exact Hk]. intros i Hi.
    destruct (decide (i = dep)) as [->|Hne]; [done|]. eapply keeps_unready; [eapply promoteIfReady_keeps; exact E1|].
    apply H. set_solver.
Qed.

Lemma drop_edges_keeps id f : fin_id f <> id -> respects (keeps_ready id) (drop_edges f).
Proof.
  intros Hne. apply respects_modify. intros d. split; [done|done| |now intros j]. unfold edges_of. simpl. clear -Hne. unfold sel, del, fin_id in *.
  induction (db_deps d) as [|e t IH]; simpl; [done|]. destruct (d_job_id e =? j_ID (fin_row f)) eqn:E1, (d_job_id e =? id) eqn:E2;
    simpl; rewrite ?E2, IH; try done. breflect. congruence.
Qed.

Lemma drop_edges_unready done id x d u d' : iterM drop_edges done x d = Ok (u, d') ->
  (forall f, In f done -> not_pending d (fin_id f)) -> unready d id -> unready d' id.
Proof.
  intros E Hn Hu. destruct (in_dec Z.eq_dec id (List.map fin_id done)) as [(f & <- & Hf)%in_map_iff|Hni].
  - apply not_pending_unready. eapply not_pending_from; [|apply Hn, Hf].
    assert (respects pending_from (iterM drop_edges done)) as Hr by pending. eapply Hr; exact E.
  - eapply keeps_unready; [|exact Hu]. clear Hn Hu. revert x d u d' E. induction done as [|f done IH]; simpl; intros x d u d' E.
    + inv_w. reflexivity.
    + apply bind_Ok in E as (u1 & d1 & E1 & E). transitivity d1; [|eapply IH; eauto; simpl in Hni; tauto].
      eapply drop_edges_keeps; [|exact E1]. intros Ef. apply Hni. now left.
Qed.

(** The dependents recorded with each finished job. *)
Definition dependents_of (deps : list DepRow) (f : finished) : list JobID :=
  List.map d_job_id (sel (depends_on_is (fin_id f)) deps).
Definition dependents_ok (d : DB) (c : cascade) : Prop := ca_dependents c = List.map (dependents_of (db_deps d)) (ca_done c).

Lemma recordResult_dependents f x d ids d' : recordResult f x d = Ok (ids, d') -> ids = dependents_of (db_deps d) f.
Proof. unfold recordResult. intros H. inv_w. destruct (_ || _); inv_w; done. Qed.

Lemma visit_dependents c dep x d c' d' : dependents_ok d c -> visit c dep x d = Ok (c', d') ->
  dependents_ok d c' /\ (ca_canceled c ⊆ ca_seen c -> ca_canceled c' ⊆ ca_seen c').
Proof.
  intros Hd E. unfold visit in E. case_bool_decide; [inv_w; done|].
  apply bind_Ok in E as (row & d1 & [-> ->]%liveRow_spec & E).
  repeat case_match; inv_w; try (split; [done|set_solver]).
  match goal with H : cancelDependent _ _ _ = _ |- _ => pose proof (cancelDependent_spec _ _ _ _ _ H) as (_ & _ & Hfin) end.
  match goal with H : recordResult _ _ _ = _ |- _ => apply recordResult_dependents in H as -> end.
  split; [|set_solver]. unfold dependents_ok in *. simpl. rewrite map_app, Hd. simpl.
  apply finish_deps in Hfin. unfold same_of in Hfin. now rewrite Hfin.
Qed.

Lemma visit_all_dependents deps : forall c x d c' d', dependents_ok d c -> visit_all c deps x d = Ok (c', d') ->
  dependents_ok d c' /\ (ca_canceled c ⊆ ca_seen c -> ca_canceled c' ⊆ ca_seen c').
Proof.
  induction deps as [|dep deps IH]; simpl; intros c x d c' d' Hd E; [inv_w; done|].
  apply bind_Ok in E as (c1 & d1 & E1 & E2). destruct (visit_dependents _ _ _ _ _ _ Hd E1) as [H1 H2].
  apply visit_deps in E1 as Hs. unfold same_of, dependents_ok in *. rewrite <- Hs in *.
  destruct (IH _ _ _ _ _ H1 E2) as [H3 H4]. split; auto.
Qed.

Lemma walk_dependents fuel : forall c x d c' d', dependents_ok d c -> walk fuel c x d = Ok (c', d') ->
  dependents_ok d c' /\ (ca_canceled c ⊆ ca_seen c -> ca_canceled c' ⊆ ca_seen c').
Proof.
  induction fuel as [|fuel IH]; intros c x d c' d' Hd; simpl; destruct (ca_queue c) as [|from q]; intros E;
    try (inv_w; done).
  apply bind_Ok in E as (deps & d0 & Eg & E). unfold get in Eg. injection Eg as <- <-.
  apply bind_Ok in E as (c1 & d1 & E1 & E).
  destruct (fun H => visit_all_dependents _ _ _ _ _ _ H E1) as [H1 H2]; [exact Hd|].
  apply visit_all_deps in E1 as Hs. unfold same_of, dependents_ok in *. rewrite <- Hs in *.
  destruct (IH _ _ _ _ _ H1 E) as [H3 H4]. split; auto.
Qed.

Lemma walk_pending fuel : forall c, respects pending_from (walk fuel c).
Proof.
  assert (forall c dep, respects pending_from (visit c dep)) as Hv by (intros; unfold visit, liveRow, cancelDependent; pending).
  assert (forall deps c, respects pending_from (visit_all c deps)) as Hva by (induction deps; intros; simpl; pending).
  induction fuel; intros; simpl; pending.
Qed.

Lemma mapM_recordResult done : forall x d deps d', mapM recordResult done x d = Ok (deps, d') ->
  deps = List.map (dependents_of (db_deps d)) done.
Proof.
  induction done as [|f done IH]; simpl; intros x d deps d' E; inv_w; [done|].
  apply IH in H0 as ->. apply recordResult_deps in H as Hd. unfold same_of in Hd. apply recordResult_dependents in H as ->.
  now rewrite Hd.
Qed.

Lemma count_all_pending done :
  respects pending_from (iterM (fun b => countBatch (bc_batch b) (bc_n b) (bc_failed b)) (batch_counts done)).
Proof. pending. Qed.

Lemma after_walk_unready c x d all d' dep : after_walk c x d = Ok (all, d') ->
  (forall f, In f (ca_done c) -> not_pending d (fin_id f)) -> (forall k, k ∈ ca_canceled c -> not_pending d k) ->
  In dep (List.concat (ca_dependents c)) -> unready d' dep.
Proof.
  unfold after_walk. intros E Hdone Hcan Hdep. apply bind_Ok in E as (u1 & d1 & E1 & E).
  apply bind_Ok in E as (u2 & d2 & E2 & E). apply bind_Ok in E as (u3 & d3 & E3 & E). inv_w.
  assert (pending_from d d1) as Hp1 by (eapply (count_all_pending (ca_done c)); exact E1).
  assert (pending_from d1 d2) as Hp2 by (eapply promote_all_pending; exact E2).
  eapply drop_edges_unready; [exact E3| |].
  - intros f Hf. eapply not_pending_from; [etransitivity; [exact Hp1|exact Hp2]|]. auto.
  - eapply promote_all_unready; [exact E2| |exact Hdep]. intros k [Hk|Hk]; [set_solver|].
    apply not_pending_unready. eapply not_pending_from; [exact Hp1|]. auto.
Qed.

(** C13: No wake-up is lost.  When the jobs settled are no longer pending, then
    after the tail no dependent of any job it settled, given or canceled by it,
    is left pending while ready to run. *)
Theorem tail_promotes done x d all d' : wf d -> (forall f, In f done -> not_pending d (fin_id f)) ->
  tail done x d = Ok (all, d') ->
  forall f e, In f all -> In e (db_deps d) -> d_depends_on e = fin_id f -> unready d' (d_job_id e).
Proof.
  intros Hw Hnp E f e Hf He Ee. destruct done as [|f0 done'] eqn:Ed; [unfold tail in E; inv_w; done|].
  rewrite <- Ed in *. destruct (tail_split done x d all d' Hw E) as (deps & c & d1 & d2 & fuel & E1 & Hw1 & E2 & E3); [congruence|].
  assert (db_deps d1 = db_deps d) as Hdeps1 by (assert (respects (same_of db_deps) (mapM recordResult done)) as Hr by frame; apply (Hr _ _ _ _ E1)).
  assert (pending_from d d1) as Hp1 by (assert (respects pending_from (mapM recordResult done)) as Hr by pending; apply (Hr _ _ _ _ E1)).
  destruct (walk_inv_end _ _ _ _ _ _ Hw1 (start_inv d1 done deps) E2) as ([Hs _] & _ & [_ (more & Hdone & Hmore)] & _).
  pose proof (walk_pending _ _ _ _ _ _ E2) as Hp2.
  assert (dependents_ok d1 (start_cascade done deps)) as Hok.
  { unfold dependents_ok. simpl. rewrite Hdeps1. eapply mapM_recordResult; exact E1. }
  destruct (walk_dependents _ _ _ _ _ _ Hok E2) as [Hdep Hcan]. specialize (Hcan ltac:(set_solver)).
  assert (forall g, In g (ca_done c) -> not_pending d2 (fin_id g)) as Hnp2.
  { intros g. rewrite Hdone. intros [Hg|Hg]%in_app_iff.
    - eapply not_pending_from; [exact Hp2|]. eapply not_pending_from; [exact Hp1|]. auto.
    - rewrite List.Forall_forall in Hmore. apply Hs, Hmore, Hg. }
  assert (all = ca_done c) as -> by (unfold after_walk in E3; inv_w; done).
  eapply after_walk_unready; [exact E3|exact Hnp2| |].
  - intros k Hk. apply Hs. set_solver.
  - rewrite Hdep, Hdeps1. apply in_concat. exists (dependents_of (db_deps d) f). split; [now apply in_map|].
    apply in_map, In_sel. split; [done|]. unfold depends_on_is. rewrite Ee. apply Z.eqb_refl.
Qed.

(** ** Results and claims *)

(** Whether the job of a live row runs in the claim a result names. *)
Definition owned (d : DB) (j : JobRow) (f : JobFinalize) : bool :=
  match f_Lease f with
  | Some l => is_running j && (AttemptedBy j =? 0) && (j_Fence j =? lf_Fence l)
              && (cnt (lease_is (j_ID j) (lf_Token l) (lf_Fence l)) (db_leases d) =? 1)
  | None => is_running j && negb (AttemptedBy j =? 0) && (AttemptedBy j =? f_AttemptedBy f) && (j_Fence j =? f_Fence f)
  end.

Lemma owns_owned j f x d : owns j f x d = Ok (owned d j f, d).
Proof.
  unfold owns, owned, leaseOwns, is_running. destruct (f_Lease f) as [l|]; [|done].
  destruct (state_eqb _ _), (AttemptedBy j =? 0), (j_Fence j =? lf_Fence l); done.
Qed.

Lemma applyResult_unowned keep r x d :
  (forall j, In j (db_jobs d) -> j_ID j = f_ID (re_f r) -> owned d j (re_f r) = false) ->
  applyResult keep r x d = Ok (None, d).
Proof.
  intros H. unfold applyResult, liveRow. unfold bind at 1, get at 1.
  destruct (one _ _) as [j|] eqn:E; [|done]. apply one_Some in E as [Hj Hi]. unfold id_is in Hi. breflect.
  unfold bind at 1. rewrite owns_owned, (H j Hj Hi). done.
Qed.

Lemma encodeResults_f fs rs : encodeResults fs = Ok rs -> List.map re_f rs = fs.
Proof.
  revert rs. induction fs as [|f fs IH]; simpl; intros rs; [now intros [= <-]|].
  destruct (encodeResult f) as [r|] eqn:E; [|done]. destruct (encodeResults fs) as [rs'|]; [|done].
  intros [= <-]. simpl. f_equal; [|auto]. unfold encodeResult in E. repeat case_match; now simplify_eq.
Qed.

Lemma finalizeAll_unowned params rs x d :
  (forall r j, In r rs -> In j (db_jobs d) -> j_ID j = f_ID (re_f r) -> owned d j (re_f r) = false) ->
  finalizeAll params rs x d = Ok ([], d).
Proof.
  intros H. assert (mapM (applyResult (keepLogs (fp_KeepLogs params))) rs x d = Ok (List.map (fun _ => None) rs, d)) as Hm.
  { induction rs as [|r rs IH]; [done|]. simpl. unfold bind at 1.
    rewrite applyResult_unowned by (intros; apply H; simpl; auto). unfold bind. rewrite IH by (intros; apply H; simpl; auto). done. }
  unfold finalizeAll. unfold bind at 1. rewrite Hm.
  assert (forall {B} (g : option (JobFinalized * option finished) -> list B), g None = [] ->
            List.flat_map g (List.map (fun _ => None) rs) = []) as Hnil.
  { intros B g Hg. clear -Hg. induction rs; simpl; [done|]. now rewrite Hg. }
  rewrite !Hnil by done. destruct (fp_NoBatches params); done.
Qed.

(** Results whose claims are over change nothing: if no live job runs in
    the claim of any result of a call, the call reports nothing applied (or the
    error of a malformed result) and leaves the database exactly as it was. *)
Theorem stale_results_ignored params busy x d :
  (forall f j, In f (fp_Jobs params) -> In j (db_jobs d) -> j_ID j = f_ID f -> owned d j f = false) ->
  snd (JobFinalizeMany params busy x d) = d
  /\ (fst (JobFinalizeMany params busy x d) = Ok [] \/ exists e, fst (JobFinalizeMany params busy x d) = Err e).
Proof.
  intros H. unfold JobFinalizeMany. destruct (fp_Jobs params) as [|f0 fs] eqn:Ef; [simpl; auto|]. rewrite <- Ef in *.
  destruct (encodeResults _) as [rs|e] eqn:Ee; [|simpl; eauto].
  destruct (_ && fp_SkipLocked params); [simpl; eauto|]. destruct (existsb _ _); [simpl; eauto|].
  destruct (_ && busy); [simpl; auto|]. apply encodeResults_f in Ee.
  unfold write. rewrite finalizeAll_unowned; [simpl; auto|]. intros r j Hr. apply H. rewrite <- Ee. now apply in_map.
Qed.

(** ** What a result does *)

Lemma wf_row_ok d j : wf d -> In j (db_jobs d) -> row_ok j = true.
Proof. intros [(H & _)%jobs_ok_spec _ _]. auto. Qed.

Lemma one_id d j : wf d -> In j (db_jobs d) -> one (id_is (j_ID j)) (db_jobs d) = Some j.
Proof.
  intros Hw Hj. destruct (one _ _) as [k|] eqn:E.
  - apply one_Some in E as [Hk Hi]. unfold id_is in Hi. breflect. f_equal. eapply wf_unique_id; eauto.
  - rewrite one_None in E. specialize (E j Hj). unfold id_is in E. now rewrite Z.eqb_refl in E.
Qed.

(** Finishing a live job in a final state always goes through. *)
Lemma finish_runs f x d : wf d -> In (fin_row f) (db_jobs d) -> Terminal (fin_state f) = true ->
  exists d', finish f x d = Ok (tt, d') /\ db_jobs d' = del (id_is (fin_id f)) (db_jobs d) /\ db_leases d' = db_leases d
  /\ db_history d' = (if fin_archive f
       then db_history d ++ [archive_row (next_rowid (db_history d)) (fin_row f) f (w_now x)] else db_history d)%list.
Proof.
  intros Hw Hj Ht. unfold finish. set (A := if fin_archive f then archive f else ret tt).
  assert (exists d1, A x d = Ok (tt, d1) /\ db_jobs d1 = db_jobs d /\ db_leases d1 = db_leases d /\ db_history d1 = (if fin_archive f
       then db_history d ++ [archive_row (next_rowid (db_history d)) (fin_row f) f (w_now x)] else db_history d)%list)
    as (d1 & E1 & Ej & El & Eh).
  { unfold A. destruct (fin_archive f); [|exists d; auto]. unfold archive. rewrite (one_id d _ Hw Hj), Ht.
    pose proof (wf_row_ok d _ Hw Hj) as Hr. unfold row_ok in Hr. breflect. rewrite H0. simpl. eexists. split; [reflexivity|done]. }
  unfold bind at 1. rewrite E1. unfold bind at 1, exec_jobs. rewrite Ej, (jobs_ok_del _ _ (wf_jobs _ Hw)).
  destruct (j_Await (fin_row f)).
  - unfold notify. simpl. eexists. split; [reflexivity|]. simpl. rewrite El. done.
  - eexists. split; [reflexivity|]. simpl. rewrite El. done.
Qed.

(** An UPDATE of one job's row by its ID. *)
Lemma In_upd_id d j f k : wf d -> In j (db_jobs d) ->
  In k (upd (id_is (j_ID j)) f (db_jobs d)) <-> k = f j \/ (In k (db_jobs d) /\ k <> j).
Proof.
  intros Hw Hj. rewrite In_upd. unfold id_is. split.
  - intros (y & Hy & ->). destruct (j_ID y =? j_ID j) eqn:E; breflect.
    + left. f_equal. eapply wf_unique_id; eauto.
    + right. split; [done|]. congruence.
  - intros [->|[Hk Hne]].
    + exists j. now rewrite Z.eqb_refl.
    + exists k. split; [done|]. destruct (j_ID k =? j_ID j) eqn:E; [|done]. breflect. exfalso. apply Hne.
      eapply wf_unique_id; eauto.
Qed.

(** A released row: its claim is over, the fence kept, and the attempt given
    back by a snooze or an interruption. *)
Record released (f : JobFinalize) (now : Z) (j j' : JobRow) : Prop := {
  rl_id : j_ID j' = j_ID j;
  rl_seq : j_seq j' = j_seq j;
  rl_state : j_State j' = f_State f;
  rl_owner : j_AttemptedBy j' = None;
  rl_fence : j_Fence j' = j_Fence j;
  rl_max : j_MaxAttempts j' = j_MaxAttempts j;
  rl_attempt : j_Attempt j' = if f_Snooze f || f_GiveBack f then j_Attempt j - 1 else j_Attempt j;
  rl_when : j_ScheduledAt j' = if woken j then now else (now * 1000 + Z.max (f_Delay f) 0) / 1000;
  rl_wake : j_WakeRequestedAt j' = None }.

Lemma applyResult_open r j x d :
  wf d -> In j (db_jobs d) -> j_ID j = f_ID (re_f r) -> owned d j (re_f r) = true ->
  exists d1, (match f_Lease (re_f r) with Some _ => releaseLease (j_ID j) | None => ret tt end) x d = Ok (tt, d1)
  /\ same_jobs d d1 /\ wf d1.
Proof.
  intros Hw Hj Ei Ho. destruct (f_Lease (re_f r)); [|exists d; split_and!; done].
  eexists. split; [reflexivity|]. split; [done|]. destruct Hw. now split.
Qed.

Lemma applyResult_effect keep r j x d :
  wf d -> In j (db_jobs d) -> j_ID j = f_ID (re_f r) -> owned d j (re_f r) = true ->
  finalize_state (f_State (re_f r)) = true ->
  exists out d', applyResult keep r x d = Ok (Some (mkJobFinalized (f_ID (re_f r)) (fence_of (re_f r)) false, out), d')
  /\ if Terminal (f_State (re_f r)) then
       (exists g, out = Some g /\ fin_row g = j /\ fin_state g = f_State (re_f r))
       /\ db_jobs d' = del (id_is (j_ID j)) (db_jobs d)
       /\ (if Archived (re_f r) then exists h, db_history d' = (db_history d ++ [h])%list /\ j_ID (h_job h) = j_ID j
             /\ j_State (h_job h) = f_State (re_f r) /\ h_Output h = re_output r /\ h_FinalizedAt h = w_now x
           else db_history d' = db_history d)
     else out = None /\ db_history d' = db_history d
       /\ exists j', released (re_f r) (w_now x) j j'
          /\ forall k, In k (db_jobs d') <-> k = j' \/ (In k (db_jobs d) /\ k <> j).
Proof.
  intros Hw Hj Ei Ho Hs. unfold applyResult, liveRow. unfold bind at 1, get at 1. rewrite <- Ei, (one_id d j Hw Hj).
  unfold bind at 1. rewrite owns_owned, Ho. cbn [negb].
  destruct (applyResult_open r j x d Hw Hj Ei Ho) as (d1 & E1 & (Ej & Eq & Eh) & Hw1).
  unfold bind at 1. rewrite E1.
  rewrite <- Ej in Hj. unfold bind at 1, us at 1. cbv zeta. destruct (Terminal (f_State (re_f r))) eqn:Et.
  - set (g := mkFinished j _ _ _ _ _). destruct (finish_runs g x d1 Hw1 Hj Et) as (d' & Ef & Hdj & _ & Hdh).
    unfold bind at 1. rewrite Ef. do 2 eexists. split; [rewrite Ei; reflexivity|]. rewrite <- Ej, <- Eh. split_and!; [eauto|exact Hdj|].
    cbn [fin_archive g] in Hdh. destruct (Archived (re_f r)); [|done]. eexists. split; [exact Hdh|done].
  - unfold bind at 1, at_ at 1. unfold bind at 1, exec_jobs.
    match goal with |- context [upd _ (release_row ?r ?e ?l ?n ?t)] => set (rel := release_row r e l n t) end.
    assert (jobs_ok (upd (id_is (j_ID j)) rel (db_jobs d1)) = true) as ->.
    { apply jobs_ok_calm; [apply Hw1|intros k _; now apply release_row_evolves|]. intros k Hk _. split.
      - pose proof (wf_row_ok d1 k Hw1 Hk) as Hrow. unfold row_ok in *. unfold rel. simpl. rewrite Et. breflect.
        rewrite H0. apply Z.leb_le in H1, H2. rewrite H1, H2. done.
      - unfold is_running, rel. simpl. now destruct (f_State (re_f r)). }
    do 2 eexists. split; [rewrite Ei; reflexivity|]. split_and!; [done|done|]. exists (rel j). split; [split; done|].
    intros k. rewrite <- Ej. cbn [db_jobs set_field]. simpl. rewrite <- Ei. apply In_upd_id; done.
Qed.

(** A result of a live claim always applies, and does what it says.  A
    final state takes the job out of the live table, into history with that
    state, its output and the time unless it is not to be archived; any other
    state puts the row back with the claim cleared, the fence kept, the attempt
    given back if it snoozed or was interrupted, and due after the delay (at
    once if woken meanwhile).  No other row changes. *)
Theorem applyResult_spec keep r j x d :
  wf d -> In j (db_jobs d) -> j_ID j = f_ID (re_f r) -> owned d j (re_f r) = true ->
  finalize_state (f_State (re_f r)) = true ->
  exists out d', applyResult keep r x d = Ok (Some (mkJobFinalized (f_ID (re_f r)) (fence_of (re_f r)) false, out), d')
  /\ if Terminal (f_State (re_f r)) then
       (exists g, out = Some g /\ fin_row g = j /\ fin_state g = f_State (re_f r))
       /\ db_jobs d' = del (id_is (j_ID j)) (db_jobs d)
       /\ (if Archived (re_f r) then exists h, db_history d' = (db_history d ++ [h])%list /\ j_ID (h_job h) = j_ID j
             /\ j_State (h_job h) = f_State (re_f r) /\ h_Output h = re_output r /\ h_FinalizedAt h = w_now x
           else db_history d' = db_history d)
     else out = None /\ db_history d' = db_history d
       /\ exists j', released (re_f r) (w_now x) j j'
          /\ forall k, In k (db_jobs d') <-> k = j' \/ (In k (db_jobs d) /\ k <> j).
Proof. apply applyResult_effect. Qed.

(** ** A call made again *)

(** No live job runs in the claim of a result. *)
Definition unowned (f : JobFinalize) (d : DB) : Prop :=
  forall j, In j (db_jobs d) -> j_ID j = f_ID f -> owned d j f = false.

Lemma owned_running d j f : owned d j f = true -> held_back j = true.
Proof. unfold owned, is_running, held_back. destruct (f_Lease f); destruct (j_State j); simpl; done. Qed.

Lemma unowned_from f d d' : f_Lease f = None -> pending_from d d' -> unowned f d -> unowned f d'.
Proof.
  intros El H Hu j Hj Ei. destruct (owned d' j f) eqn:E; [|done]. rewrite <- E. rewrite <- (Hu j); [|apply H; [done|eapply owned_running; eauto]|done].
  unfold owned. now rewrite El.
Qed.

Lemma owns_pending j f : respects pending_from (owns j f).
Proof. intros x d o d' E. rewrite owns_owned in E. simplify_eq. by intros k. Qed.
#[local] Hint Resolve owns_pending : respects.

Lemma applyResult_pending keep r : finalize_state (f_State (re_f r)) = true -> respects pending_from (applyResult keep r).
Proof.
  intros Hs. unfold applyResult, liveRow, releaseLease. pending.
  apply pending_update. intros k _. unfold held_back. simpl. now destruct (f_State (re_f r)).
Qed.

Lemma applyResult_over keep r x d o d' : wf d -> finalize_state (f_State (re_f r)) = true -> f_Lease (re_f r) = None ->
  applyResult keep r x d = Ok (o, d') -> unowned (re_f r) d'.
Proof.
  intros Hw Hs El E. destruct (one (id_is (f_ID (re_f r))) (db_jobs d)) as [j|] eqn:Ej.
  2:{ apply (unowned_from _ d); [done|now apply (applyResult_pending keep r Hs) in E|].
      intros k Hk Ei. rewrite one_None in Ej. specialize (Ej k Hk). unfold id_is in Ej. breflect. congruence. }
  apply one_Some in Ej as [Hj Ei]. unfold id_is in Ei. breflect. destruct (owned d j (re_f r)) eqn:Eo.
  - destruct (applyResult_effect keep r j x d Hw Hj Ei Eo Hs) as (out & d1 & E1 & H). rewrite E in E1. injection E1 as _ <-.
    intros k Hk Ek. destruct (Terminal (f_State (re_f r))) eqn:Et.
    + destruct H as (_ & Hd & _). rewrite Hd in Hk. apply In_del in Hk as [_ Hk]. unfold id_is in Hk. breflect. congruence.
    + destruct H as (_ & _ & j' & Hr & Hin). apply Hin in Hk as [->|[Hk Hne]]; [|destruct Hne; eapply wf_unique_id; eauto; congruence].
      unfold owned, is_running. rewrite El, (rl_state _ _ _ _ Hr). now destruct (f_State (re_f r)).
  - apply (unowned_from _ d); [done|now apply (applyResult_pending keep r Hs) in E|].
    intros k Hk Ek. assert (k = j) as -> by (eapply wf_unique_id; eauto; congruence). done.
Qed.

Lemma applyResults_over keep rs : forall x d outs d', wf d ->
  (forall r, In r rs -> finalize_state (f_State (re_f r)) = true /\ f_Lease (re_f r) = None) ->
  mapM (applyResult keep) rs x d = Ok (outs, d') -> pending_from d d' /\ forall r, In r rs -> unowned (re_f r) d'.
Proof.
  induction rs as [|r rs IH]; intros x d outs d' Hw Hrs E; [simpl in E; inv_w; split; [reflexivity|intros ? []]|].
  simpl in E. apply bind_Ok in E as (o & d1 & E1 & E). apply bind_Ok in E as (os & d2 & E2 & E). inv_w.
  destruct (Hrs r) as [Hs El]; [now left|]. destruct (applyResult_advances keep r Hs _ _ _ _ E1 Hw) as [Hw1 _].
  destruct (IH _ _ _ _ Hw1 (fun r' H => Hrs r' (or_intror H)) E2) as [Hp Hu]. split.
  - transitivity d1; [exact (applyResult_pending keep r Hs _ _ _ _ E1)|exact Hp].
  - intros r' [<-|H]; [|auto]. eapply unowned_from; [done|exact Hp|]. exact (applyResult_over keep r _ _ _ _ Hw Hs El E1).
Qed.

Lemma tail_pending done : respects pending_from (tail done).
Proof. pose proof walk_pending. unfold tail. pending. Qed.

Lemma finalizeAll_over params rs x d out d' : wf d ->
  (forall r, In r rs -> finalize_state (f_State (re_f r)) = true /\ f_Lease (re_f r) = None) ->
  finalizeAll params rs x d = Ok (out, d') -> forall r, In r rs -> unowned (re_f r) d'.
Proof.
  intros Hw Hrs E r Hr. unfold finalizeAll in E. apply bind_Ok in E as (outs & d1 & E1 & E).
  destruct (applyResults_over _ rs x d outs d1 Hw Hrs E1) as [_ Hu]. apply (unowned_from _ d1); [now apply Hrs| |auto].
  cbv zeta in E. destruct (fp_NoBatches params); [inv_w; reflexivity|]. apply bind_Ok in E as (all & d2 & E2 & E). inv_w.
  now apply tail_pending in E2.
Qed.

(** C15: A finalize call of clients' results may be sent again.  Once a
    call whose results are of claims by clients, none of a lease, has succeeded
    and was not held off (a call with SkipLocked that finds the lock held
    applies nothing), its results' claims are over, so the same call, made again
    on what it left at any later time, succeeds, reports nothing applied and
    changes nothing: a result is never applied twice, nor its batch counted or
    dependents promoted again. *)
Theorem finalize_once params held x busy y d out d' :
  wf d -> (forall f, In f (fp_Jobs params) -> f_Lease f = None) -> fp_SkipLocked params && held = false ->
  JobFinalizeMany params held x d = (Ok out, d') -> JobFinalizeMany params busy y d' = (Ok [], d').
Proof.
  intros Hw El Eh E. unfold JobFinalizeMany in *. destruct (fp_Jobs params) as [|f0 fs] eqn:Ef; [now injection E as <- <-|]. rewrite <- Ef in *.
  destruct (encodeResults (fp_Jobs params)) as [rs|e] eqn:Ee; [|discriminate].
  destruct (leased f0 && fp_SkipLocked params); [discriminate|]. destruct (existsb _ (fp_Jobs params)); [discriminate|].
  rewrite Eh in E. destruct (fp_SkipLocked params && busy); [reflexivity|].
  unfold write in *. destruct (finalizeAll params rs x d) as [[o d1]|e] eqn:Ea; [|discriminate]. injection E as <- <-.
  rewrite finalizeAll_unowned; [reflexivity|]. intros r j Hr. revert j. apply (finalizeAll_over params rs x d o d1 Hw); [|exact Ea|exact Hr].
  intros r' Hr'. split; [now apply (encodeResults_state _ _ Ee)|]. apply El. rewrite <- (encodeResults_f _ _ Ee). now apply in_map.
Qed.
