(* ===== verification/Frame.v ===== *)
(** * The frame of the job operations

    [JobSide f]: the projection [f] of the database reads none of the tables
    that inserting, claiming, finalizing and controlling jobs write.  Every job
    operation leaves such a projection alone, which lets the components beside
    the jobs (periodic slots, leadership, streams) prove their invariants over
    any interleaving with job operations. *)

From Stdlib Require Import List ZArith Lia Bool String.
From stdpp Require Import base tactics list gmap sets relations.
From S2P Require Import Prelude Sql Text Json Types Store Logic JobId Codec Insert Finalize Claim Control Leases.
From S2P Require Import Workflow Cluster Topics Messaging Evolution Engine.
Import ListNotations.
Local Open Scope Z_scope.

Class JobSide {B} (f : DB -> B) : Prop := {
  js_jobs : forall g d, f (set_field db_jobs g d) = f d;
  js_seq : forall g d, f (set_field db_seq g d) = f d;
  js_history : forall g d, f (set_field db_history g d) = f d;
  js_deps : forall g d, f (set_field db_deps g d) = f d;
  js_results : forall g d, f (set_field db_results g d) = f d;
  js_batches : forall g d, f (set_field db_batches g d) = f d;
  js_leases : forall g d, f (set_field db_leases g d) = f d;
  js_queues : forall g d, f (set_field db_queues g d) = f d;
  js_notifications : forall g d, f (set_field db_notifications g d) = f d;
  js_notification_seq : forall g d, f (set_field db_notification_seq g d) = f d;
  js_rand : forall g d, f (set_field db_rand g d) = f d }.

#[export] Instance periodic_beside : JobSide db_periodic.
Proof. split; reflexivity. Qed.
#[export] Instance leader_beside : JobSide db_leader.
Proof. split; reflexivity. Qed.
#[export] Instance consumers_beside : JobSide db_consumers.
Proof. split; reflexivity. Qed.
Definition events_of (d : DB) : list EventRow * Z := (db_events d, db_event_seq d).
#[export] Instance events_beside : JobSide events_of.
Proof. split; reflexivity. Qed.

Section Frame.
Context {B : Type} (f : DB -> B) `{!JobSide f}.
Notation beside := (same_of f).

Ltac beside_eq :=
  unfold same_of;
  repeat first [rewrite js_jobs | rewrite js_seq | rewrite js_history | rewrite js_deps | rewrite js_results
               | rewrite js_batches | rewrite js_leases | rewrite js_queues | rewrite js_notifications
               | rewrite js_notification_seq | rewrite js_rand]; reflexivity.
Ltac beside :=
  repeat first
    [ respects_step
    | solve [auto with respects nocore]
    | solve [apply respects_exec_jobs; intros; beside_eq]
    | solve [apply respects_insert_row; intros; beside_eq]
    | solve [apply respects_modify; intros; beside_eq] ].

Lemma notify_row_beside c p : respects beside (notify_row c p).
Proof. intros x d a d' [= <- <-]. beside_eq. Qed.
#[local] Hint Resolve notify_row_beside : respects.
Lemma notify_beside c ps : respects beside (notify c ps).
Proof. destruct ps; unfold notify; beside. Qed.
Lemma draw_beside : respects beside draw.
Proof. intros x d a d' [= <- <-]. beside_eq. Qed.
#[local] Hint Resolve notify_beside draw_beside : respects.
Lemma newID_beside : respects beside newID.
Proof. unfold newID. beside. Qed.
Lemma randomblob16_beside : respects beside randomblob16.
Proof. unfold randomblob16. beside. Qed.
#[local] Hint Resolve newID_beside randomblob16_beside : respects.
Lemma insertJob_beside j : respects beside (insertJob j).
Proof. unfold insertJob. beside. Qed.
#[local] Hint Resolve insertJob_beside : respects.
Lemma insertCallback_beside s b n : respects beside (insertCallback s b n).
Proof. unfold insertCallback. beside. Qed.
#[local] Hint Resolve insertCallback_beside : respects.
Lemma countBatch_beside id n k : respects beside (countBatch id n k).
Proof. unfold countBatch. beside. Qed.
#[local] Hint Resolve countBatch_beside : respects.
Lemma insertOne_beside c j : respects beside (insertOne c j).
Proof. unfold insertOne, finishedDuplicate. beside. Qed.
#[local] Hint Resolve insertOne_beside : respects.
Lemma archive_beside g : respects beside (archive g).
Proof. intros x d a d'. unfold archive. repeat case_match; intros; simplify_eq; [beside_eq|reflexivity]. Qed.
#[local] Hint Resolve archive_beside : respects.
Lemma finish_beside g : respects beside (finish g).
Proof. unfold finish. beside. Qed.
#[local] Hint Resolve finish_beside : respects.
Lemma recordResult_beside g : respects beside (recordResult g).
Proof. unfold recordResult. beside. Qed.
Lemma cancelDependent_beside r : respects beside (cancelDependent r).
Proof. unfold cancelDependent. beside. Qed.
Lemma promoteIfReady_beside id : respects beside (promoteIfReady id).
Proof. unfold promoteIfReady. beside. Qed.
Lemma liveRow_beside id : respects beside (liveRow id).
Proof. unfold liveRow. beside. Qed.
#[local] Hint Resolve recordResult_beside cancelDependent_beside promoteIfReady_beside liveRow_beside : respects.
Lemma visit_beside c dep : respects beside (visit c dep).
Proof. unfold visit. beside. Qed.
#[local] Hint Resolve visit_beside : respects.
Lemma visit_all_beside deps : forall c, respects beside (visit_all c deps).
Proof. induction deps; intros; simpl; beside. Qed.
#[local] Hint Resolve visit_all_beside : respects.
Lemma walk_beside fuel : forall c, respects beside (walk fuel c).
Proof. induction fuel; intros; simpl; beside. Qed.
Lemma promote_all_beside deps : forall a b, respects beside (promote_all a b deps).
Proof. induction deps; intros; simpl; beside. Qed.
Lemma drop_edges_beside g : respects beside (drop_edges g).
Proof. unfold drop_edges. beside. Qed.
#[local] Hint Resolve walk_beside promote_all_beside drop_edges_beside : respects.
Lemma tail_beside done : respects beside (tail done).
Proof. unfold tail. beside. Qed.
#[local] Hint Resolve tail_beside : respects.
Lemma tailCascaded_beside done : respects beside (tailCascaded done).
Proof. unfold tailCascaded. beside. Qed.
Lemma releaseLease_beside id : respects beside (releaseLease id).
Proof. unfold releaseLease. beside. Qed.
Lemma owns_beside j g : respects beside (owns j g).
Proof. unfold owns, leaseOwns. beside. Qed.
#[local] Hint Resolve tailCascaded_beside releaseLease_beside owns_beside : respects.
Lemma claim_beside q c n p : respects beside (claim q c n p).
Proof. unfold claim. beside. Qed.
#[local] Hint Resolve claim_beside : respects.
Lemma cancelWaiting_beside r a : respects beside (cancelWaiting r a).
Proof. unfold cancelWaiting. beside. Qed.
#[local] Hint Resolve cancelWaiting_beside : respects.
Lemma insertBatch_beside id name n b e s r : respects beside (insertBatch id name n b e s r).
Proof. intros x d a d'. unfold insertBatch. case_match; [done|]. intros [= <- <-]. beside_eq. Qed.
Lemma mint_beside n : respects beside (mint n).
Proof. induction n; simpl; beside. Qed.
#[local] Hint Resolve insertBatch_beside mint_beside : respects.
Lemma cancelExhausted_beside id : respects beside (cancelExhausted id).
Proof. unfold cancelExhausted. beside. Qed.
#[local] Hint Resolve cancelExhausted_beside : respects.
Lemma promote_each_beside ids : respects beside (promote_each ids).
Proof. induction ids; simpl; beside. Qed.
Lemma cancel_each_beside ids : respects beside (cancel_each ids).
Proof. induction ids; simpl; beside. Qed.
#[local] Hint Resolve promote_each_beside cancel_each_beside : respects.

(** The operations whose frame a step needs. *)
Lemma beside_write {A} (m : W A) x d : respects beside m -> f (snd (write m x d)) = f d.
Proof. intros H. destruct (write m x d) as [r d'] eqn:E. exact (respects_write beside m x d r d' H E). Qed.
Ltac open_beside :=
  repeat first [reflexivity | match goal with |- f (snd (match ?e with _ => _ end)) = _ => destruct e eqn:? end];
  apply beside_write; beside.

(** A step of a job operation. *)
Inductive job_step : DB -> DB -> Prop :=
| js_JobInsertMany ps o x d : job_step d (snd (JobInsertMany ps o x d))
| js_JobFinalizeMany p busy x d : job_step d (snd (JobFinalizeMany p busy x d))
| js_JobClaim p x d : job_step d (snd (JobClaim p x d))
| js_JobAge q after x d : job_step d (snd (JobAge q after x d))
| js_JobCancel id x d : job_step d (snd (JobCancel id x d))
| js_JobDelete id x d : job_step d (snd (JobDelete id x d))
| js_JobRetry p x d : job_step d (snd (JobRetry p x d))
| js_JobRetryOrderingKey p x d : job_step d (snd (JobRetryOrderingKey p x d))
| js_JobDiscardExpired n x d : job_step d (snd (JobDiscardExpired n x d))
| js_JobRecordProgress p busy x d : job_step d (snd (JobRecordProgress p busy x d))
| js_JobClaimByID p x d : job_step d (snd (JobClaimByID p x d))
| js_JobLeaseRenew p x d : job_step d (snd (JobLeaseRenew p x d))
| js_JobExpireLeases p busy x d : job_step d (snd (JobExpireLeases p busy x d))
| js_BatchInsert n s g c m x d : job_step d (snd (BatchInsert n s g c m x d))
| js_BatchSettle named results n x d : job_step d (snd (BatchSettle named results n x d))
| js_WorkflowInsert p x d : job_step d (snd (WorkflowInsert p x d))
| js_WorkflowPromoteReady ids after n seen x d : job_step d (snd (WorkflowPromoteReady ids after n seen x d))
| js_QueueEnsure names x d : job_step d (snd (QueueEnsure names x d))
| js_QueuePause name x d : job_step d (snd (QueuePause name x d))
| js_QueueResume name x d : job_step d (snd (QueueResume name x d))
| js_QueueSetLimits l x d : job_step d (snd (QueueSetLimits l x d))
| js_MessagePublish p x d : job_step d (snd (MessagePublish p x d)).

Lemma job_step_beside d d' : job_step d d' -> f d' = f d.
Proof.
  destruct 1.
  - unfold JobInsertMany, insertJobs. open_beside.
  - unfold JobFinalizeMany, finalizeAll, applyResult. open_beside.
  - unfold JobClaim, claimLimited. open_beside.
  - unfold JobAge. open_beside.
  - unfold JobCancel, JobCancel_w. open_beside.
  - unfold JobDelete, JobDelete_w. open_beside.
  - unfold JobRetry, JobRetry_w, retryFinished. open_beside.
  - unfold JobRetryOrderingKey, JobRetryOrderingKey_w. open_beside.
  - unfold JobDiscardExpired, JobDiscardExpired_w, discardExpired. open_beside.
  - unfold JobRecordProgress, JobRecordProgress_w. open_beside.
  - unfold JobClaimByID, JobClaimByID_w, claimableByID. open_beside.
  - unfold JobLeaseRenew, JobLeaseRenew_w. open_beside.
  - unfold JobExpireLeases, JobExpireLeases_w, expireOne. open_beside.
  - unfold BatchInsert. open_beside.
  - unfold BatchSettle. open_beside.
  - unfold WorkflowInsert, WorkflowInsert_w. open_beside.
  - unfold WorkflowPromoteReady. open_beside.
  - unfold QueueEnsure. open_beside.
  - unfold QueuePause, setPaused_w. open_beside.
  - unfold QueueResume, setPaused_w. open_beside.
  - unfold QueueSetLimits, QueueSetLimits_w. open_beside.
  - unfold MessagePublish, MessagePublish_w. open_beside.
Qed.
End Frame.

(** The other steps. *)
Inductive other_step : DB -> DB -> Prop :=
| os_ClientRegister p x d : other_step d (snd (ClientRegister p x d))
| os_ClientRenew c ttl x d : other_step d (snd (ClientRenew c ttl x d))
| os_ClientDelete c x d : other_step d (snd (ClientDelete c x d))
| os_ClientPruneExpired x d : other_step d (snd (ClientPruneExpired x d))
| os_LeaderAttempt c ttl x d : other_step d (snd (LeaderAttempt c ttl x d))
| os_LeaderRequestResign c x d : other_step d (snd (LeaderRequestResign c x d))
| os_LeaderResign c x d : other_step d (snd (LeaderResign c x d))
| os_PeriodicInsert p x d : other_step d (snd (PeriodicInsert p x d))
| os_PeriodicRegister c rs x d : other_step d (snd (PeriodicRegister c rs x d))
| os_HistoryMaintain p inTx xs busy d : other_step d (snd (HistoryMaintain p inTx xs busy d))
| os_SubscriptionUpsert ss x d : other_step d (snd (SubscriptionUpsert ss x d))
| os_StreamAppend p x d : other_step d (snd (StreamAppend p x d))
| os_StreamConsumerUpsert cs x d : other_step d (snd (StreamConsumerUpsert cs x d))
| os_StreamConsumerSeek name p x d : other_step d (snd (StreamConsumerSeek name p x d))
| os_StreamPump name n x d : other_step d (snd (StreamPump name n x d)).

Lemma step_cases d d' : step d d' -> job_step d d' \/ other_step d d'.
Proof.
  destruct 1.
  - left. apply js_JobInsertMany.
  - left. apply js_JobFinalizeMany.
  - left. apply js_JobClaim.
  - left. apply js_JobAge.
  - left. apply js_JobCancel.
  - left. apply js_JobDelete.
  - left. apply js_JobRetry.
  - left. apply js_JobRetryOrderingKey.
  - left. apply js_JobDiscardExpired.
  - left. apply js_JobRecordProgress.
  - left. apply js_JobClaimByID.
  - left. apply js_JobLeaseRenew.
  - left. apply js_JobExpireLeases.
  - left. apply js_BatchInsert.
  - left. apply js_BatchSettle.
  - left. apply js_WorkflowInsert.
  - left. apply js_WorkflowPromoteReady.
  - right. apply os_ClientRegister.
  - right. apply os_ClientRenew.
  - right. apply os_ClientDelete.
  - right. apply os_ClientPruneExpired.
  - right. apply os_LeaderAttempt.
  - right. apply os_LeaderRequestResign.
  - right. apply os_LeaderResign.
  - left. apply js_QueueEnsure.
  - left. apply js_QueuePause.
  - left. apply js_QueueResume.
  - left. apply js_QueueSetLimits.
  - right. apply os_PeriodicInsert.
  - right. apply os_PeriodicRegister.
  - right. apply os_HistoryMaintain.
  - right. apply os_SubscriptionUpsert.
  - left. apply js_MessagePublish.
  - right. apply os_StreamAppend.
  - right. apply os_StreamConsumerUpsert.
  - right. apply os_StreamConsumerSeek.
  - right. apply os_StreamPump.
Qed.
