(* ===== verification/ClusterSpec.v ===== *)
(** * Periodic slots, leadership and the clock: theorems on Cluster.v

    A slot of a periodic job is taken once over any run; the leader's lease
    excludes every other client until it lapses, and its terms are dated in
    order as long as the clock is; the clock holds its time across small steps
    back. *)

From Stdlib Require Import List ZArith Lia Bool String.
From stdpp Require Import base tactics list relations.
From S2P Require Import Prelude Sql Text Json Types Store Logic JobId Codec Insert Finalize Claim Control Leases.
From S2P Require Import Workflow Cluster Topics Messaging Evolution Engine Frame.
Import ListNotations.
Local Open Scope Z_scope.

(** ** The clock *)

(** The database's time is never behind the host's and leads it by at most
    500ms; it never goes back unless the host's clock is more than 500ms behind
    the time last given, and then it is the host's. *)
Theorem clock_spec last now :
  let '(t, last') := clock last now in
  last' = t /\ now <= t <= now + maxClockLead /\ (last <= t \/ (t = now /\ now < last - maxClockLead)).
Proof. unfold clock, maxClockLead. destruct (_ && _) eqn:E; [breflect; lia|]. apply andb_false_iff in E as [E|E]; breflect; lia. Qed.

(** ** Periodic slots *)

Definition slots_le (d d' : DB) : Prop :=
  forall name s, last_slot name (db_periodic d) = Some s -> exists s', last_slot name (db_periodic d') = Some s' /\ s <= s'.

#[export] Instance slots_le_preorder : PreOrder slots_le.
Proof.
  split; [intros d name s H; exists s; split; [done|lia]|].
  intros a b c H1 H2 name s (s1 & Hs1 & L1)%H1. destruct (H2 name s1 Hs1) as (s2 & Hs2 & L2). exists s2. split; [done|lia].
Qed.

Lemma slots_same d d' : db_periodic d' = db_periodic d -> slots_le d d'.
Proof. intros E name s Hs. rewrite E. exists s. split; [done|lia]. Qed.

Lemma last_slot_app name t n s :
  last_slot name (t ++ [(n, s)]) = match last_slot name t with Some v => Some v | None => if String.eqb n name then Some s else None end.
Proof.
  unfold last_slot, one. induction t as [|[m v] t IH]; simpl; [now destruct (String.eqb n name)|].
  destruct (String.eqb m name); simpl; [done|exact IH].
Qed.

Lemma last_slot_upd name t n s :
  last_slot name (upd (fun r => String.eqb (fst r) n) (fun r => (fst r, s)) t)
  = match last_slot name t with Some v => Some (if String.eqb n name then s else v) | None => None end.
Proof.
  unfold last_slot, one, upd. induction t as [|[m v] t IH]; simpl; [done|].
  destruct (String.eqb m n) eqn:E1, (String.eqb m name) eqn:E2; simpl; rewrite ?E2; simpl; try exact IH; breflect; subst.
  - now rewrite String.eqb_refl.
  - destruct (String.eqb n name) eqn:E; [|done]. breflect. congruence.
Qed.

(** The upsert moves one name's slot forward, or refuses. *)
Lemma advance_slot_spec name slot t :
  match advance_slot name slot t with
  | Some t' => last_slot name t' = Some slot
      /\ (forall m s, last_slot m t = Some s -> exists s', last_slot m t' = Some s' /\ s <= s')
  | None => exists s, last_slot name t = Some s /\ slot <= s
  end.
Proof.
  unfold advance_slot. destruct (last_slot name t) as [s|] eqn:E; [destruct (s <? slot) eqn:El|]; breflect.
  - rewrite last_slot_upd, E, String.eqb_refl. split; [done|]. intros m v Hm. rewrite last_slot_upd, Hm.
    destruct (String.eqb name m) eqn:En; [breflect; subst|]; eexists; (split; [done|]); [|lia]. congruence || (assert (s = v) by congruence; lia).
  - eauto.
  - rewrite last_slot_app, E, String.eqb_refl. split; [done|]. intros m v Hm. rewrite last_slot_app, Hm. exists v. split; [done|lia].
Qed.

Lemma PeriodicInsert_w_slots name slot j x d v b d1 : PeriodicInsert_w name slot j x d = Ok ((v, b), d1) ->
  slots_le d d1 /\ (v <> None -> last_slot name (db_periodic d1) = Some slot).
Proof.
  unfold PeriodicInsert_w. intros E. apply bind_Ok in E as (t & d0 & Eg & E). unfold get in Eg. injection Eg as <- <-.
  pose proof (advance_slot_spec name slot (db_periodic d)) as Ha. destruct (advance_slot _ _ _) as [t|].
  - apply bind_Ok in E as (u & d2 & Em & E). unfold modify in Em. injection Em as <- <-.
    apply bind_Ok in E as (r & d3 & Ei & E). apply bind_Ok in E as (u2 & d4 & En & E). unfold ret in E. injection E as <- <- <-.
    apply (insertOne_beside db_periodic) in Ei. apply (notify_beside db_periodic) in En. unfold same_of in *. simpl in Ei.
    destruct Ha as [H1 H2]. split; [|intros _; congruence]. intros m s Hm. rewrite En, Ei. auto.
  - unfold ret in E. injection E as <- <- <-. split; [reflexivity|done].
Qed.

(** Operations beside the jobs that leave a projection alone. *)
Ltac beside_step f :=
  repeat first [reflexivity | match goal with |- f (snd (match ?e with _ => _ end)) = _ => destruct e eqn:? end];
  apply (beside_write f);
  repeat first
    [ respects_step
    | solve [apply respects_modify; intros; reflexivity]
    | apply (notify_beside f) | apply (newID_beside f) | apply (insertJob_beside f) | apply (insertOne_beside f)
    | solve [intros ? ? ? ?; unfold insert_registration, insert_event; repeat case_match; intros; simplify_eq; reflexivity] ].

Lemma prune_group_beside {B} (f : DB -> B) fuel g keep xs busy :
  (forall x d, f (snd (write (prune_batch g keep) x d)) = f d) ->
  forall i n d, f (snd (prune_group fuel g keep xs busy i n d)) = f d.
Proof.
  intros H. induction fuel as [|fuel IH]; intros i n d; simpl; [done|]. destruct (busy i); [done|].
  pose proof (H (xs i) d) as Hx. destruct (write _ _ _) as [[k|e] d']; simpl in *; [|done].
  destruct (k <? retentionBatch); simpl; [done|]. now rewrite IH.
Qed.
Lemma HistoryMaintain_beside {B} (f : DB -> B) p inTx xs busy d :
  (forall g keep x d, f (snd (write (prune_batch g keep) x d)) = f d) -> f (snd (HistoryMaintain p inTx xs busy d)) = f d.
Proof.
  intros H. unfold HistoryMaintain. destruct inTx; [done|].
  generalize [CompletedHistory; FailedHistory; StreamEvents] as gs, 0%nat as i, (mkHistoryMaintainResult [] 0 []) as res.
  intros gs. revert d. induction gs as [|g gs IH]; intros d i res; cbn [prune_groups]; [done|]. case_match; [apply IH|].
  pose proof (prune_group_beside f (prune_fuel d) g (group_keep p g) xs busy (H g (group_keep p g)) i 0 d) as Hg.
  destruct (prune_group _ _ _ _ _ _ _ _) as [[[out i'] n] d']. simpl in Hg. now rewrite IH.
Qed.

Lemma step_slots d d' : step d d' -> slots_le d d'.
Proof.
  intros [H|H]%step_cases; [apply slots_same, (job_step_beside db_periodic), H|]. destruct H.
  - apply slots_same. unfold ClientRegister. beside_step db_periodic.
  - apply slots_same. unfold ClientRenew, ClientRenew_w. beside_step db_periodic.
  - apply slots_same. unfold ClientDelete, ClientDelete_w. beside_step db_periodic.
  - apply slots_same. unfold ClientPruneExpired, ClientPruneExpired_w. beside_step db_periodic.
  - apply slots_same. unfold LeaderAttempt, LeaderAttempt_w. beside_step db_periodic.
  - apply slots_same. unfold LeaderRequestResign, LeaderRequestResign_w. beside_step db_periodic.
  - apply slots_same. unfold LeaderResign, LeaderResign_w. beside_step db_periodic.
  - unfold PeriodicInsert. destruct (encodeInsert _) as [j|]; [|reflexivity]. unfold write.
    destruct (PeriodicInsert_w _ _ _ _ _) as [[[v b] d1]|e] eqn:E; simpl; [|reflexivity]. now apply PeriodicInsert_w_slots in E as [H _].
  - apply slots_same. unfold PeriodicRegister, PeriodicRegister_w. beside_step db_periodic.
  - apply slots_same. apply (HistoryMaintain_beside db_periodic). intros. unfold prune_batch. beside_step db_periodic.
  - apply slots_same. unfold SubscriptionUpsert. beside_step db_periodic.
  - apply slots_same. unfold StreamAppend, StreamAppend_w. beside_step db_periodic.
  - apply slots_same. unfold StreamConsumerUpsert, upsertConsumer. beside_step db_periodic.
  - apply slots_same. unfold StreamConsumerSeek, StreamConsumerSeek_w. beside_step db_periodic.
  - apply slots_same. unfold StreamPump, StreamPump_w, pump_event. beside_step db_periodic.
Qed.

Lemma steps_slots d d' : steps d d' -> slots_le d d'.
Proof. induction 1; [reflexivity|]. etransitivity; [eapply step_slots; eassumption|done]. Qed.

(** A slot of a periodic job is taken at most once.  After a call that
    took a slot (inserting its job, or finding it a duplicate), and any further
    operations, a call for the same name and that or an earlier slot changes
    nothing and inserts nothing. *)
Theorem periodic_slot_once p x d v b d1 d2 p' x' :
  PeriodicInsert p x d = (Ok (Some v, b), d1) -> steps d1 d2 -> pi_Name p' = pi_Name p -> pi_Slot p' <= pi_Slot p ->
  snd (PeriodicInsert p' x' d2) = d2
  /\ (fst (PeriodicInsert p' x' d2) = Ok (None, false) \/ exists e, fst (PeriodicInsert p' x' d2) = Err e).
Proof.
  intros E Hs En Hle. unfold PeriodicInsert in E. destruct (encodeInsert (pi_Job p)) as [j|]; [|done]. unfold write in E.
  destruct (PeriodicInsert_w _ _ _ _ _) as [[[v0 b0] d0]|e] eqn:Ew; [|done]. simplify_eq.
  apply PeriodicInsert_w_slots in Ew as [_ Hl]. destruct (steps_slots _ _ Hs _ _ (Hl ltac:(done))) as (s & Hs2 & Hls).
  unfold PeriodicInsert. destruct (encodeInsert (pi_Job p')) as [j'|e]; [|simpl; eauto].
  assert (PeriodicInsert_w (pi_Name p') (pi_Slot p') j' x' d2 = Ok ((None, false), d2)) as Hw.
  { unfold PeriodicInsert_w. unfold bind at 1, get. unfold advance_slot. rewrite En, Hs2.
    destruct (s <? pi_Slot p') eqn:Elt; [breflect; lia|done]. }
  unfold write. rewrite Hw. auto.
Qed.

(** ** Leadership *)

(** A leader operation at the database's time, or any step that leaves the
    leader's row alone; [t] is the time of the last leader operation, which the
    times of later ones do not precede. *)
Inductive leader_step : Z * DB -> Z * DB -> Prop :=
| ls_attempt t c ttl x d : t <= w_now x -> 0 <= ttl -> leader_step (t, d) (w_now x, snd (LeaderAttempt c ttl x d))
| ls_request t c x d : t <= w_now x -> leader_step (t, d) (w_now x, snd (LeaderRequestResign c x d))
| ls_resign t c x d : t <= w_now x -> leader_step (t, d) (w_now x, snd (LeaderResign c x d))
| ls_other t d d' : job_step d d' -> leader_step (t, d) (t, d').

(** A term begins no later than the last operation and than its lease's end. *)
Definition term_ok (s : Z * DB) : Prop :=
  forall l, db_leader (snd s) = Some l -> ld_elected_at l <= fst s /\ ld_elected_at l <= ld_expires_at l.

Lemma LeaderAttempt_eq c ttl x d :
  LeaderAttempt c ttl x d =
  match leader_row (db_leader d) c (w_now x) ((w_now x * 1000 + ttl) / 1000) with
  | None => (Ok no_leader, d)
  | Some l => (Ok (mkLeaderResult true (ld_elected_at l) (leader_asked l)), d <| db_leader := Some l |>)
  end.
Proof. unfold LeaderAttempt, LeaderAttempt_w, write, bind, us, at_, get. simpl. now destruct (leader_row _ _ _ _). Qed.

Lemma expires_later now ttl : 0 <= ttl -> now <= (now * 1000 + ttl) / 1000.
Proof. intros H. apply Z.div_le_lower_bound; lia. Qed.

Lemma LeaderRequestResign_leader c x d :
  db_leader (snd (LeaderRequestResign c x d)) = db_leader d
  \/ exists l, db_leader d = Some l /\ db_leader (snd (LeaderRequestResign c x d)) = Some (l <| ld_resign_client_id := Some (ld_client_id l) |>).
Proof.
  unfold LeaderRequestResign, write. destruct (LeaderRequestResign_w c x d) as [[a d1]|e] eqn:E; simpl; [|auto].
  unfold LeaderRequestResign_w in E. apply bind_Ok in E as (now & d0 & En & E). unfold us in En. injection En as <- <-.
  apply bind_Ok in E as (row & d0 & Eg & E). unfold get in Eg. injection Eg as <- <-.
  destruct (db_leader d) as [l|] eqn:El; [|inv_w; auto]. destruct (_ && _); [|inv_w; auto].
  right. exists l. split; [done|]. apply bind_Ok in E as (u & d2 & Em & E). unfold modify in Em. injection Em as <- <-.
  apply bind_Ok in E as (u2 & d3 & Ek & E). unfold ret in E. injection E as <- <-. apply (notify_beside db_leader) in Ek. unfold same_of in Ek. now rewrite Ek.
Qed.

Lemma LeaderResign_leader c x d :
  db_leader (snd (LeaderResign c x d)) =
  match db_leader d with Some l => if ld_client_id l =? c then None else Some l | None => None end.
Proof.
  unfold LeaderResign, write. destruct (LeaderResign_w c x d) as [[a d1]|e] eqn:E.
  - unfold LeaderResign_w in E. apply bind_Ok in E as (held & d0 & Eg & E). unfold get in Eg. injection Eg as <- <-.
    destruct (db_leader d) as [l|] eqn:El; [destruct (ld_client_id l =? c)|]; cbn [negb snd] in *; try (inv_w; done).
    apply bind_Ok in E as (u & d2 & Em & E). unfold modify in Em. injection Em as <- <-.
    apply bind_Ok in E as (u2 & d3 & Ek & E). unfold ret in E. injection E as <- <-. apply (notify_beside db_leader) in Ek. exact Ek.
  - exfalso. revert E. unfold LeaderResign_w, bind, get. destruct (db_leader d) as [l|]; [destruct (ld_client_id l =? c)|]; done.
Qed.

Lemma leader_step_ok s s' : leader_step s s' -> term_ok s -> term_ok s'.
Proof.
  destruct 1 as [t c ttl x d Ht Httl|t c x d Ht|t c x d Ht|t d d' Hj]; unfold term_ok; simpl; intros H l.
  - rewrite LeaderAttempt_eq. unfold leader_row. pose proof (expires_later (w_now x) ttl Httl) as He.
    destruct (db_leader d) as [l0|] eqn:El; [|simpl; intros [= <-]; simpl; lia]. specialize (H l0 eq_refl).
    destruct (_ || _) eqn:E; simpl.
    + intros [= <-]. simpl. destruct (leader_renews l0 c (w_now x)); [destruct (leader_asked l0)|]; simpl; lia.
    + rewrite El. intros [= <-]. lia.
  - destruct (LeaderRequestResign_leader c x d) as [->|(l0 & El & ->)]; [intros Hl; specialize (H l Hl); lia|].
    intros [= <-]. specialize (H l0 El). simpl. lia.
  - rewrite LeaderResign_leader. destruct (db_leader d) as [l0|] eqn:El; [|done]. case_match; [done|].
    intros [= <-]. specialize (H l0 eq_refl). lia.
  - rewrite (job_step_beside db_leader _ _ Hj). auto.
Qed.

Lemma leader_steps_ok s s' : rtc leader_step s s' -> term_ok s -> term_ok s'.
Proof. induction 1; eauto using leader_step_ok. Qed.

(** Terms are dated in order while the clock is.  Over any run whose
    leader operations are at non-decreasing times, an attempt that wins either
    renews the holder's own term, with the term's date, or starts one dated
    later than the term before it. *)
Theorem leader_terms_increase t d c ttl x res d' l :
  rtc leader_step (0, empty_db) (t, d) -> t <= w_now x -> db_leader d = Some l ->
  LeaderAttempt c ttl x d = (Ok res, d') -> lt_Leader res = true ->
  (ld_client_id l = c /\ w_now x <= ld_expires_at l /\ lt_ElectedAt res = ld_elected_at l)
  \/ (ld_expires_at l < w_now x /\ ld_elected_at l < lt_ElectedAt res).
Proof.
  intros Hr Ht El E Hl. assert (term_ok (t, d)) as Hok by (eapply leader_steps_ok; [exact Hr|]; intros l0 [=]).
  destruct (Hok l El) as [H1 H2]. simpl in H1. rewrite LeaderAttempt_eq, El in E. unfold leader_row in E.
  destruct (_ || _) eqn:Ew; injection E as <- <-; [|done]. simpl. unfold leader_renews in *.
  destruct (ld_client_id l =? c) eqn:Ec; simpl in *.
  - destruct (ld_expires_at l >=? w_now x) eqn:Ee; [left|right]; rewrite Z.geb_leb in Ee; breflect; simpl; lia.
  - right. rewrite orb_false_r in Ew. breflect. lia.
Qed.

(** What may happen while client [c] holds the lease up to [until]: attempts by
    others no later than its end, resign requests, the resigning of others, and
    job operations. *)
Inductive held_step (c until : Z) : DB -> DB -> Prop :=
| hs_attempt c' ttl x d : c' <> c -> w_now x <= until -> held_step c until d (snd (LeaderAttempt c' ttl x d))
| hs_request c' x d : held_step c until d (snd (LeaderRequestResign c' x d))
| hs_resign c' x d : c' <> c -> held_step c until d (snd (LeaderResign c' x d))
| hs_job d d' : job_step d d' -> held_step c until d d'.

Definition holds (c until : Z) (d : DB) : Prop :=
  exists l, db_leader d = Some l /\ ld_client_id l = c /\ ld_expires_at l = until.

Lemma refused c until c' ttl x d : holds c until d -> c' <> c -> w_now x <= until ->
  LeaderAttempt c' ttl x d = (Ok no_leader, d).
Proof.
  intros (l & El & Ec & Eu) Hne Ht. rewrite LeaderAttempt_eq, El. unfold leader_row.
  destruct (_ || _) eqn:E; [|done]. apply orb_true_iff in E as [E|E]; breflect; [lia|congruence].
Qed.

Lemma held_step_holds c until d d' : held_step c until d d' -> holds c until d -> holds c until d'.
Proof.
  destruct 1 as [c' ttl x d Hne Ht|c' x d|c' x d Hne|d d' Hj]; intros Hh.
  - now rewrite (refused c until c' ttl x d Hh Hne Ht).
  - destruct Hh as (l & El & Ec & Eu). unfold holds. destruct (LeaderRequestResign_leader c' x d) as [->|(l0 & El0 & ->)]; [eauto|].
    eexists. split; [done|]. simpl. split; congruence.
  - destruct Hh as (l & El & Ec & Eu). unfold holds. rewrite LeaderResign_leader, El.
    destruct (ld_client_id l =? c') eqn:E; [breflect; congruence|eauto].
  - unfold holds. rewrite (job_step_beside db_leader _ _ Hj). done.
Qed.

(** The lease excludes.  After a client's attempt wins with a TTL and no
    resign request stands, whatever other clients try and whatever jobs do, an
    attempt by another client up to the lease's end is refused and changes
    nothing, unless the holder itself resigns. *)
Theorem leader_excludes c ttl x d res d1 d2 c' ttl' x' :
  LeaderAttempt c ttl x d = (Ok res, d1) -> lt_Leader res = true -> lt_ResignRequested res = false ->
  rtc (held_step c ((w_now x * 1000 + ttl) / 1000)) d1 d2 ->
  c' <> c -> w_now x' <= (w_now x * 1000 + ttl) / 1000 ->
  LeaderAttempt c' ttl' x' d2 = (Ok no_leader, d2).
Proof.
  intros E Hl Hres Hs Hne Ht. set (until := (w_now x * 1000 + ttl) / 1000) in *.
  assert (holds c until d1) as Hh.
  { rewrite LeaderAttempt_eq in E. fold until in E. destruct (leader_row _ _ _ _) as [l|] eqn:Er; [|now simplify_eq].
    injection E as <- <-. simpl in Hres. exists l. split; [done|]. unfold leader_row in Er.
    destruct (db_leader d) as [l0|]; [|simplify_eq; done]. destruct (_ || _); [|done]. injection Er as <-. simpl. split; [done|].
    unfold leader_asked in Hres. simpl in Hres. destruct (leader_renews l0 c (w_now x)) eqn:Ern; [|done]. simpl.
    unfold leader_renews in Ern. breflect. unfold leader_asked. rewrite H, Hres. done. }
  assert (holds c until d2) as Hh2 by (clear -Hs Hh; induction Hs; eauto using held_step_holds).
  eapply refused; eauto.
Qed.

(** A takeover's date is not always later than the term before it: when
    the host's clock is set back by more than 500ms and the holder renews, the
    lease ends at the set-back time plus its TTL, and the takeover after that is
    dated before the term it follows. *)
Theorem leader_takeover_dated_earlier :
  let at_ t := mkW t (fun _ => 0) in
  let second := 1000000 in
  let ttl := 10 * 1000000000 in
  let '(_, d1) := LeaderAttempt 1 ttl (at_ (1000 * second)) empty_db in
  let back := fst (clock (1000 * second) (900 * second)) in
  let '(r2, d2) := LeaderAttempt 1 ttl (at_ back) d1 in
  let later := fst (clock back (911 * second)) in
  let '(r3, d3) := LeaderAttempt 2 ttl (at_ later) d2 in
  r2 = Ok (mkLeaderResult true (1000 * second) false) /\ r3 = Ok (mkLeaderResult true (911 * second) false).
Proof. vm_compute. split; reflexivity. Qed.
