(* ===== verification/LeaderSpec.v ===== *)
(** * One leader at a time: theorems on Leader.v

    Over any run of any number of clients in which the engine's clock never gains
    on a client's, with answers late or lost, at most one has a term whose lease
    it still counts on, and that is the one the engine names; and each client
    announces its terms in turn.  Without the condition on the clocks two clients
    may lead for a while, as leader.go warns. *)

From Stdlib Require Import List ZArith Lia Bool String.
From stdpp Require Import base tactics list functions relations.
From S2P Require Import Prelude Sql Text Json Types Store Logic Cluster Messaging Engine Frame ClusterSpec Leader.
Import ListNotations.
Local Open Scope Z_scope.
Local Open Scope list_scope.

(** ** Client IDs are never given out twice *)

#[export] Instance client_seq_beside : JobSide db_client_seq.
Proof. split; reflexivity. Qed.

Lemma step_client_seq d d' : step d d' -> db_client_seq d <= db_client_seq d'.
Proof.
  assert (Hsame : forall e, db_client_seq e = db_client_seq d -> db_client_seq d <= db_client_seq e) by (intros e ->; lia).
  intros [H|H]%step_cases; [apply Hsame, (job_step_beside db_client_seq), H|]. destruct H.
  2: apply Hsame; unfold ClientRenew, ClientRenew_w; beside_step db_client_seq.
  - unfold ClientRegister. case_match; cbn; lia.
  - apply Hsame. unfold ClientDelete, ClientDelete_w. beside_step db_client_seq.
  - apply Hsame. unfold ClientPruneExpired, ClientPruneExpired_w. beside_step db_client_seq.
  - apply Hsame. unfold LeaderAttempt, LeaderAttempt_w. beside_step db_client_seq.
  - apply Hsame. unfold LeaderRequestResign, LeaderRequestResign_w. beside_step db_client_seq.
  - apply Hsame. unfold LeaderResign, LeaderResign_w. beside_step db_client_seq.
  - apply Hsame. unfold PeriodicInsert, PeriodicInsert_w. beside_step db_client_seq.
  - apply Hsame. unfold PeriodicRegister, PeriodicRegister_w. beside_step db_client_seq.
  - apply Hsame. apply (HistoryMaintain_beside db_client_seq). intros. unfold prune_batch. beside_step db_client_seq.
  - apply Hsame. unfold SubscriptionUpsert. beside_step db_client_seq.
  - apply Hsame. unfold StreamAppend, StreamAppend_w. beside_step db_client_seq.
  - apply Hsame. unfold StreamConsumerUpsert, upsertConsumer. beside_step db_client_seq.
  - apply Hsame. unfold StreamConsumerSeek, StreamConsumerSeek_w. beside_step db_client_seq.
  - apply Hsame. unfold StreamPump, StreamPump_w, pump_event. beside_step db_client_seq.
Qed.

Lemma ClientRegister_id p x d id d' : ClientRegister p x d = (Ok id, d') ->
  id = db_client_seq d + 1 /\ db_client_seq d' = id /\ db_leader d' = db_leader d.
Proof. unfold ClientRegister. case_match; [|discriminate]. cbn. intros [= <- <-]. done. Qed.

(** ** The invariant

    [own] says which client an ID was given to.  A lease whose end a client counts on is in the engine, under an ID of
    that client, until past that time. *)

Section Invariant.
Context (ttl : nat -> Z) (timely : Prop).

(** The engine as a client finds it: its clock and its tables. *)
Definition backed (own : Z -> option nat) (now : Z) (e : Z * DB) (c : nat) (until : Z) : Prop := timely ->
  exists l, db_leader (snd e) = Some l /\ own (ld_client_id l) = Some c /\ until - now < 1000 * (ld_expires_at l + 1) - fst e.

(** A client's events: elected, and then lost or resigned, in turn; whether the last announced a term. *)
Inductive announced : bool -> list leader_event -> Prop :=
| an_none : announced false []
| an_elected evs : announced false evs -> announced true (EventLeaderElected :: evs)
| an_ended e evs : announced true evs -> e <> EventLeaderElected -> announced false (e :: evs).

(** What holds of a client's loop wherever it is. *)
Record core_ok (own : Z -> option nat) (now : Z) (d : Z * DB) (c : nat) (l : loop) : Prop := mkCore {
  co_leader : ll_isLeader l = true <-> ll_term l <> None;
  co_held : ll_isLeader l = true -> ll_held l = true;
  co_lease : ll_held l = true -> own (ll_leaseID l) = Some c;
  co_until : forall t, ll_term l = Some t -> lt_until t <= now + ttl c;
  co_backed : forall t, ll_term l = Some t -> now < lt_until t -> backed own now d c (lt_until t) }.

(** And of the place it is at. *)
Definition place_ok (own : Z -> option nat) (now : Z) (d : Z * DB) (c : nat) (l : loop) : Prop :=
  match ll_place l with
  | Unstarted => ll_held l = false /\ ll_isLeader l = false
  | Sending id => own id = Some c
  | Sent id until _ answer => own id = Some c /\ until <= now + ttl c
      /\ forall r, answer = Some (Ok r) -> lt_Leader r = true -> lt_ResignRequested r = false -> now <= until -> backed own now d c until
  | GivingUp id why => own id = Some c /\ ll_term l = None /\ match why with AfterFence id' => own id' = Some c | _ => True end
  | Stopped => ll_term l = None
  | _ => True
  end.

Definition announces (l : loop) (b : bool) : Prop :=
  match ll_place l with
  | GivingUp _ (OnRequest led) => b = led /\ ll_isLeader l = false
  | GivingUp _ OnStop | Stopped => True
  | _ => b = ll_isLeader l
  end.

Record loop_ok (own : Z -> option nat) (now : Z) (d : Z * DB) (c : nat) (l : loop) : Prop := mkLoopOk {
  lo_id : ll_place l <> Unstarted -> own (ll_clientID l) = Some c;
  lo_core : core_ok own now d c l;
  lo_place : place_ok own now d c l;
  lo_events : exists b, announced b (ll_events l) /\ announces l b }.

Definition sys_ok (s : sys) : Prop := exists own : Z -> option nat,
  (forall id c, own id = Some c -> id <= db_client_seq (sy_db s))
  /\ forall c, loop_ok own (sy_clock s c) (sy_now s, sy_db s) c (sy_loops s c).

(** ** Time and the engine *)

(** What a change of the engine keeps: every lease counted on that has not lapsed. *)
Definition keeps (own : Z -> option nat) (now : Z) (d d' : Z * DB) (c : nat) : Prop :=
  forall u, now <= u -> u <= now + ttl c -> backed own now d c u -> backed own now d' c u.

Lemma keeps_row own now eng d d' c : db_leader d' = db_leader d -> keeps own now (eng, d) (eng, d') c.
Proof. intros E u _ _ Hb T. destruct (Hb T) as (l & ? & ?). exists l. cbn in *. now rewrite E. Qed.

Lemma core_keeps own now d d' c l : keeps own now d d' c -> core_ok own now d c l -> core_ok own now d' c l.
Proof. intros K [C1 C2 C3 C4 C5]. split; try done. intros t Ht Hn. apply K; [lia|eauto|eauto]. Qed.

Lemma loop_keeps own now d d' c l : keeps own now d d' c -> loop_ok own now d c l -> loop_ok own now d' c l.
Proof.
  intros K [H1 H2 H3 H4]. split; [done|now apply (core_keeps own now d)| |done]. unfold place_ok in *. destruct (ll_place l); try done.
  destruct H3 as (P1 & P2 & P3). split_and!; try done. intros r Hr Hl Ha Hn. apply K; eauto.
Qed.

(** As long as the engine's clock gains nothing on the client's. *)
Lemma backed_tick own now now' eng eng' d c u : (timely -> eng' - eng <= now' - now) -> backed own now (eng, d) c u -> backed own now' (eng', d) c u.
Proof. intros Hp Hb T. destruct (Hb T) as (l & ? & ? & ?). exists l. cbn in *. specialize (Hp T). split_and!; [done..|lia]. Qed.

Lemma loop_tick own now now' eng eng' d c l : now <= now' -> (timely -> eng' - eng <= now' - now) ->
  loop_ok own now (eng, d) c l -> loop_ok own now' (eng', d) c l.
Proof.
  intros Hn Hp [H1 [C1 C2 C3 C4 C5] H3 H4]. split; [done| | |done].
  - split; try done; [intros t Ht; specialize (C4 t Ht); lia|]. intros t Ht Hlt. apply (backed_tick own now now' eng); [done|]. apply C5; [done|lia].
  - unfold place_ok in *. destruct (ll_place l); try done. destruct H3 as (P1 & P2 & P3). split_and!; [done|lia|].
    intros r Hr Hl Ha Hle. apply (backed_tick own now now' eng); [done|]. apply (P3 r); [done..|lia].
Qed.

(** More IDs are given out. *)
Definition grows (own own' : Z -> option nat) : Prop := forall id c, own id = Some c -> own' id = Some c.
Lemma backed_grows own own' now d c u : grows own own' -> backed own now d c u -> backed own' now d c u.
Proof. intros G Hb T. destruct (Hb T) as (l & ? & ? & ?). exists l. auto. Qed.
Lemma loop_grows own own' now d c l : grows own own' -> loop_ok own now d c l -> loop_ok own' now d c l.
Proof.
  intros G [H1 [C1 C2 C3 C4 C5] H3 H4]. split; [auto| | |done].
  - split; auto. intros t Ht Hn. apply (backed_grows own); auto.
  - unfold place_ok in *. destruct (ll_place l) as [| | |id u dl a|id why| | |]; try done; [auto| |].
    + destruct H3 as (P1 & P2 & P3). split_and!; [auto|done|]. intros r Hr Hl Ha Hle. apply (backed_grows own); eauto.
    + destruct H3 as (P1 & P2 & P3). split_and!; [auto|done|]. destruct why; auto.
Qed.

(** The engine's attempt. *)
Hypothesis ttl_ok : forall c, 0 <= ttl c /\ ttl c mod 1000 = 0.

Lemma expiry_covers c now eng u : u <= now + ttl c -> u - now < 1000 * ((eng / 1000 * 1000 + ttl c) / 1000 + 1) - eng.
Proof.
  intros Hu. destruct (ttl_ok c) as [H0 Hm]. assert (E : ttl c = 1000 * (ttl c / 1000)) by (pose proof (Z.div_mod (ttl c) 1000); lia).
  rewrite E in Hu |- *. rewrite (Z.mul_comm 1000 (_ / 1000)), <- Z.mul_add_distr_r, Z.div_mul by done.
  pose proof (Z.div_mod eng 1000 ltac:(lia)). pose proof (Z.mod_pos_bound eng 1000 ltac:(lia)). lia.
Qed.

(** A lease still counted on is not taken by another ID. *)
Lemma not_lapsed own now eng d c u l : timely -> backed own now (eng, d) c u -> db_leader d = Some l -> now <= u -> eng / 1000 <= ld_expires_at l.
Proof.
  intros T Hb El' Hn. destruct (Hb T) as (l' & El & _ & Hu). cbn in *. assert (l' = l) as -> by congruence. pose proof (Z.div_mod eng 1000 ltac:(lia)).
  pose proof (Z.mod_pos_bound eng 1000 ltac:(lia)). lia.
Qed.

Lemma LeaderAttempt_keeps own now eng id c0 x d c : own id = Some c0 -> reads_clock eng x ->
  keeps own now (eng, d) (eng, snd (LeaderAttempt id (ttl c0) x d)) c.
Proof.
  intros Ho Hx u Hn Hu Hb T. rewrite LeaderAttempt_eq, Hx. destruct (Hb T) as (l & El & Hl & Hlt). cbn in El, Hlt. unfold leader_row. rewrite El.
  pose proof (not_lapsed own now eng d c u l T Hb El Hn) as Hle. destruct (_ || _) eqn:E; [|now exists l]. cbn [snd fst]. eexists. split; [reflexivity|]. cbn.
  apply orb_true_iff in E as [E|E]; breflect; [lia|]. assert (c = c0) as -> by congruence. split; [done|]. unfold leader_renews.
  rewrite E, Z.eqb_refl, Z.geb_leb, (proj2 (Z.leb_le _ _)) by lia. cbn [andb]. destruct (leader_asked l); [done|now apply expiry_covers].
Qed.

Lemma LeaderAttempt_backed own now eng id c x d r d' u : own id = Some c -> reads_clock eng x -> LeaderAttempt id (ttl c) x d = (Ok r, d') ->
  lt_Leader r = true -> lt_ResignRequested r = false -> u <= now + ttl c -> backed own now (eng, d') c u.
Proof.
  intros Ho Hx. rewrite LeaderAttempt_eq, Hx. destruct (leader_row _ _ _ _) as [l|] eqn:Er; [|intros [= <- _]; done]. intros [= <- <-] _ Ha Hu _.
  exists l. split; [done|]. cbn [lt_ResignRequested] in Ha. pose proof (expiry_covers c now eng u Hu) as Hc. unfold leader_row in Er. cbn [fst].
  destruct (db_leader d) as [l0|]; [|injection Er as <-; done]. destruct (_ || _); [|discriminate Er]. injection Er as <-. cbn in *. split; [done|].
  destruct (leader_renews l0 id (eng / 1000)) eqn:Ern; [|done]. cbn in *. unfold leader_renews in Ern. breflect. unfold leader_asked in *. cbn in Ha. subst id. rewrite Ha. done.
Qed.

Lemma LeaderResign_keeps own now eng id c0 x d c : own id = Some c0 -> c <> c0 -> keeps own now (eng, d) (eng, snd (LeaderResign id x d)) c.
Proof.
  intros Ho Hne u _ _ Hb T. destruct (Hb T) as (l & El & Hl & Hu). cbn in *. exists l. cbn. rewrite LeaderResign_leader, El.
  destruct (ld_client_id l =? id) eqn:E; [breflect; congruence|done].
Qed.

Lemma LeaderRequestResign_keeps own now eng id x d c : keeps own now (eng, d) (eng, snd (LeaderRequestResign id x d)) c.
Proof.
  intros u _ _ Hb T. destruct (Hb T) as (l & El & Hl & Hu). cbn in *.
  destruct (LeaderRequestResign_leader id x d) as [E|(l0 & El0 & E)]; [exists l; cbn; now rewrite E|].
  rewrite El in El0. injection El0 as <-. eexists. split; [exact E|done].
Qed.

(** ** The loop's parts *)

(** A loop between its places, with its last announcement. *)
Definition good (own : Z -> option nat) (now : Z) (d : Z * DB) (c : nat) (l : loop) : Prop :=
  core_ok own now d c l /\ announced (ll_isLeader l) (ll_events l).

(** What the parts leave alone. *)
Definition kept (l : loop) : Z * Z * Z * bool * place := (ll_clientID l, ll_leaseID l, ll_electedAt l, ll_held l, ll_place l).

Lemma swap_lose_good own now d c l : good own now d c l ->
  good own now d c (swap_lose l) /\ ll_isLeader (swap_lose l) = false /\ ll_term (swap_lose l) = None /\ kept (swap_lose l) = kept l.
Proof.
  intros [[C1 C2 C3 C4 C5] Ha]. unfold swap_lose, lose, emit_leader, good. destruct (ll_isLeader l) eqn:E; cbn.
  - split; [|done]. split; [split; cbn; naive_solver|]. now apply an_ended.
  - assert (ll_term l = None) by (destruct (ll_term l); [|done]; destruct C1 as [_ C1]; discriminate C1; done).
    rewrite E. split; [|done]. split; [split; rewrite ?E; naive_solver|done].
Qed.

Lemma endLapsed_good own now d c l : good own now d c l -> good own now d c (fst (endLapsed now l)) /\ kept (fst (endLapsed now l)) = kept l.
Proof.
  intros Hg. unfold endLapsed. destruct (ll_term l); [|done]. destruct (_ && _); [|done]. cbn [fst]. destruct (swap_lose_good _ _ _ _ _ Hg) as (? & _ & _ & ?). done.
Qed.

(** An answer that leaves the lease with the client backs its end. *)
Definition answer_backed (own : Z -> option nat) (now : Z) (d : Z * DB) (c : nat) (until : Z) (out : result LeaderResult) : Prop :=
  until <= now + ttl c
  /\ forall r, out = Ok r -> lt_Leader r = true -> lt_ResignRequested r = false -> now <= until -> backed own now d c until.

Lemma renewal_good own now d c until out l : good own now d c l -> answer_backed own now d c until out ->
  good own now d c (fst (renewal now until out l)) /\ kept (fst (renewal now until out l)) = kept l.
Proof.
  intros Hg [Hu Hb]. unfold renewal. destruct (ll_term l) as [t|] eqn:Et; [|done]. set (ours := match out with Ok _ => _ | Err _ => false end).
  set (asked := match out with Ok _ => _ | Err _ => false end). destruct (ours && negb asked) eqn:Eo.
  - unfold fence_renew. destruct (Z.leb_spec (lt_until t) now); [apply endLapsed_good, Hg|]. cbn [fst]. split; [|done].
    unfold ours, asked in Eo. destruct out as [r|]; [|discriminate Eo]. breflect. destruct Hg as [[C1 C2 C3 C4 C5] Ha]. split; [|done].
    split; cbn; try done; [|naive_solver|].
    + rewrite C1, Et. split; done.
    + intros t' [= <-]. cbn. intros Hn. apply (Hb r); [done..|lia].
  - destruct ours; [done|]. apply endLapsed_good, Hg.
Qed.

Lemma other_term_good own now d c out l : good own now d c l -> good own now d c (other_term out l) /\ kept (other_term out l) = kept l.
Proof.
  intros Hg. unfold other_term. destruct out as [r|]; [|done]. destruct (_ && _); [|done]. destruct (swap_lose_good _ _ _ _ _ Hg) as (? & _ & _ & ?). done.
Qed.

(** A good loop at a place of its own. *)
Lemma good_loop_ok own now d c l : good own now d c l -> own (ll_clientID l) = Some c -> place_ok own now d c l -> announces l (ll_isLeader l) -> loop_ok own now d c l.
Proof. intros [Hc Ha] Hi Hp Hn. split; eauto. Qed.

Lemma kept_id l l' : kept l' = kept l -> ll_clientID l' = ll_clientID l.
Proof. unfold kept. congruence. Qed.

(** The ends of a lease the loop counts on do not depend on where it is. *)
Lemma core_at own now d c l p : core_ok own now d c l -> core_ok own now d c (l <| ll_place := p |>).
Proof. intros [C1 C2 C3 C4 C5]. now split. Qed.

Lemma attempt_answered_ok own now d c id until out l : good own now d c l -> own (ll_clientID l) = Some c -> own id = Some c ->
  answer_backed own now d c until out -> loop_ok own now d c (answered now id until out l).
Proof.
  intros Hg Hi Ho Hb. unfold answered. destruct (renewal_good own now d c until out l Hg Hb) as [G1 K1].
  destruct (renewal now until out l) as [l1 lapsed]. cbn [fst] in G1, K1. destruct (other_term_good own now d c out l1 G1) as [G2 K2].
  set (l2 := other_term out l1) in *. assert (Hi2 : own (ll_clientID l2) = Some c) by (rewrite (kept_id _ _ K2), (kept_id _ _ K1); done).
  clearbody l2. clear l1 K1 K2 G1. destruct Hb as [Hu Hb]. destruct out as [r|e].
  2: { apply good_loop_ok; cbn; [destruct G2; split; [now apply core_at|done]|done| |]; unfold place_ok, announces; cbn; now destruct lapsed. }
  destruct (lt_ResignRequested r) eqn:Er; [|destruct (lt_Leader r) eqn:El].
  - destruct G2 as [[C1 C2 C3 C4 C5] Ha]. split; cbn; [done|split; cbn; naive_solver|unfold place_ok; cbn; done|].
    exists (ll_isLeader l2). done.
  - cbv zeta. match goal with |- context [if ll_isLeader ?x then _ else _] => change (ll_isLeader x) with (ll_isLeader l2) end.
    destruct G2 as [[C1 C2 C3 C4 C5] Ha]. destruct (ll_isLeader l2) eqn:Eis.
    + apply good_loop_ok; [|unfold place_ok, announces; cbn; done..]. split; [|cbn; now rewrite Eis]. split; cbn; try done. now rewrite Eis.
    + apply good_loop_ok; [|unfold place_ok, announces; cbn; done..]. unfold emit_leader. split; cbn; [|now apply an_elected]. split; cbn; try done.
      * intros t [= <-]. cbn. exact Hu.
      * intros t [= <-]. cbn. intros Hn. apply (Hb r); [done..|lia].
  - assert (G3 : good own now d c (swap_lose l2)) by now apply swap_lose_good.
    destruct (swap_lose_good _ _ _ _ _ G2) as (_ & E1 & E2 & K).
    assert (swap_lose (l2 <| ll_held := false |>) = (swap_lose l2) <| ll_held := false |>) as -> by (unfold swap_lose; cbn; now destruct (ll_isLeader l2)).
    apply good_loop_ok; [|cbn; now rewrite (kept_id _ _ K)|done|done]. destruct G3 as [[C1 C2 C3 C4 C5] Ha]. split; [|done]. split; cbn; try done. now rewrite E1.
Qed.

(** A loop in the ordinary places is good, and its place is kept as it moves to another. *)
Definition plain (p : place) : Prop := match p with GivingUp _ _ | Stopped | Unstarted => False | _ => True end.

Lemma loop_good own now d c l : loop_ok own now d c l -> plain (ll_place l) -> good own now d c l /\ own (ll_clientID l) = Some c.
Proof.
  intros [H1 H2 _ (b & Ha & Hn)] Hp. unfold announces in Hn. destruct (ll_place l) eqn:E; try done; subst b; (split; [now split|]); apply H1; congruence.
Qed.

Lemma moves own now d c l p : good own now d c l -> own (ll_clientID l) = Some c -> plain p -> place_ok own now d c (l <| ll_place := p |>) ->
  loop_ok own now d c (l <| ll_place := p |>).
Proof.
  intros [Hc Ha] Hi Hp Ho. apply good_loop_ok; [|done..|]; [split; [now apply core_at|done]|]. unfold announces. cbn. now destruct p.
Qed.

Lemma loop_top_ok own now d c l : loop_ok own now d c l -> ll_place l = Top -> loop_ok own now d c (loop_top now l).
Proof.
  intros H Hp. destruct (loop_good _ _ _ _ _ H) as [Hg Hi]; [now rewrite Hp|]. unfold loop_top.
  destruct (endLapsed_good _ _ _ _ _ Hg) as [G K]. set (l1 := fst (endLapsed now l)) in *. clearbody l1.
  assert (Hi1 : own (ll_clientID l1) = Some c) by now rewrite (kept_id _ _ K).
  destruct (ll_held l1 && negb (ll_leaseID l1 =? ll_clientID l)) eqn:E; [|now apply moves]. breflect.
  destruct (swap_lose_good _ _ _ _ _ G) as (G2 & E1 & E2 & K2). destruct G2 as [[C1 C2 C3 C4 C5] Ha].
  assert (Hl : own (ll_leaseID l1) = Some c) by (destruct G as [[] _]; auto).
  split; cbn; [now rewrite (kept_id _ _ K2)|split; cbn; try done; now rewrite E1|unfold place_ok; cbn; done|]. exists (ll_isLeader (swap_lose l1)). done.
Qed.

Lemma send_ok own now d c id l : loop_ok own now d c l -> ll_place l = Sending id -> loop_ok own now d c (send (ttl c) now id l).
Proof.
  intros H Hp. destruct (loop_good _ _ _ _ _ H) as [Hg Hi]; [now rewrite Hp|]. apply moves; [done|done|done|].
  pose proof (lo_place _ _ _ _ _ H) as Ho. unfold place_ok in *. rewrite Hp in Ho. cbn. split_and!; [done|lia|done].
Qed.

Lemma given_up_ok own now d c id why l : loop_ok own now d c l -> ll_place l = GivingUp id why -> loop_ok own now d c (given_up (ttl c) now why l).
Proof.
  intros [H1 H2 H3 (b & Ha & Hn)] Hp. unfold place_ok in H3. unfold announces in Hn. rewrite Hp in *. destruct H3 as (_ & Ht & Hw). specialize (H1 ltac:(done)).
  destruct why as [id'|led|]; unfold given_up.
  - split; cbn; [done|now apply core_at|done|]. eauto.
  - destruct Hn as [-> Hl]. split.
    + destruct led; cbn; done.
    + destruct led; [|now apply core_at]. destruct H2. now split.
    + unfold place_ok. destruct led; done.
    + unfold announces. destruct led; cbn; [|eauto]. exists false. split; [now apply an_ended|done].
  - split; cbn; [done|now apply core_at|done|]. exists b. done.
Qed.

Lemma loop_stop_ok own now d c l : good own now d c l -> own (ll_clientID l) = Some c -> loop_ok own now d c (loop_stop l).
Proof.
  intros [[C1 C2 C3 C4 C5] Ha] Hi. unfold loop_stop.
  match goal with |- context [ll_isLeader ?x || ll_held ?x] => change (ll_isLeader x) with (ll_isLeader l); change (ll_held x) with (ll_held l) end.
  destruct (ll_isLeader l || ll_held l) eqn:E.
  - assert (own (ll_leaseID l) = Some c) by (apply C3; apply orb_true_iff in E as [|]; auto).
    split; cbn; [done|split; cbn; naive_solver|unfold place_ok; cbn; done|]. eexists. split; [exact Ha|done].
  - apply orb_false_iff in E as [E1 E2]. split; cbn; [done|split; cbn; rewrite ?E1, ?E2; naive_solver|done|]. eexists. split; [exact Ha|done].
Qed.

Lemma lost_backed own now d c until e : until <= now + ttl c -> answer_backed own now d c until (Err e).
Proof. intros H. split; [done|]. intros r [=]. Qed.

Lemma stopping_ok own now d c l l' : loop_ok own now d c l -> stopping now l = Some l' -> loop_ok own now d c l'.
Proof.
  intros H E. unfold stopping in E. destruct (ll_place l) as [| | |id u dl a| | | |] eqn:Hp; try discriminate E; injection E as <-.
  2,3: destruct (loop_good _ _ _ _ _ H) as [Hg Hi]; [now rewrite Hp|]; now apply loop_stop_ok.
  destruct (loop_good _ _ _ _ _ H) as [Hg Hi]; [now rewrite Hp|]. pose proof (lo_place _ _ _ _ _ H) as Ho. unfold place_ok in Ho. rewrite Hp in Ho.
  destruct Ho as (_ & Hu & _). destruct (renewal_good _ _ _ _ u _ _ Hg (lost_backed own now d c u (ErrText "context canceled") Hu)) as [G K].
  apply loop_stop_ok; [done|]. now rewrite (kept_id _ _ K).
Qed.

Lemma fence_fires_ok own now d c t l : loop_ok own now d c l -> ll_term l = Some t -> loop_ok own now d c (l <| ll_term := Some (fence_fires now t) |>).
Proof.
  intros [H1 [C1 C2 C3 C4 C5] H3 H4] Ht. assert (Hu : lt_until (fence_fires now t) = lt_until t) by (unfold fence_fires; now case_match).
  split; [done| | |done].
  - split; cbn; try done; [rewrite C1, Ht; done| |]; intros t' [= <-]; rewrite Hu; eauto.
  - unfold place_ok in *. cbn. destruct (ll_place l); try done; [destruct H3 as (? & ? & ?)|]; congruence.
Qed.

(** ** Every step *)

Lemma set_loop_ok own ck e c l f : (forall c', loop_ok own (ck c') e c' (f c')) -> loop_ok own (ck c) e c l ->
  forall c', loop_ok own (ck c') e c' (set_loop c l f c').
Proof. intros Hf Hl c'. unfold set_loop. destruct (decide (c = c')) as [<-|Hne]; [now rewrite fn_lookup_insert|now rewrite fn_lookup_insert_ne]. Qed.

Definition given (own : Z -> option nat) (id : Z) (c : nat) : Z -> option nat := fun i => if i =? id then Some c else own i.

Lemma given_grows own id c (n : Z) : (forall i k, own i = Some k -> i <= n) -> id = n + 1 -> grows own (given own id c).
Proof. intros Hb -> i k Hk. unfold given. specialize (Hb i k Hk). now rewrite (proj2 (Z.eqb_neq _ _)) by lia. Qed.

Lemma register_ok own eng ck d d' c id p x f g : (forall i k, own i = Some k -> i <= db_client_seq d) ->
  (forall c', loop_ok own (ck c') (eng, d) c' (f c')) -> ClientRegister p x d = (Ok id, d') ->
  (forall own', own' id = Some c -> loop_ok own' (ck c) (eng, d') c (f c) -> loop_ok own' (ck c) (eng, d') c (g (f c))) ->
  sys_ok (mkSys eng ck d' (set_loop c (g (f c)) f)).
Proof.
  intros Hb Hf E Hg. apply ClientRegister_id in E as (Ei & Es & El). exists (given own id c). cbn. pose proof (given_grows own id c _ Hb Ei) as G. split.
  - intros i k. unfold given. destruct (Z.eqb_spec i id) as [->|]; [intros _; lia|]. intros Hk. specialize (Hb i k Hk). lia.
  - assert (Hf' : forall c', loop_ok (given own id c) (ck c') (eng, d') c' (f c')).
    { intros c'. apply (loop_keeps _ _ (eng, d)); [now apply keeps_row|]. now apply (loop_grows own). }
    apply set_loop_ok; [done|]. apply Hg; [unfold given; now rewrite Z.eqb_refl|done].
Qed.

Lemma sys_step_ok s s' : sys_step ttl timely s s' -> sys_ok s -> sys_ok s'.
Proof.
  intros Hs (own & Hb & Hf). destruct Hs; cbn in Hb, Hf.
  - exists own. split; [done|]. intros c. eapply (loop_tick own (ck c) (ck' c) eng); [apply H|intros T; apply (H0 T)|apply Hf].
  - exists own. cbn. split; [intros i k Hk; pose proof (step_client_seq _ _ H); specialize (Hb i k Hk); lia|]. intros c. apply (loop_keeps _ _ (eng, d)); [now apply keeps_row|done].
  - exists own. cbn. split.
    { intros i k Hk. pose proof (step_client_seq _ _ (step_LeaderRequestResign id x d)). specialize (Hb i k Hk). lia. }
    intros c. apply (loop_keeps _ _ (eng, d)); [apply LeaderRequestResign_keeps|done].
  - eapply (register_ok own eng ck d d' c id p x f (fun l => l <| ll_clientID := id |> <| ll_place := Top |>)); [done..|].
    intros own' Ho [_ [C1 C2 C3 C4 C5] H3 (b & Ha & Hn)]. unfold place_ok, announces in *. rewrite H in *. split; cbn; [done|now split|done|]. exists b. done.
  - eapply (register_ok own eng ck d d' c id p x f (fun l => l <| ll_clientID := id |>)); [done..|].
    intros own' Ho [_ [C1 C2 C3 C4 C5] H3 H4]. split; cbn; [done|now split|done|done].
  - exists own. split; [done|]. apply set_loop_ok; [done|]. now apply fence_fires_ok.
  - exists own. split; [done|]. apply set_loop_ok; [done|]. now apply loop_top_ok.
  - exists own. split; [done|]. apply set_loop_ok; [done|]. now apply send_ok.
  - pose proof (lo_place _ _ _ _ _ (Hf c)) as Ho. unfold place_ok in Ho. rewrite H in Ho. destruct Ho as (Ho & Hu & _).
    assert (Hk : forall c', keeps own (ck c') (eng, d) (eng, d') c').
    { intros c'. pose proof (LeaderAttempt_keeps own (ck c') eng id c x d c' Ho H0) as Hk. now rewrite H1 in Hk. }
    assert (Hf' : forall c', loop_ok own (ck c') (eng, d') c' (f c')) by (intros c'; now apply (loop_keeps _ _ (eng, d))).
    exists own. cbn. split.
    { intros i k Hi. pose proof (step_client_seq _ _ (step_LeaderAttempt id (ttl c) x d)) as Hq. rewrite H1 in Hq. cbn in Hq. specialize (Hb i k Hi). lia. }
    apply set_loop_ok; [done|]. destruct (loop_good _ _ _ _ _ (Hf' c)) as [Hg Hi]; [now rewrite H|]. apply moves; [done..|].
    unfold place_ok. cbn. split_and!; [done..|]. intros r0 [= ->] Hl Ha Hn. now apply (LeaderAttempt_backed own (ck c) eng id c x d r0 d').
  - exists own. split; [done|]. apply set_loop_ok; [done|]. destruct (loop_good _ _ _ _ _ (Hf c)) as [Hg Hi]; [now rewrite H|].
    pose proof (lo_place _ _ _ _ _ (Hf c)) as Ho. unfold place_ok in Ho. rewrite H in Ho. destruct Ho as (Ho & Hu & Hp).
    apply attempt_answered_ok; [done..|]. split; [done|]. intros r0 -> Hl Ha Hn. now apply (Hp r0).
  - exists own. split; [done|]. apply set_loop_ok; [done|]. destruct (loop_good _ _ _ _ _ (Hf c)) as [Hg Hi]; [now rewrite H|].
    pose proof (lo_place _ _ _ _ _ (Hf c)) as Ho. unfold place_ok in Ho. rewrite H in Ho. destruct Ho as (Ho & Hu & _).
    apply attempt_answered_ok; [done..|]. now apply lost_backed.
  - pose proof (lo_place _ _ _ _ _ (Hf c)) as Ho. unfold place_ok in Ho. rewrite H in Ho. destruct Ho as (Ho & Ht & Hw). exists own. cbn. split.
    { intros i k Hi. pose proof (step_client_seq _ _ (step_LeaderResign id x d)). specialize (Hb i k Hi). lia. }
    intros c'. destruct (decide (c' = c)) as [->|Hne]; [|apply (loop_keeps _ _ (eng, d)); [now apply (LeaderResign_keeps own (ck c') eng id c)|done]].
    destruct (Hf c) as [H1 [C1 C2 C3 C4 C5] H3 H4]. split; [done|split; try done; rewrite Ht; done| |done]. unfold place_ok. rewrite H. done.
  - exists own. split; [done|]. apply set_loop_ok; [done|]. now apply (given_up_ok own (ck c) (eng, d) c id).
  - exists own. split; [done|]. apply set_loop_ok; [done|]. destruct (loop_good _ _ _ _ _ (Hf c)) as [Hg Hi]; [now rewrite H|]. now apply moves.
  - exists own. split; [done|]. apply set_loop_ok; [done|]. destruct (loop_good _ _ _ _ _ (Hf c)) as [Hg Hi]; [now rewrite H|]. now apply moves.
  - exists own. split; [done|]. apply set_loop_ok; [done|]. now apply (stopping_ok own (ck c) (eng, d) c (f c)).
Qed.

Lemma sys_start_ok eng ck : sys_ok (sys_start eng ck).
Proof.
  exists (fun _ => None). split; [done|]. intros c. split; cbn; [done|split; cbn; done|done|]. exists false. split; [constructor|done].
Qed.

Lemma sys_reachable_ok s : sys_reachable ttl timely s -> sys_ok s.
Proof. intros (eng & ck & Hr). pose proof (sys_start_ok eng ck) as H. induction Hr; [done|]. apply IHHr. eapply sys_step_ok; eauto. Qed.
End Invariant.

(** The client has a term and its lease has not lapsed by its own clock. *)
Definition leads (s : sys) (c : nat) : Prop := exists t, ll_term (sy_loops s c) = Some t /\ sy_clock s c < lt_until t.

(** Runs in which the engine's clock never gains on a client's. *)
Definition timely_reachable (ttl : nat -> Z) : sys -> Prop := sys_reachable ttl True.

(** C3:
    At most one client leads, as long as the engine's clock never gains on a client's.  Every client has a clock of its
    own, which never goes back; the engine's may lag behind them, stand or be set back, but between two moments it
    advances no further than any client's.  Then over any run of any number of clients and of the engine, with attempts
    answered late or never, clients fenced and re-registered, asked to resign and stopped, and lease lengths of whole
    microseconds: two clients never both have a term whose lease has not lapsed by their own clocks; while a client has
    one, the engine's lease lasts beyond the engine's present; and a client that is giving its lease up has ended its
    term.  A term past that moment is canceled, but its loops may still be ending; and [two_leaders] shows the condition
    on the clocks needed. *)
Theorem one_leader ttl s : (forall c, 0 <= ttl c /\ ttl c mod 1000 = 0) -> timely_reachable ttl s ->
  (forall c c', leads s c -> leads s c' -> c = c')
  /\ (forall c, leads s c -> exists l, db_leader (sy_db s) = Some l /\ sy_now s / 1000 <= ld_expires_at l)
  /\ (forall c id why, ll_place (sy_loops s c) = GivingUp id why -> ll_term (sy_loops s c) = None).
Proof.
  intros Httl Hr. destruct (sys_reachable_ok ttl True Httl s Hr) as (own & _ & Hf).
  assert (Hb : forall c, leads s c -> exists u, sy_clock s c <= u /\ backed True own (sy_clock s c) (sy_now s, sy_db s) c u).
  { intros c (t & Ht & Hn). exists (lt_until t). split; [lia|]. now apply (co_backed _ _ _ _ _ _ _ (lo_core _ _ _ _ _ _ _ (Hf c))). }
  split; [|split].
  - intros c c' (u & _ & Hk)%Hb (u' & _ & Hk')%Hb. destruct (Hk I) as (l & El & Ho & _), (Hk' I) as (l' & El' & Ho' & _). cbn in *. congruence.
  - intros c (u & Hn & Hk)%Hb. destruct (Hk I) as (l & El & _). exists l. split; [done|]. now apply (not_lapsed True own (sy_clock s c) (sy_now s) (sy_db s) c u).
  - intros c id why Hp. pose proof (lo_place _ _ _ _ _ _ _ (Hf c)) as H. unfold place_ok in H. rewrite Hp in H. apply H.
Qed.

(** A run of two clients whose clocks differ, in which the second is elected. *)
Definition two_ttl : nat -> Z := fun _ => 10000000000.
Lemma two_ttl_ok c : 0 <= two_ttl c /\ two_ttl c mod 1000 = 0.
Proof. split; [unfold two_ttl; lia|reflexivity]. Qed.

Definition two_clocks (n : Z) : nat -> Z := fun c => 40 * Z.of_nat c + n.
Local Notation at_w n := (mkW n (fun _ => 0)).

Lemma second_elected : exists s, timely_reachable two_ttl s /\ leads s 1.
Proof.
  eexists. split.
  - exists 5000123, (two_clocks 7). eapply rtc_l. { apply (sy_start two_ttl True _ _ 0 (mkClientRegisterParams "a" 1 "") (at_w 5000)); vm_compute; reflexivity. }
    eapply rtc_l. { apply (sy_start two_ttl True _ _ 1 (mkClientRegisterParams "b" 1 "") (at_w 5000)); vm_compute; reflexivity. }
    eapply rtc_l. { apply (sy_top two_ttl True _ _ 1). vm_compute. reflexivity. }
    eapply rtc_l. { apply (sy_send two_ttl True _ _ 1 2). vm_compute. reflexivity. }
    eapply rtc_l. { apply (sy_tick two_ttl True _ 7000999 _ (two_clocks 3000007)); unfold paced, two_clocks; intros; lia. }
    eapply rtc_l. { eapply (sy_attempt two_ttl True _ _ 1 2 _ _ (at_w 7000)); vm_compute; reflexivity. }
    eapply rtc_l. { eapply (sy_answer two_ttl True _ _ 1 2). vm_compute. reflexivity. }
    apply rtc_refl.
  - eexists. split; [vm_compute; reflexivity|]. vm_compute. reflexivity.
Qed.

Lemma one_leader_witness : exists s, timely_reachable two_ttl s /\ leads s 1 /\ forall c, leads s c -> c = 1%nat.
Proof.
  destruct second_elected as (s & Hr & Hl). exists s. split; [done|]. split; [done|]. intros c Hc. symmetry.
  exact (proj1 (one_leader two_ttl s two_ttl_ok Hr) 1%nat c Hl Hc).
Defined.

(** Without the condition two clients do lead at once, which is why the duties are idempotent: a client elected at the
    engine's five seconds still counts on its lease when the engine's clock is set eleven seconds on and elects another. *)
Lemma two_leaders : exists s, sys_reachable two_ttl False s /\ leads s 0 /\ leads s 1.
Proof.
  eexists. split.
  - exists 5000000000, (two_clocks 7). eapply rtc_l. { apply (sy_start two_ttl False _ _ 0 (mkClientRegisterParams "a" 1 "") (at_w 5000000)); vm_compute; reflexivity. }
    eapply rtc_l. { apply (sy_start two_ttl False _ _ 1 (mkClientRegisterParams "b" 1 "") (at_w 5000000)); vm_compute; reflexivity. }
    eapply rtc_l. { apply (sy_top two_ttl False _ _ 0). vm_compute. reflexivity. }
    eapply rtc_l. { apply (sy_send two_ttl False _ _ 0 1). vm_compute. reflexivity. }
    eapply rtc_l. { eapply (sy_attempt two_ttl False _ _ 0 1 _ _ (at_w 5000000)); vm_compute; reflexivity. }
    eapply rtc_l. { eapply (sy_answer two_ttl False _ _ 0 1). vm_compute. reflexivity. }
    eapply rtc_l. { apply (sy_tick two_ttl False _ 16000000000 _ (two_clocks 1007)); [unfold two_clocks; intros; lia|done]. }
    eapply rtc_l. { apply (sy_top two_ttl False _ _ 1). vm_compute. reflexivity. }
    eapply rtc_l. { apply (sy_send two_ttl False _ _ 1 2). vm_compute. reflexivity. }
    eapply rtc_l. { eapply (sy_attempt two_ttl False _ _ 1 2 _ _ (at_w 16000000)); vm_compute; reflexivity. }
    eapply rtc_l. { eapply (sy_answer two_ttl False _ _ 1 2). vm_compute. reflexivity. }
    apply rtc_refl.
  - split; (eexists; split; [vm_compute; reflexivity|vm_compute; reflexivity]).
Qed.

(** C36:
    A client announces its terms in turn: over any run, however the clocks go and with lease lengths of whole
    microseconds, the events it emits are leader_elected and then, once and before the next, leader_lost or
    leader_resigned; and while it has a term, the last announced its election. *)
Theorem leader_events_alternate ttl timely s c : (forall c, 0 <= ttl c /\ ttl c mod 1000 = 0) -> sys_reachable ttl timely s ->
  exists b, announced b (ll_events (sy_loops s c)) /\ (ll_term (sy_loops s c) <> None -> b = true).
Proof.
  intros Httl Hr. destruct (sys_reachable_ok ttl timely Httl s Hr) as (own & _ & Hf). destruct (Hf c) as [_ [C1 _ _ _ _] H3 (b & Ha & Hn)].
  exists b. split; [done|]. intros Ht. pose proof (proj2 C1 Ht) as Hl. unfold announces, place_ok in *.
  destruct (ll_place (sy_loops s c)) as [| | | |id [|led|]| | |]; try congruence; try (destruct H3 as (_ & ? & _); congruence).
Qed.

Lemma leader_events_alternate_witness : exists s, timely_reachable two_ttl s /\ announced true (ll_events (sy_loops s 1)).
Proof.
  destruct second_elected as (s & Hr & t & Ht & Hn). exists s. split; [done|].
  destruct (leader_events_alternate two_ttl True s 1 two_ttl_ok Hr) as (b & Ha & Hb). rewrite Hb in Ha; [done|]. now rewrite Ht.
Defined.
