(* ===== verification/StreamSpec.v ===== *)
(** * Streams: theorems on Messaging.v

    The log is in order in every reachable database, and pumping a consumer
    delivers each matching event exactly once, in order. *)

From Stdlib Require Import List ZArith Lia Bool String Sorted.
From stdpp Require Import base tactics list relations.
From S2P Require Import Prelude Sql Text Json Types Store Logic JobId Codec Insert Finalize Claim Control Leases.
From S2P Require Import Workflow Cluster Topics Messaging Evolution Engine Frame ClusterSpec.
Import ListNotations.
Local Open Scope Z_scope.

(** ** The log is in order *)

Record events_ok (d : DB) : Prop := {
  eo_sorted : StronglySorted (fun a b => e_seq a < e_seq b) (db_events d);
  eo_bound : Forall (fun e => 0 < e_seq e <= db_event_seq d) (db_events d);
  eo_seq : 0 <= db_event_seq d }.

Lemma StronglySorted_filter {A} (R : A -> A -> Prop) p (l : list A) : StronglySorted R l -> StronglySorted R (List.filter p l).
Proof.
  induction 1 as [|a l Hl IH Ha]; simpl; [constructor|]. destruct (p a); [|done]. constructor; [done|].
  rewrite List.Forall_forall in *. intros b [Hb _]%filter_In. auto.
Qed.

Lemma StronglySorted_snoc {A} (R : A -> A -> Prop) (l : list A) x :
  StronglySorted R l -> (forall a, In a l -> R a x) -> StronglySorted R (l ++ [x]).
Proof.
  induction 1 as [|a l Hl IH Ha]; simpl; intros H; [repeat constructor|].
  constructor; [apply IH; auto|]. apply List.Forall_app. auto.
Qed.

Lemma events_ok_same d d' : events_of d' = events_of d -> events_ok d -> events_ok d'.
Proof. intros [= E1 E2] []. split; rewrite ?E1, ?E2; done. Qed.

Lemma events_ok_del d p : events_ok d -> events_ok (d <| db_events ::= del p |>).
Proof. intros []. split; simpl; [now apply StronglySorted_filter|now apply Forall_del|done]. Qed.

Lemma insert_event_ok t k p h id x d e d' : insert_event t k p h id x d = Ok (e, d') -> events_ok d -> events_ok d'.
Proof.
  unfold insert_event. intros [= <- <-] [H1 H2 H3]. rewrite List.Forall_forall in H2. split; simpl; [| |lia].
  - apply StronglySorted_snoc; [done|]. intros a Ha. simpl. specialize (H2 a Ha). lia.
  - apply List.Forall_app. split; [apply List.Forall_forall; intros a Ha; specialize (H2 a Ha); lia|repeat constructor; simpl; lia].
Qed.

Definition keeps_events (d d' : DB) : Prop := events_ok d -> events_ok d'.
#[export] Instance keeps_events_preorder : PreOrder keeps_events.
Proof. split; unfold keeps_events; [now intros d|]. intros a b c. tauto. Qed.

Lemma keeps_events_beside {A} (m : W A) : respects (same_of events_of) m -> respects keeps_events m.
Proof. intros H x d a d' E. exact (events_ok_same d d' (H _ _ _ _ E)). Qed.

Lemma StreamAppend_events p payload : respects keeps_events (StreamAppend_w p payload).
Proof.
  unfold StreamAppend_w. repeat respects_step.
  - apply keeps_events_beside, (newID_beside events_of).
  - intros x d e d' E. exact (insert_event_ok _ _ _ _ _ _ _ _ _ E).
  - apply keeps_events_beside, (notify_beside events_of).
Qed.

Lemma prune_batch_events g keep : respects keeps_events (prune_batch g keep).
Proof.
  unfold prune_batch. repeat respects_step; apply respects_modify; intros d.
  - intros H. apply (events_ok_same d); done.
  - intros H. apply (events_ok_same d); done.
  - intros H. now apply events_ok_del.
Qed.

Lemma keeps_write {A} (m : W A) x d : respects keeps_events m -> keeps_events d (snd (write m x d)).
Proof. intros H. destruct (write m x d) as [r d'] eqn:E. exact (respects_write keeps_events m x d r d' H E). Qed.

Lemma prune_group_events fuel g keep xs busy : forall i n d, keeps_events d (snd (prune_group fuel g keep xs busy i n d)).
Proof.
  induction fuel as [|fuel IH]; intros i n d; simpl; [reflexivity|]. destruct (busy i); [reflexivity|].
  pose proof (keeps_write (prune_batch g keep) (xs i) d (prune_batch_events g keep)) as H.
  destruct (write _ _ _) as [[k|e] d']; [|done]. destruct (k <? retentionBatch); [done|]. transitivity d'; [done|apply IH].
Qed.

Lemma HistoryMaintain_events p inTx xs busy d : keeps_events d (snd (HistoryMaintain p inTx xs busy d)).
Proof.
  unfold HistoryMaintain. destruct inTx; [reflexivity|].
  generalize [CompletedHistory; FailedHistory; StreamEvents] as gs, 0%nat as i, (mkHistoryMaintainResult [] 0 []) as res.
  intros gs. revert d. induction gs as [|g gs IH]; intros d i res; cbn [prune_groups]; [reflexivity|]. case_match; [apply IH|].
  pose proof (prune_group_events (prune_fuel d) g (group_keep p g) xs busy i 0 d) as Hg.
  destruct (prune_group _ _ _ _ _ _ _ _) as [[[out i'] n] d']. transitivity d'; [done|apply IH].
Qed.

Ltac events_step :=
  match goal with |- keeps_events ?d ?d' =>
    let H := fresh in assert (events_of d' = events_of d) as H; [|exact (events_ok_same d d' H)] end;
  repeat first [reflexivity | match goal with |- events_of (snd (match ?e with _ => _ end)) = _ => destruct e eqn:? end];
  apply (beside_write events_of);
  repeat first
    [ respects_step
    | solve [apply respects_modify; intros; reflexivity]
    | apply (notify_beside events_of) | apply (insertJob_beside events_of) | apply (insertOne_beside events_of)
    | solve [intros ? ? ? ?; unfold insert_registration; repeat case_match; intros; simplify_eq; reflexivity] ].

Lemma step_events d d' : step d d' -> keeps_events d d'.
Proof.
  intros [H|H]%step_cases; [exact (events_ok_same d d' (job_step_beside events_of _ _ H))|]. destruct H.
  - unfold ClientRegister. events_step.
  - unfold ClientRenew, ClientRenew_w. events_step.
  - unfold ClientDelete, ClientDelete_w. events_step.
  - unfold ClientPruneExpired, ClientPruneExpired_w. events_step.
  - unfold LeaderAttempt, LeaderAttempt_w. events_step.
  - unfold LeaderRequestResign, LeaderRequestResign_w. events_step.
  - unfold LeaderResign, LeaderResign_w. events_step.
  - unfold PeriodicInsert, PeriodicInsert_w. events_step.
  - unfold PeriodicRegister, PeriodicRegister_w. events_step.
  - apply HistoryMaintain_events.
  - unfold SubscriptionUpsert. events_step.
  - unfold StreamAppend. destruct (JsonCheck.jsonValue _ _ _); [|reflexivity]. apply keeps_write, StreamAppend_events.
  - unfold StreamConsumerUpsert, upsertConsumer. events_step.
  - unfold StreamConsumerSeek, StreamConsumerSeek_w. events_step.
  - unfold StreamPump, StreamPump_w, pump_event. events_step.
Qed.

Lemma reachable_events d : reachable d -> events_ok d.
Proof.
  intros H. assert (events_ok empty_db) as H0 by (split; simpl; [constructor|constructor|lia]).
  revert H0. unfold reachable, steps in H. generalize empty_db, H. clear H. intros d0 H.
  induction H as [|a b c Hab _ IH]; [done|]. intros Ha. apply IH. eapply step_events; eauto.
Qed.

(** ** Reading past a position *)

Definition hits (pattern : string) (e : EventRow) : bool :=
  match topic_matches pattern (e_topic e) with Ok b => b | Err _ => false end.

Lemma matching_sel pattern l r : matching (fun _ => pattern) e_topic l = Ok r -> r = sel (hits pattern) l.
Proof.
  revert r. induction l as [|e l IH]; simpl; intros r; [now intros [= <-]|]. unfold hits at 1.
  destruct (topic_matches _ _) as [b|]; [|done]. destruct (matching _ _ l) as [r'|]; [|done].
  intros [= <-]. rewrite (IH r' eq_refl). now destruct b.
Qed.

Lemma matching_sub {A} (f g : A -> string) l r l' :
  matching f g l = Ok r -> (forall e, In e l' -> In e l) -> exists r', matching f g l' = Ok r'.
Proof.
  intros H Hs. assert (forall e, In e l -> exists b, topic_matches (f e) (g e) = Ok b) as Hok.
  { revert r H. clear. induction l as [|a l IH]; simpl; intros r H e [].
    - subst. destruct (topic_matches _ _); [eauto|done].
    - destruct (topic_matches _ _); [|done]. destruct (matching f g l) as [r'|] eqn:E; [|done]. eapply IH; eauto. }
  induction l' as [|a l' IH]; simpl; [eauto|]. destruct (Hok a) as (b & ->); [apply Hs; now left|].
  destruct IH as (r' & ->); [intros e He; apply Hs; now right|eauto].
Qed.

Lemma sorted_seq_order l : StronglySorted (fun a b => e_seq a < e_seq b) l -> StronglySorted (fun a b => seq_order a b = true) l.
Proof.
  induction 1 as [|a l Hl IH Ha]; constructor; [done|]. eapply List.Forall_impl; [|exact Ha].
  intros b Hb. cbv beta in Hb. unfold seq_order. apply Z.leb_le. lia.
Qed.

Definition after_hits (seen : Z) (pattern : string) (e : EventRow) : bool := (e_seq e >? seen) && hits pattern e.

Lemma sel_sel {A} (p q : A -> bool) t : sel p (sel q t) = sel (fun a => q a && p a) t.
Proof. unfold sel. induction t as [|a t IH]; simpl; [done|]. destruct (q a); simpl; now rewrite IH. Qed.

Lemma events_after_sel d seen pattern rows : events_ok d -> events_after d seen pattern = Ok rows ->
  rows = sel (after_hits seen pattern) (db_events d).
Proof.
  intros Ho. unfold events_after. destruct (matching _ _ _) as [l|] eqn:E; [|done]. intros [= <-].
  apply matching_sel in E as ->. rewrite sel_sel. apply order_by_id, sorted_seq_order, StronglySorted_filter, Ho.
Qed.

Lemma events_after_later d d' seen seen' pattern rows : events_ok d -> events_of d' = events_of d -> seen <= seen' ->
  events_after d seen pattern = Ok rows ->
  events_after d' seen' pattern = Ok (sel (fun e => e_seq e >? seen') rows).
Proof.
  intros Ho [= E1 E2] Hle E. pose proof (events_after_sel _ _ _ _ Ho E) as Hr.
  unfold events_after in *. destruct (matching _ _ (sel _ (db_events d))) as [l|] eqn:El; [|done]. rewrite E1.
  destruct (matching_sub _ _ _ _ (sel (fun e => e_seq e >? seen') (db_events d)) El) as (r' & E').
  { intros e [He Hs]%In_sel. apply In_sel. split; [done|]. apply Z.gtb_lt in Hs. apply Z.gtb_lt. lia. }
  rewrite E'. apply matching_sel in E' as ->. f_equal. rewrite sel_sel, Hr, sel_sel.
  rewrite order_by_id by (apply sorted_seq_order, StronglySorted_filter, Ho). unfold sel. apply List.filter_ext_in.
  intros e _. unfold after_hits. destruct (e_seq e >? seen') eqn:Es; [|now rewrite andb_false_r].
  assert ((e_seq e >? seen) = true) as -> by (apply Z.gtb_lt; apply Z.gtb_lt in Es; lia). now rewrite andb_true_r.
Qed.

(** ** Pumping *)

Definition delivers (k : ConsumerRow) (e : EventRow) (j : JobRow) : Prop :=
  j_Kind j = k_kind k /\ j_Queue j = k_queue k /\ j_Args j = e_payload e
  /\ j_OrderingKey j = nullable (textOf (e_key e)) /\ j_State j = Available.

Lemma scanEvents_spec rows : forall evs, scanEvents rows = Ok evs ->
  Forall2 (fun e ev => se_Payload ev = e_payload e /\ se_Key ev = textOf (e_key e) /\ se_Position ev = position (e_seq e)) rows evs.
Proof.
  induction rows as [|e rows IH]; simpl; intros evs; [now intros [= <-]|].
  destruct (scanEvent e) as [ev|] eqn:E; [|done]. destruct (scanEvents rows) as [evs'|]; [|done]. intros [= <-].
  constructor; [|auto]. unfold scanEvent in E. destruct (decode_headers _); [|done]. now injection E as <-.
Qed.

Lemma insertJob_appends j x d r d' : insertJob j x d = Ok (r, d') ->
  exists seq id exp, r = new_row seq id (w_now x) exp j /\ db_jobs d' = (db_jobs d ++ [r])%list.
Proof.
  unfold insertJob. intros E. apply bind_Ok in E as (now & d1 & En & E). unfold us in En. injection En as <- <-.
  apply bind_Ok in E as (exp & d1 & Ea & E). unfold at_ in Ea. injection Ea as <- <-.
  apply bind_Ok in E as (id & d1 & Ei & (-> & _ & ->)%insert_row_Ok). do 3 eexists. split; [reflexivity|]. simpl.
  assert (db_jobs d1 = db_jobs d) as ->; [|done]. destruct (IsZero (i_id j)); [|now inv_w]. now apply newID_same in Ei as [? _].
Qed.

Lemma pump_event_spec k e ev x d u d' : pump_event k ev x d = Ok (u, d') ->
  se_Payload ev = e_payload e -> se_Key ev = textOf (e_key e) ->
  exists j, db_jobs d' = (db_jobs d ++ [j])%list /\ delivers k e j.
Proof.
  unfold pump_event. intros E Hp Hk. cbv zeta in E. apply bind_Ok in E as (meta & d1 & El & E).
  assert (d1 = d) as -> by (destruct (mergeObjects _ _); simpl in El; now inv_w).
  apply bind_Ok in E as (j & d2 & (seq & id & exp & Hj & Hd)%insertJob_appends & E). inv_w. exists j. split; [done|]. subst j.
  unfold delivers, new_row. simpl. rewrite Hp, Hk. done.
Qed.

Lemma iter_pump k : forall rows evs x d u d', scanEvents rows = Ok evs -> iterM (pump_event k) evs x d = Ok (u, d') ->
  exists new, db_jobs d' = (db_jobs d ++ new)%list /\ Forall2 (delivers k) rows new.
Proof.
  intros rows evs x d u d' Hs%scanEvents_spec. revert d. induction Hs as [|e ev rows evs (H1 & H2 & _) _ IH]; simpl; intros d E.
  - inv_w. exists []. rewrite app_nil_r. split; [done|constructor].
  - apply bind_Ok in E as (u1 & d1 & E1 & E). destruct (pump_event_spec _ _ _ _ _ _ _ E1 H1 H2) as (j & Hj & Hd).
    destruct (IH _ E) as (new & Hn & Hf). exists (j :: new). split; [|now constructor]. rewrite Hn, Hj, <- app_assoc. done.
Qed.

Lemma one_upd {A} (p : A -> bool) (f : A -> A) t : (forall a, p (f a) = p a) -> one p (upd p f t) = option_map f (one p t).
Proof.
  intros H. unfold one, upd. induction t as [|a t IH]; simpl; [done|]. destruct (p a) eqn:E; rewrite ?H, E; simpl; auto.
Qed.

(** The last seq of a sorted prefix separates it from the rest. *)
Lemma sorted_split l1 l2 s : StronglySorted (fun a b => e_seq a < e_seq b) (l1 ++ l2) ->
  (forall e, In e l2 -> s < e_seq e) ->
  (forall e, In e l1 -> e_seq e <= List.last (List.map e_seq l1) s)
  /\ (forall e, In e l2 -> List.last (List.map e_seq l1) s < e_seq e).
Proof.
  intros Hs H2. revert s H2. induction l1 as [|a l1 IH]; intros s H2; [done|].
  inversion Hs as [|? ? Hs' Ha]; subst. rewrite List.Forall_forall in Ha.
  destruct l1 as [|b l1]; [split; [intros e [<-|[]]; simpl; lia|intros e He; apply Ha, He]|].
  destruct (IH Hs' s H2) as [I1 I2].
  change (List.last (List.map e_seq (a :: b :: l1)) s) with (List.last (List.map e_seq (b :: l1)) s).
  split; [|exact I2]. intros e [<-|He]; [|auto].
  specialize (I1 b (or_introl eq_refl)). specialize (Ha b (or_introl eq_refl)). cbv beta in *. lia.
Qed.

Lemma latest_seq_ge d e : In e (db_events d) -> e_seq e <= latest_seq d.
Proof.
  unfold latest_seq. generalize 0 as m. induction (db_events d) as [|a l IH]; simpl; intros m [].
  - subst. clear IH. assert (forall l m, m <= List.fold_left (fun m e => Z.max m (e_seq e)) l m) as H.
    { clear. induction l as [|b l IH]; simpl; intros m; [lia|]. etransitivity; [|apply IH]. lia. }
    etransitivity; [|apply H]. lia.
  - now apply IH.
Qed.

(** What a pump leaves: past the last delivered, or past everything. *)
Lemma pump_rest rows rest N seen latest :
  StronglySorted (fun a b => e_seq a < e_seq b) rows -> 0 < N -> rows = (limit N rows ++ rest)%list ->
  (forall e, In e rows -> seen < e_seq e <= latest) ->
  let last := List.last (List.map e_seq (limit N rows)) seen in
  let seen' := if Z.of_nat (List.length (limit N rows)) <? N then Z.max last latest else last in
  seen <= seen' /\ sel (fun e => e_seq e >? seen') rows = rest.
Proof.
  intros Hs HN Hr Hb last seen'. assert (forall e, In e rest -> seen < e_seq e) as Hrest.
  { intros e He. apply Hb. rewrite Hr. apply in_app_iff. now right. }
  pose proof Hs as Hs0. rewrite Hr in Hs0. destruct (sorted_split _ _ seen Hs0 Hrest) as [H1 H2]. fold last in H1, H2.
  assert (seen <= last) as Hle.
  { unfold last. destruct (limit N rows) as [|a l] eqn:El; [simpl; lia|]. specialize (H1 a (or_introl eq_refl)).
    assert (seen < e_seq a <= latest) by (apply Hb; rewrite Hr, ?El; now left). unfold last in H1. rewrite ?El in H1. lia. }
  unfold seen'. destruct (_ <? N) eqn:E; breflect.
  - assert (rest = []) as ->.
    { apply (f_equal (@List.length _)) in Hr. rewrite List.length_app in Hr. unfold limit in *. destruct (N <? 0) eqn:EN; [breflect; lia|].
      rewrite length_firstn in *. destruct rest; [done|simpl in Hr; lia]. }
    split; [lia|]. unfold sel. apply filter_none. intros e He. specialize (Hb e He). rewrite Z.gtb_ltb. apply Z.ltb_ge. lia.
  - split; [lia|]. rewrite Hr. unfold sel. rewrite List.filter_app.
    rewrite (filter_none _ (limit N rows)), (filter_all _ rest); [done| |].
    + intros e He. apply Z.gtb_lt. auto.
    + intros e He. specialize (H1 e He). rewrite Z.gtb_ltb. apply Z.ltb_ge. lia.
Qed.

(** C30: A pump delivers each event exactly once, in order.  It appends to the
    live table one job per event of the longest allowed prefix of the events the
    consumer has not seen and its pattern matches, and what it leaves for the
    next pump is exactly the rest. *)
Theorem pump_exactly_once d name n x k rows res d' :
  reachable d -> one (consumer_is name) (db_consumers d) = Some k ->
  events_after d (k_seen k) (k_pattern k) = Ok rows -> StreamPump name n x d = (Ok res, d') ->
  exists new rest k', rows = (limit (Z.max n 1) rows ++ rest)%list
  /\ db_jobs d' = (db_jobs d ++ new)%list /\ Forall2 (delivers k) (limit (Z.max n 1) rows) new
  /\ pu_Delivered res = Z.of_nat (List.length new)
  /\ one (consumer_is name) (db_consumers d') = Some k' /\ k_pattern k' = k_pattern k
  /\ events_after d' (k_seen k') (k_pattern k') = Ok rest.
Proof.
  intros Ho%reachable_events Hk Hr E. unfold StreamPump, write in E.
  destruct (StreamPump_w name n x d) as [[res0 d0]|e] eqn:Ew; [|done]. injection E as <- <-.
  unfold StreamPump_w in Ew. cbv zeta in Ew. unfold bind at 1, get at 1 in Ew. rewrite Hk in Ew.
  unfold bind at 1, get at 1 in Ew. rewrite Hr in Ew. unfold bind at 1 in Ew. cbn [lift ret] in Ew.
  set (N := Z.max n 1) in *. destruct (limit_prefix N rows) as (rest & Hrest).
  apply bind_Ok in Ew as (evs & d1 & Esc & Ew). destruct (scanEvents (limit N rows)) as [evs'|] eqn:Es; [|done].
  cbn [lift] in Esc. unfold ret in Esc. injection Esc as <- <-.
  assert (List.map (fun ev => sp_Seq (se_Position ev)) evs' = List.map e_seq (limit N rows) /\ List.length evs' = List.length (limit N rows)) as [Eseqs Elen].
  { pose proof (scanEvents_spec _ _ Es) as Hf. clear -Hf. induction Hf as [|e ev ? ? (_ & _ & Hp) _ [IH1 IH2]]; simpl; [done|].
    rewrite Hp, IH1, IH2. done. }
  apply bind_Ok in Ew as (u & d1 & Ei & Ew). destruct (iter_pump k _ _ _ _ _ _ Es Ei) as (new & Hnew & Hf2).
  assert (respects (same_of events_of) (iterM (pump_event k) evs')) as Hfe.
  { repeat respects_step. unfold pump_event. repeat respects_step. apply (insertJob_beside events_of). }
  assert (respects (same_of db_consumers) (iterM (pump_event k) evs')) as Hfc.
  { repeat respects_step. unfold pump_event. repeat respects_step. apply (insertJob_beside db_consumers). }
  pose proof (Hfe _ _ _ _ Ei) as He1. pose proof (Hfc _ _ _ _ Ei) as Hc1. unfold same_of in He1, Hc1. clear Hfe Hfc.
  rewrite Eseqs, Elen in Ew. unfold bind at 1, get at 1 in Ew. unfold bind at 1, us at 1 in Ew.
  unfold bind at 1, modify at 1 in Ew. apply bind_Ok in Ew as (u2 & d3 & En & Ew). unfold ret in Ew. injection Ew as <- <-.
  match type of En with _ _ ?d2 = _ => assert (events_of d3 = events_of d2 /\ db_consumers d3 = db_consumers d2 /\ db_jobs d3 = db_jobs d2) as (He3 & Hc3 & Hj3) end.
  { destruct (_ >? 0); [|unfold ret in En; injection En as <- <-; done].
    split_and!; [exact (notify_beside events_of _ _ _ _ _ _ En)|exact (notify_beside db_consumers _ _ _ _ _ _ En)|].
    now apply notify_same in En as [? _]. }
  simpl in Hc3, Hj3. change (events_of d3 = events_of d1) in He3. rewrite He1 in He3.
  assert (latest_seq d1 = latest_seq d) as El by (unfold latest_seq; injection He1 as -> _; done). rewrite El in *.
  pose proof (events_after_sel _ _ _ _ Ho Hr) as Hsel.
  destruct (pump_rest rows rest N (k_seen k) (latest_seq d)) as [Hle Hsr]; [rewrite Hsel; apply StronglySorted_filter, Ho|lia|done| |].
  { intros e He. rewrite Hsel in He. apply In_sel in He as [He Hh]. unfold after_hits in Hh. breflect.
    split; [done|]. now apply latest_seq_ge. }
  exists new, rest. eexists. split; [done|]. split; [rewrite Hj3; exact Hnew|]. split; [exact Hf2|].
  split; [simpl; f_equal; symmetry; now apply Forall2_length in Hf2|].
  rewrite Hc3, Hc1. rewrite one_upd by done. rewrite Hk. split; [reflexivity|]. split; [done|]. simpl.
  rewrite (events_after_later d d3 (k_seen k) _ _ rows Ho He3 Hle Hr). now rewrite Hsr.
Qed.
