(* ===== verification/TopicSpec.v ===== *)
(** * Topic patterns mean what AMQP says: theorems on Topics.v

    A pattern of words separated by dots, where '*' is one word and '#' zero or
    more, is rewritten to an expression that matches exactly the topics AMQP
    says, except one that starts with two '#' words. *)

From Stdlib Require Import List ZArith Lia Bool String.
From stdpp Require Import base tactics list.
From S2P Require Import Prelude Text Types Topics.
Import ListNotations.
Local Open Scope Z_scope.
Local Open Scope list_scope.

(** ** Languages *)

Inductive lang : re -> list Z -> Prop :=
| l_eps : lang Eps []
| l_chr r : lang (Chr r) [r]
| l_any r : lang Any [r]
| l_notdot r : r <> 46 -> lang NotDot [r]
| l_cat a b u v : lang a u -> lang b v -> lang (Cat a b) (u ++ v)
| l_altl a b u : lang a u -> lang (Alt a b) u
| l_altr a b u : lang b u -> lang (Alt a b) u
| l_star0 a : lang (Star a) []
| l_star1 a u v : lang a u -> lang (Star a) v -> lang (Star a) (u ++ v).

Lemma lang_cat a b u : lang (Cat a b) u <-> exists v w, u = v ++ w /\ lang a v /\ lang b w.
Proof. split; [inversion 1; subst; eauto|]. intros (v & w & -> & H1 & H2). now constructor. Qed.
Lemma lang_alt a b u : lang (Alt a b) u <-> lang a u \/ lang b u.
Proof. split; [inversion 1; auto|]. intros [H|H]; [now apply l_altl|now apply l_altr]. Qed.
Lemma lang_eps u : lang Eps u <-> u = [].
Proof. split; [now inversion 1|intros ->; constructor]. Qed.
Lemma lang_chr r u : lang (Chr r) u <-> u = [r].
Proof. split; [now inversion 1|intros ->; constructor]. Qed.

Lemma nullable_lang e : nullable_re e = true <-> lang e [].
Proof.
  induction e; simpl; try (split; [done|now inversion 1]).
  - split; [constructor|done].
  - rewrite andb_true_iff, IHe1, IHe2, lang_cat. split.
    + intros [H1 H2]. exists [], []. auto.
    + intros (v & w & E & H1 & H2). symmetry in E. apply app_eq_nil in E as [-> ->]. auto.
  - rewrite orb_true_iff, IHe1, IHe2, lang_alt. done.
  - split; [constructor|done].
Qed.

Lemma star_cons a r s : lang (Star a) (r :: s) -> exists u v, s = u ++ v /\ lang a (r :: u) /\ lang (Star a) v.
Proof.
  intros H. remember (Star a) as e eqn:Ee. remember (r :: s) as t eqn:Et. revert r s Et.
  induction H; intros r0 s0 Et; try done. simplify_eq. destruct u as [|c u]; simpl in Et.
  - apply IHlang2; [done|exact Et].
  - injection Et as -> <-. exists u, v. auto.
Qed.

Lemma deriv_lang e : forall r s, lang (deriv r e) s <-> lang e (r :: s).
Proof.
  induction e as [| |c| | |a IHa b IHb|a IHa b IHb|a IHa]; intros r s; simpl.
  - split; inversion 1.
  - split; inversion 1.
  - destruct (r =? c) eqn:E; breflect; [subst|]; split; inversion 1; subst; try constructor. congruence.
  - split; inversion 1; subst; constructor.
  - destruct (r =? 46) eqn:E; breflect; [subst|]; split; inversion 1; subst; try constructor; done.
  - assert (lang (Cat (deriv r a) b) s <-> exists u v, s = u ++ v /\ lang a (r :: u) /\ lang b v) as Hc.
    { rewrite lang_cat. setoid_rewrite IHa. done. }
    destruct (nullable_re a) eqn:En.
    + rewrite lang_alt, Hc, IHb, lang_cat. split.
      * intros [(u & v & -> & H1 & H2)|H]; [exists (r :: u), v; auto|]. exists [], (r :: s). apply nullable_lang in En. auto.
      * intros (u & v & E & H1 & H2). destruct u as [|c u]; simpl in E; [right; now subst|]. injection E as <- ->. left. eauto.
    + rewrite Hc, lang_cat. split.
      * intros (u & v & -> & H1 & H2). exists (r :: u), v. auto.
      * intros (u & v & E & H1 & H2). destruct u as [|c u]; simpl in E.
        -- apply nullable_lang in H1. congruence.
        -- injection E as <- ->. eauto.
  - rewrite !lang_alt, IHa, IHb. done.
  - rewrite lang_cat. setoid_rewrite IHa. split.
    + intros (u & v & -> & H1 & H2). change (r :: u ++ v) with ((r :: u) ++ v). now constructor.
    + intros (u & v & -> & H1 & H2)%star_cons. eauto.
Qed.

Lemma re_match_lang e s : re_match e s = true <-> lang e s.
Proof. revert e. induction s as [|r s IH]; intros e; simpl; [apply nullable_lang|]. now rewrite IH, deriv_lang. Qed.

Lemma star_any s : lang (Star Any) s.
Proof. induction s as [|r s IH]; [constructor|]. change (r :: s) with ([r] ++ s). repeat constructor. done. Qed.

Definition dotless (u : list Z) : Prop := ~ In 46 u.

Lemma star_notdot u : lang (Star NotDot) u <-> dotless u.
Proof.
  unfold dotless. induction u as [|r u IH]; [split; [now intros _ []|constructor]|]. split.
  - intros (v & w & -> & Hv & Hw)%star_cons. inversion Hv; subst. apply IH in Hw. intros [->|Hin]; done.
  - intros H. change (r :: u) with ([r] ++ u). constructor; [constructor; intros ->; apply H; now left|].
    apply IH. intros Hin. apply H. now right.
Qed.

Lemma plus_notdot u : lang (Plus NotDot) u <-> u <> [] /\ dotless u.
Proof.
  unfold Plus, dotless. rewrite lang_cat. split.
  - intros (v & w & -> & Hv & Hw). apply star_notdot in Hw. inversion Hv as [| | |r Hr| | | | |]; subst. split; [done|].
    intros [->|Hin]; [done|]. now apply Hw.
  - intros [Hne Hd]. destruct u as [|r u]; [done|]. exists [r], u. split; [done|].
    split; [constructor; intros ->; apply Hd; now left|]. apply star_notdot. intros H. apply Hd. now right.
Qed.

(** ** Tokens of a pattern *)

Inductive tok : Type := TDot | TStar | THash | TLit (r : Z) | TTail | THead | TAll.

Definition render (star : list Z) (t : tok) : list Z :=
  match t with
  | TDot => dot
  | TStar => star
  | THash => hash
  | TLit r => if topicSpecial r then [92; r] else [r]
  | TTail => any_tail
  | THead => any_head
  | TAll => anything
  end.
Notation rendered star ts := (List.flat_map (render star) ts).
Notation R ts := (rendered one_word ts).

Definition plain_rune (r : Z) : Prop := r <> 46 /\ r <> 42 /\ r <> 35.
Definition tok_ok (t : tok) : Prop := match t with TLit r => plain_rune r | TAll => False | _ => True end.

Lemma special_bs : topicSpecial 92 = true.
Proof. reflexivity. Qed.

(** Replacing passes over what no occurrence starts in. *)
Lemma replace_skip old new k s : replace_from old new k s = replace_from old new 0 (List.skipn k s).
Proof.
  revert s. induction k as [|k IH]; intros s; [done|]. destruct s as [|c s]; [done|]. simpl. apply IH.
Qed.

Lemma replace_pass old new u rest :
  (forall v w, u = v ++ w -> w <> [] -> prefix old (w ++ rest) = false) ->
  replaceAll old new (u ++ rest) = u ++ replaceAll old new rest.
Proof.
  unfold replaceAll. induction u as [|c u IH]; intros H; [done|]. cbn [app replace_from].
  pose proof (H [] (c :: u) eq_refl ltac:(done)) as Hp. cbn [app] in Hp. rewrite Hp. f_equal.
  apply IH. intros v w E Hw. apply (H (c :: v) w); [now rewrite E|done].
Qed.

Lemma replace_hit old new rest : old <> [] -> replaceAll old new (old ++ rest) = new ++ replaceAll old new rest.
Proof.
  intros Hne. destruct old as [|c old]; [done|]. unfold replaceAll. cbn [app replace_from].
  assert (forall p s, prefix p (p ++ s) = true) as Hp by (induction p as [|a p IH]; intros s; simpl; [done|]; now rewrite Z.eqb_refl, IH).
  change (c :: old ++ rest) with ((c :: old) ++ rest). rewrite Hp. f_equal. rewrite replace_skip. f_equal.
  cbn [List.length]. rewrite Nat.sub_succ, Nat.sub_0_r. apply drop_app_length.
Qed.

#[local] Arguments Z.eqb : simpl nomatch.
#[local] Arguments prefix : simpl nomatch.

(** No occurrence of [old] starts in [u]. *)
Fixpoint quiet (old u rest : list Z) : bool :=
  match u with [] => true | _ :: u' => negb (prefix old (u ++ rest)) && quiet old u' rest end.
Lemma replace_quiet old new u rest : quiet old u rest = true -> replaceAll old new (u ++ rest) = u ++ replaceAll old new rest.
Proof.
  unfold replaceAll. induction u as [|c u IH]; intros H; [done|]. cbn [quiet] in H. breflect. cbn [app replace_from] in *.
  rewrite H. f_equal. auto.
Qed.

Section Occurrences.
Variables (p : list Z) (ts : list tok).
Hypothesis Hok : Forall tok_ok ts.

Lemma lit_not_special r : topicSpecial r = false -> r <> 92.
Proof. intros H ->. now rewrite special_bs in H. Qed.

Ltac head_case :=
  destruct ts as [|[] ts']; try done; inversion Hok as [|? ? Ht _]; subst; try done; simpl in Ht; destruct Ht as (? & ? & ?);
  simpl; match goal with |- context [topicSpecial ?r] => destruct (topicSpecial r) eqn:Es end; simpl.

Lemma occurs_46 : prefix (46 :: p) (R ts) = false.
Proof. head_case; [done|]. destruct (46 =? r) eqn:E; [breflect; congruence|done]. Qed.
Lemma occurs_dot : prefix (92 :: 46 :: p) (R ts) = match ts with TDot :: r => prefix p (R r) | _ => false end.
Proof.
  head_case.
  - destruct (46 =? r) eqn:E; [breflect; congruence|done].
  - destruct (92 =? r) eqn:E; [|done]. apply lit_not_special in Es. breflect. congruence.
Qed.
Lemma occurs_hash : prefix (35 :: p) (R ts) = match ts with THash :: r => prefix p (R r) | _ => false end.
Proof. head_case; [done|]. destruct (35 =? r) eqn:E; [breflect; congruence|done]. Qed.
End Occurrences.

(** A literal rune is quiet for a needle that starts with a backslash and a dot,
    or with '#'. *)
Lemma quiet_lit_dot p r ts : plain_rune r -> Forall tok_ok ts -> quiet (92 :: 46 :: p) (render one_word (TLit r)) (R ts) = true.
Proof.
  intros (H1 & H2 & H3) Hok. simpl. destruct (topicSpecial r) eqn:Es; simpl.
  - destruct (46 =? r) eqn:E; [breflect; congruence|]. simpl. destruct (92 =? r); [|done]. simpl. now rewrite occurs_46.
  - apply lit_not_special in Es. destruct (92 =? r) eqn:E; [breflect; congruence|done].
Qed.
Lemma quiet_lit_hash p r ts : plain_rune r -> quiet (35 :: p) (render one_word (TLit r)) (R ts) = true.
Proof.
  intros (H1 & H2 & H3). simpl. assert ((35 =? r) = false) as E by (apply Z.eqb_neq; congruence).
  destruct (topicSpecial r); simpl; now rewrite E.
Qed.

Lemma quiet_dot p r : quiet (92 :: 46 :: p) dot (R r) = negb (prefix p (R r)).
Proof. simpl. now rewrite andb_true_r. Qed.
Lemma quiet_hash p r : quiet (35 :: p) hash (R r) = negb (prefix p (R r)).
Proof. simpl. now rewrite andb_true_r. Qed.

(** ** The steps on tokens *)

Fixpoint step2 (ts : list tok) : list tok :=
  match ts with
  | TDot :: THash :: TDot :: r => TTail :: TDot :: step2 r
  | t :: r => t :: step2 r
  | [] => []
  end.
Fixpoint step3 (ts : list tok) : list tok :=
  match ts with
  | TDot :: THash :: r => TTail :: step3 r
  | t :: r => t :: step3 r
  | [] => []
  end.
Fixpoint step4 (ts : list tok) : list tok :=
  match ts with
  | THash :: TDot :: r => THead :: step4 r
  | t :: r => t :: step4 r
  | [] => []
  end.
Definition step5 (ts : list tok) : list tok := List.map (fun t => match t with THash => TAll | _ => t end) ts.

Lemma toks_length_ind (P : list tok -> Prop) :
  (forall ts, (forall us, (List.length us < List.length ts)%nat -> P us) -> P ts) -> forall ts, P ts.
Proof. intros H. apply (well_founded_induction (Wf_nat.well_founded_ltof _ (@List.length tok))). exact H. Qed.

Section Steps.
Variables (old new : list Z) (stepf : list tok -> list tok).
(** A token that starts no occurrence is passed over. *)
Lemma step_pass t r : quiet old (render one_word t) (R r) = true -> replaceAll old new (R r) = R (stepf r) ->
  replaceAll old new (R (t :: r)) = R (t :: stepf r).
Proof. intros Hq Hr. cbn [List.flat_map]. rewrite replace_quiet by done. now rewrite Hr. Qed.
End Steps.

Ltac tok_tail H := inversion H as [|? ? Hhd Htl]; subst.

Lemma step2_replace ts : Forall tok_ok ts -> replaceAll (dot ++ hash ++ dot) (any_tail ++ dot) (R ts) = R (step2 ts).
Proof.
  induction ts as [ts IH] using toks_length_ind. intros Hok. destruct ts as [|t r]; [done|]. tok_tail Hok.
  assert (replaceAll (dot ++ hash ++ dot) (any_tail ++ dot) (R r) = R (step2 r)) as Hr by (apply IH; [simpl; lia|done]).
  destruct t as [| | |c| | |]; try (apply step_pass; [reflexivity|done]).
  - pose proof (quiet_dot (hash ++ dot) r) as Hq. change (hash ++ dot) with [35; 92; 46] in Hq. rewrite occurs_hash in Hq by done.
    destruct r as [|[] r']; try (apply step_pass; [exact Hq|done]). rewrite occurs_dot in Hq by now apply List.Forall_inv_tail in Htl.
    destruct r' as [|[] r']; try (apply step_pass; [exact Hq|done]).
    change (R (TDot :: THash :: TDot :: r')) with ((dot ++ hash ++ dot) ++ R r'). rewrite replace_hit by done.
    rewrite IH; [done|simpl; lia|]. now do 2 apply List.Forall_inv_tail in Htl.
  - apply step_pass; [now apply quiet_lit_dot|done].
Qed.

Lemma step3_replace ts : Forall tok_ok ts -> replaceAll (dot ++ hash) any_tail (R ts) = R (step3 ts).
Proof.
  induction ts as [ts IH] using toks_length_ind. intros Hok. destruct ts as [|t r]; [done|]. tok_tail Hok.
  assert (replaceAll (dot ++ hash) any_tail (R r) = R (step3 r)) as Hr by (apply IH; [simpl; lia|done]).
  destruct t as [| | |c| | |]; try (apply step_pass; [reflexivity|done]).
  - pose proof (quiet_dot [35] r) as Hq. rewrite occurs_hash in Hq by done.
    destruct r as [|[] r']; try (apply step_pass; [exact Hq|done]).
    change (R (TDot :: THash :: r')) with ((dot ++ hash) ++ R r'). rewrite replace_hit by done.
    rewrite IH; [done|simpl; lia|]. now apply List.Forall_inv_tail in Htl.
  - apply step_pass; [now apply quiet_lit_dot|done].
Qed.

Lemma step4_replace ts : Forall tok_ok ts -> replaceAll (hash ++ dot) any_head (R ts) = R (step4 ts).
Proof.
  induction ts as [ts IH] using toks_length_ind. intros Hok. destruct ts as [|t r]; [done|]. tok_tail Hok.
  assert (replaceAll (hash ++ dot) any_head (R r) = R (step4 r)) as Hr by (apply IH; [simpl; lia|done]).
  destruct t as [| | |c| | |]; try (apply step_pass; [reflexivity|done]).
  - pose proof (quiet_hash [92; 46] r) as Hq. rewrite occurs_dot in Hq by done.
    destruct r as [|[] r']; try (apply step_pass; [exact Hq|done]).
    change (R (THash :: TDot :: r')) with ((hash ++ dot) ++ R r'). rewrite replace_hit by done.
    rewrite IH; [done|simpl; lia|]. now apply List.Forall_inv_tail in Htl.
  - apply step_pass; [now apply quiet_lit_hash|done].
Qed.

Lemma step5_replace ts : Forall tok_ok ts -> replaceAll hash anything (R ts) = R (step5 ts).
Proof.
  induction ts as [|t r IH]; intros Hok; [done|]. tok_tail Hok. specialize (IH Htl).
  destruct t as [| | |c| | |]; try (apply (step_pass _ _ step5); [reflexivity|done]).
  - change (R (THash :: r)) with (hash ++ R r). rewrite replace_hit by done. now rewrite IH.
  - apply (step_pass _ _ step5); [now apply quiet_lit_hash|done].
Qed.

(** ** Words *)

Inductive pword : Type := PStar | PHash | PLit (l : list Z).
Definition word_ok (w : pword) : Prop := match w with PLit l => Forall plain_rune l | _ => True end.
Definition word_text (w : pword) : list Z := match w with PStar => [42] | PHash => [35] | PLit l => l end.
Definition pattern_text (ws : list pword) : list Z :=
  match ws with [] => [] | w :: r => word_text w ++ List.flat_map (fun w => 46 :: word_text w) r end.

Definition word_toks (w : pword) : list tok := match w with PStar => [TStar] | PHash => [THash] | PLit l => List.map TLit l end.
Definition dotted (ws : list pword) : list tok := List.flat_map (fun w => TDot :: word_toks w) ws.
Definition toks (ws : list pword) : list tok := match ws with [] => [] | w :: r => word_toks w ++ dotted r end.

Definition early (t : tok) : Prop := match t with TDot | TStar | THash => True | TLit r => plain_rune r | _ => False end.
Lemma early_ok ts : Forall early ts -> Forall tok_ok ts.
Proof. apply List.Forall_impl. now intros []. Qed.

Lemma word_toks_early w : word_ok w -> Forall early (word_toks w).
Proof. destruct w as [| |l]; simpl; intros H; [repeat constructor|repeat constructor|]. induction H; constructor; done. Qed.
Lemma dotted_early ws : Forall word_ok ws -> Forall early (dotted ws).
Proof.
  induction 1; [constructor|]. simpl. constructor; [done|]. apply List.Forall_app. split; [now apply word_toks_early|done].
Qed.
Lemma toks_early ws : Forall word_ok ws -> Forall early (toks ws).
Proof. destruct 1; [constructor|]. apply List.Forall_app. split; [now apply word_toks_early|now apply dotted_early]. Qed.

Lemma escape_app a b : escape (a ++ b) = escape a ++ escape b.
Proof. apply List.flat_map_app. Qed.
Lemma escape_word w : word_ok w -> escape (word_text w) = rendered [42] (word_toks w).
Proof. destruct w as [| |l]; [done|done|]. simpl. intros _. induction l as [|r l IH]; simpl; [done|]. now rewrite IH. Qed.
Lemma escape_pattern ws : Forall word_ok ws -> escape (pattern_text ws) = rendered [42] (toks ws).
Proof.
  destruct 1 as [|w ws Hw Hws]; [done|]. simpl. rewrite escape_app, List.flat_map_app, escape_word by done. f_equal.
  induction Hws as [|v ws Hv _ IH]; [done|]. simpl. rewrite escape_app, List.flat_map_app, IH, (escape_word v) by done. done.
Qed.

Lemma step1_replace ts : Forall early ts -> replaceAll [42] one_word (rendered [42] ts) = R ts.
Proof.
  induction 1 as [|t ts Ht _ IH]; [done|]. cbn [List.flat_map].
  destruct t as [| | |r| | |]; try done; try (rewrite replace_quiet by reflexivity; now rewrite IH).
  - cbn [render]. rewrite replace_hit by done. now rewrite IH.
  - rewrite replace_quiet; [now rewrite IH|]. destruct Ht as (_ & H & _). simpl.
    assert ((42 =? r) = false) as E by (apply Z.eqb_neq; congruence). destruct (topicSpecial r); simpl; now rewrite E.
Qed.

(** The tokens the five steps leave. *)
Definition pipeline (ts : list tok) : list tok := step5 (step4 (step3 (step2 ts))).

Lemma step2_ok ts : Forall tok_ok ts -> Forall tok_ok (step2 ts).
Proof.
  induction ts as [ts IH] using toks_length_ind. destruct ts as [|t r]; [done|]. intros H.
  assert (Forall tok_ok (step2 r)) as Hr by (apply IH; [simpl; lia|now apply List.Forall_inv_tail in H]).
  pose proof (List.Forall_inv H) as Ht.
  destruct t; try (constructor; done). destruct r as [|[] [|[] r']]; try (constructor; done).
  simpl. constructor; [done|]. constructor; [done|]. apply IH; [simpl; lia|]. now do 3 apply List.Forall_inv_tail in H.
Qed.
Lemma step3_ok ts : Forall tok_ok ts -> Forall tok_ok (step3 ts).
Proof.
  induction ts as [ts IH] using toks_length_ind. destruct ts as [|t r]; [done|]. intros H.
  assert (Forall tok_ok (step3 r)) as Hr by (apply IH; [simpl; lia|now apply List.Forall_inv_tail in H]).
  pose proof (List.Forall_inv H) as Ht.
  destruct t; try (constructor; done). destruct r as [|[] r']; try (constructor; done).
  simpl. constructor; [done|]. apply IH; [simpl; lia|]. now do 2 apply List.Forall_inv_tail in H.
Qed.
Lemma step4_ok ts : Forall tok_ok ts -> Forall tok_ok (step4 ts).
Proof.
  induction ts as [ts IH] using toks_length_ind. destruct ts as [|t r]; [done|]. intros H.
  assert (Forall tok_ok (step4 r)) as Hr by (apply IH; [simpl; lia|now apply List.Forall_inv_tail in H]).
  pose proof (List.Forall_inv H) as Ht.
  destruct t; try (constructor; done). destruct r as [|[] r']; try (constructor; done).
  simpl. constructor; [done|]. apply IH; [simpl; lia|]. now do 2 apply List.Forall_inv_tail in H.
Qed.

Lemma topicExpr_tokens ws : Forall word_ok ws -> topicExpr (pattern_text ws) = R (pipeline (toks ws)).
Proof.
  intros Hw. pose proof (toks_early ws Hw) as He. unfold topicExpr, topic_steps, pipeline. cbn [List.fold_left fst snd].
  rewrite escape_pattern, step1_replace by done. pose proof (early_ok _ He) as H1. rewrite step2_replace by done.
  rewrite step3_replace by now apply step2_ok. rewrite step4_replace by now apply step3_ok, step2_ok.
  now rewrite step5_replace by now apply step4_ok, step3_ok, step2_ok.
Qed.

(** ** What the steps leave of a pattern *)

Definition bodyT (ws : list pword) : list tok :=
  List.flat_map (fun w => match w with PHash => [TTail] | _ => TDot :: word_toks w end) ws.

Definition nohash (ts : list tok) : Prop := match ts with THash :: _ => False | _ => True end.
Definition is_hash (w : pword) : bool := match w with PHash => true | _ => false end.

Lemma step2_word w ts : is_hash w = false -> step2 (word_toks w ++ ts) = word_toks w ++ step2 ts.
Proof. destruct w as [| |l]; try done. intros _. induction l as [|r l IH]; simpl; [done|]. f_equal. exact IH. Qed.
Lemma step3_word w ts : is_hash w = false -> step3 (word_toks w ++ ts) = word_toks w ++ step3 ts.
Proof. destruct w as [| |l]; try done. intros _. induction l as [|r l IH]; simpl; [done|]. f_equal. exact IH. Qed.
Lemma step4_word w ts : is_hash w = false -> step4 (word_toks w ++ ts) = word_toks w ++ step4 ts.
Proof. destruct w as [| |l]; try done. intros _. induction l as [|r l IH]; simpl; [done|]. f_equal. exact IH. Qed.
Lemma step5_word w ts : is_hash w = false -> step5 (word_toks w ++ ts) = word_toks w ++ step5 ts.
Proof. destruct w as [| |l]; try done. intros _. induction l as [|r l IH]; simpl; [done|]. f_equal. exact IH. Qed.

Lemma step2_dot ts : nohash ts -> step2 (TDot :: ts) = TDot :: step2 ts.
Proof. destruct ts as [|[] ts]; done. Qed.
Lemma step3_dot ts : nohash ts -> step3 (TDot :: ts) = TDot :: step3 ts.
Proof. destruct ts as [|[] ts]; done. Qed.

Lemma nohash_word w ts : is_hash w = false -> nohash ts -> nohash (word_toks w ++ ts).
Proof. destruct w as [| |[|r l]]; done. Qed.
Lemma nohash_dotted ws : nohash (dotted ws).
Proof. destruct ws; done. Qed.
Lemma nohash_step2_dotted ws : nohash (step2 (dotted ws)).
Proof. destruct ws as [|[| |[|c l]] [|[| |[|c' l']] ws]]; done. Qed.

(** '#' after a dot becomes a tail, everything else stays. *)
Lemma steps_dotted n : forall ws, (List.length ws <= n)%nat -> step3 (step2 (dotted ws)) = bodyT ws.
Proof.
  induction n as [|n IH]; intros ws Hn; [destruct ws; [done|simpl in Hn; lia]|]. destruct ws as [|w ws]; [done|]. simpl in Hn.
  change (dotted (w :: ws)) with (TDot :: word_toks w ++ dotted ws). destruct (is_hash w) eqn:Eh.
  - destruct w; try done. destruct ws as [|v ws]; [done|]. simpl in Hn.
    change (TDot :: word_toks PHash ++ dotted (v :: ws)) with (TDot :: THash :: TDot :: word_toks v ++ dotted ws).
    change (step2 (TDot :: THash :: TDot :: word_toks v ++ dotted ws)) with (TTail :: TDot :: step2 (word_toks v ++ dotted ws)).
    destruct (is_hash v) eqn:Ev.
    + destruct v; try done. change (step2 (word_toks PHash ++ dotted ws)) with (THash :: step2 (dotted ws)).
      change (step3 (TTail :: TDot :: THash :: step2 (dotted ws))) with (TTail :: TTail :: step3 (step2 (dotted ws))).
      rewrite IH by lia. done.
    + rewrite step2_word by done. change (step3 (TTail :: ?x)) with (TTail :: step3 x).
      rewrite step3_dot by (apply nohash_word; [done|apply nohash_step2_dotted]). rewrite step3_word, IH by (done || lia).
      destruct v; done.
  - rewrite step2_dot by (apply nohash_word; [done|apply nohash_dotted]). rewrite step2_word by done.
    rewrite step3_dot by (apply nohash_word; [done|apply nohash_step2_dotted]). rewrite step3_word, IH by (done || lia).
    destruct w; done.
Qed.

Lemma step4_body ws : step4 (bodyT ws) = bodyT ws.
Proof.
  induction ws as [|w ws IH]; [done|]. unfold bodyT in *. destruct w as [| |l]; cbn [List.flat_map app].
  - simpl. now rewrite IH.
  - simpl. now rewrite IH.
  - change (TDot :: word_toks (PLit l) ++ ?t) with (TDot :: (word_toks (PLit l) ++ t)).
    cbn [step4]. rewrite step4_word by done. now rewrite IH.
Qed.
Lemma step5_body ws : step5 (bodyT ws) = bodyT ws.
Proof.
  induction ws as [|w ws IH]; [done|]. unfold bodyT in *. destruct w as [| |l]; cbn [List.flat_map app].
  - simpl. now rewrite IH.
  - simpl. now rewrite IH.
  - change (step5 (TDot :: word_toks (PLit l) ++ ?t)) with (TDot :: step5 (word_toks (PLit l) ++ t)).
    rewrite step5_word by done. now rewrite IH.
Qed.

Lemma pipeline_word w ws : is_hash w = false -> pipeline (toks (w :: ws)) = word_toks w ++ bodyT ws.
Proof.
  intros Hw. unfold pipeline. cbn [toks]. rewrite step2_word, step3_word, (steps_dotted (List.length ws)) by done.
  now rewrite step4_word, step4_body, step5_word, step5_body.
Qed.
Lemma pipeline_hash_word w ws : is_hash w = false -> pipeline (toks (PHash :: w :: ws)) = THead :: word_toks w ++ bodyT ws.
Proof.
  intros Hw. unfold pipeline. cbn [toks word_toks]. change (dotted (w :: ws)) with (TDot :: word_toks w ++ dotted ws).
  change (step2 ([THash] ++ ?t)) with (THash :: step2 t). rewrite step2_dot by (apply nohash_word; [done|apply nohash_dotted]).
  rewrite step2_word by done. change (step3 (THash :: ?t)) with (THash :: step3 t).
  rewrite step3_dot by (apply nohash_word; [done|apply nohash_step2_dotted]). rewrite step3_word, (steps_dotted (List.length ws)) by done.
  change (step4 (THash :: TDot :: ?t)) with (THead :: step4 t). rewrite step4_word, step4_body by done.
  change (step5 (THead :: ?t)) with (THead :: step5 t). now rewrite step5_word, step5_body.
Qed.

(** ** Compiling *)

Definition tok_re (t : tok) : re :=
  match t with
  | TDot => Chr 46
  | TStar => Plus NotDot
  | THash => Void
  | TLit r => Chr r
  | TTail => Opt (Cat (Chr 46) (Cat (Star Any) Eps))
  | THead => Opt (Cat (Star Any) (Cat (Chr 46) Eps))
  | TAll => Star Any
  end.
Definition toks_re (ts : list tok) : re := List.fold_right (fun t e => Cat (tok_re t) e) Eps ts.
Definition final (t : tok) : Prop := match t with THash => False | TLit r => plain_rune r | _ => True end.

Definition operator (c : Z) : bool := (c =? 42) || (c =? 43) || (c =? 63).
Lemma postfix_none a s : match s with c :: _ => operator c = false | [] => True end -> postfix a s = (a, s).
Proof.
  destruct s as [|c s]; [done|]. unfold operator. intros H. breflect. simpl.
  repeat (case_match; try done); congruence.
Qed.

Lemma special_operator c : topicSpecial c = false -> c <> 42 -> operator c = false.
Proof.
  intros Hs Hc. unfold operator. rewrite !orb_false_iff, !Z.eqb_neq. split_and!; [done| |]; intros ->; done.
Qed.

Lemma rendered_head ts : Forall final ts -> match R ts with c :: _ => operator c = false | [] => True end.
Proof.
  destruct 1 as [|t ts Ht _]; [done|]. destruct t; try done. simpl. destruct (topicSpecial r) eqn:E; [done|].
  simpl. destruct Ht as (_ & H & _). now apply special_operator.
Qed.

Lemma parse_lit n c s e : topicSpecial c = false -> c <> 42 ->
  match s with c :: _ => operator c = false | [] => True end -> parse_seq n s = Some (e, []) ->
  parse_seq (S n) (c :: s) = Some (Cat (Chr c) e, []).
Proof.
  intros Hs Hc Hh Hp. cbn [parse_seq].
  assert (c <> 41 /\ c <> 40 /\ c <> 92 /\ c <> 91 /\ c <> 46) as (? & ? & ? & ? & ?) by (split_and!; intros ->; done).
  assert (forall {B} (a b : B), (if topicSpecial c || (c =? 42) then a else b) = b) as Hif.
  { intros. rewrite Hs. apply Z.eqb_neq in Hc. now rewrite Hc. }
  repeat (case_match; try congruence); rewrite ?Hif in *; simplify_eq; rewrite ?postfix_none in * by done; simplify_eq; congruence.
Qed.

Lemma parse_toks ts : Forall final ts -> forall n, (List.length (R ts) <= n)%nat -> parse_seq n (R ts) = Some (toks_re ts, []).
Proof.
  induction 1 as [|t ts Ht Hts IH]; intros n Hn; [destruct n; done|].
  pose proof (rendered_head ts Hts) as Hh. cbn [List.flat_map] in *. rewrite List.length_app in Hn.
  cbn [toks_re List.fold_right]. fold (toks_re ts).
  destruct t as [| | |r| | |]; try done.
  - destruct n as [|n]; [simpl in Hn; lia|]. simpl in *. rewrite postfix_none by done. now rewrite IH by lia.
  - destruct n as [|n]; [simpl in Hn; lia|]. simpl in *. now rewrite IH by lia.
  - destruct n as [|n]; [destruct (topicSpecial r) eqn:Es; simpl in Hn; rewrite Es in Hn; simpl in Hn; lia|].
    cbn [render] in *. destruct (topicSpecial r) eqn:Es.
    + simpl in *. rewrite postfix_none by done. now rewrite IH by lia.
    + cbn [app]. destruct Ht as (_ & Hc & _). apply parse_lit; [done|done|done|]. apply IH. simpl in Hn. lia.
  - destruct n as [|[|[|[|n]]]]; try (simpl in Hn; lia). simpl in Hn.
    set (X := R ts) in *. remember (S (S (S n))) as m eqn:Em.
    change (render one_word TTail ++ X) with (40 :: 92 :: 46 :: 46 :: 42 :: 41 :: 63 :: X).
    assert (parse_seq m (92 :: 46 :: 46 :: 42 :: 41 :: 63 :: X) = Some (Cat (Chr 46) (Cat (Star Any) Eps), 41 :: 63 :: X)) as Hi
      by (subst m; reflexivity).
    cbn [parse_seq]. rewrite Hi. cbn [postfix]. now rewrite IH by lia.
  - destruct n as [|[|[|[|n]]]]; try (simpl in Hn; lia). simpl in Hn.
    set (X := R ts) in *. remember (S (S (S n))) as m eqn:Em.
    change (render one_word THead ++ X) with (40 :: 46 :: 42 :: 92 :: 46 :: 41 :: 63 :: X).
    assert (parse_seq m (46 :: 42 :: 92 :: 46 :: 41 :: 63 :: X) = Some (Cat (Star Any) (Cat (Chr 46) Eps), 41 :: 63 :: X)) as Hi
      by (subst m; reflexivity).
    cbn [parse_seq]. rewrite Hi. cbn [postfix]. now rewrite IH by lia.
  - destruct n as [|n]; [simpl in Hn; lia|]. simpl in *. now rewrite IH by lia.
Qed.

(** ** What a token list matches *)

Definition tokL (t : tok) (u : list Z) : Prop :=
  match t with
  | TDot => u = [46]
  | TStar => u <> [] /\ dotless u
  | THash => False
  | TLit r => u = [r]
  | TTail => u = [] \/ exists x, u = 46 :: x
  | THead => u = [] \/ exists x, u = x ++ [46]
  | TAll => True
  end.
Fixpoint toksL (ts : list tok) (u : list Z) : Prop :=
  match ts with
  | [] => u = []
  | t :: r => exists v w, u = v ++ w /\ tokL t v /\ toksL r w
  end.

Lemma tok_lang t u : lang (tok_re t) u <-> tokL t u.
Proof.
  destruct t; simpl; try apply lang_chr.
  - apply plus_notdot.
  - split; [now inversion 1|done].
  - unfold Opt. rewrite lang_alt, lang_eps, lang_cat. split; (intros [H|H]; [now left|right]).
    + destruct H as (v & w & -> & Hv%lang_chr & _). subst. simpl. eauto.
    + destruct H as (x & ->). exists [46], x. split_and!; [done|constructor|]. apply lang_cat. exists x, [].
      rewrite app_nil_r. split_and!; [done|apply star_any|constructor].
  - unfold Opt. rewrite lang_alt, lang_eps, lang_cat. split; (intros [H|H]; [now left|right]).
    + destruct H as (v & w & -> & _ & (a & b & -> & Ha%lang_chr & Hb%lang_eps)%lang_cat). subst. eauto.
    + destruct H as (x & ->). exists x, [46]. split_and!; [done|apply star_any|]. apply lang_cat. exists [46], [].
      split_and!; [done|constructor|constructor].
  - split; [done|]. intros _. apply star_any.
Qed.

Lemma toks_lang ts u : lang (toks_re ts) u <-> toksL ts u.
Proof.
  revert u. induction ts as [|t ts IH]; intros u; simpl; [apply lang_eps|]. rewrite lang_cat.
  setoid_rewrite tok_lang. setoid_rewrite IH. done.
Qed.

Lemma toksL_app a b u : toksL (a ++ b) u <-> exists v w, u = v ++ w /\ toksL a v /\ toksL b w.
Proof.
  revert u. induction a as [|t a IH]; intros u; simpl.
  - split; [intros H; exists [], u; auto|]. now intros (v & w & -> & -> & H).
  - setoid_rewrite IH. split.
    + intros (v & w & -> & H1 & (v' & w' & -> & H2 & H3)). exists (v ++ v'), w'. rewrite app_assoc. split_and!; eauto 6.
    + intros (v & w & -> & (v1 & v2 & -> & H1 & H2) & H3). exists v1, (v2 ++ w). rewrite app_assoc. split_and!; eauto 6.
Qed.

(** ** AMQP *)

(** The words of a topic. *)
Fixpoint words (s : list Z) : list (list Z) :=
  match s with
  | [] => [[]]
  | r :: s' => if r =? 46 then [] :: words s'
               else match words s' with w :: ws => (r :: w) :: ws | [] => [[r]] end
  end.

(** Whether a pattern's words match a topic's: '*' one word, not empty, and '#'
    zero or more. *)
Fixpoint amqp (ws : list pword) (ts : list (list Z)) : Prop :=
  match ws with
  | [] => ts = []
  | PHash :: r => exists us vs, ts = us ++ vs /\ amqp r vs
  | PStar :: r => exists t vs, ts = t :: vs /\ t <> [] /\ amqp r vs
  | PLit l :: r => exists vs, ts = l :: vs /\ amqp r vs
  end.

(** Words each behind a dot. *)
Definition behind (ts : list (list Z)) : list Z := List.flat_map (fun t => 46 :: t) ts.

Lemma words_spec s : exists w ws, words s = w :: ws /\ s = w ++ behind ws /\ dotless w /\ Forall dotless ws.
Proof.
  unfold dotless. induction s as [|r s (w & ws & E & Hs & H1 & H2)]; simpl; [exists [], []; split_and!; try done; now intros []|].
  destruct (r =? 46) eqn:Er; breflect; rewrite E.
  - subst r. exists [], (w :: ws). split_and!; [done|now rewrite Hs|now intros []|now constructor].
  - exists (r :: w), ws. split_and!; [done|now rewrite Hs|intros [->|Hin]; done|done].
Qed.

Lemma dotless_split a b u v : dotless a -> dotless b -> a ++ u = b ++ v ->
  (match u with c :: _ => c = 46 | [] => True end) -> (match v with c :: _ => c = 46 | [] => True end) -> a = b /\ u = v.
Proof.
  unfold dotless. revert b. induction a as [|x a IH]; intros [|y b] Ha Hb E Hu Hv; simpl in *.
  - done.
  - subst u. subst y. exfalso. apply Hb. now left.
  - subst v. subst x. exfalso. apply Ha. now left.
  - injection E as -> E. destruct (IH b) as [-> ->]; auto.
Qed.

Lemma behind_head ts : match behind ts with c :: _ => c = 46 | [] => True end.
Proof. destruct ts; done. Qed.

Lemma behind_inj ts us : Forall dotless ts -> Forall dotless us -> behind ts = behind us -> ts = us.
Proof.
  intros Ht. revert us. induction Ht as [|t ts Hd _ IH]; intros us Hu E; destruct Hu as [|u us Hd' Hu]; try discriminate; [done|].
  change (46 :: t ++ behind ts = 46 :: u ++ behind us) in E. injection E as E.
  destruct (dotless_split _ _ _ _ Hd Hd' E (behind_head ts) (behind_head us)) as [-> E']. f_equal. auto.
Qed.

Lemma behind_app a b : behind (a ++ b) = behind a ++ behind b.
Proof. apply List.flat_map_app. Qed.

(** A word's tokens match that word. *)
Definition wordL (w : pword) (u : list Z) : Prop := match w with PStar => u <> [] /\ dotless u | PHash => False | PLit l => u = l end.
Lemma word_toksL w u : is_hash w = false -> toksL (word_toks w) u <-> wordL w u.
Proof.
  destruct w as [| |l]; [|done|]; intros _; simpl.
  - split; [intros (v & x & -> & H & ->); now rewrite app_nil_r|]. intros H. exists u, []. now rewrite app_nil_r.
  - revert u. induction l as [|r l IH]; intros u; simpl; [done|]. setoid_rewrite IH. split.
    + now intros (v & x & -> & -> & ->).
    + intros ->. exists [r], l. done.
Qed.
Lemma wordL_dotless w u : word_ok w -> wordL w u -> dotless u.
Proof.
  destruct w as [| |l]; simpl; [now intros _ [? ?]|done|]. intros H ->. unfold dotless. intros Hin.
  rewrite List.Forall_forall in H. now destruct (H 46 Hin).
Qed.

Lemma amqp_word w ws ts : is_hash w = false -> Forall dotless ts ->
  amqp (w :: ws) ts <-> exists t vs, ts = t :: vs /\ wordL w t /\ amqp ws vs.
Proof.
  intros Hw Hd. destruct w as [| |l]; try done; simpl.
  - split; intros (t & vs & -> & H & H'); exists t, vs; [|tauto]. apply List.Forall_inv in Hd. auto.
  - split; [intros (vs & -> & H); exists l, vs; auto|]. intros (t & vs & -> & -> & H). eauto.
Qed.

Lemma body_lang ws : Forall word_ok ws -> forall u,
  toksL (bodyT ws) u <-> exists ts, Forall dotless ts /\ u = behind ts /\ amqp ws ts.
Proof.
  induction 1 as [|w ws Hw Hws IH]; intros u; simpl.
  { split; [intros ->; exists []; auto|]. now intros (ts & _ & -> & ->). }
  rewrite toksL_app. setoid_rewrite IH. destruct (is_hash w) eqn:Eh.
  - destruct w; try done. simpl. split.
    + intros (v & x & -> & (a & b & -> & Ha & ->) & (ts & Hd & -> & Hm)). rewrite app_nil_r. destruct Ha as [->|(y & ->)].
      * exists ts. split_and!; [done|done|]. exists [], ts. done.
      * destruct (words_spec y) as (w0 & ws0 & _ & -> & H1 & H2). exists ((w0 :: ws0) ++ ts). rewrite behind_app.
        split_and!; [apply List.Forall_app; split; [now constructor|done]|done|]. exists (w0 :: ws0), ts. done.
    + intros (ts & Hd & -> & (us & vs & -> & Hm)). apply List.Forall_app in Hd as [Hu Hv]. rewrite behind_app.
      exists (behind us), (behind vs). split; [done|]. split; [|eauto]. exists (behind us), []. rewrite app_nil_r. split_and!; try done.
      destruct us as [|t us]; [now left|right; simpl; eauto].
  - assert (forall v, toksL (match w with PHash => [TTail] | _ => TDot :: word_toks w end) v <-> exists t, v = 46 :: t /\ wordL w t) as Hv.
    { intros v. transitivity (toksL (TDot :: word_toks w) v); [now destruct w|]. simpl. setoid_rewrite (word_toksL w); [|done].
      split; [now intros (a & t & -> & -> & H); eauto|]. intros (t & -> & H). exists [46], t. done. }
    setoid_rewrite Hv. split.
    + intros (v & x & -> & (t & -> & Ht) & (ts & Hd & -> & Hm)). exists (t :: ts).
      assert (Forall dotless (t :: ts)) as Hd' by (constructor; [eapply wordL_dotless; eauto|done]).
      split_and!; [done|done|]. apply amqp_word; [done|done|eauto].
    + intros (ts & Hd & -> & Hm). apply amqp_word in Hm as (t & vs & -> & Ht & Hm); [|done|done].
      exists (46 :: t), (behind vs). split; [done|]. split; [eauto|]. exists vs. split_and!; [now apply List.Forall_inv_tail in Hd|done|done].
Qed.

(** A pattern that does not start with '#'. *)
Lemma word_pattern w ws s : is_hash w = false -> word_ok w -> Forall word_ok ws ->
  toksL (word_toks w ++ bodyT ws) s <-> amqp (w :: ws) (words s).
Proof.
  intros Hh Hw Hws. destruct (words_spec s) as (t0 & ts0 & E & Hs & H1 & H2). rewrite E, toksL_app.
  rewrite (amqp_word w ws) by (done || now constructor). setoid_rewrite (body_lang ws Hws). setoid_rewrite (word_toksL w); [|done]. split.
  - intros (v & x & Es & Hv & (ts & Hd & -> & Hm)). exists t0, ts0. split; [done|].
    rewrite Hs in Es. pose proof (wordL_dotless _ _ Hw Hv) as Hdv.
    destruct (dotless_split _ _ _ _ H1 Hdv Es (behind_head _) (behind_head _)) as [-> Eb].
    apply behind_inj in Eb as ->; done.
  - intros (t & vs & [= <- <-] & Ht & Hm). exists t0, (behind ts0). split; [done|]. split; [done|eauto].
Qed.

(** A pattern whose first word alone is '#'. *)
Lemma hash_pattern w ws s : is_hash w = false -> word_ok w -> Forall word_ok ws ->
  toksL (THead :: word_toks w ++ bodyT ws) s <-> amqp (PHash :: w :: ws) (words s).
Proof.
  intros Hh Hw Hws. cbn [toksL amqp tokL]. split.
  - intros (v & x & -> & Hv & Hx%word_pattern); try done. destruct Hv as [->|(y & ->)]; [exists [], (words x); done|].
    exists (words y), (words x). split; [|done]. rewrite <- app_assoc. change ([46] ++ x) with (46 :: x). clear. induction y as [|r y IH]; [done|]. simpl. rewrite IH.
    destruct (r =? 46); [done|]. destruct (words_spec y) as (a & l & -> & _). done.
  - intros (us & vs & E & Hm). destruct (words_spec s) as (t0 & ts0 & Ew & Hs & H1 & H2).
    destruct us as [|u us]; simpl in E.
    + exists [], s. split; [done|]. split; [now left|]. apply word_pattern; try done. now rewrite E.
    + rewrite Ew in E. injection E as -> ->. apply List.Forall_app in H2 as [_ Hv].
      assert (exists t l, vs = t :: l) as (t & l & ->).
      { apply amqp_word in Hm as (t & l & -> & _); [eauto|done|done]. }
      exists ((u ++ behind us) ++ [46]), (t ++ behind l). split; [rewrite Hs, behind_app; simpl; now rewrite <- !app_assoc|].
      split; [right; eauto|]. apply word_pattern; try done.
      assert (words (t ++ behind l) = t :: l) as ->; [|done].
      destruct (words_spec (t ++ behind l)) as (a & b & -> & Eq & Ha & Hb).
      destruct (dotless_split _ _ _ _ (List.Forall_inv Hv) Ha Eq (behind_head _) (behind_head _)) as [<- Eq'].
      f_equal. symmetry. apply behind_inj; [now apply List.Forall_inv_tail in Hv|done|done]. 
Qed.

Lemma final_body ws : Forall word_ok ws -> Forall final (bodyT ws).
Proof.
  induction 1 as [|w ws Hw _ IH]; [constructor|]. unfold bodyT. simpl. apply List.Forall_app. split; [|exact IH].
  destruct w as [| |l]; simpl; repeat constructor. induction Hw; constructor; done.
Qed.
Lemma final_word w : word_ok w -> is_hash w = false -> Forall final (word_toks w).
Proof. destruct w as [| |l]; try done; intros H _; [repeat constructor|]. induction H; constructor; done. Qed.

(** A pattern that does not start with two '#' words. *)
Definition one_lead (ws : list pword) : bool := match ws with PHash :: PHash :: _ => false | _ => true end.

Lemma pattern_tokens ws s : ws <> [] -> Forall word_ok ws -> one_lead ws = true ->
  Forall final (pipeline (toks ws)) /\ (toksL (pipeline (toks ws)) s <-> amqp ws (words s)).
Proof.
  intros Hne Hok Hl. destruct ws as [|w ws]; [done|]. inversion Hok as [|? ? Hw Hws]; subst. destruct (is_hash w) eqn:Eh.
  - destruct w; try done. destruct ws as [|v ws].
    + split; [repeat constructor|]. simpl. split; [|intros _; exists s, []; now rewrite app_nil_r].
      intros _. exists (words s), []. now rewrite app_nil_r.
    + inversion Hws as [|? ? Hv Hvs]; subst. assert (is_hash v = false) as Ev by now destruct v.
      rewrite pipeline_hash_word by done. split; [|now apply hash_pattern].
      constructor; [done|]. apply List.Forall_app. split; [now apply final_word|now apply final_body].
  - rewrite pipeline_word by done. split; [|now apply word_pattern].
    apply List.Forall_app. split; [now apply final_word|now apply final_body].
Qed.

(** C40: Topic patterns mean what AMQP says.  A pattern of words separated by
    dots, each '*', '#' or literal, that does not start with two '#' words,
    compiles, and matches a topic exactly if its words match the topic's: '*'
    one word that is not empty, '#' zero or more, a literal itself. *)
Theorem topic_pattern_amqp ws s : ws <> [] -> Forall word_ok ws -> one_lead ws = true ->
  exists e, regexp_compile (topicExpr (pattern_text ws)) = Some e /\ (re_match e s = true <-> amqp ws (words s)).
Proof.
  intros Hne Hok Hl. destruct (pattern_tokens ws s Hne Hok Hl) as [Hf Ht]. rewrite topicExpr_tokens by done.
  exists (toks_re (pipeline (toks ws))). unfold regexp_compile. rewrite parse_toks by done. split; [done|].
  now rewrite re_match_lang, toks_lang.
Qed.

(** A pattern that starts with two '#' words does not take them as zero
    words: '#.#.b' does not match the topic 'b', though '#.b' does, and though
    by the words it should. *)
Theorem topic_two_hashes :
  topic_matches "#.#.b" "b" = Ok false /\ topic_matches "#.b" "b" = Ok true
  /\ amqp [PHash; PHash; PLit [98]] (words [98]).
Proof.
  split; [vm_compute; reflexivity|]. split; [vm_compute; reflexivity|].
  exists [], [[98]]. split; [done|]. exists [], [[98]]. split; [done|]. exists []. done.
Qed.
