(* ===== verification/LeaseSpec.v ===== *)
(** * Leases: theorems on Leases.v

    Claiming a job by its ID honours its fence and its lane and grants one
    lease, and a lease is renewed by its holder alone. *)

From Stdlib Require Import List ZArith Lia Bool String.
From stdpp Require Import base tactics list relations.
From S2P Require Import Prelude Sql Text Json JsonCheck Types Store Logic JobId Codec Insert Finalize Claim Control Leases.
From S2P Require Import Workflow Evolution Engine ClaimSpec FinalizeSpec.
Import ListNotations.
Local Open Scope string_scope.
Local Open Scope Z_scope.

(** ** Claiming by ID *)

Lemma claim_by_id_starts now : starts (claim_by_id_row now).
Proof. split; intros; [evolve_tac|done|done]. Qed.

Lemma lane_busy_free t j : lane_busy t j = negb (lane_free t j).
Proof.
  unfold lane_busy, lane_free, not_null. destruct (is_null (j_OrderingKey j)); [done|]. simpl.
  destruct (ex _ t); simpl; [done|]. destruct (min_seq _); [|done]. now destruct (j_seq j =? z).
Qed.

(** What a job claimable by ID satisfies. *)
Record claimable (d : DB) (p : JobClaimByIDParams) (now : Z) (j : JobRow) : Prop := {
  cb_live : In j (db_jobs d);
  cb_id : j_ID j = ci_ID p;
  cb_fence : j_Fence j = ci_Fence p;
  cb_waits : waits j = true;
  cb_ttl : match j_ExpiresAt j with Some e => now < e | None => True end;
  cb_queue : queue_paused d (j_Queue j) = false;
  cb_lane : lane_free (db_jobs d) j = true }.

Lemma claimableByID_spec p x d u d' : wf d -> claimableByID p x d = Ok (u, d') -> d' = d /\ exists j, claimable d p (w_now x) j.
Proof.
  intros Hw. unfold claimableByID, liveRow. intros E. apply bind_Ok in E as (row & d1 & Eg & E). unfold get in Eg. injection Eg as <- <-.
  destruct (one _ _) as [j|] eqn:Er; [|inv_w; destruct (_ =? _); done]. apply one_Some in Er as [Hj Hi]. unfold id_is in Hi.
  unfold bind, us, get in E. rewrite lane_busy_free in E.
  destruct (j_Fence j =? ci_Fence p) eqn:Ef; [|done]. destruct (state_eqb (j_State j) Running) eqn:E1; [done|].
  destruct (state_eqb (j_State j) Pending) eqn:E2; [done|]. cbn [negb] in E.
  destruct (match j_ExpiresAt j with Some e => e <=? w_now x | None => false end) eqn:Ee; [done|].
  destruct (queue_paused d (j_Queue j)) eqn:Eq; [done|]. destruct (lane_free (db_jobs d) j) eqn:El; [|done]. cbn [negb] in E. inv_w.
  split; [done|]. exists j. breflect. split; try done.
  - pose proof (wf_row_ok d j Hw Hj) as Hr. unfold row_ok in Hr. breflect. unfold waits. now destruct (j_State j).
  - destruct (j_ExpiresAt j); [breflect; done|done].
Qed.

Lemma one_waiting d p j : wf d -> In j (db_jobs d) -> j_ID j = ci_ID p -> waits j = true ->
  one (fun j => id_is (ci_ID p) j && waits j) (db_jobs d) = Some j.
Proof.
  intros Hw Hj Hi Hwt. destruct (one _ _) as [k|] eqn:E.
  - apply one_Some in E as [Hk H]. unfold id_is in H. breflect. f_equal. eapply wf_unique_id; eauto. congruence.
  - rewrite one_None in E. specialize (E j Hj). unfold id_is in E. rewrite Hi, Z.eqb_refl, Hwt in E. done.
Qed.

(** A claim by ID starts a job in a lane that is free. *)
Lemma JobClaimByID_unconstrained p x d : wf d -> JobClaimByID_w p x d <> Err ErrConstraint.
Proof.
  intros Hr E. unfold JobClaimByID_w in E. unfold bind at 1 in E. destruct (claimableByID p x d) as [[u d1]|e] eqn:Hc.
  - destruct (claimableByID_spec _ _ _ _ _ Hr Hc) as [-> (j & [Hin Hi Hf Hwt _ _ Hl])].
    unfold bind at 1, us at 1 in E. unfold bind at 1, get at 1 in E. rewrite (one_waiting d p j) in E by done.
    unfold bind at 1, exec_jobs in E. rewrite jobs_ok_claim in E; [done|apply Hr|apply claim_by_id_starts|].
    intros k Hk Hp. unfold id_is in Hp. breflect. assert (k = j) as -> by (eapply wf_unique_id; eauto; congruence). done.
  - revert Hc E. unfold claimableByID, liveRow, bind, get, us. repeat case_match; unfold fail, ret; intros; congruence.
Qed.

(** And it starts every job it may. *)
Lemma claimable_claimed p x d j : wf d -> claimable d p (w_now x) j -> exists r, JobClaimByID_w p x d = Ok r.
Proof.
  intros Hw [Hin Hi Hf Hwt He Hq Hl].
  assert (Hc : claimableByID p x d = Ok (tt, d)).
  { unfold claimableByID, liveRow, bind, get, us. destruct (one _ _) as [k|] eqn:Eo.
    - apply one_Some in Eo as [Hk Hik]. unfold id_is in Hik. breflect. assert (k = j) as -> by (eapply wf_unique_id; eauto; congruence).
      rewrite Hf, Z.eqb_refl, lane_busy_free, Hl, Hq. unfold waits in Hwt. destruct (j_State j), (j_ExpiresAt j); try done; simpl;
        (destruct (Z.leb_spec z (w_now x)) as [Hle|_]; [lia|done]).
    - rewrite one_None in Eo. specialize (Eo j Hin). unfold id_is in Eo. breflect. congruence. }
  unfold JobClaimByID_w. unfold bind at 1. rewrite Hc. unfold bind at 1, us at 1. unfold bind at 1, get at 1. rewrite (one_waiting d p j) by done.
  unfold bind at 1, exec_jobs. rewrite jobs_ok_claim; [eexists; reflexivity|apply Hw|apply claim_by_id_starts|].
  intros k Hk Hp. unfold id_is in Hp. breflect. assert (k = j) as -> by (eapply wf_unique_id; eauto; congruence). done.
Qed.

(** C19:
    Claiming a job by ID honours its fence and its lane.  A claim that
    succeeds found the job waiting with exactly the fence the caller named, its
    TTL not passed, its queue not paused and its lane free; the job then runs its
    next attempt with the next fence and no owning client, and there is one lease of
    it, with the token, fence and expiry returned; no other row of any table has
    changed.  A claim that fails changes nothing and never trips a constraint, and
    then there is no such job: one that may be claimed is. *)
Theorem JobClaimByID_sound d p x : reachable d -> 1000 <= ci_TTL p ->
  match JobClaimByID p x d with
  | (Ok res, d') => exists j, claimable d p (w_now x) j
      /\ (forall k, In k (db_jobs d) -> id_is (ci_ID p) k = true -> k = j)
      /\ (let j' := v_job (lr_Job res) in
          j' = j <| j_State := Running |> <| j_Attempt := j_Attempt j + 1 |> <| j_Fence := j_Fence j + 1 |>
                 <| j_AttemptedAt := Some (w_now x) |> <| j_AttemptedBy := None |> <| j_SnoozeReason := None |>
          /\ lf_Fence (lr_Lease res) = j_Fence j + 1 /\ lr_ExpiresAt res = w_now x + ci_TTL p / 1000
          /\ d' = d <| db_jobs := upd (id_is (ci_ID p)) (fun _ => j') (db_jobs d) |>
                    <| db_leases := (del (fun o => l_id o =? ci_ID p) (db_leases d)
                         ++ [mkLeaseRow (ci_ID p) (lf_Token (lr_Lease res)) (j_Fence j + 1) (ci_TTL p / 1000) (w_now x) (lr_ExpiresAt res)])%list |>
                    <| db_rand ::= S |>)
  | (Err e, d') => e <> ErrConstraint /\ d' = d /\ forall j, ~ claimable d p (w_now x) j
  end.
Proof.
  intros Hr%reachable_wf Httl. unfold JobClaimByID. destruct (ci_TTL p <? 1000) eqn:Et; [breflect; lia|]. unfold write.
  destruct (JobClaimByID_w p x d) as [[res d']|e] eqn:E.
  - unfold JobClaimByID_w in E. apply bind_Ok in E as (u & d1 & Hc & E).
    destruct (claimableByID_spec _ _ _ _ _ Hr Hc) as [-> (j & Hj)]. exists j. split; [done|]. destruct Hj as [Hin Hi Hf Hwt _ _ _].
    assert (Huniq : forall k, In k (db_jobs d) -> id_is (ci_ID p) k = true -> k = j)
      by (intros k Hk Hik; unfold id_is in Hik; breflect; eapply wf_unique_id; eauto; congruence).
    split; [done|]. unfold bind at 1, us at 1 in E. unfold bind at 1, get at 1 in E. rewrite (one_waiting d p j) in E by done.
    apply bind_Ok in E as (u2 & d2 & (_ & ->)%exec_jobs_Ok & E). unfold bind, get, randomblob16, draw, at_, modify, ret in E. injection E as <- <-.
    cbn [lr_Job lr_Lease lr_ExpiresAt lf_Token lf_Fence].
    assert (Ev : v_job (readDependencies (d <| db_jobs := upd (fun k => id_is (ci_ID p) k && waits k) (claim_by_id_row (w_now x)) (db_jobs d) |>)
                          (claim_by_id_row (w_now x) j)) = claim_by_id_row (w_now x) j) by (unfold readDependencies; now case_match).
    rewrite !Ev. split_and!; [done|done|rewrite Z.add_comm, Z.div_add by done; lia|].
    assert (Eu : upd (fun k => id_is (ci_ID p) k && waits k) (claim_by_id_row (w_now x)) (db_jobs d)
                 = upd (id_is (ci_ID p)) (fun _ => claim_by_id_row (w_now x) j) (db_jobs d)).
    { apply map_ext_in. intros k Hk. destruct (id_is (ci_ID p) k) eqn:Ek; [|done]. rewrite (Huniq k Hk Ek), Hwt. done. }
    rewrite Eu. reflexivity.
  - split_and!; [|done|].
    + intros ->. now apply JobClaimByID_unconstrained in E.
    + intros j Hj. destruct (claimable_claimed p x d j Hr Hj) as [r Er]. congruence.
Qed.

(** ** Renewal *)

(** A lease is renewed by its holder alone.  The renewal succeeds exactly
    if the job runs, with no owning client, in the lease of that token and fence;
    otherwise the caller is told it is fenced and nothing changes. *)
Theorem JobLeaseRenew_fenced p x d :
  let l := ln_Lease p in
  let held := ex (fun o => lease_is (ln_ID p) (lf_Token l) (lf_Fence l) o
                   && ex (fun j => id_is (ln_ID p) j && leaseOwner d j l) (db_jobs d)) (db_leases d) in
  if held then exists s d', JobLeaseRenew p x d = (Ok s, d') /\ db_jobs d' = db_jobs d
               /\ forall o, In o (db_leases d') -> lease_is (ln_ID p) (lf_Token l) (lf_Fence l) o = true ->
                    l_renewed_at o = w_now x /\ l_expires_at o = w_now x + l_ttl o
  else JobLeaseRenew p x d = (Err ErrJobFenced, d).
Proof.
  cbv zeta. unfold JobLeaseRenew, JobLeaseRenew_w, write, bind, us, get, modify.
  destruct (one _ (db_leases d)) as [o|] eqn:E.
  - pose proof (one_Some _ _ _ E) as [Ho Hh]. rewrite (proj2 (ex_true _ _)) by eauto. do 2 eexists. split; [reflexivity|].
    split; [done|]. intros k. simpl. rewrite In_upd. intros (y & Hy & ->) Hk. destruct (lease_is _ _ _ y) eqn:Ey; [done|congruence].
  - rewrite one_None in E. apply ex_false in E. rewrite E. done.
Qed.

(** ** In-place changes and the schema *)

(** A statement that goes through. *)
Lemma exec_jobs_runs f x d : jobs_ok (f (db_jobs d)) = true -> exec_jobs f x d = Ok (tt, d <| db_jobs := f (db_jobs d) |>).
Proof. intros H. unfold exec_jobs. now rewrite H. Qed.

Lemma row_ok_moved j k : row_ok j = true -> Terminal (j_State k) = false -> 1 <= j_Priority k <= 4 -> j_Tags k = j_Tags j -> row_ok k = true.
Proof. intros H Ht Hp E. unfold row_ok in *. breflect. rewrite Ht, E. rewrite !andb_true_iff, !Z.leb_le. repeat split; try lia. done. Qed.

Lemma row_ok_state j : row_ok j = true -> Terminal (j_State j) = false /\ 1 <= j_Priority j <= 4.
Proof. unfold row_ok. intros H. breflect. split; [done|lia]. Qed.

Lemma ages_ok d q b now : wf d -> jobs_ok (upd (ages q b) (fun j => j <| j_Priority ::= Z.pred |> <| j_ScheduledAt := now |>) (db_jobs d)) = true.
Proof.
  intros Hw. apply jobs_ok_calm; [apply Hw|intros; evolve_tac|]. intros j Hj Hp. pose proof (wf_row_ok d j Hw Hj) as Hr. destruct (row_ok_state j Hr) as [Ht Hpr].
  split; [|done]. apply (row_ok_moved j); [done|done| |done]. unfold ages in Hp. breflect. cbn. lia.
Qed.

(** Making jobs runnable starts none. *)
Lemma available_ok t p f : jobs_ok t = true -> (forall j, evolve j (f j)) ->
  (forall j, j_State (f j) = Available /\ j_Priority (f j) = j_Priority j /\ j_Tags (f j) = j_Tags j) -> jobs_ok (upd p f t) = true.
Proof.
  intros Hok Hev Hf. apply jobs_ok_calm; [done|done|]. intros j Hj _. apply jobs_ok_spec in Hok as (H & _). specialize (H j Hj). destruct (Hf j) as (E1 & E2 & E3).
  destruct (row_ok_state j H) as [_ Hpr]. split; [apply (row_ok_moved j); [done|now rewrite E1|now rewrite E2|done]|]. unfold is_running. now rewrite E1.
Qed.

Lemma same_checks_ok t p f : jobs_ok t = true -> (forall j, p j = true -> evolve j (f j)) ->
  (forall j, j_State (f j) = j_State j /\ j_Priority (f j) = j_Priority j /\ j_Tags (f j) = j_Tags j) -> jobs_ok (upd p f t) = true.
Proof.
  intros Hok Hev Hf. apply jobs_ok_calm; [done|done|]. intros j Hj _. apply jobs_ok_spec in Hok as (H & _). specialize (H j Hj). destruct (Hf j) as (E1 & E2 & E3).
  unfold row_ok, is_running in *. rewrite E1, E2, E3. done.
Qed.

Lemma claim_never_fails d q c n p x : wf d -> exists r, claim q c n p x d = Ok r.
Proof.
  intros Hw. destruct (Z.ltb_spec 0 n) as [Hn|Hn]; [destruct (claim_runs d q c n p x Hw Hn) as (v & E & _); eauto|].
  unfold claim. destruct (Z.leb_spec (Z.min n claimMax) 0); [eexists; reflexivity|lia].
Qed.

Lemma JobClaim_runs p x d : wf d -> exists r, fst (JobClaim p x d) = Ok r.
Proof.
  intros Hw. unfold JobClaim, write. destruct (cp_Limit p <=? 0); [eauto|].
  assert (Hc : forall q c n k (f : list JobView -> W JobClaimResult), (forall v y e, exists r, f v y e = Ok r) -> exists r, bind (claim q c n k) f x d = Ok r).
  { intros q c n k f Hf. unfold bind. destruct (claim_never_fails d q c n k x Hw) as [[v e] ->]. apply Hf. }
  destruct (cp_Limited p).
  - assert (exists r, claimLimited p x d = Ok r) as [[r e] ->]; [|cbn; eauto]. unfold claimLimited, bind at 1, get at 1.
    destruct (one _ _) as [q|]; [|apply Hc; eexists; reflexivity]. unfold bind at 1, us at 1. unfold bind at 1, get at 1.
    destruct (match has_rate q with None => _ | Some _ => _ end) as [budget wait]. destruct (budget <=? 0); [eexists; reflexivity|].
    apply Hc. intros v y e. unfold bind. destruct (has_rate q); eexists; reflexivity.
  - destruct (Hc (cp_Queue p) (cp_ClientID p) (cp_Limit p) 0 (fun jobs => ret (mkJobClaimResult jobs 0))) as [[r e] E]; [eexists; reflexivity|].
    rewrite E. cbn. eauto.
Qed.

(** C9: Changes to live jobs in place never break the schema.  On any
    reachable database: claiming from a queue, limited or not, aging a queue,
    waking an ordering key and canceling a job that runs always succeed; and
    claiming a job by ID, retrying a live one and recording progress fail, if they
    do, with an error of their own and never because two jobs of an ordering key
    would run, two live jobs would share a unique key or a row would break its
    CHECKs, which the indexes and the checks of the table would answer with a
    failed constraint. *)
Theorem in_place_never_constrained d : reachable d ->
  (forall p x, exists r, fst (JobClaim p x d) = Ok r)
  /\ (forall q after x, exists n, fst (JobAge q after x d) = Ok n)
  /\ (forall p x, exists n, fst (JobRetryOrderingKey p x d) = Ok n)
  /\ (forall p x, fst (JobClaimByID p x d) <> Err ErrConstraint)
  /\ (forall p x j, In j (db_jobs d) -> j_ID j = rp_ID p -> fst (JobRetry p x d) <> Err ErrConstraint)
  /\ (forall id x j, In j (db_jobs d) -> j_ID j = id -> is_running j = true -> exists v, fst (JobCancel id x d) = Ok v)
  /\ (forall p busy x, fst (JobRecordProgress p busy x d) <> Err ErrConstraint).
Proof.
  intros Hr%reachable_wf. split_and!.
  - intros p x. now apply JobClaim_runs.
  - intros q after x. unfold JobAge. destruct (after <=? 0); [eexists; reflexivity|]. unfold write, bind, us, at_, get. rewrite exec_jobs_runs by now apply ages_ok. eexists. reflexivity.
  - intros p x. unfold JobRetryOrderingKey, JobRetryOrderingKey_w, write. unfold bind at 1, us at 1. unfold bind at 1.
    assert (Hok : jobs_ok (upd (fun j => in_lane (rk_Queue p) (rk_OrderingKey p) j && is_running j) (fun j => j <| j_WakeRequestedAt := Some (w_now x) |>) (db_jobs d)) = true).
    { apply same_checks_ok; [apply Hr|intros; evolve_tac|done]. }
    rewrite exec_jobs_runs by exact Hok. unfold bind, get. rewrite exec_jobs_runs; [eexists; reflexivity|].
    apply available_ok; [exact Hok|intros; evolve_tac|done].
  - intros p x. unfold JobClaimByID. destruct (ci_TTL p <? 1000); [discriminate|]. unfold write.
    destruct (JobClaimByID_w p x d) as [[r d']|e] eqn:E; [discriminate|]. intros [= ->]. now apply JobClaimByID_unconstrained in E.
  - intros p x j Hj Ei. unfold JobRetry, JobRetry_w, write, liveRow. unfold bind at 1, get at 1. rewrite <- Ei, (one_id d j Hr Hj).
    destruct (state_eqb _ _); [discriminate|]. unfold bind, us. rewrite exec_jobs_runs; [discriminate|].
    apply available_ok; [apply Hr|intros; evolve_tac|done].
  - intros id x j Hj Ei Hrun. unfold JobCancel, JobCancel_w, write, liveRow. unfold bind at 1, get at 1. rewrite <- Ei, (one_id d j Hr Hj).
    unfold is_running in Hrun. rewrite Hrun. unfold bind, us. rewrite exec_jobs_runs by (apply same_checks_ok; [apply Hr|intros; evolve_tac|done]). eexists. reflexivity.
  - intros p busy x. unfold JobRecordProgress. destruct (jsonValue _ _ _) as [cursor|e] eqn:Ej.
    + destruct (_ && _); [discriminate|]. unfold write, JobRecordProgress_w. unfold bind at 1, get at 1. destruct (one _ _) as [j|]; [|discriminate].
      unfold bind, us. rewrite exec_jobs_runs by (apply same_checks_ok; [apply Hr|intros; evolve_tac|done]). discriminate.
    + unfold jsonValue in Ej. intros [= ->]. repeat case_match; discriminate.
Qed.
