(* ===== verification/InsertSpec.v ===== *)
(** * Unique keys and batches: theorems on Insert.v

    A unique key admits one live job, whatever the conflict says, and a batch
    inserts its callbacks in the count that completes it and in no other. *)

From Stdlib Require Import List ZArith Lia Bool String.
From stdpp Require Import base tactics list relations.
From S2P Require Import Prelude Sql Text Json Types Store Logic JobId Codec Insert Finalize Evolution Engine.
From S2P Require Import FinalizeSpec.
Import ListNotations.
Local Open Scope string_scope.
Local Open Scope Z_scope.

(** ** Unique keys *)

Lemma insertJob_row j x d r d' : insertJob j x d = Ok (r, d') ->
  exists seq id exp, r = new_row seq id (w_now x) exp j /\ db_jobs d' = (db_jobs d ++ [r])%list /\ db_batches d' = db_batches d.
Proof.
  unfold insertJob. intros E. apply bind_Ok in E as (now & d1 & En & E). unfold us in En. injection En as <- <-.
  apply bind_Ok in E as (exp & d1 & Ea & E). unfold at_ in Ea. injection Ea as <- <-.
  apply bind_Ok in E as (id & d1 & Ei & (-> & _ & ->)%insert_row_Ok). do 3 eexists. split; [reflexivity|]. simpl.
  assert (db_jobs d1 = db_jobs d /\ db_batches d1 = db_batches d) as [-> ->]; [|done].
  destruct (IsZero (i_id j)); [|now inv_w]. unfold newID in Ei. inv_w.
  match goal with H : draw _ _ = Ok _ |- _ => unfold draw in H; now injection H as <- <- end.
Qed.

(** A unique key admits one live job.  Inserting a job whose key a live
    job of its kind holds inserts nothing and reports that job as a duplicate;
    with ConflictSkip, or while that job runs, nothing changes at all, and with
    ConflictReplace only the holder's row does.  If no live job holds the key,
    the insert either reports a finished duplicate and inserts no job with the
    key, or appends the new job. *)
Theorem insertOne_unique c j x d res d' :
  i_uniqueKey j <> "" -> insertOne c j x d = Ok (res, d') ->
  match one (unique_is (i_kind j) (i_uniqueKey j)) (db_jobs d) with
  | Some r =>
      ir_Duplicate res = true /\ j_ID (v_job (ir_Job res)) = j_ID r
      /\ (c = ConflictSkip \/ is_running r = true -> d' = d /\ ir_Job res = live_view r)
      /\ (forall k, In k (db_jobs d) -> j_ID k <> j_ID r -> In k (db_jobs d'))
      /\ List.map j_ID (db_jobs d') = List.map j_ID (db_jobs d)
  | None =>
      if ir_Duplicate res
      then exists h, ir_Job res = history_view h /\ In h (db_history d)
           /\ unique_is (i_kind j) (i_uniqueKey j) (h_job h) = true /\ In (j_State (h_job h)) (i_uniqueFinished j)
      else exists seq id exp, db_jobs d' = (db_jobs d ++ [new_row seq id (w_now x) exp j])%list
           /\ ir_Job res = live_view (new_row seq id (w_now x) exp j)
  end.
Proof.
  intros Hk E. unfold insertOne in E. apply String.eqb_neq in Hk. rewrite Hk in E. cbv zeta in E.
  unfold bind at 1, get at 1 in E. destruct (one _ (db_jobs d)) as [r|] eqn:Er.
  - assert (c = ConflictSkip \/ is_running r = true -> insertOne c j x d = Ok (mkJobInsertResult (live_view r) true, d)) as Hskip.
    { intros H. unfold insertOne. rewrite Hk. unfold bind at 1, get at 1. rewrite Er. destruct c; [done|].
      destruct H as [H|H]; [done|]. now rewrite H. }
    destruct c; [inv_w; split_and!; done|]. destruct (is_running r) eqn:Erun; cbn [negb] in E; [inv_w; split_and!; done|].
    apply bind_Ok in E as (now & d1 & En & E). unfold us in En. injection En as <- <-.
    apply bind_Ok in E as (u & d1 & (_ & ->)%exec_jobs_Ok & E). inv_w. split_and!; try done.
    + intros [H|H]; done.
    + intros k Hin Hne. simpl. apply In_upd. exists k. split; [done|]. unfold id_is. destruct (j_ID k =? j_ID r) eqn:Ek; [|done].
      breflect. done.
    + simpl. now apply upd_map_invariant.
  - assert (forall m, (let* job := insertJob j in ret (mkJobInsertResult (live_view job) false)) x d = Ok m ->
      ir_Duplicate (fst m) = false /\ exists seq id exp, db_jobs (snd m) = (db_jobs d ++ [new_row seq id (w_now x) exp j])%list
           /\ ir_Job (fst m) = live_view (new_row seq id (w_now x) exp j)) as Hins.
    { intros [m dm] Em. apply bind_Ok in Em as (r & d1 & (seq & id & exp & -> & Hd & _)%insertJob_row & Em). inv_w. simpl. eauto 8. }
    destruct (i_uniqueFinished j) as [|s ss] eqn:Ef; [destruct (Hins _ E) as [Hd H]; cbn [fst snd] in *; rewrite Hd; exact H|].
    apply bind_Ok in E as (found & d1 & Efd & E). unfold finishedDuplicate, get in Efd. injection Efd as <- <-.
    destruct (hd_error _) as [h|] eqn:Eh; [|destruct (Hins _ E) as [Hd H]; cbn [fst snd] in *; rewrite Hd; exact H].
    apply bind_Ok in E as (u & d1 & Ec & E). inv_w. simpl.
    exists h. split; [done|]. assert (In h (order_by later_finished (sel (fun h => unique_is (i_kind j) (i_uniqueKey j) (h_job h)
                   && existsb (state_eqb (j_State (h_job h))) (i_uniqueFinished j)) (db_history d)))) as Hin.
    { destruct (order_by _ _); [done|]. injection Eh as ->. now left. }
    rewrite In_order_by in Hin. apply In_sel in Hin as [Hin [Hu (s' & Hs & He)%existsb_exists]%andb_true_iff].
    apply state_eqb_eq in He. rewrite Ef in Hs. subst s'. done.
Qed.

(** ** Batches *)

Lemma insertCallback_adds s b n x d u d' : insertCallback s b n x d = Ok (u, d') ->
  exists j, db_jobs d' = (db_jobs d ++ [j])%list /\ db_batches d' = db_batches d.
Proof.
  unfold insertCallback. intros E. apply bind_Ok in E as (cb & d1 & E1 & E).
  assert (d1 = d) as -> by (destruct (decode_callback s); simpl in E1; now inv_w). cbv zeta in E.
  apply bind_Ok in E as (meta & d1 & E2 & E). assert (d1 = d) as -> by (repeat case_match; now inv_w).
  apply bind_Ok in E as (r & d1 & (seq & id & exp & _ & Hj & Hb)%insertJob_row & E).
  pose proof (notify_same _ _ _ _ _ _ E) as (Ej & _). assert (respects (same_of db_batches) (notify ChannelInsert
    [if String.eqb (cb_Queue cb) "" then "default" else cb_Queue cb])) as Hn by (unfold notify; frame).
  apply Hn in E. unfold same_of in E. exists r. split; congruence.
Qed.

Definition callbacks (b : BatchRow) (failed : Z) : list string :=
  List.flat_map (fun o => match o with Some s => [s] | None => [] end)
    [if failed >? 0 then b_on_failure b else b_on_success b; b_on_complete b].

Lemma iter_callbacks cbs id n : forall x d u d',
  iterM (fun cb => match cb with Some s => insertCallback s id n | None => ret tt end) cbs x d = Ok (u, d') ->
  (exists new, db_jobs d' = (db_jobs d ++ new)%list
     /\ List.length new = List.length (List.flat_map (fun o : option string => match o with Some s => [s] | None => [] end) cbs))
  /\ db_batches d' = db_batches d.
Proof.
  induction cbs as [|c cbs IH]; simpl; intros x d u d' E; [inv_w; split; [exists []; now rewrite app_nil_r|done]|].
  apply bind_Ok in E as (u1 & d1 & E1 & E). destruct (IH _ _ _ _ E) as [(new & Hn & Hl) Hb]. destruct c as [s|].
  - apply insertCallback_adds in E1 as (j & Hj & Hb1). split; [|congruence]. exists (j :: new).
    split; [rewrite Hn, Hj, <- app_assoc; done|]. simpl. now rewrite Hl.
  - inv_w. split; [eauto|done].
Qed.

(** A batch completes once.  Counting finished jobs down in a completed
    batch, or one that does not exist, changes nothing.  In an open batch it
    moves the counts, and exactly when nothing is left pending it marks the
    batch completed and inserts its callbacks: the one of the outcome and the
    one that runs either way. *)
Theorem countBatch_once id n k x d u d' : countBatch id n k x d = Ok (u, d') ->
  match one (batch_is id) (db_batches d) with
  | None => d' = d
  | Some b =>
      if not_null (b_completed_at b) then d' = d
      else exists b', one (batch_is id) (db_batches d') = Some b' /\ b_failed b' = k + b_failed b
           /\ if b_pending b - n >? 0
              then b_pending b' = b_pending b - n /\ b_completed_at b' = None /\ db_jobs d' = db_jobs d
              else b_pending b' = 0 /\ b_completed_at b' = Some (w_now x)
                   /\ exists new, db_jobs d' = (db_jobs d ++ new)%list
                      /\ List.length new = List.length (callbacks b (k + b_failed b))
  end.
Proof.
  unfold countBatch. intros E. unfold bind at 1, get at 1 in E. destruct (one _ _) as [b|] eqn:Eb; [|now inv_w].
  destruct (not_null (b_completed_at b)) eqn:Ec; [now inv_w|]. cbv zeta in E.
  assert (forall f, (forall a, batch_is id (f a) = batch_is id a) -> one (batch_is id) (upd (batch_is id) f (db_batches d)) = Some (f b)) as Hup.
  { intros f Hf. revert Eb. unfold one, upd. induction (db_batches d) as [|a t IH]; simpl; [done|].
    destruct (batch_is id a) eqn:Ea; rewrite ?Hf, ?Ea; [now intros [= ->]|exact IH]. }
  destruct (b_pending b - n >? 0) eqn:Ep.
  - inv_w. eexists. split; [simpl; apply Hup; done|]. simpl. split; [done|]. split_and!; try done. now destruct (b_completed_at b).
  - apply bind_Ok in E as (now & d1 & En & E). unfold us in En. injection En as <- <-.
    apply bind_Ok in E as (u1 & d1 & Em & E). unfold modify in Em. injection Em as <- <-.
    apply bind_Ok in E as (u2 & d2 & Er & E). apply iter_callbacks in E as [(new & Hn & Hl) Hb].
    assert (db_jobs d2 = db_jobs d /\ db_batches d2 = upd (batch_is id) (fun b0 => b0 <| b_pending := 0 |> <| b_failed := k + b_failed b |>
       <| b_completed_at := Some (w_now x) |>) (db_batches d)) as [Hj2 Hb2] by (destruct (b_reads b); inv_w; done).
    eexists. split; [rewrite Hb, Hb2; apply Hup; done|]. simpl. split; [done|]. split_and!; try done.
    exists new. rewrite <- Hj2. split; [done|]. exact Hl.
Qed.
