(* ===== verification/ListingSpec.v ===== *)
(** * Reads: theorems on Listing.v

    A listing's two limited arms give what the whole query over both tables
    would, and its pages give every job that matches once and in order. *)

From Stdlib Require Import List ZArith Lia Bool String Permutation Sorted.
From stdpp Require Import base tactics list.
From S2P Require Import Prelude Sql Types Store Insert Evolution Engine FinalizeSpec Listing.
Import ListNotations.
Local Open Scope Z_scope.
Local Open Scope list_scope.

(** ** ORDER BY and LIMIT over a union *)

Section Merge.
Context {A : Type} (leb : A -> A -> bool).
Hypothesis leb_total : forall x y, leb x y = true \/ leb y x = true.
Hypothesis leb_trans : forall x y z, leb x y = true -> leb y z = true -> leb x z = true.
Notation le := (fun x y => leb x y = true).

Fixpoint merge (a b : list A) : list A :=
  let fix aux (b : list A) : list A :=
    match a, b with
    | [], _ => b
    | _, [] => a
    | x :: a', y :: b' => if leb x y then x :: merge a' b else y :: aux b'
    end in
  aux b.

Lemma merge_nil_l b : merge [] b = b.
Proof. now destruct b. Qed.

Lemma merge_nil a : merge a [] = a.
Proof. now destruct a. Qed.

Lemma merge_cons x a y b : merge (x :: a) (y :: b) = if leb x y then x :: merge a (y :: b) else y :: merge (x :: a) b.
Proof. reflexivity. Qed.

Lemma not_leb x y : leb x y = false -> leb y x = true.
Proof. intros H. destruct (leb_total x y); congruence. Qed.

Lemma insert_by_cons x y l : insert_by leb x (y :: l) = if leb x y then x :: y :: l else y :: insert_by leb x l.
Proof. reflexivity. Qed.

Lemma insert_by_merge x a : forall b, insert_by leb x (merge a b) = merge (insert_by leb x a) b.
Proof.
  induction a as [|y a IHa]; intros b.
  - rewrite merge_nil_l. change (insert_by leb x []) with [x].
    induction b as [|z b IHb]; [reflexivity|]. rewrite insert_by_cons, merge_cons, merge_nil_l, IHb. reflexivity.
  - induction b as [|z b IHb]; [now rewrite !merge_nil|].
    rewrite merge_cons, insert_by_cons in *. destruct (leb x y) eqn:Exy, (leb y z) eqn:Eyz; rewrite insert_by_cons, ?merge_cons, ?Exy, ?Eyz.
    + now rewrite (leb_trans x y z Exy Eyz).
    + destruct (leb x z); [reflexivity|]. now rewrite IHb.
    + now rewrite IHa.
    + destruct (leb x z) eqn:Exz; [|now rewrite IHb].
      rewrite (leb_trans y x z (not_leb _ _ Exy) Exz) in Eyz. discriminate.
Qed.

Lemma order_by_app a b : order_by leb (a ++ b) = merge (order_by leb a) (order_by leb b).
Proof. induction a as [|x a IH]; [now rewrite merge_nil_l|]. simpl. rewrite IH. apply insert_by_merge. Qed.

Lemma firstn_sorted n l : StronglySorted le l -> StronglySorted le (List.firstn n l).
Proof. intros H. rewrite <- (List.firstn_skipn n l) in H. now apply StronglySorted_app_l in H. Qed.

Lemma firstn_merge n : forall a b m k, (n <= m)%nat -> (n <= k)%nat ->
  List.firstn n (merge (List.firstn m a) (List.firstn k b)) = List.firstn n (merge a b).
Proof.
  induction n as [|n IH]; intros a b m k Hm Hk; [reflexivity|]. destruct m as [|m]; [lia|]. destruct k as [|k]; [lia|].
  destruct a as [|x a]; [change (List.firstn (S m) []) with (@nil A); rewrite !merge_nil_l, List.firstn_firstn; f_equal; lia|].
  destruct b as [|y b]; [change (List.firstn (S k) []) with (@nil A); rewrite !merge_nil, List.firstn_firstn; f_equal; lia|].
  simpl (List.firstn (S m) (x :: a)). simpl (List.firstn (S k) (y :: b)). rewrite !merge_cons. destruct (leb x y); simpl; f_equal.
  - apply (IH a (y :: b) m (S k)); lia.
  - apply (IH (x :: a) b (S m) k); lia.
Qed.

(** The first rows of a union are the first rows of its arms' first rows. *)
Lemma limit_union n a b : 0 <= n ->
  limit n (order_by leb (limit n (order_by leb a) ++ limit n (order_by leb b))) = limit n (order_by leb (a ++ b)).
Proof.
  intros Hn. unfold limit. destruct (Z.ltb_spec n 0); [lia|]. rewrite !order_by_app.
  rewrite !(order_by_id leb (List.firstn _ _)) by (apply firstn_sorted, order_by_sorted; auto). apply firstn_merge; lia.
Qed.

Lemma sel_insert_by q x l : StronglySorted le l ->
  List.filter q (insert_by leb x l) = if q x then insert_by leb x (List.filter q l) else List.filter q l.
Proof.
  induction 1 as [|y l Hs IH Hy]; simpl; [now destruct (q x)|]. destruct (leb x y) eqn:E.
  - simpl. destruct (q x) eqn:Ex; [|reflexivity]. destruct (q y); [simpl; now rewrite E|].
    assert (Hx : Forall (le x) (List.filter q l)).
    { rewrite List.Forall_forall in *. intros z [Hz _]%filter_In. eauto. }
    destruct (List.filter q l) as [|z l']; [reflexivity|]. simpl. inversion Hx as [|? ? Hz _]; subst. now rewrite Hz.
  - simpl. rewrite IH. destruct (q y), (q x); try reflexivity. simpl. now rewrite E.
Qed.

Lemma order_by_filter q l : order_by leb (List.filter q l) = List.filter q (order_by leb l).
Proof.
  induction l as [|x l IH]; [reflexivity|]. simpl. rewrite sel_insert_by by (apply order_by_sorted; auto).
  destruct (q x); simpl; now rewrite IH.
Qed.
End Merge.

(** ** Listings *)

(** Every job there is, and those a listing's filters match, in its order. *)
Definition all_views (d : DB) : list JobView := List.map live_view (db_jobs d) ++ List.map history_view (db_history d).
Definition matches (p : JobListParams) (v : JobView) : bool := list_match p (v_job v).
Definition matching (p : JobListParams) (d : DB) : list JobView := order_by (list_leb p) (sel (matches p) (all_views d)).
Definition page_size (p : JobListParams) : Z := Z.max (lp_Limit p) 1.

Section Order.
Context (p : JobListParams).

Lemma list_leb_total x y : list_leb p x y = true \/ list_leb p y x = true.
Proof. unfold list_leb. destruct (lp_NewestFirst p); rewrite !Z.leb_le; lia. Qed.

Lemma list_leb_trans x y z : list_leb p x y = true -> list_leb p y z = true -> list_leb p x z = true.
Proof. unfold list_leb. destruct (lp_NewestFirst p); rewrite !Z.leb_le; lia. Qed.
End Order.

Lemma in_states p j : list_match p j = true -> in_list state_eqb (lp_States p) (j_State j) = true.
Proof. unfold list_match. intros H. breflect. done. Qed.

(** An arm left out has no row the filters match. *)
Lemma omitted_arm p (q : JobState -> bool) rows : (forall v, In v rows -> q (j_State (v_job v)) = true) ->
  (if match lp_States p with [] => true | l => existsb q l end then arm p rows else []) = arm p rows.
Proof.
  intros H. destruct (lp_States p) as [|s ss] eqn:Es; [done|]. destruct (existsb q (s :: ss)) eqn:Eq; [done|].
  unfold arm, limit. destruct (sel (listed p) rows) as [|v l] eqn:E; [rewrite List.firstn_nil; now destruct (_ <? 0)|]. exfalso.
  assert (Hv : In v rows /\ listed p v = true) by (apply In_sel; rewrite E; now left). destruct Hv as [Hi Hl].
  unfold listed in Hl. apply andb_true_iff in Hl as [Hl _]. apply in_states in Hl. unfold in_list in Hl. rewrite Es in Hl.
  apply existsb_exists in Hl as (s' & Hs' & He). apply state_eqb_eq in He. specialize (H v Hi). rewrite He in H.
  assert (existsb q (s :: ss) = true) by (apply existsb_exists; eauto). congruence.
Qed.

Lemma both_arms p d : wf d -> check_list p = Ok tt ->
  JobList p d = Ok (limit (page_size p) (order_by (list_leb p) (arm p (List.map live_view (db_jobs d)) ++ arm p (List.map history_view (db_history d))))).
Proof.
  intros Hw Hc. unfold JobList, lists_live, lists_history. rewrite Hc. rewrite !omitted_arm; [reflexivity| |].
  - intros v (h & <- & Hh)%in_map_iff. destruct Hw as [_ _ Hw]. rewrite List.Forall_forall in Hw.
    specialize (Hw h Hh). unfold history_ok in Hw. now breflect.
  - intros v (j & <- & Hj)%in_map_iff. pose proof (wf_row_ok d j Hw Hj) as Hr. unfold row_ok in Hr. breflect. now apply negb_true_iff.
Qed.

Lemma JobList_union p d : wf d -> check_list p = Ok tt ->
  JobList p d = Ok (limit (page_size p) (order_by (list_leb p) (sel (listed p) (all_views d)))).
Proof.
  intros Hw Hc. rewrite both_arms by done. unfold arm, page_size.
  rewrite limit_union; [|apply list_leb_total|apply list_leb_trans|lia].
  unfold all_views, sel. now rewrite List.filter_app.
Qed.

(** C35:
    JobList is equivalent to the query it stands for: on a well-formed database, a listing whose filters are
    accepted returns, of all the jobs, live and finished, that its filters match and that are past its cursor,
    the first Limit (at least one) in its order; neither the arm left out for the states asked for nor the limit
    of each arm loses a job. *)
Theorem JobList_reference p d : wf d -> check_list p = Ok tt ->
  JobList p d = Ok (limit (Z.max (lp_Limit p) 1) (order_by (list_leb p) (sel (listed p) (all_views d)))).
Proof.
  apply JobList_union.
Qed.

(** ** Pages *)

Section Pages.
Context (d : DB) (Hw : wf d).

Definition next_page (p : JobListParams) (last : JobView) : JobListParams := p <| lp_After := j_ID (v_job last) |>.

(** The pages of a listing, each read after the last job of the page before, until one is empty. *)
Fixpoint pages (n : nat) (p : JobListParams) : result (list JobView) :=
  match n with
  | O => Ok []
  | S n =>
      match JobList p d with
      | Err e => Err e
      | Ok [] => Ok []
      | Ok (v :: l) => match pages n (next_page p (List.last l v)) with Err e => Err e | Ok r => Ok ((v :: l) ++ r) end
      end
  end.

Lemma listed_matching p : order_by (list_leb p) (sel (listed p) (all_views d)) = sel (fun v => after_cursor p (v_job v)) (matching p d).
Proof.
  unfold matching, sel. rewrite <- (order_by_filter (list_leb p) (list_leb_total p) (list_leb_trans p)). f_equal. induction (all_views d) as [|v l IH]; [done|]. simpl.
  unfold listed at 1. fold (matches p v). destruct (matches p v); simpl; now rewrite IH.
Qed.

Definition strictly (p : JobListParams) (a b : JobView) : Prop :=
  if lp_NewestFirst p then j_ID (v_job b) < j_ID (v_job a) else j_ID (v_job a) < j_ID (v_job b).

Lemma matching_strict p : List.NoDup (List.map (fun v => j_ID (v_job v)) (all_views d)) -> StronglySorted (strictly p) (matching p d).
Proof.
  intros Hn. assert (Hs : StronglySorted (fun a b => list_leb p a b = true) (matching p d)) by apply (order_by_sorted _ (list_leb_total p) (list_leb_trans p)).
  assert (Hm : List.NoDup (List.map (fun v => j_ID (v_job v)) (matching p d))).
  { unfold matching. rewrite order_by_perm. now apply NoDup_map_sel. }
  induction Hs as [|v l Hs IH Hv]; [constructor|]. simpl in Hm. inversion Hm as [|? ? Hin Hm']; subst. constructor; [auto|].
  rewrite List.Forall_forall in *. intros u Hu. specialize (Hv u Hu). unfold list_leb, strictly in *.
  assert (j_ID (v_job u) <> j_ID (v_job v)) by (intros E; apply Hin; rewrite <- E; now apply (in_map (fun v => j_ID (v_job v)))).
  destruct (lp_NewestFirst p); apply Z.leb_le in Hv; lia.
Qed.

(** The jobs past a job of the listing are those after it. *)
Lemma past_job p pre x rest : matching p d = pre ++ x :: rest -> StronglySorted (strictly p) (matching p d) -> 0 < j_ID (v_job x) ->
  sel (fun v => after_cursor (next_page p x) (v_job v)) (matching p d) = rest.
Proof.
  intros E Hs Hx. rewrite E in *. destruct (StronglySorted_app_l _ _ _ Hs) as [_ Hpre].
  apply StronglySorted_app_r in Hs. inversion Hs as [|? ? _ Hrest]; subst. rewrite List.Forall_forall in Hrest.
  unfold sel. change (x :: rest) with ([x] ++ rest). rewrite app_assoc, List.filter_app, filter_none, filter_all; [done| |];
    intros v Hv; unfold after_cursor; simpl.
  - specialize (Hrest v Hv). unfold strictly in Hrest. destruct (lp_NewestFirst p); [|now apply Z.ltb_lt].
    apply orb_true_iff. right. now apply Z.ltb_lt.
  - assert (Hle : v = x \/ strictly p v x).
    { apply in_app_iff in Hv as [Hv|[<-|[]]]; [right; apply Hpre; [done|now left]|now left]. }
    destruct Hle as [->|Hlt]; [|unfold strictly in Hlt]; destruct (lp_NewestFirst p); rewrite ?orb_false_iff, ?Z.ltb_ge, ?Z.eqb_neq; lia.
Qed.

Lemma JobList_page p : check_list p = Ok tt ->
  JobList p d = Ok (limit (page_size p) (sel (fun v => after_cursor p (v_job v)) (matching p d))).
Proof.
  intros Hc. now rewrite JobList_union, listed_matching.
Qed.

(** Pages read once the first of the listing were. *)
Lemma pages_rest n : forall p pre rest, check_list p = Ok tt -> StronglySorted (strictly p) (matching p d) ->
  (forall v, In v (matching p d) -> 0 < j_ID (v_job v)) ->
  matching p d = pre ++ rest -> sel (fun v => after_cursor p (v_job v)) (matching p d) = rest ->
  (List.length rest <= n)%nat -> pages n p = Ok rest.
Proof.
  induction n as [|n IH]; intros p pre rest Hc Hs Hpos Em Er Hn; [destruct rest; [done|simpl in Hn; lia]|].
  simpl. rewrite JobList_page, Er by done. unfold limit, page_size. destruct (Z.ltb_spec (Z.max (lp_Limit p) 1) 0); [lia|].
  destruct (Z.to_nat (Z.max (lp_Limit p) 1)) as [|k] eqn:Ek; [lia|]. destruct rest as [|v rest]; [done|]. simpl.
  destruct (exists_last (l := v :: List.firstn k rest)) as (page & x & Ex); [done|].
  assert (Hlast : List.last (List.firstn k rest) v = x).
  { transitivity (List.last (v :: List.firstn k rest) v); [now destruct (List.firstn k rest)|]. rewrite Ex. apply last_last. }
  assert (Em' : matching p d = (pre ++ page) ++ x :: List.skipn k rest).
  { rewrite Em, <- app_assoc. f_equal. rewrite <- (List.firstn_skipn k rest) at 1. rewrite app_comm_cons, Ex, <- app_assoc. done. }
  rewrite Hlast, (IH (next_page p x) ((pre ++ page) ++ [x]) (List.skipn k rest)); [|exact Hc|exact Hs|exact Hpos| | |].
  - simpl. now rewrite List.firstn_skipn.
  - change (matching (next_page p x) d) with (matching p d). rewrite Em', <- !app_assoc. reflexivity.
  - change (matching (next_page p x) d) with (matching p d). eapply past_job; [exact Em'|done|].
    apply Hpos. rewrite Em'. apply in_elt.
  - simpl in Hn. rewrite List.length_skipn. lia.
Qed.
End Pages.

(** C34:
    Reading a listing page by page, each page after the last job of the page before, gives every job its filters
    match exactly once and in the listing's order, whatever the limit and the direction, and ends within one
    page per job. *)
Theorem JobList_pages p d n : wf d -> check_list p = Ok tt -> lp_After p = 0 ->
  List.NoDup (List.map (fun v => j_ID (v_job v)) (all_views d)) -> (forall v, In v (all_views d) -> 0 < j_ID (v_job v)) ->
  (List.length (matching p d) <= n)%nat -> pages d n p = Ok (matching p d).
Proof.
  intros Hw Hc Ha Hn Hpos Hl.
  assert (Hpos' : forall v, In v (matching p d) -> 0 < j_ID (v_job v)).
  { intros v Hv. apply Hpos. unfold matching in Hv. apply In_order_by, In_sel in Hv. tauto. }
  apply pages_rest with (pre := []); auto using matching_strict. apply filter_all. intros v Hv. specialize (Hpos' v Hv).
  unfold after_cursor. rewrite Ha. destruct (lp_NewestFirst p); [done|]. now apply Z.ltb_lt.
Qed.
