(* ===== verification/CodecSpec.v ===== *)
(** * The encoded columns: round trips

    What a workflow's row stores of its steps and edges is what WorkflowGet
    reads back, and a job's tags are read as they were given. *)

From Stdlib Require Import List ZArith Lia Bool String Ascii Sorted.
From stdpp Require Import base tactics list.
From S2P Require Import Prelude Sql Text Json JsonSpec Types JobTags JobId Store Codec Insert Workflow Listing.
Import ListNotations.
Local Open Scope string_scope.
Local Open Scope Z_scope.
Local Open Scope list_scope.

(** ** Texts *)

Lemma forallb_str_app p a b : forallb_str p (a ++ b)%string = forallb_str p a && forallb_str p b.
Proof. induction a as [|c a IH]; [done|]. rewrite app_cons_str. simpl. now rewrite IH, andb_assoc. Qed.

Lemma forallb_str_take p n s : forallb_str p s = true -> forallb_str p (take n s) = true.
Proof.
  revert s. induction n as [|n IH]; intros [|c s] H; try done. simpl in *. apply andb_true_iff in H as [-> H]. now apply IH.
Qed.

Lemma forallb_str_drop p n s : forallb_str p s = true -> forallb_str p (drop n s) = true.
Proof.
  revert s. induction n as [|n IH]; intros [|c s] H; try done. simpl in *. apply andb_true_iff in H as [_ H]. now apply IH.
Qed.

Lemma forallb_str_impl (p q : ascii -> bool) s : (forall c, p c = true -> q c = true) -> forallb_str p s = true -> forallb_str q s = true.
Proof. intros H. induction s as [|c s IH]; [done|]. simpl. intros [Hc Hs]%andb_true_iff. now rewrite H, IH. Qed.

Definition is_ascii (c : ascii) : bool := code c <? 128.

Lemma hex_encode_ascii n : forall z, forallb_str is_ascii (hex_encode n z) = true.
Proof.
  induction n as [|n IH]; intros z; [done|]. cbn [hex_encode]. rewrite forallb_str_app, IH. simpl. rewrite andb_true_r.
  destruct (hex_digit_spec (z mod 16)) as [H _]; [apply Z.mod_pos_bound; lia|]. unfold is_hex in H. unfold is_ascii. apply Z.ltb_lt.
  rewrite !orb_true_iff, !in_range_spec in H. lia.
Qed.

Lemma JobID_String_utf8 id : utf8 (JobID_String id).
Proof.
  apply utf8_ascii. unfold JobID_String. pose proof (hex_encode_ascii 32 id) as H. fold is_ascii.
  rewrite !forallb_str_app, !forallb_str_take by (try apply forallb_str_drop; exact H). reflexivity.
Qed.

Lemma itoa_utf8 z : 0 < z -> utf8 (itoa z).
Proof.
  destruct z as [|p|p]; [lia| |lia]. intros _. rewrite itoa_pos. apply utf8_ascii.
  apply (forallb_str_impl is_digit); [|apply uint_digits]. intros c Hc. unfold is_digit in Hc. apply in_range_spec in Hc. apply Z.ltb_lt. lia.
Qed.

Lemma canonical_jstring s : utf8 s -> canonical (jstring s).
Proof. intros Hs. constructor. now apply literal_quote. Qed.

Lemma as_text_jstring s : utf8 s -> as_text (jstring s) = Some s.
Proof. intros Hs. unfold as_text, jstring. now rewrite unquote_quote. Qed.

Lemma all_some_map {A B} (f : A -> option B) (g : A -> B) l : (forall x, In x l -> f x = Some (g x)) -> all_some (List.map f l) = Some (List.map g l).
Proof. induction l as [|x l IH]; intros H; [done|]. simpl. rewrite H, IH by auto using in_eq, in_cons. done. Qed.

(** ** Tags *)

(** Tags as CheckOne accepts them. *)
Definition tag_ok (t : string) : Prop := t <> "" /\ utf8 t.

Lemma tag_of_jstring t : tag_ok t -> tag_of (jstring t) = [t].
Proof. intros [Hne Hu]. unfold tag_of, jstring. rewrite unquote_quote by done. now apply String.eqb_neq in Hne as ->. Qed.

Lemma flat_map_tags tags : Forall tag_ok tags -> List.flat_map tag_of (List.map jstring tags) = tags.
Proof. induction 1 as [|t tags Ht _ IH]; [done|]. cbn [List.map List.flat_map]. now rewrite tag_of_jstring, IH. Qed.

Lemma array_of_print l : Forall canonical l -> array_or_nil (json_print (JArr l)) = l.
Proof. intros Hl. unfold array_or_nil. now rewrite json_parse_print by now constructor. Qed.

Lemma DecodeTags_tagsJSON tags text : Forall tag_ok tags -> tagsJSON tags = Some text -> DecodeTags text = Distinct tags.
Proof.
  intros Ht. unfold tagsJSON. destruct tags as [|t tags]; [done|]. intros E.
  assert (text = json_print (JArr (List.map jstring (t :: tags)))) as -> by congruence. clear E. unfold DecodeTags.
  assert (Hc : Forall canonical (List.map jstring (t :: tags))).
  { apply List.Forall_map. revert Ht. apply List.Forall_impl. intros s [_ Hs]. now apply canonical_jstring. }
  change (String.eqb (json_print (JArr (List.map jstring (t :: tags)))) "") with false. cbv iota.
  now rewrite array_of_print, flat_map_tags.
Qed.

(** ** Edges *)

Definition ids_ok (ids : list JobID) : Prop := Forall (fun id => 0 <= id < 2 ^ 128) ids.
Definition edge_of (ids : list JobID) (d : JobDependency) : JobEdge := mkJobEdge (id_at ids (jd_Job d)) (id_at ids (jd_DependsOn d)) (jd_AnyOf d).

Lemma id_at_ok ids i : ids_ok ids -> 0 <= id_at ids i < 2 ^ 128.
Proof.
  intros H. unfold id_at. destruct (nth_in_or_default (Z.to_nat i) ids 0) as [Hin| ->]; [|lia].
  unfold ids_ok in H. rewrite List.Forall_forall in H. now apply H.
Qed.

Lemma edge_texts_utf8 ids d : group_ok d = true -> Forall utf8 (edge_texts ids d).
Proof.
  intros Hg. unfold edge_texts, group_ok in *. apply List.Forall_app. split; [repeat constructor; apply JobID_String_utf8|].
  destruct (Z.eqb_spec (jd_AnyOf d) 0); simpl; constructor; [|constructor]. apply itoa_utf8.
  apply negb_true_iff, orb_false_iff in Hg as [Hg _]. apply Z.ltb_ge in Hg. lia.
Qed.

Lemma decode_edge_texts ids d : ids_ok ids -> group_ok d = true -> decode_edge (edge_texts ids d) = Ok (edge_of ids d).
Proof.
  intros Hi Hg. unfold edge_texts, decode_edge, edge_of. cbn [app].
  rewrite (proj2 (ParseJobID_text _ (id_at_ok ids (jd_Job d) Hi))), (proj2 (ParseJobID_text _ (id_at_ok ids (jd_DependsOn d) Hi))).
  destruct (Z.eqb_spec (jd_AnyOf d) 0) as [->|Hne]; cbn [negb]; [reflexivity|]. unfold group_ok in Hg.
  apply negb_true_iff, orb_false_iff in Hg as [Hg Hg']. apply Z.ltb_ge in Hg. rewrite Z.gtb_ltb in Hg'. apply Z.ltb_ge in Hg'.
  rewrite atoi_itoa by lia. reflexivity.
Qed.

Lemma decode_edges_map ids deps : ids_ok ids -> Forall (fun d => group_ok d = true) deps ->
  decode_edges (List.map (edge_texts ids) deps) = Ok (List.map (edge_of ids) deps).
Proof. intros Hi. induction 1 as [|d deps Hd _ IH]; [done|]. cbn [List.map decode_edges]. now rewrite decode_edge_texts, IH. Qed.

Lemma DecodeEdges_EdgesJSON ids deps : ids_ok ids -> Forall (fun d => group_ok d = true) deps ->
  DecodeEdges (EdgesJSON deps ids) = Ok (List.map (edge_of ids) deps).
Proof.
  intros Hi Hd. unfold DecodeEdges, EdgesJSON. rewrite List.Forall_forall in Hd.
  rewrite json_parse_print; cycle 1.
  { constructor. apply List.Forall_map, List.Forall_forall. intros d Hin. constructor. apply List.Forall_map.
    pose proof (edge_texts_utf8 ids d (Hd d Hin)) as Hu. revert Hu. apply List.Forall_impl. apply canonical_jstring. }
  cbn [as_array]. rewrite List.map_map. rewrite (all_some_map _ (edge_texts ids)).
  - apply decode_edges_map; [done|]. now apply List.Forall_forall.
  - intros d Hin. unfold as_texts. cbn [as_array]. rewrite List.map_map. rewrite (all_some_map _ id), List.map_id; [done|].
    intros s Hs. apply as_text_jstring. pose proof (edge_texts_utf8 ids d (Hd d Hin)) as Hu. rewrite List.Forall_forall in Hu. auto.
Qed.

(** ** Maps by key *)

Definition slt (a b : string) : Prop := String.compare a b = Lt.

Lemma compare_refl a : String.compare a a = Eq.
Proof. induction a as [|c a IH]; [done|]. simpl. unfold Ascii.compare. now rewrite N.compare_refl. Qed.

Lemma slt_trans a b c : slt a b -> slt b c -> slt a c.
Proof.
  unfold slt. revert b c. induction a as [|x a IH]; intros [|y b] [|z c]; simpl; try done. unfold Ascii.compare.
  destruct (N.compare_spec (N_of_ascii x) (N_of_ascii y)) as [E1|L1|G1]; [| |done];
  destruct (N.compare_spec (N_of_ascii y) (N_of_ascii z)) as [E2|L2|G2]; try done; intros H1 H2.
  - rewrite E1, E2, N.compare_refl. eauto.
  - rewrite E1. now apply N.compare_lt_iff in L2 as ->.
  - rewrite <- E2. now apply N.compare_lt_iff in L1 as ->.
  - assert (N_of_ascii x < N_of_ascii z)%N as ->%N.compare_lt_iff by lia. done.
Qed.

Lemma slt_irrefl a : ~ slt a a.
Proof. unfold slt. now rewrite compare_refl. Qed.

Definition by_key {A} (m : list (string * A)) : Prop := StronglySorted slt (List.map fst m).

Lemma Forall_smap_set {A} (P : string -> Prop) k (v : A) m : P k -> Forall P (List.map fst m) -> Forall P (List.map fst (smap_set k v m)).
Proof.
  intros Hk. induction m as [|[k' v'] m IH]; simpl; intros Hm; [auto|]. inversion Hm; subst.
  destruct (String.compare k k'); simpl; auto.
Qed.

Lemma smap_set_sorted {A} k (v : A) m : by_key m -> by_key (smap_set k v m).
Proof.
  unfold by_key. induction m as [|[k' v'] m IH]; simpl; intros Hm; [repeat constructor|]. inversion Hm as [|? ? Hs Hf]; subst.
  destruct (String.compare k k') eqn:E; simpl.
  - apply String.compare_eq_iff in E as ->. now constructor.
  - constructor; [now constructor|]. constructor; [done|]. revert Hf. apply List.Forall_impl. intros z. now apply slt_trans.
  - constructor; [auto|]. apply Forall_smap_set; [|done]. unfold slt. now rewrite String.compare_antisym, E.
Qed.

Lemma In_smap_set {A} k (v : A) m k0 v0 : by_key m ->
  In (k0, v0) (smap_set k v m) <-> (k0 = k /\ v0 = v) \/ (k0 <> k /\ In (k0, v0) m).
Proof.
  unfold by_key. induction m as [|[k' v'] m IH]; simpl; intros Hm.
  - split; [intros [[= -> ->]|[]]; auto|]. intros [[-> ->]|[_ []]]. now left.
  - inversion Hm as [|? ? Hs Hf]; subst. rewrite List.Forall_forall in Hf.
    assert (Hnot : forall z, slt z k' \/ z = k' -> ~ In (z, v0) m).
    { intros z Hz Hin. apply (in_map fst) in Hin. apply Hf in Hin. destruct Hz as [Hz| ->]; [|now apply slt_irrefl in Hin].
      apply (slt_irrefl z), (slt_trans _ k'); done. }
    assert (Hirr : k0 <> k \/ k0 = k) by (destruct (String.string_dec k0 k); auto).
    destruct (String.compare k k') eqn:E; simpl.
    + apply String.compare_eq_iff in E as ->. split.
      * intros [[= -> ->]|Hin]; [auto|]. right. split; [|auto]. intros ->. now apply (Hnot k'); auto.
      * intros [[-> ->]|[Hne [[= -> ->]|Hin]]]; auto. done.
    + split.
      * intros [[= -> ->]|[[= -> ->]|Hin]]; [auto|right; split; [|auto]|right; split; [|auto]].
        -- intros ->. now apply slt_irrefl in E.
        -- intros ->. now apply (Hnot k); auto.
      * intros [[-> ->]|[Hne [[= -> ->]|Hin]]]; auto.
    + rewrite IH by done. split.
      * intros [[= -> ->]|[[-> ->]|[Hne Hin]]]; auto. right. split; [|auto]. intros ->. now rewrite compare_refl in E.
      * intros [[-> ->]|[Hne [[= -> ->]|Hin]]]; auto.
Qed.

Lemma smap_set_last {A} k (v : A) m : Forall (fun k' => slt k' k) (List.map fst m) -> smap_set k v m = m ++ [(k, v)].
Proof.
  induction m as [|[k' v'] m IH]; simpl; intros Hm; [done|]. inversion Hm as [|? ? Hk Hm']; subst.
  rewrite String.compare_antisym, Hk. simpl. now rewrite IH.
Qed.

(** Setting a sorted map's entries in order builds the map. *)
Lemma fold_smap_sorted {A} (l : list (string * A)) : forall acc, by_key (acc ++ l) ->
  List.fold_left (fun acc kv => smap_set (fst kv) (snd kv) acc) l acc = acc ++ l.
Proof.
  induction l as [|[k v] l IH]; intros acc H; simpl; [now rewrite app_nil_r|].
  assert (Ha : Forall (fun k' => slt k' k) (List.map fst acc)).
  { unfold by_key in H. rewrite List.map_app in H. destruct (StronglySorted_app_l _ _ _ H) as [_ Hc]. apply List.Forall_forall.
    intros z Hz. apply Hc; [done|now left]. }
  rewrite smap_set_last by done. rewrite IH, <- app_assoc; [done|]. now rewrite <- app_assoc.
Qed.

(** ** Steps *)

(** A job with the name of its step. *)
Definition named_step (ids : list JobID) (steps : list string) (id : JobID) (s : string) : Prop := In (id, s) (List.combine ids steps) /\ s <> "".

Lemma JobID_String_inj a b : 0 <= a < 2 ^ 128 -> 0 <= b < 2 ^ 128 -> JobID_String a = JobID_String b -> a = b.
Proof.
  intros Ha Hb E. apply ParseJobID_text in Ha as [_ Ha]. apply ParseJobID_text in Hb as [_ Hb]. rewrite E in Ha. congruence.
Qed.

Lemma named_step_id ids steps id s : named_step ids steps id s -> In id ids.
Proof. intros [H _]. now apply List.in_combine_l in H. Qed.

Definition step_entry (ids : list JobID) (steps : list string) (k : string) (v : json) : Prop :=
  exists id s, named_step ids steps id s /\ k = JobID_String id /\ v = jstring s.

Lemma step_entry_nil ids steps k v : List.combine ids steps = [] -> step_entry ids steps k v <-> False.
Proof. intros E. split; [|done]. intros (i & t & [Hin _] & _). now rewrite E in Hin. Qed.

Lemma step_entry_cons id ids s steps k v : step_entry (id :: ids) (s :: steps) k v <->
  (s <> "" /\ k = JobID_String id /\ v = jstring s) \/ step_entry ids steps k v.
Proof.
  unfold step_entry, named_step. cbn [List.combine]. split.
  - intros (i & t & [[[= <- <-]|Hin] Hne] & -> & ->); [now left|right; eauto 6].
  - intros [(Hne & -> & ->)|(i & t & [Hin Hne] & -> & ->)]; do 2 eexists; (split; [split; [|exact Hne]|done]); [now left|now right].
Qed.

Lemma steps_loop_spec steps : forall ids seen named out, ids_ok ids -> List.NoDup ids -> by_key named ->
  (forall k v, In (k, v) named -> forall id, In id ids -> k <> JobID_String id) ->
  steps_loop steps ids seen named = Ok out ->
  by_key out /\ forall k v, In (k, v) out <-> step_entry ids steps k v \/ In (k, v) named.
Proof.
  induction steps as [|s steps IH]; intros ids seen named out Hi Hn Hk Hd E.
  { cbn [steps_loop] in E. injection E as <-. split; [done|]. intros k v. rewrite step_entry_nil by now destruct ids. tauto. }
  destruct ids as [|id ids]. { cbn [steps_loop] in E. injection E as <-. split; [done|]. intros k v. rewrite step_entry_nil by done. tauto. }
  inversion Hi as [|? ? Hid Hi']; subst. inversion Hn as [|? ? Hin Hn']; subst. cbn [steps_loop] in E.
  setoid_rewrite step_entry_cons. destruct (String.eqb_spec s "") as [->|Hne].
  - destruct (IH ids seen named out) as [Hb Hs]; [assumption|assumption|assumption| |assumption|]. { intros k v Hkv i Hi0. exact (Hd k v Hkv i (in_cons _ _ _ Hi0)). }
    split; [done|]. intros k v. rewrite Hs. intuition.
  - destruct (mem_str s seen); [done|]. apply IH in E as [Hb Hs]; [|assumption|assumption|now apply smap_set_sorted|].
    + split; [done|]. intros k v. rewrite Hs, In_smap_set by done.
      assert (In (k, v) named -> k <> JobID_String id) by (intros H; exact (Hd k v H id (in_eq _ _))). tauto.
    + intros k v Hkv i Hi0. apply In_smap_set in Hkv as [[-> _]|[_ Hkv]]; [|exact (Hd k v Hkv i (in_cons _ _ _ Hi0))|done].
      intros E1. apply Hin. apply JobID_String_inj in E1 as ->; [done|done|]. unfold ids_ok in Hi'. rewrite List.Forall_forall in Hi'. now apply Hi'.
Qed.

Definition entry_text (v : json) : string := match v with JStr l => unquote l | _ => "" end.
Definition entry_ok (kv : string * json) : Prop := utf8 (fst kv) /\ exists s, utf8 s /\ snd kv = jstring s.

Lemma canonical_object m : Forall entry_ok m -> canonical (object_of m).
Proof.
  intros Hm. constructor. apply List.Forall_map. revert Hm. apply List.Forall_impl. intros [k v] [Hk (s & Hs & E)].
  cbn [fst snd] in *. split; [now apply literal_quote|]. rewrite E. now apply canonical_jstring.
Qed.

Lemma as_text_map_object m : Forall entry_ok m -> by_key m ->
  as_text_map (object_of m) = Some (List.map (fun kv => (fst kv, entry_text (snd kv))) m).
Proof.
  intros Hm Hk. unfold as_text_map, object_of. rewrite List.map_map.
  rewrite (all_some_map _ (fun kv => (fst kv, entry_text (snd kv)))).
  - rewrite fold_smap_sorted; [done|]. unfold by_key in *. cbn [app]. rewrite List.map_map. exact Hk.
  - intros [k v] Hin. rewrite List.Forall_forall in Hm. destruct (Hm _ Hin) as [Hu (s & Hs & E)]. cbn [fst snd] in *. rewrite E.
    rewrite unquote_quote, as_text_jstring by done. unfold entry_text, jstring. now rewrite unquote_quote.
Qed.

Lemma DecodeSteps_entries ids steps m : ids_ok ids -> Forall utf8 steps -> by_key m -> (forall k v, In (k, v) m <-> step_entry ids steps k v) ->
  forall id s, In (id, s) (DecodeSteps (json_print (object_of m))) <-> named_step ids steps id s.
Proof.
  intros Hi Hu Hb Hm id s. unfold ids_ok in Hi. rewrite List.Forall_forall in Hi, Hu.
  assert (Hst : forall i t, named_step ids steps i t -> 0 <= i < 2 ^ 128 /\ utf8 t).
  { intros i t [Hin _]. split; [apply Hi; now apply List.in_combine_l in Hin|apply Hu; now apply List.in_combine_r in Hin]. }
  assert (Hok : Forall entry_ok m).
  { apply List.Forall_forall. intros [k v] Hkv. apply Hm in Hkv as (i & t & Ht & -> & ->). split; [apply JobID_String_utf8|].
    exists t. split; [now apply Hst in Ht|done]. }
  unfold DecodeSteps. rewrite json_parse_print by now apply canonical_object. rewrite as_text_map_object by done.
  rewrite in_flat_map. setoid_rewrite in_map_iff. split.
  - intros ([k t] & ([k' v] & [= <- <-] & Hkv) & Hp). cbn [fst snd] in Hp. apply Hm in Hkv as (i & t & Ht & -> & ->).
    destruct (Hst i t Ht) as [Hr Hut]. rewrite (proj2 (ParseJobID_text i Hr)) in Hp. destruct Hp as [[= <- <-]|[]].
    unfold entry_text, jstring. now rewrite unquote_quote.
  - intros Ht. destruct (Hst id s Ht) as [Hr Hut]. exists (JobID_String id, s). split.
    + exists (JobID_String id, jstring s). unfold entry_text, jstring. cbn [fst snd]. rewrite unquote_quote by done. split; [done|].
      apply Hm. exists id, s. split; [exact Ht|split; reflexivity].
    + cbn [fst snd]. rewrite (proj2 (ParseJobID_text id Hr)). now left.
Qed.

Definition stored_steps (o : option string) : list (JobID * string) := match o with Some s => DecodeSteps s | None => [] end.

Lemma DecodeSteps_StepsJSON ids steps o : ids_ok ids -> List.NoDup ids -> Forall utf8 steps -> StepsJSON steps ids = Ok o ->
  forall id s, In (id, s) (stored_steps o) <-> named_step ids steps id s.
Proof.
  intros Hi Hn Hu E. unfold StepsJSON in E. destruct steps as [|s0 steps0] eqn:Es.
  { injection E as <-. intros id s. split; [done|]. intros [Hin _]. now destruct ids. }
  rewrite <- Es in *. clear Es. destruct (negb _); [done|]. destruct (steps_loop steps ids [] []) as [m|e] eqn:El; [|done].
  apply steps_loop_spec in El as [Hb Hm]; [|done|done|constructor|done].
  assert (Hm' : forall k v, In (k, v) m <-> step_entry ids steps k v) by (intros k v; rewrite Hm; simpl; tauto).
  destruct m as [|kv m]; intros id s.
  - assert (o = None) as -> by congruence. split; [done|]. intros Ht. destruct (proj2 (Hm' (JobID_String id) (jstring s))). exists id, s. split; [exact Ht|split; reflexivity].
  - assert (o = Some (json_print (object_of (kv :: m)))) as -> by congruence. cbn [stored_steps]. now apply DecodeSteps_entries.
Qed.
