(* ===== verification/WorkflowSpec.v ===== *)
(** * Workflows: what was inserted is what is read

    A workflow WorkflowInsert has inserted is returned by WorkflowGet with its
    jobs in order, the edges and the step names it was given. *)

From Stdlib Require Import List ZArith Lia Bool String Sorted.
From stdpp Require Import base tactics list.
From S2P Require Import Prelude Sql Text Json JsonSpec Types Store Logic JobTags JobId Codec Insert Workflow Listing ListingSpec CodecSpec.
Import ListNotations.
Local Open Scope string_scope.
Local Open Scope Z_scope.
Local Open Scope list_scope.

(** ** Minted IDs *)

Lemma lor_bound a b n : 0 <= n -> 0 <= a < 2 ^ n -> 0 <= b < 2 ^ n -> 0 <= Z.lor a b < 2 ^ n.
Proof.
  intros Hn Ha Hb. split; [now apply Z.lor_nonneg|]. pose proof (Z.shiftr_lor a b n) as H.
  rewrite !Z.shiftr_div_pow2, (Z.div_small a), (Z.div_small b) in H by lia. simpl in H.
  apply Z.div_small_iff in H; [lia|lia].
Qed.

Lemma newID_of_range now rnd : 0 < newID_of now rnd < 2 ^ 128.
Proof.
  unfold newID_of. pose proof (newID_lo rnd) as Hlo.
  assert (Hf : 0 <= now mod 1000 * 1000 * 4096 / 1000000 < 4096).
  { pose proof (Z.mod_pos_bound now 1000 eq_refl). split; [apply Z.div_pos; lia|]. apply Z.div_lt_upper_bound; lia. }
  pose proof (Z.mod_pos_bound (Z.shiftl (Z.max (now / 1000) 0) 16) (2 ^ 64) eq_refl) as Hm.
  assert (Hhi : 0 <= Z.lor (Z.lor (Z.shiftl (Z.max (now / 1000) 0) 16 mod 2 ^ 64) 28672) (now mod 1000 * 1000 * 4096 / 1000000) < 2 ^ 64).
  { apply lor_bound; [lia|apply lor_bound; lia|lia]. }
  change (2 ^ 128) with (2 ^ 64 * 2 ^ 64). nia.
Qed.

Lemma newID_range x d id d' : newID x d = Ok (id, d') -> 0 < id < 2 ^ 128.
Proof.
  unfold newID. intros E. apply bind_Ok in E as (now & d1 & _ & E). apply bind_Ok in E as (r & d2 & _ & E).
  unfold ret in E. injection E as <- _. apply newID_of_range.
Qed.

(** The tables a workflow's reading looks at. *)
Definition tables (d : DB) : list JobRow * Z * list HistoryRow * list BatchRow := (db_jobs d, db_seq d, db_history d, db_batches d).

Lemma newID_tables : respects (same_of tables) newID.
Proof. unfold newID. frame. Qed.
#[local] Hint Resolve newID_tables : respects.

Lemma mint_tables n : respects (same_of tables) (mint n).
Proof. induction n; simpl; frame. Qed.

Definition edge_inserts (ids : list JobID) (steps : list string) (deps : list JobDependency) (t : list DepRow) : list DepRow :=
  List.fold_left (fun t e => insert_edge (edge_row ids steps e) t) deps t.

Lemma iterM_edges ids steps deps : forall x d u d',
  iterM (fun e => modify (fun d => d <| db_deps ::= insert_edge (edge_row ids steps e) |>)) deps x d = Ok (u, d') ->
  db_deps d' = edge_inserts ids steps deps (db_deps d).
Proof.
  induction deps as [|e deps IH]; intros x d u d' E; [now injection E as _ <-|]. cbn [iterM] in E. apply bind_Ok in E as (v & d1 & Em & E).
  unfold modify in Em. injection Em as _ <-. apply IH in E. exact E.
Qed.

Lemma insertJob_deps j : respects (same_of db_deps) (insertJob j).
Proof. unfold insertJob, newID. frame. Qed.
#[local] Hint Resolve insertJob_deps : respects.

Lemma newID_deps : respects (same_of db_deps) newID.
Proof. unfold newID. frame. Qed.

Lemma mapM_insertJob_deps js : respects (same_of db_deps) (mapM insertJob js).
Proof. apply respects_mapM; [typeclasses eauto|]. intros j. apply insertJob_deps. Qed.

Lemma mint_deps n : respects (same_of db_deps) (mint n).
Proof. induction n; simpl; unfold newID; frame. Qed.

Lemma notify_edges c ps : respects (same_of db_deps) (notify c ps).
Proof. destruct ps; unfold notify; frame. Qed.

Lemma notify_tables c ps : respects (same_of tables) (notify c ps).
Proof. destruct ps; unfold notify; frame. Qed.

Lemma mint_range n : forall x d ids d', mint n x d = Ok (ids, d') -> List.length ids = n /\ Forall (fun id => 0 < id < 2 ^ 128) ids.
Proof.
  induction n as [|n IH]; intros x d ids d' E; [injection E as <- _; now split|]. cbn [mint] in E.
  apply bind_Ok in E as (id & d1 & Hid & E). apply bind_Ok in E as (rest & d2 & Hr & E). unfold ret in E. injection E as <- _.
  apply IH in Hr as [Hl Hf]. split; [cbn [List.length]; congruence|]. constructor; [exact (newID_range _ _ _ _ Hid)|exact Hf].
Qed.

(** ** Inserted rows *)

Definition row_of (j : jobInsert) (r : JobRow) : Prop :=
  j_ID r = i_id j /\ j_BatchID r = nullableID (i_batchID j) /\ state_eqb (j_State r) Pending = i_pending j.

Lemma insertJob_given j x d r d' : 0 < i_id j -> insertJob j x d = Ok (r, d') ->
  row_of j r /\ j_seq r = db_seq d + 1 /\ tables d' = (db_jobs d ++ [r], db_seq d + 1, db_history d, db_batches d)
  /\ jobs_ok (db_jobs d') = true.
Proof.
  intros Hi E. unfold insertJob in E. apply bind_Ok in E as (now & d1 & En & E). unfold us in En. injection En as <- <-.
  apply bind_Ok in E as (exp & d1 & Ea & E). unfold at_ in Ea. injection Ea as <- <-.
  assert (IsZero (i_id j) = false) as Hz by (unfold IsZero; apply Z.eqb_neq; lia). rewrite Hz in E.
  apply bind_Ok in E as (id & d1 & Ei & (-> & Hok & ->)%insert_row_Ok). unfold ret in Ei. injection Ei as <- <-. repeat split; [|exact Hok].
  cbn [new_row j_State]. destruct (i_pending j); [done|]. now destruct (ahead _ _).
Qed.

Lemma mapM_insertJob js : forall x d rows d', Forall (fun j => 0 < i_id j) js -> mapM insertJob js x d = Ok (rows, d') ->
  Forall2 row_of js rows /\ db_jobs d' = db_jobs d ++ rows /\ db_history d' = db_history d /\ db_batches d' = db_batches d
  /\ StronglySorted (fun a b => j_seq a < j_seq b) rows /\ Forall (fun r => db_seq d < j_seq r) rows
  /\ (js <> [] -> jobs_ok (db_jobs d') = true).
Proof.
  induction js as [|j js IH]; intros x d rows d' Hi E.
  { injection E as <- <-. rewrite app_nil_r. split_and!; try done; constructor. }
  inversion Hi as [|? ? Hj Hi']; subst. cbn [mapM] in E. apply bind_Ok in E as (r & d1 & Hr & E).
  apply bind_Ok in E as (rest & d2 & Hrest & E). unfold ret in E. injection E as <- <-.
  apply insertJob_given in Hr as (Hrow & Hseq & Ht & Hok); [|done]. unfold tables in Ht. injection Ht as Hjobs Hs Hh Hb.
  apply IH in Hrest as (H1 & H2 & H3 & H4 & H5 & H6 & H7); [|done]. split; [now constructor|]. rewrite H2, Hjobs, <- app_assoc. split; [done|].
  split; [congruence|]. split; [congruence|]. rewrite Hs in H6. rewrite List.Forall_forall in H6. split; [|split].
  - constructor; [done|]. apply List.Forall_forall. intros k Hk. specialize (H6 k Hk). lia.
  - constructor; [lia|]. apply List.Forall_forall. intros k Hk. specialize (H6 k Hk). lia.
  - intros _. destruct js as [|j2 js]; [inversion H1; subst; rewrite Hjobs in Hok; exact Hok|].
    specialize (H7 ltac:(done)). rewrite H2, Hjobs, <- app_assoc in H7. exact H7.
Qed.

Lemma with_ids_given jobs ids batch : List.length ids = List.length jobs ->
  List.map i_id (with_ids jobs ids batch) = ids /\ Forall (fun j => i_batchID j = batch) (with_ids jobs ids batch).
Proof.
  revert ids. induction jobs as [|j jobs IH]; intros [|id ids] E; try discriminate E; [now split|]. injection E as E.
  destruct (IH ids E) as [H1 H2]. unfold with_ids in *. cbn [List.combine List.map]. rewrite H1. split; [done|now constructor].
Qed.

Lemma rows_given js rows : Forall2 row_of js rows ->
  List.map j_ID rows = List.map i_id js /\ forall batch, 0 < batch -> Forall (fun j => i_batchID j = batch) js -> Forall (fun r => j_BatchID r = Some batch) rows.
Proof.
  induction 1 as [|j r js rows (Hi & Hb & _) _ [IH1 IH2]]; [now split|]. cbn [List.map]. split; [congruence|].
  intros batch Hp Hf. inversion Hf; subst. constructor; [|now apply IH2]. rewrite Hb. unfold nullableID, IsZero.
  destruct (Z.eqb_spec (i_batchID j) 0); [lia|done].
Qed.

(** The rows keep the jobs' order, whatever IDs they were given. *)
Lemma rows_pending jobs batch : forall ids rows, List.length ids = List.length jobs -> Forall2 row_of (with_ids jobs ids batch) rows ->
  Forall2 (fun j r => state_eqb (j_State r) Pending = i_pending j) jobs rows.
Proof.
  induction jobs as [|j jobs IH]; intros [|id ids] rows E H; try discriminate E; inversion H; subst; [constructor|].
  destruct H2 as (_ & _ & H2). constructor; [exact H2|]. injection E as E. eauto.
Qed.

(** What WorkflowInsert leaves: the batch row and the jobs, in order. *)
Lemma WorkflowInsert_w_rows params jobs b x d res d' : WorkflowInsert_w params jobs b x d = Ok (res, d') ->
  exists ids rows steps reads,
    StepsJSON (wp_Steps params) ids = Ok steps /\ ids_ok ids /\ List.NoDup ids /\ List.map j_ID rows = ids
    /\ wr_Jobs res = List.map (fun r => mkJobInsertResult (live_view r) false) rows
    /\ db_jobs d' = db_jobs d ++ rows /\ db_history d' = db_history d
    /\ Forall (fun r => j_BatchID r = Some (wr_ID res)) rows /\ StronglySorted (fun a b => j_seq a < j_seq b) rows
    /\ ex (batch_is (wr_ID res)) (db_batches d) = false
    /\ db_batches d' = db_batches d ++ [mkBatchRow (wr_ID res) (nullable (wp_Name params)) (Z.of_nat (List.length jobs)) 0 (Z.of_nat (List.length jobs))
         (br_onSuccess b) (br_onFailure b) (br_onComplete b) (br_metadata b) (Some (EdgesJSON (wp_Deps params) ids)) steps reads (w_now x) None]
    /\ Forall2 (fun j r => state_eqb (j_State r) Pending = i_pending j) jobs rows
    /\ db_deps d' = edge_inserts ids (wp_Steps params) (wp_Deps params) (db_deps d).
Proof.
  unfold WorkflowInsert_w. intros E. apply bind_Ok in E as (ids & d1 & Em & E).
  pose proof (mint_tables _ _ _ _ _ Em) as T1. destruct (mint_range _ _ _ _ _ Em) as [Hlen Hpos].
  apply bind_Ok in E as (steps & d2 & Es & E). destruct (StepsJSON (wp_Steps params) ids) as [st|e] eqn:Est; [|discriminate Es].
  cbn [lift] in Es. unfold ret in Es. injection Es as -> <-.
  apply bind_Ok in E as (batch & d2 & Eb & E). pose proof (newID_tables _ _ _ _ Eb) as T2. pose proof (newID_range _ _ _ _ Eb) as Hbp.
  apply bind_Ok in E as ([] & d3 & Ei & E). unfold insertBatch in Ei. destruct (ex (batch_is batch) (db_batches d2)) eqn:Eex; [discriminate Ei|].
  injection Ei as <-. apply bind_Ok in E as (rows & d4 & Er & E). destruct (with_ids_given jobs ids batch Hlen) as [W1 W2].
  pose proof Er as Er0. apply mapM_insertJob in Er as (H1 & H2 & H3 & H4 & H5 & _ & H7).
  2: { apply List.Forall_map with (P := fun i => 0 < i). rewrite W1. revert Hpos. apply List.Forall_impl. intros i Hi. apply Hi. }
  destruct (rows_given _ _ H1) as [R1 R2]. specialize (R2 batch (proj1 Hbp) W2). rewrite W1 in R1.
  apply bind_Ok in E as ([] & d5 & Ed & E). assert (T3 : same_of tables d4 d5) by (revert Ed; apply respects_iterM; [typeclasses eauto|]; intros a; frame).
  apply bind_Ok in E as ([] & d6 & En & E). unfold ret in E. injection E as <- <-.
  assert (T4 : same_of tables d5 d6).
  { destruct (wp_Notify params); [exact (notify_tables _ _ _ _ _ _ En)|]. unfold ret in En. now injection En as <-. }
  unfold same_of, tables in *. injection T1 as A1 A2 A3 A4. injection T2 as B1 B2 B3 B4. injection T3 as C1 C2 C3 C4. injection T4 as D1 D2 D3 D4.
  cbn in H2, H3, H4. exists ids, rows, steps, (existsb (fun e => jd_Reads e || negb (jd_AnyOf e =? 0)) (wp_Deps params)).
  cbn [wr_ID wr_Jobs]. split_and!; try done; try congruence.
  - revert Hpos. apply List.Forall_impl. intros i Hi. lia.
  - rewrite <- R1. destruct (with_ids jobs ids batch) eqn:Ew; [inversion H1; subst; constructor|]. specialize (H7 ltac:(done)).
    unfold jobs_ok in H7. rewrite !andb_true_iff in H7. destruct H7 as [[[[_ H7] _] _] _]. apply nodupb_NoDup in H7; [|apply Z.eqb_eq].
    rewrite H2, List.map_app in H7. now apply NoDup_app_remove_l in H7.
  - rewrite D4, C4, H4, B4, A4. reflexivity.
  - now apply (rows_pending jobs batch ids).
  - apply iterM_edges in Ed. apply mapM_insertJob_deps in Er0. apply newID_deps in Eb. apply mint_deps in Em. unfold same_of in *.
    assert (db_deps d6 = db_deps d5) as ->.
    { destruct (wp_Notify params); [exact (notify_edges _ _ _ _ _ _ En)|]. unfold ret in En. now injection En as <-. }
    rewrite Ed, Er0. cbn. now rewrite Eb, Em.
Qed.

(** ** Reading *)

Lemma mark_pending_groups deps n : forall pending out, mark_pending deps n pending = Ok out -> Forall (fun d => group_ok d = true) deps.
Proof.
  induction deps as [|d deps IH]; intros pending out E; [constructor|]. cbn [mark_pending] in E.
  destruct (edge_ok n d); [|discriminate E]. cbn [negb] in E. destruct (group_ok d) eqn:Eg; [|discriminate E]. cbn [negb] in E. constructor; [done|exact (IH _ _ E)].
Qed.

Lemma CheckDependencies_groups deps n pending : CheckDependencies deps n = Ok pending -> Forall (fun d => group_ok d = true) deps.
Proof. unfold CheckDependencies. destruct (mark_pending deps n _) as [p|e] eqn:E; [|done]. intros _. now apply mark_pending_groups in E. Qed.

Lemma one_last {A} (p : A -> bool) l a : ex p l = false -> p a = true -> one p (l ++ [a]) = Some a.
Proof.
  unfold ex, one. induction l as [|y l IH]; simpl; intros H Ha; [now rewrite Ha|]. apply orb_false_iff in H as [-> H]. auto.
Qed.

Definition of_batch (id : JobID) (v : JobView) : bool := null_eq Z.eqb (j_BatchID (v_job v)) (Some id).

Lemma of_batch_spec id v : of_batch id v = true <-> j_BatchID (v_job v) = Some id.
Proof. unfold of_batch, null_eq. destruct (j_BatchID (v_job v)); [rewrite Z.eqb_eq|]; split; congruence. Qed.

Lemma seq_sorted rows : StronglySorted (fun a b => j_seq a < j_seq b) rows ->
  StronglySorted (fun a b => seq_leb a b = true) (List.map live_view rows).
Proof.
  induction 1 as [|r rows _ IH Hr]; [constructor|]. constructor; [exact IH|]. apply List.Forall_map. revert Hr. apply List.Forall_impl.
  intros k Hk. unfold seq_leb. simpl. apply Z.leb_le. lia.
Qed.

(** The rows of the batch are the ones just inserted. *)
Lemma batch_jobs id d d' rows : (forall v, In v (all_views d) -> j_BatchID (v_job v) <> Some id) ->
  db_jobs d' = db_jobs d ++ rows -> db_history d' = db_history d -> Forall (fun r => j_BatchID r = Some id) rows ->
  sel (of_batch id) (List.map live_view (db_jobs d')) ++ sel (of_batch id) (List.map history_view (db_history d')) = List.map live_view rows.
Proof.
  intros Hn Ej Eh Hr. assert (Hf : forall l, (forall v, In v l -> In v (all_views d)) -> List.filter (of_batch id) l = []).
  { intros l Hl. apply filter_none. intros v Hv. apply not_true_iff_false. rewrite of_batch_spec. auto. }
  rewrite Ej, Eh. unfold sel. rewrite List.map_app, List.filter_app, (Hf (List.map live_view (db_jobs d))), (Hf (List.map history_view (db_history d))), app_nil_r.
  - apply filter_all. intros v (r & <- & Hin)%in_map_iff. apply of_batch_spec. rewrite List.Forall_forall in Hr. now apply Hr.
  - intros v Hv. apply in_app_iff. now right.
  - intros v Hv. apply in_app_iff. now left.
Qed.

(** C31:
    A workflow is read back as it was inserted: after a successful WorkflowInsert, WorkflowGet returns, under the
    workflow's ID, its name, the jobs the insert returned in their order, every edge given with its any-of group,
    and for each job exactly the step name given for it (names in valid UTF-8), with the whole count pending. *)
Theorem workflow_read_back params x d res d' :
  WorkflowInsert params x d = (Ok res, d') -> Forall (fun s => utf8_valid s = true) (wp_Steps params) ->
  (forall v, In v (all_views d) -> j_BatchID (v_job v) <> Some (wr_ID res)) ->
  exists got, WorkflowGet (wr_ID res) d' = Ok got
    /\ wf_Jobs got = List.map ir_Job (wr_Jobs res)
    /\ (let ids := List.map (fun v => j_ID (v_job v)) (wf_Jobs got) in
        wf_Edges got = List.map (fun e => mkJobEdge (id_at ids (jd_Job e)) (id_at ids (jd_DependsOn e)) (jd_AnyOf e)) (wp_Deps params)
        /\ forall id s, In (id, s) (wf_Steps got) <-> In (id, s) (List.combine ids (wp_Steps params)) /\ s <> "")
    /\ ba_Name (wf_Batch got) = wp_Name params /\ ba_ID (wf_Batch got) = wr_ID res /\ ba_CompletedAt (wf_Batch got) = None
    /\ ba_Pending (wf_Batch got) = ba_Total (wf_Batch got).
Proof.
  intros E Hu Hfresh. unfold WorkflowInsert in E. destruct (wp_Jobs params) as [|p0 ps] eqn:Ep; [discriminate E|]. rewrite <- Ep in E.
  destruct (CheckDependencies _ _) as [pending|] eqn:Ec; [|discriminate E]. destruct (workflow_jobs _ _) as [jobs|]; [|discriminate E].
  destruct (encodeBatch _ _ _ _) as [b|]; [|discriminate E]. unfold write in E.
  destruct (WorkflowInsert_w params jobs b x d) as [[r1 d1]|] eqn:Ew; [|discriminate E]. injection E as -> ->.
  apply WorkflowInsert_w_rows in Ew as (ids & rows & steps & reads & Hst & Hids & Hnd & Hrow & Hres & Hj & Hh & Hb & Hs & Hex & Hbat & _ & _).
  assert (Hviews : List.map (fun v => j_ID (v_job v)) (List.map live_view rows) = ids) by (rewrite <- Hrow, List.map_map; reflexivity).
  unfold WorkflowGet. rewrite Hbat, (one_last _ _ _ Hex) by apply Z.eqb_refl. cbn [b_edges b_steps b_name].
  rewrite DecodeEdges_EdgesJSON; [|exact Hids|exact (CheckDependencies_groups _ _ _ Ec)]. eexists. split; [reflexivity|].
  cbn [wf_Jobs wf_Edges wf_Steps wf_Batch]. fold (of_batch (wr_ID res)). rewrite (batch_jobs _ d d' rows Hfresh Hj Hh Hb).
  rewrite order_by_id by now apply seq_sorted. rewrite Hviews, Hres, List.map_map. split; [reflexivity|]. split; [split; [reflexivity|]|].
  - intros id s. apply (DecodeSteps_StepsJSON ids (wp_Steps params) steps Hids Hnd); [|exact Hst].
    revert Hu. apply List.Forall_impl. intros t. apply utf8_valid_utf8.
  - split_and!; try reflexivity; cbn [scanBatch ba_Name ba_Pending ba_Total b_completed_at is_null b_pending b_total].
    + unfold nullable. now destruct (String.eqb_spec (wp_Name params) "").
    + lia.
Qed.
