(* ===== verification/UniqueSpec.v ===== *)
(** * Unique keys: theorems on Unique.v

    Two jobs have one key exactly when what their options select is the same: the
    tagged fields by name, or the whole args as JSON, the queue, and the second
    the period starts in; with the two ways the text is coarser than the options
    say. *)

From Stdlib Require Import List ZArith Lia Bool String Ascii.
From stdpp Require Import base tactics list.
From S2P Require Import Prelude Sql Text Json JsonSpec Calendar Types CodecSpec Float64 Dates Cron Unique.
Import ListNotations.
Local Open Scope string_scope.
Local Open Scope Z_scope.

(** ** Lines *)

Definition line (s : string) : Prop := forallb_str (fun c => negb (Ascii.eqb c newline)) s = true.

Lemma line_app a b : line (a ++ b) <-> line a /\ line b.
Proof.
  unfold line. induction a as [|c a IH]; [change ("" ++ b) with b; simpl; tauto|]. rewrite app_cons_str. simpl. rewrite !andb_true_iff, IH. tauto.
Qed.

Lemma line_cut a b u v : line a -> line b -> a ++ uniqueKeySeparator ++ u = b ++ uniqueKeySeparator ++ v -> a = b /\ u = v.
Proof.
  revert b. induction a as [|c a IH]; intros [|e b] Ha Hb E.
  - change (String newline u = String newline v) in E. now injection E.
  - rewrite app_cons_str in E. change ("" ++ uniqueKeySeparator ++ u) with (String newline u) in E. injection E as <- _. discriminate Hb.
  - rewrite app_cons_str in E. change ("" ++ uniqueKeySeparator ++ v) with (String newline v) in E. injection E as -> _. discriminate Ha.
  - rewrite !app_cons_str in E. injection E as <- E. unfold line in *. cbn [forallb_str] in Ha, Hb. apply andb_true_iff in Ha as [_ Ha].
    apply andb_true_iff in Hb as [_ Hb]. destruct (IH b Ha Hb E) as [-> ->]. done.
Qed.

Lemma line_whole a b u : line a -> a = b ++ uniqueKeySeparator ++ u -> False.
Proof. intros Ha ->. apply line_app in Ha as [_ [Ha _]%line_app]. discriminate Ha. Qed.

(** Lines joined are told apart. *)
Lemma join_lines_inj l : forall m, Forall line l -> Forall line m -> List.length l = List.length m ->
  join uniqueKeySeparator l = join uniqueKeySeparator m -> l = m.
Proof.
  induction l as [|a l IH]; intros [|b m] Hl Hm En E; try discriminate En; [done|]. injection En as En.
  inversion Hl as [|? ? Ha Hl']; inversion Hm as [|? ? Hb Hm']; subst.
  destruct l as [|a' l], m as [|b' m]; try discriminate En; [cbn [join] in E; now subst|].
  change (a ++ uniqueKeySeparator ++ join uniqueKeySeparator (a' :: l) = b ++ uniqueKeySeparator ++ join uniqueKeySeparator (b' :: m)) in E.
  apply line_cut in E as [-> E]; [|done|done]. f_equal. now apply IH.
Qed.

Lemma prefix_inj p a b : p ++ a = p ++ b -> a = b.
Proof. induction p as [|c p IH]; [done|]. rewrite !app_cons_str. intros [= E]. auto. Qed.

(** ** Times *)

Lemma digit_inj a b s t : digit a ++ s = digit b ++ t -> a mod 10 = b mod 10 /\ s = t.
Proof.
  change (String (chr (48 + a mod 10)) s = String (chr (48 + b mod 10)) t -> a mod 10 = b mod 10 /\ s = t). intros [= E ->]. pose proof (Z.mod_pos_bound a 10 eq_refl). pose proof (Z.mod_pos_bound b 10 eq_refl).
  apply (f_equal code) in E. rewrite !code_chr in E by lia. split; [lia|done].
Qed.

Lemma pad2_inj a b s t : 0 <= a < 100 -> 0 <= b < 100 -> pad2 a ++ s = pad2 b ++ t -> a = b /\ s = t.
Proof.
  intros Ha Hb. unfold pad2. rewrite !app_assoc_str. intros [E1 [E2 ->]%digit_inj]%digit_inj. split; [|done].
  rewrite (Z.mod_small (a / 10)), (Z.mod_small (b / 10)) in E1 by (split; [apply Z.div_pos; lia|apply Z.div_lt_upper_bound; lia]).
  pose proof (Z.div_mod a 10). pose proof (Z.div_mod b 10). lia.
Qed.

Lemma pad4_inj a b s t : 0 <= a < 10000 -> 0 <= b < 10000 -> pad4 a ++ s = pad4 b ++ t -> a = b /\ s = t.
Proof.
  intros Ha Hb. unfold pad4. rewrite !app_assoc_str. intros E.
  apply pad2_inj in E as [E1 E]; [|split; [apply Z.div_pos; lia|apply Z.div_lt_upper_bound; lia]..].
  apply pad2_inj in E as [E2 ->]; [|apply Z.mod_pos_bound; lia..]. split; [|done].
  pose proof (Z.div_mod a 100). pose proof (Z.div_mod b 100). lia.
Qed.

(** A time a key's text can name: the year has four digits. *)
Definition four_digits (t : Z) : Prop := 0 <= year_of (t / 1000000000 / 86400) < 10000.

Lemma rfc3339_text t : exists s, rfc3339_ns t =
  pad4 (year_of (t / 1000000000 / 86400)) ++ "-" ++ pad2 (month_of (t / 1000000000 / 86400)) ++ "-" ++ pad2 (day_of (t / 1000000000 / 86400))
  ++ "T" ++ pad2 (t / 1000000000 mod 86400 / 3600) ++ ":" ++ pad2 (t / 1000000000 mod 86400 / 60 mod 60) ++ ":" ++ s /\ s = pad2 (t / 1000000000 mod 86400 mod 60) ++ "Z".
Proof.
  eexists. split; [|reflexivity]. unfold rfc3339_ns, year_of, month_of, day_of.
  destruct (civil_of_days (t / 1000000000 / 86400)) as [[y m] d]. reflexivity.
Qed.

Lemma rfc3339_inj t u : four_digits t -> four_digits u -> rfc3339_ns t = rfc3339_ns u -> t / 1000000000 = u / 1000000000.
Proof.
  unfold four_digits. intros Ht Hu. destruct (rfc3339_text t) as (s & -> & Es), (rfc3339_text u) as (s' & -> & Es'). intros E.
  set (a := t / 1000000000) in *. set (b := u / 1000000000) in *. clearbody a b.
  pose proof (date_spec (a / 86400)) as (A1 & A2 & A3 & _). pose proof (date_spec (b / 86400)) as (B1 & B2 & B3 & _).
  assert (Hh : forall z, 0 <= z mod 86400 / 3600 < 100 /\ 0 <= z mod 86400 / 60 mod 60 < 100 /\ 0 <= z mod 86400 mod 60 < 100).
  { intros z. pose proof (Z.mod_pos_bound z 86400 eq_refl). Z.to_euclidean_division_equations. lia. }
  pose proof (Hh a) as (A4 & A5 & A6). pose proof (Hh b) as (B4 & B5 & B6). clear Hh.
  apply pad4_inj in E as [Ey E]; [|lia|lia]. apply prefix_inj in E. apply pad2_inj in E as [Em E]; [|lia|lia]. apply prefix_inj in E.
  apply pad2_inj in E as [Ed E]; [|lia|lia]. apply prefix_inj in E. apply pad2_inj in E as [Eh E]; [|lia|lia]. apply prefix_inj in E.
  apply pad2_inj in E as [Ei E]; [|lia|lia]. apply prefix_inj in E. rewrite Es, Es' in E. apply pad2_inj in E as [Ese _]; [|lia|lia].
  assert (a / 86400 = b / 86400) by (rewrite Ey, Em, Ed in *; lia).
  clear - H Eh Ei Ese. Z.to_euclidean_division_equations. lia.
Qed.

Lemma line_digit z : line (digit z).
Proof.
  unfold line, digit. simpl. rewrite andb_true_r. pose proof (Z.mod_pos_bound z 10 eq_refl).
  rewrite (eqb_code (chr (48 + z mod 10)) newline); [done|]. rewrite code_chr by lia. change (code newline) with 10. lia.
Qed.

Lemma line_periodPart t p : line (periodPart t p).
Proof.
  unfold periodPart. destruct (rfc3339_text (Truncate t p)) as (s & -> & ->).
  repeat (apply line_app; split); first [apply line_digit | reflexivity].
Qed.

(** The periods of whole seconds are told apart; shorter ones share the text of their second. *)
Lemma periodPart_inj t u p : four_digits (Truncate t p) -> four_digits (Truncate u p) ->
  periodPart t p = periodPart u p <-> Truncate t p / 1000000000 = Truncate u p / 1000000000.
Proof.
  intros Ht Hu. unfold periodPart. split.
  - intros E%prefix_inj. now apply rfc3339_inj.
  - intros E. f_equal. unfold rfc3339_ns. now rewrite E.
Qed.

Lemma whole_seconds t u k : 0 < k -> Truncate t (k * 1000000000) / 1000000000 = Truncate u (k * 1000000000) / 1000000000 ->
  Truncate t (k * 1000000000) = Truncate u (k * 1000000000).
Proof.
  intros Hk. unfold Truncate. destruct (Z.leb_spec (k * 1000000000) 0); [lia|].
  assert (Hd : forall z, (1000000000 | z - (z - zero_ns) mod (k * 1000000000))).
  { intros z. replace (z - (z - zero_ns) mod (k * 1000000000)) with (k * 1000000000 * ((z - zero_ns) / (k * 1000000000)) + zero_ns)
      by (pose proof (Z.div_mod (z - zero_ns) (k * 1000000000)); lia).
    apply Z.divide_add_r; [exists (k * ((z - zero_ns) / (k * 1000000000))); ring|exists (-62135596800); reflexivity]. }
  destruct (Hd t) as [a ->], (Hd u) as [b ->]. rewrite !Z.div_mul by lia. lia.
Qed.

(** ** JSON texts are lines *)

Lemma line_take n s : line s -> line (take n s).
Proof. unfold line. revert s. induction n as [|n IH]; intros [|c s]; simpl; try done. intros [-> H]%andb_true_iff. simpl. auto. Qed.
Lemma line_drop n s : line s -> line (drop n s).
Proof. unfold line. revert s. induction n as [|n IH]; intros [|c s]; simpl; try done. intros [_ H]%andb_true_iff. auto. Qed.

Lemma runes_fuel_lines n : forall s, line s -> forall rw, In rw (runes_fuel n s) -> line (snd rw).
Proof.
  induction n as [|n IH]; intros s Hs rw Hin; [done|]. destruct s as [|c s]; [done|]. cbn [runes_fuel] in Hin.
  destruct (decode_rune (String c s)) as [r k]. destruct Hin as [<-|Hin]; [now apply line_take|]. apply (IH (drop k (String c s))); [now apply line_drop|done].
Qed.

Lemma runes_fuel_good n : forall s r t, In (r, t) (runes_fuel n s) -> bad_rune (r, t) = true \/ rune_of r t.
Proof.
  induction n as [|n IH]; intros s r t Hin; [done|]. destruct s as [|c s]; [done|]. cbn [runes_fuel] in Hin.
  destruct (decode_rune (String c s)) as [r' k] eqn:E. destruct Hin as [[= <- <-]|Hin]; [|now apply IH in Hin].
  destruct (bad_rune (r', take k (String c s))) eqn:Eb; [now left|right]. now apply decode_rune_of.
Qed.

Lemma line_hex z : 0 <= z < 16 -> line (String (hex_digit z) "").
Proof.
  intros H. unfold line. simpl. rewrite andb_true_r. rewrite (eqb_code (hex_digit z) newline); [done|]. change (code newline) with 10.
  unfold hex_digit. destruct (Z.ltb_spec z 10); rewrite code_chr by lia; lia.
Qed.

Lemma line_u_escape z : line (u_escape z).
Proof.
  unfold u_escape. change (line (String backslash (String "u" "") ++ String (hex_digit (z / 4096 mod 16)) "" ++ String (hex_digit (z / 256 mod 16)) ""
    ++ String (hex_digit (z / 16 mod 16)) "" ++ String (hex_digit (z mod 16)) "")).
  repeat (apply line_app; split); try (apply line_hex, Z.mod_pos_bound; lia). reflexivity.
Qed.

Lemma line_concat l : Forall line l -> line (String.concat "" l).
Proof. induction 1 as [|s l Hs _ IH]; [reflexivity|]. rewrite concat_cons. now apply line_app. Qed.

Lemma line_rune r t : rune_of r t -> r <> 10 -> line t.
Proof.
  intros Hr Hn. destruct (ascii_cases r t Hr) as [(-> & Ec & _)|[_ Hb]]; unfold line.
  - simpl. rewrite (eqb_code (chr r) newline); [done|]. now rewrite Ec.
  - clear Hr. induction t as [|c t IH]; [done|]. simpl in *. apply andb_true_iff in Hb as [Hc Hb]. apply Z.leb_le in Hc.
    rewrite (eqb_code c newline); [now apply IH|]. change (code newline) with 10. lia.
Qed.

Lemma line_quote s : line (quote s).
Proof.
  unfold quote. apply line_concat, List.Forall_map, List.Forall_forall. intros [r t] Hin. unfold runes in Hin.
  apply runes_fuel_good in Hin. unfold quote_rune. destruct (bad_rune (r, t)); [apply line_u_escape|]. destruct Hin as [[=]|Hr].
  repeat match goal with |- context [if ?a =? ?b then _ else _] => destruct (a =? b); [reflexivity|] end.
  destruct (Z.ltb_spec r 32); [apply line_u_escape|]. destruct (mem_Z r _); [apply line_u_escape|]. cbn [orb].
  apply (line_rune r t Hr). lia.
Qed.

Lemma line_compact l : line l -> line (compact_lit l).
Proof.
  intros Hl. unfold compact_lit. apply line_concat, List.Forall_map, List.Forall_forall. intros rw Hin. unfold compact_rune.
  destruct (mem_Z _ _); [apply line_u_escape|]. now apply (runes_fuel_lines (String.length l) l Hl).
Qed.

Lemma line_quoted l : line l -> line (in_quotes (compact_lit l)).
Proof.
  intros Hl. unfold in_quotes. change (line (String dquote "" ++ (compact_lit l ++ String dquote ""))). apply line_app. split; [reflexivity|].
  apply line_app. split; [now apply line_compact|reflexivity].
Qed.

Lemma line_join l : Forall line l -> line (join "," l).
Proof.
  induction 1 as [|s l Hs Hl IH]; [reflexivity|]. destruct l as [|t l]; [exact Hs|].
  change (line (s ++ "," ++ join "," (t :: l))). repeat (apply line_app; split); [done|reflexivity|done].
Qed.

Definition prints_line (j : json) : Prop := line (json_print j).

Lemma prints_arr l : Forall prints_line l -> prints_line (JArr l).
Proof.
  intros Hl. unfold prints_line. cbn [json_print]. apply line_app. split; [reflexivity|]. apply line_app. split; [|reflexivity].
  apply line_join, List.Forall_map. exact Hl.
Qed.

Lemma prints_object m : Forall (fun kv => prints_line (snd kv)) m -> prints_line (object_of m).
Proof.
  intros Hm. unfold prints_line, object_of. cbn [json_print]. apply line_app. split; [reflexivity|]. apply line_app. split; [|reflexivity].
  apply line_join, List.Forall_map, List.Forall_map. revert Hm. apply List.Forall_impl. intros [k v] Hv. cbn [fst snd] in *.
  apply line_app. split; [apply line_quoted, line_quote|]. apply line_app. split; [reflexivity|exact Hv].
Qed.

Lemma Forall_smap_set_snd {A} (P : A -> Prop) k v m : P v -> Forall (fun kv : string * A => P (snd kv)) m -> Forall (fun kv => P (snd kv)) (smap_set k v m).
Proof.
  intros Hv. induction 1 as [|[k' v'] m Hk Hm IH]; simpl; [auto|]. destruct (String.compare k k'); auto.
Qed.

(** ** The tagged fields *)

(** The fields tagged unique, with their names and values, in the order reflection meets them: through pointers and the structs
    embedded. *)
Fixpoint selected (v : value) : list (string * option json) :=
  match v with
  | VPointer None | VOther => []
  | VPointer (Some v) => selected v
  | VStruct fs =>
      (fix loop (fs : list (field * value * option json)) : list (string * option json) :=
         match fs with
         | [] => []
         | (f, u, j) :: rest => ((if fd_anonymous f then selected u else if tagged f then [(jsonName f, j)] else []) ++ loop rest)%list
         end) fs
  end.

(** The value of the last field of a name. *)
Definition value_of (n : string) (l : list (string * option json)) : option (option json) :=
  option_map snd (List.find (fun kv => String.eqb n (fst kv)) (List.rev l)).

Definition put_field (out : option (list (string * option json))) (kv : string * option json) : option (list (string * option json)) :=
  Some (smap_set (fst kv) (snd kv) (match out with Some m => m | None => [] end)).

Lemma taggedFields_selected : forall v out, taggedFields v out = List.fold_left put_field (selected v) out.
Proof.
  fix IH 1. intros [[v|]|fs|] out; [exact (IH v out)|reflexivity| |reflexivity]. cbn [taggedFields selected]. revert out.
  induction fs as [|[[f u] j] fs IHf]; intros out; [reflexivity|]. rewrite List.fold_left_app, IHf. f_equal.
  destruct (fd_anonymous f); [apply IH|]. destruct (tagged f); reflexivity.
Qed.

Lemma smap_get_set {A} n k (v : A) m : smap_get n (smap_set k v m) = if String.eqb n k then Some v else smap_get n m.
Proof.
  induction m as [|[k' v'] m IH]; [done|]. cbn [smap_set]. destruct (String.compare k k') eqn:E; cbn [smap_get].
  - apply String.compare_eq_iff in E as ->. destruct (String.eqb n k'); done.
  - done.
  - rewrite IH. destruct (String.eqb_spec n k') as [->|]; [|done]. destruct (String.eqb_spec k' k) as [->|]; [|done]. now rewrite compare_refl in E.
Qed.

Lemma find_app_l {A} (p : A -> bool) l k : List.find p (l ++ k)%list = match List.find p l with Some x => Some x | None => List.find p k end.
Proof. induction l as [|x l IH]; [done|]. simpl. now destruct (p x). Qed.

(** The map of the tagged fields holds, by name, the last field's value. *)
Lemma fields_map l : forall m, by_key m -> exists m', List.fold_left put_field l (Some m) = Some m' /\ by_key m'
  /\ (forall n, smap_get n m' = match value_of n l with Some j => Some j | None => smap_get n m end)
  /\ forall kv, In kv m' -> In kv m \/ In kv l.
Proof.
  induction l as [|[k j] l IH]; intros m Hm; [exists m; split_and!; auto|]. cbn [List.fold_left]. unfold put_field at 2. cbn [fst snd].
  destruct (IH (smap_set k j m) (smap_set_sorted k j m Hm)) as (m' & E & Hs & Hg & Hi). exists m'. split; [exact E|]. split; [done|]. split.
  - intros n. rewrite Hg, smap_get_set. unfold value_of. cbn [List.rev]. rewrite find_app_l. cbn [List.find fst].
    destruct (List.find _ (List.rev l)) as [kv|]; [done|]. destruct (String.eqb n k); done.
  - intros kv Hin. destruct (Hi kv Hin) as [H|H]; [|right; now right]. destruct kv as [k0 v0]. apply In_smap_set in H as [[-> ->]|[_ H]]; [right; now left|auto|done].
Qed.

Lemma smap_get_In {A} n (v : A) m : smap_get n m = Some v -> In (n, v) m.
Proof. induction m as [|[k w] m IH]; [done|]. cbn [smap_get]. destruct (String.eqb_spec n k) as [->|]; [intros [= ->]; now left|right; auto]. Qed.

Lemma smap_get_below {A} n (m : list (string * A)) : Forall (slt n) (List.map fst m) -> smap_get n m = None.
Proof.
  intros H. destruct (smap_get n m) as [v|] eqn:E; [|done]. apply smap_get_In, (in_map fst) in E. rewrite List.Forall_forall in H. now apply H, slt_irrefl in E.
Qed.

(** Maps by key are their lookups. *)
Lemma smap_ext {A} (m : list (string * A)) : forall m', by_key m -> by_key m' -> (forall n, smap_get n m = smap_get n m') -> m = m'.
Proof.
  unfold by_key. induction m as [|[k v] m IH]; intros [|[k' v'] m'] Hm Hm' H; [done| | |].
  - specialize (H k'). cbn in H. now rewrite String.eqb_refl in H.
  - specialize (H k). cbn in H. now rewrite String.eqb_refl in H.
  - cbn [List.map fst] in Hm, Hm'. inversion Hm as [|? ? Sm Fm]; inversion Hm' as [|? ? Sm' Fm']; subst.
    assert (Ek : k = k').
    { pose proof (H k) as H1. pose proof (H k') as H2. cbn [smap_get] in H1, H2. rewrite String.eqb_refl in H1, H2.
      destruct (String.eqb_spec k k') as [|Hne]; [done|]. destruct (String.eqb_spec k' k) as [|_]; [done|]. exfalso.
      symmetry in H1. apply smap_get_In, (in_map fst) in H1. apply smap_get_In, (in_map fst) in H2. rewrite List.Forall_forall in Fm, Fm'.
      apply (slt_irrefl k). exact (slt_trans _ _ _ (Fm _ H2) (Fm' _ H1)). }
    subst k'. pose proof (H k) as Hk. cbn [smap_get] in Hk. rewrite String.eqb_refl in Hk. injection Hk as ->. f_equal. apply IH; [done..|]. intros n.
    destruct (String.eqb_spec n k) as [->|Hne]; [now rewrite !smap_get_below|]. specialize (H n). cbn [smap_get] in H. now rewrite (proj2 (String.eqb_neq _ _) Hne) in H.
Qed.

Lemma marshal_members_Some m : forall o, marshal_members m = Some o -> m = List.map (fun kv => (fst kv, Some (snd kv))) o.
Proof.
  induction m as [|[k [j|]] m IH]; cbn [marshal_members]; intros o; [now intros [= <-]| |done]. destruct (marshal_members m) as [o'|]; [|done].
  intros [= <-]. cbn. now rewrite <- (IH o').
Qed.

(** What json.Marshal makes of a field: JSON as it is printed, on one line, under a name in UTF-8. *)
Definition field_ok (kv : string * option json) : Prop :=
  utf8 (fst kv) /\ match snd kv with Some j => canonical j /\ prints_line j | None => True end.
Definition marshals (v : value) : Prop := Forall field_ok (selected v).

Lemma object_of_inj o1 o2 : Forall (fun kv : string * json => utf8 (fst kv)) o1 -> Forall (fun kv : string * json => utf8 (fst kv)) o2 -> object_of o1 = object_of o2 -> o1 = o2.
Proof.
  intros H1 H2. unfold object_of. intros [= E]. revert o2 H2 E. induction H1 as [|[k v] o1 Hk _ IH]; intros [|[k' v'] o2] H2 E; try discriminate E; [done|].
  inversion H2 as [|? ? Hk' H2']; subst. cbn [List.map fst snd] in *. injection E as Eq -> E. f_equal; [|now apply IH]. f_equal. rewrite <- (unquote_quote k Hk), Eq. now apply unquote_quote.
Qed.

Lemma print_object_inj o1 o2 : Forall (fun kv : string * json => utf8 (fst kv) /\ canonical (snd kv)) o1 ->
  Forall (fun kv : string * json => utf8 (fst kv) /\ canonical (snd kv)) o2 -> json_print (object_of o1) = json_print (object_of o2) -> o1 = o2.
Proof.
  intros H1 H2 E. apply object_of_inj; [eapply List.Forall_impl; [|exact H1]; now intros kv [? _]|eapply List.Forall_impl; [|exact H2]; now intros kv [? _]|].
  assert (Hc : forall o, Forall (fun kv : string * json => utf8 (fst kv) /\ canonical (snd kv)) o -> canonical (object_of o)).
  { intros o Ho. unfold object_of. apply canonical_obj, List.Forall_map. eapply List.Forall_impl; [|exact Ho]. intros kv [Hu Hj]. split; [now apply literal_quote|done]. }
  apply (f_equal json_parse) in E. rewrite !json_parse_print in E by auto. congruence.
Qed.

(** The tagged fields' map, marshaled. *)
Lemma tagged_members v m : marshals v -> taggedFields v None = Some m ->
  by_key m /\ (forall n, smap_get n m = value_of n (selected v)) /\ Forall field_ok m /\ selected v <> [].
Proof.
  unfold marshals. rewrite taggedFields_selected. destruct (selected v) as [|kv l] eqn:El; [done|]. rewrite <- El. intros Hf E.
  assert (E' : List.fold_left put_field (selected v) (Some []) = Some m) by (rewrite El in *; exact E).
  destruct (fields_map (selected v) []) as (m' & Em & Hs & Hg & Hi); [constructor|]. rewrite Em in E'. injection E' as ->. split; [done|]. split.
  - intros n. rewrite Hg. cbn. now destruct (value_of n _).
  - split; [|rewrite El; done]. apply List.Forall_forall. intros kv' [[]|Hin]%Hi. rewrite List.Forall_forall in Hf. auto.
Qed.

Section Key.
Context {F : Type} (parseFloat : string -> option F) (formatFloat : F -> string).
Hypothesis format_line : forall f, line (formatFloat f).

Lemma canonical_any_line j : forall v, canonical_any parseFloat formatFloat j = Some v -> prints_line v.
Proof.
  induction j as [|b|l|l|l IH|m IH] using json_nested_ind; intros v E; cbn [canonical_any] in E.
  - injection E as <-. reflexivity.
  - injection E as <-. destruct b; reflexivity.
  - destruct (parseFloat l) as [f|]; [|discriminate E]. injection E as <-. apply format_line.
  - injection E as <-. apply line_quoted, line_quote.
  - match type of E with option_map _ (?g _) = _ => set (go := g) in E end.
    assert (Hgo : forall ys, go l = Some ys -> Forall prints_line ys).
    { clear E. induction IH as [|x l Hx _ IHl]; simpl; intros ys E; [injection E as <-; constructor|].
      destruct (canonical_any parseFloat formatFloat x) as [y|]; [|discriminate E]. destruct (go l) as [r|]; [|discriminate E].
      injection E as <-. constructor; auto. }
    destruct (go l) as [ys|]; [|discriminate E]. injection E as <-. apply prints_arr. auto.
  - match type of E with option_map _ (?g _ _) = _ => set (go := g) in E end.
    assert (Hgo : forall acc ys, Forall (fun kv => prints_line (snd kv)) acc -> go m acc = Some ys -> Forall (fun kv => prints_line (snd kv)) ys).
    { clear E. induction IH as [|[k x] m Hx _ IHm]; simpl; intros acc ys Ha E; [injection E as <-; exact Ha|].
      destruct (canonical_any parseFloat formatFloat x) as [y|] eqn:Ey; [|discriminate E]. eapply IHm; [|exact E].
      apply Forall_smap_set_snd; [|exact Ha]. apply Hx. exact Ey. }
    destruct (go m []) as [ys|] eqn:Eg; [|discriminate E]. injection E as <-. apply prints_object. apply (Hgo [] ys); [constructor|exact Eg].
Qed.

Lemma marshal_members_lines m out : Forall (fun kv : string * option json => match snd kv with Some j => prints_line j | None => True end) m ->
  marshal_members m = Some out -> Forall (fun kv => prints_line (snd kv)) out.
Proof.
  intros Hm. revert out. induction Hm as [|[k [j|]] m Hj _ IH]; simpl; intros out E; [injection E as <-; constructor| |discriminate E].
  destruct (marshal_members m) as [r|]; [|discriminate E]. injection E as <-. constructor; [exact Hj|auto].
Qed.

Lemma uniqueArgs_line v encoded a : marshals v -> uniqueArgs parseFloat formatFloat v encoded = Ok a -> line a.
Proof.
  unfold uniqueArgs. destruct (taggedFields v None) as [m|] eqn:Et.
  - intros Hm%(fun H => tagged_members v m H Et). destruct Hm as (_ & _ & Hm & _). destruct (marshal_members m) as [out|] eqn:E; [|discriminate]. assert (H : Ok (json_print (object_of out)) = Ok a -> line a); [|exact H].
    intros Ha. assert (a = json_print (object_of out)) as -> by congruence. apply prints_object. apply (marshal_members_lines m); [|done].
    eapply List.Forall_impl; [|exact Hm]. intros [k [j|]] [_ Hj]; [apply Hj|done].
  - intros _. destruct (json_parse encoded) as [j|]; [|discriminate]. destruct (canonical_any parseFloat formatFloat j) as [c|] eqn:E; [|discriminate].
    intros Ha. assert (a = json_print c) as -> by congruence. now apply canonical_any_line in E.
Qed.

Lemma queue_line q : existsb (fun rw => is_control (fst rw)) (runes q) = false -> line q.
Proof.
  unfold runes. generalize (le_n (String.length q)). generalize (String.length q) at 2 3 as n. intros n. revert q.
  induction n as [|n IH]; intros q Hn H; [destruct q; [reflexivity|simpl in Hn; lia]|]. destruct q as [|c q]; [reflexivity|].
  cbn [runes_fuel] in H. destruct (decode_rune (String c q)) as [r k] eqn:E. cbn [existsb fst] in H. apply orb_false_iff in H as [Hr H].
  rewrite <- (take_drop k (String c q)). apply line_app.
  assert (Hk : (1 <= k)%nat).
  { simpl in E. repeat match goal with E : context [if ?b then _ else _] |- _ => destruct b | E : context [match ?s with EmptyString => _ | String _ _ => _ end] |- _ => destruct s end;
      injection E as <- <-; lia. }
  split.
  - destruct (bad_rune (r, take k (String c q))) eqn:Eb.
    + unfold bad_rune in Eb. cbn [fst snd] in Eb. apply andb_true_iff in Eb as [Er El]. apply Z.eqb_eq in Er. apply Nat.eqb_eq in El.
      destruct k as [|k]; [lia|]. cbn [take] in *. destruct (take k q); [|discriminate El]. unfold line. simpl.
      rewrite (eqb_code c newline); [done|]. intros Ec. change (code newline) with 10 in Ec. simpl in E. rewrite Ec in E. simpl in E.
      injection E as <- _. discriminate Er.
    + apply decode_rune_of in E; [|exact Eb]. apply (line_rune r _ E). intros ->. discriminate Hr.
  - apply IH; [|exact H]. destruct k as [|k]; [lia|]. cbn [drop]. clear -Hn. simpl in Hn. assert (forall j s, (String.length (drop j s) <= String.length s)%nat).
    { induction j as [|j IHj]; intros [|y s]; simpl; try lia. specialize (IHj s). lia. } specialize (H k q). lia.
Qed.

(** What a key is made of, and that its parts are lines. *)
Lemma key_Ok o v encoded queue now k : UniqueOpts_key parseFloat formatFloat o v encoded queue now = Ok k ->
  marshals v -> existsb (fun rw => is_control (fst rw)) (runes queue) = false ->
  exists a, (uo_ByArgs o = true -> uniqueArgs parseFloat formatFloat v encoded = Ok a)
    /\ k = key_text (key_parts o a queue now) /\ Forall line (key_parts o a queue now).
Proof.
  unfold UniqueOpts_key. intros E Hv Hq. apply queue_line in Hq.
  assert (Hp : forall a, line a -> Forall line (key_parts o a queue now)).
  { intros a Ha. unfold key_parts. repeat (apply List.Forall_app; split).
    - destruct (uo_ByArgs o); constructor; [|constructor]. apply line_app. now split.
    - destruct (uo_ByQueue o); constructor; [|constructor]. apply line_app. now split.
    - destruct (uo_ByPeriod o >? 0); constructor; [|constructor]. apply line_periodPart. }
  destruct (uo_ByArgs o) eqn:Ea.
  - destruct (uniqueArgs parseFloat formatFloat v encoded) as [a|] eqn:Eu; [|discriminate E]. exists a.
    destruct (checkUniqueKey _); [|discriminate E]. injection E as <-. split; [done|]. split; [done|]. apply Hp. now apply uniqueArgs_line in Eu.
  - exists "". destruct (checkUniqueKey _); [|discriminate E]. injection E as <-. split; [done|]. split; [done|]. now apply Hp.
Qed.

Lemma key_parts_length o a1 a2 q1 q2 t1 t2 : List.length (key_parts o a1 q1 t1) = List.length (key_parts o a2 q2 t2).
Proof. unfold key_parts. destruct (uo_ByArgs o), (uo_ByQueue o), (uo_ByPeriod o >? 0); reflexivity. Qed.

Lemma key_text_inj l m : Forall line l -> Forall line m -> List.length l = List.length m -> key_text l = key_text m -> l = m.
Proof.
  intros Hl Hm En E. destruct l as [|a l], m as [|b m]; try discriminate En; [done|]. now apply join_lines_inj.
Qed.

Lemma cons_parts {A} (x y : A) l m : x :: l = y :: m -> x = y /\ l = m.
Proof. now intros [= -> ->]. Qed.

Lemma key_parts_eq o a1 a2 q1 q2 t1 t2 : key_parts o a1 q1 t1 = key_parts o a2 q2 t2 <->
  (uo_ByArgs o = true -> a1 = a2) /\ (uo_ByQueue o = true -> q1 = q2)
  /\ (0 < uo_ByPeriod o -> periodPart t1 (uo_ByPeriod o) = periodPart t2 (uo_ByPeriod o)).
Proof.
  unfold key_parts. rewrite Z.gtb_ltb. generalize (periodPart t1 (uo_ByPeriod o)) (periodPart t2 (uo_ByPeriod o)). intros p1 p2.
  destruct (Z.ltb_spec 0 (uo_ByPeriod o)); destruct (uo_ByArgs o), (uo_ByQueue o); cbn [app];
    (split; [intros E; repeat match goal with E : _ :: _ = _ :: _ |- _ => apply cons_parts in E as [? E] end;
             split_and!; intros; first [lia | discriminate | now apply prefix_inj with "a=" | now apply prefix_inj with "q=" | assumption]
            |intros (H1 & H2 & H3); rewrite ?H1, ?H2, ?H3 by (done || lia); done]).
Qed.

(** The args that make one key: of args with tagged fields the tagged fields, by name; of others the whole. *)
Definition args_agree (v1 : value) (e1 : string) (v2 : value) (e2 : string) : Prop :=
  match selected v1, selected v2 with
  | _ :: _, _ :: _ => forall n, value_of n (selected v1) = value_of n (selected v2)
  | _, _ => uniqueArgs parseFloat formatFloat v1 e1 = uniqueArgs parseFloat formatFloat v2 e2
  end.

Lemma uniqueArgs_agree v1 e1 v2 e2 a1 a2 : marshals v1 -> marshals v2 ->
  uniqueArgs parseFloat formatFloat v1 e1 = Ok a1 -> uniqueArgs parseFloat formatFloat v2 e2 = Ok a2 -> a1 = a2 <-> args_agree v1 e1 v2 e2.
Proof.
  intros M1 M2 E1 E2. unfold args_agree. destruct (selected v1) as [|kv1 l1] eqn:S1; [rewrite E1, E2; split; congruence|].
  destruct (selected v2) as [|kv2 l2] eqn:S2; [rewrite E1, E2; split; congruence|]. rewrite <- S1, <- S2. unfold uniqueArgs in E1, E2.
  assert (T : forall v kv l, selected v = kv :: l -> exists m, taggedFields v None = Some m).
  { intros v kv l S. rewrite taggedFields_selected, S. cbn [List.fold_left]. unfold put_field at 2.
    destruct (fields_map l (smap_set (fst kv) (snd kv) [])) as (m & E & _); [apply smap_set_sorted; constructor|eauto]. }
  destruct (T _ _ _ S1) as [m1 T1], (T _ _ _ S2) as [m2 T2]. rewrite T1 in E1. rewrite T2 in E2.
  destruct (tagged_members v1 m1 M1 T1) as (B1 & G1 & F1 & _), (tagged_members v2 m2 M2 T2) as (B2 & G2 & F2 & _).
  destruct (marshal_members m1) as [o1|] eqn:O1; [|discriminate E1]. destruct (marshal_members m2) as [o2|] eqn:O2; [|discriminate E2].
  assert (H1 : a1 = json_print (object_of o1)) by congruence. assert (H2 : a2 = json_print (object_of o2)) by congruence. clear E1 E2. subst a1 a2.
  setoid_rewrite <- G1. setoid_rewrite <- G2.
  assert (C : forall m o, marshal_members m = Some o -> Forall field_ok m -> Forall (fun kv : string * json => utf8 (fst kv) /\ canonical (snd kv)) o).
  { intros m o O Hf. apply marshal_members_Some in O. subst m. rewrite List.Forall_map in Hf. eapply List.Forall_impl; [|exact Hf]. intros kv (U & Hc & _). done. }
  split.
  - intros E n. apply print_object_inj in E; [|now apply (C m1)|now apply (C m2)]. apply marshal_members_Some in O1, O2. now rewrite O1, O2, E.
  - intros E. assert (m1 = m2) as -> by now apply smap_ext. congruence.
Qed.

(** C39:
    A unique key tells apart exactly what its options select.  Two keys of the same options are the same text if and
    only if: with ByArgs, the args agree, which for args with fields tagged unique means that every name has the same
    value among the tagged fields (the last field of the name, through pointers and embedded structs), and for others
    that the args have the same text once decoded and encoded again; with ByQueue, the queues are equal; and with
    ByPeriod, the periods start in the same whole second, so that periods shorter than a second share keys.  The
    queues hold no control characters, the periods start in years of four digits, and the tagged fields' values are
    what json.Marshal writes. *)
Theorem key_selects o v1 v2 e1 e2 q1 q2 t1 t2 k1 k2 :
  UniqueOpts_key parseFloat formatFloat o v1 e1 q1 t1 = Ok k1 -> UniqueOpts_key parseFloat formatFloat o v2 e2 q2 t2 = Ok k2 ->
  marshals v1 -> marshals v2 ->
  existsb (fun rw => is_control (fst rw)) (runes q1) = false -> existsb (fun rw => is_control (fst rw)) (runes q2) = false ->
  four_digits (Truncate t1 (uo_ByPeriod o)) -> four_digits (Truncate t2 (uo_ByPeriod o)) ->
  k1 = k2 <->
    (uo_ByArgs o = true -> args_agree v1 e1 v2 e2)
    /\ (uo_ByQueue o = true -> q1 = q2)
    /\ (0 < uo_ByPeriod o -> Truncate t1 (uo_ByPeriod o) / 1000000000 = Truncate t2 (uo_ByPeriod o) / 1000000000).
Proof.
  intros E1 E2 V1 V2 Q1 Q2 D1 D2. apply key_Ok in E1 as (a1 & A1 & -> & L1); [|done..]. apply key_Ok in E2 as (a2 & A2 & -> & L2); [|done..].
  rewrite <- periodPart_inj by done.
  assert (Ha : (uo_ByArgs o = true -> args_agree v1 e1 v2 e2) <-> (uo_ByArgs o = true -> a1 = a2)).
  { destruct (uo_ByArgs o); [|split; intros _ [=]]. rewrite (uniqueArgs_agree v1 e1 v2 e2 a1 a2) by auto. done. }
  rewrite Ha, <- key_parts_eq. split; [|now intros ->]. apply key_text_inj; auto using key_parts_length.
Qed.
End Key.

(** ** The texts of whole numbers *)

Definition whole_text (f : SpecFloat.spec_float) : string := itoa (f_round f).

Lemma line_itoa z : line (itoa z).
Proof.
  assert (Hd : forall p, line (uint_text (Pos.to_uint p))).
  { intros p. generalize (uint_digits (Pos.to_uint p)). unfold line. induction (uint_text (Pos.to_uint p)) as [|c s IH]; cbn [forallb_str]; [done|].
    intros [Hc Hs]%andb_true_iff. rewrite (IH Hs), andb_true_r, (eqb_code c newline); [done|]. intros E. unfold is_digit in Hc. rewrite E in Hc. discriminate Hc. }
  destruct z as [|p|p]; [reflexivity|rewrite itoa_pos; apply Hd|rewrite itoa_neg; apply (Hd p)].
Qed.

Definition hourly : UniqueOpts := mkUniqueOpts true true 3600000000000 UniqueSkip [].
(** Args whose first field is tagged: the second does not count. *)
Definition urgent (note : bool) : value :=
  VStruct [(mkField "Urgent" [("hopper", "unique")] true false, VOther, Some (JBool true)); (mkField "Note" [] true false, VOther, Some (JBool note))].
Lemma urgent_marshals note : marshals (urgent note).
Proof. repeat constructor. apply utf8_ascii. reflexivity. Qed.

Lemma key_selects_witness : exists k,
  UniqueOpts_key parse_float whole_text hourly (urgent true) "" "mail" 1700000000000000000 = Ok k
  /\ UniqueOpts_key parse_float whole_text hourly (urgent false) "" "mail" 1700001000000000000 = Ok k.
Proof.
  destruct (UniqueOpts_key parse_float whole_text hourly (urgent true) "" "mail" 1700000000000000000) as [k1|] eqn:E1; [|vm_compute in E1; discriminate E1].
  destruct (UniqueOpts_key parse_float whole_text hourly (urgent false) "" "mail" 1700001000000000000) as [k2|] eqn:E2; [|vm_compute in E2; discriminate E2].
  exists k1. split; [reflexivity|]. f_equal. symmetry.
  apply (key_selects parse_float whole_text (fun f => line_itoa (f_round f)) hourly (urgent true) (urgent false) "" "" "mail" "mail" _ _ k1 k2 E1 E2);
    [apply urgent_marshals|apply urgent_marshals|reflexivity|reflexivity|split; vm_compute; [discriminate|reflexivity]|split; vm_compute; [discriminate|reflexivity]|].
  split; [intros _ n; reflexivity|]. split; intros _; vm_compute; reflexivity.
Defined.

(** Whole args are read as float64: two IDs past 2^53 have one key. *)
Definition by_args : UniqueOpts := mkUniqueOpts true false 0 UniqueSkip [].
Lemma args_read_as_floats :
  UniqueOpts_key parse_float whole_text by_args VOther ("{" ++ in_quotes "id" ++ ":9007199254740992}") "mail" 0
  = UniqueOpts_key parse_float whole_text by_args VOther ("{" ++ in_quotes "id" ++ ":9007199254740993}") "mail" 0.
Proof. vm_compute. reflexivity. Qed.

(** A period is written to the second: the periods of half a second within one have one key. *)
Lemma periods_read_to_the_second : Truncate 1700000000000000000 500000000 <> Truncate 1700000000700000000 500000000
  /\ periodPart 1700000000000000000 500000000 = periodPart 1700000000700000000 500000000.
Proof. split; [discriminate|]. vm_compute. reflexivity. Qed.
