(* ===== verification/InsertingSpec.v ===== *)
(** * Inserting from the client: theorems on Inserting.v

    The folding of a call's unique keys places every input in one statement or
    answers it with the input before, and no statement has a key twice. *)

From Stdlib Require Import List ZArith Lia Bool String Permutation Sorted.
From stdpp Require Import base tactics list.
From S2P Require Import Prelude Sql Text Json Types Store Logic JobTags Insert Workflow Unique Inserting InsertSpec.
Import ListNotations.
Local Open Scope string_scope.
Local Open Scope Z_scope.
Local Open Scope list_scope.

(** ** Where an input goes *)

Notation dparams := (list (JobInsertParams * ConflictAction)).
Definition round_all (r : round) : list nat := rd_skip r ++ rd_replace r.
Definition has_key (p : JobInsertParams) : bool := negb (String.eqb (ip_UniqueKey p) "").
(** The input [m] has the key [ref]. *)
Definition keyed (dps : dparams) (m : nat) (ref : uniqueRef) : Prop := exists p a, dps !! m = Some (p, a) /\ has_key p = true /\ ref_of p = ref.

Record folding (dps : dparams) (i : nat) (f : folded) : Prop := {
  fg_length : List.length (fo_dupOf f) = i;
  fg_seen : forall ref s, seen_get ref (fo_seen f) = Some s -> (ks_last s < i)%nat /\ (ks_round s < List.length (fo_rounds f))%nat /\ keyed dps (ks_last s) ref;
  fg_dup : forall m j, fo_dupOf f !! m = Some (Some j) -> (j < m)%nat /\ exists ref, keyed dps m ref /\ keyed dps j ref
             /\ sameStates (finished_of dps j) (finished_of dps m) = true;
  fg_placed : forall m, fo_dupOf f !! m = Some None <-> exists n r, fo_rounds f !! n = Some r /\ In m (round_all r);
  fg_once : List.NoDup (List.concat (List.map round_all (fo_rounds f)));
  fg_sorted : forall n r a, fo_rounds f !! n = Some r -> StronglySorted lt (rd_of a r);
  fg_action : forall n r a m, fo_rounds f !! n = Some r -> In m (rd_of a r) -> exists p, dps !! m = Some (p, a);
  fg_key : forall n r m ref, fo_rounds f !! n = Some r -> In m (round_all r) -> keyed dps m ref ->
             exists s, seen_get ref (fo_seen f) = Some s /\ (n <= ks_round s)%nat;
  fg_apart : forall n r m m' ref, fo_rounds f !! n = Some r -> In m (round_all r) -> In m' (round_all r) -> keyed dps m ref -> keyed dps m' ref -> m = m' }.

Lemma ref_eqb_eq a b : ref_eqb a b = true <-> a = b.
Proof. destruct a, b. unfold ref_eqb. simpl. rewrite andb_true_iff, !String.eqb_eq. split; [intros [-> ->]|intros [= -> ->]]; auto. Qed.

Lemma seen_get_cons r k s seen : seen_get r ((k, s) :: seen) = if ref_eqb r k then Some s else seen_get r seen.
Proof. reflexivity. Qed.

Lemma keyed_fun dps m r r' : keyed dps m r -> keyed dps m r' -> r = r'.
Proof. intros (p & a & E & _ & <-) (p' & a' & E' & _ & <-). congruence. Qed.

(** Placing one more input in the last round or a new one. *)
Lemma add_to_round_spec n a i rounds : (n <= List.length rounds)%nat -> exists rounds', add_to_round n a i rounds = Some rounds'
  /\ (List.length rounds <= List.length rounds')%nat /\ (n < List.length rounds')%nat
  /\ (exists r, (rounds !! n = Some r \/ (rounds !! n = None /\ r = no_round)) /\ rounds' !! n = Some (rd_add a i r))
  /\ (forall k, k <> n -> rounds' !! k = rounds !! k)
  /\ Permutation (List.concat (List.map round_all rounds')) (i :: List.concat (List.map round_all rounds)).
Proof.
  intros Hn. unfold add_to_round.
  set (rs := if Nat.eqb n (List.length rounds) then rounds ++ [no_round] else rounds).
  assert (Hrs : exists r, rs !! n = Some r /\ (rounds !! n = Some r \/ (rounds !! n = None /\ r = no_round))).
  { unfold rs. destruct (Nat.eqb_spec n (List.length rounds)) as [->|Hne].
    - exists no_round. rewrite list_lookup_middle by done. split; [done|right]. split; [|done]. apply lookup_ge_None_2. done.
    - destruct (lookup_lt_is_Some_2 rounds n) as [r Hr]; [lia|]. exists r. auto. }
  assert (Hc : List.concat (List.map round_all rs) = List.concat (List.map round_all rounds)).
  { unfold rs. destruct (Nat.eqb n (List.length rounds)); [|done]. rewrite List.map_app, List.concat_app. apply app_nil_r. }
  assert (Hl : (List.length rounds <= List.length rs)%nat) by (unfold rs; destruct (Nat.eqb _ _); rewrite ?List.length_app; lia).
  assert (Ho : forall k, k <> n -> rs !! k = rounds !! k).
  { intros k Hk. unfold rs. destruct (Nat.eqb_spec n (List.length rounds)) as [E|]; [|done].
    destruct (Nat.lt_ge_cases k (List.length rounds)); [now apply lookup_app_l|]. rewrite !lookup_ge_None_2; [done|lia|rewrite List.length_app; simpl; lia]. }
  destruct Hrs as (r & Hr & Hor). rewrite Hr. pose proof (lookup_lt_Some _ _ _ Hr). eexists. split; [reflexivity|].
  rewrite length_insert. split_and!; [done|done| | |].
  - exists r. split; [done|]. now apply list_lookup_insert_eq.
  - intros k Hk. rewrite list_lookup_insert_ne by done. auto.
  - rewrite <- Hc. rewrite <- (take_drop_middle rs n r Hr) at 2. rewrite insert_take_drop by done.
    rewrite !List.map_app, !List.concat_app. cbn [List.map List.concat]. rewrite Permutation_middle. apply Permutation_app_head.
    change (i :: round_all r ++ ?l) with ((i :: round_all r) ++ l). apply Permutation_app_tail. destruct a; unfold round_all, rd_add; cbn [rd_skip rd_replace].
    + rewrite <- app_assoc. cbn [app]. symmetry. apply Permutation_middle.
    + rewrite app_assoc. symmetry. apply Permutation_cons_append.
Qed.

Lemma In_rd_add a b i r m : In m (rd_of b (rd_add a i r)) <-> In m (rd_of b r) \/ (m = i /\ a = b).
Proof. destruct a, b; cbn [rd_add rd_of rd_skip rd_replace]; rewrite ?in_app_iff; simpl; intuition congruence. Qed.

Lemma In_round_all m r : In m (round_all r) <-> exists a, In m (rd_of a r).
Proof.
  unfold round_all. rewrite in_app_iff. split; [intros [H|H]; [now exists ConflictSkip|now exists ConflictReplace]|intros [[] H]; auto].
Qed.

Lemma In_round_add a i r m : In m (round_all (rd_add a i r)) <-> In m (round_all r) \/ m = i.
Proof. rewrite !In_round_all. setoid_rewrite In_rd_add. split; [intros (b & [H|[-> _]]); eauto|intros [[b H]| ->]; eauto]. Qed.

Lemma snoc_lookup {A} (l : list A) x m : (l ++ [x]) !! m = if Nat.eqb m (List.length l) then Some x else l !! m.
Proof.
  destruct (Nat.eqb_spec m (List.length l)) as [->|Hne]; [now rewrite list_lookup_middle|].
  destruct (Nat.lt_ge_cases m (List.length l)); [now apply lookup_app_l|]. rewrite !lookup_ge_None_2; [done|lia|rewrite List.length_app; simpl; lia].
Qed.

Lemma sorted_snoc l i : StronglySorted lt l -> (forall m, In m l -> (m < i)%nat) -> StronglySorted lt (l ++ [i]).
Proof.
  induction 1 as [|m l Hs IH Hm]; intros Hi; cbn [app]; [repeat constructor|]. constructor; [auto using in_cons|].
  apply List.Forall_app. split; [done|]. repeat constructor. apply Hi. now left.
Qed.

(** An input placed in a round after those of its key. *)
Lemma place_folding dps i p a f n seen : folding dps i f -> dps !! i = Some (p, a) -> (n <= List.length (fo_rounds f))%nat ->
  (has_key p = false /\ seen = fo_seen f
   \/ has_key p = true /\ seen = (ref_of p, mkKeyState i n) :: fo_seen f /\ (forall s, seen_get (ref_of p) (fo_seen f) = Some s -> (ks_round s < n)%nat)) ->
  exists rounds, add_to_round n a i (fo_rounds f) = Some rounds /\ folding dps (S i) (mkFolded rounds (fo_dupOf f ++ [None]) seen).
Proof.
  intros [H1 H2 H3 H4 H5 H9 H6 H7 H8] Hi Hn Hs.
  destruct (add_to_round_spec n a i (fo_rounds f) Hn) as (rounds & E & L1 & L2 & (r0 & Hr0 & Hr) & Ho & Hp). exists rounds. split; [done|].
  assert (Hold : forall m r, In m (round_all r) -> (exists k, fo_rounds f !! k = Some r) -> (m < i)%nat).
  { intros m r Hm [k Hk]. assert (fo_dupOf f !! m = Some None) as Hd by (apply H4; eauto). apply lookup_lt_Some in Hd. lia. }
  assert (Hr0' : forall m, In m (round_all r0) -> fo_rounds f !! n = Some r0) by (intros m Hm; destruct Hr0 as [|[_ ->]]; [done|destruct Hm]).
  assert (Hkey : forall ref, keyed dps i ref -> has_key p = true /\ ref = ref_of p).
  { intros ref (p' & a' & E' & Hk & <-). rewrite Hi in E'. injection E' as <- <-. done. }
  assert (Hget : forall ref s, seen_get ref seen = Some s -> (ks_last s = i /\ ks_round s = n /\ has_key p = true /\ ref = ref_of p) \/ seen_get ref (fo_seen f) = Some s).
  { intros ref s Hg. destruct Hs as [[_ ->]|(Hk & -> & _)]; [auto|]. rewrite seen_get_cons in Hg. destruct (ref_eqb ref (ref_of p)) eqn:Er; [|auto].
    injection Hg as <-. apply ref_eqb_eq in Er. auto. }
  split; cbn [fo_rounds fo_dupOf fo_seen].
  - rewrite List.length_app. simpl. lia.
  - intros ref s [(-> & -> & Hk & ->)|Hg]%Hget; [split_and!; [lia|lia|exists p, a; auto]|]. destruct (H2 _ _ Hg) as (A & B & C). split_and!; [lia|lia|done].
  - intros m j. rewrite snoc_lookup. destruct (Nat.eqb_spec m (List.length (fo_dupOf f))); [done|]. apply H3.
  - intros m. rewrite snoc_lookup, H1. destruct (Nat.eqb_spec m i) as [->|Hne].
    + split; [|done]. intros _. exists n, (rd_add a i r0). split; [done|]. apply In_round_add. auto.
    + rewrite H4. split; intros (k & r & Hk & Hm).
      * destruct (Nat.eq_dec k n) as [->|Hkn]; [|exists k, r; rewrite Ho by done; auto]. exists n, (rd_add a i r0). split; [done|]. apply In_round_add. left.
        destruct Hr0 as [Hr0|[Hr0 _]]; congruence.
      * destruct (Nat.eq_dec k n) as [->|Hkn]; [|exists k, r; rewrite <- Ho by done; auto]. rewrite Hr in Hk. injection Hk as <-.
        apply In_round_add in Hm as [Hm|]; [|done]. exists n, r0. split; [now apply (Hr0' m)|done].
  - rewrite Hp. constructor; [|done]. intros (l & (r & <- & Hin)%in_map_iff & Hm)%in_concat. apply list_elem_of_In, list_elem_of_lookup in Hin as [k Hk].
    assert (i < i)%nat by (apply (Hold i r); eauto). lia.
  - intros k r b Hk. destruct (Nat.eq_dec k n) as [->|Hkn]; [|rewrite Ho in Hk by done; eauto]. rewrite Hr in Hk. injection Hk as <-.
    assert (Hb : StronglySorted lt (rd_of b r0) /\ forall m, In m (rd_of b r0) -> (m < i)%nat).
    { destruct Hr0 as [Hr0|[_ ->]]; [|destruct b; split; [constructor|done|constructor|done]]. split; [eauto|]. intros m Hm. apply (Hold m r0); [apply In_round_all|]; eauto. }
    destruct Hb as [Hb1 Hb2]. destruct a, b; cbn [rd_add rd_of rd_skip rd_replace] in *; auto using sorted_snoc.
  - intros k r b m Hk Hm. destruct (Nat.eq_dec k n) as [->|Hkn]; [|rewrite Ho in Hk by done; eauto]. rewrite Hr in Hk. injection Hk as <-.
    apply In_rd_add in Hm as [Hm|[-> ->]]; [|eauto]. apply (H6 n r0 b m); [|done]. apply (Hr0' m), In_round_all. eauto.
  - intros k r m ref Hk Hm Href.
    assert (Hor : m = i /\ k = n \/ exists r', fo_rounds f !! k = Some r' /\ In m (round_all r')).
    { destruct (Nat.eq_dec k n) as [->|Hkn]; [|right; exists r; rewrite <- Ho by done; auto]. rewrite Hr in Hk. injection Hk as <-.
      apply In_round_add in Hm as [Hm|]; [right; exists r0; split; [now apply (Hr0' m)|done]|auto]. }
    destruct Hor as [[-> ->]|(r' & Hk' & Hm')].
    + apply Hkey in Href as [Hk1 ->]. destruct Hs as [[Hk2 _]|(_ & -> & _)]; [congruence|]. rewrite seen_get_cons, (proj2 (ref_eqb_eq _ _) eq_refl). eauto.
    + destruct (H7 _ _ _ _ Hk' Hm' Href) as (s & Hs1 & Hs2). destruct Hs as [[_ ->]|(Hk1 & -> & Hlt)]; [eauto|]. rewrite seen_get_cons.
      destruct (ref_eqb ref (ref_of p)) eqn:Er; [|eauto]. apply ref_eqb_eq in Er as ->. eexists. split; [reflexivity|]. cbn. specialize (Hlt s Hs1). lia.
  - intros k r m m' ref Hk Hm Hm' Hf Hf'. destruct (Nat.eq_dec k n) as [->|Hkn]; [|rewrite Ho in Hk by done; eauto]. rewrite Hr in Hk. injection Hk as <-.
    assert (Hno : forall z, In z (round_all r0) -> keyed dps z ref -> keyed dps i ref -> False).
    { intros z Hz Hzr (Hk1 & ->)%Hkey. destruct (H7 n r0 z _ (Hr0' z Hz) Hz Hzr) as (s & Hs1 & Hs2). destruct Hs as [[Hk2 _]|(_ & _ & Hlt)]; [congruence|].
      specialize (Hlt s Hs1). lia. }
    apply In_round_add in Hm as [Hm| ->], Hm' as [Hm'| ->]; [|exfalso; eauto|exfalso; eauto|done]. apply (H8 n r0 m m' ref); auto. now apply (Hr0' m).
Qed.

Lemma fold_one_folding dps i p a f : folding dps i f -> dps !! i = Some (p, a) -> exists f', fold_one dps i (p, a) f = Some f' /\ folding dps (S i) f'.
Proof.
  intros Hf Hi. unfold fold_one. destruct (String.eqb_spec (ip_UniqueKey p) "") as [Ek|Ek].
  - destruct (place_folding dps i p a f 0 (fo_seen f) Hf Hi) as (rounds & -> & H); [lia| |eauto]. left. unfold has_key. now rewrite Ek.
  - assert (Hk : has_key p = true) by (unfold has_key; now apply String.eqb_neq in Ek as ->).
    destruct (seen_get (ref_of p) (fo_seen f)) as [s|] eqn:Es.
    + destruct (fg_seen _ _ _ Hf _ _ Es) as (L1 & L2 & K). destruct (sameStates _ _) eqn:Est.
      * eexists. split; [reflexivity|]. destruct Hf as [H1 H2 H3 H4 H5 H9 H6 H7 H8]. split; cbn [fo_rounds fo_dupOf fo_seen]; try done.
        -- rewrite List.length_app. simpl. lia.
        -- intros ref s'. rewrite seen_get_cons. destruct (ref_eqb ref (ref_of p)) eqn:Er.
           ++ apply ref_eqb_eq in Er as ->. intros [= <-]. cbn. split_and!; [lia|lia|exists p, a; auto].
           ++ intros Hg. destruct (H2 _ _ Hg) as (A & B & C). split_and!; [lia|lia|done].
        -- intros m j. rewrite snoc_lookup, H1. destruct (Nat.eqb_spec m i) as [->|]; [|apply H3]. intros [= <-]. split; [done|].
           exists (ref_of p). split; [exists p, a; auto|]. split; [done|]. unfold finished_of at 2. now rewrite Hi.
        -- intros m. rewrite snoc_lookup, H1. destruct (Nat.eqb_spec m i) as [->|]; [|apply H4]. split; [done|]. intros Hx. apply H4 in Hx.
           apply lookup_lt_Some in Hx. lia.
        -- intros n r m ref Hn Hm Href. destruct (H7 _ _ _ _ Hn Hm Href) as (s' & Hs1 & Hs2). rewrite seen_get_cons.
           destruct (ref_eqb ref (ref_of p)) eqn:Er; [|eauto]. apply ref_eqb_eq in Er as ->. eexists. split; [reflexivity|]. cbn. congruence.
      * destruct (place_folding dps i p a f (S (ks_round s)) ((ref_of p, mkKeyState i (S (ks_round s))) :: fo_seen f) Hf Hi) as (rounds & -> & H); [lia| |eauto].
        right. split_and!; [done|done|]. intros s' E. rewrite Es in E. injection E as <-. lia.
    + destruct (place_folding dps i p a f 0 ((ref_of p, mkKeyState i 0) :: fo_seen f) Hf Hi) as (rounds & -> & H); [lia| |eauto].
      right. split_and!; [done|done|]. intros s' E. congruence.
Qed.

Lemma fold_from_folding dps rest : forall i f, (forall k, dps !! (i + k)%nat = rest !! k) -> folding dps i f ->
  exists f', fold_from dps i rest f = Some f' /\ folding dps (i + List.length rest) f'.
Proof.
  induction rest as [|[p a] rest IH]; intros i f Hr Hf; cbn [fold_from List.length]; [exists f; rewrite Nat.add_0_r; auto|].
  destruct (fold_one_folding dps i p a f Hf) as (f1 & -> & Hf1); [rewrite <- (Nat.add_0_r i), Hr; reflexivity|].
  destruct (IH (S i) f1) as (f' & -> & H); [|done|exists f'; split; [done|]; now rewrite Nat.add_succ_r]. intros k. rewrite Nat.add_succ_l, <- Nat.add_succ_r, Hr. reflexivity.
Qed.

(** Every call is folded. *)
Lemma fold_keys_folding dps : exists f, fold_keys dps = Some f /\ folding dps (List.length dps) f.
Proof.
  apply (fold_from_folding dps dps 0); [done|]. split; cbn; try done.
  - intros m. split; [done|]. intros (n & r & Hn & _). now rewrite lookup_nil in Hn.
  - constructor.
Qed.

(** ** Results *)

Lemma encode_all_length ps : forall js, encode_all ps = Ok js -> List.length js = List.length ps.
Proof.
  induction ps as [|p ps IH]; cbn [encode_all]; intros js E; [injection E as <-; done|]. destruct (encodeInsert p) as [j|]; [|discriminate E].
  destruct (encode_all ps) as [r|]; [|discriminate E]. injection E as <-. cbn [List.length]. f_equal. auto.
Qed.

Lemma JobInsertMany_length ps o x d rows d' : JobInsertMany ps o x d = (Ok rows, d') -> List.length rows = List.length ps.
Proof.
  unfold JobInsertMany. destruct ps as [|p ps]; [intros [= <- _]; done|]. destruct (encode_all (p :: ps)) as [js|] eqn:Ee; [|discriminate].
  unfold write. match goal with |- context [match ?m x d with _ => _ end] => destruct (m x d) as [[a d1]|] eqn:E end; [|discriminate].
  intros [= -> <-]. apply bind_Ok in E as (rs & d2 & Er & E).
  apply bind_Ok in E as (u & d3 & _ & E). unfold ret in E. injection E as -> _. apply mapM_length in Er. rewrite Er. now apply encode_all_length.
Qed.

Lemma put_results_length idx : forall rows results, List.length (put_results idx rows results) = List.length results.
Proof. induction idx as [|i idx IH]; intros [|r rows] results; cbn [put_results]; [done..|]. now rewrite IH, length_insert. Qed.

Lemma put_results_other idx : forall rows results m, ~ In m idx -> put_results idx rows results !! m = results !! m.
Proof.
  induction idx as [|i idx IH]; intros [|r rows] results m Hm; cbn [put_results]; [done..|].
  rewrite IH by (intros H; apply Hm; now right). apply list_lookup_insert_ne. intros ->. apply Hm. now left.
Qed.

Lemma put_results_at idx : forall rows results k m r, List.NoDup idx -> idx !! k = Some m -> rows !! k = Some r -> (m < List.length results)%nat ->
  put_results idx rows results !! m = Some (Some r).
Proof.
  induction idx as [|i idx IH]; intros [|r0 rows] results k m r Hn Hi Hr Hm; [done..|]. inversion Hn as [|? ? Hin Hn']; subst.
  cbn [put_results]. destruct k as [|k]; cbn in Hi, Hr.
  - injection Hi as ->. injection Hr as ->. rewrite put_results_other by done. now apply list_lookup_insert_eq.
  - apply (IH _ _ k); auto. now rewrite length_insert.
Qed.

Lemma params_at_length dps idx : (forall m, In m idx -> is_Some (dps !! m)) -> List.length (params_at dps idx) = List.length idx.
Proof.
  induction idx as [|i idx IH]; intros H; [done|]. unfold params_at in *. cbn [List.flat_map]. destruct (H i (or_introl eq_refl)) as [[p a] ->].
  cbn [app List.length]. f_equal. apply IH. intros m Hm. apply H. now right.
Qed.

Lemma NoDup_parts {A} (l m : list A) : List.NoDup (l ++ m) -> List.NoDup l /\ List.NoDup m /\ (forall x, In x l -> ~ In x m).
Proof.
  induction l as [|a l IH]; cbn [app]; intros H; [split_and!; [constructor|done|done]|]. inversion H as [|? ? Ha Hl]; subst.
  destruct (IH Hl) as (H1 & H2 & H3). split_and!; [constructor; [intros Hin; apply Ha, in_app_iff; auto|done]|done|].
  intros x [<-|Hx]; [intros Hin; apply Ha, in_app_iff; auto|auto].
Qed.

(** What the calls leave: every input of a call has a result, or a call failed. *)
Lemma run_calls_results inTx dps calls : forall x n results d res d', List.NoDup (List.concat (List.map snd calls)) ->
  (forall c m, In c calls -> In m (snd c) -> is_Some (dps !! m) /\ (m < List.length results)%nat) ->
  run_calls inTx dps calls x n results d = (res, d') ->
  match res with
  | Err e => exists c k d1, In c calls /\ JobInsertMany (params_at dps (snd c)) (mkJobInsertOpts inTx (fst c)) (x k) d1 = (Err e, d')
  | Ok out => List.length out = List.length results
      /\ (forall m, In m (List.concat (List.map snd calls)) -> exists r, out !! m = Some (Some r))
      /\ (forall m, ~ In m (List.concat (List.map snd calls)) -> out !! m = results !! m)
  end.
Proof.
  induction calls as [|[a idx] calls IH]; intros x n results d res d' Hn Hin E; cbn [run_calls] in E; [injection E as <- <-; done|].
  cbn [List.map List.concat snd] in *. destruct (JobInsertMany _ _ _ _) as [[rows|e] d1] eqn:Ej.
  - destruct (NoDup_parts idx (List.concat (List.map snd calls)) Hn) as (Hn1 & Hn2 & Hdis).
    apply IH in E; [|done|].
    + destruct res as [out|e]; [|destruct E as (c & k & d2 & Hc & E); exists c, k, d2; split; [now right|done]].
      destruct E as (E1 & E2 & E3). rewrite put_results_length in E1. split; [done|]. split.
      * intros m [Hm|Hm]%in_app_iff; [|auto]. rewrite E3 by (apply Hdis, Hm).
        apply list_elem_of_In, list_elem_of_lookup in Hm as [k Hk]. apply JobInsertMany_length in Ej.
        rewrite params_at_length in Ej by (intros z Hz; now apply (Hin (a, idx) z (or_introl eq_refl))).
        destruct (lookup_lt_is_Some_2 rows k) as [r Hr]; [rewrite Ej; now apply lookup_lt_Some in Hk|]. exists r.
        apply (put_results_at idx rows results k); auto. apply (Hin (a, idx) m (or_introl eq_refl)). apply list_elem_of_In, list_elem_of_lookup. eauto.
      * intros m Hm. rewrite E3, put_results_other; [done|intros H; apply Hm, in_app_iff; auto|intros H; apply Hm, in_app_iff; auto].
    + intros c m Hc Hm. rewrite put_results_length. apply (Hin c m); [now right|done].
  - injection E as <- <-. exists (a, idx), n, d. split; [now left|done].
Qed.

(** The inputs of the calls are those placed. *)
Lemma round_calls_perm swap n r : Permutation (List.concat (List.map snd (round_calls swap n r))) (round_all r).
Proof.
  unfold round_calls, round_all. destruct (swap n), (rd_skip r) as [|i s], (rd_replace r) as [|j t];
    cbn [List.filter snd List.map List.concat]; rewrite ?app_nil_r; try done; apply Permutation_app_comm.
Qed.

Lemma calls_from_perm swap rounds : forall n, Permutation (List.concat (List.map snd (calls_from swap n rounds))) (List.concat (List.map round_all rounds)).
Proof.
  induction rounds as [|r rounds IH]; intros n; [done|]. cbn [calls_from List.map List.concat]. rewrite List.map_app, List.concat_app.
  apply Permutation_app; [apply round_calls_perm|apply IH].
Qed.

Lemma In_calls swap rounds a idx : forall n, In (a, idx) (calls_from swap n rounds) -> exists k r, rounds !! k = Some r /\ idx = rd_of a r.
Proof.
  induction rounds as [|r rounds IH]; intros n Hin; [done|]. cbn [calls_from] in Hin. apply in_app_iff in Hin as [Hin|Hin].
  - exists 0%nat, r. split; [done|]. unfold round_calls in Hin. apply filter_In in Hin as [Hin _].
    destruct (swap n); destruct Hin as [[= <- <-]|[[= <- <-]|[]]]; reflexivity.
  - apply IH in Hin as (k & r' & Hk & ->). now exists (S k), r'.
Qed.

Lemma fill_dups_total dupOf : forall i results,
  (forall k j, dupOf !! k = Some (Some j) -> (j < i + k)%nat /\ (i + k < List.length results)%nat) ->
  (forall m, (m < i)%nat -> exists r, results !! m = Some (Some r)) ->
  (forall k, dupOf !! k = Some None -> exists r, results !! (i + k)%nat = Some (Some r)) ->
  exists out, fill_dups i dupOf results = Some out /\ List.length out = List.length results
    /\ (forall m, (m < i + List.length dupOf)%nat -> exists r, out !! m = Some (Some r))
    /\ (forall m, (forall k j, dupOf !! k = Some (Some j) -> m <> (i + k)%nat) -> out !! m = results !! m)
    /\ (forall k j r, dupOf !! k = Some (Some j) -> out !! j = Some (Some r) -> out !! (i + k)%nat = Some (Some (mkJobInsertResult (ir_Job r) true))).
Proof.
  induction dupOf as [|o dupOf IH]; intros i results Hlt Hlow Hnone.
  { exists results. cbn [fill_dups List.length]. rewrite Nat.add_0_r. split_and!; auto. intros k j r Hk. now rewrite lookup_nil in Hk. }
  set (res1 := match o with Some j => match results !! j with Some (Some r) => <[i := Some (mkJobInsertResult (ir_Job r) true)]> results | _ => results end | None => results end).
  assert (Hlen : List.length res1 = List.length results).
  { unfold res1. destruct o as [j|]; [|done]. destruct (results !! j) as [[r|]|]; [apply length_insert|done..]. }
  assert (Hother : forall m, m <> i -> res1 !! m = results !! m).
  { intros m Hm. unfold res1. destruct o as [j|]; [|done]. destruct (results !! j) as [[r|]|]; try done. now apply list_lookup_insert_ne. }
  assert (Hi : exists r, res1 !! i = Some (Some r)).
  { unfold res1. destruct o as [j|].
    - destruct (Hlt 0%nat j eq_refl) as [Hj Hi]. rewrite Nat.add_0_r in *. destruct (Hlow j Hj) as [r ->]. eexists. now apply list_lookup_insert_eq.
    - destruct (Hnone 0%nat eq_refl) as [r Hr]. rewrite Nat.add_0_r in Hr. eauto. }
  assert (Hstep : fill_dups i (o :: dupOf) results = fill_dups (S i) dupOf res1).
  { unfold res1. cbn [fill_dups]. destruct o as [j|]; [|done]. destruct (Hlt 0%nat j eq_refl) as [Hj _]. rewrite Nat.add_0_r in Hj.
    now destruct (Hlow j Hj) as [r ->]. }
  destruct (IH (S i) res1) as (out & E & L & F1 & F2 & F3).
  - intros k j Hk. rewrite Hlen. destruct (Hlt (S k) j Hk). lia.
  - intros m Hm. destruct (Nat.eq_dec m i) as [->|Hne]; [done|]. rewrite Hother by done. apply Hlow. lia.
  - intros k Hk. rewrite Hother by lia. destruct (Hnone (S k) Hk) as [r Hr]. exists r. now rewrite Nat.add_succ_l, <- Nat.add_succ_r.
  - exists out. rewrite Hstep, Hlen in *. cbn [List.length]. split_and!; [done|done| | |].
    + intros m Hm. apply F1. lia.
    + intros m Hm. rewrite F2; [|intros k j Hk; specialize (Hm (S k) j Hk); lia]. destruct (Nat.eq_dec m i) as [->|Hne]; [|now apply Hother].
      destruct o as [j|]; [exfalso; apply (Hm 0%nat j eq_refl); lia|done].
    + intros [|k] j r Hk Hr; [|rewrite Nat.add_succ_r, <- Nat.add_succ_l; eauto]. cbn in Hk. injection Hk as ->. rewrite Nat.add_0_r.
      destruct (Hlt 0%nat j eq_refl) as [Hj Hl]. rewrite Nat.add_0_r in *.
      rewrite F2 in Hr by (intros k z Hk; lia). rewrite F2 by (intros k z Hk; lia). rewrite Hother in Hr by lia. unfold res1. rewrite Hr. now apply list_lookup_insert_eq.
Qed.

Lemma all_results_Some results : (forall m, (m < List.length results)%nat -> exists r, results !! m = Some (Some r)) ->
  exists rs, all_results results = Some rs /\ results = List.map Some rs.
Proof.
  induction results as [|o results IH]; intros H; [now exists []|]. destruct (H 0%nat) as [r Hr]; [simpl; lia|]. cbn in Hr. injection Hr as ->.
  destruct IH as (rs & E & ->); [intros m Hm; apply (H (S m)); simpl; lia|]. exists (r :: rs). cbn [all_results]. now rewrite E.
Qed.

Lemma calls_ok dps f swap : folding dps (List.length dps) f -> let calls := calls_from swap 0 (fo_rounds f) in
  List.NoDup (List.concat (List.map snd calls))
  /\ (forall m, In m (List.concat (List.map snd calls)) <-> fo_dupOf f !! m = Some None)
  /\ (forall a idx m, In (a, idx) calls -> In m idx -> exists p, dps !! m = Some (p, a)).
Proof.
  intros Hf calls. pose proof (calls_from_perm swap (fo_rounds f) 0) as Hp. split_and!.
  - unfold calls. rewrite Hp. apply (fg_once _ _ _ Hf).
  - intros m. rewrite (fg_placed _ _ _ Hf). unfold calls. split.
    + intros Hm. apply (Permutation_in _ Hp), in_concat in Hm as (l & (r & <- & Hr)%in_map_iff & Hm).
      apply list_elem_of_In, list_elem_of_lookup in Hr as [n Hn]. eauto.
    + intros (n & r & Hn & Hm). apply (Permutation_in _ (Permutation_sym Hp)), in_concat. exists (round_all r). split; [|done].
      apply in_map, list_elem_of_In, list_elem_of_lookup. eauto.
  - intros a idx m Hin Hm. apply In_calls in Hin as (k & r & Hk & ->). now apply (fg_action _ _ _ Hf k r a m).
Qed.

(** C38:
    A call of InsertMany answers every input: whatever unique keys repeat in it, its folding never fails, no
    statement it runs holds a key twice or mixes conflict actions, each takes its inputs in order, and it returns either the error of one of its
    statements or a result for each input, in order, where an input folded into an earlier one of its kind and
    key, that counts the same finished states, reports that one's job as a duplicate. *)
Theorem insert_answers_all inTx dps swap x d :
  exists f, fold_keys dps = Some f
  /\ (forall n r m m' ref, fo_rounds f !! n = Some r -> In m (round_all r) -> In m' (round_all r) -> keyed dps m ref -> keyed dps m' ref -> m = m')
  /\ (forall a idx, In (a, idx) (calls_from swap 0 (fo_rounds f)) -> StronglySorted lt idx /\ forall m, In m idx -> exists p, dps !! m = Some (p, a))
  /\ (forall m j, fo_dupOf f !! m = Some (Some j) -> (j < m)%nat /\ exists ref, keyed dps m ref /\ keyed dps j ref
        /\ sameStates (finished_of dps j) (finished_of dps m) = true)
  /\ match insert_built inTx dps swap x d with
     | (Err e, d') => exists c k d1, In c (calls_from swap 0 (fo_rounds f))
         /\ JobInsertMany (params_at dps (snd c)) (mkJobInsertOpts inTx (fst c)) (x k) d1 = (Err e, d')
     | (Ok res, _) => List.length (in_results res) = List.length dps
         /\ forall m j r, fo_dupOf f !! m = Some (Some j) -> in_results res !! j = Some r ->
              in_results res !! m = Some (mkJobInsertResult (ir_Job r) true)
     end.
Proof.
  destruct (fold_keys_folding dps) as (f & Ef & Hf). exists f. destruct (calls_ok dps f swap Hf) as (C1 & C2 & C3).
  split; [done|]. split; [exact (fg_apart _ _ _ Hf)|]. split; [|split; [exact (fg_dup _ _ _ Hf)|]].
  { intros a idx Hin. split; [|intros m Hm; now apply (C3 a idx m)]. apply In_calls in Hin as (k & r & Hk & ->). now apply (fg_sorted _ _ _ Hf k). }
  unfold insert_built. rewrite Ef. destruct (run_calls _ _ _ _ _ _ _) as [[out|e] d1] eqn:Er.
  2: { apply run_calls_results in Er; [exact Er|exact C1|]. intros [a idx] m Hin Hm. destruct (C3 a idx m Hin Hm) as [p Hp].
       rewrite Hp, List.repeat_length. split; [done|]. now apply lookup_lt_Some in Hp. }
  apply run_calls_results in Er as (L & R1 & _); [|exact C1|].
  2: { intros [a idx] m Hin Hm. destruct (C3 a idx m Hin Hm) as [p Hp]. rewrite Hp, List.repeat_length. split; [done|]. now apply lookup_lt_Some in Hp. }
  rewrite List.repeat_length in L. destruct (fill_dups_total (fo_dupOf f) 0 out) as (out' & -> & L' & F1 & _ & F3).
  - intros k j Hk. rewrite Nat.add_0_l. destruct (fg_dup _ _ _ Hf k j Hk) as [Hj _]. split; [done|]. apply lookup_lt_Some in Hk.
    rewrite (fg_length _ _ _ Hf) in Hk. lia.
  - intros m Hm. lia.
  - intros k Hk. apply R1, C2, Hk.
  - rewrite (fg_length _ _ _ Hf), Nat.add_0_l in F1. destruct (all_results_Some out') as (rs & -> & Ers); [intros m Hm; apply F1; lia|].
    cbn [in_results]. rewrite Ers in L'. rewrite List.length_map in L'. split; [lia|]. intros m j r Hd Hj.
    specialize (F3 m j r Hd). rewrite Nat.add_0_l, Ers, !list_lookup_fmap in F3. rewrite Hj in F3. specialize (F3 eq_refl).
    destruct (rs !! m) as [r'|]; [|discriminate F3]. cbn in F3. congruence.
Qed.
