(* ===== verification/OneAtATime.v ===== *)
(** * A call's jobs, one at a time: theorems on Inserting.v

    insertDirect folds the inputs of a call that repeat a unique key, and says
    the answers are those of inserting the jobs one at a time: with conflicts
    skipped they are, and the database is the same. *)

From Stdlib Require Import List ZArith Lia Bool String.
From stdpp Require Import base tactics list.
From S2P Require Import Prelude Sql Types Store Logic JobId Insert Workflow Unique Inserting InsertSpec InsertingSpec.
Import ListNotations.
Local Open Scope string_scope.
Local Open Scope Z_scope.
Local Open Scope list_scope.

(** ** A repeated key is answered like the first *)

(** A job whose insert reports [v] and changes nothing. *)
Definition settled (x : w) (d : DB) (j : jobInsert) (v : JobView) : Prop :=
  insertOne ConflictSkip j x d = Ok (mkJobInsertResult v true, d).

(** The finished duplicate of a job, which its states find. *)
Definition finished_dup (j : jobInsert) (d : DB) : option HistoryRow :=
  hd_error (order_by later_finished (sel (fun h => unique_is (i_kind j) (i_uniqueKey j) (h_job h)
    && existsb (state_eqb (j_State (h_job h))) (i_uniqueFinished j)) (db_history d))).

Lemma finished_dup_nil j d : i_uniqueFinished j = [] -> finished_dup j d = None.
Proof.
  intros E. unfold finished_dup. rewrite E. replace (sel _ (db_history d)) with (@nil HistoryRow); [done|].
  induction (db_history d) as [|h t IH]; [done|]. cbn. rewrite andb_false_r. exact IH.
Qed.

(** What a skipping insert of a keyed job outside batches does. *)
Lemma insertOne_skip j x d : i_uniqueKey j <> "" -> i_batchID j = 0 ->
  insertOne ConflictSkip j x d =
    match one (unique_is (i_kind j) (i_uniqueKey j)) (db_jobs d), finished_dup j d with
    | Some r, _ => Ok (mkJobInsertResult (live_view r) true, d)
    | None, Some h => Ok (mkJobInsertResult (history_view h) true, d)
    | None, None => (let* job := insertJob j in ret (mkJobInsertResult (live_view job) false)) x d
    end.
Proof.
  intros Hk Hb. apply String.eqb_neq in Hk. unfold insertOne. rewrite Hk. unfold bind at 1, get at 1.
  destruct (one _ (db_jobs d)) as [r|]; [done|]. destruct (i_uniqueFinished j) as [|s ss] eqn:Es; [now rewrite finished_dup_nil|].
  unfold bind at 1, finishedDuplicate, get at 1. fold (finished_dup j d). destruct (finished_dup j d) as [h|]; [|done]. now rewrite Hb.
Qed.

Lemma insertJob_added j x d r d' : insertJob j x d = Ok (r, d') ->
  db_jobs d' = db_jobs d ++ [r] /\ db_history d' = db_history d /\ j_Kind r = i_kind j /\ j_UniqueKey r = nullable (i_uniqueKey j).
Proof.
  intros E. assert (Hh : respects (same_of db_history) (insertJob j)) by (unfold insertJob, newID; frame). apply Hh in E as Eh.
  apply insertJob_row in E as (seq & id & exp & -> & -> & _). auto.
Qed.

Lemma one_app {A} (p : A -> bool) l m : one p (l ++ m) = match one p l with Some a => Some a | None => one p m end.
Proof. unfold one. induction l as [|a l IH]; cbn; [done|]. now destruct (p a). Qed.

(** A keyed job that was inserted, or found, is found again. *)
Lemma insertOne_settles j x d r d' : i_uniqueKey j <> "" -> i_batchID j = 0 -> insertOne ConflictSkip j x d = Ok (r, d') -> settled x d' j (ir_Job r).
Proof.
  intros Hk Hb E. pose proof E as E'. rewrite insertOne_skip in E by done. unfold settled. destruct (one _ (db_jobs d)) as [r0|] eqn:Er; [|destruct (finished_dup j d) as [h|]].
  - injection E as <- <-. exact E'.
  - injection E as <- <-. exact E'.
  - apply bind_Ok in E as (job & d1 & (Ej & _ & Ekd & Eu)%insertJob_added & E). inv_w. rewrite insertOne_skip by done.
    rewrite Ej, one_app, Er. cbn. unfold unique_is. rewrite Ekd, Eu, String.eqb_refl. unfold nullable. apply String.eqb_neq in Hk as Hk'. rewrite Hk'. cbn.
    now rewrite String.eqb_refl.
Qed.

Definition same_input (a b : jobInsert) : Prop :=
  i_kind a = i_kind b /\ i_uniqueKey a = i_uniqueKey b /\ (forall s, existsb (state_eqb s) (i_uniqueFinished a) = existsb (state_eqb s) (i_uniqueFinished b)).

Lemma filter_same {A} (p q : A -> bool) l : (forall a, p a = q a) -> List.filter p l = List.filter q l.
Proof. intros H. induction l as [|a l IH]; cbn; [done|]. rewrite H, IH. done. Qed.

Lemma settled_same x d a b v : same_input a b -> i_uniqueKey a <> "" -> i_batchID a = 0 -> i_batchID b = 0 -> settled x d a v -> settled x d b v.
Proof.
  unfold settled. intros (Ek & Eu & Es) Hk Ha Hb H. assert (Hk' : i_uniqueKey b <> "") by congruence. rewrite insertOne_skip in * by done.
  assert (Ef : finished_dup b d = finished_dup a d).
  { unfold finished_dup, sel. rewrite Ek, Eu. do 2 f_equal. apply filter_same. intros h. now rewrite Es. }
  rewrite Ef, <- Ek, <- Eu. destruct (one _ (db_jobs d)); [done|]. destruct (finished_dup a d); [done|].
  apply bind_Ok in H as (job & d1 & _ & H). unfold ret in H. discriminate H.
Qed.

(** Other inserts keep a settled job settled. *)
Lemma settled_keeps x d j v k r d' : i_uniqueKey j <> "" -> i_batchID j = 0 -> i_batchID k = 0 ->
  (i_kind j = i_kind k -> i_uniqueKey j = i_uniqueKey k -> same_input j k) ->
  settled x d j v -> insertOne ConflictSkip k x d = Ok (r, d') -> settled x d' j v.
Proof.
  intros Hk Hj Hb Hs H E.
  assert (Hadd : forall m, (let* job := insertJob k in ret (mkJobInsertResult (live_view job) false)) x d = Ok m ->
    (i_kind j = i_kind k -> i_uniqueKey j = i_uniqueKey k -> False) -> settled x (snd m) j v).
  { intros [r' d1] Em Hne. apply bind_Ok in Em as (job & d2 & (Ej & Eh & Ekd & Eu)%insertJob_added & Em). inv_w. cbn [snd]. unfold settled in *.
    rewrite insertOne_skip in * by done. rewrite Ej, one_app. unfold finished_dup in *. rewrite Eh. destruct (one _ (db_jobs d)) as [r0|]; [congruence|].
    replace (one _ [job]) with (@None JobRow); [destruct (hd_error _); [congruence|]|].
    - apply bind_Ok in H as (? & ? & _ & H). unfold ret in H. discriminate H.
    - cbn. unfold unique_is. rewrite Ekd, Eu. destruct (String.eqb_spec (i_kind k) (i_kind j)) as [E1|]; [|done]. unfold nullable.
      destruct (String.eqb (i_uniqueKey k) ""); [done|]. cbn. destruct (String.eqb_spec (i_uniqueKey k) (i_uniqueKey j)); [|done]. exfalso. auto. }
  destruct (String.eqb_spec (i_uniqueKey k) "") as [Ek|Ek].
  - unfold insertOne in E. rewrite Ek in E. apply (Hadd (r, d') E). congruence.
  - destruct (String.eqb_spec (i_kind j) (i_kind k)) as [E1|N1]; [destruct (String.eqb_spec (i_uniqueKey j) (i_uniqueKey k)) as [E2|N2]|].
    + assert (Hk2 : settled x d k v) by (eapply settled_same; eauto). unfold settled in Hk2. rewrite Hk2 in E. now injection E as _ <-.
    + rewrite insertOne_skip in E by done. destruct (one _ (db_jobs d)); [now injection E as _ <-|]. destruct (finished_dup k d); [now injection E as _ <-|].
      apply (Hadd (r, d') E). congruence.
    + rewrite insertOne_skip in E by done. destruct (one _ (db_jobs d)); [now injection E as _ <-|]. destruct (finished_dup k d); [now injection E as _ <-|].
      apply (Hadd (r, d') E). congruence.
Qed.

(** ** Leaving the repeats out *)

(** The inputs that are not folded, the places they have, and the results with the folded filled in. *)
Fixpoint kept {A} (dups : list (option nat)) (l : list A) : list A :=
  match dups, l with
  | None :: dups, a :: l => a :: kept dups l
  | Some _ :: dups, _ :: l => kept dups l
  | _, _ => []
  end.
Fixpoint places (i : nat) (dups : list (option nat)) : list nat :=
  match dups with [] => [] | None :: dups => i :: places (S i) dups | Some _ :: dups => places (S i) dups end.
Fixpoint weave (dups : list (option nat)) (prev rows : list JobInsertResult) : list JobInsertResult :=
  match dups, rows with
  | None :: dups, r :: rows => r :: weave dups (prev ++ [r]) rows
  | Some j :: dups, rows =>
      match prev !! j with
      | Some r => let s := mkJobInsertResult (ir_Job r) true in s :: weave dups (prev ++ [s]) rows
      | None => []
      end
  | _, _ => []
  end.

(** Every input keyed and done so far is settled as it was answered. *)
Definition all_settled (x : w) (d : DB) (js : list jobInsert) (prev : list JobInsertResult) : Prop :=
  forall m j r, js !! m = Some j -> prev !! m = Some r -> i_uniqueKey j <> "" -> settled x d j (ir_Job r).

Lemma all_settled_insert x d js prev k r d' : (forall j, In j js -> i_batchID j = 0) ->
  (forall j j', In j js -> In j' js -> i_uniqueKey j <> "" -> i_kind j = i_kind j' -> i_uniqueKey j = i_uniqueKey j' -> same_input j j') ->
  js !! List.length prev = Some k -> all_settled x d js prev -> insertOne ConflictSkip k x d = Ok (r, d') -> all_settled x d' js (prev ++ [r]).
Proof.
  intros Hb Hs Hk Hall E m j r' Hj Hr Hu. assert (Hin : In j js) by (apply list_elem_of_In, list_elem_of_lookup; eauto).
  assert (Hin' : In k js) by (apply list_elem_of_In, list_elem_of_lookup; eauto).
  rewrite snoc_lookup in Hr. destruct (Nat.eqb_spec m (List.length prev)) as [->|Hne].
  - injection Hr as <-. rewrite Hk in Hj. injection Hj as <-. eapply insertOne_settles; eauto.
  - eapply (settled_keeps x d j (ir_Job r') k r d'); eauto.
Qed.

(** Inserting every input is inserting those kept. *)
Lemma mapM_kept x js dups : (forall j, In j js -> i_batchID j = 0) ->
  (forall j j', In j js -> In j' js -> i_uniqueKey j <> "" -> i_kind j = i_kind j' -> i_uniqueKey j = i_uniqueKey j' -> same_input j j') ->
  List.length dups = List.length js ->
  (forall m i, dups !! m = Some (Some i) -> (i < m)%nat /\ forall a b, js !! i = Some a -> js !! m = Some b ->
     i_uniqueKey a <> "" /\ i_kind a = i_kind b /\ i_uniqueKey a = i_uniqueKey b) ->
  forall rest prev ds d, (forall k, js !! (List.length prev + k)%nat = rest !! k) -> (forall k, dups !! (List.length prev + k)%nat = ds !! k) ->
  List.length ds = List.length rest -> all_settled x d js prev ->
  mapM (insertOne ConflictSkip) rest x d =
    match mapM (insertOne ConflictSkip) (kept ds rest) x d with Ok (rows, d') => Ok (weave ds prev rows, d') | Err e => Err e end.
Proof.
  intros Hb Hs _ Hd. induction rest as [|j rest IH]; intros prev ds d Hr Hds Hlen Hall; [destruct ds; [done|discriminate Hlen]|].
  destruct ds as [|o ds]; [discriminate Hlen|]. injection Hlen as Hlen.
  assert (Hj : js !! List.length prev = Some j) by (rewrite <- (Nat.add_0_r (List.length prev)), Hr; done).
  assert (Hnext : forall r, (forall k, js !! (List.length (prev ++ [r]) + k)%nat = rest !! k) /\ (forall k, dups !! (List.length (prev ++ [r]) + k)%nat = ds !! k)).
  { intros r. rewrite List.length_app. cbn [List.length]. split; intros k; rewrite <- Nat.add_assoc, ?Hr, ?Hds; reflexivity. }
  cbn [mapM kept]. destruct o as [i|].
  - destruct (Hd (List.length prev) i) as [Hi Hsame]; [rewrite <- (Nat.add_0_r (List.length prev)), Hds; done|].
    destruct (lookup_lt_is_Some_2 prev i Hi) as [r Hdone].
    assert (Hai : exists a, js !! i = Some a) by (apply lookup_lt_is_Some_2; apply lookup_lt_Some in Hj; lia). destruct Hai as [a Ha].
    destruct (Hsame a j Ha Hj) as (Hu & Ek & Eu). assert (In a js /\ In j js) as [Ina Inj] by (split; apply list_elem_of_In, list_elem_of_lookup; eauto).
    assert (Hset : settled x d j (ir_Job r)) by (apply (settled_same x d a j); eauto).
    unfold bind at 1. unfold settled in Hset. rewrite Hset. unfold bind at 1.
    destruct (Hnext (mkJobInsertResult (ir_Job r) true)) as [N1 N2]. rewrite (IH (prev ++ [mkJobInsertResult (ir_Job r) true]) ds d N1 N2 Hlen).
    2: { eapply all_settled_insert; eauto. }
    destruct (mapM _ (kept ds rest) x d) as [[rows d']|e]; [|done]. unfold ret. cbn [weave]. now rewrite Hdone.
  - cbn [mapM]. unfold bind at 1 3. destruct (insertOne ConflictSkip j x d) as [[r d1]|e] eqn:E; [|done]. unfold bind at 1 2.
    destruct (Hnext r) as [N1 N2]. rewrite (IH (prev ++ [r]) ds d1 N1 N2 Hlen) by (eapply all_settled_insert; eauto).
    destruct (mapM _ (kept ds rest) x d1) as [[rows d']|e]; done.
Qed.

(** The results put in their places and the folded filled in, as insertDirect does. *)
Fixpoint spots (dups : list (option nat)) (rows : list JobInsertResult) : list (option JobInsertResult) :=
  match dups, rows with
  | None :: dups, r :: rows => Some r :: spots dups rows
  | Some _ :: dups, rows => None :: spots dups rows
  | _, _ => []
  end.

Lemma put_places dups : forall rows pre, List.length rows = List.length (places (List.length pre) dups) ->
  put_results (places (List.length pre) dups) rows (pre ++ List.repeat None (List.length dups)) = pre ++ spots dups rows.
Proof.
  induction dups as [|[j|] dups IH]; intros rows pre Hl; cbn [places List.length List.repeat spots] in *.
  - now destruct rows.
  - specialize (IH rows (pre ++ [None])). rewrite List.length_app, Nat.add_1_r, <- !app_assoc in IH. destruct rows; apply IH, Hl.
  - destruct rows as [|r rows]; [discriminate Hl|]. injection Hl as Hl. cbn [put_results].
    rewrite insert_app_r_alt, Nat.sub_diag by lia. cbn [insert list_insert]. specialize (IH rows (pre ++ [Some r])).
    rewrite List.length_app, Nat.add_1_r, <- !app_assoc in IH. apply IH, Hl.
Qed.

Lemma fill_weave dups : forall rows prev, (forall k j, dups !! k = Some (Some j) -> (j < List.length prev + k)%nat) ->
  List.length rows = List.length (places (List.length prev) dups) ->
  fill_dups (List.length prev) dups (List.map Some prev ++ spots dups rows) = Some (List.map Some (prev ++ weave dups prev rows)).
Proof.
  induction dups as [|[j|] dups IH]; intros rows prev Hj Hl; cbn [places List.length spots fill_dups weave] in *.
  - now rewrite !app_nil_r.
  - specialize (Hj 0%nat j eq_refl) as Hj0. rewrite Nat.add_0_r in Hj0. destruct (lookup_lt_is_Some_2 prev j Hj0) as [r Hr].
    assert (Hspot : spots (Some j :: dups) rows = None :: spots dups rows) by (now destruct rows).
    rewrite lookup_app_l by (now rewrite List.length_map). change (List.map Some prev !! j) with ((Some <$> prev) !! j). rewrite list_lookup_fmap, Hr. cbn [fmap option_fmap option_map].
    set (s := mkJobInsertResult (ir_Job r) true).
    replace (<[List.length prev := Some s]> _) with (List.map Some (prev ++ [s]) ++ spots dups rows).
    + specialize (IH rows (prev ++ [s])). rewrite List.length_app, Nat.add_1_r in IH. rewrite IH.
      * now rewrite <- app_assoc.
      * intros k i Hk. specialize (Hj (S k) i Hk). lia.
      * exact Hl.
    + rewrite insert_app_r_alt by (rewrite List.length_map; lia). rewrite List.length_map, Nat.sub_diag, List.map_app, <- app_assoc. now destruct rows.
  - destruct rows as [|r rows]; [discriminate Hl|]. injection Hl as Hl. specialize (IH rows (prev ++ [r])). rewrite List.length_app, Nat.add_1_r in IH.
    rewrite List.map_app, <- !app_assoc in IH. cbn [List.map app] in IH. rewrite IH; [done| |exact Hl]. intros k i Hk. specialize (Hj (S k) i Hk). lia.
Qed.

Lemma all_results_map rs : all_results (List.map Some rs) = Some rs.
Proof. induction rs as [|r rs IH]; cbn; [done|]. now rewrite IH. Qed.

(** A call whose inputs all skip and whose keys count the same states is one round. *)
Definition one_round (l : list nat) : list round := match l with [] => [] | _ => [mkRound l []] end.

Lemma add_one_round l i : add_to_round 0 ConflictSkip i (one_round l) = Some (one_round (l ++ [i])).
Proof. now destruct l. Qed.

Lemma places_snoc dups o : forall i, places i (dups ++ [o]) = places i dups ++ match o with None => [(i + List.length dups)%nat] | Some _ => [] end.
Proof.
  induction dups as [|[j|] dups IH]; intros i; cbn [places app List.length]; rewrite ?Nat.add_0_r; [now destruct o| |];
    rewrite IH, Nat.add_succ_l, <- Nat.add_succ_r; done.
Qed.

Section OneAtATime.
Context (dps : dparams).
Hypothesis skips : forall m p a, dps !! m = Some (p, a) -> a = ConflictSkip /\ ip_BatchID p = 0 /\ List.NoDup (ip_UniqueFinished p).
Hypothesis alike : forall m m' ref, keyed dps m ref -> keyed dps m' ref -> sameStates (finished_of dps m) (finished_of dps m') = true.

Lemma fold_from_one rest : forall i dups seen, (forall k, dps !! (i + k)%nat = rest !! k) -> List.length dups = i ->
  (forall ref s, seen_get ref seen = Some s -> ks_round s = 0%nat /\ keyed dps (ks_last s) ref) ->
  exists dups' seen', fold_from dps i rest (mkFolded (one_round (places 0 dups)) dups seen) = Some (mkFolded (one_round (places 0 dups')) dups' seen').
Proof.
  induction rest as [|[p a] rest IH]; intros i dups seen Hr Hl Hseen; cbn [fold_from]; [eauto|].
  assert (Hi : dps !! i = Some (p, a)) by (rewrite <- (Nat.add_0_r i), Hr; reflexivity). destruct (skips i p a Hi) as (-> & _).
  assert (Hnext : forall k, dps !! (S i + k)%nat = rest !! k) by (intros k; rewrite Nat.add_succ_l, <- Nat.add_succ_r, Hr; reflexivity).
  assert (Hplace : one_round (places 0 dups ++ [i]) = one_round (places 0 (dups ++ [None]))) by (now rewrite places_snoc, Nat.add_0_l, Hl).
  assert (Hlen : forall o, List.length (dups ++ [o]) = S i) by (intros o; rewrite List.length_app; cbn; lia).
  unfold fold_one. cbn [fo_rounds fo_dupOf fo_seen]. rewrite add_one_round, Hplace.
  destruct (String.eqb_spec (ip_UniqueKey p) "") as [Ek|Ek]; [now apply IH|].
  assert (Hkey : keyed dps i (ref_of p)) by (exists p, ConflictSkip; unfold has_key; now apply String.eqb_neq in Ek as ->).
  assert (Hput : forall ref s, seen_get ref ((ref_of p, mkKeyState i 0) :: seen) = Some s -> ks_round s = 0%nat /\ keyed dps (ks_last s) ref).
  { intros ref s. rewrite seen_get_cons. destruct (ref_eqb ref (ref_of p)) eqn:Er; [|apply Hseen]. apply ref_eqb_eq in Er as ->. now intros [= <-]. }
  destruct (seen_get (ref_of p) seen) as [s|] eqn:Es; [|now apply IH]. destruct (Hseen _ _ Es) as [-> Hs].
  pose proof (alike _ _ _ Hs Hkey) as Ha. unfold finished_of at 2 in Ha. rewrite Hi in Ha. rewrite Ha.
  replace (places 0 dups) with (places 0 (dups ++ [Some (ks_last s)])) by (rewrite places_snoc; apply app_nil_r). now apply IH.
Qed.

Lemma sameStates_same a b s : List.NoDup a -> sameStates a b = true -> existsb (state_eqb s) a = existsb (state_eqb s) b.
Proof.
  intros Hn [Hl Hi]%andb_true_iff. apply Nat.eqb_eq in Hl. rewrite forallb_forall in Hi.
  assert (Hin : incl a b) by (intros t (u & Hu & ->%state_eqb_eq)%Hi%existsb_exists; exact Hu).
  assert (Hin' : incl b a) by (apply NoDup_length_incl; [done|lia|done]).
  apply eq_true_iff_eq. rewrite !existsb_exists. split; intros (t & Ht & E); eauto.
Qed.

Lemma encode_all_lookup ps : forall js m p, encode_all ps = Ok js -> ps !! m = Some p -> exists j, js !! m = Some j /\ encodeInsert p = Ok j.
Proof.
  induction ps as [|q ps IH]; intros js m p E Hp; [done|]. cbn [encode_all] in E. destruct (encodeInsert q) as [j|] eqn:Ej; [|discriminate E].
  destruct (encode_all ps) as [r|]; [|discriminate E]. injection E as <-. destruct m as [|m]; cbn in Hp; [injection Hp as <-; eauto|]. cbn. eauto.
Qed.

Lemma encodeInsert_fields p j : encodeInsert p = Ok j -> i_kind j = ip_Kind p /\ i_uniqueKey j = ip_UniqueKey p
  /\ i_uniqueFinished j = ip_UniqueFinished p /\ i_batchID j = ip_BatchID p.
Proof. unfold encodeInsert. intros E. repeat case_match; try discriminate E. injection E as <-. done. Qed.

Lemma encode_kept dups : forall ps js, encode_all ps = Ok js -> encode_all (kept dups ps) = Ok (kept dups js).
Proof.
  induction dups as [|o dups IH]; intros ps js E; [done|]. destruct ps as [|p ps]; cbn [encode_all] in E; [injection E as <-; now destruct o|].
  destruct (encodeInsert p) as [j|] eqn:Ej; [|discriminate E]. destruct (encode_all ps) as [r|] eqn:Er; [|discriminate E]. injection E as <-.
  destruct o; cbn [kept encode_all]; [eauto|]. now rewrite Ej, (IH ps r Er).
Qed.

Lemma params_at_places dups : forall i rest, (forall k, dps !! (i + k)%nat = rest !! k) -> List.length dups = List.length rest ->
  params_at dps (places i dups) = kept dups (List.map fst rest).
Proof.
  induction dups as [|o dups IH]; intros i rest Hr Hl; [done|]. destruct rest as [|[p a] rest]; [discriminate Hl|]. injection Hl as Hl.
  assert (Hi : dps !! i = Some (p, a)) by (rewrite <- (Nat.add_0_r i), Hr; reflexivity).
  assert (Hnext : forall k, dps !! (S i + k)%nat = rest !! k) by (intros k; rewrite Nat.add_succ_l, <- Nat.add_succ_r, Hr; reflexivity).
  destruct o; cbn [places kept List.map fst]; [now apply IH|]. unfold params_at. cbn [List.flat_map]. rewrite Hi. cbn [app]. f_equal. now apply IH.
Qed.

Lemma kept_length {A} dups : forall i (l : list A), List.length dups = List.length l -> List.length (kept dups l) = List.length (places i dups).
Proof.
  induction dups as [|[j|] dups IH]; intros i [|b l] Hl; try discriminate Hl; cbn [kept places List.length] in *; [done|auto|f_equal; auto].
Qed.

Lemma JobInsertMany_plain c ps js x d : ps <> [] -> encode_all ps = Ok js -> JobInsertMany ps (mkJobInsertOpts false c) x d =
  match mapM (insertOne c) js x d with Ok (rows, d') => (Ok rows, d') | Err e => (Err e, d) end.
Proof.
  intros Hp E. unfold JobInsertMany. destruct ps; [done|]. rewrite E. unfold write, bind at 1, insertJobs. cbn [io_OnConflict io_Notify].
  now destruct (mapM (insertOne c) js x d) as [[rows d']|].
Qed.

Lemma js_alike js : encode_all (List.map fst dps) = Ok js ->
  (forall j, In j js -> i_batchID j = 0)
  /\ (forall j j', In j js -> In j' js -> i_uniqueKey j <> "" -> i_kind j = i_kind j' -> i_uniqueKey j = i_uniqueKey j' -> same_input j j').
Proof.
  intros Ee.
  assert (Hback : forall j, In j js -> exists m p, dps !! m = Some (p, ConflictSkip) /\ encodeInsert p = Ok j).
  { intros j [m Hm]%list_elem_of_In%list_elem_of_lookup. pose proof (encode_all_length _ _ Ee) as Hl. rewrite List.length_map in Hl.
    destruct (lookup_lt_is_Some_2 dps m) as [[p a] Hp]; [apply lookup_lt_Some in Hm; lia|]. destruct (skips m p a Hp) as (-> & _).
    destruct (encode_all_lookup _ js m p Ee) as (j' & Hj' & E); [change ((fst <$> dps) !! m = Some p); now rewrite list_lookup_fmap, Hp|].
    exists m, p. split; [done|]. congruence. }
  split.
  - intros j (m & p & Hp & E)%Hback. apply encodeInsert_fields in E as (_ & _ & _ & ->). now apply (skips m p ConflictSkip).
  - intros j j' (m & p & Hp & E)%Hback (m' & p' & Hp' & E')%Hback Hu Ek Eu. split; [done|split; [done|]]. intros s.
    apply encodeInsert_fields in E as (K1 & K2 & -> & _), E' as (K1' & K2' & -> & _).
    assert (Href : keyed dps m (ref_of p)) by (exists p, ConflictSkip; unfold has_key; rewrite <- K2; now apply String.eqb_neq in Hu as ->).
    assert (Href' : keyed dps m' (ref_of p)).
    { exists p', ConflictSkip. unfold has_key, ref_of. rewrite <- K2', <- Eu, <- K1', <- Ek, K1, K2. apply String.eqb_neq in Hu. rewrite K2 in Hu. now rewrite Hu. }
    pose proof (alike _ _ _ Href Href') as Ha. unfold finished_of in Ha. rewrite Hp, Hp' in Ha. apply sameStates_same; [|done]. now apply (skips m p ConflictSkip).
Qed.

End OneAtATime.

(** ** Runs *)

Definition tick (t : Z) : w := mkW t (fun n => Z.of_nat n * 1000003 + 17).
Definition input (kind queue args key : string) (finished : list JobState) : JobInsertParams :=
  mkJobInsertParams kind queue 2 3 None args "{}" [] key finished "" "" 0 0 false.

(** A key given twice with another job between. *)
Definition repeated : list (JobInsertParams * ConflictAction) :=
  [(input "mail" "q" "1" "k" [Completed], ConflictSkip); (input "log" "q" "2" "" [], ConflictSkip); (input "mail" "q" "3" "k" [Completed], ConflictSkip)].


(** With UniqueReplace the later input of a call is dropped, where inserted on its own it replaces the job. *)
Definition debounced : list (JobInsertParams * ConflictAction) :=
  [(input "mail" "q" "1" "k" [], ConflictReplace); (input "mail" "q" "2" "k" [], ConflictReplace)].
Lemma replace_folded_keeps_the_first :
  List.map j_Args (db_jobs (snd (insert_built false debounced (fun _ => false) (fun _ => tick 5) empty_db))) = ["1"]
  /\ List.map j_Args (db_jobs (snd (JobInsertMany (List.map fst debounced) (mkJobInsertOpts false ConflictReplace) (tick 5) empty_db))) = ["2"].
Proof. vm_compute. split; reflexivity. Qed.

(** A replaced job's queue is woken only when the call's first input replaces. *)
Definition held : DB := Eval vm_compute in snd (JobInsertMany [input "mail" "q" "1" "k" []] (mkJobInsertOpts false ConflictSkip) (tick 5) empty_db).
Definition woken_by (dps : list (JobInsertParams * ConflictAction)) : result (list string) :=
  match fst (insert_built false dps (fun _ => false) (fun _ => tick 6) held) with Ok r => Ok (in_woken r) | Err e => Err e end.
Lemma replaced_queue_not_woken : let replaces := (input "mail" "q" "2" "k" [], ConflictReplace) in let other := (input "log" "p" "3" "" [], ConflictSkip) in
  woken_by [replaces; other] = Ok ["q"; "p"] /\ woken_by [other; replaces] = Ok ["p"].
Proof. vm_compute. split; reflexivity. Qed.

(** A batch of two inputs with one key counts two and inserts one: nothing is left to count the other. *)
Definition mail_args : JobArgs := mkJobArgs "mail" (Some (no_opts <| op_Unique := Some (mkUniqueOpts false false 0 UniqueSkip []) |>)) (Ok "{}") VOther.
Definition done_args : JobArgs := mkJobArgs "done" None (Ok "{}") VOther.
Definition folded_batch : result BatchResult * DB :=
  Batch_insert (fun _ => None) (fun f : unit => "0") (mkConfig false [] 25) (mkBatchOpts None None (Some done_args) None "")
    [mkInsertParams (Some mail_args) None 0; mkInsertParams (Some mail_args) None 0] false 0 (fun _ => false) (tick 5) (fun _ => tick 6) (tick 7) empty_db.
Lemma folded_batch_never_completes :
  List.map b_pending (db_batches (snd folded_batch)) = [2]
  /\ List.length (List.filter (fun r => not_null (j_BatchID r)) (db_jobs (snd folded_batch))) = 1%nat.
Proof. vm_compute. split; reflexivity. Qed.
