(* ===== verification/BuildingSpec.v ===== *)
(** * Building workflows: theorems on Building.v

    A workflow is accepted exactly when its steps wait for earlier ones of its
    own, in one place each, under names of their own; its edges are those its
    options declare, and the engine accepts them and holds back the steps that
    wait. *)

From Stdlib Require Import List ZArith Lia Bool String Ascii.
From stdpp Require Import base tactics list gmap strings.
From S2P Require Import Prelude Sql Text Json Types Store Logic JobTags Codec Insert Workflow WorkflowSpec Dates Cron Unique Inserting Building.
Import ListNotations.
Local Open Scope string_scope.
Local Open Scope Z_scope.
Local Open Scope list_scope.

(** ** What a step's options declare *)

(** The step waits for the [j]th: in After if [g] is zero, and in its [g]th group of AfterAny if not. *)
Inductive waits (o : StepOpts) : nat -> nat -> Prop :=
| waits_after dep : In dep (so_After o) -> waits o (sp_i dep) 0
| waits_any g group dep : so_AfterAny o !! g = Some group -> In dep group -> waits o (sp_i dep) (S g).

Definition declared (wf : Workflow) (k j g : nat) : Prop := exists s, wk_steps wf !! k = Some s /\ waits (ws_opts s) j g.

(** Its references are to earlier steps of the workflow, one place each, and its groups are not empty. *)
Record edges_ok (wf : Workflow) (i : nat) (o : StepOpts) : Prop := mkEdgesOk {
  eo_after : Forall (fun dep => foreign wf i dep = false) (so_After o);
  eo_any : Forall (Forall (fun dep => foreign wf i dep = false)) (so_AfterAny o);
  eo_full : Forall (fun group => group <> []) (so_AfterAny o);
  eo_count : Z.of_nat (List.length (so_AfterAny o)) <= maxAnyOfGroups;
  eo_once : forall j g g', waits o j g -> waits o j g' -> g = g' }.

Definition name_ok (o : StepOpts) : Prop := so_Name o = "" \/ storableName (so_Name o) = true.

Record workflow_ok (wf : Workflow) : Prop := mkWorkflowOk {
  wk_edges_ok : forall k s, wk_steps wf !! k = Some s -> edges_ok wf k (ws_opts s);
  wk_names_ok : forall k s, wk_steps wf !! k = Some s -> name_ok (ws_opts s);
  wk_names_once : forall k k' s s', wk_steps wf !! k = Some s -> wk_steps wf !! k' = Some s' ->
    so_Name (ws_opts s) = so_Name (ws_opts s') -> so_Name (ws_opts s) <> "" -> k = k' }.

(** ** A step's edges *)

Lemma after_deps_eq wf i o deps :
  after_deps wf i o deps = if forallb (fun dep => negb (foreign wf i dep)) deps then Ok (List.map (edge_of i o 0) deps) else Err err_foreign.
Proof.
  induction deps as [|dep deps IH]; [done|]. simpl. destruct (foreign wf i dep); [done|]. rewrite IH. simpl. now destruct (forallb _ _).
Qed.

Lemma local_forallb wf i deps : forallb (fun dep => negb (foreign wf i dep)) deps = true <-> Forall (fun dep => foreign wf i dep = false) deps.
Proof. rewrite forallb_forall, List.Forall_forall. setoid_rewrite negb_true_iff. done. Qed.

(** A group's steps may be placed: each is of the workflow, and placed nowhere yet or in this group. *)
Definition may_place (wf : Workflow) (i g : nat) (wh : gmap nat nat) (group : list Step) : Prop :=
  Forall (fun dep => foreign wf i dep = false /\ (wh !! sp_i dep = None \/ wh !! sp_i dep = Some (S g))) group.

Lemma group_deps_spec wf i o g group : forall wh,
  match group_deps wf i o g group wh with
  | Ok (es, wh') => may_place wf i g wh group
      /\ (forall j v, wh' !! j = Some v <-> wh !! j = Some v \/ (v = S g /\ wh !! j = None /\ exists dep, In dep group /\ sp_i dep = j))
      /\ (forall e, In e es <-> exists dep, In dep group /\ wh !! sp_i dep = None /\ e = edge_of i o (S g) dep)
  | Err _ => ~ may_place wf i g wh group
  end.
Proof.
  induction group as [|dep group IH]; intros wh; simpl.
  { split; [constructor|]. split; [intros; split; [auto|]; intros [?|(_ & _ & ? & [] & _)]; done|]. intros e; split; [done|]. now intros (? & [] & _). }
  destruct (foreign wf i dep) eqn:Ef; [intros H; inversion H; subst; intuition congruence|].
  destruct (wh !! sp_i dep) as [prev|] eqn:Ew.
  - destruct (Nat.eqb_spec prev (S g)) as [->|Hne].
    2: { intros H. inversion H; subst. destruct H2 as [_ [?|?]]; congruence. }
    specialize (IH wh). destruct (group_deps wf i o g group wh) as [[es wh']|e].
    + destruct IH as (I1 & I2 & I3). split; [constructor; auto|]. split.
      * intros j v. rewrite I2. split; [intros [?|(? & ? & d & ? & ?)]; eauto 8|]. intros [?|(-> & Hn & d & [<-|Hd] & <-)]; first [congruence | by eauto | by right; eauto 8].
      * intros e. rewrite I3. split; [intros (d & ? & ? & ?); eauto 8|]. intros (d & [<-|Hd] & Hn & ->); [congruence|eauto].
    + intros H. apply IH. now inversion H.
  - specialize (IH (<[sp_i dep := S g]> wh)). destruct (group_deps wf i o g group _) as [[es wh']|e].
    + destruct IH as (I1 & I2 & I3). split; [|split].
      * constructor; [auto|]. revert I1. apply List.Forall_impl. intros d [Hd Hw]. split; [done|].
        destruct (decide (sp_i d = sp_i dep)) as [E|E]; [left; congruence|]. now rewrite lookup_insert_ne in Hw by done.
      * intros j v. rewrite I2. destruct (decide (sp_i dep = j)) as [<-|E].
        -- rewrite !lookup_insert_eq, Ew. split; [intros [[= <-]|(? & ? & _)]; [right; eauto 8|done]|]. intros [?|(-> & _)]; [done|auto].
        -- rewrite !lookup_insert_ne by done. split; [intros [?|(? & ? & d & ? & ?)]; eauto 10|].
           intros [?|(? & ? & d & [<-|Hd] & <-)]; first [done | by eauto | by right; eauto 8].
      * intros e. cbn [In]. rewrite I3. split.
        -- intros [<-|(d & Hd & Hn & ->)]; [eauto 8|]. exists d. split; [auto|]. split; [|done].
           destruct (decide (sp_i dep = sp_i d)) as [E|E]; [congruence|]. now rewrite lookup_insert_ne in Hn by done.
        -- intros (d & [<-|Hd] & Hn & ->); [auto|]. destruct (decide (sp_i dep = sp_i d)) as [E|E].
           ++ left. unfold edge_of. now rewrite E.
           ++ right. exists d. rewrite lookup_insert_ne by done. auto.
    + intros H. apply IH. inversion H as [|? ? _ H']; subst. revert H'. apply List.Forall_impl. intros d [Hd Hw]. split; [done|].
      destruct (decide (sp_i dep = sp_i d)) as [E|E]; [right; rewrite E; apply lookup_insert_eq|]. now rewrite lookup_insert_ne by done.
Qed.

(** The rest of the groups may be placed: full, of the workflow, and each step in one of them and nowhere before. *)
Record may_group (wf : Workflow) (i : nat) (wh : gmap nat nat) (groups : list (list Step)) : Prop := mkMayGroup {
  mg_full : Forall (fun group => group <> []) groups;
  mg_local : Forall (Forall (fun dep => foreign wf i dep = false)) groups;
  mg_new : forall k group dep, groups !! k = Some group -> In dep group -> wh !! sp_i dep = None;
  mg_once : forall k k' group group' dep dep', groups !! k = Some group -> groups !! k' = Some group' ->
    In dep group -> In dep' group' -> sp_i dep = sp_i dep' -> k = k' }.

(** Placing one group leaves the rest to place. *)
Lemma may_group_cons wf i g wh wh' group groups :
  (forall j v, wh !! j = Some v -> (v <= g)%nat) ->
  (forall j v, wh' !! j = Some v <-> wh !! j = Some v \/ (v = S g /\ wh !! j = None /\ exists dep, In dep group /\ sp_i dep = j)) ->
  may_group wf i wh (group :: groups) <-> group <> [] /\ may_place wf i g wh group /\ may_group wf i wh' groups.
Proof.
  intros Hb Hw. split.
  - intros [M1 M2 M3 M4]. inversion M1; subst. inversion M2 as [|? ? Hl Hl']; subst. split; [done|]. split.
    + apply List.Forall_forall. intros d Hd. rewrite List.Forall_forall in Hl. split; [auto|]. left. exact (M3 0%nat group d eq_refl Hd).
    + split; [done..| |].
      * intros k gr d Hk Hd. destruct (wh' !! sp_i d) as [v|] eqn:E; [|done]. apply Hw in E as [E|(-> & _ & d' & Hd' & E)].
        -- rewrite (M3 (S k) gr d Hk Hd) in E. done.
        -- specialize (M4 0%nat (S k) group gr d' d eq_refl Hk Hd' Hd E). discriminate.
      * intros k k' gr gr' d d' Hk Hk' Hd Hd' E. specialize (M4 (S k) (S k') gr gr' d d' Hk Hk' Hd Hd' E). lia.
  - intros (Hne & Hp & [M1 M2 M3 M4]). unfold may_place in Hp. rewrite List.Forall_forall in Hp.
    assert (Hn : forall d, In d group -> wh !! sp_i d = None).
    { intros d Hd. destruct (Hp d Hd) as [_ [?|E]]; [done|]. specialize (Hb _ _ E). lia. }
    assert (Hin : forall d, In d group -> wh' !! sp_i d = Some (S g)) by (intros d Hd; apply Hw; right; eauto 8).
    split; [now constructor|constructor; [|done]; apply List.Forall_forall; intros d Hd; apply Hp, Hd| |].
    + intros [|k] gr d Hk Hd; [injection Hk as <-; auto|]. specialize (M3 k gr d Hk Hd). destruct (wh !! sp_i d) as [v|] eqn:E; [|done].
      assert (wh' !! sp_i d = Some v) by (apply Hw; auto). congruence.
    + intros [|k] [|k'] gr gr' d d' Hk Hk' Hd Hd' E; [done| | |f_equal; eauto].
      * injection Hk as <-. specialize (M3 k' gr' d' Hk' Hd'). specialize (Hin d Hd). congruence.
      * injection Hk' as <-. specialize (M3 k gr d Hk Hd). specialize (Hin d' Hd'). congruence.
Qed.

Lemma groups_deps_spec wf i o groups : forall g wh, (forall j v, wh !! j = Some v -> (v <= g)%nat) ->
  match groups_deps wf i o g groups wh with
  | Ok es => may_group wf i wh groups
      /\ (forall e, In e es <-> exists k group dep, groups !! k = Some group /\ In dep group /\ e = edge_of i o (S (g + k)) dep)
  | Err _ => ~ may_group wf i wh groups
  end.
Proof.
  induction groups as [|group groups IH]; intros g wh Hb.
  { cbn [groups_deps]. split; [split; [constructor..| |]; intros; done|]. intros e. split; [done|]. now intros (k & ? & ? & ? & _). }
  assert (Hcons : group <> [] -> groups_deps wf i o g (group :: groups) wh =
    match group_deps wf i o g group wh with
    | Err e => Err e
    | Ok (es, wh) => match groups_deps wf i o (S g) groups wh with Err e => Err e | Ok es' => Ok (es ++ es') end
    end) by (now destruct group).
  destruct (decide (group = [])) as [->|Hne]; [intros [M _ _ _]; now inversion M|]. rewrite (Hcons Hne). clear Hcons.
  pose proof (group_deps_spec wf i o g group wh) as Hg. destruct (group_deps wf i o g group wh) as [[es wh']|e].
  2: { intros M. apply Hg. destruct M as [M1 M2 M3 M4]. inversion M2 as [|? ? Hl _]; subst. rewrite List.Forall_forall in Hl.
       apply List.Forall_forall. intros d Hd. split; [auto|]. left. exact (M3 0%nat group d eq_refl Hd). }
  destruct Hg as (Hp & Hw & He). pose proof (may_group_cons wf i g wh wh' group groups Hb Hw) as Hc.
  assert (Hb' : forall j v, wh' !! j = Some v -> (v <= S g)%nat).
  { intros j v [E|(-> & _)]%Hw; [specialize (Hb _ _ E); lia|lia]. }
  specialize (IH (S g) wh' Hb'). destruct (groups_deps wf i o (S g) groups wh') as [es'|e].
  2: { rewrite Hc. intros (_ & _ & M). now apply IH. }
  destruct IH as [IM IE]. assert (M : may_group wf i wh (group :: groups)) by (apply Hc; auto). split; [exact M|].
  intros e. rewrite in_app_iff, He, IE. split.
  - intros [(d & Hd & _ & ->)|(k & gr & d & Hk & Hd & ->)].
    + exists 0%nat, group, d. rewrite Nat.add_0_r. auto.
    + exists (S k), gr, d. split; [exact Hk|]. split; [done|]. f_equal. lia.
  - intros ([|k] & gr & d & Hk & Hd & ->).
    + injection Hk as <-. left. exists d. rewrite Nat.add_0_r. split; [done|]. split; [|done]. exact (mg_new _ _ _ _ M 0%nat group d eq_refl Hd).
    + right. exists k, gr, d. split; [exact Hk|]. split; [done|]. f_equal. lia.
Qed.

Lemma where_after_spec o j v : where_after o !! j = Some v <-> v = 0%nat /\ exists dep, In dep (so_After o) /\ sp_i dep = j.
Proof.
  unfold where_after. rewrite <- fold_left_rev_right. setoid_rewrite (in_rev (so_After o)). induction (rev (so_After o)) as [|dep l IH]; simpl.
  { rewrite lookup_empty. split; [done|]. now intros (_ & ? & [] & _). }
  destruct (decide (sp_i dep = j)) as [<-|E].
  - rewrite lookup_insert_eq. split; [intros [= <-]; eauto 8|]. now intros [-> _].
  - rewrite lookup_insert_ne, IH by done. split; [intros (-> & d & ? & ?); eauto 8|]. intros (-> & d & [<-|Hd] & <-); [done|eauto 8].
Qed.

Definition edge_at (i : nat) (o : StepOpts) (j g : nat) : JobDependency := edge_of i o g (mkStep 0 j).

Lemma edges_ok_iff wf i o : edges_ok wf i o <->
  Forall (fun dep => foreign wf i dep = false) (so_After o) /\ Z.of_nat (List.length (so_AfterAny o)) <= maxAnyOfGroups
  /\ may_group wf i (where_after o) (so_AfterAny o).
Proof.
  split.
  - intros [A1 A2 A3 A4 A5]. split; [done|]. split; [done|]. split; [done|done| |].
    + intros k gr d Hk Hd. destruct (where_after o !! sp_i d) as [v|] eqn:E; [|done]. apply where_after_spec in E as (_ & d' & Hd' & E).
      pose proof (waits_any o _ _ _ Hk Hd) as W. rewrite <- E in W. specialize (A5 _ _ _ W (waits_after o d' Hd')). discriminate.
    + intros k k' gr gr' d d' Hk Hk' Hd Hd' E. pose proof (waits_any o _ _ _ Hk Hd) as W. rewrite E in W.
      specialize (A5 _ _ _ W (waits_any o _ _ _ Hk' Hd')). lia.
  - intros (A1 & A2 & [M1 M2 M3 M4]). split; try done.
    assert (Hx : forall dep k gr d, In dep (so_After o) -> so_AfterAny o !! k = Some gr -> In d gr -> sp_i d <> sp_i dep).
    { intros dep k gr d Hd Hk Hd' E. specialize (M3 k gr d Hk Hd'). assert (where_after o !! sp_i d = Some 0%nat) by (apply where_after_spec; eauto). congruence. }
    intros j g g' W W'. inversion W as [dep Hd Ej Eg|k gr dep Hk Hd Ej Eg]; inversion W' as [dep' Hd' Ej' Eg'|k' gr' dep' Hk' Hd' Ej' Eg']; subst; try done.
    + exfalso. now eapply (Hx dep k' gr' dep').
    + exfalso. eapply (Hx dep' k gr dep); eauto.
    + f_equal. symmetry in Ej'. eauto.
Qed.

Lemma step_deps_spec wf i o :
  match step_deps wf i o with
  | Ok es => edges_ok wf i o /\ (forall e, In e es <-> exists j g, waits o j g /\ e = edge_at i o j g)
  | Err _ => ~ edges_ok wf i o
  end.
Proof.
  unfold step_deps. rewrite after_deps_eq. destruct (forallb _ (so_After o)) eqn:Ea.
  2: { intros [A _]%edges_ok_iff. apply local_forallb in A. congruence. }
  apply local_forallb in Ea.
  assert (Hafter : forall e, In e (List.map (edge_of i o 0) (so_After o)) <-> exists dep, In dep (so_After o) /\ e = edge_of i o 0 dep).
  { intros e. rewrite in_map_iff. split; intros (d & ? & ?); exists d; split; congruence. }
  assert (Hb : forall j v, where_after o !! j = Some v -> (v <= 0)%nat) by (intros j v [-> _]%where_after_spec; lia).
  pose proof (groups_deps_spec wf i o (so_AfterAny o) 0 (where_after o) Hb) as Hg.
  assert (Hany : anyOfDeps wf i o = if Z.of_nat (List.length (so_AfterAny o)) >? maxAnyOfGroups then Err (ErrText "has too many any-of groups")
                 else groups_deps wf i o 0 (so_AfterAny o) (where_after o)) by done.
  assert (Hin : forall e, (exists j g, waits o j g /\ e = edge_at i o j g) <->
    (exists dep, In dep (so_After o) /\ e = edge_of i o 0 dep)
    \/ (exists k group dep, so_AfterAny o !! k = Some group /\ In dep group /\ e = edge_of i o (S (0 + k)) dep)).
  { intros e. split.
    - intros (j & g & W & ->). inversion W; subst; [left|right]; eauto 8.
    - intros [(d & Hd & ->)|(k & gr & d & Hk & Hd & ->)]; [exists (sp_i d), 0%nat|exists (sp_i d), (S k)]; (split; [|done]); [now apply waits_after|now apply (waits_any o k gr)]. }
  destruct (so_AfterAny o) as [|g0 gs] eqn:Eany.
  - split; [apply edges_ok_iff; rewrite Eany; split; [done|]; split; [cbn; unfold maxAnyOfGroups; lia|]; apply Hg|].
    intros e. rewrite Hin, Hafter. split; [auto|]. intros [?|(k & ? & ? & ? & _)]; [done|discriminate].
  - rewrite Hany. destruct (_ >? maxAnyOfGroups) eqn:Ec.
    { rewrite edges_ok_iff, Eany. rewrite Z.gtb_lt in Ec. intros (_ & ? & _). lia. }
    rewrite Z.gtb_ltb in Ec. apply Z.ltb_ge in Ec. destruct (groups_deps _ _ _ _ _ _) as [es|e].
    + destruct Hg as [M He]. split; [apply edges_ok_iff; rewrite Eany; auto|]. intros e. rewrite in_app_iff, Hin, Hafter, He. done.
    + rewrite edges_ok_iff, Eany. intros (_ & _ & M). now apply Hg.
Qed.

(** ** The loop over the steps *)

Definition name_at (wf : Workflow) (k : nat) : string := match wk_steps wf !! k with Some s => so_Name (ws_opts s) | None => "" end.

(** The first [i] steps are in. *)
Record built_upto (wf : Workflow) (i : nat) (b : built) : Prop := mkBuiltUpto {
  bu_names : forall nm k, bl_names b !! nm = Some k <-> (k < i)%nat /\ name_at wf k = nm /\ nm <> "";
  bu_ok : forall k s, (k < i)%nat -> wk_steps wf !! k = Some s -> edges_ok wf k (ws_opts s) /\ name_ok (ws_opts s);
  bu_deps : forall e, In e (bl_Deps b) <-> exists k s j g, (k < i)%nat /\ wk_steps wf !! k = Some s /\ waits (ws_opts s) j g /\ e = edge_at k (ws_opts s) j g;
  bu_length : bl_Steps b = [] \/ List.length (bl_Steps b) = List.length (wk_steps wf);
  bu_steps : forall k, List.nth k (bl_Steps b) "" = if (k <? i)%nat then name_at wf k else "" }.

Lemma nth_insert_str (l : list string) i k v : (i < List.length l)%nat -> List.nth k (<[i := v]> l) "" = if decide (i = k) then v else List.nth k l "".
Proof.
  intros Hi. rewrite !nth_lookup. destruct (decide (i = k)) as [<-|Hne]; [now rewrite list_lookup_insert_eq|now rewrite list_lookup_insert_ne].
Qed.

Lemma name_at_Some wf k s : wk_steps wf !! k = Some s -> name_at wf k = so_Name (ws_opts s).
Proof. unfold name_at. now intros ->. Qed.

Lemma name_step_spec wf i b s : built_upto wf i b -> wk_steps wf !! i = Some s ->
  match name_step (List.length (wk_steps wf)) i (so_Name (ws_opts s)) b with
  | Ok b' => name_ok (ws_opts s) /\ bl_Deps b' = bl_Deps b
      /\ (forall nm k, bl_names b' !! nm = Some k <-> (k < S i)%nat /\ name_at wf k = nm /\ nm <> "")
      /\ (bl_Steps b' = [] \/ List.length (bl_Steps b') = List.length (wk_steps wf))
      /\ (forall k, List.nth k (bl_Steps b') "" = if (k <? S i)%nat then name_at wf k else "")
  | Err _ => ~ workflow_ok wf
  end.
Proof.
  intros [B1 B2 B3 B4 B5] Hs. pose proof (name_at_Some _ _ _ Hs) as Hn. pose proof (lookup_lt_Some _ _ _ Hs) as Hi.
  unfold name_step. destruct (String.eqb_spec (so_Name (ws_opts s)) "") as [E|E].
  - split; [now left|]. split; [done|]. split.
    { intros nm k. rewrite B1. split; [intros (? & ? & ?); split; [lia|done]|]. intros (Hk & <- & Hne). split; [|done].
      destruct (decide (k = i)) as [->|]; [congruence|lia]. }
    split; [done|]. intros k. rewrite B5. destruct (Nat.ltb_spec k i), (Nat.ltb_spec k (S i)); try lia; [done| |done].
    assert (k = i) as -> by lia. congruence.
  - destruct (storableName _) eqn:Est; cbn [negb].
    2: { intros [_ W _]. destruct (W i s Hs); congruence. }
    destruct (bl_names b !! so_Name (ws_opts s)) as [k|] eqn:Ek.
    { intros [_ _ W]. apply B1 in Ek as (Hk & Hnk & _). destruct (lookup_lt_is_Some_2 (wk_steps wf) k ltac:(lia)) as [s' Hs'].
      rewrite (name_at_Some _ _ _ Hs') in Hnk. specialize (W k i s' s Hs' Hs Hnk ltac:(congruence)). lia. }
    cbn [bl_Deps bl_names bl_Steps]. split; [now right|]. split; [done|]. split; [|split].
    + intros nm k. destruct (decide (so_Name (ws_opts s) = nm)) as [<-|Hne].
      * rewrite lookup_insert_eq. split; [intros [= <-]; split; [lia|auto]|]. intros (Hk & Hnk & _). f_equal.
        destruct (decide (k = i)) as [|Hki]; [done|]. assert (bl_names b !! so_Name (ws_opts s) = Some k) by (apply B1; split; [lia|done]). congruence.
      * rewrite lookup_insert_ne, B1 by done. split; [intros (? & ? & ?); split; [lia|done]|]. intros (Hk & Hnk & Hne'). split; [|done].
        destruct (decide (k = i)) as [->|]; [congruence|lia].
    + right. rewrite length_insert. destruct (bl_Steps b) as [|x l] eqn:Eb; [apply repeat_length|]. now destruct B4.
    + intros k. set (l := match bl_Steps b with [] => _ | _ => _ end).
      assert (Hl : List.length l = List.length (wk_steps wf)) by (unfold l; destruct (bl_Steps b); [apply repeat_length|now destruct B4]).
      assert (Hnth : List.nth k l "" = List.nth k (bl_Steps b) "").
      { unfold l. destruct (bl_Steps b); [|done]. rewrite nth_repeat. now destruct k. }
      rewrite nth_insert_str, Hnth, B5 by lia. destruct (decide (i = k)) as [<-|Hne].
      * rewrite (proj2 (Nat.ltb_lt i (S i))) by lia. congruence.
      * destruct (Nat.ltb_spec k i), (Nat.ltb_spec k (S i)); try lia; done.
Qed.

Lemma build_steps_spec wf rest : forall pre b, wk_steps wf = pre ++ rest -> built_upto wf (List.length pre) b ->
  match build_steps wf (List.length pre) rest b with
  | Ok b' => built_upto wf (List.length (wk_steps wf)) b'
  | Err _ => ~ workflow_ok wf
  end.
Proof.
  induction rest as [|s rest IH]; intros pre b E B; cbn [build_steps].
  { now rewrite E, app_nil_r. }
  assert (Hs : wk_steps wf !! List.length pre = Some s) by (rewrite E; now apply list_lookup_middle).
  pose proof (name_step_spec wf _ b s B Hs) as Hn. destruct (name_step _ _ _ b) as [b'|e]; [|done].
  destruct Hn as (N1 & N2 & N3 & N4 & N5). pose proof (step_deps_spec wf (List.length pre) (ws_opts s)) as Hd.
  destruct (step_deps _ _ _) as [es|e]; [|intros [W _ _]; now apply Hd, W]. destruct Hd as [D1 D2].
  specialize (IH (pre ++ [s]) (mkBuilt (bl_names b') (bl_Steps b') (bl_Deps b' ++ es))). rewrite length_app in IH. cbn [List.length] in IH.
  rewrite Nat.add_1_r in IH. apply IH; [now rewrite E, <- app_assoc|]. destruct B as [B1 B2 B3 B4 B5]. split; cbn [bl_names bl_Steps bl_Deps]; try done.
  - intros k s' Hk Hs'. destruct (decide (k = List.length pre)) as [->|]; [|apply B2; [lia|done]]. assert (s' = s) as -> by congruence. done.
  - intros e. rewrite in_app_iff, N2, B3, D2. split.
    + intros [(k & s' & j & g & Hk & R)|(j & g & W & ->)]; [exists k, s', j, g; split; [lia|done]|]. exists (List.length pre), s, j, g. split; [lia|done].
    + intros (k & s' & j & g & Hk & Hs' & W & ->). destruct (decide (k = List.length pre)) as [->|].
      * assert (s' = s) as -> by congruence. right. eauto.
      * left. exists k, s', j, g. split; [lia|done].
Qed.

Lemma build_spec wf : match build wf with Ok b => built_upto wf (List.length (wk_steps wf)) b | Err _ => ~ workflow_ok wf end.
Proof.
  unfold build. apply (build_steps_spec wf (wk_steps wf) [] (mkBuilt ∅ [] []) eq_refl). split; cbn [bl_names bl_Steps bl_Deps]; [| | |now left|].
  - intros nm k. rewrite lookup_empty. split; [done|]. intros [Hk _]. simpl in Hk. lia.
  - simpl. lia.
  - intros e. split; [done|]. intros (k & ? & ? & ? & Hk & _). simpl in Hk. lia.
  - intros k. now destruct k.
Qed.

Lemma built_workflow_ok wf b : built_upto wf (List.length (wk_steps wf)) b -> workflow_ok wf.
Proof.
  intros [B1 B2 _ _ _]. assert (Hlt : forall k s, wk_steps wf !! k = Some s -> (k < List.length (wk_steps wf))%nat) by (intros k s; apply lookup_lt_Some).
  split; [intros k s H; apply (B2 k s (Hlt k s H) H)..|]. intros k k' s s' H H' E Hne. assert (bl_names b !! so_Name (ws_opts s) = Some k).
  { apply B1. split; [eauto|]. split; [now apply name_at_Some|done]. }
  assert (bl_names b !! so_Name (ws_opts s) = Some k').
  { apply B1. split; [eauto|]. split; [rewrite E; now apply name_at_Some|done]. }
  congruence.
Qed.

(** ** The engine's check *)

(** Two edges between the same steps are of one group, and one group's have one policy. *)
Definition edges_agree (e e' : JobDependency) : Prop :=
  jd_Job e = jd_Job e' -> (jd_DependsOn e = jd_DependsOn e' -> jd_AnyOf e = jd_AnyOf e') /\ (jd_AnyOf e = jd_AnyOf e' -> EdgePolicy e = EdgePolicy e').

Lemma pair_get_In {A} k (m : list (Z * Z * A)) v : pair_get k m = Some v -> In (k, v) m.
Proof.
  induction m as [|[k' v'] m IH]; [done|]. simpl. destruct (_ && _) eqn:E; [|auto]. intros [= ->]. breflect. left. f_equal. destruct k, k'. simpl in *. congruence.
Qed.

Lemma check_groups_agree deps : forall prev groups policies, (forall e e', In e (prev ++ deps) -> In e' (prev ++ deps) -> edges_agree e e') ->
  (forall k v, In (k, v) groups -> exists e, In e prev /\ k = (jd_Job e, jd_DependsOn e) /\ v = jd_AnyOf e) ->
  (forall k v, In (k, v) policies -> exists e, In e prev /\ k = (jd_Job e, jd_AnyOf e) /\ v = EdgePolicy e) ->
  check_groups deps groups policies = Ok tt.
Proof.
  induction deps as [|d deps IH]; intros prev groups policies Ha Hg Hp; [done|]. cbn [check_groups].
  assert (Hd : In d (prev ++ d :: deps)) by (apply in_app_iff; right; now left).
  assert (Hprev : forall e, In e prev -> edges_agree e d) by (intros e He; apply Ha; [apply in_app_iff; now left|done]).
  assert (match pair_get (jd_Job d, jd_DependsOn d) groups with Some g => negb (g =? jd_AnyOf d) | None => false end = false) as ->.
  { destruct (pair_get _ groups) as [g|] eqn:E; [|done]. apply pair_get_In, Hg in E as (e & He & [= Ej Eo] & ->).
       destruct (Hprev e He (eq_sym Ej)) as [H _]. rewrite (H (eq_sym Eo)). now rewrite Z.eqb_refl. }
  assert (Hstep : forall groups policies, (forall k v, In (k, v) groups -> exists e, In e (prev ++ [d]) /\ k = (jd_Job e, jd_DependsOn e) /\ v = jd_AnyOf e) ->
    (forall k v, In (k, v) policies -> exists e, In e (prev ++ [d]) /\ k = (jd_Job e, jd_AnyOf e) /\ v = EdgePolicy e) -> check_groups deps groups policies = Ok tt).
  { intros gs ps. apply (IH (prev ++ [d])). now rewrite <- app_assoc. }
  assert (Hgs : forall k v, In (k, v) (((jd_Job d, jd_DependsOn d), jd_AnyOf d) :: groups) ->
    exists e, In e (prev ++ [d]) /\ k = (jd_Job e, jd_DependsOn e) /\ v = jd_AnyOf e).
  { intros k v [[= <- <-]|(e & ? & ? & ?)%Hg]; [exists d|exists e]; (split; [apply in_app_iff; simpl; auto|done]). }
  assert (Hps : forall k v, In (k, v) policies -> exists e, In e (prev ++ [d]) /\ k = (jd_Job e, jd_AnyOf e) /\ v = EdgePolicy e).
  { intros k v (e & ? & ? & ?)%Hp. exists e. split; [apply in_app_iff; auto|done]. }
  destruct (jd_AnyOf d =? 0); [now apply Hstep|].
  assert (match pair_get (jd_Job d, jd_AnyOf d) policies with Some p => negb (String.eqb p (EdgePolicy d)) | None => false end = false) as ->.
  { destruct (pair_get _ policies) as [p|] eqn:E; [|done]. apply pair_get_In, Hp in E as (e & He & [= Ej Eo] & ->).
       destruct (Hprev e He (eq_sym Ej)) as [_ H]. rewrite (H (eq_sym Eo)). now rewrite String.eqb_refl. }
  apply Hstep; [done|]. intros k v [[= <- <-]|H]; [|auto]. exists d. split; [apply in_app_iff; simpl; auto|done].
Qed.

Lemma mark_pending_ok deps n : forall pending, Forall (fun d => edge_ok n d = true /\ group_ok d = true) deps -> exists out, mark_pending deps n pending = Ok out.
Proof.
  induction deps as [|d deps IH]; intros pending H; [eexists; reflexivity|]. inversion H as [|? ? [H1 H2] H']; subst. cbn [mark_pending]. rewrite H1, H2. apply IH, H'.
Qed.

Lemma CheckDependencies_agree deps n : Forall (fun d => edge_ok n d = true /\ group_ok d = true) deps ->
  (forall e e', In e deps -> In e' deps -> edges_agree e e') -> exists pending, CheckDependencies deps n = Ok pending.
Proof.
  intros H Ha. unfold CheckDependencies. destruct (mark_pending_ok deps n (List.repeat false (Z.to_nat n)) H) as [out ->].
  rewrite (check_groups_agree deps [] [] [] Ha); [|done..]. destruct (existsb _ deps); eauto.
Qed.

Lemma foreign_false wf i dep : foreign wf i dep = false <-> sp_wf dep = wk_addr wf /\ (sp_i dep < i)%nat.
Proof. unfold foreign. rewrite orb_false_iff, negb_false_iff, Z.eqb_eq, Nat.leb_gt. done. Qed.

(** A declared step is earlier, and its group numbered within the engine's range. *)
Lemma waits_range wf i o j g : edges_ok wf i o -> waits o j g -> (j < i)%nat /\ Z.of_nat g <= maxAnyOfGroups.
Proof.
  intros [A1 A2 _ A4 _] W. inversion W as [dep Hd Ej Eg|k gr dep Hk Hd Ej Eg]; subst.
  - rewrite List.Forall_forall in A1. apply A1, foreign_false in Hd as [_ Hd]. split; [done|unfold maxAnyOfGroups; lia].
  - rewrite List.Forall_forall in A2. pose proof (lookup_lt_Some _ _ _ Hk) as Hl. apply list_elem_of_lookup_2, list_elem_of_In, A2 in Hk.
    rewrite List.Forall_forall in Hk. apply Hk, foreign_false in Hd as [_ Hd]. split; [done|lia].
Qed.

Lemma built_checked wf b : built_upto wf (List.length (wk_steps wf)) b ->
  exists pending, CheckDependencies (bl_Deps b) (Z.of_nat (List.length (wk_steps wf))) = Ok pending
    /\ forall k, (k < List.length (wk_steps wf))%nat -> pending !! k = Some true <-> exists j g, declared wf k j g.
Proof.
  intros B. pose proof (built_workflow_ok _ _ B) as [Hok _ _]. destruct B as [_ _ B3 _ _].
  destruct (CheckDependencies_agree (bl_Deps b) (Z.of_nat (List.length (wk_steps wf)))) as [pending E].
  - apply List.Forall_forall. intros e (k & s & j & g & Hk & Hs & W & ->)%B3. destruct (waits_range _ _ _ _ _ (Hok _ _ Hs) W) as [Hj Hg].
    unfold edge_ok, group_ok, edge_at, edge_of, maxAnyOfGroups in *. cbn [jd_Job jd_DependsOn jd_AnyOf sp_i]. rewrite !Z.geb_leb, Z.gtb_ltb.
    split; apply negb_true_iff; rewrite !orb_false_iff, ?Z.ltb_ge, ?Z.leb_gt, ?Z.eqb_neq; lia.
  - intros e e' (k & s & j & g & Hk & Hs & W & ->)%B3 (k' & s' & j' & g' & Hk' & Hs' & W' & ->)%B3. unfold edges_agree, edge_at, edge_of.
    cbn [jd_Job jd_DependsOn jd_AnyOf sp_i]. intros Ek. apply Nat2Z.inj in Ek as <-. assert (s' = s) as -> by congruence. split.
    + intros Ej. apply Nat2Z.inj in Ej as <-. f_equal. exact (eo_once _ _ _ (Hok _ _ Hs) _ _ _ W W').
    + unfold EdgePolicy. cbn [jd_AnyOf jd_OnFailure]. now intros ->.
  - exists pending. split; [done|]. destruct (CheckDependencies_pending _ _ _ E) as (_ & _ & Hp). rewrite Nat2Z.id in Hp. intros k Hk. rewrite (Hp k Hk). split.
    + intros (e & (k' & s & j & g & Hk' & Hs & W & ->)%B3 & Ek). cbn [edge_at edge_of jd_Job] in Ek. apply Nat2Z.inj in Ek as ->. exists j, g, s. done.
    + intros (j & g & s & Hs & W). exists (edge_at k (ws_opts s) j g). split; [|done]. apply B3. eauto 8.
Qed.

(** C32:
    A workflow is accepted exactly when every step waits only for steps added before it to the same workflow, each in
    one place, its any-of groups are not empty and within their number, and its names are storable and its own.  Then its
    edges are exactly those the steps' options declare, with their groups; each step has its name; and the engine's check
    of them succeeds and holds back exactly the steps that wait for some step. *)
Theorem workflow_built_exactly wf :
  match build wf with
  | Ok b => workflow_ok wf
      /\ (forall e, In e (bl_Deps b) <-> exists k s j g, wk_steps wf !! k = Some s /\ waits (ws_opts s) j g /\ (j < k)%nat
            /\ e = mkJobDependency (Z.of_nat k) (Z.of_nat j) (so_OnDependencyFailure (ws_opts s)) (so_Dependencies (ws_opts s)) (Z.of_nat g))
      /\ (forall k s, wk_steps wf !! k = Some s -> List.nth k (bl_Steps b) "" = so_Name (ws_opts s))
      /\ exists pending, CheckDependencies (bl_Deps b) (Z.of_nat (List.length (wk_steps wf))) = Ok pending
           /\ forall k, (k < List.length (wk_steps wf))%nat -> pending !! k = Some true <-> exists j g, declared wf k j g
  | Err _ => ~ workflow_ok wf
  end.
Proof.
  pose proof (build_spec wf) as H. destruct (build wf) as [b|e]; [|done]. pose proof (built_workflow_ok _ _ H) as Hok. split; [done|].
  pose proof (built_checked _ _ H) as Hc. destruct H as [_ _ B3 _ B5]. split; [|split; [|done]].
  - intros e. rewrite B3. split.
    + intros (k & s & j & g & Hk & Hs & W & ->). exists k, s, j, g. split; [done|]. split; [done|]. split; [|done]. exact (proj1 (waits_range _ _ _ _ _ (wk_edges_ok _ Hok _ _ Hs) W)).
    + intros (k & s & j & g & Hs & W & _ & ->). exists k, s, j, g. split; [now apply lookup_lt_Some in Hs|done].
  - intros k s Hs. rewrite B5, <- (name_at_Some _ _ _ Hs). apply lookup_lt_Some in Hs. apply Nat.ltb_lt in Hs. now rewrite Hs.
Qed.

(** ** On the engine *)

Lemma insert_edge_In r t row : In row (insert_edge r t) -> In row t \/ row = r.
Proof. unfold insert_edge. destruct (ex _ t); [auto|]. rewrite in_app_iff. simpl. intuition. Qed.

Definition same_edge (r row : DepRow) : Prop := d_job_id row = d_job_id r /\ d_depends_on row = d_depends_on r.

Lemma insert_edge_there r t : exists row, In row (insert_edge r t) /\ same_edge r row.
Proof.
  unfold insert_edge. destruct (ex _ t) eqn:E.
  - unfold ex in E. apply existsb_exists in E as (row & Hr & E). exists row. breflect. done.
  - exists r. rewrite in_app_iff. simpl. split; [auto|done].
Qed.

Lemma insert_edge_keeps r t row : In row t -> In row (insert_edge r t).
Proof. unfold insert_edge. destruct (ex _ t); [done|]. rewrite in_app_iff. auto. Qed.

Lemma edge_inserts_spec ids steps deps : forall t,
  (forall row, In row (edge_inserts ids steps deps t) -> In row t \/ exists e, In e deps /\ row = edge_row ids steps e)
  /\ (forall row, In row t -> In row (edge_inserts ids steps deps t))
  /\ (forall e, In e deps -> exists row, In row (edge_inserts ids steps deps t) /\ same_edge (edge_row ids steps e) row).
Proof.
  induction deps as [|e deps IH]; intros t; [split; [auto|split; [auto|done]]|]. cbn [edge_inserts List.fold_left].
  destruct (IH (insert_edge (edge_row ids steps e) t)) as (I1 & I2 & I3). fold (edge_inserts ids steps deps (insert_edge (edge_row ids steps e) t)). split; [|split].
  - intros row [H|(e' & ? & ?)]%I1; [|right; simpl; eauto]. apply insert_edge_In in H as [|]; [auto|right; simpl; eauto].
  - intros row Hr. apply I2, insert_edge_keeps, Hr.
  - intros e' [<-|He]; [|auto]. destruct (insert_edge_there (edge_row ids steps e) t) as (row & Hr & Hs). exists row. auto.
Qed.

Lemma workflow_jobs_pending ps : forall pending jobs, List.length pending = List.length ps -> workflow_jobs ps pending = Ok jobs -> List.map i_pending jobs = pending.
Proof.
  induction ps as [|p ps IH]; intros [|b pending] jobs El E; try discriminate El; [now injection E as <-|]. cbn [workflow_jobs] in E.
  destruct (negb _); [discriminate E|]. destruct (encodeInsert p) as [j|]; [|discriminate E]. destruct (workflow_jobs ps pending) as [js|] eqn:Ej; [|discriminate E].
  injection E as <-. injection El as El. cbn [List.map]. rewrite (IH _ _ El Ej). done.
Qed.

Lemma step_jobs_length {F} pf ff c now ps : forall dps, @step_jobs F pf ff c ps now = Ok dps -> List.length dps = List.length ps.
Proof.
  induction ps as [|p ps IH]; intros dps E; [now injection E as <-|]. cbn [step_jobs] in E. destruct (buildInsertParams _ _ _ _ _) as [[dp a]|]; [|discriminate E].
  destruct (negb _); [discriminate E|]. destruct (step_jobs _ _ _ _ _) as [r|] eqn:Er; [|discriminate E]. injection E as <-. cbn [List.length]. f_equal. eauto.
Qed.

Lemma workflow_params_Ok {F} pf ff c wf inTx now wp : @workflow_params F pf ff c wf inTx now = Ok wp ->
  exists b, build wf = Ok b /\ wp_Deps wp = bl_Deps b /\ wp_Steps wp = bl_Steps b /\ List.length (wp_Jobs wp) = List.length (wk_steps wf).
Proof.
  unfold workflow_params. intros E. repeat (case_in E; try discriminate E). injection E as <-. eexists. split; [reflexivity|].
  split; [done|]. split; [done|]. cbn [wp_Jobs]. erewrite step_jobs_length by eassumption. now rewrite length_map.
Qed.

(** A workflow the engine took: its rows in order, held back as its edges say. *)
Lemma WorkflowInsert_Ok wp x d out d' : WorkflowInsert wp x d = (Ok out, d') ->
  exists pending rows, CheckDependencies (wp_Deps wp) (Z.of_nat (List.length (wp_Jobs wp))) = Ok pending
    /\ wr_Jobs out = List.map (fun r => mkJobInsertResult (live_view r) false) rows
    /\ List.map (fun r => state_eqb (j_State r) Pending) rows = pending
    /\ db_deps d' = edge_inserts (List.map j_ID rows) (wp_Steps wp) (wp_Deps wp) (db_deps d).
Proof.
  unfold WorkflowInsert. intros E. destruct (wp_Jobs wp) as [|p0 ps] eqn:Ep; [discriminate E|]. rewrite <- Ep in *.
  destruct (CheckDependencies _ _) as [pending|] eqn:Ec; [|discriminate E]. destruct (workflow_jobs _ _) as [jobs|] eqn:Ej; [|discriminate E].
  destruct (encodeBatch _ _ _ _) as [b|]; [|discriminate E]. unfold write in E.
  destruct (WorkflowInsert_w wp jobs b x d) as [[r1 d1]|] eqn:Ew; [|discriminate E]. injection E as -> ->.
  apply WorkflowInsert_w_rows in Ew as (ids & rows & steps & reads & _ & _ & _ & Hid & Hr & _ & _ & _ & _ & _ & _ & Hp & Hd).
  exists pending, rows. split; [done|]. split; [done|]. split; [|now rewrite Hid].
  destruct (CheckDependencies_pending _ _ _ Ec) as (Hl & _). rewrite Nat2Z.id in Hl. rewrite <- (workflow_jobs_pending _ _ _ Hl Ej).
  clear -Hp. induction Hp as [|j r js rs H _ IH]; [done|]. cbn [List.map]. now rewrite H, IH.
Qed.

Definition job_at (res : WorkflowResult) (k : nat) : option JobRow := option_map (fun r => v_job (ir_Job r)) (wl_Jobs res !! k).

Lemma state_eqb_pending s : state_eqb s Pending = true <-> s = Pending.
Proof. now destruct s. Qed.

(** C33:
    A workflow a client inserts into the SQLite engine waits as its steps declare: each step is a job, in step order,
    pending exactly when it waits for some step; for every step and every step it waits for, an earlier one, the store
    has the edge between their jobs; and it has no edge, beside those it had, that no step declared. *)
Theorem workflow_waits_as_declared {F} pf ff c wf inTx now x d res d' :
  @insertWorkflow F pf ff c (Some wf) inTx now x d = (Ok res, d') ->
  List.length (wl_Jobs res) = List.length (wk_steps wf)
  /\ (forall k r, job_at res k = Some r -> j_State r = Pending <-> exists j g, declared wf k j g)
  /\ (forall k j g, declared wf k j g -> exists rk rj row, job_at res k = Some rk /\ job_at res j = Some rj /\ (j < k)%nat
        /\ In row (db_deps d') /\ d_job_id row = j_ID rk /\ d_depends_on row = j_ID rj)
  /\ (forall row, In row (db_deps d') -> In row (db_deps d) \/ exists k j g rk rj, declared wf k j g /\ job_at res k = Some rk /\ job_at res j = Some rj
        /\ d_job_id row = j_ID rk /\ d_depends_on row = j_ID rj /\ d_any_of row = match g with O => None | S _ => Some (Z.of_nat g) end).
Proof.
  intros E. cbn [insertWorkflow] in E. destruct (wk_steps wf) as [|s0 ss] eqn:Es; [discriminate E|]. rewrite <- Es in *. clear s0 ss Es.
  destruct (workflow_params _ _ _ _ _ _) as [wp|] eqn:Ep; [|discriminate E]. destruct (WorkflowInsert wp x d) as [[out|] d1] eqn:Ew; [|discriminate E].
  injection E as <- <-. apply workflow_params_Ok in Ep as (b & Eb & Ed & Est & El). apply WorkflowInsert_Ok in Ew as (pending & rows & Ec & Er & Hp & Hd).
  pose proof (build_spec wf) as B. rewrite Eb in B. destruct (built_checked _ _ B) as (pending' & Ec' & Hw). rewrite El, Ed in Ec. assert (pending' = pending) as -> by congruence.
  pose proof (built_workflow_ok _ _ B) as Hok. destruct B as [_ _ B3 _ _].
  assert (Hlen : List.length rows = List.length (wk_steps wf)).
  { destruct (CheckDependencies_pending _ _ _ Ec) as [Hl _]. rewrite Nat2Z.id, <- Hp, length_map in Hl. done. }
  set (res := mkWorkflowResult _ _ _). assert (Hat : forall k, job_at res k = rows !! k).
  { intros k. unfold job_at, res. cbn [wl_Jobs]. rewrite Er, List.map_map, list_lookup_fmap. now destruct (rows !! k). }
  assert (Hid : forall k r, rows !! k = Some r -> id_at (List.map j_ID rows) (Z.of_nat k) = j_ID r).
  { intros k r Hk. unfold id_at. rewrite Nat2Z.id, nth_lookup, list_lookup_fmap, Hk. done. }
  assert (Hrow : forall k j g s, wk_steps wf !! k = Some s -> waits (ws_opts s) j g -> exists rk rj, rows !! k = Some rk /\ rows !! j = Some rj /\ (j < k)%nat).
  { intros k j g s Hs W. destruct (waits_range _ _ _ _ _ (wk_edges_ok _ Hok _ _ Hs) W) as [Hj _]. apply lookup_lt_Some in Hs.
    destruct (lookup_lt_is_Some_2 rows k ltac:(lia)) as [rk Hk]. destruct (lookup_lt_is_Some_2 rows j ltac:(lia)) as [rj Hj']. eauto. }
  destruct (edge_inserts_spec (List.map j_ID rows) (wp_Steps wp) (wp_Deps wp) (db_deps d)) as (I1 & _ & I3). rewrite <- Hd in I1, I3. rewrite Ed in I1, I3.
  split; [unfold res; cbn [wl_Jobs]; now rewrite Er, !length_map|]. split; [|split].
  - intros k r. rewrite Hat. intros Hk. rewrite <- (Hw k) by (apply lookup_lt_Some in Hk; lia).
    rewrite <- Hp, list_lookup_fmap, Hk. cbn. rewrite <- state_eqb_pending. split; [now intros ->|now intros [= ->]].
  - intros k j g (s & Hs & W). destruct (Hrow _ _ _ _ Hs W) as (rk & rj & Hk & Hj & Hlt).
    destruct (I3 (edge_at k (ws_opts s) j g)) as (row & Hin & Hj1 & Hj2); [apply B3; exists k, s, j, g; apply lookup_lt_Some in Hs as ?; done|].
    exists rk, rj, row. rewrite !Hat. cbn [edge_row d_job_id d_depends_on edge_at edge_of jd_Job jd_DependsOn sp_i] in Hj1, Hj2.
    rewrite (Hid _ _ Hk) in Hj1. rewrite (Hid _ _ Hj) in Hj2. done.
  - intros row [?|(e & (k & s & j & g & Hk & Hs & W & ->)%B3 & ->)]%I1; [auto|]. right. destruct (Hrow _ _ _ _ Hs W) as (rk & rj & Hk' & Hj & Hlt).
    exists k, j, g, rk, rj. rewrite !Hat. split; [now exists s|]. split; [done|]. split; [done|].
    cbn [edge_row d_job_id d_depends_on d_any_of edge_at edge_of jd_Job jd_DependsOn jd_AnyOf sp_i]. split; [now apply Hid|]. split; [now apply Hid|]. now destruct g.
Qed.

(** A build tried two ways: "publish" goes on with whichever of two tests passes, once "lint" has. *)
Definition step_args (kind : string) : option JobArgs := Some (mkJobArgs kind None (Ok "{}") VOther).
Definition release_flow : Workflow :=
  let wf := NewWorkflow 7 "release" None in
  let (wf, lint) := Add wf (step_args "lint") None in
  let (wf, fast) := Add wf (step_args "test") (Some ((After [lint]) <| so_Name := "fast" |>)) in
  let (wf, slow) := Add wf (step_args "test") (Some ((After [lint]) <| so_Name := "slow" |>)) in
  fst (Add wf (step_args "publish") (Some (mkStepOpts [lint] [[fast; slow]] DependencyCancel "publish" true None))).
Definition release_run : result WorkflowResult * DB :=
  insertWorkflow (fun _ => None) (fun f : unit => "0") (mkConfig false [] 25) (Some release_flow) false 1000000000
    (mkW 1000000 (fun n => Z.of_nat n * 1000003 + 17)) empty_db.

Lemma workflow_waits_as_declared_witness : exists res d', release_run = (Ok res, d')
  /\ List.map (fun r => j_State (v_job (ir_Job r))) (wl_Jobs res) = [Available; Pending; Pending; Pending]
  /\ exists row r, job_at res 3 = Some r /\ In row (db_deps d') /\ d_job_id row = j_ID r.
Proof.
  destruct release_run as [[res|e] d'] eqn:E; [|vm_compute in E; discriminate E]. exists res, d'. split; [reflexivity|]. split.
  { vm_compute in E. injection E as <- _. vm_compute. reflexivity. }
  destruct (workflow_waits_as_declared _ _ _ _ _ _ _ _ _ _ E) as (_ & _ & H & _). destruct (H 3%nat 1%nat 1%nat) as (rk & rj & row & Hk & _ & _ & Hin & Hj & _).
  - eexists. split; [vm_compute; reflexivity|]. apply (waits_any _ 0%nat [mkStep 7 1; mkStep 7 2] (mkStep 7 1)); [reflexivity|]. now left.
  - exists row, rk. exact (conj Hk (conj Hin Hj)).
Defined.
