(* ===== verification/CronSpec.v ===== *)
(** * Cron schedules: theorems on Cron.v

    In a zone of one offset, Next is the first slot after its time, and the
    search for it ends; a field's bits are the values its parts cover.  Across
    a change of offset at midnight the search can miss a day's end or never
    end, which two runs in such zones show. *)

From Stdlib Require Import List ZArith Lia Bool String Ascii.
From S2P Require Import Prelude Text Types JsonCheck Calendar Dates Cron.
Import ListNotations.
Local Open Scope string_scope.
Local Open Scope Z_scope.

(** A slot of a schedule: every field matches. *)
Definition matches (s : CronSchedule) (t : Z) : bool :=
  month_ok s t && dayMatches s t && hour_ok s t && minute_ok s t && second_ok s t.

(** ** One field's loop

    A field divides time into units on which its test is constant; a step goes
    to the next unit's start.  [idx] counts the units within the next larger
    one, [higher] names that one. *)

Record unit_laws {H : Type} (ok : Z -> bool) (trunc next : Z -> Z) (rolled : Z -> bool)
    (unit_end : Z -> Z) (idx : Z -> Z) (top : Z) (higher : Z -> H) : Prop := {
  step_end : forall t, next (trunc t) = unit_end t;
  end_later : forall t, t < unit_end t;
  ok_unit : forall t v, t <= v < unit_end t -> ok v = ok t;
  end_aligned : forall t, trunc (unit_end t) = unit_end t;
  idx_top : forall t, top - 59 <= idx t <= top;
  end_index : forall t, rolled (unit_end t) = false -> idx (unit_end t) = idx t + 1 /\ higher (unit_end t) = higher t }.

Lemma loop_spec {H} ok trunc next rolled unit_end idx top (higher : Z -> H) fuel t reset :
  unit_laws ok trunc next rolled unit_end idx top higher ->
  (reset = true -> trunc t = t) -> top - idx t < Z.of_nat fuel ->
  match field_loop fuel ok trunc next rolled t reset with
  | Spent => False
  | Wrap t' => t < t' /\ trunc t' = t' /\ rolled t' = true /\ forall v, t <= v < t' -> ok v = false
  | Through t' r => t <= t' /\ ok t' = true /\ higher t' = higher t /\ (r = true -> trunc t' = t')
                    /\ forall v, t <= v < t' -> ok v = false
  end.
Proof.
  intros U. revert t reset. induction fuel as [|n IH]; intros t reset Hr Hf.
  - pose proof (idx_top _ _ _ _ _ _ _ _ U t). lia.
  - simpl. destruct (ok t) eqn:E; [repeat split; auto; lia|].
    assert (Hs : next (if reset then t else trunc t) = unit_end t).
    { rewrite <- (step_end _ _ _ _ _ _ _ _ U). destruct reset; [rewrite Hr|]; reflexivity. }
    rewrite Hs. pose proof (end_later _ _ _ _ _ _ _ _ U t) as Hl.
    assert (Hno : forall v, t <= v < unit_end t -> ok v = false)
      by (intros v Hv; rewrite (ok_unit _ _ _ _ _ _ _ _ U t v Hv); assumption).
    destruct (rolled (unit_end t)) eqn:Er; [repeat split; auto; apply (end_aligned _ _ _ _ _ _ _ _ U)|].
    specialize (IH (unit_end t) true (fun _ => end_aligned _ _ _ _ _ _ _ _ U t)).
    destruct (end_index _ _ _ _ _ _ _ _ U t Er) as [Ei Eh]. rewrite Ei, Eh in IH. specialize (IH ltac:(lia)).
    destruct (field_loop n ok trunc next rolled (unit_end t) true) as [t'|t' r|]; [| |assumption].
    + destruct IH as (L & A & R & N). repeat split; auto; [lia|].
      intros v Hv. destruct (Z.lt_ge_cases v (unit_end t)); auto with zarith.
    + destruct IH as (L & O & Hh & A & N). repeat split; auto; [lia|].
      intros v Hv. destruct (Z.lt_ge_cases v (unit_end t)); auto with zarith.
Qed.

#[local] Opaque first_of year_of month_of day_of.

(** ** A zone of one offset *)

Section Fixed.
Variables (s : CronSchedule) (off : Z).
Hypothesis zone : cs_loc s = fixed off.

Lemma local_fixed t : local (cs_loc s) t = t + off.
Proof. now rewrite zone. Qed.

Lemma Date_fixed y m d h mi sec :
  Date (cs_loc s) y m d h mi sec = days_of_civil y m d * 86400 + h * 3600 + mi * 60 + sec - off.
Proof.
  rewrite zone. unfold Date, fixed, offset. simpl. destruct (Z.eqb_spec off 0) as [->|]; [lia|]. now destruct (_ || _).
Qed.

(** The day's number, and the starts of the units an instant is in. *)
Definition day_no (t : Z) : Z := (t + off) / 86400.
Definition month_end (t : Z) : Z := first_of (year_of (day_no t)) (month_of (day_no t) + 1) * 86400 - off.
Definition unit_after (size t : Z) : Z := ((t + off) / size + 1) * size - off.

Ltac unfold_fields := unfold Year, Month, Day, Weekday, Hour, Minute, Second in *; rewrite ?local_fixed in *.

Lemma unit_after_spec size t : 0 < size ->
  t < unit_after size t /\ unit_after size t <= t + size /\ (unit_after size t + off) mod size = 0
  /\ (unit_after size t + off) / size = (t + off) / size + 1
  /\ forall v, t <= v < unit_after size t -> (v + off) / size = (t + off) / size.
Proof.
  intros H. unfold unit_after. pose proof (Z.div_mod (t + off) size). pose proof (Z.mod_pos_bound (t + off) size H).
  replace (((t + off) / size + 1) * size - off + off) with (((t + off) / size + 1) * size) by lia.
  rewrite Z.mod_mul, Z.div_mul by lia. repeat split; try lia.
  intros v Hv. symmetry. apply (Z.div_unique _ _ _ (v + off - (t + off) / size * size)); lia.
Qed.

Ltac euclid := Z.to_euclidean_division_equations; lia.
Ltac units t := pose proof (unit_after_spec 86400 t ltac:(lia)); pose proof (unit_after_spec 3600 t ltac:(lia));
  pose proof (unit_after_spec 60 t ltac:(lia)).

Lemma second_unit : unit_laws (second_ok s) (fun t => t) (Z.add 1) (second_rolled s)
  (fun t => t + 1) (Second (cs_loc s)) 59 (fun t => (t + off) / 60).
Proof.
  split; unfold second_rolled; intros; unfold_fields; try lia.
  - now replace v with t by lia.
  - euclid.
  - breflect. euclid.
Qed.

Lemma minute_unit : unit_laws (minute_ok s) (minute_trunc s) (Z.add 60) (minute_rolled s)
  (unit_after 60) (Minute (cs_loc s)) 59 (fun t => (t + off) / 3600).
Proof.
  split; unfold minute_rolled, minute_trunc, minute_ok, unit_after; intros; unfold_fields; breflect; try euclid.
  f_equal. euclid.
Qed.

Lemma hour_unit : unit_laws (hour_ok s) (hour_trunc s) (Z.add 3600) (hour_rolled s)
  (unit_after 3600) (Hour (cs_loc s)) 23 (fun t => (t + off) / 86400).
Proof.
  split; unfold hour_rolled, hour_trunc, hour_ok, unit_after; intros; unfold_fields; breflect; try euclid.
  f_equal. euclid.
Qed.

Lemma day_trunc_fixed t : day_trunc s t = day_no t * 86400 - off.
Proof.
  unfold day_trunc. rewrite Date_fixed, days_of_civil_first. unfold_fields. fold (day_no t).
  destruct (date_spec (day_no t)) as (_ & _ & -> & _). lia.
Qed.

(** The fields at a day's start. *)
Lemma at_midnight n : day_no (n * 86400 - off) = n /\ Hour (cs_loc s) (n * 86400 - off) = 0
  /\ Minute (cs_loc s) (n * 86400 - off) = 0 /\ Second (cs_loc s) (n * 86400 - off) = 0.
Proof. unfold day_no. unfold_fields. euclid. Qed.

Lemma day_of_day_no t : Year (cs_loc s) t = year_of (day_no t) /\ Month (cs_loc s) t = month_of (day_no t)
  /\ Day (cs_loc s) t = day_of (day_no t).
Proof. unfold_fields. auto. Qed.

Lemma day_next_midnight n : day_next s (n * 86400 - off) = (n + 1) * 86400 - off.
Proof.
  unfold day_next, AddDate. cbv zeta. rewrite Date_fixed.
  destruct (at_midnight n) as (En & -> & -> & ->). destruct (day_of_day_no (n * 86400 - off)) as (-> & -> & ->).
  rewrite En, days_of_civil_first, !Z.add_0_r. destruct (date_spec n) as (_ & _ & -> & _).
  replace (n - (day_of n - 1) + (day_of n + 1 - 1)) with (n + 1) by lia.
  now destruct (at_midnight (n + 1)) as (_ & -> & _).
Qed.

Lemma dayMatches_day_no t v : day_no v = day_no t -> dayMatches s v = dayMatches s t.
Proof. intros E. unfold dayMatches. unfold_fields. fold (day_no t) (day_no v). now rewrite E. Qed.

Lemma day_unit : unit_laws (dayMatches s) (day_trunc s) (day_next s) (day_rolled s)
  (unit_after 86400) (Day (cs_loc s)) 31 (fun t => (year_of (day_no t), month_of (day_no t))).
Proof.
  assert (A : forall t, unit_after 86400 t = (day_no t + 1) * 86400 - off) by reflexivity.
  split; intros; rewrite ?A in *.
  - rewrite day_trunc_fixed. apply day_next_midnight.
  - unfold day_no. euclid.
  - apply dayMatches_day_no. unfold day_no in *. euclid.
  - rewrite day_trunc_fixed. now destruct (at_midnight (day_no t + 1)) as (-> & _).
  - destruct (day_of_day_no t) as (_ & _ & ->). destruct (date_spec (day_no t)). lia.
  - unfold day_rolled in *. destruct (day_of_day_no t) as (_ & _ & ->).
    destruct (day_of_day_no ((day_no t + 1) * 86400 - off)) as (_ & _ & E). rewrite E in *.
    destruct (at_midnight (day_no t + 1)) as (En & _). rewrite En in *. set (n := day_no t) in *. breflect.
    destruct (date_spec n) as (Hm & Hd & F & L).
    destruct (Z.eq_dec (n + 1) (first_of (year_of n) (month_of n + 1))) as [En'|En'].
    + rewrite En' in *. destruct (next_month n) as [E1 _]. contradiction.
    + destruct (same_month n (n + 1)) as (-> & -> & ->); [lia|]. split; [lia|reflexivity].
Qed.

Lemma month_next_midnight f : day_of f = 1 ->
  month_next s (f * 86400 - off) = first_of (year_of f) (month_of f + 1) * 86400 - off.
Proof.
  intros D. unfold month_next, AddDate. rewrite Date_fixed, days_of_civil_first.
  destruct (at_midnight f) as (En & -> & -> & ->). destruct (day_of_day_no (f * 86400 - off)) as (-> & -> & ->).
  rewrite En, D, !Z.add_0_r. lia.
Qed.

Lemma month_midnight z : Month (cs_loc s) (z * 86400 - off) = month_of z.
Proof. destruct (day_of_day_no (z * 86400 - off)) as (_ & -> & _), (at_midnight z) as (-> & _). reflexivity. Qed.

Lemma month_trunc_fixed t : month_trunc s t = first_of (year_of (day_no t)) (month_of (day_no t)) * 86400 - off.
Proof.
  unfold month_trunc. rewrite Date_fixed, days_of_civil_first. destruct (day_of_day_no t) as (-> & -> & _). lia.
Qed.

Lemma day_no_before t z : t < z * 86400 - off -> day_no t < z.
Proof. intros H. unfold day_no. apply Z.div_lt_upper_bound; lia. Qed.

Lemma month_same t v : t <= v < month_end t -> Month (cs_loc s) v = Month (cs_loc s) t.
Proof.
  intros [H1 H2]. apply day_no_before in H2.
  assert (L : day_no t <= day_no v) by (unfold day_no; apply Z.div_le_mono; lia).
  destruct (date_spec (day_no t)) as (_ & Hd & F & _).
  destruct (same_month (day_no t) (day_no v)) as (_ & E & _); [rewrite F; split; [lia|exact H2]|].
  destruct (day_of_day_no t) as (_ & -> & _). destruct (day_of_day_no v) as (_ & -> & _). exact E.
Qed.

Lemma month_index t : month_rolled s (month_end t) = false ->
  Month (cs_loc s) (month_end t) = Month (cs_loc s) t + 1.
Proof.
  unfold month_rolled, month_end. rewrite month_midnight. destruct (day_of_day_no t) as (_ & -> & _).
  destruct (next_month (day_no t)) as (_ & N). intros Hz.
  destruct (month_of (day_no t) =? 12); destruct N as [_ N]; rewrite N in *; [discriminate|reflexivity].
Qed.

Lemma month_unit : unit_laws (month_ok s) (month_trunc s) (month_next s) (month_rolled s)
  month_end (Month (cs_loc s)) 12 (fun _ => tt).
Proof.
  split; intros.
  - unfold month_end in *; rewrite ?month_trunc_fixed in *. destruct (month_start (day_no t)) as (E1 & E2 & E3). rewrite month_next_midnight by assumption. now rewrite E1, E2.
  - unfold month_end in *; rewrite ?month_trunc_fixed in *. destruct (date_spec (day_no t)) as (_ & _ & _ & L). revert L. generalize (first_of (year_of (day_no t)) (month_of (day_no t) + 1)).
    unfold day_no. intros z L. euclid.
  - unfold month_ok. f_equal. now apply month_same.
  - unfold month_end in *; rewrite ?month_trunc_fixed in *. destruct (next_month (day_no t)) as (D & _). revert D. generalize (first_of (year_of (day_no t)) (month_of (day_no t) + 1)).
    intros z D. destruct (at_midnight z) as (-> & _). destruct (date_spec z) as (_ & _ & -> & _). rewrite D. lia.
  - destruct (day_of_day_no t) as (_ & -> & _). destruct (date_spec (day_no t)). lia.
  - split; [|reflexivity]. apply month_index. assumption.
Qed.

(** ** One pass over the fields *)

(** No slot from [a] to before [b]. *)
Definition clear (a b : Z) : Prop := forall v, a <= v < b -> matches s v = false.

(** A loop from [t] skips no slot; it wraps at a minute's start, or goes
    through with [Q]. *)
Definition good (t : Z) (o : outcome) (Q : Z -> bool -> Prop) : Prop :=
  match o with
  | Spent => False
  | Wrap t' => t < t' /\ (t' + off) mod 60 = 0 /\ clear t t'
  | Through t' r => t <= t' /\ clear t t' /\ Q t' r
  end.

Lemma good_then t o k Q R :
  good t o Q -> (forall t' r, Q t' r -> good t' (k t' r) R) -> good t (then_ o k) R.
Proof.
  assert (C : forall a b c, clear a b -> clear b c -> clear a c).
  { intros a b c H1 H2 v Hv. destruct (Z.lt_ge_cases v b); [apply H1|apply H2]; lia. }
  intros G K. destruct o as [t1|t1 r1|]; simpl in *; auto. destruct G as (L & N & HQ).
  specialize (K t1 r1 HQ). destruct (k t1 r1) as [t2|t2 r2|]; simpl in *; auto; destruct K as (L' & K);
    repeat split; try tauto; try lia; apply (C t t1 t2); tauto.
Qed.

Lemma good_weaken t o Q (R : Z -> bool -> Prop) : good t o Q -> (forall t' r, Q t' r -> R t' r) -> good t o R.
Proof. destruct o; simpl; intuition auto. Qed.

(** A loop whose unit has the laws is good. *)
Lemma good_loop {H} ok trunc next rolled unit_end idx top (higher : Z -> H) t reset :
  unit_laws ok trunc next rolled unit_end idx top higher ->
  (forall v, matches s v = true -> ok v = true) ->
  (reset = true -> trunc t = t) ->
  (forall u, trunc u = u -> rolled u = true -> (u + off) mod 60 = 0) ->
  good t (field_loop loop_fuel ok trunc next rolled t reset)
    (fun t' r => ok t' = true /\ higher t' = higher t /\ (r = true -> trunc t' = t')).
Proof.
  intros U Hm Hr Ha. pose proof (idx_top _ _ _ _ _ _ _ _ U t).
  pose proof (loop_spec _ _ _ _ _ _ _ _ loop_fuel t reset U Hr ltac:(unfold loop_fuel; lia)) as L.
  assert (C : forall t', (forall v, t <= v < t' -> ok v = false) -> clear t t').
  { intros t' N v Hv. destruct (matches s v) eqn:E; [|reflexivity]. apply Hm in E. rewrite N in E by lia. discriminate. }
  destruct (field_loop _ _ _ _ _ _ _) as [t'|t' r|]; simpl; [| |assumption].
  - destruct L as (L & E & R & N). auto.
  - destruct L as (L & O & Hh & E & N). auto.
Qed.

Lemma matches_fields v : matches s v = true ->
  month_ok s v = true /\ dayMatches s v = true /\ hour_ok s v = true /\ minute_ok s v = true /\ second_ok s v = true.
Proof. unfold matches. intros E. breflect. auto. Qed.

(** A unit's start is the start of the smaller units in it. *)
Lemma day_start u : day_trunc s u = u -> hour_trunc s u = u /\ (u + off) mod 60 = 0.
Proof.
  intros E. rewrite day_trunc_fixed in E. rewrite <- E. unfold hour_trunc.
  destruct (at_midnight (day_no u)) as (_ & _ & -> & ->). split; [lia|]. euclid.
Qed.
Lemma month_start_day u : month_trunc s u = u -> day_trunc s u = u.
Proof.
  intros E. rewrite month_trunc_fixed in E. revert E. generalize (first_of (year_of (day_no u)) (month_of (day_no u))).
  intros z E. rewrite <- E at 1 2. rewrite day_trunc_fixed. now destruct (at_midnight z) as (-> & _).
Qed.
Lemma hour_start u : hour_trunc s u = u -> minute_trunc s u = u /\ (u + off) mod 60 = 0.
Proof. intros E. unfold hour_trunc, minute_trunc in *. unfold_fields. split; euclid. Qed.
Lemma minute_start u : minute_trunc s u = u -> (u + off) mod 60 = 0.
Proof. unfold minute_trunc. unfold_fields. lia. Qed.

(** A larger unit fixes the fields above it. *)
Lemma same_minute t v : (v + off) / 60 = (t + off) / 60 ->
  minute_ok s v = minute_ok s t /\ (v + off) / 3600 = (t + off) / 3600.
Proof. intros H. unfold minute_ok. unfold_fields. split; [f_equal|]; euclid. Qed.
Lemma same_hour t v : (v + off) / 3600 = (t + off) / 3600 -> hour_ok s v = hour_ok s t /\ day_no v = day_no t.
Proof. intros H. unfold hour_ok, day_no. unfold_fields. split; [f_equal|]; euclid. Qed.
Lemma same_date t v : month_of (day_no v) = month_of (day_no t) -> month_ok s v = month_ok s t.
Proof.
  intros E. unfold month_ok. f_equal.
  destruct (day_of_day_no t) as (_ & -> & _). destruct (day_of_day_no v) as (_ & -> & _). exact E.
Qed.

Lemma pass_spec t : good t (pass s t) (fun u _ => matches s u = true).
Proof.
  unfold pass, months, days, hours, minutes, seconds. eapply good_then.
  { refine (good_loop _ _ _ _ _ _ _ _ t false month_unit _ _ _); [apply matches_fields|discriminate|].
    intros u E _. now apply day_start, month_start_day. }
  intros t1 r1 (O1 & _ & R1). eapply good_then.
  { refine (good_loop _ _ _ _ _ _ _ _ t1 r1 day_unit _ _ _); [apply matches_fields| |].
    - intros R. now apply month_start_day, R1.
    - intros u E _. now apply day_start. }
  intros t2 r2 (O2 & E2 & R2). injection E2 as _ E2. eapply good_then.
  { refine (good_loop _ _ _ _ _ _ _ _ t2 r2 hour_unit _ _ _); [apply matches_fields| |].
    - intros R. now apply day_start, R2.
    - intros u E _. now apply hour_start. }
  intros t3 r3 (O3 & E3 & R3). eapply good_then.
  { refine (good_loop _ _ _ _ _ _ _ _ t3 r3 minute_unit _ _ _); [apply matches_fields| |].
    - intros R. now apply hour_start, R3.
    - intros u E _. now apply minute_start. }
  intros t4 r4 (O4 & E4 & _). eapply good_weaken.
  { refine (good_loop _ _ _ _ _ _ _ _ t4 r4 second_unit _ _ _); [apply matches_fields|reflexivity|].
    intros u _ R. unfold second_rolled in R. unfold_fields. breflect. assumption. }
  intros t5 r5 (O5 & E5 & _). fold (day_no t3) (day_no t2) in E3.
  destruct (same_minute t4 t5 E5) as [Q1 Q2]. destruct (same_hour t3 t5) as [Q3 Q4]; [congruence|].
  unfold matches. rewrite Q3, Q1, O3, O4, O5, (dayMatches_day_no t2 t5), O2, (same_date t1 t5), O1 by congruence. reflexivity.
Qed.

(** ** The search *)

Lemma Year_fixed v : Year (cs_loc s) v = year_of (day_no v).
Proof. apply day_of_day_no. Qed.

(** The years up to [y] end at the first of the next one. *)
Lemma year_ends n y : year_of n <= y -> n < first_of (y + 1) 1.
Proof.
  intros H. destruct (Z.lt_ge_cases n (first_of (y + 1) 1)) as [|L]; [assumption|].
  apply year_of_mono in L. destruct (in_month_unique (y + 1) 1 (first_of (y + 1) 1)) as [E _]; [|lia].
  pose proof (month_length (y + 1) 1 ltac:(lia)). split; lia.
Qed.

Lemma next_from_spec fuel limit t :
  first_of (limit + 1) 1 * 1440 - (t + off) / 60 <= Z.of_nat fuel ->
  match next_from s fuel limit t with
  | OutOfFuel => False
  | Slot u => t <= u /\ matches s u = true /\ clear t u
  | NoSlot => forall v, t <= v -> Year (cs_loc s) v <= limit -> matches s v = false
  end.
Proof.
  assert (Over : forall t, Year (cs_loc s) t > limit -> forall v, t <= v -> Year (cs_loc s) v <= limit -> matches s v = false).
  { intros u Hu v Hv Hy. rewrite Year_fixed in *.
    assert (day_no u <= day_no v) as M%year_of_mono by (unfold day_no; apply Z.div_le_mono; lia). lia. }
  revert t. induction fuel as [|n IH]; intros t Hf; simpl;
    (destruct (Z.gtb_spec (Year (cs_loc s) t) limit); [apply (Over t); lia|]);
    (assert (B : (t + off) / 60 < first_of (limit + 1) 1 * 1440)
      by (rewrite Year_fixed in *; match goal with H : year_of _ <= limit |- _ => apply year_ends in H end; unfold day_no in *; euclid)).
  - lia.
  - pose proof (pass_spec t) as P. destruct (pass s t) as [t'|t' r|]; simpl in P; [|tauto|contradiction].
    destruct P as (L & A & C). specialize (IH t').
    assert ((t + off) / 60 + 1 <= (t' + off) / 60) by euclid. specialize (IH ltac:(lia)).
    destruct (next_from s n limit t') as [u| |]; [| |contradiction].
    + destruct IH as (L' & M & C'). repeat split; [lia|assumption|].
      intros v Hv. destruct (Z.lt_ge_cases v t'); [apply C|apply C']; lia.
    + intros v Hv Hy. destruct (Z.lt_ge_cases v t'); [apply C; lia|now apply IH].
Qed.

Lemma year_length y : first_of (y + 1) 1 <= first_of y 1 + 366.
Proof.
  rewrite (first_of_in_year (y + 1) 1), (first_of_in_year y 1) by lia. simpl.
  pose proof (march_step (y - 1)). replace (y - 1 + 1) with (y + 1 - 1) in * by lia. lia.
Qed.

Lemma next_fuel_enough t : first_of (Year (cs_loc s) t + 5 + 1) 1 * 1440 - (t + off) / 60 <= Z.of_nat next_fuel.
Proof.
  rewrite Year_fixed. unfold next_fuel. rewrite Z2Nat.id by lia. set (y := year_of (day_no t)).
  pose proof (year_length y). pose proof (year_length (y + 1)). pose proof (year_length (y + 1 + 1)).
  pose proof (year_length (y + 1 + 1 + 1)). pose proof (year_length (y + 1 + 1 + 1 + 1)).
  pose proof (year_length (y + 1 + 1 + 1 + 1 + 1)).
  replace (y + 5 + 1) with (y + 1 + 1 + 1 + 1 + 1 + 1) by lia.
  assert (first_of y 1 <= day_no t).
  { destruct (Z.lt_ge_cases (day_no t) (first_of y 1)) as [L|]; [|assumption].
    assert (E : year_of (first_of y 1 - 1) <= y - 1).
    { destruct (in_month_unique (y - 1) 12 (first_of y 1 - 1)) as [E _]; [|lia].
      pose proof (month_length (y - 1) 12 ltac:(lia)) as B. change (12 + 1) with 13 in B. rewrite first_of_next_year, Z.sub_add in B.
      split; [lia|]. change (12 + 1) with 13. rewrite first_of_next_year, Z.sub_add. lia. }
    assert (M : day_no t <= first_of y 1 - 1) by lia. apply year_of_mono in M. fold y in M. lia. }
  unfold day_no in *. euclid.
Qed.
End Fixed.

Lemma Next_first s off t : cs_loc s = fixed off ->
  match CronSchedule_Next s t with
  | Slot u => t < u * 1000000000 /\ matches s u = true /\ forall v, t < v * 1000000000 -> v < u -> matches s v = false
  | NoSlot => forall v, t < v * 1000000000 -> Year (cs_loc s) v <= Year (cs_loc s) (t / 1000000000 + 1) + 5 -> matches s v = false
  | OutOfFuel => False
  end.
Proof.
  intros Z. unfold CronSchedule_Next. set (t0 := t / 1000000000 + 1).
  pose proof (next_from_spec s off Z next_fuel (Year (cs_loc s) t0 + 5) t0 (next_fuel_enough s off Z t0)) as N.
  assert (B : forall v, t < v * 1000000000 -> t0 <= v) by (intros v Hv; subst t0; pose proof (Z.div_lt_upper_bound t 1000000000 v); lia).
  destruct (next_from s next_fuel _ t0) as [u| |]; [| |contradiction].
  - destruct N as (L & M & C). repeat split; [|assumption|intros v Hv Hu; apply C; split; auto].
    subst t0. pose proof (Z.div_mod t 1000000000). pose proof (Z.mod_pos_bound t 1000000000). lia.
  - intros v Hv Hy. apply N; auto.
Qed.

Lemma Year_mono s off u v : cs_loc s = fixed off -> u <= v -> Year (cs_loc s) u <= Year (cs_loc s) v.
Proof. intros Z H. rewrite !(Year_fixed s off Z). apply year_of_mono. unfold day_no. apply Z.div_le_mono; lia. Qed.

(** C10: In a zone of one offset, such as UTC, Next finds the first slot strictly
    after its time, and reports none only if there is none up to the end of
    the fifth year after; the search always ends. *)
Theorem Next_first_slot s off t : cs_loc s = fixed off ->
  match CronSchedule_Next s t with
  | Slot u => t < u * 1000000000 /\ matches s u = true /\ forall v, t < v * 1000000000 -> v < u -> matches s v = false
  | NoSlot => forall v, t < v * 1000000000 -> Year (cs_loc s) v <= Year (cs_loc s) (t / 1000000000 + 1) + 5 -> matches s v = false
  | OutOfFuel => False
  end.
Proof. apply Next_first. Qed.

(** ** Fields *)

Definition in_step (start end_ step i : Z) : bool := (start <=? i) && (i <=? end_) && ((i - start) mod step =? 0).

Lemma in_step_next i end_ step j : 0 < step -> i <= end_ ->
  in_step i end_ step j = (j =? i) || in_step (i + step) end_ step j.
Proof.
  intros Hs Hi. unfold in_step. destruct (Z.eqb_spec j i) as [->|N].
  - rewrite Z.leb_refl, Z.sub_diag, Z.mod_0_l by lia. simpl. now destruct (Z.leb_spec i end_); [|lia].
  - simpl. destruct (Z.leb_spec j end_); [|now rewrite !andb_false_r]. rewrite !andb_true_r.
    replace ((j - i) mod step) with ((j - (i + step)) mod step)
      by (rewrite <- (Z.mod_add (j - (i + step)) 1 step) by lia; f_equal; lia).
    destruct (Z.eqb_spec ((j - (i + step)) mod step) 0) as [M|M]; [|now rewrite !andb_false_r]. rewrite !andb_true_r.
    destruct (Z.leb_spec i j), (Z.leb_spec (i + step) j); try reflexivity; [exfalso|lia].
    apply Z.mod_divide in M as [q M]; [|lia]. assert (D : j - i = (q + 1) * step) by lia.
    assert (q + 1 <= 0 \/ 1 <= q + 1) as [Q|Q] by lia; nia.
Qed.

Lemma set_bits_spec fuel : forall i end_ step bits,
  0 <= i -> end_ < 64 -> 0 < step -> end_ + step < 2 ^ 63 -> end_ - i < Z.of_nat fuel ->
  exists b, set_bits fuel i end_ step bits = Some b
  /\ forall j, 0 <= j -> Z.testbit b j = Z.testbit bits j || in_step i end_ step j.
Proof.
  induction fuel as [|n IH]; intros i end_ step bits Hi He Hs Hw Hf; simpl.
  - destruct (Z.leb_spec i end_); [lia|]. exists bits. split; [reflexivity|]. intros j Hj. unfold in_step.
    destruct (Z.leb_spec i j), (Z.leb_spec j end_); try lia; now rewrite orb_false_r.
  - destruct (Z.leb_spec i end_) as [L|L].
    + rewrite wrap64_id by lia. destruct (Z.leb_spec 0 i); [|lia]. destruct (Z.ltb_spec i 64); [|lia]. simpl.
      destruct (IH (i + step) end_ step (Z.lor bits (Z.shiftl 1 i))) as (b & E & B); try lia.
      exists b. split; [exact E|]. intros j Hj. rewrite B, Z.lor_spec, (in_step_next i end_ step j), orb_assoc by lia.
      do 2 f_equal. rewrite Z.shiftl_1_l. destruct (Z.eqb_spec j i) as [->|N]; [now apply Z.pow2_bits_true|].
      now apply Z.pow2_bits_false; auto.
    + exists bits. split; [reflexivity|]. intros j Hj. unfold in_step.
      destruct (Z.leb_spec i j), (Z.leb_spec j end_); try lia; now rewrite orb_false_r.
Qed.

(** What a part of a field covers. *)
Definition part_bounds (part : string) (lo hi : Z) (names : list (string * Z)) : option (Z * Z * Z * bool) :=
  let '(rangeExpr, stepExpr, hasStep) := cut "/" part in
  match part_range rangeExpr hasStep lo hi names, part_step stepExpr hasStep with
  | Ok (start, end_, all), Ok step => Some (start, end_, step, all)
  | _, _ => None
  end.
Definition covers (lo hi : Z) (names : list (string * Z)) (i : Z) (part : string) : bool :=
  match part_bounds part lo hi names with Some (start, end_, step, _) => in_step start end_ step i | None => false end.
Definition stars (lo hi : Z) (names : list (string * Z)) (part : string) : bool :=
  match part_bounds part lo hi names with Some (_, _, _, all) => all | None => false end.
(** A step that cannot overflow in the loop. *)
Definition step_fits (part : string) : bool :=
  let '(_, stepExpr, hasStep) := cut "/" part in
  match part_step stepExpr hasStep with Ok step => step <? 2 ^ 63 - 64 | Err _ => true end.

Lemma part_step_pos se hs step : part_step se hs = Ok step -> 0 < step.
Proof.
  unfold part_step. intros E. destruct hs; [|injection E as <-; lia].
  destruct (atoi se) as [z|]; [|discriminate]. destruct (Z.leb_spec z 0); [discriminate|].
  injection E as <-. assumption.
Qed.

Lemma parse_parts_spec parts lo hi names : 0 <= lo -> hi < 64 -> forallb step_fits parts = true ->
  forall bits star bits' star', parse_parts parts lo hi names bits star = Ok (bits', star') ->
  (forall i, 0 <= i -> Z.testbit bits' i = Z.testbit bits i || existsb (covers lo hi names i) parts)
  /\ star' = star || existsb (stars lo hi names) parts.
Proof.
  intros Hlo Hhi. induction parts as [|part rest IH]; intros Hf bits star bits' star' E; cbn [parse_parts existsb forallb] in *.
  - injection E as <- <-. split; [intros|]; now rewrite orb_false_r.
  - apply andb_true_iff in Hf as [Hp Hf]. unfold covers at 1, stars at 1, part_bounds. unfold step_fits in Hp.
    destruct (cut "/" part) as [[re se] hs].
    destruct (part_range re hs lo hi names) as [[[start end_] all]|e]; [|discriminate].
    destruct (part_step se hs) as [step|e] eqn:Es; [|discriminate].
    destruct (_ || _) eqn:Eb; [discriminate|]. breflect.
    pose proof (part_step_pos se hs step Es).
    destruct (set_bits_spec bits_fuel start end_ step bits) as (b & Eb' & B); try lia.
    { change (Z.of_nat bits_fuel) with 200. lia. }
    rewrite Eb' in E.
    destruct (IH Hf _ _ _ _ E) as [IB IS]. split.
    + intros i Hi. now rewrite IB, B, orb_assoc.
    + now rewrite IS, orb_assoc.
Qed.

(** The bits of a cron field are the values its parts cover: those from a
    part's start to its end by its step; and the field is unrestricted exactly
    if one of its parts is a star without a step.  For steps that do not
    overflow the loop's int64 counter. *)
Theorem parseCronField_bits expr lo hi names bits star :
  0 <= lo -> hi < 64 -> forallb step_fits (split "," expr) = true ->
  parseCronField expr lo hi names = Ok (bits, star) ->
  (forall i, 0 <= i -> Z.testbit bits i = existsb (covers lo hi names i) (split "," expr))
  /\ star = existsb (stars lo hi names) (split "," expr).
Proof.
  intros Hlo Hhi Hf E. unfold parseCronField in E. destruct (String.eqb expr ""); [discriminate|].
  destruct (parse_parts_spec _ lo hi names Hlo Hhi Hf _ _ _ _ E) as [B S].
  split; [|exact S]. intros i Hi. now rewrite B, Z.bits_0 by assumption.
Qed.

Lemma parseCronField_bits_witness :
  (forall i, 0 <= i -> Z.testbit 546 i = existsb (covers 0 59 [] i) ["1-10/4"; "5"])
  /\ false = existsb (stars 0 59 []) ["1-10/4"; "5"].
Proof. apply (parseCronField_bits "1-10/4,5" 0 59 [] 546 false); [lia|lia|reflexivity|vm_compute; reflexivity]. Defined.

(** A step near the largest int64 wraps the loop's counter around, and sets the
    bits of values below the part's start. *)
Lemma cron_step_wraps :
  parseCronField "5/9223372036854775807" 0 59 [] = Ok (2 ^ 5 + 2 ^ 3 + 2 ^ 1, false)
  /\ parseCronField "5/60" 0 59 [] = Ok (2 ^ 5, false).
Proof. split; vm_compute; reflexivity. Qed.

Lemma Next_first_slot_witness :
  let s := mkCronSchedule "30 9 * * MON" 1 (2 ^ 30) (2 ^ 9) (2 ^ 32 - 2) (2 ^ 13 - 2) 2 true false UTC in
  CronSchedule_Next s 1760000000000000000 = Slot 1760347800 /\
  match CronSchedule_Next s 1760000000000000000 with
  | Slot u => 1760000000000000000 < u * 1000000000 /\ matches s u = true
              /\ forall v, 1760000000000000000 < v * 1000000000 -> v < u -> matches s v = false
  | _ => True
  end.
Proof.
  intros s. split; [vm_compute; reflexivity|].
  pose proof (Next_first_slot s 0 1760000000000000000 eq_refl) as N.
  destruct (CronSchedule_Next s 1760000000000000000); [exact N|exact I|exact I].
Defined.

(** ** Changes of offset at midnight *)

(** A zone whose offset changes once. *)
Definition change (before at_ after : Z) : Location :=
  mkLocation (fun t => if t <? at_ then (before, - 2 ^ 63, at_) else (after, at_, 2 ^ 63 - 1)).

(** Havana on March 9th, 2025, and Cairo on April 25th: an hour is skipped at midnight. *)
Definition havana : Location := change (-5 * 3600) (days_of_civil 2025 3 9 * 86400 + 5 * 3600) (-4 * 3600).
Definition cairo : Location := change (2 * 3600) (days_of_civil 2025 4 25 * 86400 - 2 * 3600) (3 * 3600).
Definition zones (name : string) : option Location :=
  if String.eqb name "America/Havana" then Some havana else if String.eqb name "Africa/Cairo" then Some cairo else None.

Definition monday_nine : CronSchedule :=
  mkCronSchedule "CRON_TZ=America/Havana 0 9 * * MON" 1 1 (2 ^ 9) (2 ^ 32 - 2) (2 ^ 13 - 2) 2 true false havana.
Definition thursday_one : CronSchedule :=
  mkCronSchedule "CRON_TZ=Africa/Cairo 0 1 * * THU" 1 1 2 (2 ^ 32 - 2) (2 ^ 13 - 2) 16 true false cairo.

(** A change of offset at midnight defeats the search for the next slot.
    West of Greenwich, where the instant time.Date gives for the skipped
    midnight is the evening before, the loop over the days returns to the same
    day for ever, though the schedule has slots.  East of it, the loop over
    the hours passes into the next day without noticing, and the slot returned
    is on a day the schedule does not have. *)
Theorem cron_midnight_change :
  let saturday := days_of_civil 2025 3 8 * 86400 + 5 * 3600 in
  let thursday := days_of_civil 2025 4 24 * 86400 - 3600 in
  ParseCron zones "CRON_TZ=America/Havana 0 9 * * MON" = Ok monday_nine
  /\ CronSchedule_Next monday_nine (saturday * 1000000000) = OutOfFuel
  /\ (forall fuel, field_loop fuel (dayMatches monday_nine) (day_trunc monday_nine) (day_next monday_nine)
                     (day_rolled monday_nine) saturday true = Spent)
  /\ matches monday_nine (days_of_civil 2025 3 10 * 86400 + 13 * 3600) = true
  /\ ParseCron zones "CRON_TZ=Africa/Cairo 0 1 * * THU" = Ok thursday_one
  /\ CronSchedule_Next thursday_one (thursday * 1000000000) = Slot (thursday + 23 * 3600)
  /\ dayMatches thursday_one (thursday + 23 * 3600) = false.
Proof.
  intros saturday thursday.
  split; [cbv -[havana]; reflexivity|]. split; [vm_compute; reflexivity|]. split.
  - assert (D : dayMatches monday_nine saturday = false) by (vm_compute; reflexivity).
    assert (N : day_next monday_nine saturday = saturday) by (vm_compute; reflexivity).
    assert (R : day_rolled monday_nine saturday = false) by (vm_compute; reflexivity).
    clearbody saturday. induction fuel as [|n IH]; simpl; rewrite D; [reflexivity|]. now rewrite N, R.
  - split; [vm_compute; reflexivity|]. split; [cbv -[cairo]; reflexivity|].
    split; vm_compute; reflexivity.
Qed.
