(* ===== verification/PeriodicSpec.v ===== *)
(** * Periodic jobs: theorems on Periodic.v

    The slots a job back-fills are the most recent ones it missed, a pass inserts
    the slots that came due in order and once each, and the loop never sleeps
    past a slot.  What a schedule promises its clients is the class [Schedule],
    which intervals and cron expressions in a zone of one offset have. *)

From Stdlib Require Import List ZArith Lia Bool String Sorted.
From stdpp Require Import base tactics list gmap strings.
From S2P Require Import Prelude Sql Text Types Store Insert Cluster Dates Cron CronSpec Unique Inserting Periodic.
Import ListNotations.
Local Open Scope string_scope.
Local Open Scope Z_scope.
Local Open Scope list_scope.

(** ** Loops *)

(** A loop with an invariant and a measure below its turns ends. *)
Lemma loop_rule {A B} (f : A -> A + B) (Inv : A -> Prop) (m : A -> Z) (Q : B -> Prop) :
  (forall a, Inv a -> match f a with inl a' => Inv a' /\ 0 <= m a' < m a | inr b => Q b end) ->
  forall p a, Inv a -> m a < Zpos p -> exists b, ends (loop p f a) = Some b /\ Q b.
Proof.
  intros Hf p a Ha Hm.
  assert (H : match loop p f a with inl a' => Inv a' /\ 0 <= m a' <= m a - Zpos p | inr b => Q b end).
  { clear Hm. revert a Ha. induction p as [q IH|q IH|]; intros a Ha; cbn [loop].
    - pose proof (Hf a Ha) as H0. destruct (f a) as [a1|b]; [|exact H0]. destruct H0 as [H0 M0].
      pose proof (IH a1 H0) as H1. destruct (loop q f a1) as [a2|b]; [|exact H1]. destruct H1 as [H1 M1].
      pose proof (IH a2 H1) as H2. destruct (loop q f a2) as [a3|b]; [|exact H2]. destruct H2 as [H2 M2]. split; [exact H2|lia].
    - pose proof (IH a Ha) as H1. destruct (loop q f a) as [a2|b]; [|exact H1]. destruct H1 as [H1 M1].
      pose proof (IH a2 H1) as H2. destruct (loop q f a2) as [a3|b]; [|exact H2]. destruct H2 as [H2 M2]. split; [exact H2|lia].
    - pose proof (Hf a Ha) as H0. destruct (f a) as [a1|b]; [|exact H0]. destruct H0. split; [done|lia]. }
  destruct (loop p f a) as [a'|b]; [lia|]. now exists b.
Qed.

(** ** Schedules *)

(** Between [lo] and [hi], Next is the first slot after its time, or the zero time when there is none. *)
Class Schedule (next : Z -> option Z) (slot : Z -> bool) (lo hi : Z) : Prop := {
  next_some : forall t u, lo <= t <= hi -> next t = Some u -> t < u /\ slot u = true /\ forall v, t < v < u -> slot v = false;
  next_none : forall t, lo <= t <= hi -> next t = None -> forall v, t < v <= hi -> slot v = false }.

Definition slots_in (slot : Z -> bool) (a b : Z) (l : list Z) : Prop := StronglySorted Z.lt l /\ forall t, In t l <-> a < t <= b /\ slot t = true.
(** The first slot after [now], or none up to [hi]. *)
Definition first_after (slot : Z -> bool) (now hi : Z) (o : option Z) : Prop :=
  match o with
  | Some u => now < u /\ slot u = true /\ forall v, now < v < u -> slot v = false
  | None => forall v, now < v <= hi -> slot v = false
  end.

Lemma sorted_ext (l m : list Z) : StronglySorted Z.lt l -> StronglySorted Z.lt m -> (forall t, In t l <-> In t m) -> l = m.
Proof.
  intros Hl. revert m. induction Hl as [|a l Hl IH Ha]; intros m Hm H; destruct Hm as [|b m Hm Hb]; [done|exfalso; apply (H b); now left|exfalso; apply (H a); now left|].
  rewrite List.Forall_forall in Ha, Hb. assert (a = b) as ->.
  { destruct (proj1 (H a) (or_introl eq_refl)) as [|Hin]; [done|]. destruct (proj2 (H b) (or_introl eq_refl)) as [|Hin']; [done|].
    specialize (Ha b Hin'). specialize (Hb a Hin). lia. }
  f_equal. apply IH; [done|]. intros t. split; intros Ht.
  - destruct (proj1 (H t) (or_intror Ht)) as [<-|]; [|done]. specialize (Ha b Ht). lia.
  - destruct (proj2 (H t) (or_intror Ht)) as [<-|]; [|done]. specialize (Hb b Ht). lia.
Qed.

Section Facts.
Context (slot : Z -> bool).

Lemma slots_in_unique a b l m : slots_in slot a b l -> slots_in slot a b m -> l = m.
Proof. intros [H1 H2] [H3 H4]. apply sorted_ext; [done|done|]. intros t. now rewrite H2, H4. Qed.

Lemma slots_in_nil a b : (forall v, a < v <= b -> slot v = false) -> slots_in slot a b [].
Proof. intros H. split; [constructor|]. intros t. split; [done|]. intros [Ht E]. rewrite H in E by done. discriminate E. Qed.

Lemma sorted_app (l m : list Z) : StronglySorted Z.lt l -> StronglySorted Z.lt m -> (forall x y, In x l -> In y m -> x < y) -> StronglySorted Z.lt (l ++ m).
Proof.
  induction 1 as [|a l Hl IH Ha]; intros Hm H; cbn [app]; [done|]. constructor; [apply IH; [done|intros x y Hx Hy; apply H; [now right|done]]|].
  apply List.Forall_app. split; [done|]. apply List.Forall_forall. intros y Hy. apply H; [now left|done].
Qed.

Lemma slots_in_app a b c l m : a <= b <= c -> slots_in slot a b l -> slots_in slot b c m -> slots_in slot a c (l ++ m).
Proof.
  intros Hab [H1 H2] [H3 H4]. split.
  - apply sorted_app; [done|done|]. intros x y Hx%H2 Hy%H4. lia.
  - intros t. rewrite in_app_iff, H2, H4. split; [intros [[]|[]]; split; (lia || done)|]. intros [Ht E]. destruct (Z_le_gt_dec t b); [left|right]; split; (lia || done).
Qed.

Lemma slots_in_one a t : a < t -> slot t = true -> (forall v, a < v < t -> slot v = false) -> slots_in slot a t [t].
Proof.
  intros Ha Ht H. split; [repeat constructor|]. intros u. split; [intros [<-|[]]; split; [lia|done]|]. intros [Hu E]. left.
  destruct (Z.eq_dec t u); [done|]. rewrite H in E by lia. discriminate E.
Qed.

Lemma slots_in_ex a b : exists l, slots_in slot a b l.
Proof.
  destruct (Z_le_gt_dec b a) as [Hle|Hgt]; [exists []; apply slots_in_nil; lia|].
  assert (H : forall n, 0 <= n -> exists l, slots_in slot a (a + n) l).
  { apply natlike_ind; [exists []; apply slots_in_nil; lia|]. intros n Hn [l Hl]. destruct (slot (a + Z.succ n)) eqn:E.
    - exists (l ++ [a + Z.succ n]). apply slots_in_app with (a + n); [lia|done|]. apply slots_in_one; [lia|done|lia].
    - exists (l ++ []). apply slots_in_app with (a + n); [lia|done|]. apply slots_in_nil. intros v Hv. now assert (v = a + Z.succ n) as -> by lia. }
  destruct (H (b - a)) as [l Hl]; [lia|]. exists l. now replace (a + (b - a)) with b in Hl by lia.
Qed.
End Facts.

(** ** The most recent slots *)

Definition lastn (n : Z) (l : list Z) : list Z := List.skipn (Z.to_nat (Z.max 0 (zlen l - n))) l.

Lemma zlen_app {A} (l m : list A) : zlen (l ++ m) = zlen l + zlen m.
Proof. unfold zlen. rewrite List.length_app. lia. Qed.
Lemma zlen_nonneg {A} (l : list A) : 0 <= zlen l.
Proof. unfold zlen. lia. Qed.

Lemma lastn_app n l m : n <= zlen m -> lastn n (l ++ m) = lastn n m.
Proof.
  intros H. unfold lastn. rewrite zlen_app. pose proof (zlen_nonneg l). rewrite List.skipn_app.
  rewrite (List.skipn_all2 l) by (unfold zlen in *; lia). cbn [app]. f_equal. unfold zlen in *. lia.
Qed.
Lemma lastn_all n l : zlen l <= n -> lastn n l = l.
Proof. intros H. unfold lastn. now replace (Z.max 0 (zlen l - n)) with 0 by lia. Qed.
Lemma zlen_lastn n l : 0 <= n -> zlen (lastn n l) = Z.min n (zlen l).
Proof. intros H. unfold lastn, zlen. rewrite List.length_skipn. lia. Qed.
Lemma lastn_split n l : exists pre, l = pre ++ lastn n l.
Proof. exists (List.firstn (Z.to_nat (Z.max 0 (zlen l - n))) l). unfold lastn. symmetry. apply List.firstn_skipn. Qed.

Section Recent.
Context (next : Z -> option Z) (slot : Z -> bool) (lo hi : Z) `{!Schedule next slot lo hi}.

Lemma next_first t now : lo <= t <= hi -> (forall v, t < v <= now -> slot v = false) ->
  match next t with Some u => u <= now -> False | None => True end -> now <= hi -> t <= now -> first_after slot now hi (next t).
Proof.
  intros Ht Hno Hn Hh Hle. destruct (next t) as [u|] eqn:E; cbn.
  - destruct (next_some t u Ht E) as (H1 & H2 & H3). split; [lia|]. split; [done|]. intros v Hv. apply H3. lia.
  - intros v Hv. apply (next_none t Ht E). lia.
Qed.

(** collect keeps a suffix of the slots, of at least [n] of them. *)
Lemma collect_spec from now n : 1 <= n -> lo <= from <= hi -> now <= hi -> exists l pre kept, slots_in slot from now l /\ collect next from now n = Some kept
  /\ l = pre ++ kept /\ (pre = [] \/ n <= zlen kept).
Proof.
  intros Hn Hf Hh.
  set (Inv := fun st : option Z * list Z => exists c l pre, fst st = next c /\ lo <= c <= hi /\ (c = from \/ from <= c <= now) /\ slots_in slot from c l
    /\ l = pre ++ snd st /\ (pre = [] \/ n <= zlen (snd st))).
  set (m := fun st : option Z * list Z => match fst st with Some t => Z.max 0 (now - t + 1) | None => 0 end).
  assert (H0 : Inv (next from, [])) by (exists from, [], []; split_and!; [done|lia|lia|now left|apply slots_in_nil; lia|done|now left]).
  destruct (loop_rule (collect_step next now n) Inv m (fun kept => exists l pre, slots_in slot from now l /\ l = pre ++ kept /\ (pre = [] \/ n <= zlen kept)))
    with (p := Z.to_pos (now - from + 2)) (a := (next from, @nil Z)) as (kept & E & l & pre & H).
  - intros [o acc] (c & l & pre & Eo & Hc & Hor & Hl & Ep & Hk). cbn [fst snd] in *. cbn [collect_step].
    assert (Hend : (forall v, c < v <= now -> slot v = false) -> exists l pre, slots_in slot from now l /\ l = pre ++ acc /\ (pre = [] \/ n <= zlen acc)).
    { intros Hno. exists l, pre. split; [|done]. destruct (Z_le_gt_dec c now).
      - rewrite <- (app_nil_r l). apply slots_in_app with c; [lia|done|]. now apply slots_in_nil.
      - destruct Hor as [->|]; [|lia]. replace l with (@nil Z); [apply slots_in_nil; lia|]. apply (slots_in_unique slot from from); [apply slots_in_nil; lia|done]. }
    destruct o as [t|].
    + symmetry in Eo. destruct (next_some c t Hc Eo) as (H1 & H2 & H3). destruct (Z.leb_spec t now) as [Hle|Hgt].
      * split.
        -- exists t, (l ++ [t]), (pre ++ (if zlen acc =? 2 * n then List.firstn (Z.to_nat n) acc else [])). cbn [fst snd]. unfold keep.
           split_and!; [done|lia|lia|lia|apply slots_in_app with c; [lia|done|]; now apply slots_in_one| |].
           ++ rewrite Ep, <- !app_assoc. f_equal. destruct (zlen acc =? 2 * n); [|done]. now rewrite app_assoc, List.firstn_skipn.
           ++ rewrite zlen_app. change (zlen [t]) with 1. destruct (Z.eqb_spec (zlen acc) (2 * n)) as [E2|N2].
              ** right. unfold zlen in *. rewrite List.length_skipn. lia.
              ** rewrite app_nil_r. destruct Hk as [->|Hk]; [now left|right; lia].
        -- unfold m. cbn [fst]. destruct (next t) as [u|] eqn:Eu; [|lia]. destruct (next_some t u) as (H4 & _); [lia|done|]. lia.
      * apply Hend. intros v Hv. apply H3. lia.
    + apply Hend. intros v Hv. apply (next_none c); [done|done|lia].
  - exact H0.
  - unfold m. cbn [fst]. destruct (next from) as [u|] eqn:Eu; [destruct (next_some from u) as (H4 & _); [lia|done|]|]; destruct (Z_le_gt_dec (now - from + 2) 0); try (rewrite Z2Pos.id by lia; lia);
      rewrite (Z2Pos.to_pos_nonpos) by lia; lia.
  - exists l, pre, kept. unfold collect. rewrite E. tauto.
Qed.

Lemma Sub_bounds t u : (Sub t u <= t - u \/ Sub t u = - 2 ^ 63) /\ (t <= u -> Sub t u <= 0).
Proof. unfold Sub, maxDuration. lia. Qed.

Lemma recentSlots_spec last now n : 1 <= n -> lo <= last <= hi -> now <= hi ->
  exists all, slots_in slot last now all /\ recentSlots next last now n = Some (lastn n all).
Proof.
  intros Hn Hl Hh. destruct (slots_in_ex slot last now) as [all Hall]. exists all. split; [done|]. unfold recentSlots. set (span := Sub now last).
  destruct (Sub_bounds now last) as [HS1 HS2]. fold span in HS1, HS2.
  destruct (loop_rule (recent_step next last now n span) (fun w => w <= span /\ (w = span \/ 0 < w)) (fun w => span - w) (fun r => r = Some (lastn n all)))
    with (p := Z.to_pos (span + 2)) (a := Z.min 1000000 span) as (r & -> & ->); [| | |done].
  - intros w [Hw1 Hw2]. unfold recent_step. set (from := if span <=? w then last else now - w).
    assert (Hfrom : from = last \/ w < span /\ from = now - w /\ last < from < now).
    { unfold from. destruct (Z.leb_spec span w); [now left|right]. destruct Hw2 as [|Hw2]; [lia|]. lia. }
    destruct (collect_spec from now n) as (l & pre & kept & Hsl & -> & El & Hk); [done|lia|done|].
    assert (Hrel : exists old, all = old ++ l).
    { destruct Hfrom as [->|(_ & _ & Hfrom)]; [exists []; now apply (slots_in_unique slot last now)|]. destruct (slots_in_ex slot last from) as [old Hold].
      exists old. apply (slots_in_unique slot last now); [done|]. apply slots_in_app with from; [lia|done|done]. }
    destruct Hrel as [old Eall]. change (List.skipn (Z.to_nat (Z.max 0 (zlen kept - n))) kept) with (lastn n kept).
    destruct (Z.leb_spec n (zlen kept)) as [Hnk|Hnk]; cbn [orb].
    + f_equal. rewrite Eall, El, app_assoc. symmetry. now apply lastn_app.
    + destruct Hk as [->|Hk]; [|lia]. cbn [app] in El. subst l. destruct (Z.ltb_spec last from) as [Hlt|Hge]; cbn [negb].
      * destruct Hfrom as [|(Hws & _ & _)]; [lia|]. destruct Hw2 as [|Hw2]; [lia|]. destruct (Z.ltb_spec (Z.quot span 2) w); [lia|].
        rewrite Z.quot_div_nonneg in * by lia. assert (2 * w <= span) by (pose proof (Z.div_mod span 2); pose proof (Z.mod_pos_bound span 2); lia). lia.
      * destruct Hfrom as [Hfrom|]; [|lia]. f_equal. rewrite Hfrom in Hsl. now rewrite (slots_in_unique slot last now all kept).
  - destruct (Z_le_gt_dec span 1000000); lia.
  - destruct (Z_le_gt_dec (span + 2) 0); [rewrite Z2Pos.to_pos_nonpos by lia; lia|rewrite Z2Pos.id by lia; lia].
Qed.
End Recent.

(** How many of the missed slots are inserted: those since the lease's term, or as many as CatchUp says, within its limit. *)
Definition missed_count (catchUp : option Z) (window : list Z) : Z := Z.min maxCatchUp (Z.max (zlen window) (match catchUp with Some k => k | None => 0 end)).

Section Missed.
Context (next : Z -> option Z) (slot : Z -> bool) (lo hi : Z) `{!Schedule next slot lo hi}.

Lemma missedSlots_spec ttl catchUp last now : 0 <= ttl -> lo <= last <= hi -> now <= hi ->
  exists all window, slots_in slot last now all /\ slots_in slot (maxTime last (now - ttl)) now window
    /\ missedSlots next ttl catchUp last now = Some (lastn (missed_count catchUp window) all).
Proof.
  intros Ht Hl Hh. assert (Hm : last <= maxTime last (now - ttl) /\ (maxTime last (now - ttl) = last \/ maxTime last (now - ttl) <= now))
    by (unfold maxTime; destruct (Z.ltb_spec (now - ttl) last); lia).
  set (since := maxTime last (now - ttl)) in *.
  destruct (recentSlots_spec next slot lo hi since now maxCatchUp) as (window & Hw & Ew); [done|lia|done|].
  assert (Hold : exists old, slots_in slot last now (old ++ window)).
  { destruct (Z_le_gt_dec since now); [|exists []; cbn; replace window with (@nil Z); [apply slots_in_nil; lia|apply (slots_in_unique slot since now); [apply slots_in_nil; lia|done]]].
    destruct (slots_in_ex slot last since) as [old Hold]. exists old. apply slots_in_app with since; [lia|done|done]. }
  destruct Hold as [old Hall]. exists (old ++ window), window. split; [done|]. split; [done|]. unfold missedSlots. fold since. rewrite Ew.
  pose proof (zlen_lastn maxCatchUp window ltac:(done)) as Hz. pose proof (zlen_nonneg window).
  assert (Hwin : forall k, k = Z.min maxCatchUp (zlen window) -> lastn k (old ++ window) = lastn maxCatchUp window).
  { intros k ->. rewrite lastn_app by lia. destruct (Z_le_gt_dec (zlen window) maxCatchUp).
    - rewrite !lastn_all by lia. done.
    - f_equal. lia. }
  unfold missed_count. destruct catchUp as [k|].
  - destruct (Z.leb_spec k (zlen (lastn maxCatchUp window))).
    + now rewrite Hwin by lia.
    + destruct (recentSlots_spec next slot lo hi last now (Z.min k maxCatchUp)) as (all & Hall' & ->); [unfold maxCatchUp in *; lia|lia|done|].
      rewrite (slots_in_unique slot last now all (old ++ window)) by done. do 2 f_equal. lia.
  - now rewrite Hwin by lia.
Qed.
End Missed.

(** ** A job's part of a pass *)

Section JobPass.
Context {S : Type} (insert : Z -> S -> bool * S).

(** The inserts in turn, up to the first that fails: the slots left, that one first. *)
Fixpoint insert_until (l : list Z) (s : S) : list Z * S :=
  match l with
  | [] => ([], s)
  | t :: rest => let '(ok, s) := insert t s in if ok then insert_until rest s else (t :: rest, s)
  end.

Context (next : Z -> option Z) (slot : Z -> bool) (lo hi : Z) `{!Schedule next slot lo hi}.

(** A slot the job goes on from. *)
Definition goes_on (now : Z) (rest : list Z) (n : option Z) (inserted : bool) : Prop :=
  match rest with [] => inserted = true /\ first_after slot now hi n | t :: _ => inserted = false /\ n = Some t end.

Lemma first_after_due c now n l : first_after slot c hi n -> c <= now <= hi -> slots_in slot c now l ->
  match l with
  | [] => first_after slot now hi n
  | t :: rest => n = Some t /\ c < t <= now /\ slot t = true /\ slots_in slot t now rest
  end.
Proof.
  intros Hn Hc [Hs Hl]. destruct l as [|t rest].
  - destruct n as [u|]; cbn in *; [|intros v Hv; apply Hn; lia]. destruct Hn as (H1 & H2 & H3). split; [|split; [done|intros v Hv; apply H3; lia]].
    destruct (Z_le_gt_dec u now); [|lia]. exfalso. apply (Hl u). auto.
  - destruct (proj1 (Hl t) (or_introl eq_refl)) as [Ht Et]. inversion Hs as [|? ? Hs' Hlt]; subst. rewrite List.Forall_forall in Hlt.
    assert (n = Some t) as ->.
    { destruct n as [u|]; cbn in Hn; [|rewrite Hn in Et by lia; discriminate Et]. destruct Hn as (H1 & H2 & H3). f_equal.
      destruct (Z.lt_total u t) as [Hlt'|[E|Hgt]]; [|done|rewrite H3 in Et by lia; discriminate Et].
      assert (In u (t :: rest)) as [->|Hin] by (apply Hl; split; [lia|done]); [done|]. specialize (Hlt u Hin). lia. }
    split_and!; try (done || lia). split; [done|]. intros v. split.
    + intros Hv. destruct (proj1 (Hl v) (or_intror Hv)) as [H1 H2]. specialize (Hlt v Hv). split; [lia|done].
    + intros [Hv Ev]. destruct (proj2 (Hl v)) as [->|]; [split; [lia|done]|lia|done].
Qed.

Lemma due_ends c now n l s : lo <= c -> c <= now <= hi -> first_after slot c hi n -> slots_in slot c now l ->
  forall p, match n with Some t => now - t + 1 < Zpos p | None => True end ->
  exists n', ends (loop p (due_step insert next now) (n, s)) = Some (n', match fst (insert_until l s) with [] => true | _ => false end, snd (insert_until l s))
    /\ goes_on now (fst (insert_until l s)) n' (match fst (insert_until l s) with [] => true | _ => false end).
Proof.
  intros Hlo Hc Hn Hl p Hp.
  destruct (loop_rule (due_step insert next now)
    (fun st => exists c' l', lo <= c' /\ c' <= now <= hi /\ first_after slot c' hi (fst st) /\ slots_in slot c' now l' /\ insert_until l' (snd st) = insert_until l s)
    (fun st => match fst st with Some t => Z.max 0 (now - t + 1) | None => 0 end)
    (fun r => exists n', r = (n', match fst (insert_until l s) with [] => true | _ => false end, snd (insert_until l s))
       /\ goes_on now (fst (insert_until l s)) n' (match fst (insert_until l s) with [] => true | _ => false end)))
    with (p := p) (a := (n, s)) as (r & -> & n' & -> & H).
  - intros [o s'] (c' & l' & Hlo' & Hc' & Ho & Hl' & E). cbn [fst snd] in *. pose proof (first_after_due c' now o l' Ho Hc' Hl') as Hd. destruct l' as [|t rest].
    + cbn [insert_until] in E. rewrite <- E. cbn [fst snd]. destruct o as [u|]; cbn [due_step].
      * destruct Hd as (H1 & H2 & H3). destruct (Z.leb_spec u now); [lia|]. exists (Some u). split; [done|]. cbn. auto.
      * exists None. split; [done|]. cbn. auto.
    + destruct Hd as (-> & Ht & Et & Hrest). cbn [due_step]. destruct (Z.leb_spec t now); [|lia]. cbn [insert_until] in E. destruct (insert t s') as [[] s2].
      * split.
        -- exists t, rest. split_and!; [lia|lia|lia| |done|done]. cbn [fst]. destruct (next t) as [u|] eqn:Eu.
           ++ apply (next_some t u); [lia|done].
           ++ cbn. apply (next_none t); [lia|done].
        -- cbn [fst]. destruct (next t) as [u|] eqn:Eu; [destruct (next_some t u) as (H1 & _); [lia|done|]; lia|lia].
      * rewrite <- E. cbn [fst snd]. exists (Some t). split; [done|]. cbn. auto.
  - exists c, l. auto 6.
  - cbn [fst]. destruct n; lia.
  - eauto.
Qed.

Lemma insert_due_spec c now n l s : lo <= c -> c <= now <= hi -> first_after slot c hi n -> slots_in slot c now l ->
  exists n', insert_due insert next n now s = Some (n', match fst (insert_until l s) with [] => true | _ => false end, snd (insert_until l s))
    /\ goes_on now (fst (insert_until l s)) n' (match fst (insert_until l s) with [] => true | _ => false end).
Proof.
  intros Hlo Hc Hn Hl. destruct n as [t|]; cbn [insert_due].
  - apply (due_ends c now (Some t) l s Hlo Hc Hn Hl). destruct (Z_le_gt_dec (now - t + 2) 0); [rewrite Z2Pos.to_pos_nonpos by lia; lia|rewrite Z2Pos.id by lia; lia].
  - destruct (due_ends c now None l s Hlo Hc Hn Hl 1 I) as (n' & E & H). cbn in E. exists n'. split; [exact E|exact H].
Qed.

Lemma insert_missed_spec missed : forall n s, insert_missed insert next missed n s =
  match insert_until missed s with
  | ([], s') => (match List.rev missed with [] => n | t :: _ => next t end, true, s')
  | (t :: _, s') => (Some t, false, s')
  end.
Proof.
  induction missed as [|t rest IH]; intros n s; cbn [insert_missed insert_until]; [done|]. destruct (insert t s) as [[] s1]; [|done]. rewrite IH.
  destruct (insert_until rest s1) as [[|u left] s2]; [|done]. cbn [List.rev]. now destruct (List.rev rest).
Qed.

(** The slots of a pass: all that came due, or for a job held up past the lease's term those it would start with. *)
Definition due_slots (ttl : Z) (catchUp : option Z) (late : bool) (n : option Z) (now : Z) (all window : list Z) : list Z :=
  if late && match n with Some t => t <? now - ttl | None => false end then lastn (missed_count catchUp window) all else all.

Definition inserted_all (l : list Z) (s : S) : bool := match fst (insert_until l s) with [] => true | _ => false end.

Lemma last_slot_after c now all t rest : slots_in slot c now all -> List.rev all = t :: rest -> c < t <= now /\ forall v, t < v <= now -> slot v = false.
Proof.
  intros [Hs Hl] E. assert (all = List.rev rest ++ [t]) as -> by (rewrite <- (List.rev_involutive all), E; done).
  destruct (proj1 (Hl t)) as [Ht Et]; [apply in_app_iff; right; now left|]. split; [done|]. intros v Hv. destruct (slot v) eqn:Ev; [|done]. exfalso.
  assert (Hin : In v (List.rev rest ++ [t])) by (apply Hl; split; [lia|done]). apply in_app_iff in Hin as [Hin|[->|[]]]; [|lia].
  apply list_elem_of_In, list_elem_of_split in Hin as (l1 & l2 & Hin). rewrite Hin, <- app_assoc in Hs. apply StronglySorted_app_r in Hs. cbn [app] in Hs.
  inversion Hs as [|? ? _ Hf]. rewrite List.Forall_forall in Hf. specialize (Hf t). rewrite in_app_iff in Hf. specialize (Hf (or_intror (or_introl eq_refl))). lia.
Qed.

Lemma job_pass_due ttl catchUp late c n now s all window : 0 <= ttl -> lo <= c -> c <= now <= hi -> first_after slot c hi n ->
  slots_in slot c now all -> slots_in slot (now - ttl) now window -> let due := due_slots ttl catchUp late n now all window in
  exists n', job_pass insert next ttl catchUp late n now s = Some (n', inserted_all due s, snd (insert_until due s))
    /\ goes_on now (fst (insert_until due s)) n' (inserted_all due s).
Proof.
  intros Ht Hlo Hc Hn Hall Hwin. unfold due_slots, job_pass, inserted_all. destruct n as [t|].
  2: { rewrite andb_false_r. now apply (insert_due_spec c). }
  destruct late; [|now apply (insert_due_spec c)]. cbn [andb]. destruct (Z.ltb_spec t (now - ttl)) as [Hlt|]; [|now apply (insert_due_spec c)].
  cbn in Hn. destruct Hn as (N1 & N2 & N3).
  destruct (missedSlots_spec next slot lo hi ttl catchUp (t - 1) now) as (all' & window' & Hall' & Hwin' & ->); [done|lia|lia|].
  assert (all' = all) as ->.
  { destruct Hall as [A1 A2], Hall' as [B1 B2]. apply sorted_ext; [done|done|]. intros v. rewrite A2, B2. split; intros [Hv Ev]; split; try (done || lia).
    destruct (Z_le_gt_dec t v); [lia|]. rewrite N3 in Ev by lia. discriminate Ev. }
  assert (window' = window) as -> by (replace (maxTime (t - 1) (now - ttl)) with (now - ttl) in Hwin' by (unfold maxTime; destruct (Z.ltb_spec (now - ttl) (t - 1)); lia);
    now apply (slots_in_unique slot (now - ttl) now)).
  set (due := lastn (missed_count catchUp window) all). rewrite insert_missed_spec. destruct (insert_until due s) as [[|u left] s'] eqn:Ei; cbn [fst snd].
  2: { exists (Some u). split; [done|]. cbn. auto. }
  destruct (List.rev due) as [|u rest] eqn:Er.
  - assert (Hz : zlen due = 0) by (apply (f_equal (@List.length Z)) in Er; rewrite List.length_rev in Er; unfold zlen; cbn in Er; lia).
    assert (window = []) as ->.
    { unfold due in Hz. rewrite zlen_lastn in Hz by (unfold missed_count, maxCatchUp; pose proof (zlen_nonneg window); lia). unfold missed_count, maxCatchUp in Hz.
      assert (Hwz : zlen window = 0 \/ zlen all = 0) by (pose proof (zlen_nonneg window); pose proof (zlen_nonneg all); lia).
      destruct window as [|v window]; [done|]. exfalso. assert (In v all) as Hv by (apply Hall; destruct (proj1 (proj2 Hwin v) (or_introl eq_refl)); split; [lia|done]).
      destruct Hwz as [Hwz|Hwz]; [unfold zlen in Hwz; cbn in Hwz; lia|]. destruct all; [done|]. unfold zlen in Hwz. cbn in Hwz. lia. }
    apply (insert_due_spec (now - ttl) now (next (now - ttl)) [] s'); [lia|lia| |done]. destruct (next (now - ttl)) as [v|] eqn:Ev; cbn.
    + apply (next_some (now - ttl)); [lia|done].
    + apply (next_none (now - ttl)); [lia|done].
  - assert (Hrall : exists rest', List.rev all = u :: rest').
    { destruct (lastn_split (missed_count catchUp window) all) as [pre Ep]. fold due in Ep. rewrite Ep, List.rev_app_distr, Er. cbn. eauto. }
    destruct Hrall as [rest' Hra]. destruct (last_slot_after c now all u rest' Hall Hra) as [Hu Hno].
    apply (insert_due_spec u now (next u) [] s'); [lia|lia| |now apply slots_in_nil]. destruct (next u) as [v|] eqn:Ev; cbn.
    + apply (next_some u); [lia|done].
    + apply (next_none u); [lia|done].
Qed.

(** startPeriodic inserts the slots missed since the last recorded and, for RunOnStart, the time it starts. *)
Lemma insert_all_until l : forall s, insert_all insert l s = (match fst (insert_until l s) with [] => true | _ => false end, snd (insert_until l s)).
Proof. induction l as [|t l IH]; intros s; cbn [insert_all insert_until]; [done|]. destruct (insert t s) as [[] s1]; [apply IH|done]. Qed.

Definition start_slots (opts : option PeriodicOpts) (last : option Z) (now : Z) (all window : list Z) : list Z :=
  match last with Some _ => lastn (missed_count (option_map po_CatchUp opts) window) all | None => [] end
  ++ match opts with Some o => if po_RunOnStart o then [now] else [] | None => [] end.

Lemma startPeriodic_due ttl opts last now s all window : 0 <= ttl -> lo <= now <= hi ->
  match last with Some t => lo <= t <= hi /\ slots_in slot t now all /\ slots_in slot (maxTime t (now - ttl)) now window | None => True end ->
  let due := start_slots opts last now all window in
  exists r, startPeriodic insert next ttl opts last now s = Some (r, snd (insert_until due s))
    /\ if inserted_all due s then exists n, r = Some n /\ first_after slot now hi n else r = None.
Proof.
  intros Ht Hnow Hlast. unfold start_slots, startPeriodic, inserted_all. cbv zeta.
  assert (Hm : match last with Some last => missedSlots next ttl (option_map po_CatchUp opts) last now | None => Some [] end
    = Some (match last with Some _ => lastn (missed_count (option_map po_CatchUp opts) window) all | None => [] end)).
  { destruct last as [t|]; [|done]. destruct Hlast as (Hl & Hall & Hwin).
    destruct (missedSlots_spec next slot lo hi ttl (option_map po_CatchUp opts) t now) as (all' & window' & Ha & Hw & ->); [done|lia|lia|].
    rewrite (slots_in_unique slot t now all' all), (slots_in_unique slot (maxTime t (now - ttl)) now window' window); done. }
  rewrite Hm. set (missed := match last with Some _ => _ | None => [] end). clearbody missed. rewrite insert_all_until.
  assert (Happ : forall l m s, insert_until (l ++ m) s = match insert_until l s with ([], s') => insert_until m s' | (rest, s') => (rest ++ m, s') end).
  { clear. intros l m. induction l as [|t l IH]; intros s; cbn [app insert_until]; [done|]. destruct (insert t s) as [[] s1]; [apply IH|done]. }
  rewrite Happ. assert (Hfirst : exists n, Some (next now) = Some n /\ first_after slot now hi n).
  { exists (next now). split; [done|]. destruct (next now) as [v|] eqn:Ev; cbn; [apply (next_some now)|apply (next_none now)]; done. }
  destruct (insert_until missed s) as [[|u left] s1]; cbn [fst snd negb]; [|now exists None].
  destruct opts as [o|]; [destruct (po_RunOnStart o)|]; cbn [insert_until]; [destruct (insert now s1) as [[] s2]; [|now exists None]|..];
    (exists (Some (next now)); split; [done|exact Hfirst]).
Qed.
End JobPass.

(** ** The pass *)

Section Pass.
Context {F : Type} (parseFloat : string -> option F) (formatFloat : F -> string) (c : Config) (tu : leaderTuning) (e : env).
Context (slot_of : registeredPeriodic -> Z -> bool) (lo hi now : Z).
Hypothesis ttl_nonneg : 0 <= lt_leaderTTL tu.
Hypothesis now_in : lo <= now <= hi.

Definition lawful (r : registeredPeriodic) : Prop := Schedule (job_next r) (slot_of r) lo hi.
(** A registration removed, or whose owner is, by some point of the pass. *)
Definition gone (r : registeredPeriodic) : Prop :=
  exists k, en_removed e k (rp_id r) = true \/ exists o, rp_owner r = Some o /\ en_removed e k (ow_id o) = true.
(** A job whose next slot, if it has one, is one the schedule gave: the first after some time not after [now].  Which slots
    have been answered by then is the subject of PeriodicRuns.v. *)
Definition tracked (st : periodicState) (r : registeredPeriodic) : Prop :=
  forall n, st_next st !! rp_id r = Some n -> exists from, lo <= from <= now /\ first_after (slot_of r) from hi n.
(** A job up to date, whose next slot is not before the soonest, or to be tried again, or gone. *)
Definition handled (soonest : option Z) (st : periodicState) (r : registeredPeriodic) : Prop :=
  (exists n, st_next st !! rp_id r = Some n /\ first_after (slot_of r) now hi n /\ forall t, n = Some t -> exists u, soonest = Some u /\ u <= t)
  \/ (exists at_, st_retryAt st !! rp_id r = Some at_) \/ gone r.

Definition same_at (st st' : periodicState) (id : nat) : Prop := st_next st' !! id = st_next st !! id /\ st_retryAt st' !! id = st_retryAt st !! id.
Definition at_most (u v : option Z) : Prop := forall t, v = Some t -> exists t', u = Some t' /\ t' <= t.

Lemma at_most_refl u : at_most u u.
Proof. intros t ->. exists t. split; [done|lia]. Qed.
Lemma at_most_trans u v x : at_most u v -> at_most v x -> at_most u x.
Proof. intros H1 H2 t Ht. destruct (H2 t Ht) as (t' & Ht' & ?). destruct (H1 t' Ht') as (t'' & -> & ?). exists t''. split; [done|lia]. Qed.

Lemma sooner_spec n soonest : at_most (sooner now n soonest) soonest /\ forall t, n = Some t -> now < t -> exists u, sooner now n soonest = Some u /\ u <= t.
Proof.
  unfold sooner. destruct n as [t|]; [|split; [apply at_most_refl|done]]. destruct (Z.ltb_spec now t); [|split; [apply at_most_refl|intros t' [= <-]; lia]].
  assert (Hone : forall u, u <= t -> exists u', Some u = Some u' /\ u' <= t) by eauto.
  destruct soonest as [u|]; [destruct (Z.ltb_spec t u)|]; (split; [intros t' E|intros t' [= <-] _; apply Hone; lia]); [|apply (at_most_refl (Some u)), E|discriminate E].
  injection E as <-. exists t. split; [done|lia].
Qed.

Lemma handled_keeps soonest soonest' st st' r : at_most soonest' soonest -> same_at st st' (rp_id r) -> handled soonest st r -> handled soonest' st' r.
Proof.
  intros Hs [H1 H2] [(n & Hn & Hf & Ht)|[(at_ & Ha)|H]]; [left|right; left|right; now right].
  - exists n. rewrite H1. split_and!; [done|done|]. intros t E. destruct (Ht t E) as (u & E' & Hu). destruct (Hs u E') as (u' & -> & ?). exists u'. split; [done|lia].
  - exists at_. now rewrite H2.
Qed.

Lemma retry_spec r st s st' s' : retry tu e r st s = (st', s') ->
  st_next st' = st_next st /\ (forall id, id <> rp_id r -> st_retryAt st' !! id = st_retryAt st !! id) /\ ((exists at_, st_retryAt st' !! rp_id r = Some at_) \/ gone r)
  /\ st_clockFailed st' = st_clockFailed st.
Proof.
  unfold retry. destruct (match rp_owner r with Some o => _ | None => false end) eqn:E.
  - intros [= <- <-]. split_and!; [done|done|right|done]. destruct (rp_owner r) as [o|] eqn:Eo; [|discriminate E]. exists (wo_tries s). right. exists o. auto.
  - cbn [read_clock]. intros [= <- <-]. cbn. split_and!; [done| |left|done].
    + intros id Hid. now rewrite lookup_insert_ne.
    + eexists. apply lookup_insert_eq.
Qed.

(** What a list of jobs passed leaves: the others untouched, and each of its own handled. *)
Definition passed (regs : list registeredPeriodic) (todo : registeredPeriodic -> Prop) (soonest soonest' : option Z) (st st' : periodicState) : Prop :=
  (forall id, ~ In id (List.map rp_id regs) -> same_at st st' id) /\ at_most soonest' soonest
  /\ (forall r, In r regs -> todo r -> handled soonest' st' r) /\ (forall r, In r regs -> ~ todo r -> same_at st st' (rp_id r)) /\ (forall r, In r regs -> tracked st' r).

Lemma same_at_refl st id : same_at st st id.
Proof. done. Qed.
Lemma same_at_trans st1 st2 st3 id : same_at st1 st2 id -> same_at st2 st3 id -> same_at st1 st3 id.
Proof. unfold same_at. intuition congruence. Qed.
Lemma tracked_same st st' r : same_at st st' (rp_id r) -> tracked st r -> tracked st' r.
Proof. intros [H _] Ht n Hn. apply Ht. congruence. Qed.

(** One job more in front. *)
Lemma passed_cons r regs todo soonest s1 s2 st st1 st2 : ~ In (rp_id r) (List.map rp_id regs) ->
  (forall id, id <> rp_id r -> same_at st st1 id) -> at_most s1 soonest -> (todo r -> handled s1 st1 r) -> (~ todo r -> same_at st st1 (rp_id r)) -> tracked st1 r ->
  passed regs todo s1 s2 st1 st2 -> passed (r :: regs) todo soonest s2 st st2.
Proof.
  intros Hr Ho Hs Hh Hn Ht (P1 & P2 & P3 & P4 & P5). assert (Hrs : same_at st1 st2 (rp_id r)) by now apply P1.
  assert (Hne : forall r', In r' regs -> rp_id r' <> rp_id r) by (intros r' Hin E; apply Hr; rewrite <- E; now apply in_map).
  split_and!.
  - intros id Hid. cbn in Hid. apply same_at_trans with st1; [apply Ho; intros ->; apply Hid; now left|apply P1; intros H; apply Hid; now right].
  - now apply at_most_trans with s1.
  - intros r' [<-|Hin] Htd; [|auto]. apply (handled_keeps s1 s2 st1 st2); auto.
  - intros r' [<-|Hin] Htd; [apply same_at_trans with st1; auto|]. apply same_at_trans with st1; [apply Ho; auto|auto].
  - intros r' [<-|Hin]; [|auto]. now apply (tracked_same st1).
Qed.

Lemma first_after_from r from n : first_after (slot_of r) from hi n -> lo <= from <= now -> forall st, st_next st !! rp_id r = Some n -> tracked st r.
Proof. intros Hf Hr st E n' E'. exists from. split; [done|]. congruence. Qed.

(** A job passed over goes on where its first failed insert was, or after now. *)
Lemma goes_on_from (r : registeredPeriodic) rest n inserted : goes_on (slot_of r) hi now rest n inserted ->
  (forall t, In t rest -> lo < t <= now /\ slot_of r t = true) -> exists from, lo <= from <= now /\ first_after (slot_of r) from hi n.
Proof.
  intros H Hr. destruct rest as [|t rest]; destruct H as [_ H]; [exists now; split; [lia|done]|]. subst n. destruct (Hr t (or_introl eq_refl)) as [Ht Et].
  exists (t - 1). split; [lia|]. cbn. split_and!; [lia|done|lia].
Qed.

Lemma insert_until_rest {S} (insert : Z -> S -> bool * S) l : forall s t, In t (fst (insert_until insert l s)) -> In t l.
Proof. induction l as [|u l IH]; intros s t; cbn [insert_until]; [done|]. destruct (insert u s) as [[] s1]; [right; eauto|done]. Qed.

Lemma pass_started_spec read stale regs : (forall r, In r regs -> lawful r) -> List.NoDup (List.map rp_id regs) -> forall soonest st s, (forall r, In r regs -> tracked st r) ->
  exists soonest' st' s', pass_started parseFloat formatFloat c tu e now read stale regs soonest st s = Some (soonest', st', s')
    /\ passed regs (fun r => is_Some (st_next st !! rp_id r)) soonest soonest' st st'.
Proof.
  induction regs as [|r regs IH]; intros Hlaw Hnd soonest st s Htr; cbn [pass_started].
  { exists soonest, st, s. split; [done|]. split_and!; try done. apply at_most_refl. }
  inversion Hnd as [|? ? Hr Hnd']; subst. assert (Hl' : forall r, In r regs -> lawful r) by (intros; apply Hlaw; now right).
  assert (Hcons : forall s1 st1 sw, (forall id, id <> rp_id r -> same_at st st1 id) -> at_most s1 soonest -> (is_Some (st_next st !! rp_id r) -> handled s1 st1 r) ->
    (~ is_Some (st_next st !! rp_id r) -> same_at st st1 (rp_id r)) -> tracked st1 r ->
    exists soonest' st' s', pass_started parseFloat formatFloat c tu e now read stale regs s1 st1 sw = Some (soonest', st', s')
      /\ passed (r :: regs) (fun r => is_Some (st_next st !! rp_id r)) soonest soonest' st st').
  { intros s1 st1 sw Ho Hs Hh Hn Ht. assert (Hne : forall r', In r' regs -> rp_id r' <> rp_id r) by (intros r' Hin E; apply Hr; rewrite <- E; now apply in_map).
    destruct (IH Hl' Hnd' s1 st1 sw) as (s2 & st2 & sw2 & E & P).
    - intros r' Hin. apply (tracked_same st); [apply Ho; auto|]. apply Htr. now right.
    - exists s2, st2, sw2. split; [done|]. apply (passed_cons r regs _ soonest s1 s2 st st1 st2); auto. destruct P as (P1 & P2 & P3 & P4 & P5). split_and!; auto.
      + intros r' Hin Htd. apply P3; [done|]. now rewrite (proj1 (Ho _ (Hne r' Hin))).
      + intros r' Hin Htd. apply P4; [done|]. now rewrite (proj1 (Ho _ (Hne r' Hin))). }
  destruct (st_next st !! rp_id r) as [n|] eqn:En.
  2: { apply Hcons; [done|apply at_most_refl|intros [? H]; discriminate H|done|]. apply Htr. now left. }
  destruct (waiting read r st) eqn:Ew.
  { apply Hcons; [done|apply at_most_refl| |done|apply Htr; now left]. intros _. right. left. unfold waiting in Ew. destruct (st_retryAt st !! rp_id r) as [at_|]; [eauto|discriminate Ew]. }
  set (late := stale || _). destruct (Htr r (or_introl eq_refl) n En) as (from & Hfrom & Hf). pose proof (Hlaw r (or_introl eq_refl)) as Hlr. unfold lawful in Hlr.
  destruct (slots_in_ex (slot_of r) from now) as [all Hall]. destruct (slots_in_ex (slot_of r) (now - lt_leaderTTL tu) now) as [window Hwin].
  destruct (job_pass_due (insertPeriodic parseFloat formatFloat c e r) (job_next r) (slot_of r) lo hi (lt_leaderTTL tu) (job_catchUp r) late from n now s all window) as (n' & -> & Hg);
    [done|lia|lia|done|done|done|].
  set (due := due_slots _ _ _ _ _ _ _) in *. set (ok := inserted_all _ _ _) in *. set (s1 := snd _). clearbody s1.
  assert (Hrest : forall t, In t (fst (insert_until (insertPeriodic parseFloat formatFloat c e r) due s)) -> lo < t <= now /\ slot_of r t = true).
  { intros t Ht. apply insert_until_rest in Ht. assert (Hin : In t all).
    { unfold due, due_slots in Ht. destruct (_ && _); [|done]. destruct (lastn_split (missed_count (job_catchUp r) window) all) as [pre ->]. apply in_app_iff. now right. }
    apply Hall in Hin as [Ht1 Ht2]. split; [lia|done]. }
  destruct (goes_on_from r _ n' ok Hg Hrest) as (from' & Hfrom' & Hf').
  destruct ok eqn:Eok; cbn [negb].
  - destruct (insert_until _ due s) as [[|u left] s2] eqn:Eu; cbn [fst] in Hg; destruct Hg as [Hg1 Hg2]; [|discriminate Hg1].
    destruct (sooner_spec n' soonest) as [Hs1 Hs2]. apply Hcons.
    + intros id Hid. split; cbn; [now rewrite lookup_insert_ne|now rewrite lookup_delete_ne].
    + done.
    + intros _. left. exists n'. cbn. split; [apply lookup_insert_eq|]. split; [done|]. intros t ->. apply Hs2; [done|]. apply Hg2.
    + intros []. eauto.
    + apply (first_after_from r from' n'); [done|done|]. apply lookup_insert_eq.
  - destruct (retry tu e r (st <| st_next ::= <[rp_id r := n']> |>) s1) as [st2 s2] eqn:Er. apply retry_spec in Er as (R1 & R2 & R3 & _). apply Hcons.
    + intros id Hid. split; [rewrite R1; cbn; now rewrite lookup_insert_ne|now rewrite R2].
    + apply at_most_refl.
    + intros _. right. exact R3.
    + intros []. eauto.
    + apply (first_after_from r from' n'); [done|done|]. rewrite R1. apply lookup_insert_eq.
Qed.

Definition slots_within (rows : list (string * Z)) : Prop := forall name t, last_slot name rows = Some t -> lo <= 1000 * t <= hi.

Lemma pass_starting_spec rows regs : (forall r, In r regs -> lawful r) -> List.NoDup (List.map rp_id regs) -> slots_within rows ->
  forall soonest st s, (forall r, In r regs -> tracked st r) ->
  exists soonest' st' s', pass_starting parseFloat formatFloat c tu e now rows regs soonest st s = Some (soonest', st', s') /\ passed regs (fun _ => True) soonest soonest' st st'.
Proof.
  induction regs as [|r regs IH]; intros Hlaw Hnd Hrows soonest st s Htr; cbn [pass_starting].
  { exists soonest, st, s. split; [done|]. split_and!; try done. apply at_most_refl. }
  inversion Hnd as [|? ? Hr Hnd']; subst. assert (Hl' : forall r, In r regs -> lawful r) by (intros; apply Hlaw; now right).
  assert (Hcons : forall s1 st1 sw, (forall id, id <> rp_id r -> same_at st st1 id) -> at_most s1 soonest -> handled s1 st1 r -> tracked st1 r ->
    exists soonest' st' s', pass_starting parseFloat formatFloat c tu e now rows regs s1 st1 sw = Some (soonest', st', s')
      /\ passed (r :: regs) (fun _ => True) soonest soonest' st st').
  { intros s1 st1 sw Ho Hs Hh Ht. destruct (IH Hl' Hnd' Hrows s1 st1 sw) as (s2 & st2 & sw2 & E & P).
    - intros r' Hin. apply (tracked_same st); [apply Ho; intros Er; apply Hr; rewrite <- Er; now apply in_map|]. apply Htr. now right.
    - exists s2, st2, sw2. split; [done|]. apply (passed_cons r regs _ soonest s1 s2 st st1 st2); auto. }
  pose proof (Hlaw r (or_introl eq_refl)) as Hlr. unfold lawful in Hlr. set (last := option_map (Z.mul 1000) (last_slot (rp_name r) rows)).
  assert (Hlast : exists all window, match last with Some t => lo <= t <= hi /\ slots_in (slot_of r) t now all
      /\ slots_in (slot_of r) (maxTime t (now - lt_leaderTTL tu)) now window | None => True end).
  { unfold last. destruct (last_slot (rp_name r) rows) as [t|] eqn:El; cbn [option_map]; [|now exists [], []].
    destruct (slots_in_ex (slot_of r) (1000 * t) now) as [all Hall]. destruct (slots_in_ex (slot_of r) (maxTime (1000 * t) (now - lt_leaderTTL tu)) now) as [window Hwin].
    exists all, window. pose proof (Hrows _ _ El). auto. }
  destruct Hlast as (all & window & Hlast).
  destruct (startPeriodic_due (insertPeriodic parseFloat formatFloat c e r) (job_next r) (slot_of r) lo hi (lt_leaderTTL tu) (pj_Opts (rp_job r)) last now s all window)
    as (res & -> & Hres); [done|done|done|].
  set (s1 := snd _). clearbody s1. destruct (inserted_all _ _ _).
  - destruct Hres as (n & -> & Hn). destruct (sooner_spec n soonest) as [Hs1 Hs2]. apply Hcons.
    + intros id Hid. split; cbn; [now rewrite lookup_insert_ne|now rewrite lookup_delete_ne].
    + done.
    + left. exists n. cbn. split; [apply lookup_insert_eq|]. split; [done|]. intros t ->. apply Hs2; [done|]. apply Hn.
    + apply (first_after_from r now n); [done|lia|]. apply lookup_insert_eq.
  - subst res. destruct (retry tu e r st s1) as [st2 s2] eqn:Er. apply retry_spec in Er as (R1 & R2 & R3 & _). apply Hcons.
    + intros id Hid. split; [now rewrite R1|now rewrite R2].
    + apply at_most_refl.
    + right. exact R3.
    + intros n Hn. rewrite R1 in Hn. apply (Htr r (or_introl eq_refl) n Hn).
Qed.

Lemma retry_all_spec regs : List.NoDup (List.map rp_id regs) -> forall soonest st s, (forall r, In r regs -> tracked st r) ->
  exists st' s', retry_all tu e regs st s = (st', s') /\ passed regs (fun _ => True) soonest soonest st st'.
Proof.
  induction regs as [|r regs IH]; intros Hnd soonest st s Htr; cbn [retry_all].
  { exists st, s. split; [done|]. split_and!; try done. apply at_most_refl. }
  inversion Hnd as [|? ? Hr Hnd']; subst. destruct (retry tu e r st s) as [st1 s1] eqn:Er. apply retry_spec in Er as (R1 & R2 & R3 & _).
  destruct (IH Hnd' soonest st1 s1) as (st2 & s2 & E & P).
  - intros r' Hin n Hn. rewrite R1 in Hn. apply (Htr r' (or_intror Hin) n Hn).
  - exists st2, s2. split; [done|]. apply (passed_cons r regs _ soonest soonest soonest st st1 st2); [done| |apply at_most_refl|intros _; now right|intros []; done| |done].
    + intros id Hid. split; [now rewrite R1|now rewrite R2].
    + intros n Hn. rewrite R1 in Hn. apply (Htr r (or_introl eq_refl) n Hn).
Qed.

Lemma until_retries_spec retries : forall sleep s, exists sleep' s', until_retries e retries sleep s = (sleep', s') /\ sleep' <= sleep
  /\ forall id at_, In (id, at_) retries -> exists k, sleep' <= Sub at_ (en_clock e k).
Proof.
  induction retries as [|[id0 at0] retries IH]; intros sleep s; cbn [until_retries read_clock]; [exists sleep, s; split_and!; [done|lia|done]|].
  destruct (IH (Z.min sleep (Sub at0 (en_clock e (wo_reads s)))) (s <| wo_reads ::= S |>)) as (sleep' & s' & -> & Hle & H). exists sleep', s'. split_and!; [done|lia|].
  intros id at_ [[= <- <-]|Hin]; [|eauto]. exists (wo_reads s). lia.
Qed.

Lemma Sub_mono t t' u : t <= t' -> Sub t u <= Sub t' u.
Proof. unfold Sub, maxDuration. lia. Qed.

(** A registration the loop keeps in view: it is up to date and the loop wakes for its next slot, or it is tried
    again and the loop wakes for that, or it is gone. *)
Definition in_view (sleep read : Z) (st : periodicState) (r : registeredPeriodic) : Prop :=
  (exists n, st_next st !! rp_id r = Some n /\ first_after (slot_of r) now hi n
     /\ forall t, n = Some t -> exists k, sleep <= Sub t now - Sub (en_clock e k) read)
  \/ (exists at_ k, st_retryAt st !! rp_id r = Some at_ /\ sleep <= Sub at_ (en_clock e k)) \/ gone r.

(** The end of a pass. *)
Lemma pass_end soonest st s read : exists sleep wakeAt s',
  (let '(sleep, s) := match soonest with Some t => let '(u, s) := read_clock e s in (Sub t now - Sub u read, s) | None => (maxDuration, s) end in
   let '(sleep, s) := until_retries e (map_to_list (st_retryAt st)) sleep s in
   let '(wakeAt, s) := if sleep <? maxDuration then let '(u, s) := read_clock e s in (Some (now + Sub u read + Z.max sleep 0), s) else (None, s) in
   Some (sleep, st <| st_wakeAt := wakeAt |>, s)) = Some (sleep, st <| st_wakeAt := wakeAt |>, s')
  /\ forall r, handled soonest st r -> in_view sleep read (st <| st_wakeAt := wakeAt |>) r.
Proof.
  set (first := match soonest with Some t => _ | None => _ end).
  assert (Hfirst : forall u, soonest = Some u -> exists k, fst first <= Sub u now - Sub (en_clock e k) read).
  { intros u E. unfold first. rewrite E. cbn. exists (wo_reads s). lia. }
  destruct first as [sleep0 s0]. cbn [fst] in Hfirst. destruct (until_retries_spec (map_to_list (st_retryAt st)) sleep0 s0) as (sleep & s1 & -> & Hle & Hret).
  exists sleep. destruct (sleep <? maxDuration); cbn [read_clock]; (do 2 eexists; split; [reflexivity|]).
  all: intros r [(n & Hn & Hf & Ht)|[(at_ & Ha)|Hg]]; [left|right; left|right; now right].
  all: try (exists n; split_and!; [done|done|]; intros t E; destruct (Ht t E) as (u & Eu & Hu); destruct (Hfirst u Eu) as [k Hk]; exists k; pose proof (Sub_mono u t now Hu); lia).
  all: destruct (Hret (rp_id r) at_) as [k Hk]; [apply list_elem_of_In, elem_of_map_to_list; done|]; exists at_, k; done.
Qed.

(** A pass whose read of the clock failed. *)
Lemma pass_unread regs lastSlots st s err : regs <> [] ->
  exists st', periodicPass parseFloat formatFloat c tu e regs (Err err) lastSlots st s = Some (lt_leaderInterval tu, st', s)
    /\ st_clockFailed st' = true /\ forall r, In r regs -> same_at st st' (rp_id r) \/ gone r.
Proof.
  intros Hne. unfold periodicPass. destruct regs as [|r0 regs0]; [done|]. set (regs := r0 :: regs0). eexists. split; [reflexivity|]. split; [reflexivity|].
  intros r Hin. destruct (en_removed e (wo_tries s) (rp_id r)) eqn:Er; [right; exists (wo_tries s); now left|]. left.
  assert (Hs : existsb (fun r' => Nat.eqb (rp_id r') (rp_id r)) regs && negb (en_removed e (wo_tries s) (rp_id r)) = true).
  { rewrite Er, andb_true_r. apply existsb_exists. exists r. split; [done|apply Nat.eqb_refl]. }
  unfold same_at. cbn -[existsb]. split; (rewrite map_lookup_filter; destruct (_ !! rp_id r) as [x|]; [|done]; cbn -[existsb]; now rewrite option_guard_True).
Qed.

End Pass.
