(* ===== verification/PeriodicRuns.v ===== *)
(** * Periodic jobs over many passes: theorems on Periodic.v

    Intervals and cron expressions are schedules, the slots missed are the most
    recent ones, and over any number of passes a job that does not fall behind
    its leader's term has each slot answered once and in order. *)

From Stdlib Require Import List ZArith Lia Bool String Sorted.
From stdpp Require Import base tactics list relations gmap strings.
From S2P Require Import Prelude Sql Text Types Store Insert Cluster Dates Cron CronSpec Unique Inserting Periodic PeriodicSpec.
Import ListNotations.
Local Open Scope string_scope.
Local Open Scope Z_scope.
Local Open Scope list_scope.

(** ** Schedules *)

(** IntervalSchedule, from the zero time on. *)
Definition interval_next (d t : Z) : option Z := let u := IntervalSchedule_Next d t in if u =? zero_ns then None else Some u.
Definition interval_slot (d t : Z) : bool := (t - zero_ns) mod d =? 0.

#[export] Instance interval_schedule d lo hi : 0 < d -> zero_ns <= lo -> Schedule (interval_next d) (interval_slot d) lo hi.
Proof.
  intros Hd Hlo.
  assert (Hn : forall t, zero_ns <= t -> interval_next d t = Some (t - (t - zero_ns) mod d + d) /\ t < t - (t - zero_ns) mod d + d).
  { intros t Ht. pose proof (Z.mod_pos_bound (t - zero_ns) d Hd). unfold interval_next, IntervalSchedule_Next, Truncate. destruct (Z.leb_spec d 0); [lia|].
    destruct (Z.eqb_spec (t - (t - zero_ns) mod d + d) zero_ns); [lia|]. split; [done|lia]. }
  split.
  - intros t u Ht E. destruct (Hn t ltac:(lia)) as [E' Hlt]. rewrite E' in E. injection E as <-. split; [done|]. unfold interval_slot.
    set (q := (t - zero_ns) / d). assert (Hq : t - (t - zero_ns) mod d + d = zero_ns + d * (q + 1)) by (pose proof (Z.div_mod (t - zero_ns) d); lia).
    rewrite Hq. split.
    + replace (zero_ns + d * (q + 1) - zero_ns) with ((q + 1) * d) by lia. now rewrite Z.mod_mul by lia.
    + intros v Hv. apply Z.eqb_neq. intros Ev. pose proof (Z.div_mod (v - zero_ns) d). pose proof (Z.div_mod (t - zero_ns) d). pose proof (Z.mod_pos_bound (t - zero_ns) d Hd).
      fold q in H0. set (p := (v - zero_ns) / d) in *. assert (d * q < d * p < d * (q + 1)) by lia. assert (q < p < q + 1) by nia. lia.
  - intros t Ht E. destruct (Hn t ltac:(lia)) as [E' _]. rewrite E' in E. discriminate E.
Qed.

(** A cron expression in a zone of one offset, over at most its search's five years. *)
Definition cron_next (s : CronSchedule) (t : Z) : option Z := match CronSchedule_Next s t with Slot u => Some (u * 1000000000) | _ => None end.
Definition cron_slot (s : CronSchedule) (t : Z) : bool := (t mod 1000000000 =? 0) && matches s (t / 1000000000).

#[export] Instance cron_schedule s off lo hi : cs_loc s = fixed off -> Year (cs_loc s) (hi / 1000000000) <= Year (cs_loc s) (lo / 1000000000) + 5 ->
  Schedule (cron_next s) (cron_slot s) lo hi.
Proof.
  intros Hz Hy.
  assert (Hslot : forall v, cron_slot s v = true -> exists u, v = u * 1000000000 /\ matches s u = true).
  { intros v [Hv Hm]%andb_true_iff. apply Z.eqb_eq in Hv. exists (v / 1000000000). split; [|done]. pose proof (Z.div_mod v 1000000000). lia. }
  split.
  - intros t u Ht E. pose proof (Next_first s off t Hz) as H. unfold cron_next in E. destruct (CronSchedule_Next s t) as [u'| |]; [|discriminate E..]. injection E as <-.
    destruct H as (H1 & H2 & H3). split; [done|]. unfold cron_slot at 1. rewrite Z.mod_mul, Z.div_mul by lia. split; [done|]. intros v Hv. destruct (cron_slot s v) eqn:Es; [|done].
    apply Hslot in Es as (x & -> & Hx). rewrite H3 in Hx by lia. discriminate Hx.
  - intros t Ht E v Hv. pose proof (Next_first s off t Hz) as H. unfold cron_next in E. destruct (CronSchedule_Next s t) as [u'| |]; [discriminate E| |contradiction].
    destruct (cron_slot s v) eqn:Es; [|done]. apply Hslot in Es as (x & -> & Hx). rewrite H in Hx; [discriminate Hx|lia|].
    assert (Year (cs_loc s) x <= Year (cs_loc s) (hi / 1000000000)) by (apply (Year_mono s off); [done|]; apply Z.div_le_lower_bound; lia).
    assert (Year (cs_loc s) (lo / 1000000000) <= Year (cs_loc s) (t / 1000000000 + 1))
      by (apply (Year_mono s off); [done|]; pose proof (Z.div_le_mono lo t 1000000000); lia).
    lia.
Qed.

(** ** The slots missed *)

(** C27:
    The slots a job back-fills are exactly the most recent of those it missed: of all the slots after the last
    one and not after now, as many as fall within the last lease term or, if that is more, as CatchUp says, up to
    10000, oldest first.  The search, over windows that double, always ends. *)
Theorem missed_most_recent next slot lo hi ttl catchUp last now all window :
  Schedule next slot lo hi -> 0 <= ttl -> lo <= last <= hi -> now <= hi ->
  slots_in slot last now all -> slots_in slot (maxTime last (now - ttl)) now window ->
  missedSlots next ttl catchUp last now = Some (lastn (missed_count catchUp window) all).
Proof.
  intros HS Ht Hl Hn Hall Hwin. destruct (missedSlots_spec next slot lo hi ttl catchUp last now) as (all' & window' & Ha & Hw & ->); [done..|].
  now rewrite (slots_in_unique slot last now all' all), (slots_in_unique slot (maxTime last (now - ttl)) now window' window).
Qed.

(** ** Many passes *)

Section Runs.
Context (next : Z -> option Z) (slot : Z -> bool) (lo hi ttl : Z) (catchUp : option Z) `{!Schedule next slot lo hi}.
Hypothesis ttl_nonneg : 0 <= ttl.
(** What the inserts answer, by the number tried. *)
Context (answers : nat -> bool).

(** The slots answered so far, and the inserts tried. *)
Definition answered (t : Z) (s : list Z * nat) : bool * (list Z * nat) :=
  if answers (snd s) then (true, (fst s ++ [t], S (snd s))) else (false, (fst s, S (snd s))).

(** A pass at a later time, which finds the job no further behind than the term when it counts as late. *)
Inductive pass_step : Z * option Z * (list Z * nat) -> Z * option Z * (list Z * nat) -> Prop :=
| a_pass now now' n n' late ok s s' : now <= now' <= hi -> (late = true -> match n with Some t => now' - ttl <= t | None => True end) ->
    job_pass answered next ttl catchUp late n now' s = Some (n', ok, s') -> pass_step (now, n, s) (now', n', s').

Lemma insert_until_answered l : forall s, exists fine, l = fine ++ fst (insert_until answered l s) /\ fst (snd (insert_until answered l s)) = fst s ++ fine.
Proof.
  induction l as [|t l IH]; intros s; cbn [insert_until]; [exists []; split; [done|]; cbn; now rewrite app_nil_r|]. destruct (answered t s) as [ok s1] eqn:Ea. unfold answered in Ea.
  destruct (answers (snd s)); injection Ea as <- <-.
  - destruct (IH (fst s ++ [t], S (snd s))) as (fine & E1 & E2). exists (t :: fine). cbn [app]. split; [now f_equal|]. rewrite E2. cbn [fst]. now rewrite <- app_assoc.
  - exists []. now rewrite app_nil_r.
Qed.

Lemma slots_in_prefix a b l t m : slots_in slot a b (l ++ t :: m) -> slots_in slot a (t - 1) l /\ a < t <= b /\ slot t = true.
Proof.
  intros [Hs Hl]. destruct (proj1 (Hl t)) as [Ht Et]; [apply in_app_iff; right; now left|]. split; [|done]. split; [now apply StronglySorted_app_l in Hs|].
  assert (Hlt : forall v, In v l -> v < t).
  { intros v (l1 & l2 & ->)%list_elem_of_In%list_elem_of_split. rewrite <- app_assoc in Hs. apply StronglySorted_app_r in Hs. inversion Hs as [|? ? _ Hf].
    rewrite List.Forall_forall in Hf. apply Hf, in_app_iff. right. now left. }
  assert (Hge : forall v, In v m -> t < v).
  { intros v Hv. apply StronglySorted_app_r in Hs. inversion Hs as [|? ? _ Hf]. rewrite List.Forall_forall in Hf. now apply Hf. }
  intros v. split.
  - intros Hv. destruct (proj1 (Hl v)) as [H1 H2]; [apply in_app_iff; now left|]. specialize (Hlt v Hv). split; [lia|done].
  - intros [Hv Ev]. assert (Hin : In v (l ++ t :: m)) by (apply Hl; split; [lia|done]). apply in_app_iff in Hin as [|[->|Hin]]; [done|lia|]. specialize (Hge v Hin). lia.
Qed.

(** C25:
    Each slot once and in order.  Over any passes of a leader at times that do not go back, whatever inserts fail
    on the way, for a job that is never late by more than the lease term, the slots whose insert succeeded are
    exactly the slots from where it began up to where it stands, in order and without repeats, and its next slot
    is the first after those. *)
Theorem slots_exactly_once start n k now n' done_ k' :
  rtc pass_step (start, n, ([], k)) (now, n', (done_, k')) -> lo <= start -> start <= hi -> first_after slot start hi n ->
  exists upto, start <= upto <= now /\ slots_in slot start upto done_ /\ first_after slot upto hi n'.
Proof.
  intros Hr Hlo Hhi Hn.
  assert (H : forall x y, rtc pass_step x y -> (exists upto, start <= upto <= fst (fst x) /\ fst (fst x) <= hi /\ slots_in slot start upto (fst (snd x)) /\ first_after slot upto hi (snd (fst x))) ->
    exists upto, start <= upto <= fst (fst y) /\ fst (fst y) <= hi /\ slots_in slot start upto (fst (snd y)) /\ first_after slot upto hi (snd (fst y))).
  2: { destruct (H _ _ Hr) as (upto & H1 & _ & H2 & H3); cbn [fst snd] in *; [|eauto]. exists start. split_and!; [lia|lia|done| |done]. apply slots_in_nil. lia. }
  clear Hr Hn n k now n' done_ k'. intros x y Hr. induction Hr as [x|x y z Hstep _ IH]; [done|]. intros (upto & Hu & Hle & Hs & Hf). apply IH. clear IH.
  destruct Hstep as [now now' n n' late ok s s' Hnow Hlate E]. cbn [fst snd] in *.
  destruct (slots_in_ex slot upto now') as [all Hall]. destruct (slots_in_ex slot (now' - ttl) now') as [window Hwin].
  destruct (job_pass_due answered next slot lo hi ttl catchUp late upto n now' s all window) as (n1 & E' & Hg); [done|lia|lia|done|done|done|].
  assert (Hdue : due_slots ttl catchUp late n now' all window = all).
  { unfold due_slots. destruct late; [|done]. destruct n as [t|]; [|done]. cbn [andb]. destruct (Z.ltb_spec t (now' - ttl)); [|done]. specialize (Hlate eq_refl). lia. }
  rewrite Hdue in *. rewrite E in E'. injection E' as -> _ ->. destruct (insert_until_answered all s) as (fine & Efine & Eans). rewrite Eans.
  destruct (fst (insert_until answered all s)) as [|t rest] eqn:Er; destruct Hg as [_ Hg].
  - exists now'. rewrite app_nil_r in Efine. subst fine. split_and!; [lia|lia|lia| |done]. apply slots_in_app with upto; [lia|done|done].
  - subst n1. rewrite Efine in Hall. destruct (slots_in_prefix _ _ _ _ _ Hall) as (Hpre & Ht & Et). exists (t - 1). split_and!; [lia|lia|lia| |].
    + apply slots_in_app with upto; [lia|done|done].
    + cbn. split_and!; [lia|done|lia].
Qed.
End Runs.

(** ** Runs of a job every minute *)

Definition minute : Z := 60000000000.
Definition minutely : Z -> option Z := interval_next minute.
#[local] Instance minutely_schedule : Schedule minutely (interval_slot minute) 0 (2 ^ 62).
Proof. apply interval_schedule; [done|unfold zero_ns; lia]. Qed.

Lemma minute_slot t : interval_slot minute t = true <-> exists q, t = minute * q.
Proof.
  unfold interval_slot. rewrite Z.eqb_eq. unfold minute, zero_ns. split.
  - intros E. exists ((t - -62135596800 * 1000000000) / 60000000000 - 1035593280). pose proof (Z.div_mod (t - -62135596800 * 1000000000) 60000000000). lia.
  - intros [q ->]. replace (60000000000 * q - -62135596800 * 1000000000) with ((q + 1035593280) * 60000000000) by lia. now apply Z.mod_mul.
Qed.

Lemma five_minutes : slots_in (interval_slot minute) 0 300000000000 [60000000000; 120000000000; 180000000000; 240000000000; 300000000000].
Proof.
  split; [repeat constructor; done|]. intros t. rewrite minute_slot. unfold minute. split.
  - intros [<-|[<-|[<-|[<-|[<-|[]]]]]]; (split; [lia|]); [exists 1|exists 2|exists 3|exists 4|exists 5]; done.
  - intros [Ht [q ->]]. assert (q = 1 \/ q = 2 \/ q = 3 \/ q = 4 \/ q = 5) as [->|[->|[->|[->| ->]]]] by lia; cbn; auto 6.
Qed.
Lemma last_minutes : slots_in (interval_slot minute) 210000000000 300000000000 [240000000000; 300000000000].
Proof.
  split; [repeat constructor; done|]. intros t. rewrite minute_slot. unfold minute. split.
  - intros [<-|[<-|[]]]; (split; [lia|]); [exists 4|exists 5]; done.
  - intros [Ht [q ->]]. assert (q = 4 \/ q = 5) as [->| ->] by lia; cbn; auto.
Qed.

Lemma missed_most_recent_witness : missedSlots minutely 90000000000 (Some 3) 0 300000000000 = Some [180000000000; 240000000000; 300000000000].
Proof.
  rewrite (missed_most_recent minutely (interval_slot minute) 0 (2 ^ 62) 90000000000 (Some 3) 0 300000000000
    [60000000000; 120000000000; 180000000000; 240000000000; 300000000000] [240000000000; 300000000000]); [reflexivity|apply minutely_schedule|lia|lia|lia|apply five_minutes|apply last_minutes].
Defined.

(** The second of three inserts fails, and the next pass, which is late, goes on from it. *)
Lemma slots_exactly_once_witness : exists upto, 0 <= upto <= 200000000000
  /\ slots_in (interval_slot minute) 0 upto [60000000000; 120000000000; 180000000000] /\ first_after (interval_slot minute) upto (2 ^ 62) (Some 240000000000).
Proof.
  apply (slots_exactly_once minutely (interval_slot minute) 0 (2 ^ 62) 90000000000 None ltac:(lia) (fun k => negb (Nat.eqb k 1)) 0 (Some 60000000000) 0
    200000000000 (Some 240000000000) [60000000000; 120000000000; 180000000000] 4); [|lia|lia|].
  - eapply rtc_l; [apply (a_pass _ _ _ _ _ 0 150000000000 (Some 60000000000) (Some 120000000000) false false ([], 0%nat) ([60000000000], 2%nat)); [lia|done|vm_compute; reflexivity]|].
    apply rtc_once. apply (a_pass _ _ _ _ _ 150000000000 200000000000 _ _ true true); [lia|intros _; lia|vm_compute; reflexivity].
  - cbn. split; [lia|]. split; [reflexivity|]. intros v Hv. apply not_true_iff_false. rewrite minute_slot. unfold minute. intros [q ->]. lia.
Defined.

Definition tick_args : JobArgs := mkJobArgs "tick" None (Ok "{}") VOther.
Definition tick_job : registeredPeriodic := mkRegistered 0 (mkPeriodicJob "tick" (Some minutely) (Some tick_args) None None) "" "" None None.
Definition calm : env := mkEnv (fun k => mkW 150000000 (fun n => Z.of_nat n + 5)) (fun _ => Answered) (fun _ d => d) (fun _ _ => false) (fun k => Z.of_nat k * 1000).
Definition tick_pass : option (Z * periodicState * world) :=
  periodicPass (fun _ => None) (fun f : unit => "0") (mkConfig false [] 25) (mkLeaderTuning 90000000000 15000000000) calm [tick_job] (Ok 150000000000)
    (Ok [("tick", 60000000)]) (mkPeriodicState ∅ ∅ false None) (mkWorld empty_db 0 [] 0).


Example tick_inserted : match tick_pass with Some (_, st, s) => (List.map j_Kind (db_jobs (wo_db s)), st_next st !! 0%nat) | None => ([], None) end
  = (["tick"], Some (Some 180000000000)).
Proof. vm_compute. reflexivity. Qed.
