(* ===== verification/PeriodicSet.v ===== *)
(** * The set of periodic jobs and their stored definitions: theorems on Periodic.v

    A client's set has each name once and finds exactly its jobs by name, and a
    job scheduled from its stored definition inserts what its client would. *)

From Stdlib Require Import List ZArith Lia Bool String.
From stdpp Require Import base tactics list relations gmap strings.
From S2P Require Import Prelude Sql Text Types Store JobTags Insert Cluster Dates Cron Unique UniqueSpec Inserting Periodic.
Import ListNotations.
Local Open Scope string_scope.
Local Open Scope Z_scope.
Local Open Scope list_scope.

(** ** The set *)

Record set_ok (p : PeriodicJobs) : Prop := {
  so_names : List.NoDup (List.map rp_name (ps_jobs p));
  so_ids : List.NoDup (List.map rp_id (ps_jobs p));
  so_byName : forall name r, ps_byName p !! name = Some r <-> In r (ps_jobs p) /\ rp_name r = name;
  so_fresh : forall r, In r (ps_jobs p) -> (rp_id r < ps_fresh p)%nat;
  so_flags : forall id, id ∈ ps_removed p -> (id < ps_fresh p)%nat;
  so_live : forall r, In r (ps_jobs p) -> rp_id r ∉ ps_removed p }.

Lemma put_byName regs : forall m name r, List.NoDup (List.map rp_name regs) ->
  (fold_left (fun m r => <[rp_name r := r]> m) regs m : gmap string registeredPeriodic) !! name = Some r
  <-> (In r regs /\ rp_name r = name) \/ (~ In name (List.map rp_name regs) /\ m !! name = Some r).
Proof.
  induction regs as [|r0 regs IH]; intros m name r Hn; cbn [fold_left]; [cbn; tauto|]. inversion Hn as [|? ? H0 Hn']; subst. rewrite IH by done. cbn [List.map In].
  destruct (String.eqb_spec (rp_name r0) name) as [E|E].
  - subst name. rewrite lookup_insert_eq. split.
    + intros [[Hin Er]|[_ [= ->]]]; [exfalso; apply H0; rewrite <- Er; now apply in_map|left; auto].
    + intros [[[<-|Hin] Er]|[Hno _]]; [right; auto|left; auto|exfalso; auto].
  - rewrite lookup_insert_ne by done. split.
    + intros [[Hin Er]|[Hno Em]]; [left; auto|right; split; [intros [|]; auto|done]].
    + intros [[[<-|Hin] Er]|[Hno Em]]; [congruence|left; auto|right; auto].
Qed.

Lemma put_jobs_ok regs p : set_ok p -> List.NoDup (List.map rp_name regs) -> List.NoDup (List.map rp_id regs) ->
  (forall r, In r regs -> ps_byName p !! rp_name r = None) -> (forall r r', In r regs -> In r' (ps_jobs p) -> rp_id r <> rp_id r') ->
  (forall r, In r regs -> (rp_id r < ps_fresh p)%nat /\ rp_id r ∉ ps_removed p) -> set_ok (put_jobs regs p).
Proof.
  intros [H1 H2 H3 H4 H5 H6] Hn Hi Hno Hid Hf.
  assert (Hapart : forall r r', In r regs -> In r' (ps_jobs p) -> rp_name r <> rp_name r').
  { intros r r' Hr Hr' E. specialize (Hno r Hr). rewrite (proj2 (H3 (rp_name r) r')) in Hno by auto. discriminate Hno. }
  split; cbn [put_jobs ps_jobs ps_byName ps_fresh ps_removed]; unfold put_jobs; cbn.
  - rewrite List.map_app. apply List.NoDup_app; [done|done|]. intros x (r' & <- & Hr')%in_map_iff (r & E & Hr)%in_map_iff. now apply (Hapart r r').
  - rewrite List.map_app. apply List.NoDup_app; [done|done|]. intros x (r' & <- & Hr')%in_map_iff (r & E & Hr)%in_map_iff. now apply (Hid r r').
  - intros name r. rewrite put_byName by done. rewrite in_app_iff, H3. split.
    + intros [[Hin E]|[_ [Hin E]]]; auto.
    + intros [[Hin|Hin] E]; [right|left; auto]. split; [|auto]. intros (r' & E' & Hr')%in_map_iff. apply (Hapart r' r); [done|done|congruence].
  - intros r [Hin|Hin]%in_app_iff; [auto|now apply Hf].
  - done.
  - intros r [Hin|Hin]%in_app_iff; [auto|now apply Hf].
Qed.

Lemma resolve_from_names jobs : forall names out, resolve_from jobs names = Ok out ->
  List.NoDup (List.map pj_Name out) /\ (forall j, In j out -> pj_Name j ∉ names) /\ List.length out = List.length jobs.
Proof.
  induction jobs as [|job jobs IH]; intros names out E; cbn [resolve_from] in E; [injection E as <-; split_and!; [constructor|done|done]|].
  destruct (resolve job) as [j|]; [|discriminate E]. case_bool_decide as Hj; [discriminate E|].
  destruct (resolve_from jobs _) as [rest|] eqn:Er; [|discriminate E]. injection E as <-. apply IH in Er as (H1 & H2 & H3). cbn. split_and!.
  - constructor; [|done]. intros (j' & Ej & Hin)%in_map_iff. apply (H2 j' Hin). set_solver.
  - intros j' [<-|Hin]; [done|]. specialize (H2 j' Hin). set_solver.
  - congruence.
Qed.

Section Ops.
Context (validate : PeriodicJob -> result unit) (define : PeriodicJob -> result string) (definitionDigest : string -> string).

Lemma register_all_spec jobs : forall id regs, register_all validate define definitionDigest jobs id = Ok regs ->
  List.map rp_job regs = jobs /\ List.map rp_id regs = List.seq id (List.length jobs).
Proof.
  induction jobs as [|j jobs IH]; intros id regs E; cbn [register_all] in E; [injection E as <-; done|]. destruct (validate j); [|discriminate E].
  destruct (define j) as [def|]; [|discriminate E]. destruct (register_all _ _ _ jobs (S id)) as [rest|] eqn:Er; [|discriminate E]. injection E as <-.
  apply IH in Er as [<- Hi]. cbn [List.map rp_job rp_id List.length List.seq]. rewrite List.length_map. split; [done|]. now rewrite Hi, List.length_map.
Qed.

Inductive set_step : PeriodicJobs -> PeriodicJobs -> Prop :=
| step_AddMany jobs p : set_step p (snd (AddMany validate define definitionDigest jobs p))
| step_Remove name p : set_step p (snd (Remove name p))
| step_Clear p : set_step p (Clear p).

Lemma notify_set_ok p : set_ok p -> set_ok (notify_set p).
Proof. intros [H1 H2 H3 H4 H5 H6]. split; cbn; assumption. Qed.

Lemma AddMany_ok jobs p : set_ok p -> set_ok (snd (AddMany validate define definitionDigest jobs p)).
Proof.
  intros Hp. unfold AddMany. destruct (resolvePeriodic jobs) as [resolved|] eqn:Er; [|done]. apply resolve_from_names in Er as (Hn & _ & _).
  destruct (register_all _ _ _ resolved (ps_fresh p)) as [regs|] eqn:Eg; [|done]. apply register_all_spec in Eg as [Ej Ei]. cbv zeta.
  set (p1 := p <| ps_fresh ::= _ |>). assert (Hlen : List.length regs = List.length resolved) by (rewrite <- Ej, List.length_map; done).
  assert (Hp1 : set_ok p1) by (destruct Hp as [H1 H2 H3 H4 H5 H6]; split; cbn; auto; [intros r Hr; specialize (H4 r Hr)|intros id Hid; specialize (H5 id Hid)]; lia).
  destruct (existsb _ regs) eqn:Ex; [done|]. cbn [snd]. apply notify_set_ok, put_jobs_ok; [done| | | | |].
  - replace (List.map rp_name regs) with (List.map pj_Name (List.map rp_job regs)) by apply List.map_map. now rewrite Ej.
  - rewrite Ei. apply seq_NoDup.
  - intros r Hr. destruct (ps_byName p1 !! rp_name r) as [r'|] eqn:E; [|done]. exfalso. apply not_true_iff_false in Ex. apply Ex, existsb_exists. exists r. now rewrite E.
  - intros r r' Hr Hr' E. assert (Hs : In (rp_id r) (List.seq (ps_fresh p) (List.length resolved))) by (rewrite <- Ei; now apply in_map).
    apply in_seq in Hs. pose proof (so_fresh p Hp r' Hr'). lia.
  - intros r Hr. assert (Hs : In (rp_id r) (List.seq (ps_fresh p) (List.length resolved))) by (rewrite <- Ei; now apply in_map).
    apply in_seq in Hs. cbn. split; [lia|]. intros Hin. apply (so_flags p Hp) in Hin. lia.
Qed.

Lemma Remove_ok name p : set_ok p -> set_ok (snd (Remove name p)).
Proof.
  intros Hp. unfold Remove. destruct (ps_byName p !! name) as [r|] eqn:Er; [|done]. destruct Hp as [H1 H2 H3 H4 H5 H6]. apply H3 in Er as [Hr <-].
  assert (Hq : forall j, In j (List.filter (fun j => negb (Nat.eqb (rp_id j) (rp_id r))) (ps_jobs p)) <-> In j (ps_jobs p) /\ rp_id j <> rp_id r).
  { intros j. rewrite filter_In, negb_true_iff, Nat.eqb_neq. done. }
  cbn [snd]. apply notify_set_ok. split; cbn.
  - now apply (NoDup_map_sel rp_name).
  - now apply (NoDup_map_sel rp_id).
  - intros n r'. rewrite Hq, lookup_delete_Some, H3. split.
    + intros (Hne & Hin & <-). split; [|done]. split; [done|]. intros E. apply Hne. f_equal. symmetry. apply (NoDup_map_inj rp_id (ps_jobs p) r' r H2 Hin Hr E).
    + intros [[Hin Hne] <-]. split; [|done]. intros E. apply Hne. f_equal. apply (NoDup_map_inj rp_name (ps_jobs p) r' r H1 Hin Hr). done.
  - intros r' [Hin _]%Hq. auto.
  - intros id [->%elem_of_singleton|Hid]%elem_of_union; auto.
  - intros r' [Hin Hne]%Hq [E%elem_of_singleton|Hid]%elem_of_union; [done|]. now apply (H6 r').
Qed.

Lemma Clear_ok p : set_ok p -> set_ok (Clear p).
Proof.
  intros [H1 H2 H3 H4 H5 H6]. unfold Clear. apply notify_set_ok. split; cbn; try done; [constructor|constructor| |].
  - intros name r. rewrite lookup_empty. split; [done|]. now intros [[] _].
  - intros id [Hid|Hid]%elem_of_union; [|auto]. apply elem_of_list_to_set, list_elem_of_In, in_map_iff in Hid as (r & <- & Hr). auto.
Qed.

Lemma imap_registered jobs : forall k, let regs := imap (fun i job => mkRegistered (k + i) job "" "" None None) jobs in
  List.map rp_job regs = jobs /\ List.map rp_id regs = List.seq k (List.length jobs).
Proof.
  induction jobs as [|j jobs IH]; intros k; [done|]. cbn [imap List.map List.length List.seq rp_job rp_id]. destruct (IH (S k)) as [H1 H2].
  assert (E : imap ((fun i job => mkRegistered (k + i) job "" "" None None) ∘ S) jobs = imap (fun i job => mkRegistered (S k + i) job "" "" None None) jobs).
  { apply imap_ext. intros i x _. cbn. now rewrite <- plus_n_Sm. }
  rewrite E, H1, H2. now rewrite Nat.add_0_r.
Qed.

Lemma newPeriodicJobs_ok jobs resolved insertOnly : resolvePeriodic jobs = Ok resolved -> set_ok (newPeriodicJobs resolved insertOnly).
Proof.
  intros E. apply resolve_from_names in E as (Hn & _ & _). destruct (imap_registered resolved 0) as [Ej Ei]. unfold newPeriodicJobs. cbn [Nat.add] in Ej, Ei.
  set (regs := imap _ resolved) in *. apply put_jobs_ok; [|..|].
  - split; cbn; try done; [constructor|constructor|]. intros name r. rewrite lookup_empty. split; [done|]. now intros [[] _].
  - replace (List.map rp_name regs) with (List.map pj_Name (List.map rp_job regs)) by apply List.map_map. now rewrite Ej.
  - rewrite Ei. apply seq_NoDup.
  - done.
  - intros r r' _ [].
  - intros r Hr. assert (Hs : In (rp_id r) (List.seq 0 (List.length resolved))) by (rewrite <- Ei; now apply in_map). apply in_seq in Hs. cbn. split; [lia|set_solver].
Qed.

(** A client's set of periodic jobs is sound however AddMany, Remove and Clear follow each other: every name and
    every registration is in it once, a name finds exactly the job of that name, and no job in it is marked
    removed; and AddMany adds all the jobs it is given, in order and with their names resolved, or none. *)
Theorem periodic_set_sound config resolved insertOnly p : resolvePeriodic config = Ok resolved -> rtc set_step (newPeriodicJobs resolved insertOnly) p ->
  set_ok p
  /\ forall jobs, match AddMany validate define definitionDigest jobs p with
     | (Err _, p') => ps_jobs p' = ps_jobs p /\ ps_byName p' = ps_byName p
     | (Ok _, p') => exists added, resolvePeriodic jobs = Ok added /\ List.map rp_job (ps_jobs p') = List.map rp_job (ps_jobs p) ++ added
     end.
Proof.
  intros Hc Hr. split.
  - apply newPeriodicJobs_ok with (insertOnly := insertOnly) in Hc. revert Hc. induction Hr as [q|q q' q'' Hs _ IH]; [done|]. intros Hq. apply IH.
    destruct Hs; [now apply AddMany_ok|now apply Remove_ok|now apply Clear_ok].
  - intros jobs. unfold AddMany. destruct (resolvePeriodic jobs) as [added|]; [|done]. destruct (register_all _ _ _ added (ps_fresh p)) as [regs|] eqn:Eg; [|done].
    apply register_all_spec in Eg as [Ej _]. cbv zeta. destruct (existsb _ regs); [done|]. exists added. split; [done|]. cbn. now rewrite List.map_app, Ej.
Qed.
End Ops.

Definition beat (name : string) : PeriodicJob :=
  mkPeriodicJob name (Some (fun t => Some (IntervalSchedule_Next 60000000000 t))) (Some (mkJobArgs "beat" None (Ok "{}") VOther)) None None.
Definition all_valid (_ : PeriodicJob) : result unit := Ok tt.
Definition not_stored (_ : PeriodicJob) : result string := Ok "".

Lemma periodic_set_sound_witness : exists p, rtc (set_step all_valid not_stored (fun d => d)) (newPeriodicJobs [beat "a"] false) p
  /\ set_ok p /\ List.map rp_name (ps_jobs p) = ["b"].
Proof.
  exists (snd (Remove "a" (snd (AddMany all_valid not_stored (fun d => d) [beat "b"] (newPeriodicJobs [beat "a"] false))))).
  assert (Hr : rtc (set_step all_valid not_stored (fun d => d)) (newPeriodicJobs [beat "a"] false)
    (snd (Remove "a" (snd (AddMany all_valid not_stored (fun d => d) [beat "b"] (newPeriodicJobs [beat "a"] false)))))).
  { eapply rtc_l; [apply step_AddMany|]. apply rtc_once, step_Remove. }
  split; [exact Hr|]. split; [|vm_compute; reflexivity]. refine (proj1 (periodic_set_sound all_valid not_stored (fun d => d) [beat "a"] [beat "a"] false _ _ Hr)). reflexivity.
Defined.

(** ** Stored definitions *)

Lemma or_text_again x y : or_text (or_text x y) y = or_text x y.
Proof. unfold or_text. destruct (String.eqb_spec x "") as [->|H]; [destruct (String.eqb_spec y "") as [->|]; done|now apply String.eqb_neq in H as ->]. Qed.
Lemma or_text_same y : or_text y y = y.
Proof. unfold or_text. now destruct (String.eqb y ""). Qed.
Lemma or_Z_again x y : or_Z (or_Z x y) y = or_Z x y.
Proof. unfold or_Z. destruct (Z.eqb_spec x 0) as [->|H]; [destruct (Z.eqb_spec y 0) as [->|]; done|now apply Z.eqb_neq in H as ->]. Qed.
Lemma or_Z_same y : or_Z y y = y.
Proof. unfold or_Z. now destruct (y =? 0). Qed.

(** Options already merged are not changed by merging them again, whatever their uniqueness. *)
Lemma effectiveOpts_again a o u : (op_Unique (effectiveOpts a o) = None -> u = None) -> (op_Unique (effectiveOpts a o) <> None -> u <> None) ->
  effectiveOpts a (Some ((effectiveOpts a o) <| op_Unique := u |>)) = (effectiveOpts a o) <| op_Unique := u |>.
Proof.
  unfold effectiveOpts. set (own := match ar_InsertOpts a with Some o => o | None => no_opts end). intros H1 H2.
  destruct o as [o|]; unfold merge, set_field in *; cbn in *.
  - rewrite !or_text_again, !or_Z_again. f_equal.
    + unfold or_some. destruct (op_ScheduledAt o), (op_ScheduledAt own); done.
    + destruct u as [u|]; [done|]. cbn in *. destruct (op_Unique o); cbn in *; [exfalso; now apply H2|]. destruct (op_Unique own); [exfalso; now apply H2|done].
    + destruct (op_Await o), (op_Await own); done.
    + destruct (op_Tags o), (op_Tags own); done.
  - rewrite !or_text_same, !or_Z_same. f_equal.
    + unfold or_some. destruct (op_ScheduledAt own); done.
    + destruct u as [u|]; [done|]. cbn. destruct (op_Unique own); [exfalso; now apply H2|done].
    + destruct (op_Await own); done.
    + destruct (op_Tags own); done.
Qed.

Lemma checked_opts_unique c o u : checked_opts c (o <| op_Unique := u |>) = match checked_opts c o with Ok o => Ok (o <| op_Unique := u |>) | Err e => Err e end.
Proof. unfold checked_opts. cbn. repeat case_match; simplify_eq; done. Qed.

Lemma checked_opts_keeps c o o' : checked_opts c o = Ok o' -> op_Unique o' = op_Unique o.
Proof. unfold checked_opts. cbn. intros E. repeat case_match; simplify_eq; done. Qed.

Lemma key_parts_period u a q t : key_parts u a q t = (key_parts (u <| uo_ByPeriod := 0 |>) a q t ++ (if uo_ByPeriod u >? 0 then [periodPart t (uo_ByPeriod u)] else []))%list.
Proof. unfold key_parts. cbn. now rewrite app_nil_r, app_assoc. Qed.

Lemma key_parts_start u a q t : match key_parts (u <| uo_ByPeriod := 0 |>) a q t with [] => True | s :: _ => exists c r, s = String c r /\ c <> Ascii.ascii_of_nat 42 end.
Proof.
  unfold key_parts. cbn. destruct (uo_ByArgs u); [|destruct (uo_ByQueue u); [|done]]; cbn [app]; do 2 eexists; (split; [reflexivity|discriminate]).
Qed.

Lemma join_last sep l t : l <> [] -> join sep (l ++ [t]) = (join sep l ++ sep ++ t)%string.
Proof.
  induction l as [|a l IH]; [done|]. intros _. destruct l as [|b l]; [done|]. change (join sep ((a :: b :: l) ++ [t])) with (a ++ sep ++ join sep ((b :: l) ++ [t]))%string.
  rewrite IH by done. change (join sep (a :: b :: l)) with (a ++ sep ++ join sep (b :: l))%string. now rewrite !app_assoc_str.
Qed.

(** The key of a slot is the key without the period, with the period joined on. *)
Definition with_period (key : string) (period slot : Z) : string :=
  if period >? 0 then if String.eqb key "*" then periodPart slot period else (key ++ uniqueKeySeparator ++ periodPart slot period)%string else key.

Lemma key_text_period u a q t t' : key_text (key_parts u a q t) = with_period (key_text (key_parts (u <| uo_ByPeriod := 0 |>) a q t')) (uo_ByPeriod u) t
  /\ key_text (key_parts (u <| uo_ByPeriod := 0 |>) a q t') <> "".
Proof.
  assert (Et : key_parts (u <| uo_ByPeriod := 0 |>) a q t' = key_parts (u <| uo_ByPeriod := 0 |>) a q t) by reflexivity. rewrite Et. clear Et.
  rewrite key_parts_period. pose proof (key_parts_start u a q t) as Hs. set (parts := key_parts (u <| uo_ByPeriod := 0 |>) a q t) in *. clearbody parts.
  unfold with_period. destruct parts as [|s parts].
  - split; [|done]. generalize (periodPart t (uo_ByPeriod u)). intros pp. now destruct (uo_ByPeriod u >? 0).
  - destruct Hs as (c & r & -> & Hc). assert (Hj : exists r', key_text (String c r :: parts) = String c r') by (destruct parts; cbn; [eauto|]; eexists; apply app_cons_str).
    split; [|destruct Hj as [r' ->]; done]. generalize (periodPart t (uo_ByPeriod u)). intros pp. destruct (uo_ByPeriod u >? 0); [|now rewrite app_nil_r].
    assert (Hne : String.eqb (key_text (String c r :: parts)) "*" = false) by (destruct Hj as [r' ->]; apply String.eqb_neq; intros [= -> _]; now apply Hc).
    rewrite Hne. change (join uniqueKeySeparator ((String c r :: parts) ++ [pp]) = (key_text (String c r :: parts) ++ uniqueKeySeparator ++ pp)%string). now rewrite join_last.
Qed.

Section Defined.
Context {F : Type} (parseFloat : string -> option F) (formatFloat : F -> string) (c : Config).

(** What building an insert makes of the options checked. *)
Lemma build_unique a opts now : buildInsertParams parseFloat formatFloat c (mkInsertParams (Some a) opts 0) now =
  if String.eqb (ar_Kind a) "" then Err (ErrText "an empty kind")
  else if cf_StrictKinds c && negb (mem_str (ar_Kind a) (cf_kinds c)) then Err (ErrText "unknown kind")
  else match checked_opts c (effectiveOpts a opts), ar_Encoded a with
       | Err e, _ | Ok _, Err e => Err e
       | Ok o, Ok args =>
           match unique_parts parseFloat formatFloat a args o now with
           | Err e => Err e
           | Ok (k, states, action) => Ok (mkJobInsertParams (ar_Kind a) (op_Queue o) (op_Priority o) (op_MaxAttempts o) (op_ScheduledAt o) args
               (op_Metadata o) (op_Tags o) k states (op_OrderingKey o) (op_PartitionKey o) 0 (op_TTL o) (op_Await o), action)
           end
       end.
Proof. unfold buildInsertParams. cbn. repeat case_match; done. Qed.

(** C29:
    A periodic job scheduled from its stored definition inserts, at every slot, what its own client would insert
    from its args: the same job with the same unique key, the slot's period joined on where ByPeriod says so, or
    the same refusal of a key that is too long. *)
Theorem defined_params_agree p slot job byPeriod : definedInsert parseFloat formatFloat c p = Ok (job, byPeriod) -> ip_ScheduledAt job = None ->
  periodicParams parseFloat formatFloat c p slot = definedJob_params (defined_of job byPeriod) slot.
Proof.
  unfold definedInsert, periodicParams. destruct (pj_Args p) as [a|] eqn:Ea; [|done]. unfold insertParams. rewrite Ea. set (opts := match pj_Opts p with Some o => po_InsertOpts o | None => None end).
  cbn [np_Opts]. set (eff := effectiveOpts a opts). intros E Hat.
  rewrite build_unique. fold eff. destruct (op_Unique eff) as [u|] eqn:Eu; cbv zeta in E.
  - rewrite build_unique, (effectiveOpts_again a opts (Some (u <| uo_ByPeriod := 0 |>))), checked_opts_unique in E by (fold eff; congruence). fold eff in E.
    destruct (String.eqb (ar_Kind a) ""); [done|]. destruct (cf_StrictKinds c && _); [done|]. destruct (checked_opts c eff) as [o|] eqn:Eo; [|done].
    destruct (ar_Encoded a) as [args|]; [|done]. pose proof (checked_opts_keeps c eff o Eo) as Hu. rewrite Eu in Hu. unfold unique_parts in *. rewrite Hu. cbn in E.
    unfold UniqueOpts_key in *. cbn [uo_ByArgs] in E.
    replace (uo_ByArgs (u <| uo_ByPeriod := 0 |>)) with (uo_ByArgs u) in E by reflexivity.
    destruct (if uo_ByArgs u then _ else _) as [ka|] eqn:Eka; [|done]. cbv zeta in *.
    destruct (key_text_period u ka (op_Queue o) slot zero_ns) as [Hk Hne]. set (base := key_text (key_parts (u <| uo_ByPeriod := 0 |>) ka (op_Queue o) zero_ns)) in *.
    destruct (checkUniqueKey base) as [[]|] eqn:Ec; [|done].
    change (finished_states (uo_Finished u) []) with (UniqueOpts_finished u) in E.
    destruct (UniqueOpts_finished u) as [states|]; [|repeat case_match; done]. injection E as <- <-. cbn in Hat.
    unfold definedJob_params, defined_of. cbn -[periodPart checkUniqueKey]. apply String.eqb_neq in Hne. rewrite Hne. cbn -[periodPart checkUniqueKey]. rewrite Hk. unfold with_period. rewrite Hat.
    match goal with |- context [checkUniqueKey ?k] => generalize k end. intros k. now destruct (checkUniqueKey k).
  - rewrite build_unique in E. replace eff with (eff <| op_Unique := None |>) in E by (rewrite <- Eu; destruct eff; done).
    unfold eff in E at 1. rewrite effectiveOpts_again, checked_opts_unique in E by (fold eff; congruence). fold eff in E.
    destruct (String.eqb (ar_Kind a) ""); [done|]. destruct (cf_StrictKinds c && _); [done|]. destruct (checked_opts c eff) as [o|] eqn:Eo; [|done].
    destruct (ar_Encoded a) as [args|]; [|done]. pose proof (checked_opts_keeps c eff o Eo) as Hu. rewrite Eu in Hu. unfold unique_parts in *. rewrite Hu. cbn in E.
    injection E as <- <-. cbn in Hat. unfold definedJob_params, defined_of. cbn. now rewrite Hat.
Qed.
End Defined.

(** An hourly report, one per queue and hour. *)
Definition report : PeriodicJob :=
  mkPeriodicJob "report" (Some (fun t => Some (IntervalSchedule_Next 3600000000000 t)))
    (Some (mkJobArgs "report" (Some (no_opts <| op_Unique := Some (mkUniqueOpts false true 3600000000000 UniqueSkip [Completed]) |>)) (Ok "{}") VOther)) None None.
Definition report_insert : JobInsertParams * Z :=
  (mkJobInsertParams "report" "default" 2 25 None "{}" "" [] "q=default" [Completed] "" "" 0 0 false, 3600000000000).

Lemma defined_params_agree_witness :
  periodicParams (fun _ => None) (fun f : unit => "0") (mkConfig false [] 25) report 1700000000000000000
    = definedJob_params (defined_of (fst report_insert) (snd report_insert)) 1700000000000000000
  /\ definedJob_params (defined_of (fst report_insert) (snd report_insert)) 1700000000000000000
    = Ok (mkJobInsertParams "report" "default" 2 25 None "{}" "" [] ("q=default" ++ uniqueKeySeparator ++ "p=2023-11-14T22:00:00Z")%string [Completed] "" "" 0 0 false).
Proof.
  split; [|vm_compute; reflexivity]. apply (defined_params_agree (fun _ => None) (fun f : unit => "0") (mkConfig false [] 25) report 1700000000000000000).
  - vm_compute. reflexivity.
  - reflexivity.
Defined.
