(* ===== verification/EffectiveSpec.v ===== *)
(** * Which periodic jobs the leader schedules: theorems on Effective.v

    Every name once, none of the leader's own jobs lost, and the newest client's
    definition where it can be read. *)

From Stdlib Require Import List ZArith Lia Bool String Permutation.
From stdpp Require Import base tactics list gmap strings.
From S2P Require Import Prelude Sql Text Types Store Insert Cluster Inserting Periodic PeriodicSet Effective.
Import ListNotations.
Local Open Scope string_scope.
Local Open Scope Z_scope.
Local Open Scope list_scope.

Lemma sorted_keys_In {A} (m : gmap string A) k : In k (sorted_keys m) <-> is_Some (m !! k).
Proof.
  unfold sorted_keys. rewrite In_order_by, in_map_iff. split.
  - intros ([k' a] & <- & Hin). exists a. apply elem_of_map_to_list, list_elem_of_In, Hin.
  - intros [a Ha]. exists (k, a). split; [done|]. apply list_elem_of_In, elem_of_map_to_list, Ha.
Qed.
Lemma sorted_keys_NoDup {A} (m : gmap string A) : List.NoDup (sorted_keys m).
Proof. unfold sorted_keys. rewrite order_by_perm. apply NoDup_ListNoDup. exact (NoDup_fst_map_to_list m). Qed.

(** A fold over distinct names, with an invariant of the names done. *)
Lemma fold_names {A} (f : A -> string -> A) (Inv : list string -> A -> Prop) names a :
  List.NoDup names -> (forall seen x name, Inv seen x -> ~ In name seen -> In name names -> Inv (name :: seen) (f x name)) -> Inv [] a -> Inv (rev names) (fold_left f names a).
Proof.
  intros Hn Hf Ha. assert (H : forall rest seen x, Inv seen x -> List.NoDup rest -> (forall n, In n rest -> ~ In n seen /\ In n names) -> Inv (rev rest ++ seen) (fold_left f rest x)).
  { induction rest as [|n rest IH]; intros seen x Hx Hr Hin; cbn [fold_left rev app]; [done|]. inversion Hr as [|? ? Hni Hr']; subst. rewrite <- app_assoc. cbn [app].
    apply IH; [apply Hf; [done|apply Hin; now left|apply Hin; now left]|done|]. intros m Hm. destruct (Hin m (or_intror Hm)) as [H1 H2]. split; [|done].
    intros [->|]; [done|auto]. }
  rewrite <- (app_nil_r (rev names)). apply H; auto.
Qed.

Section Sound.
Context (recordable : registeredPeriodic -> bool) (decode : string -> storedDef -> result (PeriodicJob * (Z -> result JobInsertParams))).
Context (self : Z) (snapshot : list registeredPeriodic).
Hypothesis names_once : List.NoDup (List.map rp_name snapshot).
Hypothesis ids_once : List.NoDup (List.map rp_id snapshot).

Definition own : gmap string registeredPeriodic := fold_left (fun m r => <[rp_name r := r]> m) snapshot ∅.
Lemma own_spec name r : own !! name = Some r <-> In r snapshot /\ rp_name r = name.
Proof. unfold own. rewrite put_byName by done. rewrite lookup_empty. split; [intros [H|[_ [=]]]; done|auto]. Qed.

(** The registrations the loop made are told apart from each other and from the leader's own. *)
Record pointers (st : definedState) : Prop := {
  pt_names : forall name r, ds_defined st !! name = Some r -> rp_name r = name;
  pt_fresh : forall name r, ds_defined st !! name = Some r -> (rp_id r < ds_fresh st)%nat;
  pt_inj : forall n n' r r', ds_defined st !! n = Some r -> ds_defined st !! n' = Some r' -> rp_id r = rp_id r' -> n = n';
  pt_own : forall r, In r snapshot -> (rp_id r < ds_fresh st)%nat;
  pt_apart : forall name r r', ds_defined st !! name = Some r -> In r' snapshot -> rp_id r <> rp_id r' }.

(** The plan after the names seen: each is wanted or scheduled, not both, and the leader's own jobs all are. *)
Record planned (seen : list string) (p : plan) : Prop := {
  pn_seen : forall name, is_Some (pl_wanted p !! name) -> In name seen;
  pn_out : forall r, In r (pl_out p) -> In r snapshot /\ In (rp_name r) seen /\ pl_wanted p !! rp_name r = None;
  pn_once : List.NoDup (List.map rp_name (pl_out p));
  pn_own : forall r, In r snapshot -> In (rp_name r) seen -> is_Some (pl_wanted p !! rp_name r) \/ In r (pl_out p) }.

Lemma planned_want seen p name d o : planned seen p -> ~ In name seen -> planned (name :: seen) (mkPlan (<[name := d]> (pl_wanted p)) o (pl_out p)).
Proof.
  intros [H1 H2 H3 H4] Hn. split; cbn.
  - intros n. destruct (String.eqb_spec n name) as [->|Hne]; [auto|]. rewrite lookup_insert_ne by done. auto.
  - intros r Hr. destruct (H2 r Hr) as (A & B & C). split_and!; [done|auto|]. rewrite lookup_insert_ne; [done|]. intros ->. done.
  - done.
  - intros r Hr Hin. destruct (String.eqb_spec (rp_name r) name) as [->|Hne]; [left; rewrite lookup_insert_eq; eauto|]. rewrite lookup_insert_ne by done.
    destruct Hin as [|Hin]; [done|auto].
Qed.

Lemma planned_out seen p r o : planned seen p -> In r snapshot -> ~ In (rp_name r) seen -> planned (rp_name r :: seen) (mkPlan (pl_wanted p) o (pl_out p ++ [r])).
Proof.
  intros [H1 H2 H3 H4] Hr Hn. assert (Hw : pl_wanted p !! rp_name r = None) by (destruct (pl_wanted p !! rp_name r) eqn:E; [exfalso; apply Hn, H1; eauto|done]).
  split; cbn.
  - auto.
  - intros r' [Hr'|[<-|[]]]%in_app_iff; [|auto]. destruct (H2 r' Hr') as (A & B & C). auto.
  - rewrite List.map_app. apply List.NoDup_app; [done|repeat constructor; intros []|]. intros x (r' & <- & Hr')%in_map_iff [E|[]]. apply Hn. rewrite E. now apply H2.
  - intros r' Hr' [E|Hin].
    + right. apply in_app_iff. right. left. apply (NoDup_map_inj rp_name snapshot); auto.
    + destruct (H4 r' Hr' Hin) as [|Hin']; [auto|]. right. apply in_app_iff. auto.
Qed.

Lemma planned_skip seen p name : planned seen p -> own !! name = None -> planned (name :: seen) p.
Proof.
  intros [H1 H2 H3 H4] Ho. split; cbn; auto.
  - intros r Hr. destruct (H2 r Hr) as (A & B & C). auto.
  - intros r Hr [E|Hin]; [|auto]. assert (own !! name = Some r) by (apply own_spec; auto). congruence.
Qed.

Lemma source_of_own defs o r : source_of recordable self defs o = Some (inr r) -> o = Some r.
Proof. induction defs as [|d defs IH]; cbn; [done|]. destruct (negb _); [done|]. destruct o as [r'|]; [|auto]. destruct (records recordable r'); [intros [= ->]; done|auto]. Qed.

(** A name another client registers most recently is wanted as that client defines it. *)
Definition heads (stored : gmap string (list storedDef)) (seen : list string) (p : plan) : Prop :=
  forall name d rest, In name seen -> stored !! name = Some (d :: rest) -> sd_client d <> self -> pl_wanted p !! name = Some d.

Lemma choose_planned stored seen p name : planned seen p /\ heads stored seen p -> ~ In name seen ->
  planned (name :: seen) (choose recordable self stored own p name) /\ heads stored (name :: seen) (choose recordable self stored own p name).
Proof.
  intros [Hp Hh] Hn.
  assert (Hold : forall n d, In n seen -> <[name := d]> (pl_wanted p) !! n = pl_wanted p !! n) by (intros n d Hin; apply lookup_insert_ne; intros ->; done).
  assert (Hhead : forall d rest, stored !! name = Some (d :: rest) -> sd_client d <> self -> source_of recordable self (default [] (stored !! name)) (own !! name) = Some (inl d)).
  { intros d rest -> Hd. cbn. destruct (Z.eqb_spec (sd_client d) self); [done|]. done. }
  unfold choose. destruct (source_of recordable self (default [] (stored !! name)) (own !! name)) as [[d|r]|] eqn:Es.
  - assert (Hw : forall o, planned (name :: seen) (mkPlan (<[name := d]> (pl_wanted p)) o (pl_out p)) /\ heads stored (name :: seen) (mkPlan (<[name := d]> (pl_wanted p)) o (pl_out p))).
    { intros o. split; [now apply planned_want|]. intros n d' rest [<-|Hin] E Hd; cbn [pl_wanted].
      - specialize (Hhead d' rest E Hd). rewrite lookup_insert_eq. congruence.
      - rewrite Hold by done. now apply (Hh n d' rest). }
    destruct (own !! name) as [r|]; [|apply (Hw (pl_owner p))]. destruct (_ && _); [apply (Hw (<[name := r]> (pl_owner p)))|apply (Hw (pl_owner p))].
  - assert (Hkeep : forall p', (forall n, In n seen -> pl_wanted p' !! n = pl_wanted p !! n) -> heads stored (name :: seen) p').
    { intros p' Hp' n d rest [<-|Hin] E Hd; [specialize (Hhead d rest E Hd); discriminate Hhead|]. rewrite Hp' by done. now apply (Hh n d rest). }
    apply source_of_own in Es. apply own_spec in Es as [Hr <-]. destruct (negb (records recordable r)); (split; [|apply Hkeep; cbn; auto]).
    + now apply (planned_out seen p r (pl_owner p)).
    + now apply (planned_want seen p (rp_name r) (ownDef r) (<[rp_name r := r]> (pl_owner p))).
  - assert (Hkeep : forall p', (forall n, In n seen -> pl_wanted p' !! n = pl_wanted p !! n) -> heads stored (name :: seen) p').
    { intros p' Hp' n d rest [<-|Hin] E Hd; [specialize (Hhead d rest E Hd); discriminate Hhead|]. rewrite Hp' by done. now apply (Hh n d rest). }
    destruct (own !! name) as [r|] eqn:Eo; [|split; [now apply planned_skip|apply Hkeep; auto]]. apply own_spec in Eo as [Hr <-].
    destruct (negb (records recordable r)); (split; [|apply Hkeep; cbn; auto]).
    + now apply (planned_out seen p r (pl_owner p)).
    + now apply (planned_want seen p (rp_name r) (ownDef r) (<[rp_name r := r]> (pl_owner p))).
Qed.

(** ** Making the registrations *)

Section Making.
Context (st : definedState) (p0 : plan).

(** A name whose newest definition is another client's, can be read and was not rejected before. *)
Definition readable (name : string) (d : storedDef) : Prop :=
  (exists rest, ds_byName st !! name = Some (d :: rest)) /\ sd_client d <> self /\ (exists x, decode name d = Ok x) /\ text_at (ds_rejected st) name <> sd_digest d.

Record made (seen : list string) (m : making) : Prop := {
  md_out : forall r, In r (pl_out (mk_plan m)) -> In r snapshot /\ pl_wanted (mk_plan m) !! rp_name r = None;
  md_once : List.NoDup (List.map rp_name (pl_out (mk_plan m)));
  md_own : forall r, In r snapshot -> is_Some (pl_wanted (mk_plan m) !! rp_name r) \/ In r (pl_out (mk_plan m));
  md_todo : forall name, ~ In name seen -> pl_wanted (mk_plan m) !! name = pl_wanted p0 !! name /\ mk_rejected m !! name = ds_rejected st !! name;
  md_ready : forall name d, In name seen -> pl_wanted (mk_plan m) !! name = Some d ->
    defined_digest (ds_defined st) name = Some (sd_digest d) \/ exists r, mk_added m !! name = Some r /\ rp_digest r = sd_digest d;
  md_added : forall name r, mk_added m !! name = Some r -> In name seen /\ rp_name r = name /\ (ds_fresh st <= rp_id r < mk_fresh m)%nat
    /\ exists d, pl_wanted (mk_plan m) !! name = Some d /\ rp_digest r = sd_digest d;
  md_inj : forall n n' r r', mk_added m !! n = Some r -> mk_added m !! n' = Some r' -> rp_id r = rp_id r' -> n = n';
  md_fresh : (ds_fresh st <= mk_fresh m)%nat;
  md_head : forall name d, readable name d -> pl_wanted (mk_plan m) !! name = Some d }.

Lemma definedPeriodic_Ok id name d r : definedPeriodic decode id name d = Ok r -> rp_name r = name /\ rp_id r = id /\ rp_digest r = sd_digest d.
Proof. unfold definedPeriodic. destruct (decode name d) as [[job params]|]; [|done]. intros [= <-]. done. Qed.

Definition with_added (m : making) (name : string) (new : option registeredPeriodic) : making :=
  match new with Some r => m <| mk_added ::= <[name := r]> |> <| mk_fresh ::= S |> | None => m end.

(** A name wanted by a definition there is a registration of. *)
Lemma made_wants seen m name d o rejected new : made seen m -> ~ In name seen -> is_Some (pl_wanted (mk_plan m) !! name) ->
  (forall n, n <> name -> rejected !! n = mk_rejected m !! n) -> (forall d', readable name d' -> d = d') ->
  match new with
  | Some r => rp_name r = name /\ rp_id r = mk_fresh m /\ rp_digest r = sd_digest d
  | None => defined_digest (ds_defined st) name = Some (sd_digest d)
  end ->
  made (name :: seen) (with_added (mkMaking (mkPlan (<[name := d]> (pl_wanted (mk_plan m))) o (pl_out (mk_plan m))) (mk_added m) rejected (mk_fresh m)) name new).
Proof.
  intros [H1 H2 H3 H4 H5 H6 H7 H8 H9] Hn [want Hw] Hrej Hread Hnew.
  assert (Hout : forall r, In r (pl_out (mk_plan m)) -> rp_name r <> name) by (intros r Hr E; destruct (H1 r Hr) as [_ E']; rewrite E in E'; congruence).
  assert (Hna : mk_added m !! name = None) by (destruct (mk_added m !! name) as [r|] eqn:E; [destruct (H6 name r E); done|done]).
  set (m' := with_added _ name new).
  assert (Hm' : mk_plan m' = mkPlan (<[name := d]> (pl_wanted (mk_plan m))) o (pl_out (mk_plan m)) /\ mk_rejected m' = rejected
    /\ mk_added m' = match new with Some r => <[name := r]> (mk_added m) | None => mk_added m end /\ mk_fresh m' = match new with Some _ => S (mk_fresh m) | None => mk_fresh m end)
    by (unfold m'; destruct new; done).
  destruct Hm' as (E1 & E2 & E3 & E4). clearbody m'. split; rewrite ?E1, ?E2, ?E3, ?E4; cbn.
  - intros r Hr. destruct (H1 r Hr). split; [done|]. rewrite lookup_insert_ne; [done|]. intros E. now apply (Hout r).
  - done.
  - intros r Hr. destruct (String.eqb_spec (rp_name r) name) as [->|Hne]; [left; rewrite lookup_insert_eq; eauto|]. rewrite lookup_insert_ne by done. auto.
  - intros n Hin. rewrite lookup_insert_ne, Hrej by (intros ->; apply Hin; now left). apply H4. intros H. apply Hin. now right.
  - intros n d' Hin. destruct (String.eqb_spec n name) as [->|Hne].
    + rewrite lookup_insert_eq. intros [= <-]. destruct new as [r|]; [right; exists r; rewrite lookup_insert_eq; tauto|now left].
    + rewrite lookup_insert_ne by done. intros E. destruct Hin as [|Hin]; [done|]. destruct (H5 n d' Hin E) as [|(r & Er & Hd)]; [auto|right]. exists r. split; [|done].
      destruct new; [now rewrite lookup_insert_ne|done].
  - intros n r E. destruct (String.eqb_spec n name) as [->|Hne].
    + rewrite lookup_insert_eq. destruct new as [r'|]; [|congruence]. rewrite lookup_insert_eq in E. injection E as ->. destruct Hnew as (N1 & N2 & N3).
      split_and!; [auto|done|lia|lia|]. eauto.
    + rewrite lookup_insert_ne by done. assert (E' : mk_added m !! n = Some r) by (destruct new; [now rewrite lookup_insert_ne in E|done]).
      destruct (H6 n r E') as (A & B & C & D). split_and!; [auto|done|lia|destruct new; lia|done].
  - destruct new as [r0|]; [|exact H7]. destruct Hnew as (N1 & N2 & N3). intros n n' r r' E E' Eid.
    destruct (String.eqb_spec n name) as [->|Hne], (String.eqb_spec n' name) as [->|Hne']; [done| | |].
    + rewrite lookup_insert_eq in E. rewrite lookup_insert_ne in E' by done. injection E as ->. destruct (H6 n' r' E') as (_ & _ & ? & _). lia.
    + rewrite lookup_insert_eq in E'. rewrite lookup_insert_ne in E by done. injection E' as ->. destruct (H6 n r E) as (_ & _ & ? & _). lia.
    + rewrite lookup_insert_ne in E, E' by done. eauto.
  - destruct new; lia.
  - intros n d' Hrd. destruct (String.eqb_spec n name) as [->|Hne]; [rewrite lookup_insert_eq; f_equal; auto|]. rewrite lookup_insert_ne by done. auto.
Qed.

(** A name left to the leader's own job, or to none. *)
Lemma made_drops seen m name o rejected : made seen m -> ~ In name seen -> is_Some (pl_wanted (mk_plan m) !! name) ->
  (forall n, n <> name -> rejected !! n = mk_rejected m !! n) -> (forall d', ~ readable name d') ->
  made (name :: seen) (mkMaking (mkPlan (delete name (pl_wanted (mk_plan m))) o
    (pl_out (mk_plan m) ++ match own !! name with Some r => [r] | None => [] end)) (mk_added m) rejected (mk_fresh m)).
Proof.
  intros [H1 H2 H3 H4 H5 H6 H7 H8 H9] Hn [want Hw] Hrej Hread.
  assert (Hout : forall r, In r (pl_out (mk_plan m)) -> rp_name r <> name) by (intros r Hr E; destruct (H1 r Hr) as [_ E']; rewrite E in E'; congruence).
  assert (Hna : mk_added m !! name = None) by (destruct (mk_added m !! name) as [r|] eqn:E; [destruct (H6 name r E); done|done]).
  assert (Hone : forall r, In r (match own !! name with Some r => [r] | None => [] end) -> In r snapshot /\ rp_name r = name).
  { intros r. destruct (own !! name) as [r'|] eqn:E; [|done]. intros [<-|[]]. now apply own_spec. }
  split; cbn; auto.
  - intros r [Hr|Hr]%in_app_iff; [|destruct (Hone r Hr) as [A ->]; split; [done|apply lookup_delete_eq]]. destruct (H1 r Hr). split; [done|].
    rewrite lookup_delete_ne; [done|]. intros E. now apply (Hout r).
  - rewrite List.map_app. apply List.NoDup_app; [done| |].
    + destruct (own !! name); cbn; repeat constructor. intros [].
    + intros x (r & <- & Hr)%in_map_iff (r' & E & Hr')%in_map_iff. apply (Hout r Hr). rewrite <- E. now apply Hone.
  - intros r Hr. destruct (String.eqb_spec (rp_name r) name) as [<-|Hne].
    + right. apply in_app_iff. right. rewrite (proj2 (own_spec (rp_name r) r)) by auto. now left.
    + rewrite lookup_delete_ne by done. destruct (H3 r Hr); [auto|right; apply in_app_iff; auto].
  - intros n Hin. rewrite lookup_delete_ne, Hrej by (intros ->; apply Hin; now left). apply H4. intros H. apply Hin. now right.
  - intros n d' Hin E. destruct (String.eqb_spec n name) as [->|Hne]; [rewrite lookup_delete_eq in E; discriminate E|]. rewrite lookup_delete_ne in E by done.
    destruct Hin as [|Hin]; [done|auto].
  - intros n r E. destruct (H6 n r E) as (A & B & C & D). split_and!; [auto|done|lia|lia|]. rewrite lookup_delete_ne; [done|]. intros ->. congruence.
  - intros n d' Hrd. rewrite lookup_delete_ne; [auto|]. intros ->. now apply (Hread d').
Qed.

Lemma same_digest_spec o d : same_digest o d = true -> o = Some d.
Proof. destruct o as [x|]; cbn; [|done]. intros ->%String.eqb_eq. done. Qed.

Lemma fall_back_made seen m name rejected : made seen m -> ~ In name seen -> is_Some (pl_wanted (mk_plan m) !! name) ->
  (forall n, n <> name -> rejected !! n = mk_rejected m !! n) -> (forall d', ~ readable name d') ->
  made (name :: seen) (fall_back recordable decode own (ds_defined st) (m <| mk_rejected := rejected |>) name).
Proof.
  intros Hm Hn Hw Hrej Hread.
  assert (Hdrop : forall o, made (name :: seen) (mkMaking (mkPlan (delete name (pl_wanted (mk_plan m))) o
    (pl_out (mk_plan m) ++ match own !! name with Some r => [r] | None => [] end)) (mk_added m) rejected (mk_fresh m))) by (intros o; now apply made_drops).
  assert (Hwants : forall r o new, match new with Some x => rp_name x = name /\ rp_id x = mk_fresh m /\ rp_digest x = rp_digest r
      | None => defined_digest (ds_defined st) name = Some (rp_digest r) end ->
    made (name :: seen) (with_added (mkMaking (mkPlan (<[name := ownDef r]> (delete name (pl_wanted (mk_plan m)))) o (pl_out (mk_plan m))) (mk_added m) rejected (mk_fresh m)) name new)).
  { intros r o new Hnew. rewrite insert_delete_eq. apply made_wants; auto. intros d' Hr. destruct (Hread d' Hr). }
  unfold fall_back. cbv zeta. destruct (own !! name) as [r|] eqn:Eo.
  2: { specialize (Hdrop (delete name (pl_owner (mk_plan m)))). rewrite app_nil_r in Hdrop. exact Hdrop. }
  destruct (negb (records recordable r)); [exact (Hdrop (delete name (pl_owner (mk_plan m))))|].
  destruct (same_digest _ _) eqn:Esd; [apply same_digest_spec in Esd; exact (Hwants r (<[name := r]> (delete name (pl_owner (mk_plan m)))) None Esd)|].
  match goal with |- context [if negb ?b then _ else _] => destruct (negb b) end; [|exact (Hdrop (delete name (pl_owner (mk_plan m))))].
  cbn [mk_fresh]. destruct (definedPeriodic decode _ name (ownDef r)) as [x|] eqn:Ed; [|exact (Hdrop (delete name (pl_owner (mk_plan m))))].
  apply definedPeriodic_Ok in Ed. exact (Hwants r (<[name := r]> (delete name (pl_owner (mk_plan m)))) (Some x) Ed).
Qed.

Lemma make_made seen m name : made seen m -> ~ In name seen -> is_Some (pl_wanted p0 !! name) ->
  made (name :: seen) (make recordable decode own (ds_defined st) m name).
Proof.
  intros Hm Hn Hw0. destruct (md_todo _ _ Hm name Hn) as [Ew Er]. rewrite <- Ew in Hw0. destruct Hw0 as [want Hwant]. unfold make. rewrite Hwant.
  assert (Hread : forall d', readable name d' -> want = d') by (intros d' Hr; apply (md_head _ _ Hm) in Hr; congruence).
  assert (Hwants : forall new, match new with Some x => rp_name x = name /\ rp_id x = mk_fresh m /\ rp_digest x = sd_digest want
      | None => defined_digest (ds_defined st) name = Some (sd_digest want) end -> made (name :: seen) (with_added m name new)).
  { intros new Hnew. pose proof (made_wants seen m name want (pl_owner (mk_plan m)) (mk_rejected m) new Hm Hn ltac:(eauto) ltac:(done) Hread Hnew) as H.
    rewrite (insert_id (pl_wanted (mk_plan m)) name want Hwant) in H. destruct m as [[w o out] a rj f]. exact H. }
  destruct (same_digest _ _) eqn:Esd; [apply same_digest_spec in Esd; exact (Hwants None Esd)|].
  destruct (String.eqb_spec (text_at (mk_rejected m) name) (sd_digest want)) as [Et|Et]; cbn [negb].
  - replace m with (m <| mk_rejected := mk_rejected m |>) by (destruct m; done). apply fall_back_made; [done|done|eauto|done|].
    intros d' Hr. pose proof (Hread d' Hr) as <-. destruct Hr as (_ & _ & _ & Hrj). apply Hrj. unfold text_at in *. now rewrite <- Er.
  - destruct (definedPeriodic decode (mk_fresh m) name want) as [x|] eqn:Ed; [apply definedPeriodic_Ok in Ed; exact (Hwants (Some x) Ed)|].
    change (m <| mk_rejected ::= <[name := sd_digest want]> |>) with (m <| mk_rejected := <[name := sd_digest want]> (mk_rejected m) |>).
    apply fall_back_made; [done|done|eauto|intros n Hne; now rewrite lookup_insert_ne|].
    intros d' Hr. pose proof (Hread d' Hr) as <-. destruct Hr as (_ & _ & [y Hy] & _). unfold definedPeriodic in Ed. rewrite Hy in Ed. destruct y. discriminate Ed.
Qed.
End Making.

(** ** The jobs scheduled *)

Lemma take_defined_spec names (defined : gmap string registeredPeriodic) : (forall n, In n names -> is_Some (defined !! n)) ->
  exists out, take_defined names defined = Some out /\ Forall2 (fun n r => defined !! n = Some r) names out.
Proof.
  induction names as [|n names IH]; intros H; cbn [take_defined]; [exists []; auto|]. destruct (H n (or_introl eq_refl)) as [r Hr]. rewrite Hr.
  destruct IH as (out & -> & Hout); [intros m Hm; apply H; now right|]. exists (r :: out). split; [done|]. now constructor.
Qed.

Lemma Forall2_In_r {A B} (P : A -> B -> Prop) l m b : Forall2 P l m -> In b m -> exists a, In a l /\ P a b.
Proof. induction 1 as [|x y l m Hp _ IH]; [done|]. intros [<-|Hin]; [exists x; split; [now left|done]|]. destruct (IH Hin) as (a & Ha & H). exists a. split; [now right|done]. Qed.
Lemma Forall2_In_l {A B} (P : A -> B -> Prop) l m a : Forall2 P l m -> In a l -> exists b, In b m /\ P a b.
Proof. induction 1 as [|x y l m Hp _ IH]; [done|]. intros [<-|Hin]; [exists y; split; [now left|done]|]. destruct (IH Hin) as (b & Hb & H). exists b. split; [now right|done]. Qed.

Lemma taken_ids names (defined : gmap string registeredPeriodic) out : Forall2 (fun n r => defined !! n = Some r) names out -> List.NoDup names ->
  (forall n n' r r', defined !! n = Some r -> defined !! n' = Some r' -> rp_id r = rp_id r' -> n = n') -> List.NoDup (List.map rp_id out).
Proof.
  intros Hf Hn Hinj. induction Hf as [|n r names out Hr Hf IH]; cbn; [constructor|]. inversion Hn as [|? ? Hni Hn']; subst. constructor; [|auto].
  intros (r' & E & Hin)%in_map_iff. destruct (Forall2_In_r _ _ _ _ Hf Hin) as (n' & Hn2 & Hr'). apply Hni. now rewrite (Hinj n n' r r').
Qed.

(** The registrations after a pass: those made and those kept, with their owners. *)
Definition defined_after (m : making) (st : definedState) : gmap string registeredPeriodic :=
  set_owners (mk_plan m) (mk_added m ∪ filter (fun kv => unwanted (pl_wanted (mk_plan m)) kv = false) (ds_defined st)).

Lemma defined_after_inv m st n r' : defined_after m st !! n = Some r' ->
  exists r, (mk_added m !! n = Some r \/ ds_defined st !! n = Some r) /\ rp_id r' = rp_id r /\ rp_name r' = rp_name r /\ rp_digest r' = rp_digest r.
Proof.
  unfold defined_after, set_owners. rewrite map_lookup_imap. intros H. apply bind_Some in H as (r & Hr & [= <-]). exists r. split.
  - apply lookup_union_Some_raw in Hr as [Hr|[_ Hr]]; [auto|]. apply map_lookup_filter_Some in Hr as [Hr _]. auto.
  - now destruct (pl_wanted (mk_plan m) !! n).
Qed.

Lemma defined_after_wanted st p0 m n d : made st p0 (rev (sorted_keys (pl_wanted p0))) m -> pl_wanted (mk_plan m) !! n = Some d ->
  exists r, defined_after m st !! n = Some r /\ rp_digest r = sd_digest d.
Proof.
  intros Hm Hd. destruct (in_dec string_dec n (rev (sorted_keys (pl_wanted p0)))) as [Hin|Hni].
  2: { exfalso. apply Hni. rewrite <- in_rev, sorted_keys_In. destruct (md_todo _ _ _ _ Hm n Hni) as [E _]. rewrite <- E, Hd. eauto. }
  assert (Hu : exists r, (mk_added m ∪ filter (fun kv => unwanted (pl_wanted (mk_plan m)) kv = false) (ds_defined st)) !! n = Some r /\ rp_digest r = sd_digest d).
  { destruct (mk_added m !! n) as [r|] eqn:Ea.
    - exists r. split; [now apply lookup_union_Some_l|]. destruct (md_added _ _ _ _ Hm n r Ea) as (_ & _ & _ & d' & Hd' & E). congruence.
    - destruct (md_ready _ _ _ _ Hm n d Hin Hd) as [Ed|(r & Er & _)]; [|congruence]. unfold defined_digest in Ed. destruct (ds_defined st !! n) as [r|] eqn:Er; [|discriminate Ed].
      injection Ed as Ed. exists r. split; [|done]. rewrite lookup_union_r by done. apply map_lookup_filter_Some. split; [done|]. unfold unwanted. cbn. rewrite Hd, Ed. now rewrite String.eqb_refl. }
  destruct Hu as (r & Hr & Ed). unfold defined_after, set_owners. rewrite map_lookup_imap, Hr. cbn. rewrite Hd. eexists. split; [reflexivity|]. exact Ed.
Qed.

Lemma pointers_after st p0 m : pointers st -> made st p0 (rev (sorted_keys (pl_wanted p0))) m ->
  pointers (mkDefinedState (ds_byName st) (mk_rejected m) (defined_after m st) (mk_fresh m)
    (list_to_set (List.map (fun kv => rp_id (snd kv)) (List.filter (unwanted (pl_wanted (mk_plan m))) (map_to_list (ds_defined st)))) ∪ ds_removed st)).
Proof.
  intros [P1 P2 P3 P4 P5] Hm. pose proof (md_fresh _ _ _ _ Hm) as Hf. split; cbn.
  - intros n r' Hr. apply defined_after_inv in Hr as (r & Hr & _ & -> & _). destruct Hr as [Hr|Hr]; [now apply (md_added _ _ _ _ Hm)|auto].
  - intros n r' Hr. apply defined_after_inv in Hr as (r & Hr & -> & _). destruct Hr as [Hr|Hr]; [destruct (md_added _ _ _ _ Hm n r Hr) as (_ & _ & ? & _); lia|].
    specialize (P2 n r Hr). lia.
  - intros n n' r1 r2 H1 H2 E. apply defined_after_inv in H1 as (r & Hr & E1 & _), H2 as (r' & Hr' & E2 & _). rewrite E1, E2 in E.
    destruct Hr as [Hr|Hr], Hr' as [Hr'|Hr']; [now apply (md_inj _ _ _ _ Hm n n' r r')| | |now apply (P3 n n' r r')].
    + destruct (md_added _ _ _ _ Hm n r Hr) as (_ & _ & ? & _). specialize (P2 n' r' Hr'). lia.
    + destruct (md_added _ _ _ _ Hm n' r' Hr') as (_ & _ & ? & _). specialize (P2 n r Hr). lia.
  - intros r Hr. specialize (P4 r Hr). lia.
  - intros n r1 r2 H1 Hr2. apply defined_after_inv in H1 as (r & Hr & -> & _). destruct Hr as [Hr|Hr]; [|eauto].
    destruct (md_added _ _ _ _ Hm n r Hr) as (_ & _ & ? & _). specialize (P4 r2 Hr2). lia.
Qed.

Definition all_names (st : definedState) : list string :=
  sorted_keys (ds_byName st) ++ List.filter (fun n => match ds_byName st !! n with Some _ => false | None => true end) (List.map rp_name snapshot).
Definition the_plan (st : definedState) : plan := fold_left (choose recordable self (ds_byName st) own) (all_names st) (mkPlan ∅ ∅ []).
Definition the_making (st : definedState) : making :=
  fold_left (make recordable decode own (ds_defined st)) (sorted_keys (pl_wanted (the_plan st))) (mkMaking (the_plan st) ∅ (ds_rejected st) (ds_fresh st)).

Lemma all_names_once st : List.NoDup (all_names st).
Proof.
  apply List.NoDup_app; [apply sorted_keys_NoDup|now apply List.NoDup_filter|]. intros n [d Hd]%sorted_keys_In [_ H]%filter_In. now rewrite Hd in H.
Qed.
Lemma all_names_own st r : In r snapshot -> In (rp_name r) (all_names st).
Proof.
  intros Hr. apply in_app_iff. destruct (ds_byName st !! rp_name r) as [d|] eqn:E; [left; apply sorted_keys_In; eauto|right].
  apply filter_In. split; [now apply in_map|]. now rewrite E.
Qed.

Lemma the_making_made st : made st (the_plan st) (rev (sorted_keys (pl_wanted (the_plan st)))) (the_making st).
Proof.
  assert (Hp : planned (rev (all_names st)) (the_plan st) /\ heads (ds_byName st) (rev (all_names st)) (the_plan st)).
  { apply (fold_names (choose recordable self (ds_byName st) own) (fun seen p => planned seen p /\ heads (ds_byName st) seen p)).
    - apply all_names_once.
    - intros seen p name H Hn _. now apply choose_planned.
    - split; [|intros n d rest []]. split; cbn; try done; [|constructor]. intros n [d Hd]. now rewrite lookup_empty in Hd. }
  destruct Hp as [[H1 H2 H3 H4] Hh]. apply (fold_names (make recordable decode own (ds_defined st)) (made st (the_plan st))).
  - apply sorted_keys_NoDup.
  - intros seen m name Hm Hn Hin. apply make_made; [done|done|]. now apply sorted_keys_In.
  - split; cbn.
    + intros r Hr. destruct (H2 r Hr) as (A & _ & B). auto.
    + done.
    + intros r Hr. apply H4; [done|]. rewrite <- in_rev. now apply all_names_own.
    + done.
    + done.
    + intros name r Hr. exfalso. rewrite lookup_empty in Hr. discriminate Hr.
    + intros n n' r r' Hr. exfalso. rewrite lookup_empty in Hr. discriminate Hr.
    + done.
    + intros name d ((rest & E) & Hd & _). apply (Hh name d rest); [|done|done]. rewrite <- in_rev. apply in_app_iff. left. apply sorted_keys_In. eauto.
Qed.

(** C28:
    The leader schedules every periodic job once.  Whatever clients recorded and whichever definitions can be read,
    effectivePeriodic never reads a registration it does not have; no name and no registration is scheduled twice;
    each of the leader's own jobs is scheduled, from some definition; a name whose newest live client is another one
    is scheduled as that client defines it, if that can be read; and the registrations made stay apart. *)
Theorem effective_once st : pointers st ->
  exists out st', effectivePeriodic recordable decode self snapshot st = Some (out, st')
  /\ List.NoDup (List.map rp_name out) /\ List.NoDup (List.map rp_id out)
  /\ (forall r, In r snapshot -> exists r', In r' out /\ rp_name r' = rp_name r)
  /\ (forall name d, readable st name d -> exists r, In r out /\ rp_name r = name /\ rp_digest r = sd_digest d)
  /\ pointers st'.
Proof.
  intros Hst. pose proof (the_making_made st) as Hm. pose proof (pointers_after st _ _ Hst Hm) as Hst'. set (m := the_making st) in *.
  destruct (take_defined_spec (sorted_keys (pl_wanted (mk_plan m))) (defined_after m st)) as (taken & Et & Hf).
  { intros n [d Hd]%sorted_keys_In. destruct (defined_after_wanted st _ m n d Hm Hd) as (r & Hr & _). eauto. }
  assert (Hnames : forall n r, defined_after m st !! n = Some r -> rp_name r = n) by apply (pt_names _ Hst').
  assert (Htn : List.map rp_name taken = sorted_keys (pl_wanted (mk_plan m))).
  { clear Et. induction Hf as [|n r ns rs Hr _ IH]; [done|]. cbn. now rewrite IH, (Hnames n r Hr). }
  assert (Hwant : forall n, is_Some (pl_wanted (mk_plan m) !! n) -> exists r, In r taken /\ rp_name r = n /\ forall d, pl_wanted (mk_plan m) !! n = Some d -> rp_digest r = sd_digest d).
  { intros n [d Hd]. destruct (Forall2_In_l _ _ _ n Hf) as (r & Hin & Hr); [apply sorted_keys_In; eauto|]. exists r. split; [done|]. split; [now apply Hnames|].
    intros d' Hd'. destruct (defined_after_wanted st _ m n d' Hm Hd') as (r' & Hr' & E). congruence. }
  exists (pl_out (mk_plan m) ++ taken). eexists. split; [|split_and!; [| | | |exact Hst']].
  - unfold effectivePeriodic. cbv zeta. fold own. fold (all_names st). fold (the_plan st). fold (the_making st). fold m. cbn [ds_defined drop_unwanted].
    match goal with |- match ?t with _ => _ end = _ => change t with (take_defined (sorted_keys (pl_wanted (mk_plan m))) (defined_after m st)) end. rewrite Et. reflexivity.
  - rewrite List.map_app, Htn. apply List.NoDup_app; [apply (md_once _ _ _ _ Hm)|apply sorted_keys_NoDup|].
    intros x (r & <- & Hr)%in_map_iff [d Hd]%sorted_keys_In. destruct (md_out _ _ _ _ Hm r Hr). congruence.
  - rewrite List.map_app. apply List.NoDup_app; [| |].
    + assert (Hin : forall r, In r (pl_out (mk_plan m)) -> In r snapshot) by (intros r Hr; now apply (md_out _ _ _ _ Hm)).
      pose proof (md_once _ _ _ _ Hm) as Ho. induction (pl_out (mk_plan m)) as [|r l IH]; cbn in *; [constructor|]. inversion Ho as [|? ? Hr Ho']; subst.
      constructor; [|apply IH; auto]. intros (r' & E & Hr')%in_map_iff. apply Hr. rewrite <- (NoDup_map_inj rp_id snapshot r' r ids_once); auto. now apply in_map.
    + apply (taken_ids _ _ _ Hf); [apply sorted_keys_NoDup|apply (pt_inj _ Hst')].
    + intros x (r & <- & Hr)%in_map_iff (r' & E & Hr')%in_map_iff. destruct (Forall2_In_r _ _ _ _ Hf Hr') as (n & _ & Hn).
      apply (pt_apart _ Hst' n r' r Hn); [now apply (md_out _ _ _ _ Hm)|done].
  - intros r Hr. destruct (md_own _ _ _ _ Hm r Hr) as [Hw|Ho].
    + destruct (Hwant _ Hw) as (r' & Hin & E & _). exists r'. split; [apply in_app_iff; auto|done].
    + exists r. split; [apply in_app_iff; auto|done].
  - intros name d Hr. pose proof (md_head _ _ _ _ Hm name d Hr) as Hd. destruct (Hwant name) as (r & Hin & E & Hdg); [eauto|]. exists r. split; [apply in_app_iff; auto|]. auto.
Qed.
End Sound.

(** The leader registers a job as another client defines it anew, and the other a job of its own. *)
Definition kept_here : registeredPeriodic := mkRegistered 0 (beat "a") "old" "1" None None.
Definition read_there : definedState :=
  mkDefinedState (<["a" := [mkStoredDef 8 "2" "new"; mkStoredDef 7 "1" "old"]]> (<["b" := [mkStoredDef 8 "3" "other"]]> ∅)) ∅ ∅ 1 ∅.
Definition decode_any (name : string) (_ : storedDef) : result (PeriodicJob * (Z -> result JobInsertParams)) := Ok (beat name, fun _ => Err ErrNotFound).

Lemma effective_once_witness : exists out st', effectivePeriodic (fun _ => true) decode_any 7 [kept_here] read_there = Some (out, st')
  /\ List.NoDup (List.map rp_name out) /\ exists r, In r out /\ rp_name r = "a" /\ rp_digest r = "2".
Proof.
  destruct (effective_once (fun _ => true) decode_any 7 [kept_here]) with (st := read_there) as (out & st' & E & Hn & _ & _ & Hr & _).
  - repeat constructor. intros [].
  - repeat constructor. intros [].
  - assert (Hno : forall n r, ds_defined read_there !! n = Some r -> False) by (intros n r H; cbn in H; rewrite lookup_empty in H; discriminate H).
    split; try (intros; exfalso; eauto; fail). intros r [<-|[]]. cbn. lia.
  - exists out, st'. split; [exact E|]. split; [exact Hn|]. apply (Hr "a" (mkStoredDef 8 "2" "new")).
    split; [exists [mkStoredDef 7 "1" "old"]; reflexivity|]. split; [discriminate|]. split; [eexists; reflexivity|discriminate].
Defined.

Example effective_names : option_map (fun o => List.map (fun r => (rp_name r, rp_digest r)) (fst o)) (effectivePeriodic (fun _ => true) decode_any 7 [kept_here] read_there)
  = Some [("a", "2"); ("b", "3")].
Proof. vm_compute. reflexivity. Qed.
