(* ===== verification/ExecuteSpec.v ===== *)
(** * What an attempt's end makes of its job: theorems on Execute.v *)

From Stdlib Require Import List ZArith Lia Bool String SpecFloat.
From stdpp Require Import base tactics list.
From S2P Require Import Prelude Sql Types Store Codec Insert Finalize Float64 Evolution FinalizeSpec JsonCheck Execute.
Import ListNotations.
Local Open Scope string_scope.
Local Open Scope Z_scope.

(** A result of the claim of [row] that the engine takes. *)
Record result_of (row : JobRow) (f : JobFinalize) : Prop := {
  ro_ID : f_ID f = j_ID row;
  ro_by : f_AttemptedBy f = AttemptedBy row;
  ro_fence : f_Fence f = j_Fence row;
  ro_lease : f_Lease f = None;
  ro_check : CheckFinalize f = Ok tt;
  ro_snooze : f_Snooze f = true -> f_State f = Scheduled }.

(** A result that does not end the job: its attempt is given back, or another
    is left. *)
Definition counted (row : JobRow) (f : JobFinalize) : Prop :=
  Terminal (f_State f) = true \/ f_Snooze f || f_GiveBack f = true \/ j_Attempt row < j_MaxAttempts row.

Lemma unanswered_ok row en e g : (g = true -> e_cancel e = false) ->
  result_of row (unanswered row en e g) /\ counted row (unanswered row en e g).
Proof.
  intros _. unfold unanswered, counted. destruct g; [split; [split; try done|simpl; auto]|].
  destruct (e_cancel e || e_tooLarge e || (j_MaxAttempts row <=? j_Attempt row)) eqn:E.
  - split; [split; try done|simpl; auto].
  - split; [split; try done|]. right. right. apply orb_false_iff in E as [_ E]. now apply Z.leb_gt in E.
Qed.

Lemma answered_ok row en e f : answered row en e = Some f -> result_of row f /\ counted row f.
Proof.
  unfold answered, counted. intros H. repeat case_match; simplify_eq; (split; [split; try done|]); simpl; auto.
  all: right; right; now apply Z.ltb_lt.
Qed.

Lemma outcome_ok row dc en err known stopped : let f := outcome row dc en err known stopped in
  result_of row f /\ (replaced (en_job en) = false -> counted row f).
Proof.
  intros f. unfold f, outcome. clear f. destruct err as [e|]; [|split; [split; done|left; done]].
  destruct (e_snooze e) as [[d reason]|]; [split; [split; done|right; left; done]|].
  destruct (replaced (en_job en)); [split; [split; done|discriminate]|].
  destruct (negb (e_cancel e) && is_cause (en_job en) JobCanceled); [split; [split; done|left; done]|].
  destruct (negb (e_cancel e) && negb (e_tooLarge e) && _ && (j_Attempt row <? j_MaxAttempts row)) eqn:Ef.
  { split; [split; done|intros _]. right. right. apply andb_true_iff in Ef as [_ Ef]. now apply Z.ltb_lt in Ef. }
  match goal with |- context [match ?a with Some _ => _ | None => _ end] => destruct a as [g|] eqn:Ea end.
  - match type of Ea with (if ?b then _ else _) = _ => destruct b end; [|discriminate]. apply answered_ok in Ea as [H1 H2]. auto.
  - match goal with |- context [unanswered row en e ?g] => destruct (unanswered_ok row en e g) as [H1 H2] end; [|auto].
    destruct (e_cancel e); [rewrite andb_false_r; discriminate|done].
Qed.

(** A job JobCancel reached while it ran ends, whatever its worker returned
    but success or a snooze. *)
Lemma canceled_ends row dc en e known stopped : is_cause (en_job en) JobCanceled = true -> e_snooze e = None ->
  f_State (outcome row dc en (Some e) known stopped) = if e_cancel e then Discarded else Canceled.
Proof.
  intros Hc Hs. unfold outcome. rewrite Hs. assert (replaced (en_job en) = false) as -> by (unfold replaced; destruct (en_job en) as [[]|]; done).
  rewrite Hc. destruct (e_cancel e) eqn:E; [|reflexivity]. simpl. rewrite !andb_false_r. unfold unanswered. simpl.
  rewrite E. reflexivity.
Qed.

(** The completion CompleteTx writes is the attempt's, with its output and log. *)
Definition completion_of (row : JobRow) (dc : bool) (l : left_behind) : Prop :=
  forall c, l_completed l = Some c -> exists out log, c = (completedResult row dc) <| f_Output := out |> <| f_Log := log |>.

Lemma result_output row f out : result_of row f -> result_of row (f <| f_Output := out |>).
Proof. intros []. split; done. Qed.
Lemma result_log row f log : result_of row f -> result_of row (f <| f_Log := log |>).
Proof. intros []. split; done. Qed.

Lemma execute_ok row dc start en err l job : completion_of row dc l ->
  result_of row (s_result (execute row dc start en err l job))
  /\ (replaced (en_job en) = false -> counted row (s_result (execute row dc start en err l job))).
Proof.
  intros Hl. unfold execute. destruct (is_cause start ClientStopped); [split; [split; done|right; left; done]|].
  assert (Hout : forall err known stopped, let f := outcome row dc en err known stopped in
    let f1 := if Terminal (f_State f) then f <| f_Output := l_output l |> else f in
    let f2 := if KeepsLog f1 then f1 <| f_Log := l_kept l |> else f1 in
    result_of row f2 /\ (replaced (en_job en) = false -> counted row f2)).
  { intros er k s f f1 f2. destruct (outcome_ok row dc en er k s) as [H1 H2]. unfold f2, f1, f. split.
    - clear f f1 f2. destruct (Terminal (f_State (outcome row dc en er k s)));
        match goal with |- context [KeepsLog ?g] => destruct (KeepsLog g) end; auto using result_output, result_log.
    - intros Hr. specialize (H2 Hr). clear f f1 f2.
      destruct (Terminal (f_State (outcome row dc en er k s)));
        match goal with |- context [KeepsLog ?g] => destruct (KeepsLog g) end; exact H2. }
  destruct (l_completed l) as [c|] eqn:Ec; simpl.
  - destruct (Hl c Ec) as (out & log & ->). destruct (readTx job row); simpl; try apply Hout. split; [split; done|left; done].
  - apply Hout.
Qed.

(** C21: Whatever a worker returns, panics included, and however its context
    was canceled, the result execute hands to the finalizer names the job's own
    claim (its ID, client and fence, no lease) and passes the engine's checks: its
    state is one a result may have, and it does not both snooze and give its
    attempt back, nor end the job and give its attempt back. *)
Theorem execute_result row dc start en err l job : completion_of row dc l ->
  let f := s_result (execute row dc start en err l job) in
  f_ID f = j_ID row /\ f_AttemptedBy f = AttemptedBy row /\ f_Fence f = j_Fence row /\ f_Lease f = None /\ CheckFinalize f = Ok tt.
Proof. intros Hl. destruct (execute_ok row dc start en err l job Hl) as [[H1 H2 H3 H4 H5 _] _]. repeat split; assumption. Qed.

Lemma encodeResult_f f r : encodeResult f = Ok r -> re_f r = f.
Proof. unfold encodeResult. intros. repeat case_match; by simplify_eq. Qed.

(** An output the engine stores: none, or a text of one JSON value, as RecordOutput's marshaling gives. *)
Definition storable_output (out : string) : bool :=
  String.eqb out "" || match jsonValue out "" "output" with Ok _ => true | Err _ => false end.

Lemma encodeResult_storable f : CheckFinalize f = Ok tt -> storable_output (f_Output f) = true -> exists r, encodeResult f = Ok r.
Proof.
  intros Hc Ho. unfold encodeResult, storable_output in *. rewrite Hc. destruct (String.eqb (f_Output f) ""); [eauto|]. cbn in Ho.
  destruct (jsonValue _ _ _); [eauto|discriminate].
Qed.

Lemma outcome_output row dc en err known stopped : f_Output (outcome row dc en err known stopped) = ""%string.
Proof. unfold outcome, answered, unanswered. repeat case_match; simplify_eq; reflexivity. Qed.

Lemma execute_output row dc start en err l job : storable_output (l_output l) = true ->
  (forall c, l_completed l = Some c -> storable_output (f_Output c) = true) ->
  storable_output (f_Output (s_result (execute row dc start en err l job))) = true.
Proof.
  intros Ho Hc. unfold execute. destruct (is_cause start ClientStopped); [reflexivity|].
  assert (Hf : forall er k s, let f := outcome row dc en er k s in let f1 := if Terminal (f_State f) then f <| f_Output := l_output l |> else f in
    storable_output (f_Output (if KeepsLog f1 then f1 <| f_Log := l_kept l |> else f1)) = true).
  { intros er k s f f1. assert (H1 : storable_output (f_Output f1) = true) by (unfold f1, f; destruct (Terminal _); [exact Ho|now rewrite outcome_output]).
    clearbody f1. destruct (KeepsLog f1); exact H1. }
  destruct (l_completed l) as [c|]; cbn; [|apply Hf]. destruct (readTx job row); cbn; try apply Hf. exact (Hc c eq_refl).
Qed.

