(* ===== verification/FlushSpec.v ===== *)
(** * Writing a batch of results: theorems on Flush.v

    The theorems are proved against the interface of the executor; the SQLite
    engine is shown to implement it. *)

From Stdlib Require Import List ZArith Lia Bool String Permutation.
From stdpp Require Import base tactics list.
From S2P Require Import Prelude Sql Types Store Logic Codec Insert Finalize Control Float64 Evolution Engine FinalizeSpec Execute ExecuteSpec Flush.
Import ListNotations.
Local Open Scope Z_scope.
Local Open Scope list_scope.

Section Flush.
Context {E Env : Type} {X : FinalizeExecutor E Env}.
Variable keep : Z.
Implicit Types (w : flushed (E := E) (Env := Env)) (p : submission).

(** Where a write puts a result. *)
Definition placed w : list submission := w_reported w ++ w_dropped w ++ w_again w ++ w_forced w ++ w_given_up w.
Definition results (l : list submission) : list JobFinalize := List.map s_result l.

(** Results reported, and results dropped as not their job's any more, are of
    claims that are over. *)
Definition settled_ok w : Prop :=
  forall p, In p (w_reported w ++ w_dropped w) -> f_Lease (s_result p) = None /\ over (s_result p) (w_exec w).

Definition batch_ok w (batch : list submission) : Prop :=
  forall p, In p batch -> result_for (s_job p) (s_result p) /\ claim_of (s_job p) (w_exec w).

(** What a step of a write keeps, and that it places [batch]. *)
Record writes w (batch : list submission) w' : Prop := {
  wr_ok : fe_ok (w_exec w');
  wr_settled : settled_ok w';
  wr_claims : forall row, claim_of row (w_exec w) -> claim_of row (w_exec w');
  wr_placed : Permutation (results (placed w')) (results (placed w) ++ results batch) }.

Lemma results_app l k : results (l ++ k) = results l ++ results k.
Proof. apply map_app. Qed.

Lemma settled_call w params x : fe_ok (w_exec w) -> settled_ok w ->
  settled_ok (w <| w_exec := snd (fe_finalize params x (w_exec w)) |>).
Proof. intros K S p Hp. destruct (S p Hp) as [L O]. split; [assumption|]. simpl. now apply fe_over_stays. Qed.

(** A call, its answer come or not, places nothing by itself. *)
Lemma writes_call w params x : fe_ok (w_exec w) -> settled_ok w ->
  writes w [] (w <| w_exec := snd (fe_finalize params x (w_exec w)) |>).
Proof.
  intros K S. split; [now apply fe_keeps|now apply settled_call|intros row; now apply fe_claim_stays|].
  simpl. now rewrite app_nil_r.
Qed.

Lemma writes_refl w : fe_ok (w_exec w) -> settled_ok w -> writes w [] w.
Proof. intros K S. split; auto. simpl. now rewrite app_nil_r. Qed.

Lemma writes_trans w b w1 c w2 : writes w b w1 -> writes w1 c w2 -> writes w (b ++ c) w2.
Proof.
  intros [K1 S1 C1 P1] [K2 S2 C2 P2]. split; auto. rewrite P2, P1, results_app. now rewrite app_assoc.
Qed.

(** Only the executor and the results placed matter. *)
Lemma writes_from w v batch w' : w_exec v = w_exec w -> placed v = placed w -> writes v batch w' -> writes w batch w'.
Proof. intros Ee Ep [K S C P]. rewrite Ee in C. rewrite Ep in P. now split. Qed.

Lemma batch_ok_later w b w' batch : writes w b w' -> batch_ok w batch -> batch_ok w' batch.
Proof. intros [_ _ C _] B p Hp. destruct (B p Hp). auto. Qed.

(** A result whose job's row is read. *)
Lemma notWritten_writes counts w p : fe_ok (w_exec w) -> settled_ok w -> batch_ok w [p] -> writes w [p] (notWritten counts w p).
Proof.
  intros K S B. destruct (B p) as [R C]; [now left|]. pose proof R as (_ & _ & _ & L).
  assert (G : readTx (fe_get (j_ID (s_job p)) (w_exec w)) (s_job p) = txCommitted
    \/ readTx (fe_get (j_ID (s_job p)) (w_exec w)) (s_job p) = txLost -> over (s_result p) (w_exec w)) by now apply fe_gone.
  unfold notWritten. destruct (readTx _ _) eqn:Er; [| destruct (s_completedTx p) | |]; cbv zeta; try destruct (counts _); (split; [exact K| |auto|]); simpl.
  all: try exact S.
  all: try (intros q Hq; simpl in Hq; rewrite ?in_app_iff in Hq; simpl in Hq;
    repeat match type of Hq with _ \/ _ => destruct Hq as [Hq|Hq] end; subst; try contradiction;
    first [now apply S, in_app_iff; auto | split; [exact L|apply G; auto]]).
  all: unfold placed, results; simpl; rewrite !map_app; simpl; solve_Permutation.
Qed.

Lemma reported_writes w p fin : fe_ok (w_exec w) -> settled_ok w -> f_Lease (s_result p) = None -> over (s_result p) (w_exec w) ->
  writes w [p] (w <| w_reported ::= (fun l => l ++ [p]) |> <| w_finished ::= fin |>).
Proof.
  intros K S L O. split; [exact K| |auto|].
  - intros q Hq. simpl in Hq. rewrite !in_app_iff in Hq. simpl in Hq. destruct Hq as [[Hq|[<-|[]]]|Hq]; auto; apply S, in_app_iff; auto.
  - unfold placed, results. simpl. rewrite !map_app. simpl. solve_Permutation.
Qed.

Lemma afterFlush_writes counts batch applied : forall w, fe_ok (w_exec w) -> settled_ok w -> batch_ok w batch ->
  (forall p, In p batch -> over (s_result p) (w_exec w)) \/ applied = [] -> writes w batch (afterFlush counts w batch applied).
Proof.
  intros w K S B H. unfold afterFlush. set (ok := if (List.length applied =? List.length batch)%nat then None else Some applied).
  assert (Hok : (forall p, In p batch -> over (s_result p) (w_exec w)) \/ batch = [] \/ ok = Some []).
  { destruct H as [H| ->]; [auto|]. right. unfold ok. destruct batch; simpl; auto. }
  clearbody ok. clear H. revert w K S B Hok. induction batch as [|p batch IH]; intros w K S B Hok; [now apply writes_refl|].
  assert (W : writes w [p] (after_one counts ok w p)).
  { assert (Bp : batch_ok w [p]) by (intros q [<-|[]]; apply B; now left). unfold after_one.
    destruct Hok as [H|[H| ->]]; [|discriminate|now apply notWritten_writes].
    match goal with |- writes _ _ (if ?b then _ else _) => destruct b end; [|now apply notWritten_writes].
    destruct (B p) as [(_ & _ & _ & L) _]; [now left|]. apply reported_writes; auto. apply H. now left. }
  simpl. apply (writes_trans w [p] (after_one counts ok w p) batch); [exact W|].
  assert (Ee : w_exec (after_one counts ok w p) = w_exec w).
  { unfold after_one, notWritten. cbv zeta. repeat case_match; reflexivity. }
  apply IH; [apply W|apply W| |].
  - intros q Hq. rewrite Ee. apply B. now right.
  - rewrite Ee. destruct Hok as [H|[H|H]]; [left; intros q Hq; apply H; now right|discriminate|auto].
Qed.

Lemma halves (l : list submission) n : List.firstn n l ++ List.skipn n l = l.
Proof. apply List.firstn_skipn. Qed.

Lemma write_writes fuel : forall w batch skip w', fe_ok (w_exec w) -> settled_ok w -> batch_ok w batch ->
  write_ keep fuel w batch skip = Some w' -> writes w batch w'.
Proof.
  induction fuel as [|n IH]; intros w batch skip w' K S B Hw.
  { destruct batch; simpl in Hw; [|discriminate]. injection Hw as <-. now apply writes_refl. }
  destruct batch as [|p0 batch0] eqn:Eb; [injection Hw as <-; now apply writes_refl|]. rewrite <- Eb in *.
  assert (Hne : batch <> []) by congruence. clear Eb p0 batch0. simpl in Hw. destruct batch as [|p0 batch0] eqn:Eb; [congruence|].
  rewrite <- Eb in *. clear Eb p0 batch0. destruct (w_answers w) as [|a rest]; [discriminate|].
  set (w0 := w <| w_answers := rest |>) in *.
  assert (F : forall (w1 : flushed) (timedOut done : bool), writes w0 [] w1 ->
    (if negb skip && timedOut then write_ keep n w1 batch true
     else if done then Some (w1 <| w_given_up ::= (fun l => l ++ batch) |>)
     else if timedOut && (1 <? List.length batch)%nat then
       match write_ keep n w1 (List.firstn (List.length batch / 2) batch) skip with
       | Some w => write_ keep n w (List.skipn (List.length batch / 2) batch) skip | None => None end
     else write_ keep n w1 batch skip) = Some w' -> writes w0 batch w').
  { intros w1 timedOut done W1 E1. change batch with ([] ++ batch). eapply writes_trans; [exact W1|].
    assert (B1 : batch_ok w1 batch) by (eapply batch_ok_later; [exact W1|exact B]).
    destruct (negb skip && timedOut); [eapply IH; eauto; apply W1|]. destruct done.
    - injection E1 as <-. split; [apply W1|apply W1|auto|]. unfold placed, results. simpl. rewrite !map_app. solve_Permutation.
    - destruct (timedOut && _); [|eapply IH; eauto; apply W1].
      destruct (write_ keep n w1 _ skip) as [w2|] eqn:E2; [|discriminate].
      assert (W2 : writes w1 (List.firstn (List.length batch / 2) batch) w2).
      { eapply IH; [apply W1|apply W1| |exact E2]. intros q Hq. apply B1. rewrite <- (halves batch (List.length batch / 2)). apply in_app_iff. auto. }
      rewrite <- (halves batch (List.length batch / 2)). eapply writes_trans; [exact W2|].
      eapply IH; [apply W2|apply W2| |exact E1]. intros q Hq.
      eapply (batch_ok_later _ _ _ _ W2 B1). rewrite <- (halves batch (List.length batch / 2)). apply in_app_iff. auto. }
  apply (writes_from w w0); [reflexivity|reflexivity|].
  assert (W0 : writes w0 [] w0) by now apply writes_refl.
  destruct a as [x done counts|timedOut done|x timedOut done].
  - pose proof (writes_call w0 (params_of keep batch skip) x K S) as W1.
    pose proof (fe_applies (params_of keep batch skip) x (w_exec w0)) as Ap.
    destruct (fe_finalize (params_of keep batch skip) x (w_exec w0)) as [[applied|err] e] eqn:Ef; simpl in W1, Ap.
    + simpl in Hw. change (w_exec w) with (w_exec w0) in Hw. rewrite Ef in Hw. simpl in Hw. injection Hw as <-.
      change batch with ([] ++ batch). eapply writes_trans; [exact W1|].
      match goal with |- writes _ _ (afterFlush _ ?v _ _) => apply (writes_from _ v); [reflexivity|reflexivity|] end.
      apply afterFlush_writes; [apply W1|apply W1|intros q Hq; exact (batch_ok_later _ _ _ batch W1 B q Hq)|].
      destruct (Ap applied K) as [H| ->]; [|reflexivity| |right; reflexivity].
      * intros f Hf. simpl in Hf. apply in_map_iff in Hf as (q & <- & Hq). apply (B q Hq).
      * left. intros q Hq. apply H. simpl. now apply in_map.
    + simpl in Hw. change (w_exec w) with (w_exec w0) in Hw. rewrite Ef in Hw. exact (F _ false done W1 Hw).
  - exact (F w0 timedOut done W0 Hw).
  - refine (F _ timedOut done _ Hw). exact (writes_call w0 (params_of keep batch skip) x K S).
Qed.
End Flush.

(** ** The SQLite engine *)

Lemma finalizeAll_pending params rs : (forall r, In r rs -> finalize_state (f_State (re_f r)) = true) ->
  respects pending_from (finalizeAll params rs).
Proof.
  intros Hs. unfold finalizeAll. apply respects_bind; [typeclasses eauto| |].
  - apply respects_mapM_In; [typeclasses eauto|]. intros r Hr. apply applyResult_pending. auto.
  - intros outs. cbv zeta. destruct (fp_NoBatches params); [apply respects_ret; typeclasses eauto|].
    apply respects_bind; [typeclasses eauto|apply tail_pending|]. intros. apply respects_ret. typeclasses eauto.
Qed.

Lemma finalize_pending params busy x d : pending_from d (snd (JobFinalizeMany params busy x d)).
Proof.
  unfold JobFinalizeMany. destruct (fp_Jobs params) as [|f0 fs] eqn:Ef; [reflexivity|]. rewrite <- Ef.
  destruct (encodeResults (fp_Jobs params)) as [rs|e] eqn:Ee; [|reflexivity].
  repeat match goal with |- pending_from d (snd (if ?b then _ else _)) => destruct b; [reflexivity|] end.
  unfold write. destruct (finalizeAll params rs x d) as [[o d1]|e] eqn:Ea; [|reflexivity].
  simpl. eapply finalizeAll_pending; [|exact Ea]. intros r Hr. eapply encodeResults_state; eauto.
Qed.

Definition runs_claim (row : JobRow) (d : DB) : Prop :=
  forall j, In j (db_jobs d) -> j_ID j = j_ID row -> is_running j = true -> AttemptedBy j = AttemptedBy row ->
  j_Fence j = j_Fence row -> j_Attempt j = j_Attempt row.

Lemma running_held_back j : is_running j = true -> held_back j = true.
Proof. unfold is_running, held_back. now destruct (j_State j). Qed.

Lemma JobGet_gone f row d : wf d -> result_for row f -> runs_claim row d ->
  readTx (JobGet (j_ID row) d) row = txCommitted \/ readTx (JobGet (j_ID row) d) row = txLost -> unowned f d.
Proof.
  intros Hw (Ei & Eb & Ef & El) Hc Hr j Hj Ej. destruct (owned d j f) eqn:Eo; [|done]. exfalso.
  unfold owned in Eo. rewrite El in Eo. breflect. unfold JobGet in Hr. rewrite <- Ei, <- Ej, (one_id d j Hw Hj) in Hr. simpl in Hr.
  assert (Ha : j_Attempt j = j_Attempt row) by (apply Hc; congruence).
  rewrite <- Ha, <- Eb, <- Ef in Hr. rewrite H1, H0, !Z.eqb_refl in Hr. simpl in Hr.
  unfold is_running in H. apply state_eqb_eq in H. rewrite H in Hr. destruct Hr; discriminate.
Qed.

#[export] Program Instance sqlite_executor : FinalizeExecutor DB (Store.w * bool) := {
  fe_finalize p x d := JobFinalizeMany p (snd x) (fst x) d;
  fe_get := JobGet;
  fe_ok := wf;
  over := unowned;
  claim_of := runs_claim }.
Next Obligation. intros p x d Hw. exact (proj1 (step_advances d _ (step_JobFinalizeMany p (snd x) (fst x) d) Hw)). Qed.
Next Obligation. intros f p x d Hw El Ho. exact (unowned_from f d _ El (finalize_pending p (snd x) (fst x) d) Ho). Qed.
Next Obligation.
  intros row p x d Hw Hc j Hj Ei Hr. apply Hc; auto. apply (finalize_pending p (snd x) (fst x) d); [assumption|now apply running_held_back].
Qed.
Next Obligation.
  intros p x d out Hw El E. unfold JobFinalizeMany in *. destruct (fp_Jobs p) as [|f0 fs] eqn:Ef; [left; intros ? []|]. rewrite <- Ef in *.
  destruct (encodeResults (fp_Jobs p)) as [rs|e] eqn:Ee; [|discriminate].
  destruct (leased f0 && fp_SkipLocked p); [discriminate|]. destruct (existsb _ (fp_Jobs p)); [discriminate|].
  destruct (fp_SkipLocked p && snd x); [right; now injection E as <-|].
  left. unfold write in *. destruct (finalizeAll p rs (fst x) d) as [[o d1]|e] eqn:Ea; [|discriminate]. simpl.
  intros f Hf. rewrite <- (encodeResults_f _ _ Ee) in Hf. apply in_map_iff in Hf as (r & <- & Hr).
  apply (finalizeAll_over p rs (fst x) d o d1 Hw); [|exact Ea|exact Hr].
  intros r' Hr'. split; [now apply (encodeResults_state _ _ Ee)|]. apply El. rewrite <- (encodeResults_f _ _ Ee). now apply in_map.
Qed.
Next Obligation. intros f row d Hw R C H. exact (JobGet_gone f row d Hw R C H). Qed.

(** ** Theorems *)

(** C17: Writing a batch loses and repeats nothing, whatever the executor's calls
    do and answer: calls that fail, that time out, or that commit and lose their
    answer.  When write returns, each result of the batch is in one place: reported
    once, dropped because its job has moved on, to be tried again later, dropped
    while its row was held because a forced drain had ended (its job is rescued),
    or given up at a stop; and one that is reported, or dropped because its job
    has moved on, is of a claim that is over in the database. *)
Theorem write_settles {E Env} {X : FinalizeExecutor E Env} keep fuel e answers batch skip (w' : flushed (E := E) (Env := Env)) :
  fe_ok e -> (forall p, In p batch -> result_for (s_job p) (s_result p) /\ claim_of (s_job p) e) ->
  write_ keep fuel (mkFlushed e [] [] [] [] [] [] [] answers) batch skip = Some w' ->
  Permutation (results batch) (results (w_reported w' ++ w_dropped w' ++ w_again w' ++ w_forced w' ++ w_given_up w'))
  /\ (forall p, In p (w_reported w' ++ w_dropped w') -> over (s_result p) (w_exec w')).
Proof.
  intros K B H. destruct (write_writes keep fuel (mkFlushed e [] [] [] [] [] [] [] answers) batch skip w' K ltac:(intros p []) B H) as [_ S _ P].
  split; [symmetry; exact P|]. intros p Hp. now apply S.
Qed.

(** Once the client stops, write makes two calls at most. *)
Lemma write_stops {E Env} {X : FinalizeExecutor E Env} keep (w : flushed (E := E) (Env := Env)) batch skip n a b rest :
  w_answers w = a :: b :: rest ->
  (forall c, In c [a; b] -> match c with Answered _ done _ | NotRun _ done | AnswerLost _ _ done => done = true end) ->
  is_Some (write_ keep (S (S n)) w batch skip).
Proof.
  intros Ea Hd. destruct batch as [|p batch]; [now eexists|]. pose proof (Hd a (or_introl eq_refl)) as Ha. pose proof (Hd b (or_intror (or_introl eq_refl))) as Hb.
  destruct a, b; simpl in Ha, Hb; subst; simpl; rewrite Ea; simpl; repeat case_match; simpl in *; simplify_eq; try (now eexists); try discriminate.
Qed.
