(* ===== verification/SettleSpec.v ===== *)
(** * Batches to settle again: theorems on Settle.v

    No batch is forgotten: one whose settle gave up is kept until a settle that
    began since succeeds, or is left to the leader, also when the settle gives up
    again while an attempt at the batch is under way. *)

From Stdlib Require Import List ZArith Lia Bool Permutation.
From stdpp Require Import base tactics list gmap relations sets fin_maps fin_sets.
From S2P Require Import Prelude Sql JsonCheck Settle.
Import ListNotations.
Local Open Scope Z_scope.

(** ** Pointwise *)

Lemma settle_ids B done ids : List.map fst (settle B done ids) = ids.
Proof. revert done. induction ids as [|id ids IH]; intros done; simpl; [reflexivity|]. destruct done; simpl; now rewrite IH. Qed.

Lemma put_lookup id j h m : put id h m !! j = if decide (j = id) then h else m !! j.
Proof.
  unfold put. destruct h; destruct (decide (j = id)) as [->|N];
    rewrite ?lookup_insert_eq, ?lookup_delete_eq, ?lookup_insert_ne, ?lookup_delete_ne; congruence.
Qed.

Lemma attempt_end_fixed final st now vs r :
  first (attempt_end final st now r vs) = first r /\ maxDelay (attempt_end final st now r vs) = maxDelay r.
Proof. revert r. induction vs as [|iv vs IH]; intros r; [split; reflexivity|]. simpl. destruct (IH (r <| held ::= put (fst iv) (after r final st now (snd iv) (default gone (held r !! fst iv))) |>)) as [-> ->]. split; reflexivity. Qed.

(** What an attempt leaves of the batches: those it tried as [after] says, the
    others as they were. *)
Lemma attempt_end_other final st now vs r id : ~ In id (List.map fst vs) ->
  held (attempt_end final st now r vs) !! id = held r !! id.
Proof.
  revert r. induction vs as [|iv vs IH]; intros r N; [reflexivity|]. simpl in *.
  unfold attempt_end in *. simpl. rewrite IH by tauto. simpl. rewrite put_lookup. destruct (decide (id = fst iv)); [|reflexivity]. subst. tauto.
Qed.

Lemma attempt_end_tried final st now vs r id v : NoDup (List.map fst vs) -> In (id, v) vs ->
  held (attempt_end final st now r vs) !! id = after r final st now v (default gone (held r !! id)).
Proof.
  revert r. induction vs as [|iv vs IH]; intros r D H; [destruct H|].
  simpl in D. apply NoDup_cons in D as [N D]. destruct H as [->|H].
  - change (attempt_end final st now r ((id, v) :: vs)) with
      (attempt_end final st now (r <| held ::= put id (after r final st now v (default gone (held r !! id))) |>) vs).
    rewrite attempt_end_other by (now rewrite <- list_elem_of_In). simpl. rewrite put_lookup. now rewrite decide_True.
  - assert (Hne : id <> fst iv).
    { intros ->. apply N. rewrite list_elem_of_In. apply in_map_iff. exists (fst iv, v). auto. }
    change (attempt_end final st now r (iv :: vs)) with
      (attempt_end final st now (r <| held ::= put (fst iv) (after r final st now (snd iv) (default gone (held r !! fst iv))) |>) vs).
    rewrite (IH _ D H). unfold after. simpl. rewrite put_lookup. now rewrite decide_False.
Qed.

Lemma tries_held r final now id : In id (attempt_tries r final now) -> is_Some (held r !! id).
Proof.
  unfold attempt_tries. intros ([j h] & <- & H)%in_map_iff. apply In_order_by in H. apply filter_In in H as [H _].
  exists h. simpl. now apply elem_of_map_to_list, list_elem_of_In.
Qed.

Lemma filter_map_fst_NoDup {A B} (p : A * B -> bool) l : NoDup (List.map fst l) -> NoDup (List.map fst (List.filter p l)).
Proof.
  induction l as [|x l IH]; simpl; [auto|]. intros [N D]%NoDup_cons. destruct (p x); simpl; [|auto].
  apply NoDup_cons. split; [|auto]. rewrite list_elem_of_In in *. intros (y & E & H%filter_In)%in_map_iff.
  apply N, in_map_iff. exists y. tauto.
Qed.

Lemma tries_NoDup r final now : NoDup (attempt_tries r final now).
Proof.
  unfold attempt_tries. assert (P : Permutation (order_by try_leb (List.filter (fun t => is_due final now (snd t)) (map_to_list (held r))))
    (List.filter (fun t => is_due final now (snd t)) (map_to_list (held r)))) by apply order_by_perm.
  rewrite P. apply filter_map_fst_NoDup, NoDup_fst_map_to_list.
Qed.

(** ** The invariant *)

Section Retry.
Variables interval max : Z.
Hypothesis interval_fits : interval < 2 ^ 62.
Hypothesis max_fits : max < 2 ^ 62.

Definition delay_ok (h : heldBatch) : Prop :=
  exists k, 0 <= k /\ h_delay h = Z.max interval millisecond * 2 ^ k /\ (k = 0 \/ h_delay h <= max).

Record retrier_ok (r : settleRetrier) : Prop := {
  ok_first : first r = Z.max interval millisecond;
  ok_max : maxDelay r = max;
  ok_delays : forall id h, held r !! id = Some h -> delay_ok h;
  ok_size : Z.of_nat (size (held r)) <= maxHeld }.

Record flight_ok (s : retrying) : Prop := {
  in_flight_held : forall ids f, flight s = Some (ids, f) -> NoDup ids /\ forall id, In id ids -> is_Some (held (rt s) !! id);
  fresh_again : forall ids f id h, flight s = Some (ids, f) -> In id ids -> id ∈ fresh s -> held (rt s) !! id = Some h -> h_again h = true;
  last_alone : forall ids, flight s = Some (ids, true) -> fresh s = ∅ }.

Record retry_ok (s : retrying) : Prop := {
  ok_retrier : retrier_ok (rt s);
  ok_flight : flight_ok s;
  ok_owed : owed s ⊆ dom (held (rt s)) ∪ leader s }.

Lemma delay_first due a : delay_ok (mkHeld (Z.max interval millisecond) due a).
Proof. exists 0. simpl. lia. Qed.

Lemma delay_again h due a : delay_ok h -> wrap64 (h_delay h * 2) <= max -> delay_ok (mkHeld (wrap64 (h_delay h * 2)) due a).
Proof.
  intros (k & Hk & E & B) H. unfold millisecond in *.
  assert (P : 0 < 2 ^ k) by (apply Z.pow_pos_nonneg; lia).
  assert (W : wrap64 (h_delay h * 2) = h_delay h * 2).
  { apply wrap64_id. destruct B as [->|B]; [rewrite E|]; simpl; nia. }
  rewrite W in *. exists (k + 1). rewrite Z.pow_add_r by lia. simpl. unfold millisecond. lia.
Qed.

Lemma add_one_ok due r id r' full : retrier_ok r -> add_one due r id = (r', full) ->
  retrier_ok r' /\ dom (held r) ⊆ dom (held r') /\ (full = false -> id ∈ dom (held r'))
  /\ (forall j, is_Some (held r !! j) -> exists h, held r' !! j = Some h /\ (j = id -> h_again h = true)
       /\ (j <> id -> held r' !! j = held r !! j)).
Proof.
  intros [F M D S] E. unfold add_one in E. destruct (held r !! id) as [h|] eqn:Eh.
  - injection E as <- <-. split; [|split; [|split]].
    + split; simpl; auto.
      * intros j k [[-> <-]|[N H]]%lookup_insert_Some; [rewrite F; apply delay_first|eauto].
      * rewrite map_size_insert_Some; eauto.
    + simpl. rewrite dom_insert. set_solver.
    + intros _. simpl. rewrite dom_insert. set_solver.
    + intros j [k Hk]. simpl. destruct (decide (j = id)) as [->|N].
      * rewrite lookup_insert_eq. eexists. split; [reflexivity|]. split; [reflexivity|congruence].
      * rewrite lookup_insert_ne by congruence. exists k. split; [assumption|]. split; congruence.
  - destruct (Z.eqb_spec (Z.of_nat (size (held r))) maxHeld) as [Full|Full].
    + injection E as <- <-. split; [split; auto|split; [reflexivity|split; [discriminate|]]].
      intros j [k Hk]. exists k. split; [assumption|]. split; congruence.
    + injection E as <- <-. split; [|split; [|split]].
      * split; simpl; auto; [|rewrite map_size_insert_None by assumption; lia].
        intros j k [[-> <-]|[N H]]%lookup_insert_Some; [rewrite F; apply delay_first|eauto].
      * simpl. rewrite dom_insert. set_solver.
      * intros _. simpl. rewrite dom_insert. set_solver.
      * intros j [k Hk]. assert (j <> id) by congruence. simpl. rewrite lookup_insert_ne by congruence.
        exists k. split; [assumption|]. split; congruence.
Qed.

(** Every batch added is kept or left to the leader, and one already kept is
    marked. *)
Lemma add_ok due r ids r' over : retrier_ok r -> add due r ids = (r', over) ->
  retrier_ok r' /\ dom (held r) ⊆ dom (held r') /\ (forall id, In id ids -> id ∈ dom (held r') \/ In id over)
  /\ (forall j h, held r !! j = Some h -> exists h', held r' !! j = Some h' /\ (In j ids -> h_again h' = true)
       /\ (h_again h = true -> h_again h' = true)).
Proof.
  revert r r' over. induction ids as [|id ids IH]; intros r r' over R E; simpl in E.
  - injection E as <- <-. split; [assumption|]. split; [reflexivity|]. split; [intros ? []|]. intros j h Hj. exists h. simpl. tauto.
  - destruct (add_one due r id) as [r1 full] eqn:E1. destruct (add due r1 ids) as [r2 over2] eqn:E2. injection E as <- <-.
    destruct (add_one_ok _ _ _ _ _ R E1) as (R1 & D1 & K1 & A1). destruct (IH _ _ _ R1 E2) as (R2 & D2 & K2 & A2).
    split; [assumption|]. split; [set_solver|]. split.
    + intros j [<-|H]; [destruct full; [right; now left|left; apply D2, K1; reflexivity]|].
      destruct (K2 j H); [now left|right; destruct full; [now right|assumption]].
    + intros j h Hj. destruct (A1 j) as (h1 & H1 & Hid & Hne); [now exists h|].
      destruct (A2 j h1 H1) as (h2 & H2 & In2 & Ag2). exists h2. split; [assumption|]. split.
      * intros [<-|H]; auto.
      * intros Ha. apply Ag2. destruct (decide (j = id)); [auto|]. rewrite Hne in H1 by assumption. congruence.
Qed.

Lemma attempt_begin_ok r final now : retrier_ok r -> retrier_ok (attempt_begin r final now).
Proof.
  intros [F M D S]. split; simpl; auto; [|now rewrite map_size_fmap].
  intros id h. rewrite lookup_fmap. intros (k & Hk & ->)%fmap_Some.
  destruct (is_due final now _); [|eauto]. exact (D id _ Hk).
Qed.

Lemma attempt_begin_dom r final now : dom (held (attempt_begin r final now)) = dom (held r).
Proof. simpl. apply dom_fmap_L. Qed.

Lemma put_size id h m : is_Some (m !! id) -> (size (put id h m) <= size m)%nat.
Proof.
  intros [k Hk]. unfold put. destruct h; [rewrite map_size_insert_Some; eauto|]. rewrite map_size_delete, Hk. lia.
Qed.

Lemma after_ok r final st now v h h' : retrier_ok r -> delay_ok h -> after r final st now v h = Some h' -> delay_ok h'.
Proof.
  intros [F M D S] Hd E. unfold after in E. destruct final; [discriminate|].
  destruct (is_still v && st); [now injection E as <-|]. destruct (h_again h); [injection E as <-; rewrite F; apply delay_first|].
  destruct (is_still v && (wrap64 (h_delay h * 2) <=? maxDelay r)) eqn:B; [|discriminate].
  apply andb_true_iff in B as [_ B%Z.leb_le]. injection E as <-. apply delay_again; [assumption|lia].
Qed.

Lemma attempt_end_ok final st now vs r : NoDup (List.map fst vs) -> (forall id, In id (List.map fst vs) -> is_Some (held r !! id)) ->
  retrier_ok r -> retrier_ok (attempt_end final st now r vs).
Proof.
  intros ND. revert r. induction vs as [|iv vs IH]; intros r Hh R; [assumption|].
  simpl in ND. apply NoDup_cons in ND as [N ND]. destruct (Hh (fst iv)) as [h Eh]; [now left|].
  change (retrier_ok (attempt_end final st now (r <| held ::= put (fst iv) (after r final st now (snd iv) (default gone (held r !! fst iv))) |>) vs)).
  rewrite Eh. simpl. apply IH; [assumption| |].
  - intros id H. simpl. rewrite put_lookup. rewrite decide_False; [apply Hh; now right|].
    intros ->. apply N. now apply list_elem_of_In.
  - destruct R as [F M D S] eqn:Er. split; simpl; auto.
    + intros id k. rewrite put_lookup. destruct (decide (id = fst iv)); [|apply D].
      intros E. apply (after_ok r final st now (snd iv) h k R (D _ _ Eh) E).
    + assert ((size (put (fst iv) (after r final st now (snd iv) h) (held r)) <= size (held r))%nat) by (apply put_size; now exists h). lia.
Qed.

(** An attempt never lets go of a batch marked while it ran, but at a stop. *)
Lemma after_marked r st now v h : h_again h = true -> is_Some (after r false st now v h).
Proof. intros H. unfold after. rewrite H. destruct (is_still v && st); now eexists. Qed.

Lemma In_settled vs id : In id (settled vs) <-> In (id, Settled) vs.
Proof.
  unfold settled. rewrite in_map_iff. setoid_rewrite filter_In. split.
  - intros ([j []] & <- & H & E); try discriminate. assumption.
  - intros H. exists (id, Settled). auto.
Qed.

Lemma In_abandoned r vs id : In id (abandoned r vs) <-> exists v, v <> Settled /\ In (id, v) vs /\ held r !! id = None.
Proof.
  unfold abandoned. rewrite in_map_iff. setoid_rewrite filter_In. split.
  - intros ([j v] & <- & H & E). simpl in E. exists v. simpl. destruct v; try discriminate; (split; [discriminate|split; [assumption|]]);
      destruct (held r !! j); [discriminate|reflexivity|discriminate|reflexivity].
  - intros (v & N & H & E). exists (id, v). simpl. rewrite E. split; [reflexivity|]. split; [assumption|]. now destruct v.
Qed.

Lemma retry_end_owed s ids final now st vs : retry_ok s -> flight s = Some (ids, final) -> List.map fst vs = ids ->
  let r := attempt_end final st now (rt s) vs in
  owed s ∖ (list_to_set (settled vs) ∖ fresh s) ⊆ dom (held r) ∪ (leader s ∪ list_to_set (abandoned r vs)).
Proof.
  intros [R [Fh Fa La] O] Fl Ev r. destruct (Fh _ _ Fl) as [ND Hh]. intros id H.
  apply elem_of_difference in H as [Ho Hn]. apply O in Ho. rewrite elem_of_union in Ho.
  rewrite !elem_of_union, elem_of_dom, elem_of_list_to_set, list_elem_of_In, In_abandoned.
  destruct Ho as [Ho|Ho]; [|tauto]. apply elem_of_dom in Ho as [h Eh].
  destruct (in_dec Z.eq_dec id ids) as [Hi|Hi].
  2:{ left. unfold r. rewrite attempt_end_other by now rewrite Ev. now exists h. }
  rewrite <- Ev in Hi, ND. apply in_map_iff in Hi as ([j v] & Ej & Hv). simpl in Ej. subst j.
  assert (Er : held r !! id = after (rt s) final st now v h) by (unfold r; rewrite (attempt_end_tried _ _ _ _ _ id v ND Hv), Eh; reflexivity).
  destruct (held r !! id) as [h'|] eqn:E; [left; now eexists|]. right. right.
  exists v. split; [|auto]. intros ->. apply Hn.
  apply elem_of_difference. split; [apply elem_of_list_to_set, list_elem_of_In, In_settled; assumption|].
  intros Hf. destruct final; [rewrite (La _ Fl) in Hf; set_solver|].
  assert (A : h_again h = true) by (apply (Fa _ _ id h Fl); [rewrite <- Ev; apply in_map_iff; now exists (id, Settled)|assumption|assumption]).
  destruct (after_marked (rt s) st now Settled h A). congruence.
Qed.

Lemma retry_step_ok s s' : retry_ok s -> retry_step s s' -> retry_ok s'.
Proof.
  intros K S. pose proof K as [R F O]. destruct S as [s batches now r over Hn St Nf E|s final now Hn St Nf|s ids final now B ov done r vs Hn Fl Ev Er].
  - destruct (add_ok _ _ _ _ _ R E) as (R' & D & Kp & Ag). destruct F as [Fh Fa La]. split; [assumption| |].
    + split; simpl.
      * intros ids f Hf. destruct (Fh ids f Hf) as [ND Hh]. split; [assumption|]. intros id Hi.
        apply elem_of_dom, D, elem_of_dom. auto.
      * intros ids f id h' Hf Hi Hfr Hh'. destruct (Fh ids f Hf) as [_ Hh]. destruct (Hh id Hi) as [h Eh].
        destruct (Ag id h Eh) as (h2 & E2 & A1 & A2). rewrite E2 in Hh'. injection Hh' as <-.
        rewrite elem_of_union, elem_of_list_to_set, list_elem_of_In in Hfr. destruct Hfr as [Hfr|Hb]; [eauto|auto].
      * intros ids Hf. now destruct (Nf ids).
    + simpl. intros id. rewrite !elem_of_union, !elem_of_list_to_set, !list_elem_of_In. intros [H|H].
      * apply O in H. rewrite elem_of_union in H. destruct H; [left; now apply D|tauto].
      * destruct (Kp id H); tauto.
  - split; [now apply attempt_begin_ok| |].
    + split; simpl; [|set_solver|reflexivity]. intros ids f [= <- <-]. split; [apply tries_NoDup|].
      intros id Hi. destruct (tries_held _ _ _ _ Hi) as [h Eh]. rewrite lookup_fmap, Eh. now eexists.
    + simpl. rewrite dom_fmap_L. exact O.
  - subst r vs. pose proof (settle_ids B ov ids) as Ev. split; simpl.
    + destruct F as [Fh _ _]. destruct (Fh _ _ Fl) as [ND Hh]. apply attempt_end_ok; rewrite ?Ev; auto.
    + split; simpl; intros; discriminate.
    + now apply (retry_end_owed s ids final).
Qed.

Lemma retry_reachable_ok s : reachable_retry interval max s -> retry_ok s.
Proof.
  intros (now & H). apply rtc_ind_r with (P := retry_ok) in H; [exact H| |intros y z _ S P; now apply (retry_step_ok y)].
  split; [split; simpl; auto; [set_solver|rewrite map_size_empty; unfold maxHeld; lia]|split; simpl; intros; discriminate|simpl; set_solver].
Qed.

(** C24: No batch to settle again is forgotten.  However adds and attempts
    interleave, a batch whose settle gave up, and which no settle that began
    after that has settled, is kept or has been left to the leader; the kept
    ones are at most maxHeld, and each waits the flush interval doubled some
    number of times, never past the leader's interval. *)
Theorem settle_not_lost s : reachable_retry interval max s ->
  owed s ⊆ dom (held (rt s)) ∪ leader s
  /\ Z.of_nat (size (held (rt s))) <= maxHeld
  /\ (forall id h, held (rt s) !! id = Some h ->
       exists k, 0 <= k /\ h_delay h = first (rt s) * 2 ^ k /\ (k = 0 \/ h_delay h <= maxDelay (rt s))).
Proof.
  intros H. destruct (retry_reachable_ok s H) as [[F M D S] _ O]. split; [assumption|]. split; [assumption|].
  intros id h Hh. rewrite F, M. exact (D id h Hh).
Qed.
End Retry.

(** ** The timer *)

Lemma fold_earlier l t : List.fold_right earlier None l = Some t -> exists h, In h l /\ h_due h = t.
Proof.
  revert t. induction l as [|h l IH]; intros t E; simpl in E; [discriminate|].
  destruct (List.fold_right earlier None l) as [u|] eqn:Eu; simpl in E.
  - destruct (Z.ltb_spec (h_due h) u); injection E as <-; [exists h; split; [now left|reflexivity]|].
    destruct (IH u eq_refl) as (k & Hk & <-). exists k. split; [now right|reflexivity].
  - injection E as <-. exists h. split; [now left|reflexivity].
Qed.

(** When the retrier's timer fires, a batch is due: an attempt tries one, so
    the loop never spins. *)
Lemma nextDue_progress r t now : nextDue r = Some t -> t <= now -> attempt_tries r false now <> [].
Proof.
  intros (h & Hh & <-)%fold_earlier Ht. apply in_map_iff in Hh as ([id k] & <- & Hk).
  assert (Hi : In (id, k) (order_by try_leb (List.filter (fun t => is_due false now (snd t)) (map_to_list (held r))))).
  { apply In_order_by, filter_In. split; [assumption|]. simpl. now apply Z.leb_le. }
  unfold attempt_tries. intros E. apply map_eq_nil in E. now rewrite E in Hi.
Qed.

(** ** A batch whose settle gives up again during an attempt that settles it *)

Definition given : retrying := mkRetrying (fst (add (0 + millisecond) (newSettleRetrier 0 1000000000) [7])) 0 None false
  (∅ ∪ list_to_set [7]) (∅ ∪ list_to_set [7]) (∅ ∪ list_to_set []).
Definition trying : retrying := mkRetrying (attempt_begin (rt given) false millisecond) millisecond
  (Some (attempt_tries (rt given) false millisecond, false)) false ∅ (owed given) (leader given).
Definition given_again : retrying := mkRetrying (fst (add (millisecond + millisecond) (rt trying) [7])) millisecond (flight trying) false
  (fresh trying ∪ list_to_set [7]) (owed trying ∪ list_to_set [7]) (leader trying ∪ list_to_set []).
Definition tried : retrying :=
  let r := attempt_end false false millisecond (rt given_again) [(7, Settled)] in
  mkRetrying r millisecond None false ∅ (owed given_again ∖ (list_to_set (settled [(7, Settled)]) ∖ fresh given_again))
    (leader given_again ∪ list_to_set (abandoned r [(7, Settled)])).

Lemma settle_not_lost_witness : owed tried = {[7]} /\ held (rt tried) !! 7 = Some (mkHeld millisecond (2 * millisecond) false)
  /\ owed tried ⊆ dom (held (rt tried)) ∪ leader tried.
Proof.
  assert (R : reachable_retry 0 1000000000 tried).
  { exists 0. apply rtc_l with given; [apply (retry_add (started 0 1000000000 0) [7] 0); reflexivity || discriminate|].
    apply rtc_l with trying; [apply (retry_begin given false millisecond); reflexivity || discriminate|].
    apply rtc_l with given_again; [apply (retry_add trying [7] millisecond); reflexivity || discriminate|].
    apply rtc_l with tried; [|apply rtc_refl].
    apply (retry_end given_again [7] false millisecond (fun _ => mkAnswer None false) false false _ [(7, Settled)]); reflexivity || discriminate. }
  split; [vm_compute; reflexivity|]. split; [vm_compute; reflexivity|]. apply (settle_not_lost 0 1000000000); [lia|lia|exact R].
Defined.
