(* ===== verification/DrainSpec.v ===== *)
(** * The finalizer's queue: theorems on Drain.v *)

From Stdlib Require Import List ZArith Lia Bool.
From stdpp Require Import base tactics list relations.
From S2P Require Import Prelude Counting Drain.
Import ListNotations.
Local Open Scope Z_scope.

Section Drain.
Variable t : tuning.

(** Submits in flight. *)
Definition live (s : stage) : nat := match s with Gone => 0 | _ => 1 end.
Definition count_ok (f : finalizer) : Prop :=
  exists b, submits f = 2 * (submitted f + Z.of_nat (total live (stages f))) + Z.b2z b.

(** The results a stage and the finalizer's goroutine have. *)
Definition stage_items (s : stage) : list pending :=
  match s with Waiting p | Acquiring p | Handing p | Sending p => [p] | _ => [] end.
Definition run_items (r : runner) : list pending :=
  match r with
  | Running b | Taking b | Writing _ b => b
  | Flushing _ todo _ rest => todo ++ rest
  | _ => []
  end.

Definition count_id (x : Z) (l : list Z) : nat := total (fun y => b2n (y =? x)) l.
Definition places (x : Z) (f : finalizer) : nat :=
  total (fun s => count_id x (ids (stage_items s))) (stages f) + count_id x (ids (f_in f))
  + count_id x (ids (run_items (run f))) + count_id x (resolved f) + count_id x (lost f).

Lemma count_id_app x l k : count_id x (l ++ k) = (count_id x l + count_id x k)%nat.
Proof. apply total_app. Qed.

Lemma ids_app l k : ids (l ++ k) = ids l ++ ids k.
Proof. apply map_app. Qed.

Lemma chunk_app n size batch a b : chunk t n size batch = (a, b) -> batch = a ++ b.
Proof.
  revert n size a b. induction batch as [|p batch IH]; intros n size a b E; simpl in E; [now injection E as <- <-|].
  destruct (_ && _); [|now injection E as <- <-]. destruct (chunk t (S n) _ batch) as [c d] eqn:Ec.
  injection E as <- <-. simpl. f_equal. eapply IH; eauto.
Qed.

Lemma filter_total {A} (m : A -> nat) (q : A -> bool) l :
  (total m (List.filter q l) + total m (List.filter (fun x => negb (q x)) l) = total m l)%nat.
Proof. induction l as [|x l IH]; simpl; [reflexivity|]. destruct (q x); simpl; lia. Qed.

Lemma count_ids_filter x q l :
  (count_id x (ids (List.filter q l)) + count_id x (ids (List.filter (fun p => negb (q p)) l)) = count_id x (ids l))%nat.
Proof.
  unfold count_id, ids. induction l as [|p l IH]; simpl; [reflexivity|]. destruct (q p); simpl; lia.
Qed.

Lemma shiftr_even n b : Z.shiftr (2 * n + Z.b2z b) 1 = n.
Proof. rewrite Z.shiftr_div_pow2 by lia. change (2 ^ 1) with 2. rewrite Z.add_comm, Z.mul_comm, Z.div_add by lia. now destruct b. Qed.

Lemma lor_one n b : Z.lor (2 * n + Z.b2z b) 1 = 2 * n + 1.
Proof.
  pose proof (Z.add_lor_land (2 * n + Z.b2z b) 1) as H. assert (O : Z.land (2 * n + Z.b2z b) 1 = (2 * n + Z.b2z b) mod 2) by exact (Z.land_ones (2 * n + Z.b2z b) 1 ltac:(lia)).
  assert (M : (2 * n + Z.b2z b) mod 2 = Z.b2z b) by (rewrite Z.add_comm, Z.mul_comm, Z.mod_add by lia; now destruct b).
  lia.
Qed.

Lemma start_parity n b : Z.even (2 * n + Z.b2z b + 2) = negb b.
Proof. replace (2 * n + Z.b2z b + 2) with (2 * (n + 1) + Z.b2z b) by lia. rewrite Z.even_add, Z.even_mul. simpl. now destruct b. Qed.

Lemma count_id_cons x y l : count_id x (y :: l) = (b2n (y =? x)%Z + count_id x l)%nat.
Proof. reflexivity. Qed.

Lemma ids_cons p l : ids (p :: l) = p_id p :: ids l.
Proof. reflexivity. Qed.

Lemma count_id_nil x : count_id x [] = 0%nat.
Proof. reflexivity. Qed.

Lemma handed_id f p : p_id (handed f p) = p_id p.
Proof. unfold handed. now destruct (draining f). Qed.

Create HintDb drain.
#[local] Hint Rewrite @total_app ids_app ids_cons count_id_app count_id_cons count_id_nil app_nil_r handed_id : drain.

(** A step changes one stage, or adds one. *)
Ltac stage_counts m :=
  repeat match goal with
  | H : stages ?f !! ?i = Some ?s |- context [total m (<[?i := ?s']> (stages ?f))] =>
      pose proof (total_insert m (stages f) i s s' H); generalize dependent (total m (<[i := s']> (stages f))); intros
  end.

Lemma fin_step_count f f' : count_ok f -> fin_step t f f' -> count_ok f'.
Proof.
  intros (b & E) S. unfold count_ok. destruct S; unfold startSubmit in *;
    try match goal with H : (_, _) = (_, _) |- _ => injection H as <- ? end;
    simpl; try (exists b; exact E);
    try (exists b; rewrite ?total_app; stage_counts live; simpl in *; lia).
  - exists b. unfold resubmit, startSubmit. simpl. destruct (Z.even _); simpl; rewrite ?total_app; simpl; lia.
  - exists b. unfold set_deadline. destruct (deadline f); simpl; exact E.
  - unfold check_step. destruct c; simpl; try (exists b; exact E).
    + destruct (_ || _); simpl; exists b; exact E.
    + destruct (Z.eqb_spec (submits f) n) as [<-|]; simpl; [|exists b; exact E].
      exists true. rewrite E, lor_one. reflexivity.
Qed.

(** ** Where a result is *)

Lemma fin_step_places x f f' : count_id x (accepted f) = places x f -> fin_step t f f' -> count_id x (accepted f') = places x f'.
Proof.
  intros E S. unfold places in *. destruct S; unfold startSubmit in *;
    try match goal with H : (_, _) = (_, _) |- _ => injection H as <- ? end;
    try match goal with H : run _ = _ |- _ => rewrite H in E end;
    try match goal with H : f_in _ = _ |- _ => rewrite H in E end;
    simpl; stage_counts (fun s => count_id x (ids (stage_items s))); simpl in *;
    autorewrite with drain in *; simpl in *; try lia.
  - autorewrite with drain. lia.
  - destruct (full t _); simpl; autorewrite with drain in *; simpl in *; lia.
  - unfold resubmit, startSubmit. simpl. destruct (Z.even _); simpl; autorewrite with drain in *; simpl in *; autorewrite with drain in *; lia.
  - destruct drain; simpl in *; autorewrite with drain in *; lia.
  - unfold dropped in *. match goal with H : f_in f = [] |- _ => rewrite H end. simpl. autorewrite with drain. pose proof (count_ids_filter x (too_late f) batch). lia.
  - match goal with H : chunk _ _ _ _ = _ |- _ => apply chunk_app in H; subst batch end. autorewrite with drain in *. lia.
  - unfold set_deadline. destruct (deadline f); simpl; exact E.
  - unfold check_step, checked. destruct c; simpl; try (exact E); [destruct (_ || _); simpl; [destruct (_ && _)|]|destruct (_ =? _); simpl; [destruct idle|]]; exact E.
  - match goal with H : run f = _ |- _ => rewrite H end. simpl. exact E.
Qed.

(** ** The end of the drain *)

(** A stage with a result that may still reach the buffer. *)
Definition busy (s : stage) : nat := List.length (stage_items s).

Definition check_ok (f : finalizer) (c : check) : Prop :=
  match c with
  | Load => True
  | Submitted n => n <= submits f /\ Z.even n = true
  | Length n d => n <= submits f /\ Z.even n = true /\ (d = true -> submits f = n -> total live (stages f) = 0%nat)
  | Swap n idle => n <= submits f /\ Z.even n = true /\ idle = true
      /\ (submits f = n -> total live (stages f) = 0%nat /\ f_in f = [])
  end.
Definition quiet (f : finalizer) : Prop :=
  Z.even (submits f) = false /\ f_in f = [] /\ total busy (stages f) = 0%nat.

Definition run_ok (f : finalizer) : Prop :=
  match run f with
  | Returned => quiet f
  | Checking late c => Z.even (submits f) = true /\ late = false /\ check_ok f c
  | Writing late _ | Flushing (Some late) _ _ _ => Z.even (submits f) = true /\ late = false
  | _ => Z.even (submits f) = true
  end.

Record open_ok (f : finalizer) : Prop := {
  o_done : f_done f = true -> run f = Returned;
  o_lost : lost f = [];
  o_run : run_ok f }.

Lemma busy_live s : (busy s <= live s)%nat.
Proof. unfold busy; destruct s; simpl; lia. Qed.

Lemma total_busy_live l : (total busy l <= total live l)%nat.
Proof. induction l as [|s l IH]; simpl; [lia|]. pose proof (busy_live s). lia. Qed.

(** A step of a submit. *)
Lemma open_stage f g i s s' : open_ok f -> stages f !! i = Some s -> live s = 1%nat -> (busy s' <= busy s)%nat ->
  submits g = submits f -> run g = run f -> f_done g = f_done f -> lost g = lost f ->
  stages g = <[i := s']> (stages f) -> f_in g = f_in f \/ busy s = 1%nat -> open_ok g.
Proof.
  intros [D L R] Hi Hl Hb Es Er Ed El Est Ein. split; [rewrite Ed, Er; exact D|congruence|].
  pose proof (total_lookup live _ _ _ Hi). pose proof (total_lookup busy _ _ _ Hi). pose proof (total_insert busy _ _ _ s' Hi).
  unfold run_ok in *. rewrite Er, ?Es. destruct (run f) as [| | | |late c| |] eqn:Erun; try exact R.
  - destruct R as (Ev & -> & C). split; [assumption|]. split; [reflexivity|].
    destruct c; simpl in *; rewrite ?Es; [exact C|exact C| |].
    + destruct C as (C1 & C2 & C3). split; [assumption|]. split; [assumption|]. intros Hd Hn. specialize (C3 Hd Hn). lia.
    + destruct C as (C1 & C2 & C3 & C4). split; [assumption|]. split; [assumption|]. split; [assumption|]. intros Hn. destruct (C4 Hn). lia.
  - destruct R as (Ev & Hin & Hb0). unfold quiet. rewrite Es, Est. split; [assumption|]. destruct Ein as [->|B]; [|lia]. split; [assumption|lia].
Qed.

(** A submit begins. *)
Lemma open_start f g s : open_ok f -> submits g = submits f + 2 -> run g = run f -> f_done g = f_done f -> lost g = lost f ->
  stages g = stages f ++ [s] -> f_in g = f_in f -> (Z.even (submits f) = false -> busy s = 0%nat) -> open_ok g.
Proof.
  intros [D L R] Es Er Ed El Est Ein Hs. split; [rewrite Ed, Er; exact D|congruence|].
  assert (Ev : Z.even (submits g) = Z.even (submits f)) by (rewrite Es, Z.even_add; simpl; now destruct (Z.even (submits f))).
  unfold run_ok in *. rewrite Er, ?Ev. destruct (run f) as [| | | |late c| |] eqn:Erun; try exact R.
  - destruct R as (Evf & -> & C). split; [assumption|]. split; [reflexivity|].
    destruct c; simpl in *; rewrite ?Es; intuition lia.
  - destruct R as (Evf & Hin & Hb0). unfold quiet. rewrite Ev, Est, Ein, total_app. simpl. rewrite (Hs Evf). intuition lia.
Qed.

(** The finalizer's goroutine goes on, and touches nothing else. *)
Lemma open_run f g : open_ok f -> run f <> Returned -> submits g = submits f -> f_done g = f_done f -> lost g = lost f -> run_ok g -> open_ok g.
Proof. intros [D L R] N Es Ed El Rg. split; [|congruence|assumption]. rewrite Ed. intros H. apply D in H. contradiction. Qed.

Lemma open_even f : open_ok f -> run f <> Returned -> Z.even (submits f) = true.
Proof.
  intros [_ _ R] N. unfold run_ok in R. destruct (run f) as [|[late|] | | |late c| |]; tauto.
Qed.

Lemma check_step_open f c : count_ok f -> open_ok f -> run f = Checking false c -> open_ok (check_step f false c).
Proof.
  intros (b & E) O Er. pose proof (open_even f O ltac:(rewrite Er; discriminate)) as Ev.
  pose proof (o_run f O) as R. unfold run_ok in R. rewrite Er in R. destruct R as (_ & _ & C).
  assert (N : run f <> Returned) by (rewrite Er; discriminate).
  destruct c as [|n|n d|n idle]; simpl in *.
  - apply (open_run f); auto. unfold run_ok. simpl. auto with lia.
  - apply (open_run f); auto. unfold run_ok. simpl. destruct C as [C1 C2]. split; [assumption|]. split; [reflexivity|].
    split; [assumption|]. split; [assumption|]. intros Hd%Z.eqb_eq Hn. rewrite <- Hn, E, shiftr_even in Hd. lia.
  - destruct C as (C1 & C2 & C3). unfold Z.odd. rewrite <- Z.negb_odd in C2. apply negb_true_iff in C2. fold (Z.odd n). rewrite C2. simpl.
    destruct (d && (List.length (f_in f) =? 0)%nat) eqn:I; simpl; apply (open_run f); auto; unfold run_ok; simpl.
    apply andb_true_iff in I as [-> I%Nat.eqb_eq]. split; [assumption|]. split; [reflexivity|].
    split; [assumption|]. split; [rewrite <- Z.negb_odd, C2; reflexivity|]. split; [reflexivity|]. intros Hn.
    split; [auto|now apply nil_length_inv].
  - destruct C as (C1 & C2 & -> & C4). destruct (Z.eqb_spec (submits f) n) as [Hn|Hn].
    + destruct (C4 Hn) as [G In0]. destruct O as [D L _]. split; simpl; auto. unfold run_ok. simpl. unfold quiet. simpl.
      split; [|split; [assumption|]].
      * rewrite <- Hn, E, lor_one, Z.even_add, Z.even_mul. reflexivity.
      * pose proof (total_busy_live (stages f)). lia.
    + apply (open_run f); auto. unfold run_ok. simpl. auto.
Qed.

Lemma fin_step_open f f' : count_ok f -> (forced f = false -> open_ok f) -> fin_step t f f' -> forced f' = false -> open_ok f'.
Proof.
  intros K O S Hf.
  destruct S as [f n Hn|f p f1 H|f p f1 H|f i p H|f i p H|f i p H Hfit|f i p H Hb Hd|f i p H|f i p H Hc|f i p H Hd|f i H
    |f batch p rest H Hin|f batch H Hne|f batch H|f drain p todo size rest H|f drain p todo size rest H Hc|f drain size rest H
    |f batch p rest H Hin|f batch H Hin dropped|f late batch a b H Hne Hch|f late H|f force c H|f p rest H Hin|f H Hl|f d H He Hd Hn|f H];
    try (assert (P : open_ok f) by (apply O; exact Hf); pose proof (o_run f P) as R).
  - destruct P. split; auto.
  - unfold startSubmit in H. injection H as <- H. apply (open_start f _ (Acquiring p)); simpl; auto; [lia|].
    rewrite Z.even_add in H. simpl in H. destruct (Z.even (submits f)); discriminate.
  - unfold startSubmit in H. injection H as <- H. apply (open_start f _ (Refused p)); simpl; auto; lia.
  - apply (open_stage f _ i (Refused p) Finishing); simpl; auto.
  - apply (open_stage f _ i (Waiting p) (Acquiring p)); simpl; auto.
  - apply (open_stage f _ i (Acquiring p) (Handing p)); simpl; auto.
  - pose proof (o_done f P Hd) as Er. unfold run_ok, quiet in R. rewrite Er in R. pose proof (total_lookup busy _ _ _ H) as B.
    unfold busy in B at 1. simpl in B. lia.
  - apply (open_stage f _ i (Handing p) (Sending (handed f p))); simpl; auto.
  - apply (open_stage f _ i (Sending p) Finishing); simpl; auto. unfold busy. simpl. lia.
  - pose proof (o_done f P Hd) as Er. unfold run_ok, quiet in R. rewrite Er in R. pose proof (total_lookup busy _ _ _ H) as B.
    unfold busy in B at 1. simpl in B. lia.
  - apply (open_stage f _ i Finishing Gone); simpl; auto.
  - unfold run_ok in R. rewrite H in R. apply (open_run f); auto; [congruence|]. unfold run_ok. simpl. destruct (full t _); exact R.
  - unfold run_ok in R. rewrite H in R. apply (open_run f); auto; congruence.
  - unfold run_ok in R. rewrite H in R. apply (open_run f); auto; congruence.
  - unfold run_ok in R. rewrite H in R. apply (open_run f); auto; congruence.
  - assert (P : open_ok f) by (apply O; unfold resubmit, startSubmit in Hf; simpl in Hf; destruct (Z.even _); exact Hf).
    pose proof (o_run f P) as R. unfold run_ok in R. rewrite H in R. assert (Ev : Z.even (submits f) = true) by (destruct drain; tauto).
    unfold resubmit, startSubmit. simpl. rewrite Z.even_add, Ev. simpl.
    apply (open_start (f <| run := Flushing drain todo size rest |>) _ (Waiting p)); simpl; auto; [|lia|congruence].
    apply (open_run f); auto; congruence.
  - unfold run_ok in R. rewrite H in R. apply (open_run f); auto; [congruence|]. unfold run_ok. simpl. destruct drain; exact R.
  - unfold run_ok in R. rewrite H in R. apply (open_run f); auto; congruence.
  - simpl in Hf. apply orb_false_iff in Hf as [Hf Hl]. pose proof (O Hf) as P. pose proof (o_run f P) as R. unfold run_ok in R. rewrite H in R.
    assert (Dn : dropped = []).
    { unfold dropped, too_late. rewrite Hl. simpl. clear. now induction batch. }
    rewrite Dn. apply (open_run f); auto; [congruence|simpl; apply app_nil_r|]. unfold run_ok. simpl. auto.
  - unfold run_ok in R. rewrite H in R. apply (open_run f); auto; congruence.
  - assert (P : open_ok f) by (apply O; unfold set_deadline in Hf; now destruct (deadline f)). pose proof (o_run f P) as R.
    unfold run_ok in R. rewrite H in R. destruct R as [Ev ->].
    apply (open_run f); auto; try congruence; unfold set_deadline, run_ok; destruct (deadline f); simpl; auto.
  - assert (Fr : forced (check_step f force c) = forced f).
    { unfold check_step. destruct c; simpl; try reflexivity; [destruct (_ || _)|destruct (_ =? _)]; reflexivity. }
    rewrite Fr in Hf. pose proof (O Hf) as P. pose proof (o_run f P) as R. unfold run_ok in R. rewrite H in R. destruct R as (_ & -> & _).
    now apply check_step_open.
  - unfold run_ok in R. rewrite H in R. apply (open_run f); auto; congruence.
  - unfold run_ok in R. rewrite H in R. apply (open_run f); auto; congruence.
  - unfold run_ok in R. rewrite H in R. apply (open_run f); auto; congruence.
  - destruct P as [D L _]. split; auto.
Qed.

(** ** The logs' budget *)

(** Of the results the finalizer has not done with, those that measure [m] counts. *)
Definition held_by (m : pending -> nat) (f : finalizer) : nat :=
  total (fun s => total m (stage_items s)) (stages f) + total m (f_in f) + total m (run_items (run f)).

Lemma fin_step_held m f f' : (forall p time, m (p <| p_handedIn := time |>) = m p) -> fin_step t f f' ->
  (largest f <= largest f')%nat
  /\ ((held_by m f' <= held_by m f)%nat \/ exists p, held_by m f' = (held_by m f + m p)%nat /\ (p_bytes p <= largest f')%nat).
Proof.
  intros Hm S. unfold held_by. assert (Hh : forall p, m (handed f p) = m p) by (intros p; unfold handed; destruct (draining f); auto).
  destruct S; unfold startSubmit in *;
    try match goal with H : (_, _) = (_, _) |- _ => injection H as <- ? end;
    try match goal with H : run _ = _ |- _ => rewrite H end;
    try match goal with H : f_in _ = _ |- _ => rewrite H end;
    simpl; stage_counts (fun s => total m (stage_items s)); simpl in *;
    try (split; [lia|left; simpl; autorewrite with drain; simpl; rewrite ?Hh in *; lia]).
  - split; [lia|]. right. exists p. simpl. autorewrite with drain. simpl. lia.
  - split; [lia|left]. destruct (full t _); simpl; autorewrite with drain; simpl; lia.
  - unfold resubmit, startSubmit. simpl. destruct (Z.even _); simpl; (split; [lia|left]); autorewrite with drain; simpl; autorewrite with drain; simpl; lia.
  - split; [lia|left]. destruct drain; simpl; lia.
  - split; [lia|left]. pose proof (filter_total m (too_late f) batch). match goal with H : f_in f = [] |- _ => rewrite H end. simpl. lia.
  - split; [lia|left]. match goal with H : chunk _ _ _ _ = _ |- _ => apply chunk_app in H; subst batch end. simpl. lia.
  - unfold set_deadline. destruct (deadline f); simpl; (split; [lia|left; lia]).
  - unfold check_step, checked. destruct c; simpl; [| |destruct (_ || _); simpl; [destruct (_ && _)|]|destruct (_ =? _); simpl; [destruct idle|]];
      simpl; (split; [lia|left; lia]).
  - split; [lia|left]. match goal with H : run f = _ |- _ => rewrite H end. simpl. lia.
Qed.

Definition stage_bytes (s : stage) : nat := match s with Handing p | Sending p => p_bytes p | _ => 0 end.
Definition run_bytes (r : runner) : nat :=
  match r with Flushing _ _ size rest => size + bytes rest | _ => bytes (run_items r) end.

Definition too_big (k : nat) (p : pending) : nat := b2n (k <? p_bytes p)%nat.

Record budget_ok (f : finalizer) : Prop := {
  b_used : f_done f = false -> used f = (total stage_bytes (stages f) + bytes (f_in f) + run_bytes (run f))%nat;
  b_done : f_done f = true -> draining f = true;
  b_run : match run f with Running _ | Flushing None _ _ _ => True | _ => draining f = true end;
  b_large : held_by (too_big (largest f)) f = 0%nat;
  b_bound : draining f = false -> (used f <= Nat.max (maxLogs t) (largest f))%nat }.

Lemma too_big_mono k l p : (k <= l)%nat -> (too_big l p <= too_big k p)%nat.
Proof. intros H. unfold too_big. destruct (Nat.ltb_spec l (p_bytes p)), (Nat.ltb_spec k (p_bytes p)); simpl; lia. Qed.

Lemma total_mono {A} (m m' : A -> nat) l : (forall x, m x <= m' x)%nat -> (total m l <= total m' l)%nat.
Proof. intros H. induction l as [|x l IH]; simpl; [lia|]. specialize (H x). lia. Qed.

Lemma held_by_mono m m' f : (forall p, m p <= m' p)%nat -> (held_by m f <= held_by m' f)%nat.
Proof.
  intros H. unfold held_by. pose proof (total_mono m m' (f_in f) H). pose proof (total_mono m m' (run_items (run f)) H).
  assert (total (fun s => total m (stage_items s)) (stages f) <= total (fun s => total m' (stage_items s)) (stages f))%nat
    by (apply total_mono; intros s; now apply total_mono). lia.
Qed.

Lemma fin_step_large f f' : held_by (too_big (largest f)) f = 0%nat -> fin_step t f f' -> held_by (too_big (largest f')) f' = 0%nat.
Proof.
  intros Z0 S. destruct (fin_step_held (too_big (largest f')) f f') as [M H]; [reflexivity|assumption|].
  pose proof (held_by_mono (too_big (largest f')) (too_big (largest f)) f (fun p => too_big_mono _ _ p M)).
  destruct H as [H|(p & H & B)]; [lia|]. unfold too_big in H at 3. destruct (Nat.ltb_spec (largest f') (p_bytes p)); simpl in H; lia.
Qed.

Lemma stage_large f i s p : held_by (too_big (largest f)) f = 0%nat -> stages f !! i = Some s -> stage_items s = [p] -> (p_bytes p <= largest f)%nat.
Proof.
  intros Z0 Hi Hs. pose proof (total_lookup (fun s => total (too_big (largest f)) (stage_items s)) _ _ _ Hi) as L. simpl in L.
  rewrite Hs in L. simpl in L. unfold held_by in Z0. unfold too_big in L at 1. destruct (Nat.ltb_spec (largest f) (p_bytes p)); simpl in L; lia.
Qed.

Lemma filter_bytes q l : (bytes (List.filter q l) + bytes (List.filter (fun p => negb (q p)) l) = bytes l)%nat.
Proof. apply filter_total. Qed.

Lemma bytes_app l k : bytes (l ++ k) = (bytes l + bytes k)%nat.
Proof. apply total_app. Qed.

#[local] Hint Rewrite bytes_app : drain.

Lemma handed_bytes f p : p_bytes (handed f p) = p_bytes p.
Proof. unfold handed. now destruct (draining f). Qed.

Lemma fin_step_used f f' : budget_ok f -> fin_step t f f' ->
  f_done f' = false -> used f' = (total stage_bytes (stages f') + bytes (f_in f') + run_bytes (run f'))%nat.
Proof.
  intros [U D R _ _] S. destruct S; unfold startSubmit in *;
    try match goal with H : (_, _) = (_, _) |- _ => injection H as <- ? end;
    try match goal with H : run _ = _ |- _ => rewrite H in U end;
    try match goal with H : f_in _ = _ |- _ => rewrite H in U end;
    simpl; intros Hd; stage_counts stage_bytes; simpl in *; try congruence; try specialize (U Hd);
    autorewrite with drain in *; simpl in *; rewrite ?handed_bytes in *; try (unfold bytes in *; simpl in *; lia).
  - destruct (full t _); simpl; autorewrite with drain; unfold bytes in *; simpl in *; lia.
  - unfold resubmit, startSubmit in *. simpl in *. destruct (Z.even _); simpl in *; autorewrite with drain; simpl; intuition lia.
  - destruct drain; simpl; lia.
  - unfold dropped in *. pose proof (filter_bytes (too_late f) batch). match goal with H : f_in f = [] |- _ => rewrite H end. unfold bytes in *. simpl in *. lia.
  - match goal with H : chunk _ _ _ _ = _ |- _ => apply chunk_app in H; subst batch end. autorewrite with drain in *. lia.
  - unfold set_deadline in *. destruct (deadline f); simpl in *; auto.
  - unfold check_step, checked in *. destruct c; simpl in *; [| |destruct (_ || _); simpl in *; [destruct (_ && _)|]|destruct (_ =? _); simpl in *; [destruct idle|]]; auto.
Qed.

Lemma fin_step_budget f f' : budget_ok f -> fin_step t f f' -> budget_ok f'.
Proof.
  intros B S. pose proof (fin_step_used f f' B S) as U. pose proof B as [_ D R Lg Bd]. pose proof (fin_step_large f f' Lg S) as Lg'.
  split; [exact U| | |exact Lg'|]; clear U Lg'.
  - destruct S; unfold startSubmit in *; try match goal with H : (_, _) = (_, _) |- _ => injection H as <- ? end; simpl; auto.
    + unfold resubmit, startSubmit. simpl. now destruct (Z.even _).
    + unfold set_deadline. now destruct (deadline f).
    + unfold check_step. destruct c; simpl; auto; [destruct (_ || _)|destruct (_ =? _)]; auto.
    + match goal with H : run f = _ |- _ => rewrite H in R end. auto.
  - destruct S; unfold startSubmit in *; try match goal with H : (_, _) = (_, _) |- _ => injection H as <- ? end; simpl; auto;
      try match goal with H : run f = _ |- _ => rewrite H in R end; auto.
    + now destruct (full t _).
    + unfold resubmit, startSubmit. simpl. destruct (Z.even _); exact R.
    + destruct drain; exact R || exact I.
    + unfold set_deadline. now destruct (deadline f).
    + unfold check_step, checked. destruct c; simpl; auto; [destruct (_ || _); simpl; [destruct (_ && _)|]|destruct (_ =? _); simpl; [destruct idle|]]; exact R.
  - destruct S; unfold startSubmit in *; try match goal with H : (_, _) = (_, _) |- _ => injection H as <- ? end; simpl; auto;
      intros Hd; try (specialize (Bd Hd); lia).
    + specialize (Bd Hd). match goal with H : stages f !! i = _ |- _ => pose proof (stage_large f i _ p Lg H eq_refl) end.
      unfold fits in *. rewrite Hd in *. breflect. repeat match goal with H : (_ || _) = true |- _ => apply orb_true_iff in H as [H|H] end; try discriminate;
        try apply Nat.eqb_eq in H0; try apply Nat.leb_le in H0; lia.
    + discriminate.
    + unfold resubmit, startSubmit in *. simpl in *. destruct (Z.even _); simpl in *; auto.
    + unfold set_deadline in *. destruct (deadline f); simpl in *; auto.
    + unfold check_step in *. destruct c; simpl in *; auto; [destruct (_ || _)|destruct (_ =? _)]; simpl in *; auto.
Qed.

(** ** Theorems *)

Record fin_ok (f : finalizer) : Prop := {
  ok_count : count_ok f;
  ok_places : forall x, count_id x (accepted f) = places x f;
  ok_open : forced f = false -> open_ok f;
  ok_budget : budget_ok f }.

Lemma reachable_fin_ok f : reachable_fin t f -> fin_ok f.
Proof.
  intros (time & H). apply rtc_ind_r with (P := fin_ok) in H; [exact H| |].
  - split; [now exists false|reflexivity| |]; [intros _; now split|split; simpl; auto; lia].
  - intros y z _ S [C P O B]. split; [now apply (fin_step_count y)|intros x; now apply (fin_step_places x y)
      |intros Hf; now apply (fin_step_open y)|now apply (fin_step_budget y)].
Qed.

Lemma count_id_occ x l : count_id x l = count_occ Z.eq_dec l x.
Proof.
  induction l as [|y l IH]; [reflexivity|]. rewrite count_id_cons, IH. simpl. destruct (Z.eq_dec y x) as [->|N].
  - rewrite Z.eqb_refl. reflexivity.
  - apply Z.eqb_neq in N. rewrite N. reflexivity.
Qed.

Lemma no_busy_items x l : total busy l = 0%nat -> total (fun s => count_id x (ids (stage_items s))) l = 0%nat.
Proof.
  induction l as [|s l IH]; simpl; [reflexivity|]. intros H. rewrite IH by lia.
  unfold busy in H. destruct (stage_items s); [reflexivity|simpl in H; lia].
Qed.

(** A result is never duplicated and never lost track of: at any point of
    any interleaving, each result accepted is in one place, with a submit in
    flight, in the buffer, in the batch being written, resolved, or dropped. *)
Theorem results_conserved f : reachable_fin t f ->
  Permutation (accepted f)
    (ids (List.flat_map stage_items (stages f)) ++ ids (f_in f) ++ ids (run_items (run f)) ++ resolved f ++ lost f).
Proof.
  intros H. apply (Permutation_count_occ Z.eq_dec). intros x. rewrite <- !count_id_occ, (ok_places f (reachable_fin_ok f H)).
  unfold places. rewrite !count_id_app. assert (E : forall l, count_id x (ids (List.flat_map stage_items l)) = total (fun s => count_id x (ids (stage_items s))) l).
  { induction l as [|s l IH]; simpl; [reflexivity|]. now rewrite ids_app, count_id_app, IH. }
  rewrite E. lia.
Qed.

(** C11: A drain that ends before its deadline leaves nothing behind: once the
    finalizer's goroutine has returned, the buffer is empty, no submit that will
    still hand a result in is in flight, and the results resolved are the results
    accepted, each once. *)
Theorem drain_complete f : reachable_fin t f -> forced f = false -> run f = Returned ->
  f_in f = [] /\ List.flat_map stage_items (stages f) = [] /\ Permutation (accepted f) (resolved f).
Proof.
  intros H Hf Hr. destruct (reachable_fin_ok f H) as [_ P O _]. destruct (O Hf) as [_ L R].
  unfold run_ok in R. rewrite Hr in R. destruct R as (_ & Hin & Hb). split; [assumption|]. split.
  - clear -Hb. induction (stages f) as [|s l IH]; simpl in *; [reflexivity|]. unfold busy in Hb at 1.
    destruct (stage_items s); simpl in *; [apply IH; lia|lia].
  - apply (Permutation_count_occ Z.eq_dec). intros x. rewrite <- !count_id_occ, P. unfold places.
    rewrite Hin, Hr, L, no_busy_items by assumption. unfold count_id. simpl. lia.
Qed.

(** Until the client stops, the logs of the results handed in and not yet
    flushed take at most bufferedLogBytes, or one result's; and the budget counts
    exactly those results, so that all of it is given back. *)
Theorem logs_bounded f : reachable_fin t f ->
  (draining f = false -> (used f <= Nat.max (maxLogs t) (largest f))%nat)
  /\ (f_done f = false -> used f = (total stage_bytes (stages f) + bytes (f_in f) + run_bytes (run f))%nat).
Proof. intros H. destruct (ok_budget f (reachable_fin_ok f H)) as [U _ _ _ B]. auto. Qed.
End Drain.

(** ** A drain past its deadline *)

Definition small : tuning := mkTuning 4 2 100 1000 10.
Definition early_result : pending := mkPending 1 0 false None.
Definition late_result : pending := mkPending 2 0 false None.

(** A result handed in before the deadline, left in the buffer. *)
Definition abandoned : finalizer :=
  mkFinalizer 7 2 [mkPending 1 0 false (Some 0)] true true true 0 (Some 10) false 11 [Finishing; Gone; Gone] Returned
    [1] [] [] true 0.

Tactic Notation "go" open_constr(rule) := eapply rtc_l; [eapply rule; reflexivity || discriminate || (simpl; lia)|]; cbv.

(** Past the deadline the drain can end with a submit in flight.  stopIfIdle
    loads the count of submits begun before the count of submits done, so one that
    is refused between the loads is taken for one begun earlier: the finalizer
    returns, and a result handed in before the deadline, which the drain promises
    to write, stays in the buffer, neither written nor reported as dropped. *)
Theorem drain_race : reachable_fin small abandoned
  /\ run abandoned = Returned /\ accepted abandoned = [1] /\ resolved abandoned = [] /\ lost abandoned = []
  /\ exists p, In p (f_in abandoned) /\ p_id p = 1 /\ p_handedIn p = Some 0 /\ deadline abandoned = Some 10.
Proof.
  split; [|repeat split; eexists; split; [now left|repeat split]].
  exists 0. go (fin_start small (newFinalizer 0) early_result). go fin_stop. go (fin_acquire small _ 0). go (fin_hand small _ 0).
  go fin_taken. go fin_check. do 3 (go fin_checking).
  go (fin_tick small _ 11). go fin_expiry. go fin_taken. go fin_check. do 4 (go fin_checking).
  go (fin_refuse small _ late_result). go (fin_refused small _ 1). go (fin_done small _ 1).
  go fin_left. go fin_taken. go fin_check. go fin_checking.
  go (fin_refuse small _ late_result). go (fin_refused small _ 2). go (fin_done small _ 2).
  do 2 (go fin_checking). go fin_close. go (fin_send small _ 0). apply rtc_refl.
Qed.

(** ** A drain in time *)

Definition logged : pending := mkPending 1 5 false None.
Definition buffered : finalizer :=
  mkFinalizer 2 1 [logged] false false false 5 None false 0 [Gone] (Running []) [1] [] [] false 5.
Definition drained : finalizer :=
  mkFinalizer 3 1 [] true false false 0 (Some 10) true 0 [Gone] Returned [1] [1] [] false 5.

Lemma buffered_reachable : reachable_fin small buffered.
Proof.
  exists 0. go (fin_start small (newFinalizer 0) logged). go (fin_acquire small _ 0). go (fin_hand small _ 0). go (fin_send small _ 0).
  go (fin_done small _ 0). apply rtc_refl.
Qed.

Lemma drained_reachable : reachable_fin small drained.
Proof.
  destruct buffered_reachable as (time & R). exists time. eapply (transitivity R). unfold buffered.
  go fin_stop. go fin_take. go fin_taken. go (fin_write small _ false [logged] [logged] []). go fin_written. go fin_flushed.
  go fin_check. do 4 (go fin_checking). apply rtc_refl.
Qed.

Lemma results_conserved_witness : reachable_fin small drained /\ Permutation [1] [1].
Proof. split; [apply drained_reachable|]. exact (results_conserved small drained drained_reachable). Defined.

Lemma drain_complete_witness : forced drained = false /\ run drained = Returned /\ Permutation (accepted drained) (resolved drained).
Proof. split; [reflexivity|]. split; [reflexivity|]. apply (drain_complete small drained drained_reachable); reflexivity. Defined.

Lemma logs_bounded_witness : used buffered = 5%nat /\ (used buffered <= Nat.max (maxLogs small) (largest buffered))%nat.
Proof. split; [reflexivity|]. apply (logs_bounded small buffered buffered_reachable). reflexivity. Defined.
