(* ===== verification/ConnSpec.v ===== *)
(** * Connections: theorems on Conn.v

    In any interleaving of connections' operations the write lock has one
    holder when it is taken and none when it is not, so that giving it back
    never blocks and it is never left behind. *)

From Stdlib Require Import List ZArith Lia Bool String Ascii.
From stdpp Require Import base tactics list relations.
From S2P Require Import Prelude Counting Text Conn.
Import ListNotations.
Local Open Scope nat_scope.

(** ** The invariant *)

(** Whether a connection holds the lock. *)
Definition conn_holds (c : conn) : nat :=
  match c_work c with
  | Idle => match c_tx c with Some t => b2n (t_locked t) | None => 0 end
  | _ => 1
  end.
Definition rows_hold (r : rows) : nat := b2n (r_release r).
Definition holders (p : process) : nat := total conn_holds (p_conns p) + total rows_hold (p_rows p).

(** A transaction that holds the lock has begun, and one that has not begun refuses nothing. *)
Record tx_ok (t : tx) : Prop := {
  locked_begun : t_locked t = true -> t_begun t = true;
  begun_first : t_begun t = false -> refused t = None }.

Definition conn_ok (c : conn) : Prop :=
  match c_work c, c_tx c with
  | Idle, Some t => tx_ok t
  | Idle, None => True
  | Beginning, Some t => tx_ok t /\ t_locked t = false /\ t_begun t = false
  | Executing, None | Querying, None => True
  | _, _ => False
  end.

Record process_ok (p : process) : Prop := {
  lock_count : holders p = b2n (lock (p_db p));
  conns_ok : Forall conn_ok (p_conns p) }.

Lemma leave_ok t o : tx_ok t -> t_begun t = true -> tx_ok (leave t o) /\ t_locked (leave t o) = t_locked t.
Proof. intros [T1 T2] B. unfold leave. repeat case_match; (split; [split; simpl; congruence|reflexivity]). Qed.

Lemma enter_ok t q : tx_ok t -> tx_ok (enter t q) /\ t_locked (enter t q) = t_locked t /\ t_begun (enter t q) = t_begun t.
Proof. intros [H1 H2]. unfold enter. destruct (String.eqb q notifySQL); repeat split; auto. Qed.

Lemma acquire_spec d owner callers d' : acquire d owner callers = Acquired d' -> lock d = false /\ lock d' = true.
Proof. unfold acquire. destruct (lock d); simpl; [destruct (_ && _); discriminate|]. now intros [= <-]. Qed.

Lemma release_spec d d' : release d = Some d' -> lock d = true /\ lock d' = false.
Proof. unfold release. destruct (lock d); [|discriminate]. now intros [= <-]. Qed.

(** A step that changes connection [i], and moves the lock with it. *)
Lemma with_conn_ok p i c c' d : process_ok p -> p_conns p !! i = Some c -> conn_ok c' ->
  conn_holds c' + b2n (lock (p_db p)) = conn_holds c + b2n (lock d) ->
  process_ok (with_db (with_conn p i c') d).
Proof.
  intros [L F] Hi Hc E. split; simpl; [|now apply Forall_insert_at].
  unfold holders in *. simpl. pose proof (total_insert conn_holds _ i c c' Hi). lia.
Qed.

Lemma conn_at p i c : process_ok p -> p_conns p !! i = Some c -> conn_ok c.
Proof. intros [_ F] H. rewrite Forall_forall in F. apply F. eapply list_elem_of_lookup_2; eauto. Qed.

Lemma begun_ok t : tx_ok t -> t_begun t = false -> tx_ok (t <| t_begun := true |> <| t_locked := true |>).
Proof. intros [H1 H2] B. split; simpl; auto. Qed.

Lemma BeginTx_ok open ro owner one e1 e2 t : BeginTx open ro owner one e1 e2 = inr t -> tx_ok t /\ t_locked t = false.
Proof.
  unfold BeginTx. destruct open; [discriminate|].
  destruct ro; [destruct e1, e2; try discriminate|]; intros [= <-]; (split; [constructor|]); simpl; auto; discriminate || congruence.
Qed.

Lemma conn_step_ok p p' : process_ok p -> conn_step p p' -> process_ok p'.
Proof.
  intros P S. destruct S as
    [p|p i ro owner one e1 e2 t Hi E|p i t d Hi R B E|p i t Hi|p i t d Hi E|p i t q o Hi R B|p i t o Hi R B
    |p i owner d Hi E|p i d Hi E|p i q owner d Hi W E|p i d Hi E|p i Hi|p i d Hi E|p i t e err wake d Hi C E|p i t e err d Hi C E];
    try (pose proof (conn_at p i _ P Hi) as K; unfold conn_ok in K; simpl in K).
  - destruct P as [L F]. split; simpl; [|apply Forall_app; split; [exact F|repeat constructor]].
    unfold holders in *. simpl. rewrite total_app. simpl. lia.
  - destruct (BeginTx_ok _ _ _ _ _ _ _ E) as [T L]. apply (with_conn_ok p i _ _ (p_db p) P Hi); [exact T|].
    unfold conn_holds. simpl. now rewrite L.
  - destruct (acquire_spec _ _ _ _ E) as [L1 L2].
    assert (Lk : t_locked t = false) by (destruct (t_locked t) eqn:El; [apply (locked_begun t K) in El; congruence|reflexivity]).
    apply (with_conn_ok p i _ _ d P Hi); [exact (conj K (conj Lk B))|]. unfold conn_holds. simpl. now rewrite L1, L2, Lk.
  - destruct K as (T & Lk & B). apply (with_conn_ok p i _ _ (p_db p) P Hi); [now apply begun_ok|reflexivity].
  - destruct K as (T & Lk & B), (release_spec _ _ E) as [L1 L2].
    apply (with_conn_ok p i _ _ d P Hi); [exact T|]. unfold conn_holds. simpl. now rewrite L1, L2, Lk.
  - destruct (enter_ok t q K) as (T & L1 & B1). destruct (leave_ok (enter t q) o) as [T2 L2]; try congruence.
    apply (with_conn_ok p i _ _ (p_db p) P Hi); [exact T2|]. unfold conn_holds. simpl. now rewrite L2, L1.
  - destruct (leave_ok t o) as [T2 L2]; try congruence.
    apply (with_conn_ok p i _ _ (p_db p) P Hi); [exact T2|]. unfold conn_holds. simpl. now rewrite L2.
  - destruct (acquire_spec _ _ _ _ E) as [L1 L2]. apply (with_conn_ok p i _ _ d P Hi); [exact I|].
    unfold conn_holds. simpl. now rewrite L1, L2.
  - destruct (release_spec _ _ E) as [L1 L2]. apply (with_conn_ok p i _ _ d P Hi); [exact I|].
    unfold conn_holds. simpl. now rewrite L1, L2.
  - destruct (acquire_spec _ _ _ _ E) as [L1 L2]. apply (with_conn_ok p i _ _ d P Hi); [exact I|].
    unfold conn_holds. simpl. now rewrite L1, L2.
  - destruct (release_spec _ _ E) as [L1 L2]. apply (with_conn_ok p i _ _ d P Hi); [exact I|].
    unfold conn_holds. simpl. now rewrite L1, L2.
  - destruct P as [L F]. split; simpl; [|now apply Forall_insert_at].
    unfold holders in *. simpl. rewrite total_app. simpl.
    pose proof (total_insert conn_holds _ i _ (mkConn None Idle) Hi) as T. change (conn_holds (mkConn None Querying)) with 1 in T. change (conn_holds (mkConn None Idle)) with 0 in T. lia.
  - destruct P as [L F], (release_spec _ _ E) as [L1 L2]. split; [|exact F].
    unfold holders in *. simpl. pose proof (total_insert rows_hold _ i _ (mkRows false) Hi) as T. change (rows_hold (mkRows true)) with 1 in T. change (rows_hold (mkRows false)) with 0 in T.
    rewrite L1 in L. rewrite L2. simpl in *. lia.
  - apply (with_conn_ok p i _ _ _ P Hi); [exact I|]. unfold conn_holds. simpl. unfold end_ in E.
    destruct (t_locked t); [destruct (release_spec _ _ E) as [L1 L2]|injection E as <-]; destruct wake; simpl; rewrite ?L1, ?L2; reflexivity || lia.
  - apply (with_conn_ok p i _ _ _ P Hi); [exact I|]. unfold conn_holds. simpl. unfold end_ in E.
    destruct (t_locked t); [destruct (release_spec _ _ E) as [L1 L2]|injection E as <-]; simpl; rewrite ?L1, ?L2; reflexivity || lia.
Qed.

Lemma reachable_ok p : reachable_process p -> process_ok p.
Proof.
  intros R. apply rtc_ind_r with (P := process_ok) in R; [exact R| |]; [split; [reflexivity|constructor]|].
  intros y z _ S P. now apply (conn_step_ok y).
Qed.

(** ** The write lock *)

Lemma conn_holder p i c : process_ok p -> p_conns p !! i = Some c -> 0 < conn_holds c -> lock (p_db p) = true.
Proof.
  intros [L _] Hi H. pose proof (total_lookup conn_holds _ i c Hi). unfold holders in L.
  destruct (lock (p_db p)); simpl in L; lia.
Qed.

Lemma rows_holder p i r : process_ok p -> p_rows p !! i = Some r -> 0 < rows_hold r -> lock (p_db p) = true.
Proof.
  intros [L _] Hi H. pose proof (total_lookup rows_hold _ i r Hi). unfold holders in L.
  destruct (lock (p_db p)); simpl in L; lia.
Qed.

Lemma release_held d : lock d = true -> exists d', release d = Some d' /\ lock d' = false.
Proof. intros H. unfold release. rewrite H. now eexists. Qed.

(** C23: In any interleaving of the operations of a process's connections, no
    two of them hold the write lock at once, whether by a transaction, a
    statement or rows not yet closed; and whoever holds it gives it back
    without blocking, so a commit, a rollback and a close always return. *)
Theorem lock_held_once p : reachable_process p ->
  (forall i j c d, p_conns p !! i = Some c -> p_conns p !! j = Some d -> conn_holds c = 1 -> conn_holds d = 1 -> i = j)
  /\ (forall i j c r, p_conns p !! i = Some c -> p_rows p !! j = Some r -> conn_holds c = 1 -> r_release r = false)
  /\ (forall i t, p_conns p !! i = Some (mkConn (Some t) Idle) -> end_ (p_db p) t <> None)
  /\ (forall i c, p_conns p !! i = Some c -> c_work c <> Idle -> release (p_db p) <> None)
  /\ (forall i r, p_rows p !! i = Some r -> r_release r = true -> release (p_db p) <> None).
Proof.
  intros R. pose proof (reachable_ok p R) as P. pose proof (lock_count p P) as L. unfold holders in L.
  assert (Hle : b2n (lock (p_db p)) <= 1) by (destruct (lock _); simpl; lia).
  assert (Rel : lock (p_db p) = true -> release (p_db p) <> None) by (unfold release; intros ->; discriminate).
  split; [|split; [|split; [|split]]].
  - intros i j c d Hi Hj Hc Hd. destruct (decide (i = j)); [assumption|].
    pose proof (total_two conn_holds _ i j c d Hi Hj n). lia.
  - intros i j c r Hi Hj Hc. pose proof (total_lookup conn_holds _ i c Hi). pose proof (total_lookup rows_hold _ j r Hj) as Hr.
    change (rows_hold r) with (b2n (r_release r)) in Hr. destruct (r_release r); [simpl in Hr; lia|reflexivity].
  - intros i t Hi. unfold end_. destruct (t_locked t) eqn:E; [|discriminate]. apply Rel.
    apply (conn_holder p i _ P Hi). unfold conn_holds. simpl. rewrite E. simpl. lia.
  - intros i c Hi Hw. apply Rel, (conn_holder p i c P Hi). unfold conn_holds. destruct (c_work c); [congruence|lia..].
  - intros i r Hi Hr. apply Rel, (rows_holder p i r P Hi). unfold rows_hold. rewrite Hr. simpl. lia.
Qed.

(** A write lock that is held can always be given back by one step of its
    holder: a rollback, the end of a statement, or the close of its rows.  No
    order of operations, errors included, leaves it held by nobody. *)
Theorem lock_comes_back p : reachable_process p -> lock (p_db p) = true ->
  exists p', conn_step p p' /\ lock (p_db p') = false.
Proof.
  intros R L. pose proof (reachable_ok p R) as P. destruct (release_held _ L) as (d & E & Ld).
  pose proof (lock_count p P) as Hc. rewrite L in Hc. unfold holders in Hc. simpl in Hc.
  destruct (total conn_holds (p_conns p)) eqn:Ec.
  - destruct (total_pos rows_hold (p_rows p)) as (i & r & Hi & Hr); [lia|]. destruct r as [[]]; [|simpl in Hr; unfold rows_hold in Hr; simpl in Hr; lia].
    eexists. split; [now apply (step_close_rows p i d)|exact Ld].
  - destruct (total_pos conn_holds (p_conns p)) as (i & c & Hi & Hh); [lia|].
    pose proof (conn_at p i c P Hi) as K. destruct c as [[t|] []]; unfold conn_ok, conn_holds in *; simpl in *; try contradiction; try lia.
    + destruct (t_locked t) eqn:El; simpl in Hh; [|lia]. eexists. split; [apply (step_rollback p i t None (Rollback t None) d Hi eq_refl); unfold end_; now rewrite El|exact Ld].
    + eexists. split; [now apply (step_begin_failed p i t d)|exact Ld].
    + eexists. split; [now apply (step_exec_done p i d)|exact Ld].
    + eexists. split; [now apply (step_query_failed p i d)|exact Ld].
Qed.

(** ** Other facts *)

(** A comment that opens with [/*/] is taken to close there: what follows is
    read as the statement, so that an insert after such a comment is thought to
    only read, and runs without the lock. *)
Lemma mayWrite_comment :
  mayWrite "/* x */ INSERT INTO t VALUES (1) RETURNING id" = true
  /\ mayWrite "/*/ x */ INSERT INTO t VALUES (1) RETURNING id" = false.
Proof. now vm_compute. Qed.

(** ** A transaction that has run its first statement *)

Definition begun : tx := mkTx false (Some 7%Z) false true true false false None None false.
Definition waiting : tx := mkTx false (Some 7%Z) false false false false false None None false.
Definition writing : process := mkProcess (mkDatabase true (mkHolder (Some 7%Z) true) 0) [mkConn (Some begun) Idle] [].

Lemma writing_reachable : reachable_process writing.
Proof.
  eapply rtc_l; [apply step_open|]. eapply rtc_l; [apply (step_begin _ 0 false (Some 7%Z) false None None waiting); reflexivity|].
  eapply rtc_l; [apply (step_lock _ 0 waiting (mkDatabase true (mkHolder (Some 7%Z) true) 0)); reflexivity|].
  eapply rtc_l; [apply (step_begun _ 0 waiting); reflexivity|]. apply rtc_refl.
Defined.

Lemma lock_held_once_witness : reachable_process writing /\ end_ (p_db writing) begun <> None.
Proof. split; [apply writing_reachable|]. apply (proj1 (proj2 (proj2 (lock_held_once writing writing_reachable))) 0). reflexivity. Defined.

Lemma lock_comes_back_witness : lock (p_db writing) = true /\ exists p', conn_step writing p' /\ lock (p_db p') = false.
Proof. split; [reflexivity|]. apply (lock_comes_back writing writing_reachable). reflexivity. Defined.
