(* ===== verification/DutiesSpec.v ===== *)
(** * The leader's duties: theorems on Duties.v

    A rescue, with other clients' writes between its statements, ends, and ends
    the claims of lost clients and no other; the walk over workflow edges ends; deferred work
    waits longer each time, within its bounds. *)

From Stdlib Require Import List ZArith Lia Bool String.
From stdpp Require Import base tactics list gmap strings relations.
From S2P Require Import Prelude Sql Text Json Types Store Logic JobTags JobId Codec Insert Finalize Claim Control Leases Workflow Cluster Flush.
From S2P Require Import Evolution Engine FinalizeSpec Frame Duties.
Import ListNotations.
Local Open Scope Z_scope.
Local Open Scope list_scope.

(** ** What runs goes on running

    [calm S]: a write keeps [wf], and every row that does not wait for others and whose ID is not in [S]. *)

Section Calm.
Context (S : JobID -> Prop).

Definition runs_on (d d' : DB) : Prop := forall j, In j (db_jobs d) -> j_State j <> Pending -> ~ S (j_ID j) -> In j (db_jobs d').
Definition calm (d d' : DB) : Prop := wf d -> wf d' /\ runs_on d d'.

#[export] Instance calm_preorder : PreOrder calm.
Proof.
  split; [intros d Hw; split; [done|now intros j]|]. intros a b c H1 H2 Hw. destruct (H1 Hw) as [Hb R1]. destruct (H2 Hb) as [Hc R2].
  split; [done|]. intros j Hj Hr Hs. auto.
Qed.

Lemma calm_of {A} (m : W A) : respects advances m -> respects runs_on m -> respects calm m.
Proof. intros H1 H2 x d a d' E Hw. split; [exact (proj1 (H1 _ _ _ _ E Hw))|eauto]. Qed.

Lemma runs_on_same d d' : db_jobs d' = db_jobs d -> runs_on d d'.
Proof. intros E j. now rewrite E. Qed.

#[export] Instance calm_jobs : JobsRelation calm.
Proof.
  split; [typeclasses eauto|]. intros d d' H Hw. split; [|apply runs_on_same, H]. destruct H as (E1 & E2 & E3). destruct Hw as [W1 W2 W3].
  split; [now rewrite E1|now rewrite E1, E2|now rewrite E3].
Qed.

Lemma calm_same {A} (m : W A) : respects same_jobs m -> respects calm m.
Proof. apply respects_same. typeclasses eauto. Qed.
Lemma calm_modify f : (forall d, same_jobs d (f d)) -> respects calm (modify f).
Proof. apply respects_modify_same. typeclasses eauto. Qed.

Ltac calm_auto :=
  repeat first
    [ respects_step
    | solve [auto with respects nocore]
    | solve [apply calm_modify; intros; split; simpl; auto]
    | solve [apply calm_same; auto with respects nocore] ].

(** The rows of one ID are changed or deleted, when they are pending or it is in [S]. *)
Definition may_change (d : DB) (id : JobID) : Prop := S id \/ forall j, In j (db_jobs d) -> j_ID j = id -> j_State j = Pending.

Lemma runs_on_others d d' id : may_change d id -> (forall j, In j (db_jobs d) -> j_ID j <> id -> In j (db_jobs d')) -> runs_on d d'.
Proof. intros [Hs|Hn] H j Hj Hr Hns; apply H; try done; [congruence|]. intros E. apply Hr, (Hn j Hj E). Qed.

Lemma finish_jobs f x d u d' : finish f x d = Ok (u, d') -> db_jobs d' = del (id_is (fin_id f)) (db_jobs d).
Proof.
  unfold finish. intros H. apply bind_Ok in H as (u1 & d1 & Ha & H). apply bind_Ok in H as (u2 & d2 & (_ & ->)%exec_jobs_Ok & H).
  assert (db_jobs d1 = db_jobs d) as E1.
  { destruct (fin_archive f); [|inv_w; done]. unfold archive in Ha. repeat case_match; simplify_eq; done. }
  assert (db_jobs d' = del (id_is (fin_id f)) (db_jobs d1)) as -> by (destruct (j_Await _); [apply notify_same in H as (-> & _)|inv_w]; done). now rewrite E1.
Qed.

Lemma finish_calm f x d u d' : finish f x d = Ok (u, d') -> may_change d (fin_id f) -> calm d d'.
Proof.
  intros E Hm Hw. split; [exact (proj1 (finish_advances f _ _ _ _ E Hw))|]. apply (runs_on_others _ _ (fin_id f) Hm). rewrite (finish_jobs _ _ _ _ _ E).
  intros j Hj Hne. apply In_del. split; [done|]. unfold id_is. now apply Z.eqb_neq.
Qed.

(** A pending row is the only one of its ID. *)
Lemma may_change_pending d r : wf d -> In r (db_jobs d) -> j_State r = Pending -> may_change d (j_ID r).
Proof. intros Hw Hr Hp. right. intros j Hj E. now rewrite (wf_unique_id d j r Hw Hj Hr E). Qed.

Lemma cancelDependent_calm r x d f d' : In r (db_jobs d) -> j_State r = Pending -> cancelDependent r x d = Ok (f, d') -> calm d d'.
Proof.
  intros Hr Hp (E1 & _ & E2)%cancelDependent_spec Hw. apply (finish_calm _ _ _ _ _ E2); [|done]. unfold fin_id. rewrite E1. now apply may_change_pending.
Qed.

Lemma recordResult_calm f : respects calm (recordResult f).
Proof. unfold recordResult. calm_auto. Qed.
#[local] Hint Resolve recordResult_calm : respects.

Lemma insertJob_calm j : respects calm (insertJob j).
Proof.
  apply calm_of; [apply insertJob_advances|]. intros x d r d' E. unfold insertJob in E. apply bind_Ok in E as (now & d1 & E1 & E). apply bind_Ok in E as (exp & d2 & E2 & E).
  apply bind_Ok in E as (id & d3 & E3 & E). apply insert_row_Ok in E as (_ & _ & ->). unfold us in E1. unfold at_ in E2. simplify_eq.
  assert (db_jobs d3 = db_jobs d2) as Hj by (destruct (IsZero _); [apply newID_same in E3 as (-> & _)|inv_w]; done).
  intros k Hk _ _. cbn. rewrite Hj. apply in_app_iff. now left.
Qed.
#[local] Hint Resolve insertJob_calm : respects.

Lemma countBatch_calm id n k : respects calm (countBatch id n k).
Proof. unfold countBatch, insertCallback. calm_auto. Qed.
#[local] Hint Resolve countBatch_calm : respects.

Lemma promoteIfReady_calm id : respects calm (promoteIfReady id).
Proof.
  intros x d b d' E Hw. split; [exact (proj1 (promoteIfReady_advances id _ _ _ _ E Hw))|]. unfold promoteIfReady in E.
  apply bind_Ok in E as (row & d1 & E1 & E). unfold get in E1. injection E1 as <- <-. destruct (one _ _) as [r|] eqn:Er; [|inv_w; now intros k].
  apply one_Some in Er as [Hr Hi]. unfold id_is, ready in Hi. breflect. apply bind_Ok in E as (now & d2 & E2 & E). unfold us in E2. injection E2 as <- <-.
  apply bind_Ok in E as (u & d3 & (_ & ->)%exec_jobs_Ok & E). apply bind_Ok in E as (u2 & d4 & (E4 & _)%notify_same & E). inv_w.
  apply (runs_on_others _ _ id).
  - rewrite <- H. apply may_change_pending; [done..|]. now destruct (j_State r).
  - intros j Hj Hne. rewrite E4. cbn. apply In_upd. exists j. split; [done|]. unfold id_is. now rewrite (proj2 (Z.eqb_neq _ _)).
Qed.
#[local] Hint Resolve promoteIfReady_calm : respects.

Lemma visit_calm c dep : respects calm (visit c dep).
Proof.
  intros x d b d' E. unfold visit in E. destruct (bool_decide _); [inv_w; reflexivity|]. apply bind_Ok in E as (row & d1 & (-> & ->)%liveRow_spec & E).
  destruct (one _ _) as [r|] eqn:Er; [|inv_w; reflexivity]. apply one_Some in Er as [Hr _]. destruct (state_eqb (j_State r) Pending) eqn:Ep; cbn [negb] in E; [|inv_w; reflexivity].
  apply bind_Ok in E as (f & d2 & E2 & E). apply bind_Ok in E as (deps & d3 & E3 & E). inv_w. transitivity d2.
  - apply (cancelDependent_calm r x d f d2 Hr); [|done]. now destruct (j_State r).
  - exact (recordResult_calm _ _ _ _ _ E3).
Qed.
#[local] Hint Resolve visit_calm : respects.
Lemma visit_all_calm deps : forall c, respects calm (visit_all c deps).
Proof. induction deps; intros; simpl; calm_auto. Qed.
#[local] Hint Resolve visit_all_calm : respects.
Lemma walk_calm fuel : forall c, respects calm (walk fuel c).
Proof. induction fuel; intros; simpl; calm_auto. Qed.
Lemma promote_all_calm deps : forall a b, respects calm (promote_all a b deps).
Proof. induction deps; intros; simpl; calm_auto. Qed.
Lemma drop_edges_calm f : respects calm (drop_edges f).
Proof. unfold drop_edges. calm_auto. Qed.
#[local] Hint Resolve walk_calm promote_all_calm drop_edges_calm : respects.
Lemma tail_calm done : respects calm (tail done).
Proof. unfold tail. calm_auto. Qed.
#[local] Hint Resolve tail_calm : respects.

Lemma cancelExhausted_calm id : respects calm (cancelExhausted id).
Proof.
  intros x d n d' E. unfold cancelExhausted in E. apply bind_Ok in E as (row & d1 & E1 & E). unfold get in E1. injection E1 as <- <-.
  destruct (one _ _) as [r|] eqn:Er; [|inv_w; reflexivity]. apply one_Some in Er as [Hr Hi]. breflect. apply bind_Ok in E as (f & d2 & E2 & E).
  apply bind_Ok in E as (all & d3 & E3 & E). inv_w. transitivity d2; [|exact (tail_calm _ _ _ _ _ E3)].
  apply (cancelDependent_calm r x d f d2 Hr); [|done]. now destruct (j_State r).
Qed.
#[local] Hint Resolve cancelExhausted_calm : respects.
Lemma promote_each_calm ids : respects calm (promote_each ids).
Proof. induction ids; simpl; calm_auto. Qed.
Lemma cancel_each_calm ids : respects calm (cancel_each ids).
Proof. induction ids; simpl; calm_auto. Qed.
#[local] Hint Resolve promote_each_calm cancel_each_calm : respects.

Lemma WorkflowPromoteReady_calm ids after n seen x d : calm d (snd (WorkflowPromoteReady ids after n seen x d)).
Proof.
  unfold WorkflowPromoteReady. repeat first [reflexivity | case_match]; (destruct (write _ x d) as [r d'] eqn:E; refine (respects_write calm _ _ _ _ _ _ E); calm_auto).
Qed.

(** A result changes the rows of its own job. *)
Lemma applyResult_calm keep r : finalize_state (f_State (re_f r)) = true -> S (f_ID (re_f r)) -> respects calm (applyResult keep r).
Proof.
  intros Hs HS x d o d' E Hw. split; [exact (proj1 (applyResult_advances keep r Hs _ _ _ _ E Hw))|]. unfold applyResult in E.
  apply bind_Ok in E as (row & d1 & (-> & ->)%liveRow_spec & E). destruct (one _ _) as [j|] eqn:Ej; [|inv_w; now intros k].
  apply one_Some in Ej as [Hj Ei]. unfold id_is in Ei. breflect. apply bind_Ok in E as (mine & d2 & E2 & E). rewrite owns_owned in E2. injection E2 as <- <-.
  destruct (negb _); [inv_w; now intros k|]. apply bind_Ok in E as (u & d3 & E3 & E). assert (Hj3 : db_jobs d3 = db_jobs d).
  { destruct (f_Lease (re_f r)); unfold releaseLease in E3; inv_w; done. }
  apply bind_Ok in E as (now & d4 & E4 & E). unfold us in E4. injection E4 as <- <-. apply (runs_on_others _ _ (f_ID (re_f r))); [now left|]. rewrite <- Hj3.
  destruct (Terminal (f_State (re_f r))).
  - apply bind_Ok in E as (u1 & d5 & E5%finish_jobs & E). inv_w. rewrite E5. unfold fin_id. cbn [fin_row]. rewrite Ei. intros k Hk Hne. apply In_del. split; [done|].
    unfold id_is. now apply Z.eqb_neq.
  - apply bind_Ok in E as (later & d5 & E5 & E). unfold at_ in E5. injection E5 as <- <-. apply bind_Ok in E as (u1 & d6 & (_ & ->)%exec_jobs_Ok & E). inv_w.
    intros k Hk Hne. cbn [db_jobs set_field]. apply In_upd. exists k. split; [exact Hk|]. unfold id_is. now rewrite (proj2 (Z.eqb_neq _ _)).
Qed.

Lemma finalizeAll_calm params rs : (forall r, In r rs -> finalize_state (f_State (re_f r)) = true /\ S (f_ID (re_f r))) -> respects calm (finalizeAll params rs).
Proof.
  intros H. unfold finalizeAll. apply respects_bind; [typeclasses eauto| |intros outs; calm_auto].
  apply respects_mapM_In; [typeclasses eauto|]. intros r Hr. destruct (H r Hr). now apply applyResult_calm.
Qed.
End Calm.

(** ** Rescued jobs *)

Definition rescue_params (t : tuning) : JobRescueParams := mkJobRescueParams (tu_RescueStuckAfter t) (tu_rescueBatch t).

(** A candidate is a live row that runs in a client's claim. *)
Lemma candidate_row p now d cand : In cand (JobRescueCandidates p now d) ->
  exists j, In j (db_jobs d) /\ v_job (rc_Job cand) = j /\ is_running j = true /\ not_null (j_AttemptedBy j) = true.
Proof.
  unfold JobRescueCandidates. intros (j & <- & Hj%In_limit)%in_map_iff. apply In_order_by, In_sel in Hj as [Hj Hc]. unfold client_running in Hc. breflect. exists j. done.
Qed.

Lemma candidates_distinct p now d : wf d -> List.NoDup (List.map cand_id (JobRescueCandidates p now d)).
Proof.
  intros [(_ & H & _)%jobs_ok_spec _ _]. unfold JobRescueCandidates. rewrite List.map_map. unfold cand_id. cbn [rc_Job live_view v_job].
  apply limit_NoDup_map. eapply Permutation.Permutation_NoDup; [apply Permutation.Permutation_map; symmetry; apply order_by_perm|].
  clear -H. induction (db_jobs d) as [|j t IH]; [constructor|]. inversion H as [|? ? Hn H']; subst. unfold sel. cbn [List.filter]. destruct (_ && _); [|auto].
  cbn [List.map]. constructor; [|auto]. contradict Hn. apply in_map_iff in Hn as (k & <- & Hk). apply in_map. now apply filter_In in Hk as [Hk _].
Qed.

(** ** Results that end claims

    [released_by f j d]: a result [f] has ended the claim of the row [j]: it waits in the result's state with its attempts, or is
    gone from the live table. *)
Definition released_by (f : JobFinalize) (j : JobRow) (d : DB) : Prop :=
  if Terminal (f_State f) then forall k, In k (db_jobs d) -> j_seq k <> j_seq j
  else exists k, In k (db_jobs d) /\ j_seq k = j_seq j /\ j_ID k = j_ID j /\ j_State k = f_State f /\ j_Attempt k = j_Attempt j /\ j_AttemptedBy k = None.

(** A result of a client's claim that neither snoozes nor gives its attempt back. *)
Record plain_result (f : JobFinalize) : Prop := mkPlainResult {
  pr_lease : f_Lease f = None; pr_snooze : f_Snooze f = false; pr_giveback : f_GiveBack f = false; pr_state : finalize_state (f_State f) = true }.

Lemma finalize_state_settled s : finalize_state s = true -> s <> Pending /\ s <> Running.
Proof. now destruct s. Qed.

Lemma seq_le d d' j : wf d -> advances d d' -> In j (db_jobs d) -> j_seq j <= db_seq d'.
Proof. intros Hw Ha Hj. destruct (Ha Hw) as [_ He]. pose proof (ev_db_seq _ _ He). destruct Hw as [_ Hq _]. rewrite List.Forall_forall in Hq. specialize (Hq j Hj). lia. Qed.

Lemma released_later S f j d d' : wf d -> calm S d d' -> advances d d' -> finalize_state (f_State f) = true -> ~ S (j_ID j) -> j_seq j <= db_seq d ->
  released_by f j d -> released_by f j d'.
Proof.
  intros Hw Hc Ha Hf Hs Hq. destruct (Ha Hw) as [_ He]. unfold released_by. destruct (Terminal _).
  - intros H k Hk E. destruct (ev_rows _ _ He k Hk) as (k0 & Hk0 & Hev); [lia|]. apply (H k0 Hk0). now rewrite <- (ev_seq _ _ Hev).
  - intros (k & Hk & E1 & E2 & E3 & E4). exists k. split; [|done]. apply (Hc Hw); [done| |now rewrite E2]. rewrite E3. now apply finalize_state_settled.
Qed.

Lemma calm_weaken (S S' : JobID -> Prop) d d' : (forall id, S id -> S' id) -> calm S d d' -> calm S' d d'.
Proof. intros H Hc Hw. destruct (Hc Hw) as [Hw' Hr]. split; [done|]. intros j Hj Hp Hs. apply Hr; auto. Qed.

Lemma owned_plain f d d' j : plain_result f -> owned d j f = owned d' j f.
Proof. intros [E _ _ _]. unfold owned. now rewrite E. Qed.

Lemma owned_is_running f d j : plain_result f -> owned d j f = true -> is_running j = true.
Proof. intros [E _ _ _]. unfold owned. rewrite E, !andb_true_iff. tauto. Qed.

Lemma running_settled j : is_running j = true -> j_State j <> Pending.
Proof. unfold is_running. now destruct (j_State j). Qed.

Lemma running_from d d' j : pending_from d d' -> In j (db_jobs d') -> is_running j = true -> In j (db_jobs d).
Proof. intros Hp Hj Hr. apply Hp; [done|]. unfold held_back, is_running in *. now destruct (j_State j). Qed.

Definition res_id (r : result_) : JobID := f_ID (re_f r).

(** The row in the claim a result names. *)
Definition hits (d : DB) (r : result_) (j : JobRow) : Prop := In j (db_jobs d) /\ j_ID j = res_id r /\ owned d j (re_f r) = true.

Lemma hits_dec d r : (exists j, hits d r j) \/ forall j, ~ hits d r j.
Proof.
  destruct (existsb (fun j => id_is (res_id r) j && owned d j (re_f r)) (db_jobs d)) eqn:E.
  - left. apply existsb_exists in E as (j & Hj & E). unfold id_is in E. breflect. exists j. done.
  - right. intros j (Hj & Ei & Ho). apply not_true_iff_false in E. apply E, existsb_exists. exists j. split; [done|]. unfold id_is. now rewrite Ei, Z.eqb_refl.
Qed.

(** A result whose claim is over does nothing. *)
Lemma applyResult_misses keep r x d : (forall j, ~ hits d r j) -> applyResult keep r x d = Ok (None, d).
Proof.
  intros H. unfold applyResult, liveRow, bind, get. destruct (one _ _) as [j|] eqn:Ej; [|done]. apply one_Some in Ej as [Hj Ei]. unfold id_is in Ei. breflect.
  rewrite owns_owned. destruct (owned d j (re_f r)) eqn:Eo; [|done]. now destruct (H j).
Qed.

(** One that hits ends it. *)
Lemma applyResult_releases keep r j x d : wf d -> plain_result (re_f r) -> hits d r j ->
  exists rep out d', applyResult keep r x d = Ok (Some (rep, out), d') /\ fd_Cascaded rep = false /\ released_by (re_f r) j d'.
Proof.
  intros Hw [_ E5 E6 Hs] (Hj & Ei & Ho). destruct (applyResult_effect keep r j x d Hw Hj Ei Ho Hs) as (out & d' & E & H).
  exists (mkJobFinalized (f_ID (re_f r)) (fence_of (re_f r)) false), out, d'. split; [exact E|]. split; [reflexivity|]. unfold released_by.
  destruct (Terminal (f_State (re_f r))).
  - destruct H as (_ & Hd & _). intros k Hk Es. rewrite Hd in Hk. apply In_del in Hk as [Hk Hne]. unfold id_is in Hne. apply Z.eqb_neq in Hne. apply Hne.
    f_equal. exact (wf_unique_seq d k j Hw Hk Hj Es).
  - destruct H as (_ & _ & j' & [] & Hin). exists j'. rewrite E5, E6 in rl_attempt. cbn in rl_attempt. split; [apply Hin; now left|]. split_and!; assumption.
Qed.

Definition reports (outs : list (option (JobFinalized * option finished))) : list JobFinalized :=
  List.flat_map (fun o => match o with Some (rep, _) => [rep] | None => [] end) outs.

(** Results of distinct jobs: each whose claim lasts ends it, nothing else that is settled changes, and there is a report if and only if
    one hit. *)
Record results_end (rs : list result_) (d d' : DB) (reps : list JobFinalized) : Prop := mkResultsEnd {
  re_released : forall r j, In r rs -> hits d r j -> released_by (re_f r) j d';
  re_calm : calm (fun id => exists r j, In r rs /\ hits d r j /\ j_ID j = id) d d';
  re_some : (exists r j, In r rs /\ hits d r j) <-> reps <> [];
  re_own : Forall (fun rep => fd_Cascaded rep = false) reps }.

Lemma hits_back d d1 r j : pending_from d d1 -> plain_result (re_f r) -> hits d1 r j -> hits d r j.
Proof.
  intros Hp Hf (Hj & Ei & Ho). split_and!; [|done|now rewrite (owned_plain _ d d1)]. apply (running_from d d1); [done..|]. exact (owned_is_running _ _ _ Hf Ho).
Qed.

Lemma applyResults_end keep rs : (forall r, In r rs -> plain_result (re_f r)) -> List.NoDup (List.map res_id rs) -> forall x d outs d', wf d ->
  mapM (applyResult keep) rs x d = Ok (outs, d') -> results_end rs d d' (reports outs).
Proof.
  induction rs as [|r rs IH]; intros Hpl Hn x d outs d' Hw E; cbn [mapM] in E.
  { unfold ret in E. injection E as <- <-. split; [done|reflexivity|split; [intros (? & ? & [] & _)|done]|constructor]. }
  inversion Hn as [|? ? Hni Hn']; subst. apply bind_Ok in E as (o & d1 & E1 & E). apply bind_Ok in E as (os & d2 & E2 & E). unfold ret in E. injection E as <- <-.
  pose proof (Hpl r (or_introl eq_refl)) as Hr. assert (Hpl' : forall r', In r' rs -> plain_result (re_f r')) by (intros r' H'; apply Hpl; now right).
  destruct (applyResult_advances keep r (pr_state _ Hr) _ _ _ _ E1 Hw) as [Hw1 Hev1]. destruct (IH Hpl' Hn' x d1 os d2 Hw1 E2) as [I1 I2 I3 I4].
  pose proof (applyResult_pending keep r (pr_state _ Hr) _ _ _ _ E1) as Hp1.
  assert (Ha2 : advances d1 d2) by (refine (respects_mapM_In advances (applyResult keep) rs _ _ _ _ _ E2); intros r' H'; apply applyResult_advances, (pr_state _ (Hpl' r' H'))).
  pose proof (applyResult_calm (eq (res_id r)) keep r (pr_state _ Hr) eq_refl _ _ _ _ E1) as Hc1.
  assert (Hfwd : forall r' j, In r' rs -> hits d r' j -> hits d1 r' j).
  { intros r' j H' (Hj & Ei & Ho). split_and!; [|done|now rewrite (owned_plain _ d1 d) by auto]. apply (Hc1 Hw); [done|exact (running_settled _ (owned_is_running _ _ _ (Hpl' r' H') Ho))|].
    rewrite Ei. intros Heq. apply Hni. rewrite Heq. now apply (in_map res_id). }
  assert (Hbwd : forall r' j, In r' rs -> hits d1 r' j -> hits d r' j) by (intros r' j H'; apply hits_back; auto).
  assert (Hrest : calm (fun id => exists r' j, In r' (r :: rs) /\ hits d r' j /\ j_ID j = id) d1 d2).
  { eapply calm_weaken; [|exact I2]. intros id (r' & j & H' & Hh & Ej). exists r', j. split_and!; [now right|auto|done]. }
  destruct (hits_dec d r) as [[j Hj]|Hno].
  - destruct (applyResult_releases keep r j x d Hw Hr Hj) as (rep & out & d1' & E1' & Ec & Hf). rewrite E1 in E1'. injection E1' as -> <-.
    assert (Hid : forall j', hits d r j' -> j' = j) by (intros j' (Hj' & Ei' & _); destruct Hj as (Hj & Ei & _); apply (wf_unique_id d); congruence).
    split.
    + intros r' j' [<-|H'] Hh; [|apply I1; auto]. rewrite (Hid j' Hh). eapply released_later; [exact Hw1|exact I2|done|apply Hr| |exact (seq_le _ _ _ Hw (applyResult_advances keep r (pr_state _ Hr) _ _ _ _ E1) (proj1 Hj))|done].
      intros (r' & k & H' & (_ & Ek & _) & Ej). apply Hni. destruct Hj as (_ & Ei & _). rewrite <- Ei, <- Ej, Ek. now apply (in_map res_id).
    + transitivity d1; [|done]. eapply calm_weaken; [|exact Hc1]. intros id <-. exists r, j. split_and!; [now left|done|apply Hj].
    + split; [done|]. intros _. exists r, j. split; [now left|done].
    + constructor; done.
  - rewrite (applyResult_misses keep r x d Hno) in E1. injection E1 as <- <-. split.
    + intros r' j' [<-|H'] Hh; [now destruct (Hno j')|]. now apply I1.
    + exact Hrest.
    + cbn. fold (reports os). rewrite <- I3. split; intros (r' & j & H' & Hh); exists r', j; [|split; [now right|done]]. destruct H' as [<-|H']; [now destruct (Hno j)|done].
    + exact I4.
Qed.

(** The statement of a rescue on the rows it finds. *)
Record ends_claims (fs : list JobFinalize) (d d' : DB) : Prop := mkEndsClaims {
  ec_released : forall f j, In f fs -> In j (db_jobs d) -> j_ID j = f_ID f -> owned d j f = true -> released_by f j d';
  ec_kept : forall j, In j (db_jobs d) -> j_State j <> Pending -> (forall f, In f fs -> j_ID j = f_ID f -> owned d j f = false) -> In j (db_jobs d') }.

Lemma splitCascaded_own reps more : Forall (fun rep => fd_Cascaded rep = false) reps -> Forall (fun rep => fd_Cascaded rep = true) more ->
  fst (splitCascaded (reps ++ more)) = reps.
Proof.
  intros H1 H2. unfold splitCascaded. cbn [fst]. rewrite List.filter_app. replace (List.filter _ more) with (@nil JobFinalized).
  - rewrite app_nil_r. induction H1 as [|rep reps E H1 IH]; [done|]. cbn. rewrite E. cbn. now rewrite IH.
  - induction H2 as [|rep more E H2 IH]; [done|]. cbn. now rewrite E.
Qed.

Lemma JobFinalizeMany_ends p x d out d' : wf d -> List.NoDup (List.map f_ID (fp_Jobs p)) -> fp_Jobs p <> [] -> (forall f, In f (fp_Jobs p) -> plain_result f) ->
  JobFinalizeMany p false x d = (Ok out, d') ->
  ends_claims (fp_Jobs p) d d'
  /\ (fst (splitCascaded out) <> [] <-> exists f j, In f (fp_Jobs p) /\ In j (db_jobs d) /\ j_ID j = f_ID f /\ owned d j f = true).
Proof.
  intros Hw Hn Hne Hpl E. unfold JobFinalizeMany in E. destruct (fp_Jobs p) as [|f0 fs] eqn:Ef; [done|]. rewrite <- Ef in *.
  destruct (encodeResults (fp_Jobs p)) as [rs|e] eqn:Ee; [|discriminate E]. destruct (leased f0 && _); [discriminate E|].
  destruct (existsb _ _); [discriminate E|]. rewrite andb_false_r in E. unfold write in E. destruct (finalizeAll p rs x d) as [[o d1]|] eqn:Ea; [|discriminate E].
  injection E as <- <-. apply encodeResults_f in Ee. unfold finalizeAll in Ea. apply bind_Ok in Ea as (outs & d2 & E2 & Ea). fold (reports outs) in Ea.
  assert (Hrs : forall r, In r rs -> plain_result (re_f r)) by (intros r Hin; apply Hpl; rewrite <- Ee; now apply in_map).
  assert (Hids : List.map res_id rs = List.map f_ID (fp_Jobs p)) by (rewrite <- Ee, List.map_map; done).
  destruct (applyResults_end _ rs Hrs ltac:(now rewrite Hids) x d outs d2 Hw E2) as [R1 R2 R3 R4].
  assert (Ha2 : advances d d2) by (refine (respects_mapM_In advances (applyResult _) rs _ _ _ _ _ E2); intros r Hin; apply applyResult_advances, (pr_state _ (Hrs r Hin))).
  assert (Htail : calm (fun _ => False) d2 d1 /\ advances d2 d1 /\ exists more, o = reports outs ++ more /\ Forall (fun rep => fd_Cascaded rep = true) more).
  { destruct (fp_NoBatches p); [unfold ret in Ea; injection Ea as <- <-; split_and!; [reflexivity|reflexivity|exists []; rewrite app_nil_r; done]|].
    apply bind_Ok in Ea as (all & d3 & E3 & Ea). unfold ret in Ea. injection Ea as <- <-.
    split_and!; [exact (tail_calm _ _ _ _ _ _ E3)|exact (tail_advances _ _ _ _ _ E3)|]. eexists. split; [reflexivity|]. apply List.Forall_map, List.Forall_forall. done. }
  destruct Htail as (T1 & T2 & more & -> & Hm). rewrite (splitCascaded_own _ _ R4 Hm), <- R3. split; [split|].
  - intros f j Hf Hj Ei Ho. rewrite <- Ee in Hf. apply in_map_iff in Hf as (r & <- & Hin). apply (released_later (fun _ => False) _ j d2); [exact (proj1 (Ha2 Hw))|done|done|apply (Hrs r Hin)|tauto|exact (seq_le _ _ _ Hw Ha2 Hj)|].
    apply R1; done.
  - intros j Hj Hp Hf. apply (T1 (proj1 (Ha2 Hw))); [|done|tauto]. apply (R2 Hw); [done..|]. intros (r & k & Hr & (Hk & Ek & Ho) & Ej).
    assert (k = j) as -> by exact (wf_unique_id d k j Hw Hk Hj Ej). rewrite Hf in Ho; [done| |done]. rewrite <- Ee. now apply in_map.
  - split; [intros (r & j & Hr & Hj & Ei & Ho)|intros (f & j & Hf & Hj & Ei & Ho)].
    + exists (re_f r), j. split_and!; [rewrite <- Ee; now apply in_map|done..].
    + rewrite <- Ee in Hf. apply in_map_iff in Hf as (r & <- & Hr). exists r, j. done.
Qed.

(** ** A round of the rescue *)

#[export] Instance clients_beside : JobSide db_clients.
Proof. split; reflexivity. Qed.

Lemma JobFinalizeMany_pending p busy x d : pending_from d (snd (JobFinalizeMany p busy x d)).
Proof.
  unfold JobFinalizeMany. destruct (fp_Jobs p) as [|f0 fs] eqn:Ef; [reflexivity|]. rewrite <- Ef. destruct (encodeResults (fp_Jobs p)) as [rs|e] eqn:Ee; [|reflexivity].
  destruct (_ && _); [reflexivity|]. destruct (existsb _ _); [reflexivity|]. destruct (_ && busy); [reflexivity|]. destruct (write _ x d) as [r d'] eqn:E.
  refine (respects_write pending_from _ _ _ _ _ _ E). unfold finalizeAll. apply respects_bind; [typeclasses eauto| |].
  - apply respects_mapM_In; [typeclasses eauto|]. intros r0 Hr. apply applyResult_pending. now apply (encodeResults_state _ _ Ee).
  - intros outs. cbv zeta. destruct (fp_NoBatches p); [apply respects_ret; typeclasses eauto|]. apply respects_bind; [typeclasses eauto|apply tail_pending|].
    intros all. apply respects_ret. typeclasses eauto.
Qed.

Lemma JobFinalizeMany_calm p busy x d : calm (fun id => In id (List.map f_ID (fp_Jobs p))) d (snd (JobFinalizeMany p busy x d)).
Proof.
  unfold JobFinalizeMany. destruct (fp_Jobs p) as [|f0 fs] eqn:Ef; [reflexivity|]. rewrite <- Ef. destruct (encodeResults (fp_Jobs p)) as [rs|e] eqn:Ee; [|reflexivity].
  destruct (_ && _); [reflexivity|]. destruct (existsb _ _); [reflexivity|]. destruct (_ && busy); [reflexivity|]. destruct (write _ x d) as [r d'] eqn:E.
  refine (respects_write _ _ _ _ _ _ _ E). apply finalizeAll_calm. intros r0 Hr. split; [now apply (encodeResults_state _ _ Ee)|].
  rewrite <- (encodeResults_f _ _ Ee), List.map_map. now apply (in_map (fun r => f_ID (re_f r))).
Qed.

Lemma cancelExhausted_pending id : respects pending_from (cancelExhausted id).
Proof.
  unfold cancelExhausted. apply respects_bind; [typeclasses eauto|apply respects_get; typeclasses eauto|]. intros [r|]; [|apply respects_ret; typeclasses eauto].
  apply respects_bind; [typeclasses eauto| |intros f; apply respects_bind; [typeclasses eauto|apply tail_pending|intros; apply respects_ret; typeclasses eauto]].
  unfold cancelDependent. apply respects_bind; [typeclasses eauto|apply respects_us; typeclasses eauto|]. intros now. cbv zeta.
  apply respects_bind; [typeclasses eauto|apply finish_pending|]. intros. apply respects_ret. typeclasses eauto.
Qed.

Lemma WorkflowPromoteReady_pending ids after n seen x d : pending_from d (snd (WorkflowPromoteReady ids after n seen x d)).
Proof.
  assert (Hp : forall l, respects pending_from (promote_each l)).
  { induction l; cbn [promote_each]; [apply respects_ret; typeclasses eauto|]. apply respects_bind; [typeclasses eauto|apply promoteIfReady_pending|]. intros b.
    apply respects_bind; [typeclasses eauto|done|]. intros. apply respects_ret. typeclasses eauto. }
  assert (Hc : forall l, respects pending_from (cancel_each l)).
  { induction l; cbn [cancel_each]; [apply respects_ret; typeclasses eauto|]. apply respects_bind; [typeclasses eauto|apply cancelExhausted_pending|]. intros b.
    apply respects_bind; [typeclasses eauto|done|]. intros. apply respects_ret. typeclasses eauto. }
  unfold WorkflowPromoteReady. repeat first [reflexivity | case_match]; (destruct (write _ x d) as [r d'] eqn:E; refine (respects_write pending_from _ _ _ _ _ _ E);
    apply respects_bind; [typeclasses eauto|apply Hp|]; intros; apply respects_bind; [typeclasses eauto|apply Hc|]; intros; apply respects_ret; typeclasses eauto).
Qed.

Definition running (d : DB) : list JobRow := List.filter is_running (db_jobs d).

Lemma In_running d j : In j (running d) <-> In j (db_jobs d) /\ is_running j = true.
Proof. unfold running. apply filter_In. Qed.

Lemma running_incl d d' : pending_from d d' -> incl (running d') (running d).
Proof. intros Hp j [Hj Hr]%In_running. apply In_running. split; [exact (running_from d d' j Hp Hj Hr)|done]. Qed.

Lemma running_NoDup d : wf d -> List.NoDup (running d).
Proof. intros [(_ & Hn & _)%jobs_ok_spec _ _]. apply List.NoDup_filter. exact (NoDup_map_inv _ _ Hn). Qed.

Lemma running_le d d' : wf d' -> pending_from d d' -> (List.length (running d') <= List.length (running d))%nat.
Proof. intros Hw Hp. apply List.NoDup_incl_length; [now apply running_NoDup|now apply running_incl]. Qed.

Lemma running_fewer d d' j : wf d' -> pending_from d d' -> In j (running d) -> ~ In j (db_jobs d') -> (List.length (running d') < List.length (running d))%nat.
Proof.
  intros Hw Hp Hj Hg. apply (List.NoDup_incl_length (l := j :: running d')).
  - constructor; [contradict Hg; now apply In_running in Hg|now apply running_NoDup].
  - intros k [<-|Hk]; [done|now apply (running_incl d d')].
Qed.

(** The claim a row was in is over: the row is gone, or does not run, or runs in a later claim. *)
Definition claim_over (j : JobRow) (d : DB) : Prop :=
  forall k, In k (db_jobs d) -> j_seq k = j_seq j -> j_Fence j <= j_Fence k /\ (is_running k = true -> j_Fence j < j_Fence k).

Lemma row_evolves d d' j k : wf d -> advances d d' -> In j (db_jobs d) -> In k (db_jobs d') -> j_seq k = j_seq j -> evolve j k.
Proof.
  intros Hw Ha Hj Hk E. destruct (Ha Hw) as [_ He]. destruct (ev_rows _ _ He k Hk) as (k0 & Hk0 & Hev).
  { rewrite E. destruct Hw as [_ Hq _]. rewrite List.Forall_forall in Hq. auto. }
  assert (k0 = j) as <-; [|done]. apply (wf_unique_seq d); [done..|]. rewrite <- (ev_seq _ _ Hev). done.
Qed.

Lemma claim_over_later j d d' : wf d -> advances d d' -> j_seq j <= db_seq d -> claim_over j d -> claim_over j d'.
Proof.
  intros Hw Ha Hq H k Hk Es. destruct (Ha Hw) as [_ He]. destruct (ev_rows _ _ He k Hk) as (k0 & Hk0 & [E1 _ _ _ _ _ _ _ _ Eg Ec]); [lia|].
  destruct (H k0 Hk0) as [H1 H2]; [congruence|]. split; [lia|]. intros Hr. destruct (Z.eq_dec (j_Fence k) (j_Fence k0)) as [E|Hne]; [|lia].
  destruct (Ec Hr E) as (Hr0 & _). specialize (H2 Hr0). lia.
Qed.

Lemma released_over f j d d' : wf d -> advances d d' -> In j (db_jobs d) -> finalize_state (f_State f) = true -> released_by f j d' -> claim_over j d'.
Proof.
  intros Hw Ha Hj Hs Hf k Hk Es. pose proof (row_evolves d d' j k Hw Ha Hj Hk Es) as Hev. split; [apply Hev|]. intros Hr. exfalso. unfold released_by in Hf.
  destruct (Terminal _); [now apply (Hf k Hk)|]. destruct Hf as (k' & Hk' & Es' & _ & Est & _).
  assert (k' = k) as -> by (apply (wf_unique_seq d'); [apply (Ha Hw)|done|done|congruence]). unfold is_running in Hr. rewrite Est in Hr. now destruct (f_State f).
Qed.

Lemma JobFinalizeMany_Err p busy x d e d' : JobFinalizeMany p busy x d = (Err e, d') -> d' = d.
Proof.
  unfold JobFinalizeMany. repeat case_match; try congruence. unfold write. case_match; congruence || (case_match; congruence).
Qed.

Lemma JobFinalizeMany_busy p x d out d' : fp_SkipLocked p = true -> JobFinalizeMany p true x d = (Ok out, d') -> d' = d /\ out = [].
Proof. unfold JobFinalizeMany. intros ->. repeat case_match; intros ?; simplify_eq; done. Qed.

Section Round.
Context (t : tuning) (calls : nat -> call).

Definition call_now (k : nat) : Z := w_now (cl_w (calls k)).
Definition read_at (k : nat) (d : DB) : list RescueCandidate := JobRescueCandidates (rescue_params t) (call_now k) d.

Definition stuck_before (now : Z) : Z := if tu_RescueStuckAfter t >? 0 then (now * 1000 - tu_RescueStuckAfter t) / 1000 else - 2 ^ 63.

(** Whether a row is one to rescue: it runs in a claim that has lasted too long, or whose client has no live lease. *)
Definition to_rescue (now : Z) (d : DB) (j : JobRow) : Prop :=
  client_running j = true /\ (is_stuck (stuck_before now) j = true \/ forall c, In c (db_clients d) -> j_AttemptedBy j = Some (c_id c) -> c_expires_at c <= now).

Lemma lost_iff now d j :
  negb (ex (fun c => null_eq Z.eqb (Some (c_id c)) (j_AttemptedBy j) && (c_expires_at c >? now)) (db_clients d)) = true
  <-> forall c, In c (db_clients d) -> j_AttemptedBy j = Some (c_id c) -> c_expires_at c <= now.
Proof.
  rewrite negb_true_iff, <- not_true_iff_false. unfold ex. rewrite existsb_exists. split.
  - intros H c Hc Ea. destruct (Z.le_gt_cases (c_expires_at c) now); [done|]. destruct H. exists c. split; [done|]. rewrite Ea. cbn. rewrite Z.eqb_refl, Z.gtb_ltb. now apply Z.ltb_lt.
  - intros H (c & Hc & Hl). breflect. unfold null_eq in *. destruct (j_AttemptedBy j) as [b|] eqn:Ea; [|discriminate]. breflect. specialize (H c Hc). rewrite H0 in H. specialize (H eq_refl). lia.
Qed.

Lemma In_read_at k d cand : In cand (read_at k d) -> In (v_job (rc_Job cand)) (db_jobs d) /\ to_rescue (call_now k) d (v_job (rc_Job cand)).
Proof.
  unfold read_at, JobRescueCandidates. intros (j & <- & Hj%In_limit)%in_map_iff. apply In_order_by, In_sel in Hj as [Hj Hc]. apply andb_true_iff in Hc as [Hr Hc].
  split; [done|]. split; [done|]. apply orb_true_iff in Hc as [Hc|Hc]; [left; exact Hc|right; exact (proj1 (lost_iff _ _ _) Hc)].
Qed.

Lemma limit_whole {A} n (l : list A) : Z.of_nat (List.length (limit n l)) < n -> limit n l = l.
Proof. unfold limit. destruct (n <? 0) eqn:E; [done|]. rewrite List.length_firstn. breflect. intros H. apply List.firstn_all2. lia. Qed.

Lemma read_at_all k d j : Z.of_nat (List.length (read_at k d)) < tu_rescueBatch t -> In j (db_jobs d) -> to_rescue (call_now k) d j ->
  exists cand, In cand (read_at k d) /\ v_job (rc_Job cand) = j.
Proof.
  unfold read_at, JobRescueCandidates. rewrite length_map. intros Hl%limit_whole Hj [Hr Hc]. cbn [rs_Limit rescue_params] in *. rewrite Hl.
  exists (mkRescueCandidate (live_view j) (is_stuck (stuck_before (call_now k)) j)). split; [|done]. apply in_map_iff. exists j. split; [done|].
  apply In_order_by, In_sel. split; [done|]. rewrite Hr. apply orb_true_iff. destruct Hc as [Hc|Hc]; [left; exact Hc|right; exact (proj2 (lost_iff _ _ _) Hc)].
Qed.

(** The tables a statement finds: the others have written since the last. *)
Definition found (s : duty) : DB := cl_others (calls (du_calls s)) (du_db s).

(** What a round looks at, and the results it writes. *)
Definition looked (s : duty) : list RescueCandidate := read_at (du_calls s) (found s).
Definition results_of (s : duty) : list JobFinalize := List.map rescue_result (looked s).

(** A statement runs at its call, on what it finds, or fails and changes nothing. *)
Lemma stmt_cases {A} (op : call -> DB -> result A * DB) s r s' : stmt calls op s = (r, s') ->
  du_calls s' = S (du_calls s) /\ du_logged s' = du_logged s
  /\ ((exists e, r = Err e /\ du_db s' = found s) \/ op (calls (du_calls s)) (found s) = (r, du_db s')).
Proof.
  unfold stmt. destruct (cl_fail _) as [e|]; [intros [= <- <-]; cbn; eauto 8|]. destruct (op _ _) as [r0 d0] eqn:E. intros [= <- <-]. cbn. split_and!; [done..|]. now right.
Qed.

(** The other clients' writes are the engine's operations; from the [k]th statement on, they start at most [left k] jobs. *)
Context (left : nat -> nat).
Hypothesis others_step : forall k d, steps d (cl_others (calls k) d).
Hypothesis others_start : forall k d, (List.length (running (cl_others (calls k) d)) + left (S k) <= List.length (running d) + left k)%nat.

Definition measure (s : duty) : nat := (List.length (running (du_db s)) + left (du_calls s))%nat.

Record later (s s' : duty) : Prop := mkLater {
  la_steps : steps (du_db s) (du_db s');
  la_measure : (measure s' <= measure s)%nat;
  la_calls : (du_calls s <= du_calls s')%nat;
  la_logged : (List.length (du_logged s) <= List.length (du_logged s'))%nat }.

Lemma later_refl s : later s s.
Proof. split; [apply rtc_refl|lia|lia|lia]. Qed.
Lemma later_trans s1 s2 s3 : later s1 s2 -> later s2 s3 -> later s1 s3.
Proof. intros [] []. split; [now transitivity (du_db s2)|lia|lia|lia]. Qed.

Lemma steps_wf d d' : steps d d' -> wf d -> wf d'.
Proof. intros H Hw. exact (proj1 (steps_advances _ _ H Hw)). Qed.

(** A statement that starts no job. *)
Lemma stmt_later {A} (op : call -> DB -> result A * DB) s r s' : wf (du_db s) ->
  (forall c d, wf d -> steps d (snd (op c d)) /\ pending_from d (snd (op c d))) -> stmt calls op s = (r, s') ->
  later s s' /\ (du_calls s < du_calls s')%nat /\ du_logged s' = du_logged s.
Proof.
  intros Hw Hop E. apply stmt_cases in E as (E1 & E2 & E3). pose proof (others_step (du_calls s) (du_db s)) as Ho. fold (found s) in Ho.
  pose proof (others_start (du_calls s) (du_db s)) as Hs. fold (found s) in Hs. split; [|split; [lia|done]].
  assert (H : steps (found s) (du_db s') /\ (List.length (running (du_db s')) <= List.length (running (found s)))%nat).
  { destruct E3 as [(e & _ & ->)|E3]; [split; [apply rtc_refl|lia]|]. destruct (Hop (calls (du_calls s)) (found s) (steps_wf _ _ Ho Hw)) as [H1 H2]. rewrite E3 in H1, H2. cbn in H1, H2.
    split; [done|]. apply running_le; [|done]. exact (steps_wf _ _ H1 (steps_wf _ _ Ho Hw)). }
  destruct H as [H1 H2]. split; [now transitivity (found s)|unfold measure; rewrite E1; lia|lia|rewrite E2; lia].
Qed.

Lemma log_error_later e s : later s (log_error e s).
Proof. split; [apply rtc_refl|apply le_n|apply le_n|cbn; lia]. Qed.

Lemma ClientRegister_pending p x d : pending_from d (snd (ClientRegister p x d)).
Proof. unfold ClientRegister. case_match; [|now intros j]. now intros j. Qed.

Lemma fence_self_later s : wf (du_db s) -> later s (fence_self t calls s) /\ (du_calls s < du_calls (fence_self t calls s))%nat.
Proof.
  intros Hw. unfold fence_self. destruct (stmt _ _ s) as [r s'] eqn:E. apply stmt_later in E as (E1 & E2 & _); [|done|].
  - destruct r as [id|e]; [split; [destruct E1; now split|done]|]. split; [exact (later_trans _ _ _ E1 (log_error_later e s'))|done].
  - intros c d _. split; [apply rtc_once; constructor|apply ClientRegister_pending].
Qed.

Lemma promote_dependents_later ids s : wf (du_db s) -> later s (promote_dependents calls ids s).
Proof.
  intros Hw. unfold promote_dependents. destruct (stmt _ _ s) as [r s'] eqn:E. apply stmt_later in E as (E1 & E2 & _); [|done|].
  - destruct r as [id|e]; [done|]. exact (later_trans _ _ _ E1 (log_error_later e s')).
  - intros c d _. split; [apply rtc_once; constructor|apply WorkflowPromoteReady_pending].
Qed.

Lemma rescue_result_fields cand : let f := rescue_result cand in let j := v_job (rc_Job cand) in
  f_ID f = j_ID j /\ f_AttemptedBy f = AttemptedBy j /\ f_Fence f = j_Fence j /\ f_Lease f = None /\ f_Snooze f = false /\ f_GiveBack f = false
  /\ f_State f = (if j_MaxAttempts j <=? j_Attempt j then Discarded else Retryable).
Proof. unfold rescue_result. destruct (rescue_reason cand). done. Qed.

Lemma rescue_result_plain cand : plain_result (rescue_result cand).
Proof. pose proof (rescue_result_fields cand) as (_ & _ & _ & E4 & E5 & E6 & E7). split; [done..|]. rewrite E7. now destruct (_ <=? _). Qed.

Lemma rescue_result_owned d cand j : owned d j (rescue_result cand) = true <->
  is_running j = true /\ AttemptedBy j <> 0 /\ AttemptedBy j = AttemptedBy (v_job (rc_Job cand)) /\ j_Fence j = j_Fence (v_job (rc_Job cand)).
Proof.
  pose proof (rescue_result_fields cand) as (_ & E2 & E3 & E4 & _). unfold owned. rewrite E4, E2, E3, !andb_true_iff, negb_true_iff, Z.eqb_neq, !Z.eqb_eq. tauto.
Qed.

(** ** One round *)

(** The tables before and after the round's write, and whether it applied any result. *)
Record round_ok (s : duty) (again : bool) (s' : duty) (d d' : DB) (wrote : bool) : Prop := mkRoundOk {
  rk_before : steps (found s) d;
  rk_after : steps d' (du_db s');
  rk_wrote : wrote = true -> step d d' /\ ends_claims (results_of s) d d';
  rk_not : wrote = false -> d' = d;
  rk_later : later s s';
  rk_again : again = true -> (measure s' < measure s)%nat;
  rk_last : again = false -> List.length (du_logged s') = List.length (du_logged s) -> (forall k, cl_busy (calls k) = false) ->
    looked s = [] \/ (wrote = true /\ (Z.of_nat (List.length (looked s)) < tu_rescueBatch t
      \/ forall f j, In f (results_of s) -> In j (db_jobs d) -> j_ID j = f_ID f -> owned d j f = false)) }.

Lemma results_NoDup s : wf (found s) -> List.NoDup (List.map f_ID (results_of s)).
Proof.
  intros Hw. unfold results_of. rewrite List.map_map. erewrite List.map_ext; [exact (candidates_distinct _ _ _ Hw)|]. intros cand. apply rescue_result_fields.
Qed.

(** The statement that ends the claims: an error or a lock held leave all as it was; one that applied a result leaves fewer jobs running. *)
Lemma rescue_write p busy x d r d' cands : wf d -> fp_Jobs p = List.map rescue_result cands -> fp_SkipLocked p = true -> cands <> [] ->
  List.NoDup (List.map f_ID (fp_Jobs p)) -> JobFinalizeMany p busy x d = (r, d') ->
  pending_from d d' /\ step d d'
  /\ match r with
     | Err _ => d' = d
     | Ok out => if busy then d' = d /\ out = []
                 else ends_claims (fp_Jobs p) d d' /\ (fst (splitCascaded out) <> [] -> (List.length (running d') < List.length (running d))%nat)
                   /\ (fst (splitCascaded out) = [] -> forall f j, In f (fp_Jobs p) -> In j (db_jobs d) -> j_ID j = f_ID f -> owned d j f = false)
     end.
Proof.
  intros Hw Ep Esk Hne Hn E. pose proof (JobFinalizeMany_pending p busy x d) as Hp. pose proof (step_JobFinalizeMany p busy x d) as Hs. rewrite E in Hp, Hs. cbn in Hp, Hs.
  split; [done|]. split; [done|]. destruct r as [out|e]; [|exact (JobFinalizeMany_Err _ _ _ _ _ _ E)]. destruct busy; [now apply (JobFinalizeMany_busy p x d)|].
  assert (Hpl : forall f, In f (fp_Jobs p) -> plain_result f) by (rewrite Ep; intros f (cand & <- & _)%in_map_iff; apply rescue_result_plain).
  destruct (JobFinalizeMany_ends p x d out d' Hw Hn ltac:(rewrite Ep; now destruct cands) Hpl E) as [He Ho]. split; [done|].
  split; [|intros Hnil f j Hf Hj Ei; apply not_true_is_false; intros Hown; apply (proj2 Ho); [eauto 8|done]].
  intros (f & j & Hf & Hj & Ei & Hown)%Ho. pose proof (owned_is_running _ _ _ (Hpl f Hf) Hown) as Hr.
  pose proof (step_advances _ _ Hs) as Ha. apply (running_fewer d d' j); [apply (Ha Hw)|done|now apply In_running|]. intros Hj'.
  pose proof (released_over f j d d' Hw Ha Hj (pr_state _ (Hpl f Hf)) (ec_released _ _ _ He f j Hf Hj Ei Hown) j Hj' eq_refl) as [_ H]. specialize (H Hr). lia.
Qed.

Lemma rescue_round_ok s again s' : wf (du_db s) -> rescue_round t calls s = (again, s') -> exists d d' wrote, round_ok s again s' d d' wrote.
Proof.
  intros Hw E. pose proof (steps_wf _ _ (others_step (du_calls s) (du_db s)) Hw) as Hwf. fold (found s) in Hwf.
  unfold rescue_round in E. destruct (stmt calls _ s) as [r s1] eqn:E1. pose proof E1 as E1'. apply stmt_cases in E1 as (C1 & L1 & D1).
  apply stmt_later in E1' as (T1 & _ & _); [|done|intros c d _; split; [apply rtc_refl|now intros j]].
  assert (D1' : du_db s1 = found s /\ ((exists e, r = Err e) \/ r = Ok (looked s))).
  { destruct D1 as [(e & -> & ->)|D1]; [eauto|]. injection D1 as <- <-. auto. }
  clear D1. destruct D1' as [D1 Hr]. destruct r as [cs|e].
  2: { injection E as <- <-. exists (found s), (found s), false. split; [apply rtc_refl|cbn; rewrite D1; apply rtc_refl|done|done|exact (later_trans _ _ _ T1 (log_error_later e s1))|done|].
       intros _ Hl. exfalso. cbn in Hl. rewrite L1 in Hl. lia. }
  destruct Hr as [[e [=]]|[= ->]]. destruct (looked s) as [|c0 cs] eqn:Ec.
  { injection E as <- <-. exists (found s), (found s), false. split; [apply rtc_refl|rewrite D1; apply rtc_refl|done|done|done|done|]. intros _ _ _. now left. }
  rewrite <- Ec in E. set (s2 := if existsb _ (looked s) then fence_self t calls s1 else s1) in E.
  assert (T2 : later s1 s2) by (unfold s2; destruct (existsb _ _); [apply fence_self_later; now rewrite D1|apply later_refl]).
  clearbody s2. set (p := mkJobFinalizeParams _ _ true 0) in E. assert (Hw1 : wf (du_db s1)) by now rewrite D1.
  assert (Hw2 : wf (du_db s2)) by exact (steps_wf _ _ (la_steps _ _ T2) Hw1).
  pose proof (steps_wf _ _ (others_step (du_calls s2) (du_db s2)) Hw2) as Hwf2. fold (found s2) in Hwf2.
  destruct (stmt calls _ s2) as [r3 s3] eqn:E3. pose proof E3 as E3'. apply stmt_cases in E3' as (C3 & L3 & D3).
  assert (Hn : List.NoDup (List.map f_ID (fp_Jobs p))) by exact (results_NoDup s Hwf).
  assert (Hne : looked s <> []) by (rewrite Ec; done).
  pose proof (fun r d' => rescue_write p (cl_busy (calls (du_calls s2))) (cl_w (calls (du_calls s2))) (found s2) r d' (looked s) Hwf2 eq_refl eq_refl Hne Hn) as HW.
  assert (T3 : later s2 s3).
  { apply stmt_later in E3; [apply E3|done|]. intros c d Hd. destruct (JobFinalizeMany p (cl_busy c) (cl_w c) d) as [r d'] eqn:Ej.
    destruct (rescue_write p _ _ _ _ _ (looked s) Hd eq_refl eq_refl Hne Hn Ej) as (H1 & H2 & _). split; [now apply rtc_once|done]. }
  assert (T : later s s3) by exact (later_trans _ _ _ T1 (later_trans _ _ _ T2 T3)).
  assert (B : steps (found s) (found s2)) by (rewrite <- D1; transitivity (du_db s2); [apply T2|apply others_step]).
  destruct r3 as [out|e].
  2: { injection E as <- <-. assert (Ed : du_db s3 = found s2) by (destruct D3 as [(e' & _ & ->)|D3]; [done|]; now destruct (HW _ _ D3) as (_ & _ & ?)).
       exists (found s2), (found s2), false. split; [done|cbn; rewrite Ed; apply rtc_refl|done|done|exact (later_trans _ _ _ T (log_error_later e s3))|done|].
       intros _ Hl. exfalso. cbn in Hl. pose proof (la_logged _ _ T). lia. }
  destruct D3 as [(e & [=] & _)|D3]. destruct (HW _ _ D3) as (Hpf & Hst & Hout). clear HW. destruct (splitCascaded out) as [applied cascaded] eqn:Es.
  set (followUp := _ ++ cascaded) in E. set (s4 := match followUp with [] => s3 | _ => promote_dependents calls followUp s3 end) in E.
  assert (Hw3 : wf (du_db s3)) by exact (steps_wf _ _ (la_steps _ _ T3) Hw2).
  assert (T4 : later s3 s4) by (unfold s4; destruct followUp; [apply later_refl|now apply promote_dependents_later]).
  injection E as Ea <-. set (s5 := report_rescued (looked s) (List.map fd_ID applied) s4). assert (T5 : later s4 s5) by (split; [apply rtc_refl|apply le_n..]).
  assert (TA : later s s5) by exact (later_trans _ _ _ T (later_trans _ _ _ T4 T5)).
  assert (SA : steps (du_db s3) (du_db s5)) by (transitivity (du_db s4); [apply T4|apply T5]).
  destruct (cl_busy (calls (du_calls s2))) eqn:Eb.
  - destruct Hout as [Ed ->]. injection Es as <- <-. rewrite orb_true_r in Ea. subst again. exists (found s2), (du_db s3), false.
    split; [done|done|done|done|done|done|]. intros _ _ Hb. now rewrite Hb in Eb.
  - destruct Hout as (He & Hless & Hnone). cbn [fst] in Hless, Hnone. exists (found s2), (du_db s3), true. split; [done|done|done|done|done| |].
    + intros ->. destruct applied as [|a ap]; [now rewrite orb_true_r in Ea|]. specialize (Hless ltac:(done)).
      pose proof (la_measure _ _ T1). pose proof (la_measure _ _ T2). pose proof (la_measure _ _ T4). pose proof (la_measure _ _ T5).
      pose proof (others_start (du_calls s2) (du_db s2)) as Hs. fold (found s2) in Hs. unfold measure in *. rewrite C3 in *. lia.
    + intros -> _ _. right. split; [done|]. destruct applied as [|a ap]; [right; now apply Hnone|]. left. rewrite orb_false_r in Ea. apply negb_false_iff in Ea. now breflect.
Qed.

(** ** The whole rescue *)

Definition goes_on (s s' : duty) : Prop := rescue_round t calls s = (true, s').

Lemma goes_on_wf s s' : rtc goes_on s s' -> wf (du_db s) -> wf (du_db s').
Proof.
  induction 1 as [|s s1 s2 E _ IH]; [done|]. intros Hw. apply IH. destruct (rescue_round_ok _ _ _ Hw E) as (d & d' & wr & R). exact (steps_wf _ _ (la_steps _ _ (rk_later _ _ _ _ _ _ R)) Hw).
Qed.

Lemma rescue_ends n : forall s, wf (du_db s) -> (measure s <= n)%nat ->
  exists s0 s', rescue t calls n s = Some s' /\ rtc goes_on s s0 /\ rescue_round t calls s0 = (false, s') /\ later s s0.
Proof.
  induction n as [|n IH]; intros s Hw Hm; cbn [rescue]; destruct (rescue_round t calls s) as [[|] s1] eqn:E.
  2,4: exists s, s1; split_and!; [done|apply rtc_refl|done|apply later_refl].
  all: destruct (rescue_round_ok _ _ _ Hw E) as (d & d' & wr & R); pose proof (rk_again _ _ _ _ _ _ R eq_refl) as Hless.
  { lia. }
  pose proof (rk_later _ _ _ _ _ _ R) as T. destruct (IH s1 (steps_wf _ _ (la_steps _ _ T) Hw) ltac:(lia)) as (s0 & s' & E1 & E2 & E3 & E4).
  exists s0, s'. split_and!; [done|now apply (rtc_l _ s s1)|done|exact (later_trans _ _ _ T E4)].
Qed.

(** A candidate's claim is over once a write of its result ran. *)
Lemma looked_over s again s' d d' cand : wf (du_db s) -> round_ok s again s' d d' true -> In cand (looked s) -> j_AttemptedBy (v_job (rc_Job cand)) <> Some 0 ->
  claim_over (v_job (rc_Job cand)) (du_db s').
Proof.
  intros Hw [Rb Ra Rw _ _ _ _] Hc Hz. destruct (Rw eq_refl) as [Hst He]. clear Rw. set (j := v_job (rc_Job cand)) in *.
  pose proof (steps_wf _ _ (others_step (du_calls s) (du_db s)) Hw) as Hwf. fold (found s) in Hwf. destruct (candidate_row _ _ _ _ Hc) as (j0 & Hj & Ej & Hr & Hn).
  fold j in Ej. subst j0. pose proof (steps_wf _ _ Rb Hwf) as Hwd. pose proof (step_advances _ _ Hst) as Ha. pose proof (proj1 (Ha Hwd)) as Hwd'.
  assert (Hab : AttemptedBy j <> 0) by (unfold AttemptedBy; destruct (j_AttemptedBy j) as [b|]; [congruence|discriminate Hn]).
  assert (Ho : claim_over j d').
  { intros k' Hk' Es. pose proof (transitivity (steps_advances _ _ Rb) Ha) as Ha2. pose proof (row_evolves _ _ j k' Hwf Ha2 Hj Hk' Es) as Hev. split; [apply Hev|].
    intros Hr'. destruct (Z.eq_dec (j_Fence k') (j_Fence j)) as [Ef|]; [exfalso|pose proof (ev_Fence _ _ Hev); lia].
    destruct (ev_rows _ _ (proj2 (Ha Hwd)) k' Hk') as (k & Hk & Hevk); [rewrite Es; exact (seq_le _ _ _ Hwf (steps_advances _ _ Rb) Hj)|].
    assert (Esk : j_seq k = j_seq j) by (rewrite <- (ev_seq _ _ Hevk); done). pose proof (row_evolves _ _ j k Hwf (steps_advances _ _ Rb) Hj Hk Esk) as Hevj.
    assert (Efk : j_Fence k = j_Fence j) by (pose proof (ev_Fence _ _ Hevk); pose proof (ev_Fence _ _ Hevj); lia).
    destruct (ev_claim _ _ Hevk Hr' ltac:(congruence)) as (Hrk & _). destruct (ev_claim _ _ Hevj Hrk Efk) as (_ & Eab & _).
    assert (Hown : owned d k (rescue_result cand) = true).
    { apply rescue_result_owned. fold j. unfold AttemptedBy in *. rewrite Eab. done. }
    pose proof (ec_released _ _ _ He (rescue_result cand) k) as Hrel. rewrite (proj1 (rescue_result_fields cand)) in Hrel. fold j in Hrel.
    specialize (Hrel (in_map _ _ _ Hc) Hk (ev_ID _ _ Hevj) Hown).
    destruct (released_over _ _ _ _ Hwd Ha Hk (pr_state _ (rescue_result_plain cand)) Hrel k' Hk' ltac:(congruence)) as [_ H]. specialize (H Hr'). lia. }
  apply (claim_over_later j d'); [done|exact (steps_advances _ _ Ra)| |done]. exact (seq_le _ _ _ Hwf (transitivity (steps_advances _ _ Rb) Ha) Hj).
Qed.
End Round.



(** ** When an index is tried again *)

Section IndexPace.
Context (interval maxShift : Z) (Hinterval : 0 < interval) (Hshift : 1 <= maxShift).

Lemma retry_in_bounds failures : 1 <= failures -> 2 * interval <= Z.shiftl interval (Z.min failures maxShift) <= Z.shiftl interval maxShift.
Proof using Hinterval Hshift.
  intros Hf. rewrite !Z.shiftl_mul_pow2 by lia.
  assert (2 ^ 1 <= 2 ^ Z.min failures maxShift) by (apply Z.pow_le_mono_r; lia).
  assert (2 ^ Z.min failures maxShift <= 2 ^ maxShift) by (apply Z.pow_le_mono_r; lia). nia.
Qed.

Definition failed_again (b : gmap string indexBackoff) (name : string) : Z := match b !! name with Some x => ib_failures x + 1 | None => 1 end.
Definition put_off (now failures : Z) : indexBackoff := mkIndexBackoff failures (now + Z.shiftl interval (Z.min failures maxShift)).

Lemma retries_lookup now reported : NoDup reported -> forall b name,
  List.fold_left (fun b n => snd (retryIn interval maxShift now b n)) reported b !! name =
  if decide (name ∈ reported) then Some (put_off now (failed_again b name)) else b !! name.
Proof.
  induction 1 as [|n reported Hn _ IH]; intros b name; [done|]. cbn [List.fold_left]. rewrite IH. unfold retryIn, failed_again. cbn [snd].
  destruct (decide (name = n)) as [->|Hne].
  - rewrite decide_False, decide_True, lookup_insert_eq by set_solver. done.
  - rewrite !lookup_insert_ne by done. destruct (decide (name ∈ reported)); [rewrite decide_True by set_solver|rewrite decide_False by set_solver]; done.
Qed.

Lemma notDue_iff now b name : name ∈ notDue now b <-> exists x, b !! name = Some x /\ now < ib_next x.
Proof.
  unfold notDue. rewrite list_elem_of_In, in_map_iff. split.
  - intros ([n x] & <- & Hin). apply filter_In in Hin as [Hin Hx]. apply list_elem_of_In, elem_of_map_to_list in Hin. exists x. split; [done|]. now apply Z.ltb_lt.
  - intros (x & Hx & Hlt). exists (name, x). split; [done|]. apply filter_In. split; [now apply list_elem_of_In, elem_of_map_to_list|]. now apply Z.ltb_lt.
Qed.

(** A pass that saw every index it was given: it did not fail, and nothing held it off. *)
Definition clean (res : HistoryIndexResult) (e : index_error) : bool :=
  negb (indexPassFailed e || negb (String.eqb (hi_Busy res) "") || not_empty (hi_Deferred res)).

Lemma mem_str_elem s l : mem_str s l = true <-> s ∈ l.
Proof. unfold mem_str. rewrite existsb_exists, list_elem_of_In. split; [intros (y & Hy & ->%String.eqb_eq); done|]. intros H. exists s. split; [done|]. apply String.eqb_refl. Qed.

Lemma index_pass_lookup now reported res e b name : NoDup reported ->
  index_pass interval maxShift now reported res e b !! name =
  if decide (name ∈ reported) then Some (put_off now (failed_again b name))
  else match b !! name with
       | Some x => if clean res e && (ib_next x <=? now) then None else Some x
       | None => None
       end.
Proof.
  intros Hd. unfold index_pass, settleBackoffs, clean. destruct (_ || _ || _); cbn [negb andb].
  - rewrite retries_lookup by done. destruct (decide _); [done|]. now destruct (b !! name).
  - destruct (decide (name ∈ reported)) as [Hr|Hr].
    + apply map_lookup_filter_Some. rewrite retries_lookup, decide_True by done. split; [done|]. right. now apply mem_str_elem.
    + destruct (b !! name) as [x|] eqn:Ex.
      * destruct (Z.leb_spec (ib_next x) now) as [Hle|Hlt].
        -- apply map_lookup_filter_None. right. intros y _ [Hs|Hs]; apply mem_str_elem in Hs; [|done].
           apply notDue_iff in Hs as (z & Hz & Hz'). cbn [fst] in Hz. rewrite Ex in Hz. injection Hz as <-. lia.
        -- apply map_lookup_filter_Some. rewrite retries_lookup, decide_False by done. split; [done|]. left. apply mem_str_elem, notDue_iff. eauto.
      * apply map_lookup_filter_None. left. now rewrite retries_lookup, decide_False by done.
Qed.

(** The backoffs after passes at times that do not go back, the last at [now]. *)
Inductive index_runs : Z -> gmap string indexBackoff -> Prop :=
| index_none now : index_runs now ∅
| index_next now b now' reported res e : index_runs now b -> now <= now' -> NoDup reported ->
    index_runs now' (index_pass interval maxShift now' reported res e b).

Lemma index_runs_bounded now b : index_runs now b -> forall name x, b !! name = Some x -> 1 <= ib_failures x /\ ib_next x <= now + Z.shiftl interval maxShift.
Proof using Hinterval Hshift.
  induction 1 as [now|now b now' reported res e _ IH Hle Hd]; intros name x; [now rewrite lookup_empty|]. rewrite index_pass_lookup by done.
  destruct (decide _).
  - assert (1 <= failed_again b name) by (unfold failed_again; destruct (b !! name) as [y|] eqn:Ey; [apply IH in Ey; lia|lia]).
    pose proof (retry_in_bounds (failed_again b name)). intros [= <-]. cbn. lia.
  - destruct (b !! name) as [y|] eqn:Ey; [|done]. destruct (_ && _); [done|]. intros [= <-]. apply IH in Ey. lia.
Qed.
End IndexPace.

(** When the leader tries an index again, over any passes of its loop.
    No index is put off by more than the interval shifted by the cap from the last pass; one a pass reports is put off from
    then, by twice the interval or more and doubling with each pass in a row that reports it up to the cap, and until then every pass skips
    it; one that a pass tried and did not report is forgotten if the pass saw everything, and otherwise keeps its turn. *)
Theorem index_retries_bounded interval maxShift now b : 0 < interval -> 1 <= maxShift -> index_runs interval maxShift now b ->
  (forall name x, b !! name = Some x -> ib_next x <= now + Z.shiftl interval maxShift)
  /\ forall now' reported res e, now <= now' -> NoDup reported ->
       let b' := index_pass interval maxShift now' reported res e b in
       (forall name, name ∈ reported -> let f := failed_again b name in
          2 * interval <= Z.shiftl interval (Z.min f maxShift) <= Z.shiftl interval maxShift
          /\ b' !! name = Some (mkIndexBackoff f (now' + Z.shiftl interval (Z.min f maxShift)))
          /\ forall at_, name ∈ notDue at_ b' <-> at_ < now' + Z.shiftl interval (Z.min f maxShift))
       /\ (forall name, name ∉ reported -> b' !! name = if clean res e && negb (bool_decide (name ∈ notDue now' b)) then None else b !! name).
Proof.
  intros Hi Hs Hr. pose proof (index_runs_bounded _ _ Hi Hs _ _ Hr) as Hb. split; [intros name x Hx; now apply Hb in Hx|]. intros now' reported res e Hle Hd b'. split.
  - intros name Hin f. assert (Hf : 1 <= f) by (unfold f, failed_again; destruct (b !! name) eqn:E; [apply Hb in E|]; lia).
    assert (E : b' !! name = Some (put_off interval maxShift now' f)) by (unfold b'; now rewrite index_pass_lookup, decide_True).
    split; [now apply retry_in_bounds|]. split; [done|]. intros at_. rewrite notDue_iff, E. split; [now intros (x & [= <-] & Hlt)|]. intros Hlt. eexists. split; [done|]. done.
  - intros name Hin. unfold b'. rewrite index_pass_lookup, decide_False by done. destruct (b !! name) as [x|] eqn:Ex; [|now destruct (_ && _)].
    assert (E : (ib_next x <=? now') = negb (bool_decide (name ∈ notDue now' b))); [|now rewrite E].
    destruct (Z.leb_spec (ib_next x) now'); symmetry; [apply negb_true_iff, bool_decide_eq_false|apply negb_false_iff, bool_decide_eq_true]; rewrite notDue_iff.
    + intros (y & Hy & Hlt). rewrite Ex in Hy. injection Hy as <-. lia.
    + eauto.
Qed.

Definition slow_build : HistoryIndexResult := mkHistoryIndexResult ["jobs_2025_01"%string] [] [] "".

Lemma index_retries_bounded_witness : exists b, index_runs 60 6 1000 b
  /\ index_pass 60 6 1200 ["jobs_2025_01"%string] slow_build IndexOk b !! "jobs_2025_01"%string = Some (mkIndexBackoff 2 1440).
Proof.
  exists (index_pass 60 6 1000 ["jobs_2025_01"%string] slow_build IndexOk ∅).
  assert (Hr : index_runs 60 6 1000 (index_pass 60 6 1000 ["jobs_2025_01"%string] slow_build IndexOk ∅)).
  { apply (index_next _ _ 0); [constructor|lia|]. apply NoDup_singleton. }
  split; [exact Hr|].
  destruct (index_retries_bounded 60 6 1000 _ ltac:(lia) ltac:(lia) Hr) as [_ H].
  destruct (H 1200 ["jobs_2025_01"%string] slow_build IndexOk ltac:(lia) (NoDup_singleton _)) as [H' _].
  destruct (H' "jobs_2025_01"%string ltac:(now apply list_elem_of_singleton)) as (_ & E & _). rewrite E. vm_compute. reflexivity.
Defined.
