(* ===== verification/ProgressKept.v ===== *)
(** * Progress between attempts

    [kept]: a write leaves the progress of a job's rows as it was.  Every operation
    of the executor does but a record of that job's own progress, a retry of it
    from the start, and an insert that replaces rows of its unique key; so what one
    attempt recorded is what the next one reads, for as long as the job's row
    lives. *)

From Stdlib Require Import List ZArith Lia Bool String.
From stdpp Require Import base tactics list gmap sets relations.
From S2P Require Import Prelude Sql Text Json Types Store Logic JobId Codec Insert Finalize Claim Control Leases.
From S2P Require Import Workflow Cluster Topics Messaging Evolution Engine.
Import ListNotations.
Local Open Scope Z_scope.

Section Kept.
Context (id : JobID).

Record kept (d d' : DB) : Prop := mkKept {
  ke_seq : db_seq d <= db_seq d';
  ke_rows : forall j', In j' (db_jobs d') -> j_ID j' = id -> j_seq j' <= db_seq d ->
    exists j, In j (db_jobs d) /\ j_ID j = id /\ j_seq j = j_seq j' /\ j_Progress j = j_Progress j' }.

#[export] Instance kept_preorder : PreOrder kept.
Proof.
  split; [intros d; split; [lia|eauto]|]. intros a b c [S1 R1] [S2 R2]. split; [lia|]. intros j'' H1 H2 H3.
  destruct (R2 j'' H1 H2 ltac:(lia)) as (j' & Hj' & Ei' & Es' & Ep'). destruct (R1 j' Hj' Ei' ltac:(lia)) as (j & Hj & Ei & Es & Ep).
  exists j. split_and!; congruence.
Qed.

#[export] Instance kept_jobs : JobsRelation kept.
Proof. split; [typeclasses eauto|]. intros d d' (E1 & E2 & E3). split; [lia|]. rewrite E1. eauto. Qed.

(** ** Statements *)

Lemma kept_update p f : (forall j, p j = true -> j_seq (f j) = j_seq j /\ j_ID (f j) = j_ID j /\ (j_ID j = id -> j_Progress (f j) = j_Progress j)) ->
  respects kept (exec_jobs (upd p f)).
Proof.
  intros Hf x d u d' (_ & ->)%exec_jobs_Ok. split; cbn; [lia|]. intros j' (j & Hj & ->)%In_upd Ei _. destruct (p j) eqn:E; [|eauto].
  destruct (Hf j E) as (E1 & E2 & E3). rewrite E2 in Ei. exists j. split_and!; [done..|]. symmetry. auto.
Qed.

Lemma kept_delete p : respects kept (exec_jobs (del p)).
Proof. intros x d u d' (_ & ->)%exec_jobs_Ok. split; cbn; [lia|]. intros j' [Hj _]%In_del. eauto. Qed.

Lemma kept_insert_row row : (forall seq, j_seq (row seq) = seq) -> respects kept (insert_row row).
Proof.
  intros Hseq x d r d' (-> & _ & ->)%insert_row_Ok. split; cbn; [lia|]. intros j' [Hj|[<-|[]]]%in_app_iff Ei Hle; [eauto|]. rewrite Hseq in Hle. lia.
Qed.

Lemma kept_modify f : (forall d, db_jobs (f d) = db_jobs d /\ db_seq (f d) = db_seq d) -> respects kept (modify f).
Proof. intros H. apply respects_modify. intros d. destruct (H d) as [E1 E2]. split; [lia|]. rewrite E1. eauto. Qed.

Lemma kept_same {A} (m : W A) : respects same_jobs m -> respects kept m.
Proof. apply respects_same. typeclasses eauto. Qed.
#[local] Hint Resolve kept_delete : respects.

Ltac keep_tac :=
  repeat first
    [ respects_step
    | solve [auto with respects nocore]
    | solve [apply kept_modify; intros; split; reflexivity]
    | solve [apply kept_same; auto with respects nocore]
    | solve [apply kept_update; intros; split_and!; [reflexivity|reflexivity|intros; reflexivity]]
    | solve [apply kept_insert_row; intros; reflexivity] ].

(** ** Operations *)

Lemma archive_keeps f : respects kept (archive f).
Proof. unfold archive. intros x d a d' E. repeat case_match; simplify_eq; [split; cbn; [lia|eauto]|reflexivity]. Qed.
#[local] Hint Resolve archive_keeps : respects.
Lemma finish_keeps f : respects kept (finish f).
Proof. unfold finish. keep_tac. Qed.
#[local] Hint Resolve finish_keeps : respects.

Lemma insertJob_keeps j : respects kept (insertJob j).
Proof. unfold insertJob. keep_tac. Qed.
#[local] Hint Resolve insertJob_keeps : respects.

Lemma insertCallback_keeps s b n : respects kept (insertCallback s b n).
Proof. unfold insertCallback. keep_tac. Qed.
#[local] Hint Resolve insertCallback_keeps : respects.

Lemma countBatch_keeps id0 n k : respects kept (countBatch id0 n k).
Proof. unfold countBatch. keep_tac. Qed.
#[local] Hint Resolve countBatch_keeps : respects.

Lemma insertOne_keeps j : respects kept (insertOne ConflictSkip j).
Proof. unfold insertOne, finishedDuplicate. keep_tac. Qed.
#[local] Hint Resolve insertOne_keeps : respects.

Lemma recordResult_keeps f : respects kept (recordResult f).
Proof. unfold recordResult. keep_tac. Qed.
Lemma cancelDependent_keeps r : respects kept (cancelDependent r).
Proof. unfold cancelDependent. keep_tac. Qed.
Lemma promoteIfReady_kept id0 : respects kept (promoteIfReady id0).
Proof. unfold promoteIfReady. keep_tac. Qed.
Lemma liveRow_keeps id0 : respects kept (liveRow id0).
Proof. unfold liveRow. keep_tac. Qed.
#[local] Hint Resolve recordResult_keeps cancelDependent_keeps promoteIfReady_kept liveRow_keeps : respects.

Lemma visit_keeps c dep : respects kept (visit c dep).
Proof. unfold visit. keep_tac. Qed.
#[local] Hint Resolve visit_keeps : respects.
Lemma visit_all_keeps deps : forall c, respects kept (visit_all c deps).
Proof. induction deps; intros; simpl; keep_tac. Qed.
#[local] Hint Resolve visit_all_keeps : respects.
Lemma walk_keeps fuel : forall c, respects kept (walk fuel c).
Proof. induction fuel; intros; simpl; keep_tac. Qed.
Lemma promote_all_kept deps : forall a b, respects kept (promote_all a b deps).
Proof. induction deps; intros; simpl; keep_tac. Qed.
#[local] Hint Resolve walk_keeps promote_all_kept : respects.
Lemma drop_edges_kept f : respects kept (drop_edges f).
Proof. unfold drop_edges. keep_tac. Qed.
#[local] Hint Resolve drop_edges_kept : respects.
Lemma tail_keeps done : respects kept (tail done).
Proof. unfold tail. keep_tac. Qed.
#[local] Hint Resolve tail_keeps : respects.
Lemma tailCascaded_keeps done : respects kept (tailCascaded done).
Proof. unfold tailCascaded. keep_tac. Qed.
Lemma releaseLease_keeps id0 : respects kept (releaseLease id0).
Proof. unfold releaseLease. keep_tac. Qed.
Lemma owns_keeps j f : respects kept (owns j f).
Proof. unfold owns, leaseOwns. keep_tac. Qed.
#[local] Hint Resolve tailCascaded_keeps releaseLease_keeps owns_keeps : respects.

Lemma applyResult_keeps keep r : respects kept (applyResult keep r).
Proof. unfold applyResult. keep_tac. Qed.
#[local] Hint Resolve applyResult_keeps : respects.
Lemma finalizeAll_keeps params rs : respects kept (finalizeAll params rs).
Proof. unfold finalizeAll. keep_tac. Qed.
#[local] Hint Resolve finalizeAll_keeps : respects.

Lemma claim_keeps q c n p : respects kept (claim q c n p).
Proof. unfold claim. keep_tac. Qed.
#[local] Hint Resolve claim_keeps : respects.
Lemma claimLimited_keeps p : respects kept (claimLimited p).
Proof. unfold claimLimited. keep_tac. Qed.
#[local] Hint Resolve claimLimited_keeps : respects.

Lemma cancelWaiting_keeps r a : respects kept (cancelWaiting r a).
Proof. unfold cancelWaiting. keep_tac. Qed.
#[local] Hint Resolve cancelWaiting_keeps : respects.
Lemma JobCancel_keeps id0 : respects kept (JobCancel_w id0).
Proof. unfold JobCancel_w. keep_tac. Qed.
Lemma JobDelete_keeps id0 : respects kept (JobDelete_w id0).
Proof. unfold JobDelete_w. keep_tac. Qed.
Lemma retryFinished_keeps p h : respects kept (retryFinished p h).
Proof. unfold retryFinished. keep_tac. Qed.
#[local] Hint Resolve retryFinished_keeps : respects.
Lemma JobRetry_keeps p : rp_FromStart p = false \/ rp_ID p <> id -> respects kept (JobRetry_w p).
Proof.
  intros H. unfold JobRetry_w. keep_tac. apply kept_update. intros k Hj. unfold id_is in Hj. breflect. split; [done|]. split; [done|]. intros E. cbn.
  destruct H as [->|H]; [done|congruence].
Qed.
Lemma JobRetryOrderingKey_keeps p : respects kept (JobRetryOrderingKey_w p).
Proof. unfold JobRetryOrderingKey_w. keep_tac. Qed.
Lemma discardExpired_keeps now r : respects kept (discardExpired now r).
Proof. unfold discardExpired. keep_tac. Qed.
#[local] Hint Resolve discardExpired_keeps : respects.
Lemma JobDiscardExpired_keeps n : respects kept (JobDiscardExpired_w n).
Proof. unfold JobDiscardExpired_w. keep_tac. Qed.
Lemma JobRecordProgress_keeps p c : pp_ID p <> id -> respects kept (JobRecordProgress_w p c).
Proof. intros H. unfold JobRecordProgress_w. keep_tac. apply kept_update. intros j0 Hj. unfold id_is in Hj. breflect. split; [done|]. split; [done|]. congruence. Qed.

Lemma claimableByID_keeps p : respects kept (claimableByID p).
Proof. unfold claimableByID. keep_tac. Qed.
#[local] Hint Resolve claimableByID_keeps : respects.
Lemma JobClaimByID_keeps p : respects kept (JobClaimByID_w p).
Proof. unfold JobClaimByID_w. keep_tac. Qed.
Lemma JobLeaseRenew_keeps p : respects kept (JobLeaseRenew_w p).
Proof. unfold JobLeaseRenew_w. keep_tac. Qed.
Lemma expireOne_keeps now j : respects kept (expireOne now j).
Proof. unfold expireOne. keep_tac. Qed.
#[local] Hint Resolve expireOne_keeps : respects.
Lemma JobExpireLeases_keeps p : respects kept (JobExpireLeases_w p).
Proof. unfold JobExpireLeases_w. keep_tac. Qed.

Lemma insertBatch_keeps id0 name n b e s r : respects kept (insertBatch id0 name n b e s r).
Proof.
  apply kept_same. intros x d a d'. unfold insertBatch. destruct (ex _ _); [done|]. now intros [= <- <-].
Qed.
#[local] Hint Resolve insertBatch_keeps : respects.
Lemma mint_keeps n : respects kept (mint n).
Proof. induction n; simpl; keep_tac. Qed.
#[local] Hint Resolve mint_keeps : respects.
Lemma WorkflowInsert_keeps p js b : respects kept (WorkflowInsert_w p js b).
Proof. unfold WorkflowInsert_w. keep_tac. Qed.
Lemma cancelExhausted_keeps id0 : respects kept (cancelExhausted id0).
Proof. unfold cancelExhausted. keep_tac. Qed.
#[local] Hint Resolve cancelExhausted_keeps : respects.
Lemma promote_each_keeps ids : respects kept (promote_each ids).
Proof. induction ids; simpl; keep_tac. Qed.
Lemma cancel_each_keeps ids : respects kept (cancel_each ids).
Proof. induction ids; simpl; keep_tac. Qed.
#[local] Hint Resolve promote_each_keeps cancel_each_keeps : respects.

Lemma PeriodicInsert_keeps name slot j : respects kept (PeriodicInsert_w name slot j).
Proof. unfold PeriodicInsert_w. keep_tac. Qed.
Lemma insert_registration_keeps c r : respects kept (insert_registration c r).
Proof.
  apply kept_same. intros x d a d'. unfold insert_registration. destruct (_ || _); [done|]. now intros [= <- <-].
Qed.
#[local] Hint Resolve insert_registration_keeps : respects.
Lemma PeriodicRegister_keeps c rs : respects kept (PeriodicRegister_w c rs).
Proof. unfold PeriodicRegister_w. keep_tac. Qed.
Lemma prune_batch_keeps g keep : respects kept (prune_batch g keep).
Proof. unfold prune_batch. keep_tac. Qed.

Lemma MessagePublish_keeps p n payload : respects kept (MessagePublish_w p n payload).
Proof. unfold MessagePublish_w. keep_tac. Qed.
Lemma StreamAppend_keeps p payload : respects kept (StreamAppend_w p payload).
Proof. unfold StreamAppend_w. keep_tac. Qed.
Lemma pump_event_keeps k ev : respects kept (pump_event k ev).
Proof. unfold pump_event. keep_tac. Qed.
#[local] Hint Resolve pump_event_keeps : respects.
Lemma StreamPump_keeps name n : respects kept (StreamPump_w name n).
Proof. unfold StreamPump_w. keep_tac. Qed.


(** ** Every step between attempts *)

Inductive keeping : DB -> DB -> Prop :=
| kp_JobInsertMany ps o x d : io_OnConflict o = ConflictSkip -> keeping d (snd (JobInsertMany ps o x d))
| kp_JobFinalizeMany p busy x d : keeping d (snd (JobFinalizeMany p busy x d))
| kp_JobClaim p x d : keeping d (snd (JobClaim p x d))
| kp_JobAge q after x d : keeping d (snd (JobAge q after x d))
| kp_JobCancel id0 x d : keeping d (snd (JobCancel id0 x d))
| kp_JobDelete id0 x d : keeping d (snd (JobDelete id0 x d))
| kp_JobRetry p x d : rp_FromStart p = false \/ rp_ID p <> id -> keeping d (snd (JobRetry p x d))
| kp_JobRetryOrderingKey p x d : keeping d (snd (JobRetryOrderingKey p x d))
| kp_JobDiscardExpired n x d : keeping d (snd (JobDiscardExpired n x d))
| kp_JobRecordProgress p busy x d : pp_ID p <> id -> keeping d (snd (JobRecordProgress p busy x d))
| kp_JobClaimByID p x d : keeping d (snd (JobClaimByID p x d))
| kp_JobLeaseRenew p x d : keeping d (snd (JobLeaseRenew p x d))
| kp_JobExpireLeases p busy x d : keeping d (snd (JobExpireLeases p busy x d))
| kp_BatchInsert n s f c m x d : keeping d (snd (BatchInsert n s f c m x d))
| kp_BatchSettle named results n x d : keeping d (snd (BatchSettle named results n x d))
| kp_WorkflowInsert p x d : keeping d (snd (WorkflowInsert p x d))
| kp_WorkflowPromoteReady ids after n seen x d : keeping d (snd (WorkflowPromoteReady ids after n seen x d))
| kp_ClientRegister p x d : keeping d (snd (ClientRegister p x d))
| kp_ClientRenew c ttl x d : keeping d (snd (ClientRenew c ttl x d))
| kp_ClientDelete c x d : keeping d (snd (ClientDelete c x d))
| kp_ClientPruneExpired x d : keeping d (snd (ClientPruneExpired x d))
| kp_LeaderAttempt c ttl x d : keeping d (snd (LeaderAttempt c ttl x d))
| kp_LeaderRequestResign c x d : keeping d (snd (LeaderRequestResign c x d))
| kp_LeaderResign c x d : keeping d (snd (LeaderResign c x d))
| kp_QueueEnsure names x d : keeping d (snd (QueueEnsure names x d))
| kp_QueuePause name x d : keeping d (snd (QueuePause name x d))
| kp_QueueResume name x d : keeping d (snd (QueueResume name x d))
| kp_QueueSetLimits l x d : keeping d (snd (QueueSetLimits l x d))
| kp_PeriodicInsert p x d : keeping d (snd (PeriodicInsert p x d))
| kp_PeriodicRegister c rs x d : keeping d (snd (PeriodicRegister c rs x d))
| kp_HistoryMaintain p inTx xs busy d : keeping d (snd (HistoryMaintain p inTx xs busy d))
| kp_SubscriptionUpsert ss x d : keeping d (snd (SubscriptionUpsert ss x d))
| kp_MessagePublish p x d : keeping d (snd (MessagePublish p x d))
| kp_StreamAppend p x d : keeping d (snd (StreamAppend p x d))
| kp_StreamConsumerUpsert cs x d : keeping d (snd (StreamConsumerUpsert cs x d))
| kp_StreamConsumerSeek name p x d : keeping d (snd (StreamConsumerSeek name p x d))
| kp_StreamPump name n x d : keeping d (snd (StreamPump name n x d)).

Lemma kept_write {A} (m : W A) x d : respects kept m -> kept d (snd (write m x d)).
Proof. intros H. destruct (write m x d) as [r d'] eqn:E. eapply respects_write; eauto. typeclasses eauto. Qed.

Lemma prune_group_keeps fuel g keep xs busy : forall i n d, kept d (snd (prune_group fuel g keep xs busy i n d)).
Proof.
  induction fuel as [|fuel IH]; intros i n d; simpl; [reflexivity|]. destruct (busy i); [reflexivity|].
  pose proof (kept_write (prune_batch g keep) (xs i) d (prune_batch_keeps g keep)) as H.
  destruct (write _ _ _) as [[k|e] d'] eqn:E; [|done]. destruct (k <? retentionBatch); [done|]. transitivity d'; [done|apply IH].
Qed.

Lemma prune_groups_keeps gs p xs busy : forall i res d, kept d (snd (prune_groups gs p xs busy i res d)).
Proof.
  induction gs as [|g gs IH]; intros i res d; cbn [prune_groups]; [reflexivity|]. case_match; [apply IH|].
  pose proof (prune_group_keeps (prune_fuel d) g (group_keep p g) xs busy i 0 d) as H'.
  destruct (prune_group _ _ _ _ _ _ _ _) as [[[out i'] n] d']. transitivity d'; [done|apply IH].
Qed.

Ltac open_keep :=
  repeat first [reflexivity | match goal with |- kept ?d (snd (match ?e with _ => _ end)) => destruct e eqn:? end]; apply kept_write.

Lemma keeping_kept d d' : keeping d d' -> kept d d'.
Proof.
  destruct 1.
  - unfold JobInsertMany, insertJobs. rewrite H. open_keep; keep_tac.
  - unfold JobFinalizeMany. destruct (fp_Jobs p) as [|f0 fs]; [reflexivity|].
    open_keep. apply finalizeAll_keeps.
  - unfold JobClaim. open_keep; keep_tac.
  - unfold JobAge. open_keep; keep_tac.
  - apply kept_write, JobCancel_keeps.
  - apply kept_write, JobDelete_keeps.
  - now apply kept_write, JobRetry_keeps.
  - apply kept_write, JobRetryOrderingKey_keeps.
  - apply kept_write, JobDiscardExpired_keeps.
  - unfold JobRecordProgress. open_keep; now apply JobRecordProgress_keeps.
  - unfold JobClaimByID. open_keep; apply JobClaimByID_keeps.
  - apply kept_write, JobLeaseRenew_keeps.
  - unfold JobExpireLeases. open_keep; apply JobExpireLeases_keeps.
  - unfold BatchInsert. open_keep; keep_tac.
  - unfold BatchSettle. open_keep; keep_tac.
  - unfold WorkflowInsert. open_keep; apply WorkflowInsert_keeps.
  - unfold WorkflowPromoteReady. open_keep; keep_tac.
  - unfold ClientRegister. open_keep; keep_tac.
  - unfold ClientRenew, ClientRenew_w. open_keep; keep_tac.
  - unfold ClientDelete, ClientDelete_w. open_keep; keep_tac.
  - unfold ClientPruneExpired, ClientPruneExpired_w. open_keep; keep_tac.
  - unfold LeaderAttempt, LeaderAttempt_w. open_keep; keep_tac.
  - unfold LeaderRequestResign, LeaderRequestResign_w. open_keep; keep_tac.
  - unfold LeaderResign, LeaderResign_w. open_keep; keep_tac.
  - unfold QueueEnsure. open_keep; keep_tac.
  - unfold QueuePause, setPaused_w. open_keep; keep_tac.
  - unfold QueueResume, setPaused_w. open_keep; keep_tac.
  - unfold QueueSetLimits, QueueSetLimits_w. open_keep; keep_tac.
  - unfold PeriodicInsert. open_keep; apply PeriodicInsert_keeps.
  - apply kept_write, PeriodicRegister_keeps.
  - unfold HistoryMaintain. case_match; [reflexivity|]. apply prune_groups_keeps.
  - unfold SubscriptionUpsert. open_keep; keep_tac.
  - unfold MessagePublish. open_keep; apply MessagePublish_keeps.
  - unfold StreamAppend. open_keep; apply StreamAppend_keeps.
  - unfold StreamConsumerUpsert, upsertConsumer. open_keep; keep_tac.
  - unfold StreamConsumerSeek, StreamConsumerSeek_w. open_keep; keep_tac.
  - apply kept_write, StreamPump_keeps.
Qed.

Lemma keeping_step d d' : keeping d d' -> step d d'.
Proof.
  destruct 1.
  - apply step_JobInsertMany.
  - apply step_JobFinalizeMany.
  - apply step_JobClaim.
  - apply step_JobAge.
  - apply step_JobCancel.
  - apply step_JobDelete.
  - apply step_JobRetry.
  - apply step_JobRetryOrderingKey.
  - apply step_JobDiscardExpired.
  - apply step_JobRecordProgress.
  - apply step_JobClaimByID.
  - apply step_JobLeaseRenew.
  - apply step_JobExpireLeases.
  - apply step_BatchInsert.
  - apply step_BatchSettle.
  - apply step_WorkflowInsert.
  - apply step_WorkflowPromoteReady.
  - apply step_ClientRegister.
  - apply step_ClientRenew.
  - apply step_ClientDelete.
  - apply step_ClientPruneExpired.
  - apply step_LeaderAttempt.
  - apply step_LeaderRequestResign.
  - apply step_LeaderResign.
  - apply step_QueueEnsure.
  - apply step_QueuePause.
  - apply step_QueueResume.
  - apply step_QueueSetLimits.
  - apply step_PeriodicInsert.
  - apply step_PeriodicRegister.
  - apply step_HistoryMaintain.
  - apply step_SubscriptionUpsert.
  - apply step_MessagePublish.
  - apply step_StreamAppend.
  - apply step_StreamConsumerUpsert.
  - apply step_StreamConsumerSeek.
  - apply step_StreamPump.
Qed.

(** A job whose row lives from one point of a run to a later one keeps its progress. *)
Lemma keeping_progress d d' j j' : wf d -> rtc keeping d d' -> In j (db_jobs d) -> In j' (db_jobs d') -> j_ID j' = id -> j_seq j' = j_seq j ->
  wf d' /\ j_ID j = id /\ j_Progress j' = j_Progress j.
Proof.
  intros Hw Hr Hj Hj' Ei Es. assert (H : advances d d' /\ kept d d').
  { clear -Hr. induction Hr as [|a b c Hab _ [IH1 IH2]]; [split; reflexivity|]. split; [transitivity b; [apply step_advances, keeping_step, Hab|done]|transitivity b; [now apply keeping_kept|done]]. }
  destruct H as [Ha [_ Hk]]. destruct (Hk j' Hj' Ei) as (k & Hk1 & Hk2 & Hk3 & Hk4).
  { rewrite Es. destruct Hw as [_ Hq _]. rewrite List.Forall_forall in Hq. auto. }
  assert (k = j) as -> by (apply (wf_unique_seq d); [done..|congruence]). split; [apply (Ha Hw)|done].
Qed.
End Kept.
