(* ===== verification/StepsSpec.v ===== *)
(** * The steps of a job: theorems on Steps.v

    A record that succeeds is in the job's row and reads back as the step it
    names; over any number of attempts the steps run in order, each attempt
    resuming at the first one not recorded as finished. *)

From Stdlib Require Import List ZArith Lia Bool String Ascii.
From stdpp Require Import base tactics list strings relations.
From S2P Require Import Prelude Sql Text Json JsonSpec JsonCheck Types Store Logic Codec CodecSpec Calendar Insert Finalize Control Unique Inserting Building Evolution ProgressKept Steps.
Import ListNotations.
Local Open Scope string_scope.
Local Open Scope Z_scope.
Local Open Scope list_scope.

(** ** What a record stores *)

Section Ascii.
Local Open Scope string_scope.

Lemma digit_ascii z : forallb_str is_ascii (digit z) = true.
Proof.
  assert (H : 0 <= z mod 10 < 10) by (apply Z.mod_pos_bound; lia). unfold digit. cbn [forallb_str]. rewrite andb_true_r.
  generalize dependent (z mod 10). intros k Hk. assert (H : k = 0 \/ k = 1 \/ k = 2 \/ k = 3 \/ k = 4 \/ k = 5 \/ k = 6 \/ k = 7 \/ k = 8 \/ k = 9) by lia.
  repeat (destruct H as [->|H]; [reflexivity|]). now subst.
Qed.

Lemma pad_ascii z : forallb_str is_ascii (pad2 z) = true /\ forallb_str is_ascii (pad4 z) = true /\ forallb_str is_ascii (pad6 z) = true.
Proof. unfold pad6, pad4, pad2. rewrite !forallb_str_app, !digit_ascii. done. Qed.

Lemma trim_right_ascii p s : forallb_str is_ascii s = true -> forallb_str is_ascii (trim_right p s) = true.
Proof.
  induction s as [|c s IH]; [done|]. simpl. intros [Hc Hs]%andb_true_iff. apply IH in Hs.
  destruct (trim_right p s); [destruct (p c); [done|]; simpl; now rewrite Hc|]. cbn [forallb_str] in *. now rewrite Hc, Hs.
Qed.

Lemma rfc3339_utf8 t : utf8 (rfc3339_micros t).
Proof.
  apply utf8_ascii. fold is_ascii. unfold rfc3339_micros. destruct (civil_of_days (t / 1000000 / 86400)) as [[y m] d].
  assert (Hf : forallb_str is_ascii (fraction_text (t mod 1000000)) = true).
  { unfold fraction_text. pose proof (trim_right_ascii (fun c => Ascii.eqb c "0") _ (proj2 (proj2 (pad_ascii (t mod 1000000))))) as H.
    destruct (trim_right _ _); [done|]. now rewrite forallb_str_app, H. }
  rewrite !forallb_str_app, Hf. pose proof pad_ascii as P.
  rewrite !(proj1 (P _)), (proj1 (proj2 (P _))). reflexivity.
Qed.
End Ascii.

Definition progress_text (step : string) (t : Z) : string :=
  json_print (record [("step", Some (jstring step)); ("at", Some (jstring (rfc3339_micros t))); ("cursor", None)]).

Lemma key_literal k : forallb_str is_ascii k = true -> quote k = k -> literal k.
Proof. intros Hk E. rewrite <- E. now apply literal_quote, utf8_ascii. Qed.

Lemma progress_canonical step t : utf8 step ->
  canonical (record [("step", Some (jstring step)); ("at", Some (jstring (rfc3339_micros t))); ("cursor", None)]).
Proof.
  intros Hs. unfold record. cbn [flat_map snd fst app]. apply canonical_obj, List.Forall_cons; [|apply List.Forall_cons; [|constructor]]; cbn [fst snd];
    (split; [apply key_literal; vm_compute; reflexivity|apply canonical_jstring]).
  - done.
  - apply rfc3339_utf8.
Qed.

Lemma DecodeProgress_text step t : storableName step = true -> DecodeProgress (progress_text step t) = Some (mkProgress step None).
Proof.
  intros [Hs _]%andb_true_iff. apply utf8_valid_utf8 in Hs. unfold DecodeProgress, progress_text.
  rewrite json_parse_print by now apply progress_canonical. unfold record. cbn [flat_map snd fst app].
  assert (E : forall a b, members_of [("step", a); ("at", b)] = [("step", a); ("at", b)] \/ members_of [("step", a); ("at", b)] = [("at", b); ("step", a)]).
  { intros a b. vm_compute. auto. }
  destruct (E (jstring step) (jstring (rfc3339_micros t))) as [-> | ->]; cbn [smap_get String.eqb Ascii.eqb Bool.eqb]; unfold jstring; now rewrite unquote_quote.
Qed.

(** The progress in the job's row, as a later attempt is given it. *)
Definition stored_progress (wk : worker) : option Progress :=
  match one (id_is (wk_ID wk)) (db_jobs (wk_db wk)) with
  | Some j => match j_Progress j with Some text => DecodeProgress text | None => None end
  | None => None
  end.

(** What neither a record nor a step may change of the attempt. *)
Record same_attempt (wk wk' : worker) : Prop := {
  sa_context : wk_context wk' = wk_context wk;
  sa_ID : wk_ID wk' = wk_ID wk;
  sa_completed : wk_completed wk = true -> wk_completed wk' = true }.
#[export] Instance same_attempt_PreOrder : PreOrder same_attempt.
Proof. split; [done|]. intros a b c [] []. split; [congruence|congruence|auto]. Qed.

Lemma one_upd_id id (f : JobRow -> JobRow) t j : (forall j, j_ID (f j) = j_ID j) -> one (id_is id) t = Some j -> one (id_is id) (upd (id_is id) f t) = Some (f j).
Proof.
  intros Hf. unfold one, upd. induction t as [|x t IH]; [done|]. simpl. destruct (id_is id x) eqn:E.
  - intros [= ->]. unfold id_is in *. now rewrite Hf, E.
  - now rewrite E.
Qed.

Lemma JobRecordProgress_stores p busy x d r d' : pp_Cursor p = "" -> pp_KeepStep p = false -> JobRecordProgress p busy x d = (r, d') ->
  match r with
  | Ok (Some text) => exists t j, text = progress_text (pp_Step p) t /\ one (id_is (pp_ID p)) (db_jobs d') = Some j /\ j_Progress j = Some text
  | _ => db_jobs d' = db_jobs d
  end.
Proof.
  intros Hc Hk. unfold JobRecordProgress, jsonValue. rewrite Hc. cbn [String.eqb]. destruct (pp_NoWait p && busy); [now intros [= <- <-]|].
  unfold write, JobRecordProgress_w. rewrite Hk. unfold bind, get. destruct (one (progress_owner d p) (db_jobs d)) as [j|] eqn:Eo; [|now intros [= <- <-]].
  unfold us, exec_jobs. destruct (jobs_ok _) eqn:Ej; [|now intros [= <- <-]]. intros [= <- <-].
  apply one_Some in Eo as [Hin Ho]. unfold progress_owner in Ho. apply andb_true_iff in Ho as [Hid _].
  destruct (one (id_is (pp_ID p)) (db_jobs d)) as [j'|] eqn:Eid.
  - exists (w_now x), (j' <| j_Progress := Some (progress_text (pp_Step p) (w_now x)) |>). split; [done|]. split; [|done].
    now apply (one_upd_id _ (fun j => j <| j_Progress := Some (progress_text (pp_Step p) (w_now x)) |>)).
  - now rewrite (proj1 (one_None _ _) Eid j Hin) in Hid.
Qed.

Lemma RecordStep_stores calls step wk r wk' : wk_context wk = InAttempt -> RecordStep calls step None wk = (r, wk') ->
  same_attempt wk wk' /\ wk_completed wk' = wk_completed wk
  /\ match r with
     | Ok _ => wk_progress wk' = Some (mkProgress step None) /\ stored_progress wk' = Some (mkProgress step None)
     | Err _ => stored_progress wk' = stored_progress wk
     end.
Proof.
  intros Hc. unfold RecordStep, record_, progressCursor. rewrite Hc. destruct (negb false && negb (storableName step)) eqn:Es; [now intros [= <- <-]|].
  apply negb_false_iff in Es. destruct (calls (wk_calls wk)) as [x busy]. cbn [negb andb].
  destruct (JobRecordProgress _ busy x (wk_db wk)) as [q d'] eqn:E. apply JobRecordProgress_stores in E; [|done|done]. cbn [pp_Step pp_ID] in E.
  destruct q as [[text|]|e]; [|intros [= <- <-]..].
  - destruct E as (t & j & -> & Eo & Ep). rewrite DecodeProgress_text by done. intros [= <- <-]. split; [done|]. split; [done|]. split; [done|].
    unfold stored_progress. cbn [wk_ID wk_db set_field]. cbn. rewrite Eo, Ep. now apply DecodeProgress_text.
  - split; [done|]. split; [done|]. unfold stored_progress. cbn. now rewrite E.
  - split; [done|]. split; [done|]. unfold stored_progress. cbn. now rewrite E.
Qed.

(** ** The steps of one attempt *)

Definition stored_name (wk : worker) : string := match stored_progress wk with Some p => pr_Step p | None => "" end.

(** Where a progress of this step's name has the steps start. *)
Definition resume_at (steps : list JobStep) (name : string) : option nat :=
  if String.eqb name "" then Some O else option_map S (index_step name steps).

(** What RunSteps relies on of a step: it stays in its attempt; what it stores
    names its own step, or the one stored before; and one that returns nil
    leaves the progress it was given as stored (its transactions have ended,
    and none it recorded in was rolled back). *)
Definition step_ok (s : JobStep) : Prop :=
  forall run wk r wk', js_run s = Some run -> run wk = (r, wk') ->
    same_attempt wk wk'
    /\ (stored_name wk' = stored_name wk \/ stored_name wk' = js_name s)
    /\ (r = Ok tt -> progress_name wk = stored_name wk -> progress_name wk' = stored_name wk').

Definition has_run (s : JobStep) : Prop := js_run s <> None.
Definition names (steps : list JobStep) : list string := List.map js_name steps.

Lemma check_steps_ok rest : forall before, check_steps before rest = Ok tt ->
  Forall (fun s => js_name s <> "" /\ has_run s) rest /\ NoDup (names rest) /\ (forall s, In s rest -> ~ In (js_name s) (names before)).
Proof.
  induction rest as [|s rest IH]; intros before; [intros _; split; [constructor|]; split; [constructor|]; intros ? []|].
  simpl. destruct (String.eqb_spec (js_name s) "") as [|Hn]; [done|]. destruct (is_null (js_run s)) eqn:Er; [done|]. simpl.
  destruct (storableName (js_name s)); [|done]. simpl. destruct (existsb _ before) eqn:Ex; [done|]. intros (Hf & Hd & Ho)%IH.
  assert (Hs : ~ In (js_name s) (names before)).
  { intros (o & E & Hin)%in_map_iff. apply not_true_iff_false in Ex. apply Ex, existsb_exists. exists o. split; [done|]. now apply String.eqb_eq. }
  split; [constructor; [split; [done|]; unfold has_run; now destruct (js_run s)|done]|]. split.
  - constructor; [|done]. rewrite list_elem_of_In. intros (o & E & Hin)%in_map_iff. apply (Ho o Hin). unfold names. rewrite map_app. apply in_app_iff.
    right. simpl. auto.
  - intros o [<-|Hin]; [done|]. intros Hb. apply (Ho o Hin). unfold names. rewrite map_app. apply in_app_iff. now left.
Qed.

Lemma index_step_at steps : forall p s rest, NoDup (names steps) -> List.skipn p steps = s :: rest -> index_step (js_name s) steps = Some p.
Proof.
  induction steps as [|x steps IH]; intros [|p] s rest Hd E; try done.
  - simpl in E. injection E as -> ->. simpl. now rewrite String.eqb_refl.
  - simpl in *. apply NoDup_cons in Hd as [Hx Hd]. destruct (String.eqb_spec (js_name x) (js_name s)) as [Ex|_].
    + destruct Hx. rewrite Ex. apply list_elem_of_In, in_map. rewrite <- (List.firstn_skipn p steps), E. apply in_app_iff. right. now left.
    + now rewrite (IH p s rest).
Qed.

Section Attempt.
Context (calls : nat -> w * bool).

(** The steps run are the first of those to run, and each but the last returned nil. *)
Lemma run_steps_trace steps : Forall has_run steps -> forall wk r wk' ran, run_steps calls steps wk = (r, wk', ran) ->
  List.map fst ran = List.firstn (List.length ran) (names steps) /\ (List.length ran <= List.length steps)%nat
  /\ Forall (fun x => snd x = true) (removelast ran) /\ (r = Ok tt -> List.length ran = List.length steps).
Proof.
  induction 1 as [|s steps Hs _ IH]; intros wk r wk' ran; simpl; [intros [= <- <- <-]; now repeat split|].
  destruct (js_run s) as [run|] eqn:Er; [|done]. destruct (run wk) as [[[]|e] wk1].
  2: { intros [= <- <- <-]. split; [done|]. split; [simpl; lia|]. split; [constructor|done]. }
  destruct (if wk_completed wk1 then _ else _) as [[[]|e] wk2].
  2: { intros [= <- <- <-]. split; [done|]. split; [simpl; lia|]. split; [constructor|done]. }
  destruct (run_steps calls steps wk2) as [[r' wk3] ran'] eqn:E. intros [= <- <- <-]. apply IH in E as (Em & El & Ef & Eo).
  split; [simpl; now rewrite Em|]. split; [simpl; lia|]. split; [|simpl; auto]. simpl. destruct ran'; constructor; done.
Qed.

Lemma run_steps_same steps : Forall has_run steps -> Forall step_ok steps -> forall wk r wk' ran, wk_context wk = InAttempt ->
  run_steps calls steps wk = (r, wk', ran) -> same_attempt wk wk'.
Proof.
  intros Hr. induction 1 as [|s steps Hs _ IH]; intros wk r wk' ran Hc; simpl; [now intros [= <- <- <-]|].
  inv Hr. destruct (js_run s) as [run|] eqn:Er; [|done]. destruct (run wk) as [r1 wk1] eqn:E1.
  destruct (Hs _ _ _ _ Er E1) as (S1 & _). assert (Hc1 : wk_context wk1 = InAttempt) by (now rewrite (sa_context _ _ S1)).
  destruct r1 as [[]|e]; [|now intros [= <- <- <-]].
  destruct (if wk_completed wk1 then _ else _) as [r2 wk2] eqn:E2.
  assert (S2 : same_attempt wk1 wk2).
  { destruct (wk_completed wk1); [now injection E2 as <- <-|]. destruct (_ && _); [now injection E2 as <- <-|].
    now apply RecordStep_stores in E2 as (S2 & _). }
  destruct r2 as [[]|e]; [|intros [= <- <- <-]; etransitivity; eassumption].
  destruct (run_steps calls steps wk2) as [[r' wk3] ran'] eqn:E. intros [= <- <- <-]. apply IH in E; [|done|now rewrite (sa_context _ _ S2)].
  now do 2 (etransitivity; [eassumption|]).
Qed.

Section Positions.
Context (steps : list JobStep) (Hnames : NoDup (names steps)) (Hnonempty : forall s, In s steps -> js_name s <> "").

Lemma position_after p s rest : List.skipn p steps = s :: rest -> resume_at steps (js_name s) = Some (S p).
Proof.
  intros E. unfold resume_at. destruct (String.eqb_spec (js_name s) "") as [Ee|_].
  - destruct (Hnonempty s); [|done]. rewrite <- (List.firstn_skipn p steps), E. apply in_app_iff. right. now left.
  - now rewrite (index_step_at _ p s rest).
Qed.

Lemma skipn_tail {A} (l : list A) : forall p x rest, List.skipn p l = x :: rest -> List.skipn (S p) l = rest.
Proof. induction l as [|y l IH]; intros [|p] x rest; try done; [now intros [= -> ->]|]. apply IH. Qed.

(** An attempt that does not complete the job leaves it at the step after the
    last it ran, or at that last step. *)
Lemma run_steps_position rest : Forall has_run rest -> Forall step_ok rest -> forall p wk r wk' ran,
  List.skipn p steps = rest -> wk_context wk = InAttempt -> progress_name wk = stored_name wk -> resume_at steps (stored_name wk) = Some p ->
  run_steps calls rest wk = (r, wk', ran) -> wk_completed wk' = false ->
  exists q, resume_at steps (stored_name wk') = Some q /\ (q = p + List.length ran \/ S q = p + List.length ran)%nat /\ (r = Ok tt -> q = p + List.length ran)%nat.
Proof.
  intros Hr. induction 1 as [|s rest Hs Hrest IH]; intros p wk r wk' ran Hp Hc Ha Hpos; simpl; [intros [= <- <- <-] _; exists p; simpl; auto with lia|].
  inv Hr. destruct (js_run s) as [run|] eqn:Er; [|done]. destruct (run wk) as [r1 wk1] eqn:E1.
  destruct (Hs _ _ _ _ Er E1) as (S1 & Hst & Hag). assert (Hc1 : wk_context wk1 = InAttempt) by (now rewrite (sa_context _ _ S1)).
  assert (Hq : exists q, resume_at steps (stored_name wk1) = Some q /\ (q = S p \/ q = p)).
  { destruct Hst as [-> | ->]; [exists p; auto|]. exists (S p). split; [now apply (position_after p s rest)|auto]. }
  destruct r1 as [[]|e]; [|intros [= <- <- <-] _; destruct Hq as (q & Eq & Hq); exists q; simpl; split; [done|]; split; [lia|done]].
  specialize (Hag eq_refl Ha). destruct (wk_completed wk1) eqn:Ec1.
  { destruct (run_steps calls rest wk1) as [[r' wk3] ran'] eqn:E. intros [= <- <- <-] Hn. apply run_steps_same in E; [|done..].
    rewrite (sa_completed _ _ E Ec1) in Hn. done. }
  assert (Hnext : forall wk2 r' wk3 ran', wk_context wk2 = InAttempt -> progress_name wk2 = js_name s -> stored_name wk2 = js_name s ->
    run_steps calls rest wk2 = (r', wk3, ran') -> wk_completed wk3 = false ->
    exists q, resume_at steps (stored_name wk3) = Some q /\ (q = p + S (List.length ran') \/ S q = p + S (List.length ran'))%nat /\ (r' = Ok tt -> q = p + S (List.length ran'))%nat).
  { intros wk2 r' wk3 ran' Hc2 Hp2 Hs2 E Hn. destruct (IH ltac:(done) (S p) wk2 r' wk3 ran') as (q & Eq & Hq' & Ho); [|done|congruence| |done|done|].
    - now apply skipn_tail in Hp.
    - rewrite Hs2. now apply (position_after p s rest).
    - exists q. split; [done|]. split; [lia|]. intros Hok. specialize (Ho Hok). lia. }
  destruct (negb (is_null (wk_progress wk1)) && String.eqb (progress_name wk1) (js_name s)) eqn:En.
  - apply andb_true_iff in En as [_ En]. apply String.eqb_eq in En.
    destruct (run_steps calls rest wk1) as [[r' wk3] ran'] eqn:E. intros [= <- <- <-]. apply (Hnext wk1); [done|done|congruence|done].
  - destruct (RecordStep calls (js_name s) None wk1) as [r2 wk2] eqn:E2. apply RecordStep_stores in E2 as (S2 & Ec2 & Hrec); [|done].
    destruct r2 as [[]|e].
    + destruct Hrec as [Hp2 Hs2]. destruct (run_steps calls rest wk2) as [[r' wk3] ran'] eqn:E. intros [= <- <- <-].
      apply (Hnext wk2); [now rewrite (sa_context _ _ S2)|unfold progress_name; now rewrite Hp2|unfold stored_name; now rewrite Hs2|done].
    + intros [= <- <- <-] _. assert (Es : stored_name wk2 = stored_name wk1) by (unfold stored_name; now rewrite Hrec). rewrite Es.
      destruct Hq as (q & Eq & Hq). exists q. simpl. split; [done|]. split; [lia|done].
Qed.
End Positions.
End Attempt.

(** ** The steps of a job's attempts *)

(** A later attempt of a job, whose row has lived since the one before: between the two come any operations of the executor, the
    write of the attempt's result and the next claim among them, but none that records this job's progress, retries it from
    the start or replaces jobs by an insert; and the attempt is given the progress in its row. *)
Record follows (wk wk' : worker) : Prop := {
  fo_before : wk_completed wk = false;
  fo_context : wk_context wk' = InAttempt;
  fo_ID : wk_ID wk' = wk_ID wk;
  fo_wf : wf (wk_db wk);
  fo_between : rtc (keeping (wk_ID wk)) (wk_db wk) (wk_db wk');
  fo_row : exists j j', In j (db_jobs (wk_db wk)) /\ In j' (db_jobs (wk_db wk')) /\ j_ID j' = wk_ID wk /\ j_seq j' = j_seq j;
  fo_given : wk_progress wk' = stored_progress wk' }.

Lemma one_by_id d j : wf d -> In j (db_jobs d) -> one (id_is (j_ID j)) (db_jobs d) = Some j.
Proof.
  intros Hw Hj. destruct (one _ _) as [k|] eqn:E.
  - apply one_Some in E as [Hk Hi]. unfold id_is in Hi. breflect. f_equal. eapply wf_unique_id; eauto.
  - rewrite one_None in E. specialize (E j Hj). unfold id_is in E. now rewrite Z.eqb_refl in E.
Qed.

(** What an attempt recorded is what the next one finds. *)
Lemma follows_stored wk wk' : follows wk wk' -> stored_progress wk' = stored_progress wk.
Proof.
  intros [_ _ Ei Hw Hb (j & j' & Hj & Hj' & Ei' & Es) _]. destruct (keeping_progress _ _ _ _ _ Hw Hb Hj Hj' Ei' Es) as (Hw' & Ej & Ep).
  unfold stored_progress. rewrite Ei. rewrite <- Ej at 2. rewrite (one_by_id _ j Hw Hj). rewrite <- Ei', (one_by_id _ j' Hw' Hj'), Ep. done.
Qed.

(** The attempts of a job that starts with no progress, with what each ran. *)
Inductive attempts (steps : list JobStep) : list (list (string * bool)) -> steps_result -> worker -> Prop :=
| attempts_first calls wk r wk' ran :
    wk_context wk = InAttempt -> wk_progress wk = None -> stored_progress wk = None ->
    RunSteps calls steps wk = (r, wk', ran) -> attempts steps [ran] r wk'
| attempts_next calls runs r0 wk0 wk r wk' ran :
    attempts steps runs r0 wk0 -> follows wk0 wk ->
    RunSteps calls steps wk = (r, wk', ran) -> attempts steps (runs ++ [ran]) r wk'.

(** From the step at [p], the runs take the steps in order to the one at [q]:
    each run's steps are consecutive, all but its last returned nil, and the next
    run starts after the last of them or repeats that one. *)
Inductive resumes (names : list string) : list (list (string * bool)) -> nat -> Prop :=
| resumes_none : resumes names [] O
| resumes_run runs p ran q :
    resumes names runs p -> List.map fst ran = List.firstn (List.length ran) (List.skipn p names) ->
    Forall (fun x => snd x = true) (removelast ran) ->
    (q = p + List.length ran \/ S q = p + List.length ran)%nat -> resumes names (runs ++ [ran]) q.

Lemma RunSteps_resumes calls steps wk r wk' ran p : check_steps [] steps = Ok tt -> Forall step_ok steps ->
  wk_context wk = InAttempt -> wk_progress wk = stored_progress wk -> resume_at steps (stored_name wk) = Some p ->
  RunSteps calls steps wk = (r, wk', ran) ->
  exists e q, r = StepsReturn e /\ List.map fst ran = List.firstn (List.length ran) (List.skipn p (names steps))
    /\ Forall (fun x => snd x = true) (removelast ran) /\ (q = p + List.length ran \/ S q = p + List.length ran)%nat
    /\ (wk_completed wk' = false -> resume_at steps (stored_name wk') = Some q) /\ (e = Ok tt -> q = List.length steps).
Proof.
  intros Hch Hok Hc Hg Hp. pose proof (check_steps_ok _ _ Hch) as (Hf & Hd & _). unfold RunSteps. rewrite Hch.
  assert (Ha : progress_name wk = stored_name wk) by (unfold progress_name, stored_name; now rewrite Hg).
  assert (Hs : start_at steps wk = Some p) by (unfold start_at; now rewrite Ha). rewrite Hs.
  destruct (run_steps calls (List.skipn p steps) wk) as [[e wk1] ran1] eqn:E. intros [= <- <- <-].
  assert (Hr' : Forall has_run (List.skipn p steps)) by (apply Forall_drop; revert Hf; apply List.Forall_impl; tauto).
  assert (Hs' : Forall step_ok (List.skipn p steps)) by now apply Forall_drop.
  destruct (run_steps_trace calls _ Hr' _ _ _ _ E) as (Hm & _ & Ht & Hl). unfold names in *. rewrite <- skipn_map in Hm.
  assert (Hend : (p <= List.length steps)%nat).
  { unfold resume_at in Hp. destruct (String.eqb _ _); [injection Hp; lia|]. clear -Hp. revert p Hp. generalize (stored_name wk). intros n.
    induction steps as [|x l IH]; intros p; simpl; [done|]. destruct (String.eqb _ _); [intros [= <-]; lia|].
    destruct (index_step n l) as [k|]; [|done]. intros [= <-]. specialize (IH (S k) eq_refl). lia. }
  assert (Hlen : e = Ok tt -> (p + List.length ran1 = List.length steps)%nat) by (intros He; specialize (Hl He); rewrite List.length_skipn in Hl; lia).
  exists e. destruct (wk_completed wk1) eqn:Ec.
  - exists (p + List.length ran1)%nat. repeat split; auto. intros [=].
  - destruct (run_steps_position calls steps Hd ltac:(rewrite List.Forall_forall in Hf; now apply Hf) _ Hr' Hs' p wk e wk1 ran1) as (q & Eq & Hq & Ho); try done.
    exists q. repeat split; auto. intros He. rewrite (Ho He). now apply Hlen.
Qed.

Lemma attempts_resume steps runs r wk : check_steps [] steps = Ok tt -> Forall step_ok steps -> attempts steps runs r wk ->
  exists e q, r = StepsReturn e /\ resumes (names steps) runs q /\ (wk_completed wk = false -> resume_at steps (stored_name wk) = Some q)
    /\ (e = Ok tt -> q = List.length steps).
Proof.
  intros Hch Hok. induction 1 as [calls wk r wk' ran Hc Hg Hs E|calls runs r0 wk0 wk r wk' ran _ IH Hf E].
  - destruct (RunSteps_resumes calls steps wk r wk' ran O) as (e & q & -> & Hm & Ht & Hq & Hpos & He); try done; [congruence|unfold stored_name; now rewrite Hs|].
    exists e, q. split; [done|]. split; [|done]. apply (resumes_run _ [] O); [constructor|done..].
  - pose proof (follows_stored _ _ Hf) as Hst. destruct Hf as [Hb Hc _ _ _ _ Hgi]. destruct IH as (e0 & p & -> & Hres & Hp & _). specialize (Hp Hb).
    destruct (RunSteps_resumes calls steps wk r wk' ran p) as (e & q & -> & Hm & Ht & Hq & Hpos & He); try done; [unfold stored_name in *; now rewrite Hst|].
    exists e, q. split; [done|]. split; [|done]. now apply (resumes_run _ _ p).
Qed.

(** Runs that reach the step at [q] have run every step before it. *)
Lemma resumes_covers ns runs q : resumes ns runs q -> forall n, In n (List.firstn q ns) -> In n (List.map fst (List.concat runs)).
Proof.
  induction 1 as [|runs p ran q _ IH Hm _ Hq]; [done|]. intros n Hn. rewrite List.concat_app, map_app. simpl. rewrite app_nil_r. apply in_app_iff.
  assert (Hn' : In n (List.firstn (p + List.length ran) ns)).
  { rewrite <- (List.firstn_skipn q (List.firstn _ _)), List.firstn_firstn, Nat.min_l by lia. apply in_app_iff. now left. }
  rewrite <- (List.firstn_skipn p ns), List.firstn_app in Hn'. apply in_app_iff in Hn' as [Hn'|Hn'].
  - left. apply IH. rewrite <- (List.firstn_skipn (p + List.length ran) (List.firstn p ns)). apply in_app_iff. now left.
  - right. rewrite Hm. rewrite List.length_firstn in Hn'. clear -Hn'. destruct (le_gt_dec p (List.length ns)).
    + replace (p + List.length ran - Nat.min p (List.length ns))%nat with (List.length ran) in Hn' by lia. done.
    + rewrite List.skipn_all2 in Hn' by lia. now rewrite List.firstn_nil in Hn'.
Qed.

(** C18: Steps run in order and are resumed, over all the attempts of a job
    whose row lives from its first attempt to its last.  The steps are ones
    RunSteps accepts (each named, named once, with a function), and each step's
    function, success or not, stores no progress but under its own name or the one
    stored before, and one that returns nil leaves the attempt's progress as
    stored.  Between two attempts come any operations of the executor (results
    written, claims, rescues, retries, other jobs' records and inserts), but
    none that records this job's progress, retries it from the start or replaces
    jobs by an insert.  Then no attempt is canceled; each attempt runs
    consecutive steps, goes past a step only once it returned nil, and starts after
    the last step of the attempt before or at that step, never earlier or later;
    and when RunSteps returns nil every step has been run. *)
Theorem steps_resume steps runs r wk : check_steps [] steps = Ok tt -> Forall step_ok steps -> attempts steps runs r wk ->
  exists e q, r = StepsReturn e /\ resumes (names steps) runs q
    /\ (wk_completed wk = false -> resume_at steps (stored_name wk) = Some q)
    /\ (e = Ok tt -> q = List.length steps /\ forall s, In s steps -> In (js_name s) (List.map fst (List.concat runs))).
Proof.
  intros Hch Hok Ha. destruct (attempts_resume _ _ _ _ Hch Hok Ha) as (e & q & -> & Hr & Hp & He).
  exists e, q. split; [done|]. split; [done|]. split; [done|]. intros Hok'. specialize (He Hok'). split; [done|]. intros s Hs.
  apply (resumes_covers _ _ _ Hr). rewrite He, List.firstn_all2; [now apply in_map|]. unfold names. now rewrite List.length_map.
Qed.
