(* ===== verification/ProducerSpec.v ===== *)
(** * The producer of a queue: theorems on Producer.v

    A producer never runs more jobs than it has workers and starts each claim
    once; and its loop never sleeps through a wake-up while it could claim. *)

From Stdlib Require Import List ZArith Lia Bool String Permutation.
From stdpp Require Import base tactics list relations.
From S2P Require Import Prelude Counting Sql Types Store Logic Claim Evolution Engine ClaimSpec Producer.
Import ListNotations.
Local Open Scope Z_scope.
Local Open Scope list_scope.

(** ** What a claim gives *)

(** Rows a claim has taken: in the database it leaves, each once, and each with a fence above the one it had. *)
Record takes (n : Z) (d d' : DB) (jobs : list JobView) : Prop := {
  tk_length : Z.of_nat (List.length jobs) <= n;
  tk_NoDup : List.NoDup (List.map (fun v => j_seq (v_job v)) jobs);
  tk_rows : forall v, In v jobs -> In (v_job v) (db_jobs d') /\ exists j, In j (db_jobs d) /\ j_seq (v_job v) = j_seq j /\ j_Fence j < j_Fence (v_job v) }.

Lemma takes_none n d : 0 <= n -> takes n d d [].
Proof. intros Hn. split; [simpl; lia|constructor|done]. Qed.

Lemma takes_jobs n m d d1 d2 jobs : n <= m -> db_jobs d2 = db_jobs d1 -> takes n d d1 jobs -> takes m d d2 jobs.
Proof. intros Hn E [H1 H2 H3]. split; [lia|done|]. intros v Hv. rewrite E. now apply H3. Qed.

Lemma claim_takes q c n p x d jobs d' : wf d -> 0 <= n -> claim q c n p x d = Ok (jobs, d') -> takes n d d' jobs.
Proof.
  intros Hw Hn. destruct (Z.leb_spec n 0) as [Hle|Hlt].
  { unfold claim. assert (Z.min n claimMax <=? 0 = true) as -> by (apply Z.leb_le; lia). intros [= <- <-]. now apply takes_none. }
  destruct (claim_runs d q c n p x Hw Hlt) as (views & E & Hp). rewrite E. intros [= <- <-].
  set (chosen := chosen_now q n p x d) in *. set (rows := sel (is_chosen chosen) (db_jobs d)) in *.
  assert (Hlen : Z.of_nat (List.length views) <= n).
  { apply Permutation_length in Hp. rewrite !List.length_map in Hp. rewrite Hp. unfold rows, chosen. rewrite (Permutation_length (sel_chosen d q n p x Hw)).
    etransitivity; [apply length_limit; unfold claimMax; lia|unfold claimMax; lia]. }
  split; [done| |].
  - rewrite <- (map_map v_job j_seq). apply (Permutation_NoDup (l := List.map j_seq rows)).
    + symmetry. rewrite (Permutation_map j_seq Hp). rewrite map_map. reflexivity.
    + apply NoDup_map_sel. now destruct Hw as [(_ & _ & Hs & _)%jobs_ok_spec _ _].
  - intros v Hv. assert (Hv' : In (v_job v) (List.map (claim_row (w_now x) c) rows)) by (rewrite <- Hp; now apply in_map).
    apply in_map_iff in Hv' as (j & Ej & Hj). rewrite <- Ej. unfold rows in Hj. apply In_sel in Hj as [Hj Hc]. split.
    + cbn [db_jobs]. unfold upd. apply in_map_iff. exists j. now rewrite Hc.
    + exists j. split; [done|]. split; [done|]. cbn. lia.
Qed.

Lemma claimLimited_takes p x d r d' : wf d -> 0 < cp_Limit p -> claimLimited p x d = Ok (r, d') -> takes (cp_Limit p) d d' (cr_Jobs r).
Proof.
  intros Hw Hl. unfold claimLimited, bind, get. destruct (one (queue_is (cp_Queue p)) (db_queues d)) as [q|].
  2: { destruct (claim _ _ _ _ x d) as [[jobs d1]|] eqn:E; [|done]. intros [= <- <-]. apply claim_takes in E; [done|done|lia]. }
  unfold us. set (budget := match q_global_limit q with Some g => _ | None => _ end).
  assert (Hb : budget <= cp_Limit p) by (unfold budget; destruct (q_global_limit q); lia).
  destruct (match has_rate q with None => _ | Some _ => _ end) as [b wait] eqn:Eb.
  assert (Hb' : b <= cp_Limit p) by (destruct (has_rate q); injection Eb as <- <-; lia). clear Eb.
  destruct (Z.leb_spec b 0); [intros [= <- <-]; apply takes_none; lia|].
  destruct (claim _ _ b _ x d) as [[jobs d1]|] eqn:E; [|done]. apply claim_takes in E; [|done|lia].
  destruct (has_rate q); intros [= <- <-]; now apply (takes_jobs b _ _ d1).
Qed.

Lemma JobClaim_takes p x d r d' : wf d -> 0 <= cp_Limit p -> JobClaim p x d = (Ok r, d') -> takes (cp_Limit p) d d' (cr_Jobs r).
Proof.
  intros Hw Hl. unfold JobClaim. destruct (Z.leb_spec (cp_Limit p) 0); [intros [= <- <-]; now apply takes_none|]. unfold write.
  destruct (cp_Limited p).
  - destruct (claimLimited p x d) as [[r' d1]|] eqn:E; [|done]. intros [= <- <-]. now apply claimLimited_takes in E.
  - unfold bind. destruct (claim _ _ _ _ x d) as [[jobs d1]|] eqn:E; [|done]. intros [= <- <-]. now apply claim_takes in E.
Qed.

(** ** Slots *)

Definition unfreed (g : goroutine) : nat := match g_stage g with Working | Submitting | Unfreed => 1 | _ => 0 end.
Definition to_start (p : producer) : list JobView := match pd_place p with Starting _ _ rest _ _ => rest | _ => [] end.

Section Slots.
Context (c : producerConfig).

(** The slots counted free, or claimed for, are still free. *)
Definition slots_ok (p : producer) : Prop :=
  match pd_place p with
  | Counted free => 0 <= free /\ pd_running p + free <= pc_MaxWorkers c
  | Claiming free => 0 < free /\ pd_running p + free <= pc_MaxWorkers c
  | _ => pd_running p + Z.of_nat (List.length (to_start p)) <= pc_MaxWorkers c
  end.

Record slots (p : producer) : Prop := {
  sl_running : pd_running p = Z.of_nat (total unfreed (pd_jobs p));
  sl_claimed : pd_claimed p = List.map g_job (pd_jobs p) ++ to_start p;
  sl_ok : slots_ok p }.

Lemma slots_at p p' : pd_running p' = pd_running p -> pd_jobs p' = pd_jobs p -> pd_claimed p' = pd_claimed p -> to_start p' = to_start p ->
  slots_ok p' -> slots p -> slots p'.
Proof. intros E1 E2 E3 E4 Hs [H1 H2 H3]. split; [now rewrite E1, E2|now rewrite E3, E2, E4|done]. Qed.

Lemma slots_bound p : slots p -> pd_running p <= pc_MaxWorkers c.
Proof. intros [H1 _ H3]. unfold slots_ok in H3. destruct (pd_place p); lia. Qed.

Lemma consider_slots now free p : pd_place p = Counted free -> slots p -> slots (consider c now free p).
Proof.
  intros E Hs. pose proof (sl_ok _ Hs) as Ho. unfold slots_ok in Ho. rewrite E in Ho.
  unfold consider. set (f := if pd_paused p then 0 else free). assert (Hf : f <= free) by (unfold f; destruct (pd_paused p); lia).
  destruct (Z.ltb_spec 0 f).
  - destruct (_ || _); apply (slots_at p); try done; try (unfold to_start; cbn; now rewrite E); unfold slots_ok; cbn; lia.
  - apply (slots_at p); try done; try (unfold to_start; cbn; now rewrite E). unfold slots_ok; cbn; lia.
Qed.

Lemma claim_answered_slots free out p : pd_place p = Claiming free -> (forall r, out = Ok r -> Z.of_nat (List.length (cr_Jobs r)) <= free) ->
  slots p -> slots (claim_answered free out p).
Proof.
  intros E Hl [H1 H2 H3]. unfold slots_ok in H3. rewrite E in H3. assert (Hr : to_start p = []) by (unfold to_start; now rewrite E).
  destruct out as [r|e]; (split; [exact H1| |unfold slots_ok; cbn]).
  - cbn. rewrite H2, Hr, app_nil_r. reflexivity.
  - specialize (Hl r eq_refl). lia.
  - cbn. now rewrite H2, Hr.
  - lia.
Qed.

Lemma start_slots free n job rest wait failed p : pd_place p = Starting free n (job :: rest) wait failed -> slots p ->
  slots ((start job p) <| pd_place := Starting free n rest wait failed |>).
Proof.
  intros E [H1 H2 H3]. unfold slots_ok, to_start in *. rewrite E in *. split.
  - cbn. rewrite H1, total_app. cbn. lia.
  - cbn. rewrite H2, map_app, <- app_assoc. reflexivity.
  - unfold slots_ok. cbn. unfold to_start. cbn. cbn in H3. lia.
Qed.

Lemma claim_done_slots now free n wait failed p : pd_place p = Starting free n [] wait failed -> slots p -> slots (claim_done c now free n wait failed p).
Proof.
  intros E Hs. pose proof (slots_bound p Hs) as Hb. apply (slots_at p); try done.
  - unfold to_start, claim_done. rewrite E. cbn. now repeat case_match.
  - unfold slots_ok, to_start, claim_done. cbn. destruct (pd_stopping p), failed, (0 <? wait), (n =? free); cbn; lia.
Qed.

Lemma goroutine_slots i g p : pd_jobs p !! i = Some g -> g_stage g <> Ended -> slots p -> slots (goroutine_step i g p).
Proof.
  intros Hi Hg [H1 H2 H3]. pose proof (total_insert unfreed _ i g (next_stage g) Hi) as Ht.
  assert (Hm : List.map g_job (<[i := next_stage g]> (pd_jobs p)) = List.map g_job (pd_jobs p)).
  { change (List.map g_job) with (fmap (M := list) g_job). rewrite list_fmap_insert. cbn. apply list_insert_id. rewrite list_lookup_fmap, Hi. done. }
  assert (Hp : pd_place (goroutine_step i g p) = pd_place p) by (unfold goroutine_step; now destruct (g_stage g)).
  assert (Hj : pd_jobs (goroutine_step i g p) = <[i := next_stage g]> (pd_jobs p)) by (unfold goroutine_step; now destruct (g_stage g)).
  assert (Hc : pd_claimed (goroutine_step i g p) = pd_claimed p) by (unfold goroutine_step; now destruct (g_stage g)).
  assert (Hr : pd_running (goroutine_step i g p) = Z.of_nat (total unfreed (<[i := next_stage g]> (pd_jobs p)))).
  { unfold goroutine_step, unfreed, next_stage in *. destruct (g_stage g); cbn in *; try done; lia. }
  assert (Hle : pd_running (goroutine_step i g p) <= pd_running p) by (unfold goroutine_step; destruct (g_stage g); cbn; lia).
  split.
  - now rewrite Hr, Hj.
  - unfold to_start. now rewrite Hc, Hj, Hm, Hp.
  - unfold slots_ok, to_start in *. rewrite Hp. destruct (pd_place p); lia.
Qed.

Lemma produce_slots s s' : wf (pn_db s) -> produce c s s' -> slots (pn_producer s) -> slots (pn_producer s').
Proof.
  intros Hw H Hs. pose proof (slots_bound _ Hs) as Hb. destruct H; cbn [pn_producer pn_db] in *; try done;
    try (apply (slots_at p); try done; unfold slots_ok, to_start in *; try rewrite H; cbn; first [reflexivity | lia]; fail).
  - apply (slots_at p); try done. exact (sl_ok _ Hs).
  - unfold setPaused. destruct (Bool.eqb _ _); [done|]. destruct paused; apply (slots_at p); try done; exact (sl_ok _ Hs).
  - apply (slots_at p); try done. exact (sl_ok _ Hs).
  - apply (slots_at p); try done. exact (sl_ok _ Hs).
  - apply (slots_at p); try done. exact (sl_ok _ Hs).
  - now apply consider_slots.
  - apply claim_answered_slots; [done| |done]. intros r' ->. pose proof (sl_ok _ Hs) as Ho. unfold slots_ok in Ho. rewrite H in Ho.
    apply JobClaim_takes in H0 as [Hl _ _]; [exact Hl|done|cbn; lia].
  - now apply start_slots.
  - now apply claim_done_slots.
  - apply (slots_at p); try done; unfold slots_ok, to_start; cbn; destruct (pd_place p); try done; lia.
  - now apply goroutine_slots.
Qed.
End Slots.

(** ** Claims *)

Definition claim_key (v : JobView) : Z * Z := (j_seq (v_job v), j_Fence (v_job v)).

(** The claims made: no two alike, and none older than what the row has had since. *)
Record claims (d : DB) (claimed : list JobView) : Prop := {
  cm_NoDup : List.NoDup (List.map claim_key claimed);
  cm_rows : forall v, In v claimed -> j_seq (v_job v) <= db_seq d /\ forall k, In k (db_jobs d) -> j_seq k = j_seq (v_job v) -> j_Fence (v_job v) <= j_Fence k }.

Lemma claims_later d d' claimed : wf d -> advances d d' -> claims d claimed -> claims d' claimed.
Proof.
  intros Hw Ha [H1 H2]. destruct (Ha Hw) as [_ [Es Er]]. split; [done|]. intros v [Hs Hf]%H2. split; [lia|]. intros k' Hk Ek.
  destruct (Er k' Hk ltac:(lia)) as (k & Hin & Ev). etransitivity; [apply (Hf k Hin)|apply (ev_Fence _ _ Ev)]. rewrite <- Ek. symmetry. apply (ev_seq _ _ Ev).
Qed.

Lemma claims_taken n d d' claimed jobs : wf d -> advances d d' -> takes n d d' jobs -> claims d claimed -> claims d' (claimed ++ jobs).
Proof.
  intros Hw Ha [_ Hn Ht] Hc. pose proof Hc as [H1 H2]. destruct (Ha Hw) as [Hw' _]. split.
  - rewrite map_app. apply List.NoDup_app; [done| |].
    + apply (NoDup_map_inv fst). rewrite map_map. exact Hn.
    + intros key (v & <- & Hv)%in_map_iff (v' & E & Hv')%in_map_iff. injection E as Es Ef.
      destruct (Ht v' Hv') as (_ & j & Hj & Ej & Hlt). pose proof (proj2 (H2 v Hv) j Hj ltac:(congruence)). lia.
  - intros v [Hv|Hv]%in_app_iff; [now apply (cm_rows _ _ (claims_later _ _ _ Hw Ha Hc))|]. destruct (Ht v Hv) as [Hin _]. split.
    + destruct Hw' as [_ Hs _]. rewrite List.Forall_forall in Hs. now apply Hs.
    + intros k Hk Ek. now rewrite (wf_unique_seq d' k (v_job v) Hw' Hk Hin Ek).
Qed.

Lemma produce_claims c s s' : wf (pn_db s) -> slots c (pn_producer s) -> produce c s s' ->
  claims (pn_db s) (pd_claimed (pn_producer s)) -> wf (pn_db s') /\ claims (pn_db s') (pd_claimed (pn_producer s')).
Proof.
  intros Hw Hsl H Hc. destruct H; cbn [pn_producer pn_db] in *; try done.
  - pose proof (step_advances _ _ H) as Ha. split; [apply (Ha Hw)|]. now apply (claims_later d).
  - split; [done|]. unfold setPaused. destruct (Bool.eqb _ _), paused; done.
  - split; [done|]. unfold consider. destruct (_ <? _); [destruct (_ || _)|]; done.
  - assert (Ha : advances d d') by (apply step_advances; replace d' with (snd (r, d')) by done; rewrite <- H0; constructor).
    split; [apply (Ha Hw)|]. destruct r as [r|e].
    + pose proof (sl_ok _ _ Hsl) as Ho. unfold slots_ok in Ho. rewrite H in Ho. apply JobClaim_takes in H0; [|done|cbn; lia]. cbn. now apply (claims_taken free d).
    + now apply (claims_later d).
  - split; [done|]. unfold goroutine_step. destruct (g_stage g); done.
Qed.

(** ** Wake-ups *)

Definition signaling (p : producer) : Prop := exists i g, pd_jobs p !! i = Some g /\ g_stage g = Signaling.

(** Something will bring the loop back: a channel that was sent on, or a send that is coming. *)
Definition rousing (p : producer) : Prop := pd_wake p = true \/ pd_freed p = true \/ pd_resuming p <> O \/ signaling p.

Definition awake (c : producerConfig) (p : producer) : Prop :=
  match pd_place p with
  | Counted free => free <= 0 -> pd_running p = pc_MaxWorkers c \/ rousing p
  | Claiming _ | Starting _ _ _ _ _ => pd_due p = true -> pd_wake p = true \/ pd_freed p = true
  | Selecting None _ => pd_due p = true -> pd_paused p = true \/ pd_running p = pc_MaxWorkers c \/ rousing p
  | _ => True
  end.

Lemma signaling_step i g p : pd_jobs p !! i = Some g -> g_stage g <> Ended -> signaling p -> signaling (goroutine_step i g p) \/ pd_freed (goroutine_step i g p) = true.
Proof.
  intros Hi Hg (k & h & Hk & Eh). destruct (decide (i = k)) as [->|Hne].
  - rewrite Hi in Hk. injection Hk as <-. right. unfold goroutine_step. now rewrite Eh.
  - left. exists k, h. split; [|done]. unfold goroutine_step. destruct (g_stage g); cbn; now rewrite list_lookup_insert_ne.
Qed.

Lemma rousing_step i g p : pd_jobs p !! i = Some g -> g_stage g <> Ended -> rousing p -> rousing (goroutine_step i g p).
Proof.
  intros Hi Hg [H|[H|[H|H]]]; unfold rousing.
  - left. unfold goroutine_step. now destruct (g_stage g).
  - right. left. unfold goroutine_step. now destruct (g_stage g).
  - right. right. left. unfold goroutine_step. now destruct (g_stage g).
  - destruct (signaling_step i g p Hi Hg H); auto.
Qed.

(** A goroutine keeps every slot taken, or frees one and is about to say so. *)
Lemma full_step c i g p : pd_jobs p !! i = Some g -> g_stage g <> Ended -> pd_running p = pc_MaxWorkers c ->
  pd_running (goroutine_step i g p) = pc_MaxWorkers c \/ rousing (goroutine_step i g p).
Proof.
  intros Hi Hg Hf. destruct (g_stage g) eqn:E; try (left; unfold goroutine_step; now rewrite E).
  right. right. right. right. exists i, (next_stage g). split; [|unfold next_stage; now rewrite E].
  unfold goroutine_step. rewrite E. cbn. rewrite list_lookup_insert_eq; [done|]. now apply lookup_lt_Some in Hi.
Qed.

Lemma goroutine_awake c i g p : pd_jobs p !! i = Some g -> g_stage g <> Ended -> awake c p -> awake c (goroutine_step i g p).
Proof.
  intros Hi Hg Ha. assert (Hp : pd_place (goroutine_step i g p) = pd_place p) by (unfold goroutine_step; now destruct (g_stage g)).
  assert (Hps : pd_paused (goroutine_step i g p) = pd_paused p) by (unfold goroutine_step; now destruct (g_stage g)).
  assert (Hd : pd_due (goroutine_step i g p) = pd_due p \/ pd_freed (goroutine_step i g p) = true) by (unfold goroutine_step; destruct (g_stage g); cbn; auto).
  assert (Hwf : pd_wake p = true \/ pd_freed p = true -> pd_wake (goroutine_step i g p) = true \/ pd_freed (goroutine_step i g p) = true)
    by (unfold goroutine_step; destruct (g_stage g); cbn; tauto).
  assert (Hall : pd_running p = pc_MaxWorkers c \/ rousing p -> pd_running (goroutine_step i g p) = pc_MaxWorkers c \/ rousing (goroutine_step i g p))
    by (intros [H|H]; [now apply full_step|right; now apply rousing_step]).
  unfold awake in *. rewrite Hp, Hps. destruct (pd_place p) as [|free| | | |[t|] poll|]; auto.
  - destruct Hd as [-> | Hd]; auto.
  - destruct Hd as [-> | Hd]; auto.
  - destruct Hd as [-> | Hd]; [|intros _; right; right; right; now left]. intros [H|H]%Ha; auto.
Qed.

Lemma consider_awake c now free p : pd_place p = Counted free -> awake c p -> awake c (consider c now free p).
Proof.
  intros E Ha. unfold awake in Ha. rewrite E in Ha. unfold consider. destruct (pd_paused p) eqn:Ep; [cbn; unfold awake; cbn; auto|].
  destruct (Z.ltb_spec 0 free).
  - destruct (pd_lastClaim p) as [t|]; [destruct (_ || _)|rewrite orb_true_r]; unfold awake; cbn; done.
  - unfold awake. cbn. intros _. right. now apply Ha.
Qed.

Lemma claim_done_awake c now free n wait failed p : pd_place p = Starting free n [] wait failed -> awake c p -> awake c (claim_done c now free n wait failed p).
Proof.
  intros E Ha. unfold awake in Ha. rewrite E in Ha. unfold awake, claim_done. cbn. destruct (pd_stopping p), failed, (0 <? wait), (n =? free); cbn; try done.
  intros [H|H]%Ha; right; right; unfold rousing; cbn; auto.
Qed.

Lemma produce_awake c s s' : slots c (pn_producer s) -> produce c s s' -> awake c (pn_producer s) -> awake c (pn_producer s').
Proof.
  intros Hsl H Ha. destruct H; cbn [pn_producer pn_db] in *; try done.
  - unfold awake, rousing. cbn. destruct (pd_place p) as [| | | | |[|]|]; auto.
  - unfold setPaused. destruct (Bool.eqb _ _); [done|]. unfold awake, rousing in *. destruct paused; cbn; destruct (pd_place p) as [| | | | |[|]|]; auto.
    intros _. right. right. right. right. left. discriminate.
  - unfold awake, rousing. cbn. destruct (pd_place p) as [| | | | |[|]|]; auto.
  - pose proof (slots_bound _ _ Hsl). unfold awake. cbn. intros Hf. left. lia.
  - now apply consider_awake.
  - unfold awake in *. rewrite H in Ha. destruct r; exact Ha.
  - unfold awake in *. rewrite H in Ha. exact Ha.
  - unfold awake in *. rewrite H in Ha. exact Ha.
  - now apply claim_done_awake.
  - now apply goroutine_awake.
Qed.

(** ** Runs *)

Record producer_ok (c : producerConfig) (s : production) : Prop := {
  po_wf : wf (pn_db s);
  po_slots : slots c (pn_producer s);
  po_claims : claims (pn_db s) (pd_claimed (pn_producer s));
  po_awake : awake c (pn_producer s) }.

Lemma produces_ok c s : 0 <= pc_MaxWorkers c -> produces c s -> producer_ok c s.
Proof.
  intros Hm (now & paused & limited & Hr).
  assert (H0 : producer_ok c (mkProduction now empty_db (startProducer paused limited))).
  { split; [apply wf_empty| | |done]; split; cbn; try done; [constructor]. }
  revert H0. generalize dependent (mkProduction now empty_db (startProducer paused limited)). intros s0 Hr H0.
  induction Hr as [|s0 s1 s H _ IH]; [done|]. apply IH. destruct H0 as [H1 H2 H3 H4]. destruct (produce_claims c _ _ H1 H2 H H3) as [H1' H3'].
  split; [done| |done|]; [now apply (produce_slots c s0)|now apply (produce_awake c s0)].
Qed.

(** C5: A producer keeps to its workers and starts every claim once.  Over any run of its loop, of its goroutines and of the engine: the jobs
    it runs are those of its goroutines that have not given back their slot, and never more than its workers; what it claimed is, in
    order, what it has started and what it is starting; and no claim (a row under a fence) is among them twice. *)
Theorem producer_within_workers c s : 0 <= pc_MaxWorkers c -> produces c s ->
  let p := pn_producer s in
  pd_running p = Z.of_nat (total unfreed (pd_jobs p)) /\ 0 <= pd_running p <= pc_MaxWorkers c
  /\ pd_claimed p = List.map g_job (pd_jobs p) ++ to_start p
  /\ List.NoDup (List.map claim_key (pd_claimed p)).
Proof.
  intros Hm Hp p. destruct (produces_ok c s Hm Hp) as [_ Hs [Hn _] _]. fold p in Hs, Hn. pose proof (slots_bound c p Hs).
  destruct Hs as [H1 H2 _]. split; [done|]. split; [lia|]. done.
Qed.

(** C6: A producer does not sleep through a wake-up.  If one of its channels was sent on since its loop last went for a claim, and the loop is in its
    select with nothing there but the poll (no cooldown, nothing on wake or freed), then the queue is paused, or every worker is
    taken, or a send is coming: of a resume under way, or of a job that gave back its slot. *)
Theorem producer_not_asleep c s poll : 0 <= pc_MaxWorkers c -> produces c s ->
  let p := pn_producer s in
  pd_place p = Selecting None poll -> pd_due p = true -> pd_wake p = false -> pd_freed p = false ->
  pd_paused p = true \/ pd_running p = pc_MaxWorkers c \/ pd_resuming p <> O \/ signaling p.
Proof.
  intros Hm Hp p Epl Hd Hw Hf. destruct (produces_ok c s Hm Hp) as [_ _ _ Ha]. fold p in Ha. unfold awake in Ha. rewrite Epl in Ha.
  destruct (Ha Hd) as [H|[H|[H|[H|H]]]]; auto; congruence.
Qed.
