(* ===== verification/NotifierSpec.v ===== *)
(** * The notifier: theorems on Notifier.v

    Every mark is sent by a notification begun after it, timers fire an
    interval apart, and a flushNow that was let finish leaves nothing behind. *)

From Stdlib Require Import List ZArith Lia Bool String.
From stdpp Require Import base tactics list gmap sets strings relations.
From S2P Require Import Prelude Notifier.
Import ListNotations.
Local Open Scope Z_scope.
Local Open Scope list_scope.

Definition queues_of (at_ : flush_place) : gset string := match at_ with SendQueues q _ => q | _ => ∅ end.
Definition topics_of (at_ : flush_place) : gset string := match at_ with SendQueues _ t | SendTopics t => t | _ => ∅ end.

(** A flush in progress, of a timer's or of flushNow. *)
Definition in_flush (n : notifier) (at_ : flush_place) : Prop := at_ ∈ nf_fires n \/ exists settled, nf_flushNow n = FlushingNow settled at_.

(** A flush that has not taken what is pending yet is under way, or one will be. *)
Definition flush_coming (n : notifier) : Prop := nf_timer n <> NoTimer \/ in_flush n Taking \/ nf_flushNow n = Waiting.

Definition armed (n : notifier) : nat := match nf_timer n with NoTimer => 0 | _ => 1 end.

(** The firings, the latest first, are each an interval or more after the one before; the timer's next is too. *)
Fixpoint spaced (interval : Z) (times : list Z) : Prop :=
  match times with
  | t :: ((t' :: _) as rest) => t' + interval <= t /\ spaced interval rest
  | _ => True
  end.
Definition after_last (interval t : Z) (times : list Z) : Prop := match times with [] => True | t' :: _ => t' + interval <= t end.

Record notifier_ok (interval now : Z) (n : notifier) : Prop := {
  no_timers : nf_timers n = (List.length (nf_fires n) + armed n)%nat;
  no_pending : nf_pending n <> ∅ \/ nf_streams n <> ∅ -> flush_coming n;
  no_unsent : forall q, q ∈ nf_unsent n -> q ∈ nf_pending n \/ exists at_, in_flush n at_ /\ q ∈ queues_of at_;
  no_unsentStreams : forall t, t ∈ nf_unsentStreams n -> t ∈ nf_streams n \/ exists at_, in_flush n at_ /\ t ∈ topics_of at_;
  no_spaced : spaced interval (nf_fired n);
  no_past : match nf_fired n with [] => True | t :: _ => t <= now end;
  no_next : match nf_timer n with NoTimer => True | Armed due => after_last interval due (nf_fired n) | Expired => after_last interval now (nf_fired n) end;
  no_settled : match nf_flushNow n with
               | FlushingNow true at_ => nf_late n = false -> nf_timer n = NoTimer /\ nf_fires n = [] /\ (at_ <> Taking -> nf_pending n = ∅ /\ nf_streams n = ∅)
               | NowReturned true => nf_late n = false -> nf_timer n = NoTimer /\ nf_fires n = [] /\ nf_pending n = ∅ /\ nf_streams n = ∅
               | _ => True
               end }.

Section Notifying.
Context (interval : Z).

Lemma after_past now times : match times with [] => True | t :: _ => t <= now end -> after_last interval (now + interval) times.
Proof. destruct times; simpl; [done|]. lia. Qed.

(** A name marked, on either channel. *)
Lemma marked_ok now n p s u v : notifier_ok interval now n ->
  (forall q, q ∈ u -> q ∈ nf_unsent n \/ q ∈ p) -> (forall t, t ∈ v -> t ∈ nf_unsentStreams n \/ t ∈ s) -> nf_pending n ⊆ p -> nf_streams n ⊆ s ->
  notifier_ok interval now (arm interval now (n <| nf_pending := p |> <| nf_streams := s |> <| nf_unsent := u |> <| nf_unsentStreams := v |> <| nf_late := true |>)).
Proof.
  intros [H1 H2 H3 H4 H5 H6 H7 H8] Hu Hv Hp Hs. unfold arm. cbn [nf_timer set_field].
  assert (Hu' : forall q, q ∈ u -> q ∈ p \/ exists at_, in_flush n at_ /\ q ∈ queues_of at_) by (intros q [Hq|Hq]%Hu; [destruct (H3 q Hq) as [Hq'|Hq']; [left; set_solver|auto]|auto]).
  assert (Hv' : forall t, t ∈ v -> t ∈ s \/ exists at_, in_flush n at_ /\ t ∈ topics_of at_) by (intros t [Ht|Ht]%Hv; [destruct (H4 t Ht) as [Ht'|Ht']; [left; set_solver|auto]|auto]).
  assert (H8' : match nf_flushNow n with FlushingNow true at_ => true = false -> nf_timer n = NoTimer /\ nf_fires n = [] /\ (at_ <> Taking -> p = ∅ /\ s = ∅)
                 | NowReturned true => true = false -> nf_timer n = NoTimer /\ nf_fires n = [] /\ p = ∅ /\ s = ∅ | _ => True end)
    by (destruct (nf_flushNow n) as [| |[|]|[|]]; done).
  unfold armed in *. cbn. destruct (nf_timer n) eqn:E; cbn; split; cbn; unfold armed, flush_coming; cbn; rewrite ?E; auto; try (left; discriminate); try lia; try congruence;
    try (now apply after_past); try (destruct (nf_flushNow n) as [| |[|]|[|]]; done).
Qed.
(** A step of a flush leaves its names pending no longer and in its hands until they are sent. *)
Lemma flush_step_ok now n at_ at' n' n2 : notifier_ok interval now n -> at_ <> Flushed -> flush_step at_ n = (at', n') ->
  n2 = n' <| nf_fires := nf_fires n2 |> <| nf_flushNow := nf_flushNow n2 |> -> in_flush n2 at' ->
  (forall x, in_flush n x -> x = at_ \/ in_flush n2 x) -> List.length (nf_fires n2) = List.length (nf_fires n) ->
  (nf_flushNow n = Waiting -> nf_flushNow n2 = Waiting) ->
  match nf_flushNow n2 with
  | FlushingNow true at_ => nf_late n2 = false -> nf_timer n2 = NoTimer /\ nf_fires n2 = [] /\ (at_ <> Taking -> nf_pending n2 = ∅ /\ nf_streams n2 = ∅)
  | NowReturned true => nf_late n2 = false -> nf_timer n2 = NoTimer /\ nf_fires n2 = [] /\ nf_pending n2 = ∅ /\ nf_streams n2 = ∅
  | _ => True
  end -> notifier_ok interval now n2.
Proof.
  intros [H1 H2 H3 H4 H5 H6 H7 H8] Hf E En Hin Hkeep Hlen Hwait Hset.
  assert (Hcom : at_ <> Taking -> flush_coming n -> flush_coming n2).
  { intros Ht [H|[H|H]]; unfold flush_coming.
    - left. rewrite En. cbn. clear -E H. destruct at_; injection E as <- <-; exact H.
    - right. left. destruct (Hkeep _ H) as [<-|H']; done.
    - right. right. now apply Hwait. }
  destruct at_ as [|q t|t|]; [| | |done]; injection E as <- <-; destruct n2 as [p2 s2 tm2 c2 f2 fn2 e2 u2 v2 l2 fd2]; cbn in *; injection En as -> -> -> -> -> -> -> -> ->; split; cbn; try done;
    try (unfold armed in *; cbn in *; lia).
  - intros [H|H]; done.
  - intros x Hx. destruct (H3 x Hx) as [Hp|(a & Ha & Hxa)].
    + right. exists (SendQueues (nf_pending n) (nf_streams n)). split; [|done].
      rewrite bool_decide_eq_false_2 in Hin; [done|]. intros [Ep _]. rewrite Ep in Hp. set_solver.
    + right. exists a. split; [|done]. destruct (Hkeep a Ha) as [->|]; [|done]. cbn in Hxa. set_solver.
  - intros x Hx. destruct (H4 x Hx) as [Hp|(a & Ha & Hxa)].
    + right. exists (SendQueues (nf_pending n) (nf_streams n)). split; [|done].
      rewrite bool_decide_eq_false_2 in Hin; [done|]. intros [_ Es]. rewrite Es in Hp. set_solver.
    + right. exists a. split; [|done]. destruct (Hkeep a Ha) as [->|]; [|done]. cbn in Hxa. set_solver.
  - auto.
  - intros x [Hx Hnot]%elem_of_difference. destruct (H3 x Hx) as [Hp|(a & Ha & Hxa)]; [auto|]. right. exists a. split; [|done].
    destruct (Hkeep a Ha) as [->|]; done.
  - intros x Hx. destruct (H4 x Hx) as [Hp|(a & Ha & Hxa)]; [auto|]. right.
    destruct (Hkeep a Ha) as [->|]; [exists (SendTopics t); done|exists a; done].
  - auto.
  - intros x Hx. destruct (H3 x Hx) as [Hp|(a & Ha & Hxa)]; [auto|]. right. exists a. split; [|done]. destruct (Hkeep a Ha) as [->|]; [|done]. cbn in Hxa. set_solver.
  - intros x [Hx Hnot]%elem_of_difference. destruct (H4 x Hx) as [Hp|(a & Ha & Hxa)]; [auto|]. right. exists a. split; [|done].
    destruct (Hkeep a Ha) as [->|]; done.
Qed.
(** The parts of a notifier a step may leave as they are. *)
Lemma kept_ok now n n2 : notifier_ok interval now n ->
  n2 = n <| nf_timer := nf_timer n2 |> <| nf_timers := nf_timers n2 |> <| nf_fires := nf_fires n2 |> <| nf_flushNow := nf_flushNow n2 |> <| nf_ended := nf_ended n2 |>
         <| nf_late := nf_late n2 |> <| nf_fired := nf_fired n2 |> ->
  nf_timers n2 = (List.length (nf_fires n2) + armed n2)%nat -> (flush_coming n -> flush_coming n2) -> (forall x, in_flush n x -> x = Flushed \/ in_flush n2 x) ->
  spaced interval (nf_fired n2) -> match nf_fired n2 with [] => True | t :: _ => t <= now end ->
  match nf_timer n2 with NoTimer => True | Armed due => after_last interval due (nf_fired n2) | Expired => after_last interval now (nf_fired n2) end ->
  match nf_flushNow n2 with
  | FlushingNow true at_ => nf_late n2 = false -> nf_timer n2 = NoTimer /\ nf_fires n2 = [] /\ (at_ <> Taking -> nf_pending n2 = ∅ /\ nf_streams n2 = ∅)
  | NowReturned true => nf_late n2 = false -> nf_timer n2 = NoTimer /\ nf_fires n2 = [] /\ nf_pending n2 = ∅ /\ nf_streams n2 = ∅
  | _ => True
  end -> notifier_ok interval now n2.
Proof.
  intros [H1 H2 H3 H4 _ _ _ _] En Ht Hc Hk Hs Hp Hn Hset. destruct n2 as [p2 s2 tm2 c2 f2 fn2 e2 u2 v2 l2 fd2]. cbn in *. injection En as -> -> -> ->. split; cbn; auto.
  - intros x [Hx|(a & Ha & Hxa)]%H3; [auto|]. right. exists a. split; [|done]. destruct (Hk a Ha) as [->|]; [|done]. cbn in Hxa. set_solver.
  - intros x [Hx|(a & Ha & Hxa)]%H4; [auto|]. right. exists a. split; [|done]. destruct (Hk a Ha) as [->|]; [|done]. cbn in Hxa. set_solver.
Qed.

Lemma in_fires_insert (l : list flush_place) i a b x : l !! i = Some a -> x ∈ l -> x = a \/ x ∈ <[i := b]> l.
Proof.
  intros Hi [k Hk]%list_elem_of_lookup. destruct (decide (i = k)) as [->|Hne]; [left; congruence|]. right. apply list_elem_of_lookup. exists k. now rewrite list_lookup_insert_ne.
Qed.

Lemma in_fires_delete (l : list flush_place) i a x : l !! i = Some a -> x ∈ l -> x = a \/ x ∈ delete i l.
Proof.
  intros Hi Hx. apply list_elem_of_split_length in Hi as (l1 & l2 & -> & ->). rewrite delete_middle. set_solver.
Qed.

Lemma timer_flush_ok now n i at_ at' n' : notifier_ok interval now n -> nf_fires n !! i = Some at_ -> at_ <> Flushed -> flush_step at_ n = (at', n') ->
  notifier_ok interval now (n' <| nf_fires ::= <[i := at']> |>).
Proof.
  intros Hn Hi Hf E. pose proof (no_settled _ _ _ Hn) as Hs.
  assert (Ef : nf_fires n' = nf_fires n /\ nf_flushNow n' = nf_flushNow n /\ nf_late n' = nf_late n) by (clear -E; destruct at_; injection E as <- <-; done).
  destruct Ef as (Ef & Ew & El). assert (Hlt : (i < List.length (nf_fires n))%nat) by now apply lookup_lt_Some in Hi.
  eapply (flush_step_ok now n at_ at' n'); try done.
  - left. cbn. rewrite Ef. apply list_elem_of_lookup. exists i. now apply list_lookup_insert_eq.
  - intros x [Hx|Hx].
    + destruct (in_fires_insert _ i at_ at' x Hi Hx); [auto|]. right. left. cbn. now rewrite Ef.
    + right. right. cbn. now rewrite Ew.
  - cbn. now rewrite length_insert, Ef.
  - cbn. now rewrite Ew.
  - cbn. rewrite Ew, Ef, El. destruct (nf_flushNow n) as [| |[|] a|[|]]; try done; intros Hl; destruct (Hs Hl) as (_ & Hnil & _); rewrite Hnil in Hi; done.
Qed.

Lemma flushNow_flush_ok now n settled at_ at' n' : notifier_ok interval now n -> nf_flushNow n = FlushingNow settled at_ -> at_ <> Flushed -> flush_step at_ n = (at', n') ->
  notifier_ok interval now (n' <| nf_flushNow := FlushingNow settled at' |>).
Proof.
  intros Hn Hi Hf E. pose proof (no_settled _ _ _ Hn) as Hs. rewrite Hi in Hs.
  assert (Ef : nf_fires n' = nf_fires n /\ nf_timer n' = nf_timer n /\ nf_late n' = nf_late n) by (clear -E; destruct at_; injection E as <- <-; done).
  destruct Ef as (Ef & Ew & El). eapply (flush_step_ok now n at_ at' n'); try done.
  - right. now exists settled.
  - intros x [Hx|[b Hx]]; [right; left; cbn; now rewrite Ef|]. left. congruence.
  - cbn. now rewrite Ef.
  - rewrite Hi. done.
  - cbn. destruct settled; [|done]. rewrite Ew, Ef, El. intros Hl. destruct (Hs Hl) as (Ht & Hnil & Hp). split; [done|]. split; [done|]. intros _.
    destruct at_; [| | |done]; injection E as <- <-; cbn; auto.
Qed.

Lemma notify_step_ok s s' : notify_step interval s s' -> notifier_ok interval (fst s) (snd s) -> notifier_ok interval (fst s') (snd s').
Proof.
  intros H. destruct H; cbn [fst snd]; intros Hn; pose proof Hn as [N1 N2 N3 N4 N5 N6 N7 N8].
  - split; try done; [destruct (nf_fired n); [done|lia]|]. destruct (nf_timer n); try done. unfold after_last in *. destruct (nf_fired n); [done|lia].
  - change (mark interval now q n) with (arm interval now (n <| nf_pending := {[q]} ∪ nf_pending n |> <| nf_streams := nf_streams n |>
      <| nf_unsent := {[q]} ∪ nf_unsent n |> <| nf_unsentStreams := nf_unsentStreams n |> <| nf_late := true |>)). apply marked_ok; [done|set_solver..].
  - change (markStream interval now t n) with (arm interval now (n <| nf_pending := nf_pending n |> <| nf_streams := {[t]} ∪ nf_streams n |>
      <| nf_unsent := nf_unsent n |> <| nf_unsentStreams := {[t]} ∪ nf_unsentStreams n |> <| nf_late := true |>)). apply marked_ok; [done|set_solver..].
  - eapply kept_ok; [exact Hn|reflexivity|..]; cbn; try done; auto.
    + unfold armed in *. rewrite H in N1. done.
    + left. cbn. discriminate.
    + rewrite H in N7. unfold after_last in *. destruct (nf_fired n); [done|lia].
    + destruct (nf_flushNow n) as [| |[|]|[|]]; try done; intros Hl; destruct (N8 Hl) as (E & _); congruence.
  - eapply kept_ok; [exact Hn|reflexivity|..]; cbn; try done.
    + unfold armed in *. rewrite H in N1. cbn. rewrite length_app. cbn. lia.
    + intros _. right. left. left. cbn. set_solver.
    + intros x [Hx|Hx]; [|right; right; exact Hx]. right. left. cbn. set_solver.
    + rewrite H in N7. unfold after_last in N7. destruct (nf_fired n); done.
    + destruct (nf_flushNow n) as [| |[|]|[|]]; try done; intros Hl; destruct (N8 Hl) as (E & _); congruence.
  - now apply (timer_flush_ok now n i at_ at' n').
  - assert (Hlt : (i < List.length (nf_fires n))%nat) by now apply lookup_lt_Some in H.
    eapply kept_ok; [exact Hn|reflexivity|..]; cbn; try done.
    + rewrite length_delete by (rewrite H; done). unfold armed in *. cbn. lia.
    + intros [Hc|[[Hc|Hc]|Hc]]; [now left| |right; left; right; exact Hc|right; right; exact Hc].
      destruct (in_fires_delete _ _ _ _ H Hc) as [?|?]; [done|]. right. left. now left.
    + intros x [Hx|Hx]; [|right; right; exact Hx]. destruct (in_fires_delete _ _ _ _ H Hx); [auto|]. right. now left.
    + destruct (nf_flushNow n) as [| |[|]|[|]]; try done; intros Hl; destruct (N8 Hl) as (_ & E & _); rewrite E in H; done.
  - eapply kept_ok; [exact Hn|reflexivity|..]; cbn; try done.
    + intros [Hc|[[Hc|[b Hc]]|Hc]]; [now left|right; left; now left|congruence|congruence].
    + intros x [Hx|[b Hx]]; [right; now left|congruence].
  - eapply kept_ok; [exact Hn|reflexivity|..]; cbn; try done; auto.
  - unfold flushNow_loop in H0. destruct (Nat.eqb_spec (nf_timers n) 0) as [E0|E0].
    + injection H0 as <-. unfold armed in N1. eapply kept_ok; [exact Hn|reflexivity|..]; cbn; try done.
      * intros _. right. left. right. cbn. eauto.
      * intros x [Hx|[b Hx]]; [right; now left|congruence].
      * intros _. destruct (nf_fires n); [|cbn in N1; lia]. destruct (nf_timer n); [done|cbn in N1; lia..].
    + destruct (nf_timer n) as [|due|] eqn:Et.
      * destruct (nf_ended n); [|done]. injection H0 as <-. eapply kept_ok; [exact Hn|reflexivity|..]; cbn; rewrite ?Et; try done.
        -- intros _. right. left. right. cbn. eauto.
        -- intros x [Hx|[b Hx]]; [right; now left|congruence].
      * injection H0 as <-. eapply kept_ok; [exact Hn|reflexivity|..]; cbn; rewrite ?H; try done.
        -- unfold armed in *. rewrite Et in N1. cbn. lia.
        -- intros _. right. right. exact H.
        -- intros x [Hx|[b Hx]]; [right; now left|congruence].
      * destruct (nf_ended n); [|done]. injection H0 as <-. eapply kept_ok; [exact Hn|reflexivity|..]; cbn; rewrite ?Et; try done.
        -- intros _. left. cbn. rewrite Et. done.
        -- intros x [Hx|[b Hx]]; [right; now left|congruence].
  - now apply (flushNow_flush_ok now n settled at_ at' n').
  - eapply kept_ok; [exact Hn|reflexivity|..]; cbn; try done.
    + intros [Hc|[[Hc|[b Hc]]|Hc]]; [now left|right; left; now left|congruence|congruence].
    + intros x [Hx|[b Hx]]; [right; now left|left; congruence].
    + rewrite H in N8. destruct settled; [|done]. intros Hl. destruct (N8 Hl) as (? & ? & Hp). split; [done|]. split; [done|]. now apply Hp.
Qed.

Lemma notifies_ok s : notifies interval s -> notifier_ok interval (fst s) (snd s).
Proof.
  intros [now Hr]. assert (H0 : notifier_ok interval now newNotifier) by (split; cbn; try done; [intros [H|H]; done|set_solver..]).
  change now with (fst (now, newNotifier)) in H0 at 1. change newNotifier with (snd (now, newNotifier)) in H0 at 2.
  induction Hr as [|x y z H _ IH]; [done|]. apply IH. now apply (notify_step_ok x).
Qed.
End Notifying.

(** C7: No mark is lost.  However marks, timers, flushes and the flush of a stop interleave: a name marked and not yet sent since is
    pending with a flush to come that has not taken the names yet, or in the hands of a flush on its way to send it; timers fire
    an interval apart or more; and a flushNow that returns without its context ending first, with nothing marked since it left its loop,
    leaves no name unsent, no timer and no flush. *)
Theorem no_mark_lost interval s : notifies interval s ->
  let n := snd s in
  (forall q, q ∈ nf_unsent n -> (q ∈ nf_pending n /\ flush_coming n) \/ exists at_, in_flush n at_ /\ q ∈ queues_of at_)
  /\ (forall t, t ∈ nf_unsentStreams n -> (t ∈ nf_streams n /\ flush_coming n) \/ exists at_, in_flush n at_ /\ t ∈ topics_of at_)
  /\ spaced interval (nf_fired n)
  /\ (nf_flushNow n = NowReturned true -> nf_late n = false -> nf_unsent n = ∅ /\ nf_unsentStreams n = ∅ /\ nf_timer n = NoTimer /\ nf_fires n = []).
Proof.
  intros Hs n. destruct (notifies_ok interval s Hs) as [_ H2 H3 H4 H5 _ _ H8]. fold n in H2, H3, H4, H5, H8. split; [|split; [|split; [done|]]].
  - intros q Hq. destruct (H3 q Hq) as [Hp|H]; [|auto]. left. split; [done|]. apply H2. left. set_solver.
  - intros t Ht. destruct (H4 t Ht) as [Hp|H]; [|auto]. left. split; [done|]. apply H2. right. set_solver.
  - intros Er Hl. rewrite Er in H8. destruct (H8 Hl) as (Ht & Hf & Hp & Hst).
    assert (Hno : forall a, ~ in_flush n a) by (intros a [Ha|[b Hb]]; [rewrite Hf in Ha; set_solver|congruence]).
    split; [|split; [|done]]; apply set_eq; intros x; (split; [|set_solver]); intros Hx.
    + destruct (H3 x Hx) as [Hx'|(a & Ha & _)]; [now rewrite Hp in Hx'|now destruct (Hno a)].
    + destruct (H4 x Hx) as [Hx'|(a & Ha & _)]; [now rewrite Hst in Hx'|now destruct (Hno a)].
Qed.

(** A name marked, and a flushNow that stops the timer and sends it. *)
Lemma stopped_clean : exists s, notifies 1000 s /\ nf_flushNow (snd s) = NowReturned true /\ nf_late (snd s) = false.
Proof.
  eexists. split; [|split].
  - exists 0. eapply rtc_l. { apply (nf_mark 1000 0 "q"). }
    eapply rtc_l. { apply nf_call. reflexivity. }
    eapply rtc_l. { apply nf_loop; [reflexivity|]. vm_compute. reflexivity. }
    eapply rtc_l. { apply nf_loop; [reflexivity|]. vm_compute. reflexivity. }
    eapply rtc_l. { eapply nf_flushing; [reflexivity|done|]. vm_compute. reflexivity. }
    eapply rtc_l. { eapply nf_flushing; [reflexivity|done|]. vm_compute. reflexivity. }
    eapply rtc_l. { eapply nf_flushing; [reflexivity|done|]. vm_compute. reflexivity. }
    eapply rtc_l. { eapply nf_return. reflexivity. }
    apply rtc_refl.
  - reflexivity.
  - reflexivity.
Qed.

Lemma no_mark_lost_witness : exists s, notifies 1000 s /\ nf_unsent (snd s) = ∅.
Proof.
  destruct stopped_clean as (s & Hs & Hr & Hl). exists s. split; [exact Hs|].
  destruct (no_mark_lost 1000 s Hs) as (_ & _ & _ & H). exact (proj1 (H Hr Hl)).
Defined.
