(* ===== verification/LeasingSpec.v ===== *)
(** * Leased attempts: theorems on Leasing.v

    A token reads back as the one it was written from; an attempt's end applies to
    the lease its token names, once, and to no other. *)

From Stdlib Require Import List ZArith Lia Bool String Ascii.
From stdpp Require Import base tactics list strings.
From S2P Require Import Prelude Sql Text Json JsonSpec JsonCheck Types Store Logic JobId Codec CodecSpec Insert Finalize Control Leases Workflow Unique Inserting Building.
From S2P Require Import Execute Flush Steps Leasing Evolution Engine FinalizeSpec ExecuteSpec Frame Duties DutiesSpec.
Import ListNotations.
Local Open Scope string_scope.
Local Open Scope Z_scope.

(** ** Tokens *)

Definition no_dot (c : ascii) : bool := negb (Ascii.eqb c ".").

Lemma split_plain s : forallb_str no_dot s = true -> split "." s = [s].
Proof. induction s as [|c s IH]; [done|]. simpl. intros [Hc Hs]%andb_true_iff. unfold no_dot in Hc. apply negb_true_iff in Hc. now rewrite Hc, IH. Qed.

Lemma split_dot a b : forallb_str no_dot a = true -> split "." (a ++ "." ++ b) = a :: split "." b.
Proof.
  induction a as [|c a IH]; [done|]. simpl. intros [Hc Hs]%andb_true_iff. unfold no_dot in Hc. apply negb_true_iff in Hc. rewrite Hc. cbn [append] in IH. now rewrite IH.
Qed.

Lemma hex_no_dot c : is_hex c = true -> no_dot c = true.
Proof. unfold no_dot. destruct (Ascii.eqb_spec c "."); [subst; vm_compute; done|done]. Qed.
Lemma digit_no_dot c : is_digit c = true -> no_dot c = true.
Proof. unfold no_dot. destruct (Ascii.eqb_spec c "."); [subst; vm_compute; done|done]. Qed.

Lemma hex_encode_hex n : forall z, forallb_str is_hex (hex_encode n z) = true.
Proof.
  induction n as [|n IH]; intros z; [done|]. cbn [hex_encode]. rewrite forallb_str_app, IH. simpl. rewrite andb_true_r.
  now destruct (hex_digit_spec (z mod 16)) as [H _]; [apply Z.mod_pos_bound; lia|].
Qed.

Lemma hex_encode_no_dot n z : forallb_str no_dot (hex_encode n z) = true.
Proof. apply (forallb_str_impl is_hex); [apply hex_no_dot|apply hex_encode_hex]. Qed.

Lemma JobID_String_no_dot id : forallb_str no_dot (JobID_String id) = true.
Proof.
  unfold JobID_String. pose proof (hex_encode_no_dot 32 id) as H.
  rewrite !forallb_str_app, !forallb_str_take by (try apply forallb_str_drop; exact H). reflexivity.
Qed.

Lemma itoa_no_dot z : 0 < z -> forallb_str no_dot (itoa z) = true.
Proof. destruct z as [|p|p]; [lia| |lia]. intros _. rewrite itoa_pos. apply (forallb_str_impl is_digit); [apply digit_no_dot|apply uint_digits]. Qed.

Definition token_ok (t : LeaseToken) : Prop := 0 <= lk_id t < 2 ^ 128 /\ 0 < lk_fence t < 2 ^ 63 /\ 0 <= lk_nonce t < 2 ^ 128.

Lemma ParseLeaseToken_String t : token_ok t -> ParseLeaseToken (LeaseToken_String t) = Some t.
Proof.
  intros (Hid & Hf & Hn). unfold ParseLeaseToken, LeaseToken_String.
  rewrite split_dot by apply JobID_String_no_dot. rewrite split_dot by (apply itoa_no_dot; lia). rewrite split_plain by apply hex_encode_no_dot.
  rewrite (proj2 (ParseJobID_text _ Hid)). fold atoi. rewrite atoi_itoa by lia. destruct (Z.leb_spec (lk_fence t) 0); [lia|].
  rewrite length_hex_encode. cbn [Nat.eqb negb]. rewrite hex_decode_encode.
  change (16 ^ Z.of_nat 32) with (2 ^ 128). rewrite Z.mod_small by lia. now destruct t.
Qed.

Lemma hex_decode_bound s : forall acc v, hex_decode acc s = Some v -> v < (acc + 1) * 16 ^ Z.of_nat (String.length s).
Proof.
  induction s as [|c s IH]; intros acc v; cbn [hex_decode String.length]; [intros [= <-]; cbn; lia|].
  destruct (is_hex c) eqn:Ec; [|done]. intros H%IH. apply hex_val_bound in Ec. rewrite Nat2Z.inj_succ, Z.pow_succ_r by lia.
  assert (0 < 16 ^ Z.of_nat (String.length s)) by (apply Z.pow_pos_nonneg; lia). nia.
Qed.

Lemma digits_val_nonneg s : forall acc, 0 <= acc -> forallb_str is_digit s = true -> 0 <= digits_val acc s.
Proof.
  induction s as [|c s IH]; intros acc Ha; [done|]. simpl. intros [Hc Hs]%andb_true_iff. apply IH; [|done]. unfold is_digit in Hc. apply in_range_spec in Hc.
  unfold digit_val. lia.
Qed.

Lemma parse_int_bound s v : parse_int 64 s = Some v -> v < 2 ^ 63.
Proof.
  unfold parse_int. destruct (match s with String _ _ => _ | _ => _ end) as [neg d]. destruct (_ || _) eqn:E; [done|]. cbn zeta.
  apply orb_false_iff in E as [_ E%negb_false_iff]. pose proof (digits_val_nonneg d 0 ltac:(lia) E).
  destruct neg; [destruct (Z.leb_spec (digits_val 0 d) (2 ^ (64 - 1)))|destruct (Z.ltb_spec (digits_val 0 d) (2 ^ (64 - 1)))]; try done; intros [= <-]; lia.
Qed.

Lemma ParseLeaseToken_ok s t : ParseLeaseToken s = Some t -> token_ok t.
Proof.
  unfold ParseLeaseToken. destruct (split "." s) as [|a [|b [|n [|? ?]]]]; try done. destruct (ParseJobID a) as [id|] eqn:Ea; [|done].
  destruct (parse_int 64 b) as [f|] eqn:Eb; [|done]. destruct (Z.leb_spec f 0); [done|]. destruct (Nat.eqb_spec (String.length n) 32) as [El|]; [|done]. cbn [negb].
  destruct (hex_decode 0 n) as [v|] eqn:Ev; [|done]. intros [= <-]. split; cbn; [now apply String_ParseJobID in Ea|]. split; [apply parse_int_bound in Eb; lia|].
  pose proof (hex_decode_nonneg _ 0 _ ltac:(lia) Ev). apply hex_decode_bound in Ev. rewrite El in Ev. change (16 ^ Z.of_nat 32) with (2 ^ 128) in Ev. lia.
Qed.

(** A lease token survives its text.  A token as a claim gives it (an ID and a nonce of 128 bits, a positive fence of 64) and the zero
    token are read back from their text as they were, so two tokens never share one; and whatever text is read, the token is such a
    token. *)
Theorem lease_token_roundtrip :
  (forall t, token_ok t \/ t = no_token -> UnmarshalText (MarshalText t) = Some t)
  /\ (forall s t, UnmarshalText s = Some t -> token_ok t \/ t = no_token).
Proof.
  split.
  - intros t [Ht| ->]; [|reflexivity]. unfold MarshalText, UnmarshalText.
    assert (LeaseToken_IsZero t = false) as ->.
    { unfold LeaseToken_IsZero. destruct Ht as (_ & Hf & _). destruct (Z.eqb_spec (lk_fence t) 0); [lia|]. now rewrite andb_false_r. }
    destruct (String.eqb_spec (LeaseToken_String t) "") as [E|_]; [|now apply ParseLeaseToken_String].
    apply ParseLeaseToken_String in Ht. rewrite E in Ht. done.
  - intros s t. unfold UnmarshalText. destruct (String.eqb s ""); [intros [= <-]; auto|]. intros H%ParseLeaseToken_ok. auto.
Qed.

Lemma lease_token_roundtrip_witness : UnmarshalText (MarshalText (mkLeaseToken 5 3 9)) = Some (mkLeaseToken 5 3 9).
Proof. apply (proj1 lease_token_roundtrip). left. unfold token_ok. cbn. lia. Defined.

(** ** The end of an attempt *)

(** The job runs in the lease of the token. *)
Definition in_lease (t : LeaseToken) (d : DB) : Prop :=
  exists j, In j (db_jobs d) /\ j_ID j = lk_id t /\ is_running j = true /\ AttemptedBy j = 0 /\ j_Fence j = lk_fence t
            /\ cnt (lease_is (lk_id t) (lk_nonce t) (lk_fence t)) (db_leases d) = 1.

(** No attempt at the token's fence runs without a client. *)
Definition lease_over (t : LeaseToken) (d : DB) : Prop :=
  forall j, In j (db_jobs d) -> j_ID j = lk_id t -> is_running j = true -> AttemptedBy j = 0 -> j_Fence j <> lk_fence t.

Definition of_lease (t : LeaseToken) (f : JobFinalize) : Prop := f_ID f = lk_id t /\ f_Lease f = Some (fenceOf t) /\ finalize_state (f_State f) = true.

Lemma in_lease_owned t f d : of_lease t f -> in_lease t d <-> exists j, In j (db_jobs d) /\ j_ID j = f_ID f /\ owned d j f = true.
Proof.
  intros (Ei & El & _). unfold in_lease, owned. rewrite El, Ei. cbn [fenceOf lf_Token lf_Fence]. split; intros (j & Hj & Hi & H); exists j; (split; [done|]; split; [done|]).
  - destruct H as (Hr & Ha & Hf & Hc). rewrite Hi, Hr, Ha, Hf, Hc, !Z.eqb_refl. done.
  - rewrite Hi in H. apply andb_true_iff in H as [[[Hr Ha]%andb_true_iff Hf]%andb_true_iff Hc]. apply Z.eqb_eq in Ha, Hf, Hc. done.
Qed.

Lemma lease_over_from t d d' : pending_from d d' -> lease_over t d -> lease_over t d'.
Proof.
  intros Hp Ho j Hj Hi Hr. apply (Ho j); [|done|done]. apply Hp; [done|]. revert Hr. unfold is_running, held_back. destruct (j_State j); done.
Qed.

Lemma applyResult_lease_over keep t r x d o d' : wf d -> of_lease t (re_f r) -> in_lease t d -> applyResult keep r x d = Ok (o, d') ->
  (exists rep fin, o = Some (rep, fin) /\ fd_Cascaded rep = false) /\ lease_over t d'.
Proof.
  intros Hw Hl Hin E. pose proof Hl as (Ei & _ & Hs). apply (in_lease_owned t _ d Hl) in Hin as (j & Hj & Hi & Ho).
  destruct (applyResult_effect keep r j x d Hw Hj Hi Ho Hs) as (out & d1 & E1 & H). rewrite E in E1. injection E1 as -> ->. split; [do 2 eexists; done|].
  intros k Hk Hki Hkr Hka. rewrite <- Ei in Hki. destruct (Terminal (f_State (re_f r))) eqn:Et.
  - destruct H as (_ & Hd & _). rewrite Hd in Hk. apply In_del in Hk as [_ Hk]. unfold id_is in Hk. rewrite Hki, Hi, Z.eqb_refl in Hk. done.
  - destruct H as (_ & _ & j' & Hrl & Hrow). apply Hrow in Hk as [->|[Hk Hne]].
    + unfold is_running in Hkr. rewrite (rl_state _ _ _ _ Hrl) in Hkr. now destruct (f_State (re_f r)).
    + destruct Hne. apply (wf_unique_id d k j); [done|done|done|congruence].
Qed.

Lemma in_lease_dec t f d : of_lease t f -> in_lease t d \/ (forall j, In j (db_jobs d) -> j_ID j = f_ID f -> owned d j f = false).
Proof.
  intros Hl. destruct (existsb (fun j => (j_ID j =? f_ID f) && owned d j f) (db_jobs d)) eqn:E.
  - left. apply existsb_exists in E as (j & Hj & [Hi Ho]%andb_true_iff). apply (in_lease_owned t f d Hl). exists j. apply Z.eqb_eq in Hi. done.
  - right. intros j Hj Hi. destruct (owned d j f) eqn:Eo; [|done]. apply not_true_iff_false in E. destruct E. apply existsb_exists. exists j. now rewrite Hi, Z.eqb_refl, Eo.
Qed.

Lemma finalize_leased p f t busy x d out d' : wf d -> of_lease t f -> in_lease t d -> fp_Jobs p = [f] ->
  JobFinalizeMany p busy x d = (Ok out, d') -> fst (splitCascaded out) <> [] /\ lease_over t d'.
Proof.
  intros Hw Hl Hin Hp. pose proof Hl as (_ & Ef & _). unfold JobFinalizeMany. rewrite Hp. destruct (encodeResults [f]) as [rs|e] eqn:Ee; [|done].
  apply encodeResults_f in Ee. destruct rs as [|r [|? ?]]; try done. injection Ee as Er.
  unfold leased. cbn [existsb]. rewrite Ef. cbn [not_null]. destruct (fp_SkipLocked p); [done|]. cbn [andb Bool.eqb negb orb].
  unfold write. destruct (finalizeAll p [r] x d) as [[o d1]|e] eqn:E; [|done]. intros [= <- <-]. unfold finalizeAll in E.
  apply bind_Ok in E as (outs & d2 & E1 & E). simpl in E1. apply bind_Ok in E1 as (o1 & d3 & E1 & E2). unfold bind, ret in E2. simplify_eq.
  destruct (applyResult_lease_over _ t r x d o1 d2 Hw Hl Hin E1) as [(rep & fin & -> & Hc) Ho].
  cbn [flat_map app] in E. destruct (fp_NoBatches p).
  - unfold ret in E. simplify_eq. split; [|done]. unfold splitCascaded. cbn. now rewrite Hc.
  - apply bind_Ok in E as (all & d4 & E3 & E). unfold ret in E. simplify_eq. split; [unfold splitCascaded; cbn; now rewrite Hc|].
    apply (lease_over_from t d2); [now apply tail_pending in E3|done].
Qed.

Section Finishing.
Context (c : leaseConfig).

Lemma lease_write_spec row f t busy x d r d' : wf d -> of_lease t f -> lease_write c row f busy x d = (r, d') ->
  wf d' /\ match r with Ok _ => in_lease t d /\ lease_over t d' | Err _ => d' = d end.
Proof.
  intros Hw Hl. unfold lease_write. set (p := mkJobFinalizeParams [f] _ _ _).
  assert (Hw' : wf (snd (JobFinalizeMany p busy x d))) by (apply (step_advances d _ (step_JobFinalizeMany _ _ _ _)); done).
  destruct (JobFinalizeMany p busy x d) as [[out|e] d1] eqn:E; [|intros [= <- <-]; split; [done|]; now apply JobFinalizeMany_Err in E].
  destruct (in_lease_dec t f d Hl) as [Hin|Hno].
  - destruct (finalize_leased p f t busy x d out d1 Hw Hl Hin eq_refl E) as [Hne Ho]. destruct (splitCascaded out) as [applied cascaded]. cbn [fst] in Hne.
    intros [= <- <-]. destruct applied; [done|]. done.
  - destruct (stale_results_ignored p busy x d) as [E1 E2]; [intros f' j [<-|[]]; apply Hno|]. rewrite E in E1, E2. cbn in E1, E2. subst d1.
    destruct E2 as [[= ->]|[e' [=]]]. cbn. now intros [= <- <-].
Qed.

Lemma lease_result_of t res en d row f : lease_result c t res en d = Ok (row, f) -> of_lease t f /\ LeaseToken_IsZero t = false.
Proof.
  unfold lease_result. destruct (LeaseToken_IsZero t); [done|]. destruct (JobGet (lk_id t) d) as [v|e] eqn:Eg; [|now destruct e].
  destruct (_ || _ || _); [done|]. destruct (match lz_Output res with Some _ => _ | None => _ end) as [out|]; [|done].
  set (o := match lz_Output res with Some _ => _ | None => _ end). clearbody o. intros [= <- <-]. split; [|done].
  assert (Hi : j_ID (v_job v) = lk_id t).
  { unfold JobGet in Eg. destruct (one (id_is (lk_id t)) (db_jobs d)) as [j|] eqn:Ej.
    - injection Eg as <-. apply one_Some in Ej as [_ Ej]. unfold id_is in Ej. now apply Z.eqb_eq in Ej.
    - destruct (one _ (db_history d)) as [h|] eqn:Eh; [|done]. injection Eg as <-. apply one_Some in Eh as [_ Eh]. unfold id_is in Eh. now apply Z.eqb_eq in Eh. }
  destruct (outcome_ok (v_job v) (lg_deleteCompleted c) (lease_ending (v_job v) en) (lz_Err res) true false) as [[H1 _ _ _ H5 _] _].
  assert (Hst : finalize_state (f_State (outcome (v_job v) (lg_deleteCompleted c) (lease_ending (v_job v) en) (lz_Err res) true false)) = true).
  { unfold CheckFinalize in H5. destruct (finalize_state _); done. }
  destruct (Terminal _); (split; [cbn; congruence|]; split; [done|exact Hst]).
Qed.

(** Over, and so refused: a job that does not run in the lease at the read. *)
Lemma lease_result_over t res en d : wf d -> LeaseToken_IsZero t = false -> lease_over t d -> lease_result c t res en d = Err ErrJobFenced.
Proof.
  intros Hw Hz Ho. unfold lease_result. rewrite Hz. unfold JobGet. destruct (one (id_is (lk_id t)) (db_jobs d)) as [j|] eqn:Ej.
  - apply one_Some in Ej as [Hj Ei]. unfold id_is in Ei. apply Z.eqb_eq in Ei. cbn [v_job]. specialize (Ho j Hj Ei). unfold is_running in Ho.
    destruct (state_eqb (j_State j) Running) eqn:Es; [|done]. destruct (Z.eqb_spec (AttemptedBy j) 0); [|done]. destruct (Z.eqb_spec (j_Fence j) (lk_fence t)) as [Ef|]; [|done].
    destruct Ho; [now destruct (j_State j)|done|done].
  - destruct (one _ (db_history d)) as [h|] eqn:Eh; [|done]. apply one_Some in Eh as [Hh _]. destruct Hw as [_ _ Hh']. rewrite List.Forall_forall in Hh'. specialize (Hh' h Hh).
    unfold history_view. cbn [v_job]. unfold history_ok in Hh'. destruct (j_State (h_job h)); done.
Qed.
Lemma lease_follows_over t row f cascaded promote d : wf d -> lease_over t d -> wf (lease_follows row f cascaded promote d) /\ lease_over t (lease_follows row f cascaded promote d).
Proof.
  intros Hw Ho. unfold lease_follows. destruct (_ && _); [|done]. destruct promote as [x|]; [|done]. split.
  - apply (step_advances d _ (step_WorkflowPromoteReady _ _ _ _ _ _)). done.
  - apply (lease_over_from t d); [apply WorkflowPromoteReady_pending|done].
Qed.

Lemma Renew_over t x d : LeaseToken_IsZero t = false -> lease_over t d -> Renew t x d = (Err ErrJobFenced, d).
Proof.
  intros Hz Ho. unfold Renew, JobLeaseRenew, write, JobLeaseRenew_w. rewrite Hz. unfold bind, us, get. cbn [ln_ID ln_Lease].
  assert (E : ex (fun j => id_is (lk_id t) j && leaseOwner d j (fenceOf t)) (db_jobs d) = false).
  { apply not_true_iff_false. unfold ex. intros (j & Hj & [Hi Hl]%andb_true_iff)%existsb_exists. unfold leaseOwner in Hl. cbn in Hl.
    apply andb_true_iff in Hl as [[[Hr Ha]%andb_true_iff Hf]%andb_true_iff _]. unfold id_is in Hi. apply Z.eqb_eq in Hi, Hf. apply (Ho j Hj Hi Hr); [|done].
    unfold AttemptedBy. now destruct (j_AttemptedBy j). }
  rewrite E. assert (one (fun o => lease_is (lk_id t) (lf_Token (fenceOf t)) (lf_Fence (fenceOf t)) o && false) (db_leases d) = None) as -> by (apply one_None; intros; apply andb_false_r).
  reflexivity.
Qed.
End Finishing.

(** C20: A leased attempt is finished once, by the holder of its lease.  Finish that succeeds found the job running in the lease its token
    names when it wrote, whatever ran between its read and its write; from then on the token is void: a renewal, and Finish again with any
    result, report the job fenced and change nothing.  Finish that fails changes nothing. *)
Theorem lease_finished_once c t res en busy x promote d d1 r d2 : wf d1 -> Finish c t res en busy x promote d d1 = (r, d2) ->
  match r with
  | Err _ => d2 = d1
  | Ok _ => in_lease t d1 /\ (forall y, Renew t y d2 = (Err ErrJobFenced, d2))
            /\ forall res' en' busy' y promote', Finish c t res' en' busy' y promote' d2 d2 = (Err ErrJobFenced, d2)
  end.
Proof.
  intros Hw. unfold Finish at 1. destruct (lease_result c t res en d) as [[row f]|e] eqn:Er; [|now intros [= <- <-]].
  apply lease_result_of in Er as [Hl Hz]. destruct (lease_write c row f busy x d1) as [r1 d3] eqn:Ew. apply (lease_write_spec c row f t) in Ew as [Hw3 Hs]; [|done|done].
  destruct r1 as [cascaded|e]; [|now intros [= <- <-]]. intros [= <- <-]. destruct Hs as [Hin Ho].
  destruct (lease_follows_over t row f cascaded promote d3 Hw3 Ho) as [Hw4 Ho4]. split; [done|]. split; [intros y; now apply Renew_over|].
  intros res' en' busy' y promote'. unfold Finish. now rewrite lease_result_over.
Qed.
