(* ===== verification/Scenarios.v ===== *)
(** * Runs of the engine on concrete inputs

    A few databases reached by concrete operations, on which the theorems'
    hypotheses are shown to hold, and the runs that exhibit the defects the
    model shows in the code. *)

From Stdlib Require Import List ZArith Lia Bool String SpecFloat.
From stdpp Require Import base tactics list gmap sets relations.
From S2P Require Import Prelude Sql Text Json JsonCheck Types Store Logic JobId Codec Insert Finalize Float64.
From S2P Require Import Claim Control Leases Workflow Cluster Topics Messaging Evolution Engine ClaimSpec.
From S2P Require Import FinalizeSpec Frame ClusterSpec StreamSpec TopicSpec LeaseSpec InsertSpec Execute ExecuteSpec Flush FlushSpec.
From S2P Require Import Listing ListingSpec WorkflowSpec Duties DutiesSpec Steps ProgressKept StepsSpec Counting Producer ProducerSpec Leasing LeasingSpec.
Import ListNotations.
Local Open Scope string_scope.
Local Open Scope Z_scope.

Definition at_time (t : Z) : w := mkW t (fun n => Z.of_nat n * 1000003 + 17).

Definition job (kind ordering partition unique : string) : JobInsertParams :=
  mkJobInsertParams kind "q" 2 3 None "{}" "{}" [] unique [] ordering partition 0 0 false.

(** Two jobs of a lane, one of a partition, and one with a unique key. *)
Definition the_jobs : list JobInsertParams := [job "a" "lane" "" ""; job "b" "lane" "" ""; job "c" "" "part" ""; job "u" "" "" "key"].
Definition skip_conflicts : JobInsertOpts := mkJobInsertOpts false ConflictSkip.
Definition the_limits : QueueLimits := mkQueueLimits "q" 2 (f_of_Z 0) 0 1 0.
Definition claim_as (client : Z) : JobClaimParams := mkJobClaimParams "q" client 10 false.

Definition inserted : DB := Eval vm_compute in snd (JobInsertMany the_jobs skip_conflicts (at_time 1000000) empty_db).
Definition limited : DB := Eval vm_compute in snd (QueueSetLimits the_limits (at_time 1500000) inserted).
Definition claimed : DB := Eval vm_compute in snd (JobClaim (claim_as 7) (at_time 2000000) limited).

Definition row_at (n : nat) (d : DB) : JobRow :=
  nth n (db_jobs d) (new_row 0 0 0 None (mkJobInsert "" "" 0 0 None "" "" [] "" [] "" "" 0 0 false false 0)).
Definition outcome (j : JobRow) (client : Z) (s : JobState) : JobFinalize :=
  mkJobFinalize (j_ID j) client (j_Fence j) None s 0 false false "" None "" None true.
Definition finalize (f : JobFinalize) : JobFinalizeParams := mkJobFinalizeParams [f] false false 0.

(** The first job of the lane fails its attempt, and another client claims it. *)
Definition failure : JobFinalizeParams := Eval vm_compute in finalize (outcome (row_at 0 claimed) 7 Retryable).
Definition retried : DB := Eval vm_compute in snd (JobFinalizeMany failure false (at_time 3000000) claimed).
Definition reclaimed : DB := Eval vm_compute in snd (JobClaim (claim_as 8) (at_time 4000000) retried).

(** A concrete step, checked by evaluation. *)
Ltac concrete_step d' t := replace d' with t by (vm_compute; reflexivity).

Lemma inserted_reachable : reachable inserted.
Proof. apply rtc_once. concrete_step inserted (snd (JobInsertMany the_jobs skip_conflicts (at_time 1000000) empty_db)). apply step_JobInsertMany. Qed.
Lemma limited_reachable : reachable limited.
Proof. eapply rtc_r; [exact inserted_reachable|]. concrete_step limited (snd (QueueSetLimits the_limits (at_time 1500000) inserted)). apply step_QueueSetLimits. Qed.
Lemma claimed_reachable : reachable claimed.
Proof. eapply rtc_r; [exact limited_reachable|]. concrete_step claimed (snd (JobClaim (claim_as 7) (at_time 2000000) limited)). apply step_JobClaim. Qed.
Lemma claimed_reclaimed : steps claimed reclaimed.
Proof.
  eapply (rtc_l _ _ retried); [concrete_step retried (snd (JobFinalizeMany failure false (at_time 3000000) claimed)); apply step_JobFinalizeMany|].
  apply rtc_once. concrete_step reclaimed (snd (JobClaim (claim_as 8) (at_time 4000000) retried)). apply step_JobClaim.
Qed.

Example claimed_states : List.map j_State (db_jobs claimed) = [Running; Available; Running; Running]
  /\ List.map j_Fence (db_jobs reclaimed) = [2; 0; 1; 1].
Proof. vm_compute. split; reflexivity. Qed.

(** ** Witnesses *)

Lemma in_place_never_constrained_witness : exists r, fst (JobClaim (claim_as 8) (at_time 4000000) claimed) = Ok r.
Proof. apply (in_place_never_constrained claimed claimed_reachable). Defined.

Lemma fence_identifies_claim_witness :
  j_Fence (row_at 0 claimed) < j_Fence (row_at 0 reclaimed) \/ j_Fence (row_at 0 reclaimed) = j_Fence (row_at 0 claimed).
Proof.
  destruct (fence_identifies_claim claimed reclaimed (row_at 0 claimed) (row_at 0 reclaimed)
              claimed_reachable claimed_reclaimed) as (_ & _ & _ & _ & H).
  - now left.
  - now left.
  - reflexivity.
  - destruct H as [H|(H & _)]; [reflexivity|now left|now right].
Defined.

Lemma no_resurrection_witness :
  exists j, In j (db_jobs claimed) /\ j_seq j = 1 /\ j_ID j = j_ID (row_at 0 reclaimed).
Proof.
  apply (no_resurrection claimed reclaimed (row_at 0 reclaimed) claimed_reachable claimed_reclaimed).
  - now left.
  - vm_compute. discriminate.
Defined.

Lemma claim_sound_witness : exists views d', claim "q" 9 1 0 (at_time 5000000) limited = Ok (views, d')
  /\ Z.of_nat (List.length views) <= 1.
Proof.
  destruct (claim_sound limited "q" 9 1 0 (at_time 5000000) limited_reachable eq_refl) as (views & E & Hl & _).
  eexists views, _. split; [exact E|exact Hl].
Defined.

Definition limited_claim : JobClaimParams := mkJobClaimParams "q" 9 10 true.
Definition limited_result : JobClaimResult * DB := Eval vm_compute in
  match claimLimited limited_claim (at_time 5000000) limited with Ok r => r | Err _ => (mkJobClaimResult [] 0, limited) end.
Lemma claimLimited_within_witness :
  queue_running "q" (snd limited_result) <= Z.max 2 (queue_running "q" limited).
Proof.
  apply (claimLimited_within limited limited_claim (nth 0 (db_queues limited) (new_queue "" 0)) (at_time 5000000)
           (fst limited_result) (snd limited_result) limited_reachable).
  - reflexivity.
  - vm_compute. reflexivity.
  - reflexivity.
Defined.

(** A workflow of three jobs in a chain, the first of which is running. *)
Definition chain : WorkflowInsertParams :=
  mkWorkflowInsertParams "chain" [job "w1" "" "" ""; job "w2" "" "" ""; job "w3" "" "" ""] []
    [mkJobDependency 1 0 DependencyCancel false 0; mkJobDependency 2 1 DependencyCancel false 0] None None None "" false.
Definition chained : DB := Eval vm_compute in snd (WorkflowInsert chain (at_time 1000000) empty_db).
Definition chain_running : DB := Eval vm_compute in snd (JobClaim (claim_as 7) (at_time 2000000) chained).
Definition chain_failed : finished := Eval vm_compute in mkFinished (row_at 0 chain_running) Discarded "[]" None None true.
Definition chain_finished : DB := Eval vm_compute in
  match finish chain_failed (at_time 3000000) chain_running with Ok (_, d) => d | Err _ => chain_running end.
Definition chain_settled : list finished * DB := Eval vm_compute in
  match tail [chain_failed] (at_time 3000000) chain_finished with Ok r => r | Err _ => ([], chain_finished) end.

Lemma chain_finished_wf : wf chain_finished.
Proof. split; [vm_compute; reflexivity|repeat constructor; vm_compute; discriminate|repeat constructor]. Qed.

Example chain_canceled : List.map fin_state (fst chain_settled) = [Discarded; Canceled; Canceled] /\ db_jobs (snd chain_settled) = [].
Proof. vm_compute. split; reflexivity. Qed.

Lemma tail_cascades_witness : not_pending (snd chain_settled) (j_ID (row_at 1 chain_running)).
Proof.
  destruct (tail_cascades [chain_failed] (at_time 3000000) chain_finished (fst chain_settled) (snd chain_settled) chain_finished_wf)
    as [_ H]; [vm_compute; reflexivity|].
  apply (H chain_failed (nth 0 (db_deps chain_finished) (mkDepRow 0 0 "" None false None))); [now left|reflexivity|now left|reflexivity|reflexivity].
Defined.

Definition chain_done : finished := Eval vm_compute in mkFinished (row_at 0 chain_running) Completed "[]" None None true.
Definition chain_promoted : list finished * DB := Eval vm_compute in
  match tail [chain_done] (at_time 3000000) chain_finished with Ok r => r | Err _ => ([], chain_finished) end.
Example chain_next : List.map j_State (db_jobs (snd chain_promoted)) = [Available; Pending].
Proof. vm_compute. reflexivity. Qed.

Lemma tail_promotes_witness : unready (snd chain_promoted) (j_ID (row_at 1 chain_running)).
Proof.
  apply (tail_promotes [chain_done] (at_time 3000000) chain_finished (fst chain_promoted) (snd chain_promoted) chain_finished_wf)
    with (f := chain_done) (e := nth 0 (db_deps chain_finished) (mkDepRow 0 0 "" None false None)).
  - intros f [<-|[]] j Hj E. exfalso. vm_compute in Hj, E. destruct Hj as [<-|[<-|[]]]; discriminate.
  - vm_compute. reflexivity.
  - now left.
  - now left.
  - reflexivity.
Defined.

Lemma stale_results_ignored_witness : snd (JobFinalizeMany failure false (at_time 9000000) reclaimed) = reclaimed.
Proof.
  apply (stale_results_ignored failure false (at_time 9000000) reclaimed).
  intros f j [<-|[]] Hj E. vm_compute in Hj. destruct Hj as [<-|[<-|[<-|[<-|[]]]]]; vm_compute in E; try discriminate. reflexivity.
Defined.

Lemma finalize_once_witness : exists out, JobFinalizeMany failure false (at_time 3000000) claimed = (Ok out, retried)
  /\ out <> [] /\ JobFinalizeMany failure true (at_time 9000000) retried = (Ok [], retried).
Proof.
  eexists. split; [vm_compute; reflexivity|]. split; [discriminate|].
  eapply (finalize_once failure false (at_time 3000000) true (at_time 9000000) claimed).
  - exact (reachable_wf claimed claimed_reachable).
  - intros f [<-|[]]. reflexivity.
  - reflexivity.
  - vm_compute. reflexivity.
Defined.

Lemma applyResult_spec_witness : exists out d',
  applyResult 5 (mkResult (outcome (row_at 2 claimed) 7 Completed) None None None) (at_time 3000000) claimed
  = Ok (Some (mkJobFinalized (j_ID (row_at 2 claimed)) 1 false, out), d').
Proof.
  destruct (applyResult_spec 5 (mkResult (outcome (row_at 2 claimed) 7 Completed) None None None) (row_at 2 claimed) (at_time 3000000)
              claimed (reachable_wf _ claimed_reachable)) as (out & d' & E & _).
  - right. right. now left.
  - reflexivity.
  - reflexivity.
  - reflexivity.
  - exists out, d'. exact E.
Defined.

(** A periodic job's slot. *)
Definition slot_1 : PeriodicInsertParams := mkPeriodicInsertParams "p" 60000000 (job "tick" "" "" "").
Definition ticked : result (option JobView * bool) * DB := Eval vm_compute in PeriodicInsert slot_1 (at_time 61000000) empty_db.
Lemma periodic_slot_once_witness : snd (PeriodicInsert slot_1 (at_time 62000000) (snd ticked)) = snd ticked.
Proof.
  destruct ticked as [[[[v|] b]|e] d1] eqn:E; try (vm_compute in E; discriminate).
  apply (periodic_slot_once slot_1 (at_time 61000000) empty_db v b d1 d1 slot_1 (at_time 62000000)).
  - rewrite <- E. vm_compute. reflexivity.
  - apply rtc_refl.
  - reflexivity.
  - reflexivity.
Defined.

(** A leader, and the takeover after its lease lapsed. *)
Definition led : DB := Eval vm_compute in snd (LeaderAttempt 1 10000000000 (at_time 1000000) empty_db).
Definition retaken : LeaderResult * DB := Eval vm_compute in
  match LeaderAttempt 2 10000000000 (at_time 12000000) led with (Ok r, d) => (r, d) | (Err _, d) => (no_leader, d) end.
Lemma leader_terms_increase_witness : 1000000 < lt_ElectedAt (fst retaken).
Proof.
  destruct (leader_terms_increase 1000000 led 2 10000000000 (at_time 12000000) (fst retaken) (snd retaken) (mkLeaderRow 1 1000000 11000000 None))
    as [(H & _)|[_ H]].
  - apply rtc_once. replace led with (snd (LeaderAttempt 1 10000000000 (at_time 1000000) empty_db)) by (vm_compute; reflexivity).
    apply (ls_attempt 0 1 10000000000 (at_time 1000000) empty_db); vm_compute; discriminate.
  - vm_compute. discriminate.
  - reflexivity.
  - vm_compute. reflexivity.
  - reflexivity.
  - discriminate H.
  - exact H.
Defined.

Lemma leader_excludes_witness : LeaderAttempt 2 10000000000 (at_time 11000000) led = (Ok no_leader, led).
Proof.
  apply (leader_excludes 1 10000000000 (at_time 1000000) empty_db (mkLeaderResult true 1000000 false) led).
  - vm_compute. reflexivity.
  - reflexivity.
  - reflexivity.
  - apply rtc_refl.
  - discriminate.
  - vm_compute. discriminate.
Defined.

(** A consumer of a stream of two events, one of which it matches. *)
Definition stream_consumer (metadata : string) : StreamConsumer := mkStreamConsumer "c" "a.#" "deliver" "q" 0 metadata true.
Definition event (topic : string) : StreamAppendParams := mkStreamAppendParams topic "k" "1" None false.
Definition streaming (metadata : string) : DB :=
  let d := snd (StreamConsumerUpsert [stream_consumer metadata] (at_time 1000000) empty_db) in
  let d := snd (StreamAppend (event "a.b") (at_time 2000000) d) in
  snd (StreamAppend (event "z") (at_time 3000000) d).
Definition streamed : DB := Eval vm_compute in streaming "{}".
Lemma streaming_reachable m : reachable (streaming m).
Proof.
  unfold streaming. eapply rtc_r; [|apply step_StreamAppend]. eapply rtc_r; [|apply step_StreamAppend].
  apply rtc_once. apply step_StreamConsumerUpsert.
Qed.
Lemma streamed_reachable : reachable streamed.
Proof. replace streamed with (streaming "{}") by (vm_compute; reflexivity). apply streaming_reachable. Qed.
Definition pumped : StreamPumpResult * DB := Eval vm_compute in
  match StreamPump "c" 5 (at_time 4000000) streamed with (Ok r, d) => (r, d) | (Err _, d) => (mkStreamPumpResult 0 (position 0) [], d) end.

Lemma pump_exactly_once_witness :
  exists new, db_jobs (snd pumped) = (db_jobs streamed ++ new)%list /\ pu_Delivered (fst pumped) = Z.of_nat (List.length new).
Proof.
  destruct (pump_exactly_once streamed "c" 5 (at_time 4000000) (nth 0 (db_consumers streamed) (mkConsumerRow "" "" "" "" None "" 0 0 None 0))
              [nth 0 (db_events streamed) (mkEventRow 0 "" None "" "" 0 0)] (fst pumped) (snd pumped) streamed_reachable)
    as (new & _ & _ & _ & H1 & _ & H2 & _).
  - reflexivity.
  - vm_compute. reflexivity.
  - vm_compute. reflexivity.
  - exists new. split; [exact H1|exact H2].
Defined.

Lemma topic_pattern_amqp_witness :
  exists e, regexp_compile (topicExpr (pattern_text [PLit [97]; PHash; PLit [98]])) = Some e /\ re_match e [97; 46; 98] = true.
Proof.
  destruct (topic_pattern_amqp [PLit [97]; PHash; PLit [98]] [97; 46; 98]) as (e & E & H).
  - discriminate.
  - repeat constructor; discriminate.
  - reflexivity.
  - exists e. split; [exact E|]. apply H. exists [[98]]. split; [reflexivity|]. exists [], [[98]]. split; [reflexivity|].
    exists []. split; reflexivity.
Defined.

Definition by_id : JobClaimByIDParams := mkJobClaimByIDParams (j_ID (row_at 0 limited)) 0 1000000000.
Lemma JobClaimByID_sound_witness : exists j, claimable limited by_id 5000000 j.
Proof.
  pose proof (JobClaimByID_sound limited by_id (at_time 5000000) limited_reachable) as H.
  destruct (JobClaimByID by_id (at_time 5000000) limited) as [[r|e] d'] eqn:E.
  - destruct H as (j & H & _); [vm_compute; discriminate|]. exists j. exact H.
  - vm_compute in E. discriminate E.
Defined.

Definition unique_insert : jobInsert := mkJobInsert "u" "q" 2 3 None "{}" "{}" [] "key" [] "" "" 0 0 false false 0.
Definition unique_result : JobInsertResult := Eval vm_compute in
  match insertOne ConflictSkip unique_insert (at_time 5000000) inserted with
  | Ok (r, _) => r | Err _ => mkJobInsertResult (live_view (row_at 0 inserted)) false end.
Lemma insertOne_unique_witness : ir_Duplicate unique_result = true /\ j_ID (v_job (ir_Job unique_result)) = j_ID (row_at 3 inserted).
Proof.
  pose proof (insertOne_unique ConflictSkip unique_insert (at_time 5000000) inserted unique_result inserted) as H.
  destruct H as (H1 & H2 & _); [discriminate|vm_compute; reflexivity|]. split; [exact H1|exact H2].
Defined.

Definition one_callback (metadata : string) : JobInsertParams :=
  mkJobInsertParams "done" "q" 2 3 None "{}" metadata [] "" [] "" "" 0 0 false.
Definition batched (metadata : string) : result JobID * DB :=
  BatchInsert 1 None None (Some (one_callback metadata)) "" (at_time 1000000) empty_db.
Definition batch_db : DB := Eval vm_compute in snd (batched "{}").
Definition batch_id : JobID := Eval vm_compute in match fst (batched "{}") with Ok id => id | Err _ => 0 end.
Definition batch_counted : DB := Eval vm_compute in
  match countBatch batch_id 1 0 (at_time 2000000) batch_db with Ok (_, d) => d | Err _ => batch_db end.
Lemma countBatch_once_witness : exists new, db_jobs batch_counted = new /\ List.length new = 1%nat.
Proof.
  pose proof (countBatch_once batch_id 1 0 (at_time 2000000) batch_db tt batch_counted) as H.
  destruct H as (b' & _ & _ & _ & _ & new & H1 & H2); [vm_compute; reflexivity|]. exists new. split; [exact H1|exact H2].
Defined.

(** ** Defects the model shows *)

(** A number far beyond the range of Postgres's numeric passes the check
    meant to refuse it: the sum of its digits and exponent wraps around, while
    the first number past the range is refused; and two numbers of different
    value share the canonical text that equal numbers share. *)
Theorem checkNumber_wraps :
  checkNumber "1e9223372036854775807" = Ok tt
  /\ checkNumber "1e131072" = Err (ErrText "beyond the range of Postgres's numeric")
  /\ canonicalNumber "10e9223372036854775807" = canonicalNumber "1e-9223372036854775808".
Proof. vm_compute. repeat split; reflexivity. Qed.

(** The one job of a batch whose callback has the metadata [m], claimed. *)
Definition batch_job (m : string) : DB :=
  let '(r, d) := batched m in
  let id := match r with Ok id => id | Err _ => 0 end in
  let p := mkJobInsertParams "work" "q" 2 3 None "{}" "{}" [] "" [] "" "" id 0 false in
  let d := snd (JobInsertMany [p] skip_conflicts (at_time 2000000) d) in
  snd (JobClaim (claim_as 7) (at_time 3000000) d).
Definition complete_batch_job (m : string) : result (list JobFinalized) * DB :=
  let d := batch_job m in
  JobFinalizeMany (finalize (outcome (row_at 0 d) 7 Completed)) false (at_time 4000000) d.

(** A batch callback whose metadata is the JSON null is accepted, and then
    completing the batch's last job panics on a nil map and is rolled back: the
    job stays running and the batch never completes.  With an object as metadata
    the same calls complete the batch. *)
Theorem callback_null_metadata_panics :
  fst (complete_batch_job "null") = Err (ErrPanic "assignment to entry in nil map")
  /\ List.map j_State (db_jobs (snd (complete_batch_job "null"))) = [Running]
  /\ (exists r, fst (complete_batch_job "{}") = Ok r)
  /\ List.map j_Kind (db_jobs (snd (complete_batch_job "{}"))) = ["done"].
Proof. vm_compute. repeat split; try reflexivity. eexists. reflexivity. Qed.

(** A stream consumer whose metadata is the JSON null is accepted, and
    then pumping its first matching event panics on a nil map, so nothing is
    ever delivered to it; with an object as metadata the pump delivers. *)
Theorem consumer_null_metadata_panics :
  fst (StreamPump "c" 5 (at_time 4000000) (streaming "null")) = Err (ErrPanic "assignment to entry in nil map")
  /\ snd (StreamPump "c" 5 (at_time 4000000) (streaming "null")) = streaming "null"
  /\ fst (StreamPump "c" 5 (at_time 4000000) (streaming "{}")) = Ok (mkStreamPumpResult 1 (position 1) ["q"]).
Proof. vm_compute. repeat split; reflexivity. Qed.

(** ** A worker that panics on its first attempt *)

Definition panicked : work_error := mkWorkError "panic: boom" None false false false "main.go:1".
Definition quiet_end : ending := mkEnding None None None (mkErrorOutcome None 0 false) 0 [None; None; None] 0 (f_of_Z 0).
Definition nothing_left : left_behind := mkLeft None "" None false.
Definition panic_result : submission := execute (row_at 0 claimed) false None quiet_end (Some panicked) nothing_left (Err ErrNotFound).

Lemma execute_result_witness : f_State (s_result panic_result) = Retryable /\ f_Delay (s_result panic_result) = 5400000000
  /\ f_Fence (s_result panic_result) = 1.
Proof.
  split; [vm_compute; reflexivity|]. split; [vm_compute; reflexivity|].
  destruct (execute_result (row_at 0 claimed) false None quiet_end (Some panicked) nothing_left (Err ErrNotFound)) as (_ & _ & E & _); [discriminate|].
  exact E.
Defined.

Definition panic_encoded : result_ := Eval vm_compute in
  match encodeResult (s_result panic_result) with Ok r => r | Err _ => mkResult (s_result panic_result) None None None end.

(** The statement that writes it commits, its answer is lost, and it is sent again. *)
Definition lost_answer : list (answer (Store.w * bool)) :=
  [AnswerLost (at_time 3000000, false) false false; Answered (at_time 3500000, false) false (fun _ => true)].
Definition resent : flushed (E := DB) (Env := Store.w * bool) := Eval cbv in
  match write_ 10 5 (mkFlushed claimed [] [] [] [] [] [] [] lost_answer) [panic_result] false with
  | Some w => w | None => mkFlushed claimed [] [] [] [] [] [] [] [] end.
Lemma write_settles_witness : write_ 10 5 (mkFlushed claimed [] [] [] [] [] [] [] lost_answer) [panic_result] false = Some resent
  /\ w_dropped resent = [panic_result] /\ unowned (s_result panic_result) (w_exec resent).
Proof.
  assert (H : write_ 10 5 (mkFlushed claimed [] [] [] [] [] [] [] lost_answer) [panic_result] false = Some resent) by (vm_compute; reflexivity).
  split; [exact H|]. assert (D : w_dropped resent = [panic_result]) by (vm_compute; reflexivity). split; [exact D|].
  apply (write_settles (X := sqlite_executor) 10 5 claimed lost_answer [panic_result] false resent).
  - exact (reachable_wf claimed claimed_reachable).
  - intros p [<-|[]]. split; [repeat split|]. intros j Hj E. vm_compute in Hj.
    destruct Hj as [<-|[<-|[<-|[<-|[]]]]]; vm_compute in E; try discriminate E. intros _ _ _. vm_compute. reflexivity.
  - exact H.
  - rewrite D. apply in_app_iff. right. now left.
Defined.

(** A workflow of named steps, the second left unnamed and the third's name not ASCII. *)
Definition accented : string := String.append "r" (encode_rune 233).
Definition named_chain : WorkflowInsertParams :=
  mkWorkflowInsertParams "named" [job "w1" "" "" ""; job "w2" "" "" ""; job "w3" "" "" ""] ["load"; ""; accented]
    [mkJobDependency 1 0 DependencyCancel false 0; mkJobDependency 2 0 DependencyCancel false 3] None None None "" false.
Definition named_inserted : result WorkflowInsertResult * DB := Eval vm_compute in WorkflowInsert named_chain (at_time 1000000) empty_db.
Definition named_result : WorkflowInsertResult := Eval vm_compute in
  match fst named_inserted with Ok r => r | Err _ => mkWorkflowInsertResult 0 [] end.
Lemma workflow_read_back_witness : exists got, WorkflowGet (wr_ID named_result) (snd named_inserted) = Ok got
  /\ List.map je_AnyOf (wf_Edges got) = [0; 3] /\ In (j_ID (row_at 2 (snd named_inserted)), accented) (wf_Steps got).
Proof.
  destruct (workflow_read_back named_chain (at_time 1000000) empty_db named_result (snd named_inserted)) as (got & Hg & Hj & (He & Hs) & _).
  - vm_compute. reflexivity.
  - repeat constructor.
  - intros v [].
  - exists got. split; [exact Hg|]. split; [rewrite He; reflexivity|]. apply Hs. rewrite Hj. vm_compute. split; [auto|discriminate].
Defined.

(** A listing of the lane's queue over live and finished jobs, two a page, newest first. *)
Definition lane_done : DB := Eval vm_compute in
  snd (JobFinalizeMany (finalize (outcome (row_at 0 claimed) 7 Completed)) false (at_time 3000000) claimed).
Definition newest_two : JobListParams := mkJobListParams "q" [] [] "" true 0 2 [] [] [] [] "".
Lemma lane_done_wf : wf lane_done.
Proof. split; [vm_compute; reflexivity|repeat constructor; vm_compute; discriminate|repeat constructor]. Qed.

Lemma JobList_reference_witness : exists page, JobList newest_two lane_done = Ok page /\ List.length page = 2%nat.
Proof.
  eexists. split; [apply (JobList_reference newest_two lane_done lane_done_wf); reflexivity|]. vm_compute. reflexivity.
Defined.

Lemma JobList_pages_witness : exists all, pages lane_done 4 newest_two = Ok all /\ List.map (fun v => j_State (v_job v)) all = [Running; Running; Available; Completed].
Proof.
  eexists. split.
  - apply (JobList_pages newest_two lane_done 4 lane_done_wf); [reflexivity|reflexivity| | |].
    + apply (nodupb_NoDup Z.eqb); [apply Z.eqb_eq|]. vm_compute. reflexivity.
    + intros v Hv. vm_compute in Hv. destruct Hv as [<-|[<-|[<-|[<-|[]]]]]; vm_compute; reflexivity.
    + vm_compute. lia.
  - vm_compute. reflexivity.
Defined.

(** Client 7 has no lease, so a leader frees the jobs it runs. *)
Definition pass_tuning : Duties.tuning :=
  mkTuning 1000 5000000000 300000000000 0 0 (mkClientRegisterParams "leader" 15000000000 "").
(** Before each statement, client 3 renews its lease. *)
Definition renewed (k : nat) (d : DB) : DB := snd (ClientRenew 3 15000000000 (at_time (5000000 + Z.of_nat k)) d).
Definition calm_calls (k : nat) : call := mkCall (at_time (5000000 + Z.of_nat k)) (5000000000 + Z.of_nat k) false None (renewed k).
Lemma renewed_jobs k d : db_jobs (renewed k d) = db_jobs d.
Proof. unfold renewed, ClientRenew, ClientRenew_w. cbn. repeat case_match; reflexivity. Qed.
Definition before_pass : duty := mkDuty 0 claimed 9 0 0 0 [] [] [] [].


(** ** A job of two steps, the second of which fails once *)

Definition import_steps : list JobStep :=
  [mkJobStep "download" (Some (fun wk => (Ok tt, wk)));
   mkJobStep "load" (Some (fun wk => (if wk_attempt wk =? 1 then Err (ErrText "timeout") else Ok tt, wk)))].
Definition step_calls (_ : nat) : w * bool := (at_time 2500000, false).

(** The attempt under way of the first job of [d]. *)
Definition attempt_in (d : DB) (client : Z) : worker :=
  let j := row_at 0 d in
  mkWorker InAttempt (j_ID j) client (j_Fence j) (j_Attempt j) (match j_Progress j with Some t => DecodeProgress t | None => None end) false false 0 d.
Definition first_try : steps_result * worker * list (string * bool) := Eval vm_compute in RunSteps step_calls import_steps (attempt_in claimed 7).
Definition claimed_again : DB := Eval vm_compute in
  let d := wk_db (snd (fst first_try)) in
  snd (JobClaim (claim_as 8) (at_time 4000000) (snd (JobFinalizeMany (finalize (outcome (row_at 0 d) 7 Retryable)) false (at_time 3000000) d))).
Definition second_try : steps_result * worker * list (string * bool) := Eval vm_compute in RunSteps step_calls import_steps (attempt_in claimed_again 8).

Example import_runs : snd first_try = [("download", true); ("load", false)] /\ snd second_try = [("load", true)]
  /\ fst (fst second_try) = StepsReturn (Ok tt).
Proof. repeat split; reflexivity. Qed.

(** The first attempt's failure is written, and the job is claimed again. *)
Lemma second_follows : follows (snd (fst first_try)) (attempt_in claimed_again 8).
Proof.
  constructor.
  - reflexivity.
  - reflexivity.
  - vm_compute. reflexivity.
  - split; [vm_compute; reflexivity|repeat constructor; vm_compute; discriminate|constructor].
  - set (d := wk_db (snd (fst first_try))).
    apply (rtc_l _ _ (snd (JobFinalizeMany (finalize (outcome (row_at 0 d) 7 Retryable)) false (at_time 3000000) d))); [apply kp_JobFinalizeMany|].
    apply (rtc_l _ _ (snd (JobClaim (claim_as 8) (at_time 4000000) (snd (JobFinalizeMany (finalize (outcome (row_at 0 d) 7 Retryable)) false (at_time 3000000) d)))));
      [apply kp_JobClaim|]. apply rtc_refl.
  - exists (row_at 0 (wk_db (snd (fst first_try)))), (row_at 0 claimed_again). split; [now left|]. split; [now left|]. split; vm_compute; reflexivity.
  - vm_compute. reflexivity.
Qed.

Lemma steps_resume_witness : exists e q, fst (fst second_try) = StepsReturn e /\ resumes (StepsSpec.names import_steps) [snd first_try; snd second_try] q
  /\ (e = Ok tt -> q = 2%nat).
Proof.
  destruct (steps_resume import_steps [snd first_try; snd second_try] (fst (fst second_try)) (snd (fst second_try))) as (e & q & Er & Hr & _ & He).
  - reflexivity.
  - apply List.Forall_forall. intros s [<-|[<-|[]]] run wk r wk' [= <-] [= <- <-]; split; [reflexivity|auto|reflexivity|auto].
  - apply (attempts_next _ step_calls [snd first_try] (fst (fst first_try)) (snd (fst first_try)) (attempt_in claimed_again 8)).
    + apply (attempts_first _ step_calls (attempt_in claimed 7)); vm_compute; reflexivity.
    + exact second_follows.
    + vm_compute. reflexivity.
  - exists e, q. split; [exact Er|]. split; [exact Hr|]. intros Hok. apply (He Hok).
Defined.

(** ** A producer of two workers, both taken, woken by an insert *)

Definition q_config : producerConfig := mkProducerConfig "q" 2 1000000000 10000000.

Lemma both_workers_taken : exists s poll, produces q_config s /\ pd_place (pn_producer s) = Selecting None poll
  /\ pd_due (pn_producer s) = true /\ pd_wake (pn_producer s) = false /\ pd_freed (pn_producer s) = false /\ pd_running (pn_producer s) = 2.
Proof.
  eexists. eexists. split; [|split; [|split; [|split; [|split]]]].
  - exists 0, false, false.
    eapply rtc_l. { apply (pn_engine q_config 0 empty_db inserted). concrete_step inserted (snd (JobInsertMany the_jobs skip_conflicts (at_time 1000000) empty_db)). apply step_JobInsertMany. }
    eapply rtc_l. { apply pn_count. reflexivity. }
    eapply rtc_l. { eapply (pn_consider q_config 0 inserted _ 2). reflexivity. }
    eapply rtc_l. { eapply (pn_claim q_config 0 inserted _ _ 2 7 (at_time 2000000)); vm_compute; reflexivity. }
    eapply rtc_l. { eapply pn_start. reflexivity. }
    eapply rtc_l. { eapply pn_start. reflexivity. }
    eapply rtc_l. { eapply (pn_claimed q_config 0 _ _ 2 2 0 false). reflexivity. }
    eapply rtc_l. { apply pn_wake. }
    eapply rtc_l. { apply pn_count. reflexivity. }
    eapply rtc_l. { eapply (pn_consider q_config 0 _ _ 0). reflexivity. }
    eapply rtc_l. { eapply pn_woken; reflexivity. }
    eapply rtc_l. { apply pn_count. reflexivity. }
    eapply rtc_l. { eapply (pn_consider q_config 0 _ _ 0). reflexivity. }
    apply rtc_refl.
  - vm_compute. reflexivity.
  - vm_compute. reflexivity.
  - vm_compute. reflexivity.
  - vm_compute. reflexivity.
  - vm_compute. reflexivity.
Qed.

Lemma producer_within_workers_witness : exists s, produces q_config s /\ total unfreed (pd_jobs (pn_producer s)) = 2%nat.
Proof.
  destruct both_workers_taken as (s & poll & Hs & _ & _ & _ & _ & Hr). exists s. split; [exact Hs|].
  destruct (producer_within_workers q_config s ltac:(cbn; lia) Hs) as (E & _). rewrite Hr in E. lia.
Defined.

Lemma producer_not_asleep_witness : exists s, produces q_config s /\ pd_due (pn_producer s) = true
  /\ (pd_paused (pn_producer s) = true \/ pd_running (pn_producer s) = 2 \/ pd_resuming (pn_producer s) <> O \/ signaling (pn_producer s)).
Proof.
  destruct both_workers_taken as (s & poll & Hs & Hp & Hd & Hw & Hf & _). exists s. split; [exact Hs|]. split; [exact Hd|].
  exact (producer_not_asleep q_config s poll ltac:(cbn; lia) Hs Hp Hd Hw Hf).
Defined.

(** ** A job claimed by ID, and finished under its lease *)

Definition lease_config : leaseConfig := mkLeaseConfig 0 10 false.
Definition leased_job : result JobLease * DB := Eval vm_compute in claimByID (j_ID (row_at 0 limited)) 0 0 (at_time 5000000) limited.
Definition lease_token : LeaseToken := Eval vm_compute in match fst leased_job with Ok l => jl_Token l | Err _ => no_token end.
Definition lease_done : result (list string) * DB := Eval vm_compute in
  Finish lease_config lease_token (mkLeaseResult None None) quiet_end false (at_time 6000000) None (snd leased_job) (snd leased_job).

Lemma lease_finished_once_witness : in_lease lease_token (snd leased_job) /\ Renew lease_token (at_time 7000000) (snd lease_done) = (Err ErrJobFenced, snd lease_done).
Proof.
  assert (Hw : wf (snd leased_job)).
  { apply reachable_wf. eapply rtc_r; [exact limited_reachable|].
    concrete_step (snd leased_job) (snd (JobClaimByID (mkJobClaimByIDParams (j_ID (row_at 0 limited)) 0 60000000000) (at_time 5000000) limited)). apply step_JobClaimByID. }
  assert (E : Finish lease_config lease_token (mkLeaseResult None None) quiet_end false (at_time 6000000) None (snd leased_job) (snd leased_job) = (Ok [], snd lease_done))
    by (vm_compute; reflexivity).
  destruct (lease_finished_once lease_config lease_token (mkLeaseResult None None) quiet_end false (at_time 6000000) None (snd leased_job) (snd leased_job) (Ok []) (snd lease_done) Hw E)
    as (Hin & Hr & _).
  split; [exact Hin|exact (Hr _)].
Defined.
